(* ===== verification/_CoqProject ===== *)
-Q . S2P
Prelude.v
GoTime.v
GoFmt.v
Crc32.v
GoOs.v
Pebble.v
PebbleRef.v
Keys.v
Wal.v
BlockMetaDB.v
IdxDB.v
Expiry.v
Event.v
Memtable.v
Bloom.v
Format.v
Tier.v
GoFloat.v
World.v
Sealer.v
RingBuf.v
BlockReader.v
Heap.v
Merger.v
Index.v
BloomCache.v
Query.v
QueryPar.v
QueryExact.v
Ttl.v
TtlRun.v
Reap.v
Writer.v
Json.v
MetaDB.v
WriterRun.v
Ingest.v
IngestRun.v
WriterMap.v
QueryServer.v
Config.v
Logger.v
Interceptor.v
Server.v
System.v
SystemRefines.v
SystemRuns.v
Recovery.v
Rpc.v
Boot.v
Lifecycle.v
Main.v
