(* ===== verification/Prelude.v ===== *)
(** * BBDB: a verification of the event store

    BBDB stores immutable events, grouped by partition key and event type, in
    columnar block files with metadata in an embedded key-value store.  This
    library models its Go code under [internal/] and proves what the
    components promise each other and their clients.

    ** The program

    The write path: the ingestion service (internal/grpc) resolves keys and
    timestamps and routes each event to the shard of its type and key hash;
    the shard's writer (internal/ingestion) takes events through a lock-free
    ring buffer, logs them in the write-ahead log (internal/meta) and
    collects them in a memtable (internal/block).  Each hour, at a size limit
    and on shutdown the sealer (internal/block) writes the sorted table as a
    block file with a bloom filter into the hot tier (internal/tier), indexes
    its keys and commits metadata, expiry and log truncation in one batch.
    The read path: the query service asks the engine (internal/query), which
    finds candidate blocks in the sparse index, skips blocks by their bloom
    filter through a cache (internal/index), reads the matching rows and
    merges them.  In the background (internal/ttl) the reaper deletes expired
    blocks and the janitor removes metadata whose files are gone.  The command
    (cmd/bbdb) loads the configuration (internal/config), installs the logger
    (internal/logger), builds the server (internal/server), which opens the
    store and wires the parts, and runs it until a signal; then the server
    stops the parts and closes the store.

    ** Files

    Foundations:
    - [Prelude]: bytes, machine words with explicit wrap-around, big- and
      little-endian codecs, byte order, errors, the state and error monad
      [ST] with its notation, tactics and the hint database [bbdb];
    - [GoTime], [GoFmt], [GoFloat], [Crc32], [GoOs], [Heap]: the parts of Go's
      standard library the code uses (calendar, formatting and parsing,
      [float64] hours, checksum, files, container/heap), with their theory.
      [GoOs] is a disk on which any system call may fail, a failed write
      having written any prefix;
    - [Pebble]: the interface of the key-value store, third-party code, as a
      class of operations and a class of laws, with the theory of range
      scans; [PebbleRef] an implementation with injected failures.  The other
      third-party parts are the classes [XXHash] ([Event]), [BloomLib]
      ([Bloom]) and [Zstd] ([Format]); [SliceSort] ([Memtable]) is the
      contract of sort.Slice and [MapOrder] the unspecified iteration order of
      Go maps.  Each has an instance, on which the witnesses run;
    - [World]: key-value store and disk together.

    Components, with the source file of the same part:
    - [Keys] (meta/keys.go, meta/types.go), [Wal] (meta/wal.go,
      meta/recovery.go), [BlockMetaDB] (meta/block.go, meta/migration.go),
      [IdxDB] (index entries of meta/keys.go), [Expiry] (meta/expiry.go,
      meta/seal.go, meta/ttl_batch.go), [MetaDB] (all write operations of
      meta/ together);
    - [Event], [Memtable], [Bloom], [Format], [Sealer] (block/);
    - [Tier] (tier/): the store interface [TierStore], its laws [TierLaws] and
      the local store that satisfies them;
    - [RingBuf], [Writer] (ingestion/), [WriterRun] (the goroutine of
      ingestion/writer.go as a loop over ticks and writes), [Json] (a decoder
      of the log entries ingestion/writer.go makes with [json.Marshal]);
    - [Index] (the interface [index.Index] with its laws, and the sparse index
      that satisfies them), [BloomCache] (index/);
    - [BlockReader], [Merger], [Query] (query/), [QueryPar] (the reader
      goroutines of query/query.go as a step relation), [QueryExact] (answers
      counted, and what a query leaves in the cache);
    - [Ttl] (ttl/), [TtlRun] (the loops of ttl/), [Reap] (a cycle as a change
      of the abstract database);
    - [Ingest] (grpc/convert.go, grpc/ingestion_server.go), [IngestRun] (the
      service over a history of batches and ticks, and its Stop), [WriterMap]
      (the locks of its writer map), [QueryServer] (grpc/query_server.go);
    - [Config] (config/config.go), [Logger] (logger/logger.go), [Interceptor]
      (grpc/interceptor.go, grpc/request_id.go), [Server] (New and accessors
      of server/server.go, creation in grpc/server.go, meta/db.go),
      [Lifecycle] (Run and Shutdown of server/server.go with Run of
      grpc/server.go and of the two loops, as a step relation over the
      positions of all goroutines), [Main] (cmd/bbdb/main.go).

    The program at work:
    - [System]: the running process as a step relation over the functions of
      the components (a batch, a tick of a writer, a query, a scan and one
      entry of the reaper or the janitor are a step each, in any order), and
      the abstract event store it is compared with;
    - [SystemRefines]: the relation between the two and that every step of the
      one is matched by a step of the other;
    - [SystemRuns]: what follows for whole runs; [Recovery]: what a crash
      leaves (meta/recovery.go); [Rpc]: what clients of the two services see;
      [Boot]: that the server [New] builds is such a system.

    Go functions keep their names; where one Go function is split, the parts
    have lower-case names and comments say which part they are.  A function
    with effects is a computation in [ST] over the state it changes; an
    integer is a [Z] with the wrap-around of its width written out ([u8] to
    [u64], [i64]); a panic is an error value; a nil and an empty slice are the
    same value, except where the code tells them apart.

    ** What is proved

    - Metadata: the six key families are injective, disjoint and ordered as
      their scans need; appending, scanning, truncating and recovering the log
      act on its abstract list; expiry and index scans are exact; the two
      batches are atomic; the database is typed, whatever sequence of write
      operations ran and wherever they failed.
    - Blocks: sorting permutes whole rows, columns and headers decode to what
      was encoded, a corrupted header byte is detected, bloom filters have no
      false negatives, and a sealed block reads back.
    - Sealing is crash safe: whatever fails, the log still holds the events or
      the block is complete and registered; on a working disk it succeeds.
    - The abstract database of [Query] is a finite map from block identifiers
      to tables; [consistent] relates it to store and disk.  A seal refines
      the insertion of a block, a query the selection of its rows; queries
      over working stores return.
    - The ring buffer is a FIFO queue for one producer and one consumer under
      every interleaving of their atomic accesses, by rule induction over the
      step relation, also when the 64-bit counters wrap around.
    - A flush is total and seals exactly when its triggers say; a batch is
      routed completely and in order; a query is answered by a well-formed
      stream; reaper and janitor delete what is due and nothing else, in
      any interleaving of any number of cycles.
    - Whole runs: a writer accounts for every event at any moment of its run
      and has made all of them durable when it is stopped, and a query then
      finds them; the service, over any history of batches and ticks of any
      writers, loses nothing it accepted.
    - The system: the server [New] builds, from a new database on, is a
      refinement of an abstract event store whose whole interface is to take
      batches, to seal what waits in a shard, to drop blocks that are due and
      to answer queries from the sealed blocks.  So nothing acknowledged is
      lost before its block expires, queries are always answered, with
      multiplicities and through a cache that is never stale for an existing
      block, a cycle of the reaper leaves exactly the blocks that are not due,
      a stop seals everything, and replaying the log after a crash finds all
      but the queues.  Whole cycles of the reaper and the janitor and whole
      write streams are shown to be runs of these steps.
    - Goroutines: the pool of readers gives the results of the sequential
      reads within its limit and always ends; the double-checked writer map
      creates one writer a shard and cannot block; the server closes its
      database last and, short of the timeout, under nobody.
    - Set-up: every configuration field has its documented source; the logger
      refuses unknown levels and formats; the interceptors change no answer;
      building the server opens all or nothing and puts its writers in the
      setting the whole-run theorems ask for; the start command names the
      stage that fails and leaves no database open.
    - Where the code does not keep these promises the failing cases are
      theorems too: two seals in an hour, a failed seal, two producers, rows
      outside their block's hour, events after an idle spell, shard 65535, a failed metadata read in the
      reaper, a damaged footer, ring sizes above 2^62, batches accepted after
      the writers were stopped, and what a shutdown that meets its timeout or
      a gRPC server that cannot listen leads to.

    The whole-run theorems ask for what the failing cases violate: a working
    store and disk, one block an hour and shard (a table below its size limit),
    no block of the current hour left from before, one producer at a time and
    buffers that are not overrun between ticks.  The theorems on the system ask
    for the same, for libraries that work, which [Boot] names, and for fewer
    than 2^64 events, the range of the log's sequence numbers.

    ** Fuel and bounds

    Loops that are not structural take fuel: payload decoding the length of
    its input (each round consumes a length prefix), the heap the length of
    the heap, merging the number of events, draining the buffer's capacity,
    cache eviction the number of entries, index chunks the number of hashes,
    batching the number of events.  That the fuel is enough is part of the
    theorems, which give the results themselves.  [nextPow2] has fuel 63, the
    number of doublings before an [int] overflows; that the loop does not end
    beyond is a theorem for every fuel.  [max_alloc] bounds a Go allocation.

    ** What is not modelled

    Third-party code is a parameter: the store, the hash, the compressor, the
    bloom filter, viper's file parsing and conversion of values, zap's
    encoders, sinks and flushing, and the gRPC transport, of which [Lifecycle] keeps the
    number of open streams.  Cobra's parsing of the command line, generated
    protobuf code and log messages other than the interceptors' are left out,
    as is the raw handle [DB.Pebble].  Time passes as inputs: ticks, clock
    readings and the moment of cancellation are arguments.  In [WriterRun],
    [IngestRun] and [System] a batch, a tick, a query, an entry of a cycle or a
    stop is one step; the interleaving of the atomic accesses within is the
    subject of [RingBuf], [QueryPar] and [WriterMap].  The replay in [Recovery]
    is the use the log is made for; the program itself never replays it.
    Planned next: runs of the system whose store and disk fail, with the blocks
    and the logs of other shards unharmed, and a second process on the data
    directory of a stopped one. *)
From Stdlib Require Export ZArith Lia Bool String Ascii.
From stdpp Require Export base list gmap sorting.
#[global] Open Scope Z_scope.
#[global] Set Default Goal Selector "1".

(** ** Bytes and machine words

    A Go [[]byte] and a Go [string] are both sequences of bytes; they are
    modelled as lists of [Z]. *)
Abbreviation bytes := (list Z).

Definition bytes_of_string (s : string) : bytes :=
  map (fun a => Z.of_N (N_of_ascii a)) (list_ascii_of_string s).

Declare Scope bbdb_scope.
Delimit Scope bbdb_scope with bbdb.
Notation "'b!' s" := (bytes_of_string s%string) (at level 5, s at level 0) : bbdb_scope.
#[global] Open Scope bbdb_scope.

(** Conversions to the machine widths the code uses.  Unsigned conversions
    reduce modulo [2^w]; [i64] reinterprets the low 64 bits in two's complement. *)
Definition u8 (z : Z) : Z := z mod 2 ^ 8.
Definition u16 (z : Z) : Z := z mod 2 ^ 16.
Definition u32 (z : Z) : Z := z mod 2 ^ 32.
Definition u64 (z : Z) : Z := z mod 2 ^ 64.
Definition i64 (z : Z) : Z :=
  let r := z mod 2 ^ 64 in if r <? 2 ^ 63 then r else r - 2 ^ 64.

Definition is_u8 (z : Z) : Prop := 0 <= z < 2 ^ 8.
Definition is_u16 (z : Z) : Prop := 0 <= z < 2 ^ 16.
Definition is_u32 (z : Z) : Prop := 0 <= z < 2 ^ 32.
Definition is_u64 (z : Z) : Prop := 0 <= z < 2 ^ 64.
Definition is_i64 (z : Z) : Prop := - 2 ^ 63 <= z < 2 ^ 63.
Definition are_bytes (l : bytes) : Prop := Forall is_u8 l.

Create HintDb bbdb.

(** [a << k | b] with a [b] of [k] bits. *)
Lemma lor_shift a b k : 0 <= k → 0 <= b < 2 ^ k → Z.lor (Z.shiftl a k) b = a * 2 ^ k + b.
Proof.
  intros Hk Hb. rewrite Z.shiftl_mul_pow2 by done.
  assert (Z.land (a * 2 ^ k) b = 0) as Hd.
  { apply Z.bits_inj'. intros n Hn. rewrite Z.bits_0, Z.land_spec. destruct (decide (n < k)).
    - by rewrite Z.mul_pow2_bits_low.
    - destruct (decide (b = 0)) as [->|]; [by rewrite Z.bits_0, andb_false_r|].
      rewrite (Z.bits_above_log2 b n); [apply andb_false_r|lia|].
      apply Z.lt_le_trans with k; [apply Z.log2_lt_pow2; lia|lia]. }
  by rewrite Z.add_nocarry_lxor, Z.lxor_lor.
Qed.

Lemma u8_id z : is_u8 z → u8 z = z.
Proof. apply Z.mod_small. Qed.
Lemma u16_id z : is_u16 z → u16 z = z.
Proof. apply Z.mod_small. Qed.
Lemma u32_id z : is_u32 z → u32 z = z.
Proof. apply Z.mod_small. Qed.
Lemma u64_id z : is_u64 z → u64 z = z.
Proof. apply Z.mod_small. Qed.

Lemma u64_range z : is_u64 (u64 z).
Proof. apply Z.mod_pos_bound; lia. Qed.
Lemma u32_range z : is_u32 (u32 z).
Proof. apply Z.mod_pos_bound; lia. Qed.
Lemma u16_range z : is_u16 (u16 z).
Proof. apply Z.mod_pos_bound; lia. Qed.
Lemma u8_range z : is_u8 (u8 z).
Proof. apply Z.mod_pos_bound; lia. Qed.

Lemma i64_range z : is_i64 (i64 z).
Proof.
  unfold i64, is_i64. pose proof (Z.mod_pos_bound z (2 ^ 64) ltac:(lia)).
  destruct (Z.ltb_spec (z mod 2 ^ 64) (2 ^ 63)); lia.
Qed.

(** Converting an [int64] to [uint64] and back is the identity. *)
Lemma i64_u64 z : is_i64 z → i64 (u64 z) = z.
Proof.
  unfold i64, u64, is_i64. intros. rewrite Z.mod_mod by lia.
  destruct (Z.ltb_spec (z mod 2 ^ 64) (2 ^ 63)) as [H1|H1];
    pose proof (Z.div_mod z (2 ^ 64) ltac:(lia));
    pose proof (Z.mod_pos_bound z (2 ^ 64) ltac:(lia)); nia.
Qed.

Lemma i64_id z : is_i64 z → i64 z = z.
Proof.
  intros H. rewrite <- (i64_u64 z H) at 2.
  unfold i64, u64. by rewrite Z.mod_mod by lia.
Qed.

#[export] Hint Resolve u8_range u16_range u32_range u64_range i64_range : bbdb.

(** ** Big-endian integers: [binary.BigEndian] *)

(** [be n z] is what [PutUint16]/[PutUint32]/[PutUint64] write for [n] = 2, 4, 8. *)
Fixpoint be (n : nat) (z : Z) : bytes :=
  match n with
  | O => []
  | S k => u8 (Z.shiftr z (8 * Z.of_nat k)) :: be k z
  end.

(** [unbe l] is what [Uint16]/[Uint32]/[Uint64] read from the bytes [l]. *)
Definition unbe (l : bytes) : Z := fold_left (fun acc b => acc * 256 + b) l 0.

Lemma length_be n z : length (be n z) = n.
Proof. induction n; simpl; congruence. Qed.

Lemma pow256_pos n : 0 < 256 ^ Z.of_nat n.
Proof. apply Z.pow_pos_nonneg; lia. Qed.

Lemma pow256_S n : 256 ^ Z.of_nat (S n) = 256 ^ Z.of_nat n * 256.
Proof. rewrite Nat2Z.inj_succ, Z.pow_succ_r by lia. lia. Qed.

Lemma be_head z k : u8 (Z.shiftr z (8 * Z.of_nat k)) = (z / 256 ^ Z.of_nat k) mod 256.
Proof.
  unfold u8. rewrite Z.shiftr_div_pow2 by lia. do 2 f_equal.
  rewrite Z.pow_mul_r by lia. done.
Qed.

Lemma unbe_acc n z acc :
  fold_left (fun a b => a * 256 + b) (be n z) acc
  = acc * 256 ^ Z.of_nat n + z mod 256 ^ Z.of_nat n.
Proof.
  revert acc. induction n as [|n IH]; intros acc.
  - simpl. rewrite Z.mod_1_r. lia.
  - cbn [be fold_left]. rewrite IH, be_head, pow256_S.
    rewrite (Z.rem_mul_r z (256 ^ Z.of_nat n) 256); pose proof (pow256_pos n); lia.
Qed.

Lemma unbe_be n z : unbe (be n z) = z mod 256 ^ Z.of_nat n.
Proof. unfold unbe. rewrite unbe_acc. lia. Qed.

Lemma unbe_be8 z : unbe (be 8 z) = u64 z.
Proof. apply unbe_be. Qed.
Lemma unbe_be4 z : unbe (be 4 z) = u32 z.
Proof. apply unbe_be. Qed.
Lemma unbe_be2 z : unbe (be 2 z) = u16 z.
Proof. apply unbe_be. Qed.

Lemma be_mod n z : be n (z mod 256 ^ Z.of_nat n) = be n z.
Proof.
  assert (∀ k, (k ≤ n)%nat → be k (z mod 256 ^ Z.of_nat n) = be k z) as H; [|by apply H].
  induction k as [|k IH]; [done|]. intros Hk. cbn [be]. rewrite IH by lia. f_equal.
  rewrite !be_head.
  replace (Z.of_nat n) with (Z.of_nat k + 1 + Z.of_nat (n - k - 1)) by lia.
  rewrite !Z.pow_add_r by lia.
  rewrite <- !Z.mul_assoc, Z.rem_mul_r by (pose proof (pow256_pos k); nia).
  rewrite Z.mul_comm, Z.div_add by (pose proof (pow256_pos k); lia).
  rewrite (Z.div_small (z mod _)) by (apply Z.mod_pos_bound, pow256_pos).
  rewrite Z.add_0_l, Z.pow_1_r.
  set (q := z / _). rewrite (Z.rem_mul_r q 256).
  - rewrite Z.mul_comm, Z.mod_add, Z.mod_mod by lia. done.
  - lia.
  - apply pow256_pos.
Qed.

Lemma be_inj n x y :
  0 <= x < 256 ^ Z.of_nat n → 0 <= y < 256 ^ Z.of_nat n → be n x = be n y → x = y.
Proof.
  intros Hx Hy E. apply (f_equal unbe) in E. rewrite !unbe_be, !Z.mod_small in E; done.
Qed.

Lemma be8_inj x y : is_u64 x → is_u64 y → be 8 x = be 8 y → x = y.
Proof. apply (be_inj 8). Qed.
Lemma be2_inj x y : is_u16 x → is_u16 y → be 2 x = be 2 y → x = y.
Proof. apply (be_inj 2). Qed.

Lemma unbe_snoc l b : unbe (l ++ [b]) = unbe l * 256 + b.
Proof. unfold unbe. by rewrite fold_left_app. Qed.

(** Byte strings of equal length are determined by the number they encode. *)
Lemma unbe_inj l l' :
  are_bytes l → are_bytes l' → length l = length l' → unbe l = unbe l' → l = l'.
Proof.
  revert l'. induction l as [|b l IH] using rev_ind; intros l' Hl Hl' Hlen E.
  - by destruct l'.
  - destruct l' as [|b' l' _] using rev_ind; [rewrite length_app in Hlen; simpl in Hlen; lia|].
    rewrite !length_app in Hlen. simpl in Hlen. rewrite !unbe_snoc in E.
    apply Forall_app in Hl as [Hl Hb%Forall_inv], Hl' as [Hl' Hb'%Forall_inv].
    unfold is_u8 in *. assert (unbe l = unbe l' ∧ b = b') as [E1 ->] by lia.
    f_equal. apply IH; [done|done|lia|done].
Qed.

Lemma be_are_bytes n z : are_bytes (be n z).
Proof. induction n; constructor; auto with bbdb. Qed.
#[export] Hint Resolve be_are_bytes : bbdb.

(** ** Lexicographic order on byte strings: [bytes.Compare], the order of pebble keys *)
Fixpoint bltb (a b : bytes) : bool :=
  match a, b with
  | _, [] => false
  | [], _ :: _ => true
  | x :: a', y :: b' => (x <? y) || ((x =? y) && bltb a' b')
  end.

Definition bleb (a b : bytes) : bool := negb (bltb b a).
Definition blt (a b : bytes) : Prop := bltb a b = true.

#[export] Instance blt_dec a b : Decision (blt a b).
Proof. unfold blt. apply _. Defined.

(** Splits a boolean comparison of integers into its cases. *)
Ltac zcases :=
  repeat match goal with
  | |- context [?a <? ?b] => destruct (Z.ltb_spec a b)
  | |- context [?a =? ?b] => destruct (Z.eqb_spec a b)
  | |- context [?a <=? ?b] => destruct (Z.leb_spec a b)
  | H : context [?a <? ?b] |- _ => destruct (Z.ltb_spec a b)
  | H : context [?a =? ?b] |- _ => destruct (Z.eqb_spec a b)
  | H : context [?a <=? ?b] |- _ => destruct (Z.leb_spec a b)
  end.

Lemma bltb_irrefl a : bltb a a = false.
Proof. induction a as [|x a IH]; simpl; [done|]. rewrite Z.ltb_irrefl, Z.eqb_refl. done. Qed.

Lemma bltb_trans a b c : bltb a b = true → bltb b c = true → bltb a c = true.
Proof.
  revert b c. induction a as [|x a IH]; intros [|y b] [|z c]; simpl; try done.
  intros. zcases; simpl in *; try done; try lia; eauto.
Qed.

Lemma bltb_asym a b : bltb a b = true → bltb b a = false.
Proof.
  intros H. destruct (bltb b a) eqn:E; [|done].
  pose proof (bltb_trans _ _ _ H E). by rewrite bltb_irrefl in *.
Qed.

Lemma bltb_total a b : a ≠ b → bltb a b = false → bltb b a = true.
Proof.
  revert b. induction a as [|x a IH]; intros [|y b]; simpl; try done.
  intros Hne. zcases; simpl; try done; try lia.
  intros. apply IH; [congruence|done].
Qed.

Lemma bltb_app p a b : bltb (p ++ a) (p ++ b) = bltb a b.
Proof. induction p as [|x p IH]; simpl; [done|]. rewrite Z.ltb_irrefl, Z.eqb_refl. done. Qed.

#[export] Instance blt_strict : StrictOrder blt.
Proof.
  split; unfold blt.
  - intros a H. by rewrite bltb_irrefl in H.
  - intros a b c. apply bltb_trans.
Qed.

(** Fixed-width big-endian encodings compare like the integers they encode;
    ties are decided by what follows them. *)
Lemma bltb_be n x y s t :
  0 <= x < 256 ^ Z.of_nat n → 0 <= y < 256 ^ Z.of_nat n →
  bltb (be n x ++ s) (be n y ++ t) = (x <? y) || ((x =? y) && bltb s t).
Proof.
  revert x y. induction n as [|n IH]; intros x y Hx Hy.
  - simpl in *. assert (x = 0) as -> by lia. assert (y = 0) as -> by lia. done.
  - cbn [be app bltb]. rewrite <- (be_mod n x), <- (be_mod n y).
    pose proof (pow256_pos n). rewrite pow256_S in Hx, Hy.
    rewrite IH by (apply Z.mod_pos_bound; lia). rewrite !be_head.
    rewrite !(Z.mod_small (_ / _) 256) by
      (split; [apply Z.div_pos; lia | apply Z.div_lt_upper_bound; lia]).
    pose proof (Z.div_mod x (256 ^ Z.of_nat n) ltac:(lia)).
    pose proof (Z.div_mod y (256 ^ Z.of_nat n) ltac:(lia)).
    pose proof (Z.mod_pos_bound x (256 ^ Z.of_nat n) ltac:(lia)).
    pose proof (Z.mod_pos_bound y (256 ^ Z.of_nat n) ltac:(lia)).
    zcases; simpl; try done; try nia.
Qed.

(** ** Slices *)

(** [slice i n l] is Go's [l[i:i+n]]. *)
Definition slice {A} (i n : nat) (l : list A) : list A := take n (drop i l).

(** [splice i s l] is the effect of [copy(l[i:], s)] when [s] fits. *)
Definition splice {A} (i : nat) (s l : list A) : list A :=
  take i l ++ s ++ drop (i + length s) l.

Definition zlen {A} (l : list A) : Z := Z.of_nat (length l).

Lemma slice_app {A} (a s b : list A) i n :
  length a = i → length s = n → slice i n (a ++ s ++ b) = s.
Proof.
  intros <- <-. unfold slice. by rewrite drop_app_length, take_app_length.
Qed.

(** [bytes.HasPrefix]. *)
Fixpoint has_prefix (l p : bytes) {struct p} : bool :=
  match p, l with
  | [], _ => true
  | y :: p', x :: l' => (x =? y) && has_prefix l' p'
  | _ :: _, [] => false
  end.

Lemma has_prefix_app p s : has_prefix (p ++ s) p = true.
Proof. induction p as [|x p IH]; simpl; [done|]. rewrite Z.eqb_refl. done. Qed.

Lemma has_prefix_spec l p : has_prefix l p = true ↔ ∃ s, l = p ++ s.
Proof.
  split.
  - revert l. induction p as [|y p IH]; intros l H; [by exists l|].
    destruct l as [|x l]; simpl in H; [done|].
    apply andb_true_iff in H as [->%Z.eqb_eq H]. destruct (IH _ H) as [s ->]. by exists s.
  - intros [s ->]. apply has_prefix_app.
Qed.

(** Boolean equality of byte strings ([==] on Go strings). *)
Definition beqb (a b : bytes) : bool := bool_decide (a = b).

Lemma beqb_refl a : beqb a a = true.
Proof. by apply bool_decide_eq_true. Qed.

(** ** Errors

    The Go code returns [error] values.  The model keeps the kinds the code
    distinguishes ([ErrNotFound], [os.IsNotExist], a cancelled context, an
    injected operating-system or pebble failure) and the fixed text of the
    others; formatted arguments of messages are dropped.  [EWrap] is
    [fmt.Errorf("msg: %w", err)].  [EPanic] is a run-time panic of the
    goroutine (index out of range, impossible allocation): it propagates like
    an error and no code of the program recovers it. *)
Inductive error :=
  | ENotFound
  | ENotExist
  | ECanceled
  | EIO
  | EPanic (msg : string)
  | EMsg (msg : string)
  | EWrap (msg : string) (e : error).

#[export] Instance error_eq_dec : EqDecision error.
Proof. solve_decision. Defined.

(** [errors.Is(err, meta.ErrNotFound)]: looks through wrapped errors. *)
Fixpoint is_not_found (e : error) : bool :=
  match e with
  | ENotFound => true
  | EWrap _ e' => is_not_found e'
  | _ => false
  end.

(** [os.IsNotExist(err)]: does not look through [fmt.Errorf] wrapping. *)
Definition is_not_exist (e : error) : bool :=
  match e with ENotExist => true | _ => false end.

Inductive result (A : Type) :=
  | Ok (a : A)
  | Err (e : error).
Arguments Ok {A} a.
Arguments Err {A} e.

Definition rmap {A B} (f : A → B) (r : result A) : result B :=
  match r with Ok a => Ok (f a) | Err e => Err e end.

Definition rbind {A B} (r : result A) (k : A → result B) : result B :=
  match r with Ok a => k a | Err e => Err e end.

Notation "'let?' x := m 'in' k" := (rbind m (fun x => k))
  (at level 10, x pattern, m at level 100, k at level 200) : bbdb_scope.

Lemma rbind_ok {A B} (r : result A) (k : A → result B) b :
  rbind r k = Ok b → ∃ a, r = Ok a ∧ k a = Ok b.
Proof. destruct r as [a|e]; [eauto|done]. Qed.

Lemma rbind_intro {A B} (r : result A) (k : A → result B) a b :
  r = Ok a → k a = b → rbind r k = b.
Proof. by intros -> <-. Qed.

(** A state-and-error computation: the state survives an error, as a Go
    program's does. *)
Definition ST (S A : Type) : Type := S → S * result A.

Definition st_ret {S A} (a : A) : ST S A := fun s => (s, Ok a).
Definition st_err {S A} (e : error) : ST S A := fun s => (s, Err e).
Definition st_bind {S A B} (m : ST S A) (k : A → ST S B) : ST S B :=
  fun s => match m s with
           | (s', Ok a) => k a s'
           | (s', Err e) => (s', Err e)
           end.
(** Wraps an error on the way out. *)
Definition st_wrap {S A} (msg : string) (m : ST S A) : ST S A :=
  fun s => match m s with
           | (s', Ok a) => (s', Ok a)
           | (s', Err e) => (s', Err (EWrap msg e))
           end.
(** Runs [cleanup] (result ignored) when [m] fails, keeping [m]'s error:
    the [if err != nil { cleanup; return err }] idiom. *)
Definition st_onerr {S A} (m : ST S A) (cleanup : S → S) : ST S A :=
  fun s => match m s with
           | (s', Ok a) => (s', Ok a)
           | (s', Err e) => (cleanup s', Err e)
           end.
(** Runs a computation for its effect, dropping its result ([_ = f()]). *)
Definition st_exec {S A} (m : ST S A) (s : S) : S := fst (m s).

Notation "'let!' x := m 'in' k" := (st_bind m (fun x => k))
  (at level 10, x pattern, m at level 100, k at level 200) : bbdb_scope.
Notation "m ';;;' k" := (st_bind m (fun _ => k))
  (at level 100, right associativity) : bbdb_scope.

(** Opens a computation of the context: names its parts, keeps the equation. *)
Ltac st_inv H :=
  unfold st_bind, st_wrap, st_ret, st_err in H;
  repeat match type of H with
  | context [match ?m with _ => _ end] =>
      lazymatch type of m with
      | (_ * result _)%type =>
          let s := fresh "s" in let r := fresh "r" in let E := fresh "E" in
          destruct m as [s [r|r]] eqn:E
      end
  end.

(** A successful sequence is a sequence of successes. *)
Lemma st_bind_ok {S A B} (m : ST S A) (k : A → ST S B) s s' b :
  st_bind m k s = (s', Ok b) → ∃ s1 a, m s = (s1, Ok a) ∧ k a s1 = (s', Ok b).
Proof. unfold st_bind. destruct (m s) as [s1 [a|e]]; [eauto|done]. Qed.

Lemma st_wrap_ok {S A} msg (m : ST S A) s s' a :
  st_wrap msg m s = (s', Ok a) → m s = (s', Ok a).
Proof. unfold st_wrap. by destruct (m s) as [s1 [x|e]]. Qed.

(** [m] succeeds from every state of [W] and stays in it. *)
Definition works {S A} (W : S → Prop) (m : ST S A) : Prop :=
  ∀ s, W s → ∃ s' a, m s = (s', Ok a) ∧ W s'.

Lemma works_ret {S A} (W : S → Prop) (a : A) : works W (st_ret a).
Proof. intros s Hs. by exists s, a. Qed.

Lemma works_bind {S A B} (W : S → Prop) (m : ST S A) (k : A → ST S B) :
  works W m → (∀ a, works W (k a)) → works W (st_bind m k).
Proof.
  intros Hm Hk s Hs. destruct (Hm s Hs) as (s1 & a & E & H1). unfold st_bind. rewrite E. by apply Hk.
Qed.

Lemma works_wrap {S A} (W : S → Prop) msg (m : ST S A) : works W m → works W (st_wrap msg m).
Proof.
  intros Hm s Hs. destruct (Hm s Hs) as (s1 & a & E & H1). unfold st_wrap. rewrite E. eauto.
Qed.

#[export] Hint Resolve works_ret works_bind works_wrap : bbdb.

(** ** Counting the elements of a list

    Goroutines are lists of positions; their invariants count them. *)
Definition count {A} (P : A → bool) (l : list A) : nat := length (List.filter P l).

Lemma count_insert {A} (P : A → bool) gs i old new :
  gs !! i = Some old →
  (count P (<[i := new]> gs) + Nat.b2n (P old) = count P gs + Nat.b2n (P new))%nat.
Proof.
  unfold count. revert i. induction gs as [|g gs IH]; intros [|i] Hi; try done.
  - injection Hi as ->. change (<[0%nat := new]> (old :: gs)) with (new :: gs). cbn [List.filter].
    destruct (P old), (P new); simpl; lia.
  - specialize (IH i Hi). change (<[S i := new]> (g :: gs)) with (g :: <[i := new]> gs).
    cbn [List.filter]. destruct (P g); simpl; lia.
Qed.

Lemma count_replicate {A} (P : A → bool) m ph : count P (replicate m ph) = if P ph then m else 0%nat.
Proof. unfold count. induction m as [|m IH]; simpl; [by destruct (P ph)|]. destruct (P ph); simpl; lia. Qed.

Lemma count_le {A} (P : A → bool) gs : (count P gs <= length gs)%nat.
Proof. unfold count. induction gs as [|g gs IH]; simpl; [done|]. destruct (P g); simpl; lia. Qed.

Lemma count_mono {A} (P Q : A → bool) gs :
  (∀ ph, P ph = true → Q ph = true) → (count P gs <= count Q gs)%nat.
Proof.
  intros HPQ. unfold count. induction gs as [|g gs IH]; simpl; [done|]. specialize (HPQ g).
  destruct (P g), (Q g); simpl; try lia.
Qed.

Lemma count_all {A} (P : A → bool) gs i ph : count P gs = length gs → gs !! i = Some ph → P ph = true.
Proof.
  unfold count. revert i. induction gs as [|g gs IH]; intros [|i] Hc Hi; try done; cbn in Hi, Hc.
  - injection Hi as <-. destruct (P g); [done|]. pose proof (count_le P gs). unfold count in *. lia.
  - apply (IH i); [|done]. pose proof (count_le P gs). unfold count in *. destruct (P g); simpl in *; lia.
Qed.

Lemma count_in {A} (P : A → bool) gs i ph : gs !! i = Some ph → P ph = true → (0 < count P gs)%nat.
Proof.
  unfold count. revert i. induction gs as [|g gs IH]; intros [|i] Hi Hp; try done; cbn in *.
  - injection Hi as ->. rewrite Hp. cbn. lia.
  - specialize (IH i Hi Hp). destruct (P g); cbn; lia.
Qed.

(** Of a property at most one goroutine has, two that have it are the same. *)
Lemma count_one {A} (P : A → bool) gs i j x y :
  (count P gs <= 1)%nat → gs !! i = Some x → gs !! j = Some y → P x = true → P y = true → i = j.
Proof.
  revert i j. induction gs as [|g gs IH]; intros [|i] [|j] Hc Hi Hj Hx Hy; try done; cbn in Hi, Hj.
  - injection Hi as ->. pose proof (count_in P gs j y Hj Hy). unfold count in *. cbn in Hc. rewrite Hx in Hc. cbn in Hc. lia.
  - injection Hj as ->. pose proof (count_in P gs i x Hi Hx). unfold count in *. cbn in Hc. rewrite Hy in Hc. cbn in Hc. lia.
  - f_equal. apply IH; try done. unfold count in *. cbn in Hc. destruct (P g); cbn in Hc; lia.
Qed.

Lemma count_pos {A} (P : A → bool) gs : (0 < count P gs)%nat → ∃ i ph, gs !! i = Some ph ∧ P ph = true.
Proof.
  unfold count. induction gs as [|g gs IH]; simpl; [lia|]. destruct (P g) eqn:E.
  - intros _. by exists 0%nat, g.
  - intros (i & ph & Hi & Hp)%IH. by exists (S i), ph.
Qed.

(** ** Go maps

    [range] over a Go map visits the keys in an unspecified order.  The
    components that iterate over a map are parametric in that order. *)
Class MapOrder := {
  map_order {A : Type} : list A → list A;
  map_order_perm {A : Type} (l : list A) : map_order l ≡ₚ l;
}.

Lemma elem_of_map_order `{MapOrder} {A} (l : list A) x : x ∈ map_order l ↔ x ∈ l.
Proof. by rewrite map_order_perm. Qed.
