(* ===== verification/GoTime.v ===== *)
(** * The part of Go's [time] package the program uses

    A [time.Time] is its count of nanoseconds since 1970-01-01T00:00:00 UTC
    (the program only ever looks at UTC times), a [time.Duration] a count of
    nanoseconds.  The calendar is the proleptic Gregorian one, split into
    cycles of 400, 100, 4 and 1 years as the package does it. *)
From S2P Require Import Prelude.

Abbreviation time := Z (only parsing).
Abbreviation duration := Z (only parsing).

Definition Nanosecond : duration := 1.
Definition Second : duration := 1000000000.
Definition Minute : duration := 60 * Second.
Definition Hour : duration := 60 * Minute.
Definition DayNs : duration := 24 * Hour.

(** Days from 0001-01-01 to 1970-01-01. *)
Definition unix_days : Z := 719162.

Definition is_leap (y : Z) : bool :=
  (y mod 4 =? 0) && (negb (y mod 100 =? 0) || (y mod 400 =? 0)).

Definition month_lengths (leap : bool) : list Z :=
  [31; if leap then 29 else 28; 31; 30; 31; 30; 31; 31; 30; 31; 30; 31].

Definition sum_list (l : list Z) : Z := foldr Z.add 0 l.

(** Days from 0001-01-01 to January 1st of year [y]. *)
Definition days_before_year (y : Z) : Z :=
  let p := y - 1 in 365 * p + p / 4 - p / 100 + p / 400.

Definition days_before_month (leap : bool) (m : Z) : Z :=
  sum_list (take (Z.to_nat (m - 1)) (month_lengths leap)).

(** [time.Date(year, month, day, hour, 0, 0, 0, time.UTC)]: out-of-range months
    and hours are normalized into years and days. *)
Definition Date (year month day hour : Z) : time :=
  let y := year + (month - 1) / 12 in
  let m := (month - 1) mod 12 + 1 in
  let d := day + hour / 24 in
  let h := hour mod 24 in
  let days := days_before_year y + days_before_month (is_leap y) m + (d - 1) in
  (days - unix_days) * DayNs + h * Hour.

(** Year and zero-based day of the year of a day counted from 0001-01-01. *)
Definition year_yday (d : Z) : Z * Z :=
  let n400 := d / 146097 in
  let d1 := d mod 146097 in
  let n100 := d1 / 36524 - d1 / 36524 / 4 in
  let d2 := d1 - 36524 * n100 in
  let n4 := d2 / 1461 in
  let d3 := d2 - 1461 * n4 in
  let n1 := d3 / 365 - d3 / 365 / 4 in
  (400 * n400 + 100 * n100 + 4 * n4 + n1 + 1, d3 - 365 * n1).

Fixpoint month_day (lens : list Z) (m yday : Z) : Z * Z :=
  match lens with
  | [] => (m, yday + 1)
  | l :: r => if yday <? l then (m, yday + 1) else month_day r (m + 1) (yday - l)
  end.

Definition civil (d : Z) : Z * Z * Z :=
  let '(y, yday) := year_yday d in
  let '(m, dd) := month_day (month_lengths (is_leap y)) 1 yday in
  (y, m, dd).

Definition days_of (t : time) : Z := t / DayNs + unix_days.

Definition Year (t : time) : Z := (civil (days_of t)).1.1.
Definition Month (t : time) : Z := (civil (days_of t)).1.2.
Definition Day (t : time) : Z := (civil (days_of t)).2.
Definition HourOf (t : time) : Z := (t mod DayNs) / Hour.

(** [t.Unix()]: whole seconds, rounded down. *)
Definition Unix (t : time) : Z := t / Second.

(** [t.UnixNano()]: the nanosecond count as an [int64]. *)
Definition UnixNano (t : time) : Z := i64 t.

(** [t.Truncate(d)]: rounds down to a multiple of [d] since year 1. *)
Definition Truncate (t : time) (d : duration) : time :=
  t - (t + unix_days * DayNs) mod d.

(** ** The calendar is a bijection with day numbers *)

Lemma year_yday_spec d y yday :
  year_yday d = (y, yday) →
  days_before_year y + yday = d ∧ 0 <= yday < 365 + (if is_leap y then 1 else 0).
Proof.
  unfold year_yday, days_before_year, is_leap. intros [= <- <-].
  set (a := d / 146097). set (r := d mod 146097).
  assert (0 <= r < 146097) as Hr by (apply Z.mod_pos_bound; lia).
  assert (d = 146097 * a + r) as Hd by (apply Z.div_mod; lia).
  set (b := r / 36524 - r / 36524 / 4).
  assert (0 <= b <= 3 ∧ 36524 * b <= r ∧ (r < 36524 * b + 36524 ∨ b = 3 ∧ r = 146096))
    as (Hb & Hb1 & Hb2) by (unfold b; Z.div_mod_to_equations; lia).
  set (d2 := r - 36524 * b). set (c := d2 / 1461).
  assert (0 <= c <= 24 ∧ 1461 * c <= d2 < 1461 * c + 1461) as (Hc & Hc1)
    by (unfold c, d2; Z.div_mod_to_equations; lia).
  set (d3 := d2 - 1461 * c). set (e := d3 / 365 - d3 / 365 / 4).
  assert (0 <= e <= 3 ∧ 365 * e <= d3 ∧ (d3 < 365 * e + 365 ∨ e = 3 ∧ d3 = 1460))
    as (He & He1 & He2) by (unfold e, d3; Z.div_mod_to_equations; lia).
  unfold d3, d2 in *. clearbody a r b c e. clear d3 d2.
  replace (400 * a + 100 * b + 4 * c + e + 1 - 1) with (400 * a + 100 * b + 4 * c + e) by lia.
  assert ((400 * a + 100 * b + 4 * c + e) / 4 = 100 * a + 25 * b + c) as ->
    by (Z.div_mod_to_equations; lia).
  assert ((400 * a + 100 * b + 4 * c + e) / 100 = 4 * a + b) as ->
    by (Z.div_mod_to_equations; lia).
  assert ((400 * a + 100 * b + 4 * c + e) / 400 = a) as ->
    by (Z.div_mod_to_equations; lia).
  split; [lia|]. split; [lia|].
  destruct He2 as [He2|[-> He2]]; [destruct (_ && _); lia|].
  assert ((400 * a + 100 * b + 4 * c + 3 + 1) mod 4 = 0) as -> by (Z.div_mod_to_equations; lia).
  destruct (decide (c = 24)) as [->|Hc24].
  - assert (b = 3) as -> by lia.
    assert ((400 * a + 100 * 3 + 4 * 24 + 3 + 1) mod 400 = 0) as ->
      by (Z.div_mod_to_equations; lia).
    rewrite orb_true_r. simpl. lia.
  - replace (400 * a + 100 * b + 4 * c + 3 + 1) with (4 * c + 4 + (4 * a + b) * 100) by lia.
    rewrite Z.mod_add, (Z.mod_small (4 * c + 4)) by lia.
    destruct (Z.eqb_spec (4 * c + 4) 0); simpl; lia.
Qed.

Lemma month_day_spec lens m0 yday m d :
  0 <= yday < sum_list lens → month_day lens m0 yday = (m, d) →
  m0 <= m < m0 + zlen lens ∧ 1 <= d ∧
  sum_list (take (Z.to_nat (m - m0)) lens) + (d - 1) = yday ∧
  ∃ l, lens !! Z.to_nat (m - m0) = Some l ∧ d <= l.
Proof.
  revert m0 yday. unfold zlen.
  induction lens as [|l lens IH]; intros m0 yday; simpl; [lia|].
  destruct (Z.ltb_spec yday l) as [Hl|Hl].
  - intros ? [= <- <-]. replace (m0 - m0) with 0 by lia. simpl. repeat split; try lia.
    exists l. split; [done|lia].
  - intros Hr Hm. destruct (IH (m0 + 1) (yday - l)) as (H1 & H2 & H3 & H4); [lia|done|].
    replace (Z.to_nat (m - m0)) with (S (Z.to_nat (m - (m0 + 1)))) by lia. simpl.
    repeat split; try lia. done.
Qed.

Lemma sum_month_lengths b : sum_list (month_lengths b) = 365 + (if b then 1 else 0).
Proof. by destruct b. Qed.

Lemma month_length_le b i l : month_lengths b !! i = Some l → l <= 31.
Proof.
  intros H%list_elem_of_lookup_2. unfold month_lengths in H.
  repeat (apply elem_of_cons in H as [->|H]; [destruct b; lia|]).
  by apply not_elem_of_nil in H.
Qed.

Lemma civil_spec d y m dd :
  civil d = (y, m, dd) →
  days_before_year y + days_before_month (is_leap y) m + (dd - 1) = d ∧
  1 <= m <= 12 ∧ 1 <= dd <= 31 ∧ 0 <= d - days_before_year y < 366.
Proof.
  unfold civil. destruct (year_yday d) as [y' yday] eqn:Ey.
  destruct (month_day _ 1 yday) as [m' d'] eqn:Em. intros [= <- <- <-].
  apply year_yday_spec in Ey as [E1 E2].
  apply month_day_spec in Em as (H1 & H2 & H3 & l & H4 & H5);
    [|rewrite sum_month_lengths; lia].
  apply month_length_le in H4. unfold days_before_month.
  replace (zlen (month_lengths (is_leap y'))) with 12 in H1 by done.
  destruct (is_leap y'); lia.
Qed.

(** Rebuilding a time from its calendar fields down to the hour gives the
    start of its hour. *)
Lemma Date_fields t :
  Date (Year t) (Month t) (Day t) (HourOf t) = t - t mod Hour.
Proof.
  unfold Date, Year, Month, Day, HourOf.
  destruct (civil (days_of t)) as [[y m] d] eqn:E.
  apply civil_spec in E as (H1 & H2 & H3 & _). simpl.
  rewrite (Z.div_small (m - 1) 12), (Z.mod_small (m - 1) 12) by lia.
  replace (m - 1 + 1) with m by lia. replace (y + 0) with y by lia.
  assert (0 <= t mod DayNs / Hour < 24) as Hh.
  { unfold DayNs, Hour, Minute, Second. Z.div_mod_to_equations; lia. }
  rewrite (Z.div_small _ 24), (Z.mod_small _ 24), Z.add_0_r, H1 by lia.
  unfold days_of, DayNs, Hour, Minute, Second. Z.div_mod_to_equations; lia.
Qed.

Lemma fields_range t :
  1 <= Month t <= 12 ∧ 1 <= Day t <= 31 ∧ 0 <= HourOf t < 24.
Proof.
  unfold Month, Day, HourOf. destruct (civil (days_of t)) as [[y m] d] eqn:E.
  apply civil_spec in E as (_ & H2 & H3 & _). simpl. repeat split; try lia;
    unfold DayNs, Hour, Minute, Second; Z.div_mod_to_equations; lia.
Qed.

(** Times whose nanosecond count fits an [int64] have four-digit years. *)
Lemma Year_range t : is_i64 t → 1677 <= Year t <= 2262.
Proof.
  unfold is_i64, Year. intros Ht. destruct (civil (days_of t)) as [[y m] d] eqn:E.
  apply civil_spec in E as (_ & _ & _ & H). simpl. revert H.
  assert (612410 <= days_of t <= 825913).
  { unfold days_of, unix_days, DayNs, Hour, Minute, Second. Z.div_mod_to_equations; lia. }
  unfold days_before_year. Z.div_mod_to_equations; lia.
Qed.

Lemma Truncate_Hour t : Truncate t Hour = t - t mod Hour.
Proof.
  unfold Truncate. f_equal.
  replace (unix_days * DayNs) with (unix_days * 24 * Hour) by (unfold DayNs; lia).
  by rewrite Z.mod_add by (unfold Hour, Minute, Second; lia).
Qed.
