(* ===== verification/GoFmt.v ===== *)
(** * The parts of Go's [fmt], [strconv], [strings] and [path/filepath] the program uses

    Numbers are printed with [%0nd] and [%0nx], read back with
    [strconv.Atoi], split at a one-byte separator with [strings.Split] and
    [strings.SplitN(_, _, 2)], and paths are built with [filepath.Join]. *)
From S2P Require Import Prelude.

(** ** Printing numbers *)

(** The digits of [z >= 0] in [base], most significant first. *)
Fixpoint to_digits (fuel : nat) (base z : Z) (acc : list Z) : list Z :=
  match fuel with
  | O => acc
  | S f => if z <? base then z :: acc else to_digits f base (z / base) (z mod base :: acc)
  end.

Definition digits (base z : Z) : list Z := to_digits (S (Z.to_nat (Z.log2 z))) base z [].

(** '0'..'9', 'a'..'f'. *)
Definition digit_char (d : Z) : Z := if d <? 10 then 48 + d else 87 + d.

Definition pad_zero (n : nat) (l : bytes) : bytes := replicate (n - length l) 48 ++ l.

(** [fmt.Sprintf("%0nd", z)] and [fmt.Sprintf("%0nx", z)]. *)
Definition sprintf_0 (base : Z) (n : nat) (z : Z) : bytes :=
  if z <? 0 then 45 :: pad_zero (n - 1) (map digit_char (digits base (- z)))
  else pad_zero n (map digit_char (digits base z)).
Definition sprintf_0d : nat → Z → bytes := sprintf_0 10.
Definition sprintf_0x : nat → Z → bytes := sprintf_0 16.

(** [strconv.Itoa] / [%d]. *)
Definition itoa : Z → bytes := sprintf_0 10 0.

(** ** Reading numbers: [strconv.Atoi] *)
Definition max_int : Z := 2 ^ 63 - 1.
Definition min_int : Z := - 2 ^ 63.

Definition is_digit (c : Z) : bool := (48 <=? c) && (c <=? 57).

Definition atou (s : bytes) : option Z :=
  if bool_decide (s = []) then None
  else if forallb is_digit s then Some (fold_left (fun a c => a * 10 + (c - 48)) s 0)
  else None.

(** The value [strconv.Atoi] returns beside its error: 0 on a syntax error,
    the nearest [int] on overflow. *)
Definition Atoi (s : bytes) : Z * bool :=
  let '(neg, rest) := match s with
                      | c :: r => if c =? 45 then (true, r)
                                  else if c =? 43 then (false, r) else (false, s)
                      | [] => (false, s)
                      end in
  match atou rest with
  | None => (0, false)
  | Some v => let v := if neg : bool then - v else v in
              if v <? min_int then (min_int, false)
              else if max_int <? v then (max_int, false) else (v, true)
  end.

(** ** Splitting strings *)

(** [strings.SplitN(s, sep, 2)] for a one-byte [sep]. *)
Fixpoint SplitN2 (sep : Z) (s : bytes) : list bytes :=
  match s with
  | [] => [[]]
  | c :: r => if c =? sep then [[]; r]
              else match SplitN2 sep r with
                   | h :: t => (c :: h) :: t
                   | [] => [[c]]
                   end
  end.

(** [strings.Split(s, sep)] for a one-byte [sep]. *)
Fixpoint Split (sep : Z) (s : bytes) : list bytes :=
  match s with
  | [] => [[]]
  | c :: r => if c =? sep then [] :: Split sep r
              else match Split sep r with
                   | h :: t => (c :: h) :: t
                   | [] => [[c]]
                   end
  end.

(** ** Paths: [filepath.Join] on a Unix system *)
Definition slash : Z := 47.

(** Processes path components left to right: empty and "." components are
    dropped, ".." removes the previous one (kept at the front of a relative
    path).  [acc] is the cleaned path so far, last component first. *)
Fixpoint clean_comps (rooted : bool) (cs acc : list bytes) : list bytes :=
  match cs with
  | [] => acc
  | c :: r =>
      if beqb c [] || beqb c (b!".") then clean_comps rooted r acc
      else if beqb c (b!"..") then
        match acc with
        | [] => clean_comps rooted r (if rooted then [] else [c])
        | a :: acc' => clean_comps rooted r (if beqb a (b!"..") then c :: acc else acc')
        end
      else clean_comps rooted r (c :: acc)
  end.

Fixpoint join_slash (cs : list bytes) : bytes :=
  match cs with
  | [] => []
  | [c] => c
  | c :: r => c ++ slash :: join_slash r
  end.

Definition Clean (p : bytes) : bytes :=
  let rooted := match p with 47 :: _ => true | _ => false end in
  let body := join_slash (rev (clean_comps rooted (Split slash p) [])) in
  if rooted then slash :: body else if beqb body [] then b!"." else body.

Fixpoint drop_empty (cs : list bytes) : list bytes :=
  match cs with [] :: r => drop_empty r | _ => cs end.

Definition Join (elem : list bytes) : bytes :=
  match drop_empty elem with
  | [] => []
  | es => Clean (join_slash es)
  end.

(** [filepath.Dir]: all but the last element of the path. *)
Definition Dir (p : bytes) : bytes :=
  Clean (join_slash (removelast (Split slash p))).

(** ** Digits read back *)

Definition digits_val (base : Z) (l : list Z) : Z := fold_left (fun a d => a * base + d) l 0.

Lemma digits_val_app base l1 l2 :
  digits_val base (l1 ++ l2) = fold_left (fun a d => a * base + d) l2 (digits_val base l1).
Proof. apply fold_left_app. Qed.

Lemma fold_digits_acc base l a :
  fold_left (fun a d => a * base + d) l a = a * base ^ zlen l + digits_val base l.
Proof.
  unfold digits_val, zlen. revert a. induction l as [|d l IH]; intros a.
  - simpl. lia.
  - cbn [fold_left length]. rewrite IH, (IH (0 * base + d)), Nat2Z.inj_succ, Z.pow_succ_r; lia.
Qed.

Lemma to_digits_val fuel base z acc :
  2 <= base → 0 <= z < base ^ Z.of_nat fuel →
  digits_val base (to_digits fuel base z acc) = z * base ^ zlen acc + digits_val base acc.
Proof.
  intros Hb. revert z acc. induction fuel as [|f IH]; intros z acc Hz.
  - simpl in *. assert (z = 0) as -> by lia. lia.
  - cbn [to_digits]. destruct (Z.ltb_spec z base).
    + unfold digits_val at 1. cbn [fold_left]. rewrite fold_digits_acc. lia.
    + rewrite IH.
      * unfold digits_val at 1. cbn [fold_left]. rewrite fold_digits_acc.
        unfold zlen. cbn [length]. rewrite Nat2Z.inj_succ, Z.pow_succ_r by lia.
        pose proof (Z.div_mod z base ltac:(lia)). nia.
      * rewrite Nat2Z.inj_succ, Z.pow_succ_r in Hz by lia. split.
        -- apply Z.div_pos; lia.
        -- apply Z.div_lt_upper_bound; lia.
Qed.

Lemma log2_fuel base z : 2 <= base → 0 <= z → z < base ^ Z.of_nat (S (Z.to_nat (Z.log2 z))).
Proof.
  intros Hb Hz. destruct (decide (z = 0)) as [->|].
  - change (Z.of_nat (S (Z.to_nat (Z.log2 0)))) with 1. lia.
  - pose proof (Z.log2_spec z ltac:(lia)) as [_ H]. pose proof (Z.log2_nonneg z).
    rewrite Nat2Z.inj_succ, Z2Nat.id by lia.
    eapply Z.lt_le_trans; [exact H|]. apply Z.pow_le_mono_l; lia.
Qed.

Lemma digits_val_digits base z : 2 <= base → 0 <= z → digits_val base (digits base z) = z.
Proof.
  intros. unfold digits. rewrite to_digits_val; [|done|split; [done|by apply log2_fuel]].
  change (z * 1 + 0 = z). lia.
Qed.

Lemma to_digits_range fuel base z acc :
  2 <= base → 0 <= z → Forall (fun d => 0 <= d < base) acc →
  Forall (fun d => 0 <= d < base) (to_digits fuel base z acc).
Proof.
  intros Hb. revert z acc. induction fuel as [|f IH]; intros z acc Hz Hacc; [done|].
  cbn [to_digits]. destruct (Z.ltb_spec z base).
  - constructor; [lia|done].
  - apply IH; [apply Z.div_pos; lia|]. constructor; [|done]. apply Z.mod_pos_bound. lia.
Qed.

Lemma digits_range base z : 2 <= base → 0 <= z → Forall (fun d => 0 <= d < base) (digits base z).
Proof. intros. apply to_digits_range; [done|done|constructor]. Qed.

Lemma to_digits_nonempty fuel base z acc : acc ≠ [] ∨ fuel ≠ O → to_digits fuel base z acc ≠ [].
Proof.
  revert z acc. induction fuel as [|f IH]; intros z acc H; simpl; [by destruct H|].
  destruct (z <? base); [done|]. apply IH. by left.
Qed.

(** Characters of a printed non-negative number in base at most 16. *)
Definition hexchar (c : Z) : Prop := 48 <= c <= 57 ∨ 97 <= c <= 102.
Definition decchar (c : Z) : Prop := 48 <= c <= 57.

Lemma sprintf_0_hexchars base n z : 2 <= base <= 16 → 0 <= z → Forall hexchar (sprintf_0 base n z).
Proof.
  intros Hb Hz. unfold sprintf_0. destruct (Z.ltb_spec z 0); [lia|].
  unfold pad_zero. apply Forall_app. split.
  - apply Forall_replicate. unfold hexchar. lia.
  - apply Forall_map. eapply Forall_impl; [apply (digits_range base z); lia|].
    intros d Hd. simpl in Hd. unfold digit_char, hexchar. destruct (Z.ltb_spec d 10); lia.
Qed.

Lemma sprintf_0d_decchars n z : 0 <= z → Forall decchar (sprintf_0d n z).
Proof.
  intros Hz. unfold sprintf_0d, sprintf_0. destruct (Z.ltb_spec z 0); [lia|].
  unfold pad_zero. apply Forall_app. split.
  - apply Forall_replicate. unfold decchar. lia.
  - apply Forall_map. eapply Forall_impl; [apply (digits_range 10 z); lia|].
    intros d Hd. simpl in Hd. unfold digit_char, decchar. destruct (Z.ltb_spec d 10); lia.
Qed.

Lemma atou_digits l :
  l ≠ [] → Forall (fun d => 0 <= d < 10) l → atou (map digit_char l) = Some (digits_val 10 l).
Proof.
  intros Hne Hl. unfold atou. rewrite bool_decide_eq_false_2 by (by destruct l).
  assert (forallb is_digit (map digit_char l) = true) as ->.
  { apply forallb_forall. intros c (d & <- & Hd)%in_map_iff.
    apply list_elem_of_In in Hd. rewrite Forall_forall in Hl. specialize (Hl _ Hd).
    unfold is_digit, digit_char. simpl in Hl. zcases; simpl; lia. }
  f_equal. unfold digits_val. generalize 0 as a. clear Hne.
  induction Hl as [|d l Hd Hl IH]; intros a; [done|]. cbn [map fold_left]. rewrite IH.
  f_equal. unfold digit_char. destruct (Z.ltb_spec d 10); lia.
Qed.

Lemma pad_zero_map n l : pad_zero n (map digit_char l)
  = map digit_char (replicate (n - length l) 0 ++ l).
Proof.
  unfold pad_zero. rewrite map_app, length_map. f_equal.
  induction (n - length l)%nat as [|k IH]; [done|]. simpl. by rewrite IH.
Qed.

Lemma digits_val_zeros base k l : digits_val base (replicate k 0 ++ l) = digits_val base l.
Proof.
  induction k as [|k IH]; [done|]. unfold digits_val in *. simpl. exact IH.
Qed.

(** Printing a non-negative [int] in decimal and reading it back is exact,
    whatever the padding. *)
Lemma Atoi_sprintf n z : 0 <= z <= max_int → Atoi (sprintf_0d n z) = (z, true).
Proof.
  intros Hz. pose proof (sprintf_0d_decchars n z ltac:(lia)) as Hc.
  assert (atou (sprintf_0d n z) = Some z) as Hu.
  { unfold sprintf_0d, sprintf_0. destruct (Z.ltb_spec z 0); [lia|].
    rewrite pad_zero_map, atou_digits.
    - by rewrite digits_val_zeros, digits_val_digits by lia.
    - intros [_ H1]%app_eq_nil. by apply to_digits_nonempty in H1; [|right].
    - apply Forall_app. split; [apply Forall_replicate; lia|apply digits_range; lia]. }
  unfold Atoi. destruct (sprintf_0d n z) as [|c r] eqn:E; [done|].
  assert (decchar c) as Hc1 by (by inversion Hc).
  unfold decchar in Hc1. destruct (Z.eqb_spec c 45); [lia|].
  destruct (Z.eqb_spec c 43); [lia|].
  rewrite Hu. unfold min_int, max_int in *.
  zcases; try lia; done.
Qed.

(** ** Splitting what was joined *)
Lemma SplitN2_app sep a b : sep ∉ a → SplitN2 sep (a ++ sep :: b) = [a; b].
Proof.
  induction a as [|c a IH]; intros Hn; simpl.
  - by rewrite Z.eqb_refl.
  - apply not_elem_of_cons in Hn as [Hc Hn]. rewrite IH by done.
    destruct (Z.eqb_spec c sep); [congruence|done].
Qed.

Lemma Split_none sep a : sep ∉ a → Split sep a = [a].
Proof.
  induction a as [|c a IH]; intros Hn; simpl; [done|].
  apply not_elem_of_cons in Hn as [Hc Hn]. rewrite IH by done.
  destruct (Z.eqb_spec c sep); [congruence|done].
Qed.

Lemma Split_app sep a b : sep ∉ a → Split sep (a ++ sep :: b) = a :: Split sep b.
Proof.
  induction a as [|c a IH]; intros Hn; simpl.
  - by rewrite Z.eqb_refl.
  - apply not_elem_of_cons in Hn as [Hc Hn]. rewrite IH by done.
    destruct (Z.eqb_spec c sep); [congruence|done].
Qed.

Lemma hexchars_notin c l : Forall hexchar l → ¬ hexchar c → c ∉ l.
Proof. intros Hl Hc Hin. rewrite Forall_forall in Hl. by apply Hc, Hl. Qed.

Lemma decchars_hexchars l : Forall decchar l → Forall hexchar l.
Proof. intros H. eapply Forall_impl; [exact H|]. unfold decchar, hexchar. lia. Qed.
