(* ===== verification/Crc32.v ===== *)
(** * [hash/crc32]: the IEEE checksum of the block format

    The bitwise definition of the reflected CRC-32 (polynomial 0xEDB88320,
    all-ones initial value and final complement) that
    [crc32.ChecksumIEEE] computes. *)
From S2P Require Import Prelude.

Definition ieee_poly : Z := 0xEDB88320.

Definition crc_bit (crc : Z) : Z :=
  if Z.testbit crc 0 then Z.lxor (Z.shiftr crc 1) ieee_poly else Z.shiftr crc 1.

Definition crc_byte (crc b : Z) : Z :=
  Nat.iter 8 crc_bit (Z.lxor crc b).

Definition ChecksumIEEE (data : bytes) : Z :=
  Z.lxor (fold_left crc_byte data (Z.ones 32)) (Z.ones 32).

(** The standard check value of CRC-32/ISO-HDLC. *)
Example crc32_check : ChecksumIEEE (b!"123456789") = 0xCBF43926.
Proof. reflexivity. Qed.

(** ** The checksum is a 32-bit value *)

Lemma ones32_u32 : is_u32 (Z.ones 32).
Proof. unfold is_u32. change (Z.ones 32) with 4294967295. lia. Qed.
#[export] Hint Resolve ones32_u32 : bbdb.

Lemma lxor_u32 a b : is_u32 a → is_u32 b → is_u32 (Z.lxor a b).
Proof.
  unfold is_u32. intros Ha Hb. split; [apply Z.lxor_nonneg; lia|].
  destruct (decide (Z.lxor a b = 0)) as [->|Hne]; [lia|].
  assert (0 < Z.lxor a b) by (pose proof (proj2 (Z.lxor_nonneg a b)); lia).
  apply Z.log2_lt_pow2; [lia|]. pose proof (Z.log2_lxor a b ltac:(lia) ltac:(lia)).
  assert (∀ x, 0 <= x < 2 ^ 32 → Z.log2 x < 32) as Hlog.
  { intros x Hx. destruct (decide (x = 0)) as [->|]; [simpl; lia|].
    apply Z.log2_lt_pow2; lia. }
  pose proof (Hlog a Ha). pose proof (Hlog b Hb). lia.
Qed.

Lemma shiftr1_u32 a : is_u32 a → is_u32 (Z.shiftr a 1).
Proof.
  unfold is_u32. intros Ha. rewrite Z.shiftr_div_pow2 by lia. change (2 ^ 1) with 2.
  Z.div_mod_to_equations; lia.
Qed.

Lemma crc_bit_u32 a : is_u32 a → is_u32 (crc_bit a).
Proof.
  intros Ha. unfold crc_bit. destruct (Z.testbit a 0); [|by apply shiftr1_u32].
  apply lxor_u32; [by apply shiftr1_u32|unfold is_u32, ieee_poly; lia].
Qed.

Lemma crc_byte_u32 a b : is_u32 a → is_u8 b → is_u32 (crc_byte a b).
Proof.
  intros Ha Hb. unfold crc_byte.
  assert (is_u32 (Z.lxor a b)) as H by (apply lxor_u32; unfold is_u8, is_u32 in *; lia).
  revert H. generalize (Z.lxor a b), 8%nat. intros x n Hx.
  induction n as [|n IH]; simpl; [done|]. by apply crc_bit_u32.
Qed.

Lemma ChecksumIEEE_range data : are_bytes data → is_u32 (ChecksumIEEE data).
Proof.
  intros Hd. unfold ChecksumIEEE. apply lxor_u32; [|auto with bbdb].
  pose proof ones32_u32 as H. revert H. generalize (Z.ones 32). induction Hd as [|b l Hb Hl IH]; intros z Hz; [done|].
  simpl. by apply IH, crc_byte_u32.
Qed.

Lemma crc_fold_u32 l a : is_u32 a → are_bytes l → is_u32 (fold_left crc_byte l a).
Proof.
  intros Ha Hl. revert a Ha. induction Hl as [|b l Hb Hl IH]; intros a Ha; [done|].
  simpl. by apply IH, crc_byte_u32.
Qed.

(** ** Every change of a single byte changes the checksum

    Each step of the shift register is injective on 32-bit states: the bit
    shifted out is the top bit of the result. *)

Lemma shiftr1_bit31 a : is_u32 a → Z.testbit (Z.shiftr a 1) 31 = false.
Proof.
  intros Ha. rewrite Z.shiftr_spec by lia. unfold is_u32 in Ha.
  destruct (decide (a = 0)) as [->|]; [by rewrite Z.bits_0|].
  apply Z.bits_above_log2; [lia|]. apply Z.log2_lt_pow2; simpl; lia.
Qed.

Lemma shiftr1_inj a b :
  Z.testbit a 0 = Z.testbit b 0 → Z.shiftr a 1 = Z.shiftr b 1 → a = b.
Proof.
  intros H0 H. rewrite (Z.div2_odd a), (Z.div2_odd b), !Z.div2_spec, H, <- !Z.bit0_odd.
  by rewrite H0.
Qed.

Lemma crc_bit_inj a b : is_u32 a → is_u32 b → crc_bit a = crc_bit b → a = b.
Proof.
  intros Ha Hb E.
  assert (Z.testbit a 0 = Z.testbit b 0) as H0.
  { apply (f_equal (fun z => Z.testbit z 31)) in E. unfold crc_bit in E.
    destruct (Z.testbit a 0), (Z.testbit b 0); try done;
      rewrite Z.lxor_spec, !shiftr1_bit31 in E by done; done. }
  apply shiftr1_inj; [done|]. unfold crc_bit in E. rewrite H0 in E.
  destruct (Z.testbit b 0); [|done].
  apply (f_equal (fun z => Z.lxor z ieee_poly)) in E.
  by rewrite !Z.lxor_assoc, !Z.lxor_nilpotent, !Z.lxor_0_r in E.
Qed.

Lemma crc_iter_inj n a b :
  is_u32 a → is_u32 b → Nat.iter n crc_bit a = Nat.iter n crc_bit b → a = b.
Proof.
  assert (∀ n a, is_u32 a → is_u32 (Nat.iter n crc_bit a)) as Hi.
  { intros m x Hx. induction m; simpl; [done|by apply crc_bit_u32]. }
  intros Ha Hb. induction n as [|n IH]; simpl; [done|].
  intros E%crc_bit_inj; eauto.
Qed.

Lemma lxor_inj_r a b c : Z.lxor a c = Z.lxor b c → a = b.
Proof.
  intros E%(f_equal (fun z => Z.lxor z c)).
  by rewrite !Z.lxor_assoc, !Z.lxor_nilpotent, !Z.lxor_0_r in E.
Qed.

Lemma u8_u32 b : is_u8 b → is_u32 b.
Proof. unfold is_u8, is_u32. lia. Qed.
#[export] Hint Resolve u8_u32 lxor_u32 crc_byte_u32 : bbdb.

Lemma crc_byte_inj a a' b b' :
  is_u32 a → is_u32 a' → is_u8 b → is_u8 b' →
  crc_byte a b = crc_byte a' b' → Z.lxor a b = Z.lxor a' b'.
Proof. intros. eapply (crc_iter_inj 8); auto with bbdb. Qed.

Lemma crc_fold_inj l a b :
  is_u32 a → is_u32 b → are_bytes l → fold_left crc_byte l a = fold_left crc_byte l b → a = b.
Proof.
  intros Ha Hb Hl. revert a b Ha Hb. induction Hl as [|x l Hx Hl IH]; intros a b Ha Hb E; [done|].
  simpl in E. apply IH in E; auto with bbdb.
  apply crc_byte_inj, lxor_inj_r in E; auto.
Qed.

(** Two messages that differ in exactly one byte have different checksums. *)
Lemma ChecksumIEEE_byte_change p b b' s :
  are_bytes p → is_u8 b → is_u8 b' → are_bytes s → b ≠ b' →
  ChecksumIEEE (p ++ b :: s) ≠ ChecksumIEEE (p ++ b' :: s).
Proof.
  intros Hp Hb Hb' Hs Hne E. unfold ChecksumIEEE in E. apply lxor_inj_r in E.
  rewrite !fold_left_app in E. cbn [fold_left] in E.
  assert (is_u32 (fold_left crc_byte p (Z.ones 32))) as H1.
  { apply crc_fold_u32; auto with bbdb. }
  apply crc_fold_inj in E; auto with bbdb.
  apply crc_byte_inj in E; auto.
  rewrite !(Z.lxor_comm (fold_left _ _ _)) in E. by apply lxor_inj_r in E.
Qed.
