(* ===== verification/GoOs.v ===== *)
(** * The file operations of Go's [os] package the program uses

    The file system is a map from cleaned paths to file contents.  Every
    system call may fail: [sched] lists, for the calls to come, whether the
    next one succeeds ([None]) or fails ([Some n]; a failing write has put
    its first [n] bytes into the file before).  Calls after the end of the
    list succeed.  Theorems quantify over the whole list, so they cover every
    pattern of failures; a list that is [Some _] from some point on is a
    process that dies there.  Directories are not tracked: [MkdirAll] changes
    no file. *)
From S2P Require Import Prelude.

Record FS := mkFS { files : gmap bytes bytes; sched : list (option nat) }.

Definition set_files (f : gmap bytes bytes → gmap bytes bytes) (s : FS) : FS :=
  mkFS (f (files s)) (sched s).

(** The outcome of the next system call, and the file system after it. *)
Definition next_call (s : FS) : FS * option nat :=
  match sched s with
  | [] => (s, None)
  | o :: r => (mkFS (files s) r, o)
  end.

(** A call that runs [k] unless the schedule makes it fail. *)
Definition syscall {A} (k : ST FS A) : ST FS A := fun s =>
  match next_call s with
  | (s', None) => k s'
  | (s', Some _) => (s', Err EIO)
  end.

Definition MkdirAll (dir : bytes) : ST FS unit := syscall (st_ret tt).

(** [os.Create]: creates or truncates the file. *)
Definition Create (path : bytes) : ST FS unit :=
  syscall (fun s => (set_files <[path := []]> s, Ok tt)).

(** Appends to the file behind a handle opened by [Create]. *)
Definition append_file (path data : bytes) (m : gmap bytes bytes) : gmap bytes bytes :=
  <[path := default [] (m !! path) ++ data]> m.

(** [f.Write]: all of [data], or its first [n] bytes and an error. *)
Definition Write (path data : bytes) : ST FS unit := fun s =>
  match next_call s with
  | (s', None) => (set_files (append_file path data) s', Ok tt)
  | (s', Some n) => (set_files (append_file path (take n data)) s', Err EIO)
  end.

Definition Sync (path : bytes) : ST FS unit := syscall (st_ret tt).

(** [f.Stat().Size()] of an open file. *)
Definition StatSize (path : bytes) : ST FS Z :=
  syscall (fun s => match files s !! path with
                    | Some c => (s, Ok (zlen c))
                    | None => (s, Err ENotExist)
                    end).

Definition Remove (path : bytes) : ST FS unit :=
  syscall (fun s => match files s !! path with
                    | Some _ => (set_files (delete path) s, Ok tt)
                    | None => (s, Err ENotExist)
                    end).

(** [os.Rename]: atomically replaces the destination. *)
Definition Rename (src dst : bytes) : ST FS unit :=
  syscall (fun s => match files s !! src with
                    | Some c => (set_files (fun m => <[dst := c]> (delete src m)) s, Ok tt)
                    | None => (s, Err ENotExist)
                    end).

(** [os.Open]: only the existence matters, the handle is the path. *)
Definition Open (path : bytes) : ST FS unit :=
  syscall (fun s => match files s !! path with
                    | Some _ => (s, Ok tt)
                    | None => (s, Err ENotExist)
                    end).

Definition ReadFile (path : bytes) : ST FS bytes :=
  syscall (fun s => match files s !! path with
                    | Some c => (s, Ok c)
                    | None => (s, Err ENotExist)
                    end).

(** [f.ReadAt] into a buffer of [n] bytes at offset [off]: an error unless
    all of the buffer could be filled. *)
Definition ReadAt (path : bytes) (n off : Z) : ST FS bytes :=
  syscall (fun s => match files s !! path with
                    | Some c =>
                        if off <? 0 then (s, Err (EMsg "negative offset"))
                        else if zlen c <? off + n then (s, Err (EMsg "EOF"))
                        else (s, Ok (slice (Z.to_nat off) (Z.to_nat n) c))
                    | None => (s, Err ENotExist)
                    end).

(** ** Frame properties: which files a call can change *)

Lemma next_call_files s s' o : next_call s = (s', o) → files s' = files s.
Proof. unfold next_call. destruct (sched s); by intros [= <- <-]. Qed.

(** Opens a system call of the goal or of a hypothesis: one case per outcome. *)
Ltac os_step :=
  match goal with
  | H : context [next_call ?s] |- _ =>
      let s' := fresh "s" in let o := fresh "o" in let E := fresh "Ecall" in
      destruct (next_call s) as [s' o] eqn:E; apply next_call_files in E; destruct o;
      cbv beta match in *
  end.

Ltac os_cases :=
  repeat first
    [ os_step
    | match goal with
      | H : (_, _) = (_, _) |- _ => injection H; clear H; intros; subst
      | H : context [match files ?s !! ?p with _ => _ end] |- _ =>
          destruct (files s !! p) eqn:?
      | H : context [if ?b then _ else _] |- _ => destruct b eqn:?
      end ].

(** Reading calls leave every file as it is. *)
Lemma MkdirAll_files d s s' r : MkdirAll d s = (s', r) → files s' = files s.
Proof. unfold MkdirAll, syscall, st_ret. intros. os_cases; congruence. Qed.
Lemma Sync_files p s s' r : Sync p s = (s', r) → files s' = files s.
Proof. unfold Sync, syscall, st_ret. intros. os_cases; congruence. Qed.
Lemma StatSize_files p s s' r : StatSize p s = (s', r) → files s' = files s.
Proof. unfold StatSize, syscall. intros. os_cases; congruence. Qed.
Lemma Open_files p s s' r : Open p s = (s', r) → files s' = files s.
Proof. unfold Open, syscall. intros. os_cases; congruence. Qed.
Lemma ReadFile_files p s s' r : ReadFile p s = (s', r) → files s' = files s.
Proof. unfold ReadFile, syscall. intros. os_cases; congruence. Qed.
Lemma ReadAt_files p n off s s' r : ReadAt p n off s = (s', r) → files s' = files s.
Proof. unfold ReadAt, syscall. intros. os_cases; congruence. Qed.

(** Writing calls change only the files they name. *)
Lemma Create_frame p q s s' r :
  Create p s = (s', r) → q ≠ p → files s' !! q = files s !! q.
Proof.
  unfold Create, syscall, set_files. intros. os_cases; simpl; [congruence|].
  rewrite lookup_insert_ne by done. congruence.
Qed.
Lemma Write_frame p d q s s' r :
  Write p d s = (s', r) → q ≠ p → files s' !! q = files s !! q.
Proof.
  unfold Write, set_files, append_file. intros.
  os_cases; simpl; rewrite lookup_insert_ne by done; congruence.
Qed.
Lemma Remove_frame p q s s' r :
  Remove p s = (s', r) → q ≠ p → files s' !! q = files s !! q.
Proof.
  unfold Remove, syscall, set_files. intros. os_cases; simpl; try congruence.
  rewrite lookup_delete_ne by done. congruence.
Qed.
Lemma Rename_frame p d q s s' r :
  Rename p d s = (s', r) → q ≠ p → q ≠ d → files s' !! q = files s !! q.
Proof.
  unfold Rename, syscall, set_files. intros. os_cases; simpl; try congruence.
  rewrite lookup_insert_ne, lookup_delete_ne by done. congruence.
Qed.

(** A computation that leaves the file [q] as it is, whatever it returns; the
    database [keeps] proves it for sequences of calls. *)
Definition keeps (q : bytes) {A} (m : ST FS A) : Prop :=
  ∀ s s' r, m s = (s', r) → files s' !! q = files s !! q.

Lemma keeps_bind q {A B} (m : ST FS A) (k : A → ST FS B) :
  keeps q m → (∀ a, keeps q (k a)) → keeps q (st_bind m k).
Proof.
  intros Hm Hk s s' r E. unfold st_bind in E. destruct (m s) as [s1 [a|e]] eqn:E1.
  - rewrite (Hk _ _ _ _ E). by eapply Hm.
  - injection E as <- _. by eapply Hm.
Qed.
Lemma keeps_wrap q {A} msg (m : ST FS A) : keeps q m → keeps q (st_wrap msg m).
Proof.
  intros Hm s s' r E. unfold st_wrap in E. destruct (m s) as [s1 [a|e]] eqn:E1;
    injection E as <- _; by eapply Hm.
Qed.
Lemma keeps_onerr q {A} (m : ST FS A) c :
  keeps q m → (∀ s, files (c s) !! q = files s !! q) → keeps q (st_onerr m c).
Proof.
  intros Hm Hc s s' r E. unfold st_onerr in E. destruct (m s) as [s1 [a|e]] eqn:E1;
    injection E as <- _; rewrite ?Hc; by eapply Hm.
Qed.
Lemma keeps_ret q {A} (a : A) : keeps q (st_ret a).
Proof. by intros s s' r [= <- _]. Qed.
Lemma keeps_pure q {A} (r : result A) : keeps q (fun s => (s, r)).
Proof. by intros s s' r' [= <- _]. Qed.
Lemma keeps_files q {A} (m : ST FS A) :
  (∀ s s' r, m s = (s', r) → files s' = files s) → keeps q m.
Proof. intros Hm s s' r E. by rewrite (Hm _ _ _ E). Qed.
Lemma keeps_Create q p : q ≠ p → keeps q (Create p).
Proof. intros Hq s s' r E. by eapply Create_frame. Qed.
Lemma keeps_Write q p d : q ≠ p → keeps q (Write p d).
Proof. intros Hq s s' r E. by eapply Write_frame. Qed.
Lemma keeps_Remove q p : q ≠ p → keeps q (Remove p).
Proof. intros Hq s s' r E. by eapply Remove_frame. Qed.
Lemma keeps_exec q {A} (m : ST FS A) s : keeps q m → files (st_exec m s) !! q = files s !! q.
Proof. intros Hm. unfold st_exec. destruct (m s) as [s' r] eqn:E. by eapply Hm. Qed.

Create HintDb keeps discriminated.
#[export] Hint Resolve keeps_bind keeps_wrap keeps_onerr keeps_ret keeps_pure keeps_Create
  keeps_Write keeps_Remove keeps_exec : keeps.
#[export] Hint Extern 1 (keeps _ (MkdirAll _)) => (apply keeps_files, MkdirAll_files) : keeps.
#[export] Hint Extern 1 (keeps _ (Sync _)) => (apply keeps_files, Sync_files) : keeps.
#[export] Hint Extern 1 (keeps _ (StatSize _)) => (apply keeps_files, StatSize_files) : keeps.
#[export] Hint Extern 1 (keeps _ (Open _)) => (apply keeps_files, Open_files) : keeps.
#[export] Hint Extern 1 (keeps _ (ReadFile _)) => (apply keeps_files, ReadFile_files) : keeps.
#[export] Hint Extern 1 (keeps _ (ReadAt _ _ _)) => (apply keeps_files, ReadAt_files) : keeps.

(** ** Effects of successful calls *)

Lemma Create_ok p s s' : Create p s = (s', Ok tt) → files s' = <[p := []]> (files s).
Proof. unfold Create, syscall, set_files. intros. os_cases; simpl; congruence. Qed.

Lemma Write_ok p d s s' :
  Write p d s = (s', Ok tt) → files s' = append_file p d (files s).
Proof. unfold Write, set_files. intros. os_cases; simpl; congruence. Qed.

Lemma StatSize_ok p s s' n :
  StatSize p s = (s', Ok n) → ∃ c, files s !! p = Some c ∧ n = zlen c.
Proof.
  unfold StatSize, syscall. intros. os_cases; try congruence.
  eexists. split; [|done]. congruence.
Qed.

Lemma Rename_ok p d s s' :
  Rename p d s = (s', Ok tt) →
  ∃ c, files s !! p = Some c ∧ files s' = <[d := c]> (delete p (files s)).
Proof.
  unfold Rename, syscall, set_files. intros. os_cases; try congruence.
  eexists. split; [|simpl; f_equal; f_equal]; congruence.
Qed.

Lemma Rename_err p d s s' e :
  Rename p d s = (s', Err e) → files s' = files s.
Proof. unfold Rename, syscall. intros. os_cases; congruence. Qed.

Lemma Remove_ok p s s' :
  Remove p s = (s', Ok tt) → files s' = delete p (files s).
Proof. unfold Remove, syscall, set_files. intros. os_cases; simpl; congruence. Qed.

Lemma Remove_err p s s' e :
  Remove p s = (s', Err e) →
  files s' = files s ∧ (is_not_exist e = true → files s !! p = None).
Proof.
  unfold Remove, syscall. intros. os_cases; try congruence; split; try congruence; done.
Qed.

Lemma Create_err p s s' e : Create p s = (s', Err e) → files s' = files s.
Proof. unfold Create, syscall. intros. os_cases; congruence. Qed.

Lemma ReadFile_ok p s s' c : ReadFile p s = (s', Ok c) → files s !! p = Some c.
Proof. unfold ReadFile, syscall. intros. os_cases; congruence. Qed.

Lemma ReadFile_not_exist p s s' e :
  ReadFile p s = (s', Err e) → is_not_exist e = true → files s !! p = None.
Proof. unfold ReadFile, syscall. intros. os_cases; try congruence; done. Qed.

Lemma ReadAt_ok p n off s s' d :
  ReadAt p n off s = (s', Ok d) →
  ∃ c, files s !! p = Some c ∧ 0 <= off ∧ off + n <= zlen c ∧
       d = slice (Z.to_nat off) (Z.to_nat n) c.
Proof.
  unfold ReadAt, syscall. intros. os_cases; try congruence.
  eexists. split; [|split; [|split; [|reflexivity]]]; [congruence|zcases; done || lia..].
Qed.

(** ** Calls on a file system with no failures left *)

Lemma next_call_nil m : next_call (mkFS m []) = (mkFS m [], None).
Proof. done. Qed.

Lemma ReadAt_run p n off m c :
  m !! p = Some c → 0 <= off → off + n <= zlen c →
  ReadAt p n off (mkFS m []) = (mkFS m [], Ok (slice (Z.to_nat off) (Z.to_nat n) c)).
Proof.
  intros H1 H2 H3. unfold ReadAt, syscall. rewrite next_call_nil. simpl. rewrite H1.
  zcases; try lia. done.
Qed.

Lemma Open_run p m c : m !! p = Some c → Open p (mkFS m []) = (mkFS m [], Ok tt).
Proof. intros H. unfold Open, syscall. rewrite next_call_nil. simpl. by rewrite H. Qed.

Lemma StatSize_run p m c :
  m !! p = Some c → StatSize p (mkFS m []) = (mkFS m [], Ok (zlen c)).
Proof. intros H. unfold StatSize, syscall. rewrite next_call_nil. simpl. by rewrite H. Qed.
