(* ===== verification/Pebble.v ===== *)
(** * The interface of the key-value store (github.com/cockroachdb/pebble)

    Pebble is third-party code.  The development is parametric in it: the
    class [PebbleOps] lists the operations the program calls and the class
    [Pebble] what it relies on, the documented behaviour of an ordered map
    from byte strings to byte strings with atomic batches and range scans.
    Every operation may fail; a failed commit has been applied entirely or
    not at all.

    The second part derives the facts about range scans and deletions that
    the metadata layer needs, once, from the reference function [scan]. *)
From S2P Require Import Prelude.

(** ** Operations of a batch *)
Inductive bop :=
  | OpSet (k v : bytes)
  | OpDelete (k : bytes)
  | OpDeleteRange (lo hi : bytes).

(** The keys of the half-open range [lo, hi). *)
Definition in_range (lo hi k : bytes) : bool := bleb lo k && bltb k hi.

Definition delete_range (lo hi : bytes) (m : gmap bytes bytes) : gmap bytes bytes :=
  filter (fun kv => in_range lo hi kv.1 = false) m.

Definition apply_op (m : gmap bytes bytes) (o : bop) : gmap bytes bytes :=
  match o with
  | OpSet k v => <[k := v]> m
  | OpDelete k => delete k m
  | OpDeleteRange lo hi => delete_range lo hi m
  end.

Definition apply_ops (ops : list bop) (m : gmap bytes bytes) : gmap bytes bytes :=
  fold_left apply_op ops m.

(** ** Range scans *)
Definition key_le (p q : bytes * bytes) : Prop := bleb p.1 q.1 = true.
#[export] Instance key_le_dec : RelDecision key_le.
Proof. intros p q. unfold key_le. apply _. Defined.

(** What an iterator bounded by [lo] (inclusive) and [hi] (exclusive) visits,
    in ascending order of keys. *)
Definition scan (lo hi : bytes) (m : gmap bytes bytes) : list (bytes * bytes) :=
  merge_sort key_le (filter (fun kv => in_range lo hi kv.1 = true) (map_to_list m)).

(** ** The interface *)
Class PebbleOps := {
  pdb : Type;
  pget : bytes → ST pdb (option bytes);
  pbatch : bop → ST pdb unit;
  pcommit : list bop → ST pdb unit;
  piter : bytes → bytes → ST pdb (list (bytes * bytes));
}.

Class Pebble `{PebbleOps} := {
  view : pdb → gmap bytes bytes;
  pget_law k db :
    view (pget k db).1 = view db ∧
    match (pget k db).2 with
    | Ok r => r = view db !! k
    | Err e => is_not_found e = false
    end;
  pbatch_law o db : view (pbatch o db).1 = view db;
  pcommit_law ops db :
    match (pcommit ops db).2 with
    | Ok _ => view (pcommit ops db).1 = apply_ops ops (view db)
    | Err _ => view (pcommit ops db).1 = view db
               ∨ view (pcommit ops db).1 = apply_ops ops (view db)
    end;
  piter_law lo hi db :
    view (piter lo hi db).1 = view db ∧
    ∀ l, (piter lo hi db).2 = Ok l → l = scan lo hi (view db);
}.

(** A whole batch: each operation is added, then the batch is committed. *)
Fixpoint pwrite_batch `{PebbleOps} (todo ops : list bop) : ST pdb unit :=
  match todo with
  | [] => pcommit ops
  | o :: r => pbatch o ;;; pwrite_batch r (ops ++ [o])
  end.

(** [db.p.Set] and [db.p.Delete]. *)
Definition pset `{PebbleOps} (k v : bytes) : ST pdb unit := pcommit [OpSet k v].
Definition pdelete `{PebbleOps} (k : bytes) : ST pdb unit := pcommit [OpDelete k].

(** [W] is a set of states of the store, closed under its operations, in which
    reads, respectively writes, do not fail. *)
Definition reads_work `{PebbleOps} (W : pdb → Prop) : Prop :=
  (∀ k, works W (pget k)) ∧ ∀ lo hi, works W (piter lo hi).

Definition writes_work `{PebbleOps} (W : pdb → Prop) : Prop :=
  (∀ o, works W (pbatch o)) ∧ ∀ ops, works W (pcommit ops).

Lemma works_pwrite_batch `{PebbleOps} W todo ops : writes_work W → works W (pwrite_batch todo ops).
Proof.
  intros [Hb Hc]. revert ops. induction todo as [|o r IH]; intros ops; cbn [pwrite_batch];
    [apply Hc|]. apply works_bind; [apply Hb|]. intros _. apply IH.
Qed.

(** ** Consequences of the interface *)
Section laws.
Context `{Pebble}.

Lemma pget_view k db db' r : pget k db = (db', r) → view db' = view db.
Proof. intros E. pose proof (pget_law k db) as [Hl _]. by rewrite E in Hl. Qed.

Lemma pget_ok k db db' r : pget k db = (db', Ok r) → r = view db !! k.
Proof. intros E. pose proof (pget_law k db) as [_ Hl]. by rewrite E in Hl. Qed.

Lemma pget_err k db db' e : pget k db = (db', Err e) → is_not_found e = false.
Proof. intros E. pose proof (pget_law k db) as [_ Hl]. by rewrite E in Hl. Qed.

Lemma piter_view lo hi db db' r : piter lo hi db = (db', r) → view db' = view db.
Proof. intros E. pose proof (piter_law lo hi db) as [Hl _]. by rewrite E in Hl. Qed.

Lemma piter_ok lo hi db db' l : piter lo hi db = (db', Ok l) → l = scan lo hi (view db).
Proof. intros E. pose proof (piter_law lo hi db) as [_ Hl]. rewrite E in Hl. by apply Hl. Qed.

Lemma pcommit_ok ops db db' u :
  pcommit ops db = (db', Ok u) → view db' = apply_ops ops (view db).
Proof. intros E. pose proof (pcommit_law ops db) as Hl. by rewrite E in Hl. Qed.

Lemma pcommit_any ops db db' r :
  pcommit ops db = (db', r) → view db' = view db ∨ view db' = apply_ops ops (view db).
Proof.
  intros E. pose proof (pcommit_law ops db) as Hl. rewrite E in Hl.
  destruct r; [right; done|done].
Qed.

Lemma pwrite_batch_ok todo ops db db' u :
  pwrite_batch todo ops db = (db', Ok u) → view db' = apply_ops (ops ++ todo) (view db).
Proof.
  revert ops db. induction todo as [|o r IH]; intros ops db; simpl.
  - rewrite app_nil_r. apply pcommit_ok.
  - unfold st_bind. pose proof (pbatch_law o db) as Hb.
    destruct (pbatch o db) as [db1 [x|e]]; [|done]. simpl in Hb.
    intros Hw%IH. by rewrite <- Hb, Hw, <- app_assoc.
Qed.

Lemma pwrite_batch_any todo ops db db' r :
  pwrite_batch todo ops db = (db', r) →
  view db' = view db ∨ view db' = apply_ops (ops ++ todo) (view db).
Proof.
  revert ops db. induction todo as [|o t IH]; intros ops db; simpl.
  - rewrite app_nil_r. apply pcommit_any.
  - unfold st_bind. pose proof (pbatch_law o db) as Hb.
    destruct (pbatch o db) as [db1 [x|e]]; simpl in Hb.
    + intros Hw%IH. by rewrite <- Hb, <- app_assoc in *.
    + intros [= <- <-]. by left.
Qed.
End laws.

(** ** Facts about [scan] *)

Lemma bleb_refl a : bleb a a = true.
Proof. unfold bleb. by rewrite bltb_irrefl. Qed.

Lemma bleb_trans a b c : bleb a b = true → bleb b c = true → bleb a c = true.
Proof.
  unfold bleb. rewrite !negb_true_iff. intros H1 H2.
  destruct (bltb c a) eqn:E; [|done].
  destruct (decide (a = b)) as [->|Hne]; [congruence|].
  pose proof (bltb_total b a ltac:(congruence) H1) as H3.
  by rewrite (bltb_trans _ _ _ E H3) in H2.
Qed.

#[export] Instance key_le_total : Total key_le.
Proof.
  intros p q. unfold key_le, bleb. destruct (bltb q.1 p.1) eqn:E; [|by left].
  right. by rewrite bltb_asym.
Qed.
#[export] Instance key_le_trans : Transitive key_le.
Proof. intros p q r. apply bleb_trans. Qed.

(** A list of entries in strictly ascending key order. *)
Definition key_lt (p q : bytes * bytes) : Prop := blt p.1 q.1.
Definition ascending (l : list (bytes * bytes)) : Prop := StronglySorted key_lt l.

Lemma elem_of_scan lo hi m k v :
  (k, v) ∈ scan lo hi m ↔ m !! k = Some v ∧ in_range lo hi k = true.
Proof.
  unfold scan. rewrite merge_sort_Permutation, list_elem_of_filter, elem_of_map_to_list.
  simpl. tauto.
Qed.

Lemma key_le_ne_lt p q : key_le p q → p.1 ≠ q.1 → key_lt p q.
Proof.
  unfold key_le, key_lt, bleb, blt. rewrite negb_true_iff. intros H Hne.
  apply bltb_total; [congruence|done].
Qed.

Lemma ascending_of_le l :
  StronglySorted key_le l → NoDup l.*1 → ascending l.
Proof.
  induction 1 as [|p l Hs IH Hp]; intros Hnd; simpl in Hnd; constructor.
  - apply IH. by apply NoDup_cons in Hnd as [_ ?].
  - apply NoDup_cons in Hnd as [Hn _]. rewrite Forall_forall in Hp |- *.
    intros q Hq. apply key_le_ne_lt; [by apply Hp|].
    intros E. apply Hn. rewrite E. by apply list_elem_of_fmap_2.
Qed.

Lemma NoDup_fst_filter (P : bytes * bytes → Prop) `{∀ x, Decision (P x)} (l : list (bytes * bytes)) :
  NoDup l.*1 → NoDup (filter P l).*1.
Proof.
  induction l as [|p l IH]; simpl; [done|]. intros [Hn Hl]%NoDup_cons.
  rewrite filter_cons. case_decide; [|by apply IH]. simpl. apply NoDup_cons.
  split; [|by apply IH]. intros (q & Hq & [_ Hin]%list_elem_of_filter)%list_elem_of_fmap.
  apply Hn. rewrite Hq. by apply list_elem_of_fmap_2.
Qed.

Lemma scan_ascending lo hi m : ascending (scan lo hi m).
Proof.
  unfold scan. apply ascending_of_le.
  - apply Sorted_StronglySorted; [intros ???; apply key_le_trans|].
    apply Sorted_merge_sort. apply _.
  - rewrite merge_sort_Permutation. apply NoDup_fst_filter, NoDup_fst_map_to_list.
Qed.

(** Ascending lists with the same entries are equal. *)
Lemma ascending_ext l1 l2 :
  ascending l1 → ascending l2 → (∀ e, e ∈ l1 ↔ e ∈ l2) → l1 = l2.
Proof.
  intros H1. revert l2. induction H1 as [|p l1 Hs1 IH Hp]; intros l2 H2 Hiff.
  - destruct l2 as [|q l2]; [done|]. exfalso.
    eapply not_elem_of_nil, Hiff, elem_of_cons. by left.
  - destruct H2 as [|q l2 Hs2 Hq].
    + exfalso. eapply not_elem_of_nil, Hiff, elem_of_cons. by left.
    + rewrite Forall_forall in Hp, Hq.
      assert (p = q) as ->.
      { assert (p ∈ q :: l2) as [->|Hpq]%elem_of_cons by (apply Hiff, elem_of_cons; by left).
        { done. }
        assert (q ∈ p :: l1) as [->|Hqp]%elem_of_cons by (apply Hiff, elem_of_cons; by left).
        { done. }
        apply Hq in Hpq. apply Hp in Hqp. exfalso. unfold key_lt in *.
        by pose proof (StrictOrder_Irreflexive q.1 (StrictOrder_Transitive _ _ _ Hpq Hqp)). }
      f_equal. apply IH; [done|]. intros e.
      assert (∀ l : list (bytes * bytes), (∀ x, x ∈ l → key_lt q x) → q ∉ l) as Hnot.
      { intros l Hl Hin. by pose proof (StrictOrder_Irreflexive q.1 (Hl _ Hin)). }
      split; intros He.
      * assert (e ∈ q :: l2) as [->|]%elem_of_cons by (apply Hiff, elem_of_cons; by right);
          [|done]. by destruct (Hnot l1 Hp).
      * assert (e ∈ q :: l1) as [->|]%elem_of_cons by (apply Hiff, elem_of_cons; by right);
          [|done]. by destruct (Hnot l2 Hq).
Qed.

(** The characterisation of a scan: any ascending list of exactly the entries
    in range is the scan. *)
Lemma scan_unique lo hi m l :
  ascending l →
  (∀ k v, (k, v) ∈ l ↔ m !! k = Some v ∧ in_range lo hi k = true) →
  scan lo hi m = l.
Proof.
  intros Hl Hiff. apply ascending_ext; [apply scan_ascending|done|].
  intros [k v]. by rewrite elem_of_scan, Hiff.
Qed.

Lemma scan_ext lo hi m1 m2 :
  (∀ k, in_range lo hi k = true → m1 !! k = m2 !! k) → scan lo hi m1 = scan lo hi m2.
Proof.
  intros Heq. apply scan_unique; [apply scan_ascending|].
  intros k v. rewrite elem_of_scan. split; intros [H1 H2].
  - by rewrite Heq.
  - by rewrite <- Heq.
Qed.

Lemma scan_insert_out lo hi m k v :
  in_range lo hi k = false → scan lo hi (<[k := v]> m) = scan lo hi m.
Proof.
  intros Hk. apply scan_ext. intros k' Hk'. rewrite lookup_insert_ne; [done|congruence].
Qed.

Lemma scan_delete_out lo hi m k :
  in_range lo hi k = false → scan lo hi (delete k m) = scan lo hi m.
Proof.
  intros Hk. apply scan_ext. intros k' Hk'. rewrite lookup_delete_ne; [done|congruence].
Qed.

(** Appending below everything else: a key above all present keys of the
    range is visited last. *)
Lemma scan_insert_last lo hi m k v :
  in_range lo hi k = true →
  (∀ k' v', m !! k' = Some v' → in_range lo hi k' = true → blt k' k) →
  scan lo hi (<[k := v]> m) = scan lo hi m ++ [(k, v)].
Proof.
  intros Hk Hmax.
  assert (∀ e, e ∈ scan lo hi m → key_lt e (k, v)) as Hlast.
  { intros [k' v'] [H1 H2]%elem_of_scan. unfold key_lt. simpl. eauto. }
  apply scan_unique.
  - assert (ascending (scan lo hi m)) as Ha by apply scan_ascending. revert Hlast Ha.
    generalize (scan lo hi m). intros l Hl Ha. induction Ha as [|p l Hs IH Hp]; simpl.
    + repeat constructor.
    + constructor.
      * apply IH. intros e He. apply Hl, elem_of_cons. by right.
      * apply Forall_app. split; [done|]. constructor; [|constructor].
        apply Hl, elem_of_cons. by left.
  - intros k' v'. rewrite elem_of_app, list_elem_of_singleton, elem_of_scan.
    destruct (decide (k' = k)) as [->|Hne].
    + rewrite lookup_insert_eq. split; [|intros [[= ->] _]; by right].
      intros [[H1 _]|[= ->]]; [|done].
      specialize (Hmax k v' H1 Hk). by apply StrictOrder_Irreflexive in Hmax.
    + rewrite lookup_insert_ne by done. split; [|by left].
      intros [H1|[= -> _]]; [done|congruence].
Qed.

Lemma lookup_delete_range lo hi m k :
  delete_range lo hi m !! k = if in_range lo hi k then None else m !! k.
Proof.
  unfold delete_range. destruct (in_range lo hi k) eqn:E.
  - apply map_lookup_filter_None. right. intros v _. simpl. congruence.
  - destruct (m !! k) as [v|] eqn:Ek.
    + apply map_lookup_filter_Some. done.
    + apply map_lookup_filter_None. by left.
Qed.

Lemma scan_delete_range lo hi m : scan lo hi (delete_range lo hi m) = [].
Proof.
  apply scan_unique; [constructor|]. intros k v. rewrite lookup_delete_range.
  split; [by intros ?%not_elem_of_nil|]. intros [H1 H2]. by rewrite H2 in H1.
Qed.

(** A range whose end does not lie above its start is empty. *)
Lemma in_range_empty lo hi k : bleb hi lo = true → in_range lo hi k = false.
Proof.
  intros Hle. unfold in_range. destruct (bleb lo k) eqn:E1; [|done]. simpl.
  pose proof (bleb_trans _ _ _ Hle E1) as H. unfold bleb in H. by apply negb_true_iff in H.
Qed.

(** Keys that share the part of the bounds before them. *)
Lemma in_range_app p lo hi k : in_range (p ++ lo) (p ++ hi) (p ++ k) = in_range lo hi k.
Proof. unfold in_range, bleb. by rewrite !bltb_app. Qed.

Lemma scan_keys_lookup lo hi m i k v :
  scan lo hi m !! i = Some (k, v) → m !! k = Some v ∧ in_range lo hi k = true.
Proof. intros H%list_elem_of_lookup_2. by apply elem_of_scan. Qed.
