(* ===== verification/PebbleRef.v ===== *)
(** * A store that satisfies the pebble interface

    A finite map with a list of failures to come: the interface of
    [Pebble.v] is satisfiable, including its error cases.  The witnesses of
    the development run on it. *)
From S2P Require Import Prelude Pebble.

Record refdb := mkRef { ref_map : gmap bytes bytes; ref_faults : list bool }.

Definition ref_call {A} (k : ST refdb A) : ST refdb A := fun s =>
  match ref_faults s with
  | true :: r => (mkRef (ref_map s) r, Err EIO)
  | false :: r => k (mkRef (ref_map s) r)
  | [] => k s
  end.

#[export] Instance RefOps : PebbleOps := {
  pdb := refdb;
  pget k := ref_call (fun s => (s, Ok (ref_map s !! k)));
  pbatch o := ref_call (fun s => (s, Ok tt));
  pcommit ops := ref_call (fun s => (mkRef (apply_ops ops (ref_map s)) (ref_faults s), Ok tt));
  piter lo hi := ref_call (fun s => (s, Ok (scan lo hi (ref_map s))));
}.

#[export] Instance RefPebble : Pebble.
Proof.
  refine {| view := (ref_map : @pdb RefOps → _) |}; intros; simpl; unfold ref_call.
  - destruct (ref_faults db) as [|[]]; done.
  - destruct (ref_faults db) as [|[]]; done.
  - destruct (ref_faults db) as [|[]]; simpl; auto.
  - destruct (ref_faults db) as [|[]]; simpl; split; congruence.
Defined.

(** Its states with no failure to come. *)
Definition calm (d : @pdb RefOps) : Prop := ref_faults d = [].

Lemma calm_reads : reads_work calm.
Proof.
  split; intros; intros [m fl] E; cbv in E; subst fl; cbn; eexists _, _; (split; [reflexivity|done]).
Qed.

Lemma calm_writes : writes_work calm.
Proof.
  split; intros; intros [m fl] E; cbv in E; subst fl; cbn; eexists _, _; (split; [reflexivity|done]).
Qed.

(** An empty store on which no operation fails. *)
Definition empty_db : @pdb RefOps := mkRef ∅ [].

(** The same store without failures: its reads always succeed. *)
Definition PureOps : PebbleOps := {|
  pdb := gmap bytes bytes;
  pget k := fun m => (m, Ok (m !! k));
  pbatch o := fun m => (m, Ok tt);
  pcommit ops := fun m => (apply_ops ops m, Ok tt);
  piter lo hi := fun m => (m, Ok (scan lo hi m));
|}.

Definition PurePebble : @Pebble PureOps.
Proof.
  refine (Build_Pebble PureOps (fun m : gmap bytes bytes => m) _ _ _ _);
    intros; simpl; auto; split; congruence.
Defined.

(** Maps visited in the order of insertion. *)
#[export] Instance IdOrder : MapOrder := {
  map_order A l := l;
  map_order_perm A l := Permutation_refl l;
}.
