(* ===== verification/Keys.v ===== *)
(** * Metadata keys: [internal/meta/keys.go] and [internal/meta/types.go]

    The byte layout of the six key families kept in pebble, the functions
    that build and parse them, and the facts the rest of the metadata layer
    needs: every parser inverts its builder, the families are disjoint, and
    the byte order of keys is the order of the numbers inside them. *)
From S2P Require Import Prelude GoFmt Pebble.

(** ** Types *)

Abbreviation BlockID := (list Z) (only parsing).
Abbreviation ShardID := Z (only parsing).

(** [Tier] is a [uint8]; the three named values. *)
Abbreviation Tier := Z (only parsing).
Definition TierHot : Tier := 0.
Definition TierWarm : Tier := 1.
Definition TierCold : Tier := 2.

Definition Tier_String (t : Tier) : bytes :=
  if t =? TierHot then b!"hot"
  else if t =? TierWarm then b!"warm"
  else if t =? TierCold then b!"cold"
  else b!"tier(" ++ itoa t ++ b!")".

Record BlockMeta := mkBlockMeta {
  bm_ShardID : ShardID;
  bm_OpenedAt : Z;
  bm_SealedAt : Z;
  bm_Tier : Tier;
  bm_Size : Z;
  bm_Checksum : Z;
}.

Record MigrationMeta := mkMigrationMeta {
  mm_DstTier : Tier;
  mm_InProgress : bool;
}.

(** ** Prefixes: three letters and a zero byte *)
Definition prefixWAL : bytes := b!"wal" ++ [0].
Definition prefixBlock : bytes := b!"blk" ++ [0].
Definition prefixIdx : bytes := b!"idx" ++ [0].
Definition prefixExpiry : bytes := b!"exp" ++ [0].
Definition prefixSeq : bytes := b!"seq" ++ [0].
Definition prefixMigr : bytes := b!"mgr" ++ [0].

Definition colon : Z := 58.

(** ** Building and parsing keys *)
Definition WALKey (shard : ShardID) (seq : Z) : bytes :=
  prefixWAL ++ be 2 (u16 shard) ++ be 8 seq.

Definition WALKeyStart (shard : ShardID) : bytes := WALKey shard 0.

(** [shard+1] is computed on a [uint16]. *)
Definition WALKeyEnd (shard : ShardID) : bytes := WALKey (u16 (shard + 1)) 0.

Definition ParseWALKey (key : bytes) : result (ShardID * Z) :=
  if negb (Nat.eqb (length key) 14) || negb (beqb (take 4 key) prefixWAL)
  then Err (EMsg "invalid WAL key")
  else Ok (unbe (slice 4 2 key), unbe (slice 6 8 key)).

Definition BlockKey (id : BlockID) : bytes := prefixBlock ++ id.

Definition ParseBlockKey (key : bytes) : result BlockID :=
  if Nat.leb (length key) 4 || negb (beqb (take 4 key) prefixBlock)
  then Err (EMsg "invalid block key")
  else Ok (drop 4 key).

Definition IdxKey (eventType keyHash : Z) (blockID : BlockID) : bytes :=
  prefixIdx ++ [eventType] ++ be 8 keyHash ++ [colon] ++ blockID.

Definition IdxKeyPrefix (eventType keyHash : Z) : bytes :=
  prefixIdx ++ [eventType] ++ be 8 keyHash ++ [colon].

Definition ParseIdxKey (key : bytes) : result (Z * Z * BlockID) :=
  if Nat.ltb (length key) 14 || negb (beqb (take 4 key) prefixIdx)
  then Err (EMsg "invalid idx key")
  else if negb (nth 13 key 0 =? colon)
  then Err (EMsg "invalid idx key: missing separator")
  else Ok (nth 4 key 0, unbe (slice 5 8 key), drop 14 key).

Definition ExpiryKey (unixHour : Z) (blockID : BlockID) : bytes :=
  prefixExpiry ++ be 8 unixHour ++ [colon] ++ blockID.

(** [unixHour+1] is computed on a [uint64]. *)
Definition ExpiryKeyUpperBound (unixHour : Z) : bytes :=
  prefixExpiry ++ be 8 (u64 (unixHour + 1)).

Definition ParseExpiryKey (key : bytes) : result (Z * BlockID) :=
  if Nat.ltb (length key) 13 || negb (beqb (take 4 key) prefixExpiry)
  then Err (EMsg "invalid expiry key")
  else if negb (nth 12 key 0 =? colon)
  then Err (EMsg "invalid expiry key: missing separator")
  else Ok (unbe (slice 4 8 key), drop 13 key).

Definition WALSeqKey (shard : ShardID) : bytes := prefixSeq ++ be 2 (u16 shard).

Definition MigrationKey (blockID : BlockID) : bytes := prefixMigr ++ blockID.

Definition ParseMigrationKey (key : bytes) : result BlockID :=
  if Nat.leb (length key) 4 || negb (beqb (take 4 key) prefixMigr)
  then Err (EMsg "invalid migration key")
  else Ok (drop 4 key).

Definition BlockIDFromShardAndHour (shard : ShardID) (hour : bytes) : BlockID :=
  sprintf_0x 4 (u16 shard) ++ [colon] ++ hour.

(** The exclusive end of the range of keys with a given 4-byte prefix: the
    prefix with its last byte incremented. *)
Definition bump_last (p : bytes) : bytes :=
  match rev p with
  | [] => []
  | c :: r => rev (u8 (c + 1) :: r)
  end.

(** ** Parsers invert builders *)

Lemma ParseWALKey_WALKey shard seq :
  is_u16 shard → is_u64 seq → ParseWALKey (WALKey shard seq) = Ok (shard, seq).
Proof.
  intros Hs Hq. unfold ParseWALKey, WALKey.
  change (slice 4 2 _) with (be 2 (u16 shard)). change (slice 6 8 _) with (be 8 seq).
  rewrite unbe_be2, unbe_be8, u16_id, u16_id, u64_id by (rewrite ?u16_id by done; done). done.
Qed.

Lemma ParseBlockKey_BlockKey id : id ≠ [] → ParseBlockKey (BlockKey id) = Ok id.
Proof. intros Hid. destruct id; [done|]. reflexivity. Qed.

Lemma ParseMigrationKey_MigrationKey id : id ≠ [] → ParseMigrationKey (MigrationKey id) = Ok id.
Proof. intros Hid. destruct id; [done|]. reflexivity. Qed.

Lemma ParseIdxKey_IdxKey et kh id :
  is_u64 kh → ParseIdxKey (IdxKey et kh id) = Ok (et, kh, id).
Proof.
  intros Hk. unfold ParseIdxKey, IdxKey.
  change (slice 5 8 _) with (be 8 kh). rewrite unbe_be8, u64_id by done. reflexivity.
Qed.

Lemma ParseExpiryKey_ExpiryKey h id :
  is_u64 h → ParseExpiryKey (ExpiryKey h id) = Ok (h, id).
Proof.
  intros Hh. unfold ParseExpiryKey, ExpiryKey.
  change (slice 4 8 _) with (be 8 h). rewrite unbe_be8, u64_id by done. reflexivity.
Qed.

(** ** Builders are injective *)

Lemma WALKey_inj s q s' q' :
  is_u16 s → is_u16 s' → is_u64 q → is_u64 q' →
  WALKey s q = WALKey s' q' → s = s' ∧ q = q'.
Proof.
  intros Hs Hs' Hq Hq' E. apply (f_equal ParseWALKey) in E.
  rewrite !ParseWALKey_WALKey in E by done. by injection E.
Qed.

Lemma IdxKey_inj et kh id et' kh' id' :
  is_u64 kh → is_u64 kh' → IdxKey et kh id = IdxKey et' kh' id' →
  et = et' ∧ kh = kh' ∧ id = id'.
Proof.
  intros Hk Hk' E. apply (f_equal ParseIdxKey) in E.
  rewrite !ParseIdxKey_IdxKey in E by done. by injection E.
Qed.

Lemma ExpiryKey_inj h id h' id' :
  is_u64 h → is_u64 h' → ExpiryKey h id = ExpiryKey h' id' → h = h' ∧ id = id'.
Proof.
  intros Hk Hk' E. apply (f_equal ParseExpiryKey) in E.
  rewrite !ParseExpiryKey_ExpiryKey in E by done. by injection E.
Qed.

Lemma BlockKey_inj id id' : BlockKey id = BlockKey id' → id = id'.
Proof. apply app_inv_head. Qed.

Lemma MigrationKey_inj id id' : MigrationKey id = MigrationKey id' → id = id'.
Proof. apply app_inv_head. Qed.

Lemma WALSeqKey_inj s s' : is_u16 s → is_u16 s' → WALSeqKey s = WALSeqKey s' → s = s'.
Proof.
  unfold WALSeqKey. intros Hs Hs' E%app_inv_head%be2_inj; auto with bbdb.
  by rewrite !u16_id in E.
Qed.

(** ** Well-formed databases

    Every key of the metadata database was built by one of the builders
    above; a sequence counter holds eight bytes. *)
Inductive wfentry : bytes → bytes → Prop :=
  | wf_wal s q v : is_u16 s → is_u64 q → wfentry (WALKey s q) v
  | wf_blk id v : wfentry (BlockKey id) v
  | wf_idx et kh id v : is_u8 et → is_u64 kh → wfentry (IdxKey et kh id) v
  | wf_exp h id v : is_u64 h → wfentry (ExpiryKey h id) v
  | wf_seq s n : is_u16 s → is_u64 n → wfentry (WALSeqKey s) (be 8 n)
  | wf_mig id v : wfentry (MigrationKey id) v.

Definition db_ok (m : gmap bytes bytes) : Prop := ∀ k v, m !! k = Some v → wfentry k v.

Lemma db_ok_empty : db_ok ∅.
Proof. intros k v H. by rewrite lookup_empty in H. Qed.

Lemma db_ok_insert m k v : db_ok m → wfentry k v → db_ok (<[k := v]> m).
Proof. intros Hm Hk k' v' [[-> ->]|[_ ?]]%lookup_insert_Some; auto. Qed.

Lemma db_ok_delete m k : db_ok m → db_ok (delete k m).
Proof. intros Hm k' v' [_ ?]%lookup_delete_Some. auto. Qed.

Lemma db_ok_delete_range m lo hi : db_ok m → db_ok (delete_range lo hi m).
Proof.
  intros Hm k v. rewrite lookup_delete_range. destruct (in_range lo hi k); [done|]. auto.
Qed.

#[export] Hint Resolve db_ok_empty db_ok_insert db_ok_delete db_ok_delete_range : bbdb.
#[export] Hint Constructors wfentry : bbdb.

(** Keys of different families differ: their first letters do. *)
Ltac key_ne := intros E; discriminate (f_equal (take 3) E).

Lemma WALKey_ne_BlockKey s q id : WALKey s q ≠ BlockKey id.
Proof. key_ne. Qed.
Lemma WALKey_ne_ExpiryKey s q h id : WALKey s q ≠ ExpiryKey h id.
Proof. key_ne. Qed.
Lemma WALKey_ne_IdxKey s q et kh id : WALKey s q ≠ IdxKey et kh id.
Proof. key_ne. Qed.
Lemma WALKey_ne_SeqKey s q s' : WALKey s q ≠ WALSeqKey s'.
Proof. key_ne. Qed.
Lemma BlockKey_ne_ExpiryKey id h id' : BlockKey id ≠ ExpiryKey h id'.
Proof. key_ne. Qed.
Lemma BlockKey_ne_IdxKey id et kh id' : BlockKey id ≠ IdxKey et kh id'.
Proof. key_ne. Qed.
Lemma BlockKey_ne_SeqKey id s : BlockKey id ≠ WALSeqKey s.
Proof. key_ne. Qed.
Lemma IdxKey_ne_ExpiryKey et kh id h id' : IdxKey et kh id ≠ ExpiryKey h id'.
Proof. key_ne. Qed.
Lemma IdxKey_ne_SeqKey et kh id s : IdxKey et kh id ≠ WALSeqKey s.
Proof. key_ne. Qed.
Lemma ExpiryKey_ne_SeqKey h id s : ExpiryKey h id ≠ WALSeqKey s.
Proof. key_ne. Qed.
#[export] Hint Resolve WALKey_ne_BlockKey WALKey_ne_ExpiryKey WALKey_ne_IdxKey
  WALKey_ne_SeqKey BlockKey_ne_ExpiryKey BlockKey_ne_IdxKey BlockKey_ne_SeqKey
  IdxKey_ne_ExpiryKey IdxKey_ne_SeqKey ExpiryKey_ne_SeqKey : bbdb.
#[export] Hint Resolve not_eq_sym : bbdb.

Lemma wfentry_seq s v : wfentry (WALSeqKey s) v → ∃ n, is_u64 n ∧ v = be 8 n.
Proof. remember (WALSeqKey s) as k eqn:Ek. destruct 1; eauto; exfalso; revert Ek; key_ne. Qed.

(** ** Which keys lie in which ranges *)

(** The range from [p] to [p] with its last byte incremented holds exactly the
    keys that start with [p]. *)
Lemma in_range_prefix p c k :
  in_range (p ++ [c]) (p ++ [c + 1]) k = has_prefix k (p ++ [c]).
Proof.
  revert k. induction p as [|x p IH]; intros k.
  - unfold in_range, bleb. destruct k as [|y k]; [done|]. simpl.
    zcases; simpl; try lia; try done; by destruct k.
  - destruct k as [|y k]; [done|]. specialize (IH k). revert IH.
    unfold in_range, bleb. simpl. zcases; simpl; try lia; done.
Qed.

Lemma bump_last_app p c : 0 <= c < 255 → bump_last (p ++ [c]) = p ++ [c + 1].
Proof.
  intros Hc. unfold bump_last. rewrite rev_app_distr. simpl.
  rewrite rev_involutive. unfold u8. by rewrite Z.mod_small by lia.
Qed.

Lemma in_range_bump p c k :
  0 <= c < 255 → in_range (p ++ [c]) (bump_last (p ++ [c])) k = has_prefix k (p ++ [c]).
Proof. intros Hc. rewrite bump_last_app by done. apply in_range_prefix. Qed.

Lemma idx_range et kh k :
  in_range (IdxKeyPrefix et kh) (bump_last (IdxKeyPrefix et kh)) k
  = has_prefix k (IdxKeyPrefix et kh).
Proof.
  unfold IdxKeyPrefix. rewrite !app_assoc. apply in_range_bump. unfold colon. lia.
Qed.

(** The index range of one event type and key hash holds the index keys of
    that pair and nothing else. *)
Lemma idx_range_iff et kh k v :
  is_u64 kh → wfentry k v →
  in_range (IdxKeyPrefix et kh) (bump_last (IdxKeyPrefix et kh)) k = true
  ↔ ∃ id, k = IdxKey et kh id.
Proof.
  intros Hk Hw. rewrite idx_range, has_prefix_spec. split.
  - intros [s ->]. exists s. unfold IdxKeyPrefix, IdxKey. by rewrite <- !app_assoc.
  - intros [id ->]. exists id. unfold IdxKeyPrefix, IdxKey. by rewrite <- !app_assoc.
Qed.

(** A range between two keys of one family holds no key of another family. *)
Lemma bltb_app_ne p p' a b :
  length p = length p' → p ≠ p' → bltb (p ++ a) (p' ++ b) = bltb p p'.
Proof.
  revert p'. induction p as [|x p IH]; intros [|y p'] Hl Hne; simpl in *; try done.
  zcases; simpl; try done. apply IH; congruence.
Qed.

Lemma in_range_other p p' a b x :
  length p = length p' → p ≠ p' → in_range (p ++ a) (p ++ b) (p' ++ x) = false.
Proof.
  intros Hl Hne. unfold in_range, bleb. rewrite !bltb_app_ne by done. by destruct (bltb p' p).
Qed.

(** Rules out keys of other families from a range of one family. *)
Ltac other_family Hr :=
  exfalso; revert Hr; unfold WALKeyStart, WALKeyEnd, WALKey, BlockKey, IdxKey, ExpiryKey,
    ExpiryKeyUpperBound, WALSeqKey, MigrationKey;
  rewrite in_range_other by done; done.

(** Comparing a WAL key with a bound of a WAL range. *)
Lemma bltb_WALKey s q s' q' :
  is_u16 s → is_u16 s' → is_u64 q → is_u64 q' →
  bltb (WALKey s q) (WALKey s' q') = (s <? s') || ((s =? s') && (q <? q')).
Proof.
  intros Hs Hs' Hq Hq'. unfold WALKey. rewrite bltb_app, !u16_id by done.
  rewrite (bltb_be 2) by done.
  rewrite <- (app_nil_r (be 8 q)), <- (app_nil_r (be 8 q')), (bltb_be 8) by done.
  simpl. by rewrite andb_false_r, orb_false_r.
Qed.

(** The WAL range of a shard below 0xFFFF holds the shard's WAL keys and
    nothing else. *)
Lemma wal_range_iff s k v :
  is_u16 s → s < 65535 → wfentry k v →
  in_range (WALKeyStart s) (WALKeyEnd s) k = true ↔ ∃ q, is_u64 q ∧ k = WALKey s q.
Proof.
  intros Hs Hlt Hw.
  assert (is_u16 (s + 1)) as Hs1 by (unfold is_u16 in *; lia).
  assert (is_u64 0) as H0 by (unfold is_u64; lia). split.
  - intros Hr. destruct Hw as [s' q v Hs' Hq|id v|et kh id v|h id v|s' n|id v];
      try other_family Hr.
    exists q. split; [done|]. unfold WALKeyStart, WALKeyEnd, in_range, bleb in Hr.
    rewrite (u16_id (s + 1)), !bltb_WALKey in Hr by done.
    assert (s' = s) as ->; [|done].
    unfold is_u64 in Hq. revert Hr. zcases; simpl; try done; lia.
  - intros (q & Hq & ->). unfold WALKeyStart, WALKeyEnd, in_range, bleb.
    rewrite (u16_id (s + 1)), !bltb_WALKey by done. unfold is_u64 in Hq.
    zcases; simpl; try done; lia.
Qed.

(** The WAL range of shard 0xFFFF is empty: its end wraps to shard 0. *)
Lemma wal_range_65535 k : in_range (WALKeyStart 65535) (WALKeyEnd 65535) k = false.
Proof. apply in_range_empty. reflexivity. Qed.

(** The expiry range up to an hour holds the expiry keys of that hour and
    earlier ones. *)
Lemma exp_range_iff h k v :
  is_u64 (h + 1) → wfentry k v →
  in_range prefixExpiry (ExpiryKeyUpperBound h) k = true
  ↔ ∃ h' id, is_u64 h' ∧ k = ExpiryKey h' id ∧ h' <= h.
Proof.
  intros Hh Hw. rewrite <- (app_nil_r prefixExpiry). split.
  - intros Hr. destruct Hw as [s q v Hs Hq|id v|et kh id v|h' id v Hh'|s n|id v];
      try other_family Hr.
    exists h', id. split; [done|]. split; [done|]. apply andb_true_iff in Hr as [_ Hr].
    unfold ExpiryKey, ExpiryKeyUpperBound in Hr. rewrite (u64_id (h + 1)) in Hr by done. rewrite bltb_app, <- (app_nil_r (be 8 (h + 1))), (bltb_be 8) in Hr by done.
    revert Hr. zcases; simpl; try done; lia.
  - intros (h' & id & Hh' & -> & Hle). unfold in_range, bleb, ExpiryKey, ExpiryKeyUpperBound.
    rewrite (u64_id (h + 1)), !bltb_app by done. apply andb_true_iff. split; [done|].
    rewrite <- (app_nil_r (be 8 (h + 1))), (bltb_be 8) by done.
    zcases; simpl; try done; lia.
Qed.
