(* ===== verification/Wal.v ===== *)
(** * The write-ahead log: [internal/meta/wal.go], [internal/meta/recovery.go]

    Per shard, a sequence counter and one pebble entry per event.  The
    abstract content of a shard's log is the list [wal_log] of its entries'
    values in key order; appending, scanning and truncating are shown to
    implement a list that grows at its end. *)
From S2P Require Import Prelude Pebble PebbleRef Keys.

Section wal.
Context `{PebbleOps}.

(** [WALNextSeq]: reads the counter, adds one on a [uint64] (0 when there is
    no counter), writes it back. *)
Definition WALNextSeq (shard : ShardID) : ST pdb Z :=
  let key := WALSeqKey shard in
  let! val := pget key in
  let next := match val with
              | None => 0
              | Some v => u64 (unbe (take 8 v) + 1)
              end in
  pset key (be 8 next) ;;; st_ret next.

Definition WALAppend (shard : ShardID) (data : bytes) : ST pdb unit :=
  let! seq := WALNextSeq shard in
  pset (WALKey shard seq) data.

Definition WALScan (shard : ShardID) : ST pdb (list bytes) :=
  let! es := piter (WALKeyStart shard) (WALKeyEnd shard) in
  st_ret (map snd es).

Definition WALTruncate (shard : ShardID) : ST pdb unit :=
  pwrite_batch [OpDeleteRange (WALKeyStart shard) (WALKeyEnd shard)] [].

(** [FindOrphanedWALShards]: the distinct shards of all parseable WAL keys
    (visited in map order), each kept when a scan of it succeeds and finds
    an entry. *)
Fixpoint keep_nonempty (shards : list ShardID) (acc : list ShardID) : ST pdb (list ShardID) :=
  fun db =>
  match shards with
  | [] => (db, Ok acc)
  | s :: r =>
      match WALScan s db with
      | (db', Ok (_ :: _)) => keep_nonempty r (acc ++ [s]) db'
      | (db', _) => keep_nonempty r acc db'
      end
  end.

Definition wal_key_shard (kv : bytes * bytes) : option ShardID :=
  match ParseWALKey kv.1 with Ok (s, _) => Some s | Err _ => None end.

Definition FindOrphanedWALShards `{MapOrder} : ST pdb (list ShardID) :=
  let! es := piter prefixWAL (bump_last prefixWAL) in
  keep_nonempty (map_order (remove_dups (omap wal_key_shard es))) [].
End wal.

(** ** Abstract content of a shard's log *)
Definition wal_log (s : ShardID) (m : gmap bytes bytes) : list bytes :=
  (scan (WALKeyStart s) (WALKeyEnd s) m).*2.

(** The counter of a shard is at least every sequence number in use. *)
Definition seq_ok (s : ShardID) (m : gmap bytes bytes) : Prop :=
  ∀ q v, is_u64 q → m !! WALKey s q = Some v →
         ∃ n, is_u64 n ∧ m !! WALSeqKey s = Some (be 8 n) ∧ q <= n.

Definition wal_ok (m : gmap bytes bytes) : Prop :=
  db_ok m ∧ ∀ s, is_u16 s → seq_ok s m.

(** The shard's counter has not reached the last [uint64]. *)
Definition seq_free (s : ShardID) (m : gmap bytes bytes) : Prop :=
  ∀ n, m !! WALSeqKey s = Some (be 8 n) → is_u64 n → n + 1 < 2 ^ 64.

Lemma wal_ok_empty : wal_ok ∅.
Proof. split; [apply db_ok_empty|]. intros s _ q v _ Hl. by rewrite lookup_empty in Hl. Qed.

(** Changing anything but WAL entries and counters keeps the invariant. *)
Lemma wal_ok_other m m' :
  wal_ok m → db_ok m' →
  (∀ s q v, is_u16 s → is_u64 q → m' !! WALKey s q = Some v → m !! WALKey s q = Some v) →
  (∀ s, m' !! WALSeqKey s = m !! WALSeqKey s) → wal_ok m'.
Proof.
  intros [H1 H2] H3 H4 H5. split; [done|]. intros s Hs q v Hq Hl.
  rewrite H5. eapply H2; eauto.
Qed.

(** The log of a shard depends only on the shard's WAL entries. *)
Lemma wal_log_ext s m m' :
  is_u16 s → db_ok m → db_ok m' →
  (∀ q, is_u64 q → m' !! WALKey s q = m !! WALKey s q) → wal_log s m' = wal_log s m.
Proof.
  intros Hs Hm Hm' Heq. unfold wal_log. f_equal.
  destruct (decide (s = 65535)) as [->|Hne].
  - apply scan_ext. intros k Hk. by rewrite wal_range_65535 in Hk.
  - assert (s < 65535) by (unfold is_u16 in Hs; lia).
    apply scan_unique; [apply scan_ascending|]. intros k v. rewrite elem_of_scan.
    split; intros [Hl Hr]; (split; [|done]).
    + pose proof (Hm _ _ Hl) as Hw. apply (wal_range_iff s k v) in Hr as (q & Hq & ->); try done.
      by rewrite Heq.
    + pose proof (Hm' _ _ Hl) as Hw. apply (wal_range_iff s k v) in Hr as (q & Hq & ->); try done.
      by rewrite <- Heq.
Qed.

(** The log of shard 0xFFFF always reads as empty. *)
Lemma wal_log_65535 m : wal_log 65535 m = [].
Proof.
  unfold wal_log. replace (scan _ _ m) with (@nil (bytes * bytes)); [done|]. symmetry.
  apply scan_unique; [constructor|]. intros k v. rewrite wal_range_65535.
  split; [by intros ?%not_elem_of_nil|by intros [_ ?]].
Qed.

Lemma elem_of_wal_log s m v :
  is_u16 s → s < 65535 → db_ok m →
  v ∈ wal_log s m ↔ ∃ q, is_u64 q ∧ m !! WALKey s q = Some v.
Proof.
  intros Hs Hlt Hm. unfold wal_log. rewrite list_elem_of_fmap. split.
  - intros ([k v'] & -> & [Hl Hr]%elem_of_scan).
    apply (wal_range_iff s k v') in Hr as (q & Hq & ->); eauto.
  - intros (q & Hq & Hl). exists (WALKey s q, v). split; [done|]. apply elem_of_scan.
    split; [done|]. apply (wal_range_iff s _ v); eauto with bbdb.
Qed.

Section wal_props.
Context `{Pebble}.

Lemma WALNextSeq_ok s db db' n :
  is_u16 s → db_ok (view db) → seq_free s (view db) →
  WALNextSeq s db = (db', Ok n) →
  view db' = <[WALSeqKey s := be 8 n]> (view db) ∧ is_u64 n ∧
  (∀ m, is_u64 m → view db !! WALSeqKey s = Some (be 8 m) → m < n).
Proof.
  intros Hs Hdb Hfree E. unfold WALNextSeq in E. st_inv E; simplify_eq.
  rename r into val. unfold pset in *.
  match goal with Hc : pcommit _ _ = _ |- _ => apply pcommit_ok in Hc as Hv; simpl in Hv end.
  match goal with Hg : pget _ _ = _ |- _ =>
    pose proof (pget_view _ _ _ _ Hg) as Hg1; apply pget_ok in Hg as Hg2 end.
  rewrite Hg1 in Hv. rewrite Hv. split; [done|]. subst val.
  destruct (view db !! WALSeqKey s) as [v|] eqn:El.
  - destruct (wfentry_seq _ _ (Hdb _ _ El)) as (k & Hk & ->).
    specialize (Hfree k El Hk).
    rewrite firstn_all2, unbe_be8, (u64_id k), u64_id by
      (unfold is_u64 in *; rewrite ?length_be; try lia; done).
    split; [unfold is_u64 in *; lia|]. intros m Hm Em%(inj Some)%be8_inj; auto. lia.
  - split; [unfold is_u64; lia|done].
Qed.

(** The counter written by [WALNextSeq] does not touch any log. *)
Lemma seq_insert_log s n s' m :
  is_u16 s → is_u16 s' → is_u64 n → db_ok m →
  wal_log s' (<[WALSeqKey s := be 8 n]> m) = wal_log s' m.
Proof.
  intros Hs Hs' Hn Hm. apply wal_log_ext; auto with bbdb.
  intros q Hq. rewrite lookup_insert_ne; auto with bbdb.
Qed.

(** What a successful append does to the database. *)
Lemma WALAppend_view s data db db' :
  is_u16 s → db_ok (view db) → seq_free s (view db) →
  WALAppend s data db = (db', Ok tt) →
  ∃ n, is_u64 n ∧
    (∀ m, is_u64 m → view db !! WALSeqKey s = Some (be 8 m) → m < n) ∧
    view db' = <[WALKey s n := data]> (<[WALSeqKey s := be 8 n]> (view db)).
Proof.
  intros Hs Hdb Hf E. unfold WALAppend, st_bind in E.
  destruct (WALNextSeq s db) as [db1 [n|e]] eqn:E1; [|done].
  apply WALNextSeq_ok in E1 as (Hv & Hn & Hm); try done.
  apply pcommit_ok in E. simpl in E. rewrite E, Hv. eauto.
Qed.

(** A sequence number above every one in use: the new entry becomes the last. *)
Lemma wal_append_last s n data m :
  is_u16 s → s < 65535 → is_u64 n → wal_ok m →
  (∀ k, is_u64 k → m !! WALSeqKey s = Some (be 8 k) → k < n) →
  wal_log s (<[WALKey s n := data]> (<[WALSeqKey s := be 8 n]> m)) = wal_log s m ++ [data].
Proof.
  intros Hs Hlt Hn [Hm Hq] Hmax.
  rewrite <- (seq_insert_log s n s m) by done. unfold wal_log.
  rewrite scan_insert_last; [by rewrite fmap_app| |].
  - apply (wal_range_iff s _ data); eauto with bbdb.
  - intros k v Hl Hr.
    assert (db_ok (<[WALSeqKey s:=be 8 n]> m)) as Hok by auto with bbdb.
    apply (wal_range_iff s k v) in Hr as (q & Hqq & ->); eauto.
    rewrite lookup_insert_ne in Hl by auto with bbdb.
    destruct (Hq s Hs q v Hqq Hl) as (k & Hk & Hsk & Hle).
    specialize (Hmax k Hk Hsk). unfold blt. rewrite bltb_WALKey by done.
    rewrite Z.eqb_refl, Z.ltb_irrefl. simpl. lia.
Qed.

Lemma wal_append_ok s n data m :
  is_u16 s → is_u64 n → wal_ok m →
  (∀ k, is_u64 k → m !! WALSeqKey s = Some (be 8 k) → k < n) →
  wal_ok (<[WALKey s n := data]> (<[WALSeqKey s := be 8 n]> m)).
Proof.
  intros Hs Hn [Hm Hq] Hmax. split; [auto with bbdb|].
  intros s' Hs' q v Hqq Hl. destruct (decide (s' = s)) as [->|Hne].
  - exists n. split; [done|]. rewrite lookup_insert_ne, lookup_insert_eq by auto with bbdb.
    split; [done|].
    apply lookup_insert_Some in Hl as [[E _]|[_ Hl]].
    + apply WALKey_inj in E as [_ ->]; auto. lia.
    + rewrite lookup_insert_ne in Hl by auto with bbdb.
      destruct (Hq s Hs q v Hqq Hl) as (k & Hk & Hsk & Hle). specialize (Hmax k Hk Hsk). lia.
  - rewrite !lookup_insert_ne in Hl by
      (auto with bbdb || (intros E; apply WALKey_inj in E as [? _]; auto)).
    destruct (Hq s' Hs' q v Hqq Hl) as (k & Hk & Hsk & Hle).
    exists k. split; [done|].
    rewrite !lookup_insert_ne by (auto with bbdb || (intros E; apply WALSeqKey_inj in E; auto)).
    done.
Qed.
End wal_props.

(** ** Scanning, truncating, failing *)
Section wal_ops.
Context `{Pebble}.

Lemma WALScan_ok s db db' l :
  WALScan s db = (db', Ok l) → l = wal_log s (view db) ∧ view db' = view db.
Proof.
  unfold WALScan, st_bind, st_ret. destruct (piter _ _ db) as [db1 [es|e]] eqn:E; [|done].
  intros [= <- <-]. split; [|by eapply piter_view]. apply piter_ok in E as ->. done.
Qed.

Lemma WALScan_view s db db' r : WALScan s db = (db', r) → view db' = view db.
Proof.
  unfold WALScan, st_bind, st_ret. destruct (piter _ _ db) as [db1 [es|e]] eqn:E;
    intros [= <- <-]; by eapply piter_view.
Qed.

(** Whatever [WALNextSeq] returns, it changed at most the shard's counter. *)
Lemma WALNextSeq_any s db db' r :
  WALNextSeq s db = (db', r) →
  view db' = view db ∨ ∃ n, is_u64 n ∧ view db' = <[WALSeqKey s := be 8 n]> (view db).
Proof.
  unfold WALNextSeq, st_bind, st_ret.
  destruct (pget _ db) as [db1 [v|e]] eqn:E1; apply pget_view in E1;
    [|intros [= <- <-]; by left].
  unfold pset. destruct (pcommit _ db1) as [db2 [u|e]] eqn:E2; intros [= <- <-];
    apply pcommit_any in E2; rewrite E1 in E2; simpl in E2;
    (destruct E2 as [E2|E2]; [by left|right]); eexists; (split; [|exact E2]);
    destruct v; auto with bbdb; unfold is_u64; lia.
Qed.

Lemma delete_range_log s s' m :
  is_u16 s → is_u16 s' → db_ok m →
  wal_log s' (delete_range (WALKeyStart s) (WALKeyEnd s) m)
  = if decide (s' = s) then [] else wal_log s' m.
Proof.
  intros Hs Hs' Hm. case_decide as Hd.
  - subst s'. unfold wal_log. by rewrite scan_delete_range.
  - apply wal_log_ext; auto with bbdb. intros q Hq. rewrite lookup_delete_range.
    destruct (in_range _ _ _) eqn:E; [|done]. exfalso.
    destruct (decide (s = 65535)) as [->|].
    { by rewrite wal_range_65535 in E. }
    apply (wal_range_iff s _ []) in E as (q' & Hq' & E);
      [|done|unfold is_u16 in Hs; lia|auto with bbdb].
    apply WALKey_inj in E as [? _]; auto.
Qed.

Lemma delete_range_keeps_wal_ok s m :
  is_u16 s → wal_ok m → wal_ok (delete_range (WALKeyStart s) (WALKeyEnd s) m).
Proof.
  intros Hs Hm. pose proof Hm as [Hok _]. eapply wal_ok_other; [done|auto with bbdb| |].
  - intros s' q v Hs' Hq. rewrite lookup_delete_range. by destruct (in_range _ _ _).
  - intros s'. rewrite lookup_delete_range. destruct (in_range _ _ _) eqn:E; [|done].
    exfalso. other_family E.
Qed.

Lemma keep_nonempty_spec shards acc db db' l :
  keep_nonempty shards acc db = (db', Ok l) →
  view db' = view db ∧
  ∃ k, l = acc ++ k ∧ k `sublist_of` shards ∧
       ∀ s, s ∈ k → wal_log s (view db) ≠ [].
Proof.
  revert acc db. induction shards as [|s r IH]; intros acc db; simpl.
  - intros [= <- <-]. split; [done|]. exists []. rewrite app_nil_r.
    repeat split; [constructor|]. by intros s ?%not_elem_of_nil.
  - destruct (WALScan s db) as [db1 [[|x xs]|e]] eqn:Es; pose proof (WALScan_view _ _ _ _ Es) as Hv;
      intros E; destruct (IH _ _ E) as (H1 & k & -> & H2 & H3); rewrite Hv in *;
      (split; [done|]).
    + exists k. repeat split; [by apply sublist_cons|done].
    + apply WALScan_ok in Es as [Es _]. exists (s :: k). rewrite <- app_assoc.
      repeat split; [by apply sublist_skip|].
      intros s' [->|Hin]%elem_of_cons; [by rewrite <- Es|auto].
    + exists k. repeat split; [by apply sublist_cons|done].
Qed.

Lemma keep_nonempty_all shards acc db db' l :
  (∀ lo hi db, ∃ db' l, piter lo hi db = (db', Ok l)) →
  keep_nonempty shards acc db = (db', Ok l) →
  ∀ s, s ∈ l ↔ s ∈ acc ∨ (s ∈ shards ∧ wal_log s (view db) ≠ []).
Proof.
  intros Hread. revert acc db. induction shards as [|s0 r IH]; intros acc db; simpl.
  - intros [= <- <-] s. rewrite elem_of_nil. tauto.
  - destruct (WALScan s0 db) as [db1 res] eqn:Es.
    pose proof (WALScan_view _ _ _ _ Es) as Hv.
    destruct res as [[|x xs]|e].
    + intros E s. rewrite (IH _ _ E), Hv, elem_of_cons.
      apply WALScan_ok in Es as [Es _].
      split; [tauto|]. intros [?|[[->|?] ?]]; [by left|congruence|by right].
    + intros E s. rewrite (IH _ _ E), Hv, elem_of_cons, elem_of_app, list_elem_of_singleton.
      apply WALScan_ok in Es as [Es _].
      assert (wal_log s0 (view db) ≠ []) by congruence.
      split; [intros [[?| ->]|[? ?]]; auto|intros [?|[[->|?] ?]]; auto].
    + exfalso. unfold WALScan, st_bind, st_ret in Es.
      destruct (Hread (WALKeyStart s0) (WALKeyEnd s0) db) as (db2 & l2 & Hr).
      by rewrite Hr in Es.
Qed.

Lemma keep_nonempty_Ok shards acc db : ∃ db' l, keep_nonempty shards acc db = (db', Ok l).
Proof.
  revert acc db. induction shards as [|s r IH]; intros acc db; simpl; [eauto|].
  destruct (WALScan s db) as [db1 [[|x xs]|e]]; apply IH.
Qed.

Lemma wal_shards_u16 s m :
  db_ok m → s ∈ omap wal_key_shard (scan prefixWAL (bump_last prefixWAL) m) → is_u16 s.
Proof.
  intros Hm ([k v] & [Hl Hr]%elem_of_scan & Hp)%list_elem_of_omap. unfold wal_key_shard in Hp. cbn [fst] in Hp.
  change prefixWAL with (b!"wal" ++ [0]) in Hr. rewrite in_range_bump in Hr by lia.
  destruct (Hm _ _ Hl) as [s' q v Hs' Hq|id v|et kh id v|h id v|s' n|id v]; try discriminate Hr.
  rewrite ParseWALKey_WALKey in Hp by done. by injection Hp as <-.
Qed.

(** The shards named by the WAL keys of the database. *)
Lemma elem_of_wal_shards s m :
  is_u16 s → db_ok m →
  s ∈ omap wal_key_shard (scan prefixWAL (bump_last prefixWAL) m)
  ↔ ∃ q v, is_u64 q ∧ m !! WALKey s q = Some v.
Proof.
  intros Hs Hm. rewrite list_elem_of_omap. split.
  - intros ([k v] & [Hl Hr]%elem_of_scan & Hp). unfold wal_key_shard in Hp. cbn [fst] in Hp.
    change prefixWAL with (b!"wal" ++ [0]) in Hr. rewrite in_range_bump in Hr by lia.
    destruct (Hm _ _ Hl) as [s' q v Hs' Hq|id v|et kh id v|h id v|s' n|id v];
      try discriminate Hr.
    rewrite ParseWALKey_WALKey in Hp by done. injection Hp as ->. eauto.
  - intros (q & v & Hq & Hl). exists (WALKey s q, v). split.
    + apply elem_of_scan. split; [done|].
      change prefixWAL with (b!"wal" ++ [0]). rewrite in_range_bump by lia.
      apply has_prefix_app.
    + unfold wal_key_shard. cbn [fst]. by rewrite ParseWALKey_WALKey.
Qed.
End wal_ops.

(** ** Properties *)
Section wal_claims.
Context `{Pebble}.

(** A successful append puts the event at the end of its shard's log,
    leaves the logs of all other shards as they were, and keeps the
    counter invariant, for every shard but 0xFFFF. *)
Theorem WALAppend_appends s data db db' :
  is_u16 s → s < 65535 → wal_ok (view db) → seq_free s (view db) →
  WALAppend s data db = (db', Ok tt) →
  wal_log s (view db') = wal_log s (view db) ++ [data] ∧
  (∀ s', is_u16 s' → s' ≠ s → wal_log s' (view db') = wal_log s' (view db)) ∧
  wal_ok (view db').
Proof.
  intros Hs Hlt Hok Hf E. pose proof Hok as [Hdb _].
  apply WALAppend_view in E as (n & Hn & Hmax & ->); try done.
  split; [by apply wal_append_last|]. split; [|by apply wal_append_ok].
  intros s' Hs' Hne. rewrite <- (seq_insert_log s n s' (view db)) by done.
  apply wal_log_ext; auto with bbdb. intros q Hq.
  rewrite lookup_insert_ne; [done|]. intros E. apply WALKey_inj in E as [? _]; auto.
Qed.

(** Truncating a shard empties its log and no other, and a scan returns
    exactly the log: after a successful truncation a successful scan of the
    shard is empty. *)
Theorem WALTruncate_empties s db db' :
  is_u16 s → wal_ok (view db) → WALTruncate s db = (db', Ok tt) →
  wal_ok (view db') ∧
  (∀ s', is_u16 s' →
     wal_log s' (view db') = if decide (s' = s) then [] else wal_log s' (view db)) ∧
  (∀ s' db'' l, WALScan s' db' = (db'', Ok l) → l = wal_log s' (view db')).
Proof.
  intros Hs Hok E. pose proof Hok as [Hdb _]. apply pwrite_batch_ok in E. simpl in E.
  rewrite E. split; [by apply delete_range_keeps_wal_ok|]. split.
  - intros s' Hs'. by apply delete_range_log.
  - intros s' db'' l E'. apply WALScan_ok in E' as [-> _]. by rewrite E.
Qed.

(** C36: The end of shard 0xFFFF's WAL range wraps around to shard 0: its
    entries are never scanned and never deleted by a truncation. *)
Theorem WAL_shard_65535_unreachable db db' l :
  (WALScan 65535 db = (db', Ok l) → l = []) ∧
  (WALTruncate 65535 db = (db', Ok tt) → view db' = view db).
Proof.
  split.
  - intros E. apply WALScan_ok in E as [-> _]. apply wal_log_65535.
  - intros E. apply pwrite_batch_ok in E. simpl in E. rewrite E.
    apply map_eq. intros k. rewrite lookup_delete_range. by rewrite wal_range_65535.
Qed.

(** Crash recovery reports exactly the shards that have a WAL entry, each
    once, except shard 0xFFFF, when no read fails. *)
Theorem FindOrphanedWALShards_exact `{MapOrder} db db' l :
  (∀ lo hi db, ∃ db' es, piter lo hi db = (db', Ok es)) →
  db_ok (view db) →
  FindOrphanedWALShards db = (db', Ok l) →
  NoDup l ∧
  ∀ s, is_u16 s →
    s ∈ l ↔ s ≠ 65535 ∧ ∃ q v, is_u64 q ∧ view db !! WALKey s q = Some v.
Proof.
  intros Hread Hdb E. unfold FindOrphanedWALShards, st_bind in E.
  destruct (piter _ _ db) as [db1 [es|e]] eqn:E1; [|done].
  pose proof (piter_view _ _ _ _ _ E1) as Hv. apply piter_ok in E1 as ->.
  pose proof (keep_nonempty_spec _ _ _ _ _ E) as (_ & k & Hk & Hsub & _).
  simpl in Hk. subst k. split.
  - eapply sublist_NoDup; [|exact Hsub]. rewrite map_order_perm. apply NoDup_remove_dups.
  - intros s Hs. rewrite (keep_nonempty_all _ _ _ _ _ Hread E), Hv, elem_of_map_order.
    rewrite elem_of_remove_dups, elem_of_wal_shards by done.
    split.
    + intros [?%not_elem_of_nil|[Hq Hne]]; [done|]. split; [|done].
      intros ->. by rewrite wal_log_65535 in Hne.
    + intros [Hne (q & v & Hq & Hl)]. right. split; [eauto|].
      intros Hnil. apply (not_elem_of_nil v). rewrite <- Hnil.
      apply elem_of_wal_log; eauto. unfold is_u16 in Hs. lia.
Qed.
End wal_claims.

(** ** Witnesses: the properties at concrete databases *)

Lemma seq_free_empty s : seq_free s ∅.
Proof. intros n Hn. by rewrite lookup_empty in Hn. Qed.

Lemma WALAppend_appends_witness :
  wal_log 263 (view (WALAppend 263 [7; 9] empty_db).1) = [[7; 9]].
Proof.
  destruct (WALAppend_appends 263 [7; 9] empty_db (WALAppend 263 [7; 9] empty_db).1)
    as (E & _ & _).
  - unfold is_u16; lia.
  - lia.
  - apply wal_ok_empty.
  - apply seq_free_empty.
  - reflexivity.
  - rewrite E. reflexivity.
Defined.

Lemma WALTruncate_empties_witness :
  wal_log 263 (view (WALTruncate 263 empty_db).1) = [].
Proof.
  destruct (WALTruncate_empties 263 empty_db (WALTruncate 263 empty_db).1) as (_ & E & _).
  - unfold is_u16; lia.
  - apply wal_ok_empty.
  - reflexivity.
  - rewrite (E 263) by (unfold is_u16; lia). reflexivity.
Defined.

(** One event in shard 0x0107, one in shard 0xFFFF: only the first is found. *)
Definition two_shards : gmap bytes bytes :=
  {[ WALKey 263 0 := [1]; WALKey 65535 0 := [2] ]}.

Lemma two_shards_ok : db_ok two_shards.
Proof.
  unfold two_shards. apply db_ok_insert; [apply db_ok_insert; [apply db_ok_empty|]|];
    constructor; unfold is_u16, is_u64; lia.
Qed.

Lemma FindOrphanedWALShards_exact_witness :
  (@FindOrphanedWALShards PureOps IdOrder two_shards).2 = Ok [263] ∧
  ¬ (65535 ∈ [263]).
Proof.
  assert ((@FindOrphanedWALShards PureOps IdOrder two_shards) = (two_shards, Ok [263])) as E
    by (vm_compute; reflexivity).
  destruct (@FindOrphanedWALShards_exact PureOps PurePebble IdOrder two_shards two_shards [263])
    as [_ Hex].
  - intros lo hi db. exists db, (scan lo hi db). reflexivity.
  - apply two_shards_ok.
  - exact E.
  - split; [by rewrite E|]. intros Hin. apply Hex in Hin as [Hn _]; [|unfold is_u16; lia].
    by apply Hn.
Defined.
