(* ===== verification/BlockMetaDB.v ===== *)
(** * Block metadata and tier migration state:
    [internal/meta/block.go], [internal/meta/migration.go] *)
From S2P Require Import Prelude Pebble PebbleRef Keys.

Definition blockMetaSize : nat := 31.

(** Offsets 0, 2, 10, 18, 19, 27. *)
Definition encodeBlockMeta (m : BlockMeta) : bytes :=
  be 2 (u16 (bm_ShardID m)) ++ be 8 (u64 (bm_OpenedAt m)) ++ be 8 (u64 (bm_SealedAt m)) ++
  [u8 (bm_Tier m)] ++ be 8 (bm_Size m) ++ be 4 (bm_Checksum m).

Definition decodeBlockMeta (buf : bytes) : result BlockMeta :=
  if Nat.ltb (length buf) blockMetaSize then Err (EMsg "block meta too short")
  else Ok {| bm_ShardID := unbe (slice 0 2 buf);
             bm_OpenedAt := i64 (unbe (slice 2 8 buf));
             bm_SealedAt := i64 (unbe (slice 10 8 buf));
             bm_Tier := nth 18 buf 0;
             bm_Size := unbe (slice 19 8 buf);
             bm_Checksum := unbe (slice 27 4 buf) |}.

Definition migrationMetaSize : nat := 2.

Definition encodeMigrationMeta (m : MigrationMeta) : bytes :=
  [u8 (mm_DstTier m); if mm_InProgress m then 1 else 0].

Section ops.
Context `{PebbleOps}.

Definition PutBlockMeta (id : BlockID) (m : BlockMeta) : ST pdb unit :=
  pset (BlockKey id) (encodeBlockMeta m).

Definition GetBlockMeta (id : BlockID) : ST pdb BlockMeta := fun db =>
  match pget (BlockKey id) db with
  | (db', Ok None) => (db', Err (EWrap "block" ENotFound))
  | (db', Err e) => (db', Err e)
  | (db', Ok (Some val)) => (db', decodeBlockMeta val)
  end.

Definition DeleteBlockMeta (id : BlockID) : ST pdb unit := pdelete (BlockKey id).

Definition PutMigrationMeta (id : BlockID) (m : MigrationMeta) : ST pdb unit :=
  pset (MigrationKey id) (encodeMigrationMeta m).

Definition GetMigrationMeta (id : BlockID) : ST pdb MigrationMeta := fun db =>
  match pget (MigrationKey id) db with
  | (db', Ok None) => (db', Err ENotFound)
  | (db', Err e) => (db', Err e)
  | (db', Ok (Some val)) =>
      if Nat.ltb (length val) migrationMetaSize
      then (db', Err (EMsg "migration meta too short"))
      else (db', Ok {| mm_DstTier := nth 0 val 0; mm_InProgress := nth 1 val 0 =? 1 |})
  end.

Definition DeleteMigrationMeta (id : BlockID) : ST pdb unit := pdelete (MigrationKey id).

Definition migration_key_id (kv : bytes * bytes) : option BlockID :=
  match ParseMigrationKey kv.1 with Ok id => Some id | Err _ => None end.

Definition ScanInProgressMigrations : ST pdb (list BlockID) :=
  let! es := piter prefixMigr (bump_last prefixMigr) in
  st_ret (omap migration_key_id es).
End ops.

(** ** The metadata record survives its encoding *)
Definition meta_ok (m : BlockMeta) : Prop :=
  is_u16 (bm_ShardID m) ∧ is_i64 (bm_OpenedAt m) ∧ is_i64 (bm_SealedAt m) ∧
  is_u8 (bm_Tier m) ∧ is_u64 (bm_Size m) ∧ is_u32 (bm_Checksum m).

Lemma decode_encodeBlockMeta m : meta_ok m → decodeBlockMeta (encodeBlockMeta m) = Ok m.
Proof.
  destruct m as [sh o se t sz c]. intros (H1 & H2 & H3 & H4 & H5 & H6); simpl in *.
  unfold decodeBlockMeta, encodeBlockMeta.
  cbn [bm_ShardID bm_OpenedAt bm_SealedAt bm_Tier bm_Size bm_Checksum].
  change (slice 0 2 _) with (be 2 (u16 sh)). change (slice 2 8 _) with (be 8 (u64 o)).
  change (slice 10 8 _) with (be 8 (u64 se)). change (nth 18 _ 0) with (u8 t).
  change (slice 19 8 _) with (be 8 sz). change (slice 27 4 _) with (be 4 c).
  rewrite unbe_be2, !unbe_be8, unbe_be4, !(u64_id (u64 _)), !i64_u64 by auto with bbdb.
  rewrite !(u16_id sh), (u8_id t), (u64_id sz), (u32_id c) by done. done.
Qed.

Section props.
Context `{Pebble}.

Lemma GetBlockMeta_view id db db' r : GetBlockMeta id db = (db', r) → view db' = view db.
Proof.
  unfold GetBlockMeta. destruct (pget _ db) as [db1 [[v|]|e]] eqn:E;
    apply pget_view in E; by intros [= <- <-].
Qed.

Lemma GetBlockMeta_ok id db db' m :
  GetBlockMeta id db = (db', Ok m) →
  ∃ v, view db !! BlockKey id = Some v ∧ decodeBlockMeta v = Ok m.
Proof.
  unfold GetBlockMeta. destruct (pget _ db) as [db1 [[v|]|e]] eqn:E; try done.
  apply pget_ok in E. intros [= <- E2]. eauto.
Qed.

(** [ErrNotFound] means the key is absent (a stored value never decodes to it). *)
Lemma GetBlockMeta_not_found id db db' e :
  GetBlockMeta id db = (db', Err e) → is_not_found e = true →
  view db !! BlockKey id = None.
Proof.
  unfold GetBlockMeta. destruct (pget _ db) as [db1 [[v|]|e']] eqn:E.
  - unfold decodeBlockMeta. destruct (Nat.ltb _ _); by intros [= <- <-].
  - intros _ _. by apply pget_ok in E.
  - intros [= <- <-] Hn. apply pget_err in E. congruence.
Qed.

(** A block's metadata reads back as it was written; other blocks'
    metadata is unaffected; after a delete the read reports not-found. *)
Theorem BlockMeta_put_get_delete id m db1 db2 db3 db4 :
  meta_ok m → PutBlockMeta id m db1 = (db2, Ok tt) → DeleteBlockMeta id db2 = (db3, Ok tt) →
  (∀ r, GetBlockMeta id db2 = (db4, r) → (∃ v, (pget (BlockKey id) db2).2 = Ok v) → r = Ok m) ∧
  (∀ id', id' ≠ id → view db2 !! BlockKey id' = view db1 !! BlockKey id') ∧
  (∀ r, GetBlockMeta id db3 = (db4, r) → (∃ v, (pget (BlockKey id) db3).2 = Ok v) →
        r = Err (EWrap "block" ENotFound)).
Proof.
  intros Hm E1 E2. apply pcommit_ok in E1, E2. simpl in E1, E2. repeat split.
  - intros r Hg [v Hv]. unfold GetBlockMeta in Hg.
    destruct (pget _ db2) as [db' r'] eqn:E. simpl in Hv. subst r'. apply pget_ok in E as Ev.
    rewrite E1, lookup_insert_eq in Ev. subst v.
    injection Hg as _ <-. by apply decode_encodeBlockMeta.
  - intros id' Hne. rewrite E1, lookup_insert_ne; [done|]. by intros ?%BlockKey_inj.
  - intros r Hg [v Hv]. unfold GetBlockMeta in Hg.
    destruct (pget _ db3) as [db' r'] eqn:E. simpl in Hv. subst r'. apply pget_ok in E as Ev.
    rewrite E2, lookup_delete_eq in Ev. subst v. by injection Hg as _ <-.
Qed.

(** The crash-recovery scan lists exactly the blocks with a migration
    record (blocks with an empty identifier excepted). *)
Theorem ScanInProgressMigrations_exact db db' l :
  db_ok (view db) → ScanInProgressMigrations db = (db', Ok l) →
  ∀ id, id ∈ l ↔ id ≠ [] ∧ is_Some (view db !! MigrationKey id).
Proof.
  intros Hdb E id. unfold ScanInProgressMigrations, st_bind, st_ret in E.
  destruct (piter _ _ db) as [db1 [es|e]] eqn:E1; [|done]. injection E as _ <-.
  apply piter_ok in E1 as ->. rewrite list_elem_of_omap.
  change prefixMigr with (b!"mgr" ++ [0]). split.
  - intros ([k v] & [Hl Hr]%elem_of_scan & Hp). rewrite in_range_bump in Hr by lia.
    unfold migration_key_id in Hp. cbn [fst] in Hp.
    destruct (Hdb _ _ Hl) as [s q v Hs Hq|id' v|et kh id' v|h id' v|s n|id' v];
      try discriminate Hr.
    destruct id' as [|c id']; [done|]. rewrite ParseMigrationKey_MigrationKey in Hp by done.
    injection Hp as <-. split; [done|]. by exists v.
  - intros [Hne [v Hl]]. exists (MigrationKey id, v). split.
    + apply elem_of_scan. split; [done|]. rewrite in_range_bump by lia. apply has_prefix_app.
    + unfold migration_key_id. cbn [fst]. by rewrite ParseMigrationKey_MigrationKey.
Qed.
End props.

Definition sample_meta : BlockMeta := mkBlockMeta 263 3600000000000 3700000000000 0 512 99.

Lemma BlockMeta_put_get_delete_witness :
  (GetBlockMeta [1] (PutBlockMeta [1] sample_meta empty_db).1).2 = Ok sample_meta.
Proof.
  destruct (BlockMeta_put_get_delete [1] sample_meta empty_db
              (PutBlockMeta [1] sample_meta empty_db).1
              (DeleteBlockMeta [1] (PutBlockMeta [1] sample_meta empty_db).1).1
              (PutBlockMeta [1] sample_meta empty_db).1) as (Hg & _ & _).
  - unfold meta_ok, sample_meta, is_u16, is_i64, is_u8, is_u64, is_u32; simpl; lia.
  - reflexivity.
  - reflexivity.
  - apply Hg; [vm_compute; reflexivity|]. eexists. reflexivity.
Defined.

Definition one_migration : @pdb RefOps := mkRef {[ MigrationKey [65] := [1; 1] ]} [].

Lemma ScanInProgressMigrations_exact_witness :
  (ScanInProgressMigrations one_migration).2 = Ok [[65]] ∧ [65] ∈ [[65]].
Proof.
  split; [vm_compute; reflexivity|].
  eapply (ScanInProgressMigrations_exact one_migration one_migration).
  - apply db_ok_insert; [apply db_ok_empty|constructor].
  - vm_compute; reflexivity.
  - split; [done|]. exists [1; 1]. vm_compute. reflexivity.
Defined.
