(* ===== verification/IdxDB.v ===== *)
(** * The sparse index in pebble: [IdxLookupBlocks] and [PutIdxBatch] of
    [internal/meta/keys.go] *)
From S2P Require Import Prelude Pebble PebbleRef Keys.

Definition idx_key_id (kv : bytes * bytes) : option BlockID :=
  match ParseIdxKey kv.1 with Ok (_, _, id) => Some id | Err _ => None end.

Section ops.
Context `{PebbleOps}.

Definition IdxLookupBlocks (eventType keyHash : Z) : ST pdb (list BlockID) :=
  let prefix := IdxKeyPrefix eventType keyHash in
  let upper := bump_last prefix in
  let! es := piter prefix upper in
  st_ret (omap idx_key_id es).

Definition PutIdxBatch (eventType : Z) (keyHashes : list Z) (blockID : BlockID) : ST pdb unit :=
  pwrite_batch (map (fun h => OpSet (IdxKey eventType h blockID) []) keyHashes) [].
End ops.

(** ** The abstract index: which blocks are registered for a key *)
Definition indexed (et kh : Z) (id : BlockID) (m : gmap bytes bytes) : Prop :=
  is_Some (m !! IdxKey et kh id).

(** The database after an index batch. *)
Definition put_idx (et : Z) (hs : list Z) (id : BlockID) (m : gmap bytes bytes) :=
  apply_ops (map (fun h => OpSet (IdxKey et h id) []) hs) m.

Lemma put_idx_lookup et hs id m k :
  put_idx et hs id m !! k
  = if decide (k ∈ map (fun h => IdxKey et h id) hs) then Some [] else m !! k.
Proof.
  unfold put_idx, apply_ops. revert m. induction hs as [|h hs IH]; intros m.
  - rewrite decide_False by apply not_elem_of_nil. done.
  - cbn [map fold_left apply_op]. rewrite IH. clear IH.
    destruct (decide (k ∈ map (fun h => IdxKey et h id) hs)) as [Hin|Hin].
    + rewrite decide_True by (apply elem_of_cons; by right). done.
    + destruct (decide (k = IdxKey et h id)) as [->|Hne].
      * rewrite lookup_insert_eq, decide_True by (apply elem_of_cons; by left). done.
      * rewrite lookup_insert_ne, decide_False by (rewrite ?elem_of_cons; tauto || congruence). done.
Qed.

Lemma put_idx_other et hs id m k :
  (∀ h, k ≠ IdxKey et h id) → put_idx et hs id m !! k = m !! k.
Proof.
  intros Hk. rewrite put_idx_lookup, decide_False; [done|].
  rewrite list_elem_of_In, in_map_iff. intros (h & E & _). by apply (Hk h).
Qed.

Lemma put_idx_ok et hs id m :
  is_u8 et → Forall is_u64 hs → db_ok m → db_ok (put_idx et hs id m).
Proof.
  intros He Hh Hm k v. rewrite put_idx_lookup. case_decide as Hd; [|apply Hm].
  intros _. apply list_elem_of_In, in_map_iff in Hd as (h & <- & Hin).
  constructor; [done|]. rewrite Forall_forall in Hh. apply Hh. by apply list_elem_of_In.
Qed.

Lemma indexed_put_idx et hs id m et' kh' id' :
  is_u64 kh' → Forall is_u64 hs →
  indexed et' kh' id' (put_idx et hs id m)
  ↔ (et' = et ∧ kh' ∈ hs ∧ id' = id) ∨ indexed et' kh' id' m.
Proof.
  intros Hk Hh. unfold indexed. rewrite put_idx_lookup.
  assert (IdxKey et' kh' id' ∈ map (fun h => IdxKey et h id) hs
          ↔ et' = et ∧ kh' ∈ hs ∧ id' = id) as Hiff.
  { rewrite list_elem_of_In, in_map_iff. rewrite Forall_forall in Hh. split.
    - intros (h & E & Hin%list_elem_of_In). apply IdxKey_inj in E as (-> & -> & ->); auto.
    - intros (-> & Hin%list_elem_of_In & ->). eauto. }
  case_decide as Hd.
  - split; [intros _; left; by apply Hiff|intros _; by eexists].
  - split; [by right|]. intros [?|?]; [|done]. by destruct Hd; apply Hiff.
Qed.

(** Index entries come out in the byte order of their block identifiers. *)
Lemma idx_scan_ids et kh m :
  is_u64 kh → db_ok m →
  let l := scan (IdxKeyPrefix et kh) (bump_last (IdxKeyPrefix et kh)) m in
  l.*1 = map (IdxKey et kh) (omap idx_key_id l).
Proof.
  intros Hk Hm l.
  assert (∀ e, e ∈ l → ∃ id, e.1 = IdxKey et kh id) as Hall.
  { intros [k v] [Hl Hr]%elem_of_scan. eapply idx_range_iff; eauto. }
  clearbody l. induction l as [|[k v] l IH]; [done|].
  destruct (Hall (k, v)) as [id Hid]; [apply elem_of_cons; by left|].
  simpl in Hid. subst k. cbn [fmap list_fmap omap list_omap fst].
  unfold idx_key_id at 1. cbn [fst]. rewrite ParseIdxKey_IdxKey by done. cbn [map]. f_equal.
  apply IH. intros e He. apply Hall, elem_of_cons. by right.
Qed.

Lemma ascending_ids et kh ids :
  StronglySorted blt (map (IdxKey et kh) ids) → StronglySorted blt ids.
Proof.
  induction ids as [|id ids IH]; [constructor|]. cbn [map]. intros Hs.
  apply StronglySorted_inv in Hs as [Hs Hf]. constructor; [auto|].
  rewrite Forall_forall in Hf |- *. intros id' Hin.
  assert (blt (IdxKey et kh id) (IdxKey et kh id')) as Hb.
  { apply Hf, list_elem_of_In, in_map, list_elem_of_In, Hin. }
  unfold blt, IdxKey in Hb. by rewrite !bltb_app in Hb.
Qed.

Lemma ascending_fst l : ascending l → StronglySorted blt l.*1.
Proof.
  induction 1 as [|p l Hs IH Hp]; simpl; constructor; [done|].
  apply Forall_fmap. eapply Forall_impl; [exact Hp|done].
Qed.

Section props.
Context `{Pebble}.

Lemma IdxLookupBlocks_spec et kh db db' ids :
  is_u64 kh → db_ok (view db) → IdxLookupBlocks et kh db = (db', Ok ids) →
  view db' = view db ∧ StronglySorted blt ids ∧
  ∀ id, id ∈ ids ↔ indexed et kh id (view db).
Proof.
  intros Hk Hdb. unfold IdxLookupBlocks, st_bind, st_ret.
  destruct (piter _ _ db) as [db1 [es|e]] eqn:E; [|done]. intros [= <- <-].
  pose proof (piter_view _ _ _ _ _ E) as Hv. apply piter_ok in E as ->.
  split; [done|]. pose proof (idx_scan_ids et kh (view db) Hk Hdb) as Hids.
  pose proof (scan_ascending (IdxKeyPrefix et kh) (bump_last (IdxKeyPrefix et kh)) (view db))
    as Ha%ascending_fst.
  split.
  - apply (ascending_ids et kh). by rewrite <- Hids.
  - intros id. unfold indexed. split.
    + intros Hin. assert (IdxKey et kh id ∈ map (IdxKey et kh)
        (omap idx_key_id (scan (IdxKeyPrefix et kh) (bump_last (IdxKeyPrefix et kh)) (view db))))
        as Hin' by (apply list_elem_of_In, in_map, list_elem_of_In, Hin).
      rewrite <- Hids in Hin'. apply list_elem_of_fmap in Hin' as ([k v] & Ek & Hs).
      apply elem_of_scan in Hs as [Hl _]. simpl in Ek. rewrite Ek. by exists v.
    + intros [v Hl]. apply list_elem_of_omap. exists (IdxKey et kh id, v). split.
      * apply elem_of_scan. split; [done|]. eapply idx_range_iff; eauto.
      * unfold idx_key_id. cbn [fst]. by rewrite ParseIdxKey_IdxKey.
Qed.

Lemma PutIdxBatch_ok et hs id db db' u :
  PutIdxBatch et hs id db = (db', Ok u) → view db' = put_idx et hs id (view db).
Proof. apply pwrite_batch_ok. Qed.

Lemma PutIdxBatch_any et hs id db db' r :
  PutIdxBatch et hs id db = (db', r) →
  view db' = view db ∨ view db' = put_idx et hs id (view db).
Proof. apply pwrite_batch_any. Qed.

(** After an index batch for a block, a lookup returns, in byte order and
    without duplicates, exactly the blocks registered before plus that block
    for the key hashes of the batch; the order of the hashes is irrelevant. *)
Theorem IdxLookup_after_PutIdxBatch et hs id et' kh' db1 db2 db3 ids :
  is_u8 et → Forall is_u64 hs → is_u64 kh' → db_ok (view db1) →
  PutIdxBatch et hs id db1 = (db2, Ok tt) →
  IdxLookupBlocks et' kh' db2 = (db3, Ok ids) →
  StronglySorted blt ids ∧
  ∀ id', id' ∈ ids ↔ (et' = et ∧ kh' ∈ hs ∧ id' = id) ∨ indexed et' kh' id' (view db1).
Proof.
  intros He Hh Hk Hdb E1 E2. apply PutIdxBatch_ok in E1.
  apply IdxLookupBlocks_spec in E2 as (_ & Hs & Hin); [|done|].
  - split; [done|]. intros id'. rewrite Hin, E1. by apply indexed_put_idx.
  - rewrite E1. by apply put_idx_ok.
Qed.
End props.

Lemma IdxLookup_after_PutIdxBatch_witness :
  (IdxLookupBlocks 1 77 (PutIdxBatch 1 [5; 77] [65; 66] empty_db).1).2 = Ok [[65; 66]] ∧
  [65; 66] ∈ [[65; 66]].
Proof.
  split; [vm_compute; reflexivity|].
  eapply (IdxLookup_after_PutIdxBatch 1 [5; 77] [65; 66] 1 77 empty_db
            (PutIdxBatch 1 [5; 77] [65; 66] empty_db).1).
  - unfold is_u8; lia.
  - repeat constructor; unfold is_u64; lia.
  - unfold is_u64; lia.
  - apply db_ok_empty.
  - reflexivity.
  - vm_compute. reflexivity.
  - left. repeat split. apply elem_of_cons. right. apply elem_of_cons. by left.
Defined.
