(* ===== verification/Expiry.v ===== *)
(** * Expiry keys and the two atomic batches:
    [internal/meta/expiry.go], [internal/meta/seal.go], [internal/meta/ttl_batch.go] *)
From S2P Require Import Prelude Pebble PebbleRef Keys BlockMetaDB Wal.

Record ExpiredEntry := mkExpired { ee_ID : BlockID; ee_Hour : Z }.

#[export] Instance ExpiredEntry_eq_dec : EqDecision ExpiredEntry.
Proof. solve_decision. Defined.

(** The loop stops at the first key without the prefix. *)
Fixpoint take_prefixed (p : bytes) (l : list (bytes * bytes)) : list (bytes * bytes) :=
  match l with
  | [] => []
  | e :: r => if has_prefix e.1 p then e :: take_prefixed p r else []
  end.

Definition expired_of (kv : bytes * bytes) : option ExpiredEntry :=
  match ParseExpiryKey kv.1 with Ok (h, id) => Some (mkExpired id h) | Err _ => None end.

Section ops.
Context `{PebbleOps}.

Definition ScanExpiredEntries (nowHour : Z) : ST pdb (list ExpiredEntry) :=
  let lower := prefixExpiry in
  let upper := ExpiryKeyUpperBound nowHour in
  let! es := piter lower upper in
  st_ret (omap expired_of (take_prefixed lower es)).

Definition PutExpiryKey (unixHour : Z) (blockID : BlockID) : ST pdb unit :=
  pset (ExpiryKey unixHour blockID) [].

Definition DeleteExpiryKey (unixHour : Z) (blockID : BlockID) : ST pdb unit :=
  pdelete (ExpiryKey unixHour blockID).

Definition ScanExpired (nowHour : Z) : ST pdb (list BlockID) :=
  let! es := piter prefixExpiry (ExpiryKeyUpperBound nowHour) in
  st_ret (map ee_ID (omap expired_of es)).

(** [SealBatch]: WAL range delete, block metadata, expiry key, one commit. *)
Definition seal_ops (shard : ShardID) (blockID : BlockID) (bm : BlockMeta) (expiryHour : Z)
  : list bop :=
  [ OpDeleteRange (WALKeyStart shard) (WALKeyEnd shard);
    OpSet (BlockKey blockID) (encodeBlockMeta bm);
    OpSet (ExpiryKey expiryHour blockID) [] ].

Definition SealBatch (shard : ShardID) (blockID : BlockID) (bm : BlockMeta) (expiryHour : Z)
  : ST pdb unit :=
  pwrite_batch (seal_ops shard blockID bm expiryHour) [].

(** [DeleteBlockAndExpiry]: both keys in one commit. *)
Definition DeleteBlockAndExpiry (unixHour : Z) (id : BlockID) : ST pdb unit :=
  pwrite_batch [OpDelete (BlockKey id); OpDelete (ExpiryKey unixHour id)] [].
End ops.

(** ** Abstract view *)

(** The block is registered to expire at the hour. *)
Definition expires (h : Z) (id : BlockID) (m : gmap bytes bytes) : Prop :=
  is_Some (m !! ExpiryKey h id).

Definition sealed_view (shard : ShardID) (id : BlockID) (bm : BlockMeta) (h : Z)
    (m : gmap bytes bytes) : gmap bytes bytes :=
  apply_ops (seal_ops shard id bm h) m.

Definition unsealed_view (h : Z) (id : BlockID) (m : gmap bytes bytes) : gmap bytes bytes :=
  delete (ExpiryKey h id) (delete (BlockKey id) m).

Lemma sealed_view_db_ok shard id bm h m :
  is_u64 h → db_ok m → db_ok (sealed_view shard id bm h m).
Proof. intros Hh Hm. unfold sealed_view, seal_ops. simpl. auto 6 with bbdb. Qed.

Lemma unsealed_view_db_ok h id m : db_ok m → db_ok (unsealed_view h id m).
Proof. intros. unfold unsealed_view. auto with bbdb. Qed.
#[export] Hint Resolve sealed_view_db_ok unsealed_view_db_ok : bbdb.

Lemma sealed_view_block shard id bm h m :
  sealed_view shard id bm h m !! BlockKey id = Some (encodeBlockMeta bm).
Proof.
  unfold sealed_view, seal_ops. simpl.
  by rewrite lookup_insert_ne, lookup_insert_eq by auto with bbdb.
Qed.

Lemma sealed_view_expires shard id bm h m : expires h id (sealed_view shard id bm h m).
Proof. unfold expires, sealed_view, seal_ops. simpl. rewrite lookup_insert_eq. by eexists. Qed.

(** Outside the shard's WAL range a seal changes two keys only. *)
Lemma sealed_view_other shard id bm h m k :
  in_range (WALKeyStart shard) (WALKeyEnd shard) k = false →
  k ≠ BlockKey id → k ≠ ExpiryKey h id →
  sealed_view shard id bm h m !! k = m !! k.
Proof.
  intros Hr Hb He. unfold sealed_view, seal_ops. simpl.
  rewrite !lookup_insert_ne by done. by rewrite lookup_delete_range, Hr.
Qed.

Lemma sealed_view_wal_ok shard id bm h m :
  is_u16 shard → is_u64 h → wal_ok m → wal_ok (sealed_view shard id bm h m).
Proof.
  intros Hs Hh Hm. pose proof Hm as [Hok _]. eapply wal_ok_other; [done|auto with bbdb| |].
  - intros s q v Hs' Hq. unfold sealed_view, seal_ops. simpl.
    rewrite !lookup_insert_ne, lookup_delete_range by auto with bbdb. by destruct (in_range _ _ _).
  - intros s. apply sealed_view_other; auto with bbdb.
Qed.

Lemma sealed_view_log shard id bm h m s :
  is_u16 shard → is_u16 s → is_u64 h → db_ok m →
  wal_log s (sealed_view shard id bm h m) = if decide (s = shard) then [] else wal_log s m.
Proof.
  intros Hs Hs' Hh Hm. rewrite <- (delete_range_log shard s m) by done.
  apply wal_log_ext; auto with bbdb. intros q Hq. unfold sealed_view, seal_ops. simpl.
  by rewrite !lookup_insert_ne by auto with bbdb.
Qed.

(** ** Scanning for expired blocks *)

Lemma take_prefixed_all p l :
  (∀ e, e ∈ l → has_prefix e.1 p = true) → take_prefixed p l = l.
Proof.
  induction l as [|e l IH]; intros Hall; simpl; [done|].
  rewrite Hall by (apply elem_of_cons; by left). f_equal. apply IH.
  intros e' He'. apply Hall, elem_of_cons. by right.
Qed.

Lemma expired_scan_prefixed h m :
  is_u64 (h + 1) → db_ok m →
  take_prefixed prefixExpiry (scan prefixExpiry (ExpiryKeyUpperBound h) m)
  = scan prefixExpiry (ExpiryKeyUpperBound h) m.
Proof.
  intros Hh Hm. apply take_prefixed_all. intros [k v] [Hl Hr]%elem_of_scan.
  apply (exp_range_iff h k v) in Hr as (h' & id & _ & -> & _); [apply has_prefix_app|done|eauto].
Qed.

Lemma elem_of_expired_scan h m e :
  is_u64 (h + 1) → db_ok m →
  e ∈ omap expired_of (scan prefixExpiry (ExpiryKeyUpperBound h) m)
  ↔ is_u64 (ee_Hour e) ∧ ee_Hour e <= h ∧ expires (ee_Hour e) (ee_ID e) m.
Proof.
  intros Hh Hm. rewrite list_elem_of_omap. split.
  - intros ([k v] & [Hl Hr]%elem_of_scan & He).
    apply (exp_range_iff h k v) in Hr as (h' & id & Hh' & -> & Hle); eauto.
    unfold expired_of in He. cbn [fst] in He. rewrite ParseExpiryKey_ExpiryKey in He by done.
    injection He as <-. cbn [ee_Hour ee_ID]. repeat split; try done; try apply Hh'. by exists v.
  - destruct e as [id h']. cbn [ee_Hour ee_ID]. intros (Hh' & Hle & [v Hl]).
    exists (ExpiryKey h' id, v). split.
    + apply elem_of_scan. split; [done|]. apply (exp_range_iff h _ v); eauto with bbdb.
    + unfold expired_of. cbn [fst]. by rewrite ParseExpiryKey_ExpiryKey.
Qed.

(** Entries come out earliest hour first. *)
Lemma expired_scan_sorted h m :
  is_u64 (h + 1) → db_ok m →
  StronglySorted (fun a b => ee_Hour a <= ee_Hour b)
    (omap expired_of (scan prefixExpiry (ExpiryKeyUpperBound h) m)).
Proof.
  intros Hh Hm.
  assert (∀ e, e ∈ scan prefixExpiry (ExpiryKeyUpperBound h) m →
           ∃ h' id, is_u64 h' ∧ e.1 = ExpiryKey h' id) as Hall.
  { intros [k v] [Hl Hr]%elem_of_scan.
    apply (exp_range_iff h k v) in Hr as (h' & id & Hh' & -> & Hle); eauto. }
  pose proof (scan_ascending prefixExpiry (ExpiryKeyUpperBound h) m) as Ha.
  revert Ha Hall. generalize (scan prefixExpiry (ExpiryKeyUpperBound h) m). intros l Ha.
  induction Ha as [|[k v] l Hs IH Hp]; intros Hall; [constructor|].
  destruct (Hall (k, v)) as (h1 & id1 & H1 & E1); [apply elem_of_cons; by left|].
  simpl in E1. subst k. cbn [omap list_omap]. unfold expired_of at 1. cbn [fst].
  rewrite ParseExpiryKey_ExpiryKey by done. constructor.
  - apply IH. intros e He. apply Hall, elem_of_cons. by right.
  - apply Forall_forall. intros e ([k2 v2] & Hin & He)%list_elem_of_omap.
    destruct (Hall (k2, v2)) as (h2 & id2 & H2 & E2); [apply elem_of_cons; by right|].
    simpl in E2. subst k2. unfold expired_of in He. cbn [fst] in He.
    rewrite ParseExpiryKey_ExpiryKey in He by done. injection He as <-. cbn [ee_Hour].
    rewrite Forall_forall in Hp. specialize (Hp _ Hin). unfold key_lt, blt, ExpiryKey in Hp.
    cbn [fst] in Hp. rewrite bltb_app, (bltb_be 8) in Hp by done.
    revert Hp. zcases; simpl; try done; lia.
Qed.

Section props.
Context `{Pebble}.

Lemma ScanExpiredEntries_spec h db db' l :
  is_u64 (h + 1) → db_ok (view db) → ScanExpiredEntries h db = (db', Ok l) →
  view db' = view db ∧
  l = omap expired_of (scan prefixExpiry (ExpiryKeyUpperBound h) (view db)).
Proof.
  intros Hh Hdb. unfold ScanExpiredEntries, st_bind, st_ret.
  destruct (piter _ _ db) as [db1 [es|e]] eqn:E; [|done]. intros [= <- <-].
  pose proof (piter_view _ _ _ _ _ E). apply piter_ok in E as ->.
  split; [done|]. by rewrite expired_scan_prefixed.
Qed.

Lemma ScanExpiredEntries_view h db db' r :
  ScanExpiredEntries h db = (db', r) → view db' = view db.
Proof.
  unfold ScanExpiredEntries, st_bind, st_ret.
  destruct (piter _ _ db) as [db1 [es|e]] eqn:E; intros [= <- <-]; by eapply piter_view.
Qed.

Lemma SealBatch_any shard id bm h db db' r :
  SealBatch shard id bm h db = (db', r) →
  view db' = view db ∨ view db' = sealed_view shard id bm h (view db).
Proof. apply pwrite_batch_any. Qed.

Lemma SealBatch_ok shard id bm h db db' u :
  SealBatch shard id bm h db = (db', Ok u) → view db' = sealed_view shard id bm h (view db).
Proof. apply pwrite_batch_ok. Qed.

Lemma DeleteBlockAndExpiry_ok h id db db' u :
  DeleteBlockAndExpiry h id db = (db', Ok u) → view db' = unsealed_view h id (view db).
Proof. intros E. by apply pwrite_batch_ok in E. Qed.

Lemma DeleteBlockAndExpiry_any h id db db' r :
  DeleteBlockAndExpiry h id db = (db', r) →
  view db' = view db ∨ view db' = unsealed_view h id (view db).
Proof. intros E. by apply pwrite_batch_any in E. Qed.

(** The expiry scan returns, earliest hour first, exactly the registered
    (block, hour) pairs whose hour is not after the given one. *)
Theorem ScanExpiredEntries_exact now db db' l :
  is_u64 now → now + 1 < 2 ^ 64 → db_ok (view db) →
  ScanExpiredEntries now db = (db', Ok l) →
  StronglySorted (fun a b => ee_Hour a <= ee_Hour b) l ∧
  ∀ id h, mkExpired id h ∈ l ↔ is_u64 h ∧ h <= now ∧ expires h id (view db).
Proof.
  intros Hn Hlt Hdb E. assert (is_u64 (now + 1)) by (unfold is_u64 in *; lia).
  apply ScanExpiredEntries_spec in E as [_ ->]; try done.
  split; [by apply expired_scan_sorted|]. intros id h. by rewrite elem_of_expired_scan.
Qed.

(** The seal batch is atomic: whatever it returns, either nothing changed
    or the shard's log is empty, the metadata reads back, and the block is
    registered to expire, with every other log and every other block's
    metadata untouched. *)
Theorem SealBatch_atomic shard id bm h db db' r :
  is_u16 shard → is_u64 h → meta_ok bm → wal_ok (view db) →
  SealBatch shard id bm h db = (db', r) →
  (view db' = view db ∧ r ≠ Ok tt) ∨
  (wal_ok (view db') ∧
   (∀ s, is_u16 s →
      wal_log s (view db') = if decide (s = shard) then [] else wal_log s (view db)) ∧
   view db' !! BlockKey id = Some (encodeBlockMeta bm) ∧
   decodeBlockMeta (encodeBlockMeta bm) = Ok bm ∧
   expires h id (view db') ∧
   (∀ id', id' ≠ id → view db' !! BlockKey id' = view db !! BlockKey id')).
Proof.
  intros Hs Hh Hbm Hok E. pose proof Hok as [Hdb _].
  assert (view db' = sealed_view shard id bm h (view db) ∨ view db' = view db ∧ r ≠ Ok tt) as Hv.
  { destruct r as [[]|e]; [left; by eapply SealBatch_ok|].
    apply SealBatch_any in E as [-> | ->]; [right; done|by left]. }
  destruct Hv as [Hv|Hv]; [|by left]. right. rewrite Hv.
  split; [by apply sealed_view_wal_ok|]. split; [intros s Hs'; by apply sealed_view_log|].
  split; [apply sealed_view_block|]. split; [by apply decode_encodeBlockMeta|].
  split; [apply sealed_view_expires|]. intros id' Hne. apply sealed_view_other.
  - destruct (in_range _ _ _) eqn:Er; [|done]. exfalso. other_family Er.
  - by intros ?%BlockKey_inj.
  - auto with bbdb.
Qed.
End props.

Definition expiring_db : @pdb RefOps :=
  mkRef (sealed_view 263 [65] sample_meta 100 (sealed_view 263 [66] sample_meta 200 ∅)) [].

Lemma ScanExpiredEntries_exact_witness :
  (ScanExpiredEntries 150 expiring_db).2 = Ok [mkExpired [65] 100] ∧
  ¬ (mkExpired [66] 200 ∈ [mkExpired [65] 100]).
Proof.
  split; [vm_compute; reflexivity|].
  destruct (ScanExpiredEntries_exact 150 expiring_db expiring_db [mkExpired [65] 100]) as [_ Hl].
  - unfold is_u64; lia.
  - lia.
  - unfold expiring_db; cbn [view RefPebble ref_map].
    do 2 (apply sealed_view_db_ok; [unfold is_u64; lia|]). apply db_ok_empty.
  - vm_compute; reflexivity.
  - intros Hin. apply Hl in Hin as (_ & Hle & _). lia.
Defined.

Lemma SealBatch_atomic_witness :
  wal_log 263 (view (SealBatch 263 [65] sample_meta 100
                       (WALAppend 263 [1] empty_db).1).1) = [].
Proof.
  destruct (SealBatch_atomic 263 [65] sample_meta 100 (WALAppend 263 [1] empty_db).1
              (SealBatch 263 [65] sample_meta 100 (WALAppend 263 [1] empty_db).1).1 (Ok tt))
    as [[_ Hne]|(_ & Hlog & _)].
  - unfold is_u16; lia.
  - unfold is_u64; lia.
  - unfold meta_ok, sample_meta, is_u16, is_i64, is_u8, is_u64, is_u32; simpl; lia.
  - apply (wal_append_ok 263 0 [1] ∅); [unfold is_u16; lia|unfold is_u64; lia|apply wal_ok_empty|].
    intros k Hk Hl. by rewrite lookup_empty in Hl.
  - reflexivity.
  - by destruct Hne.
  - rewrite (Hlog 263) by (unfold is_u16; lia). reflexivity.
Defined.
