(* ===== verification/Event.v ===== *)
(** * Events, shards and block identifiers: [internal/block/event.go]

    xxHash64 is third-party code: [Sum64] is a parameter, of which the model
    only uses that it returns a [uint64]. *)
From S2P Require Import Prelude GoTime GoFmt Keys.

Class XXHash := {
  Sum64 : bytes → Z;
  Sum64_range b : is_u64 (Sum64 b);
}.

(** A nil and an empty payload are the same value of the model. *)
Record Event := mkEvent { KeyHash : Z; Timestamp : Z; Payload : bytes }.

#[export] Instance Event_eq_dec : EqDecision Event.
Proof. solve_decision. Defined.

Definition event_ok (e : Event) : Prop :=
  is_u64 (KeyHash e) ∧ is_i64 (Timestamp e) ∧ are_bytes (Payload e) ∧ zlen (Payload e) < 2 ^ 32.

Section hashing.
Context `{XXHash}.

(** [uint16(eventType)<<8 | uint16(h%256)] *)
Definition ShardFor (partitionKey : bytes) (eventType : Z) : ShardID :=
  let h := Sum64 partitionKey in
  Z.lor (u16 (Z.shiftl (u16 eventType) 8)) (u16 (h mod 256)).

Definition KeyHashFor (partitionKey : bytes) : Z := Sum64 partitionKey.
End hashing.

(** [fmt.Sprintf("%04d-%02d-%02dT%02d", ...)] of a UTC time. *)
Definition hour_string (t : time) : bytes :=
  sprintf_0d 4 (Year t) ++ [45] ++ sprintf_0d 2 (Month t) ++ [45] ++
  sprintf_0d 2 (Day t) ++ [84] ++ sprintf_0d 2 (HourOf t).

Definition BlockIDForShard (shard : ShardID) (unixNano : Z) : BlockID :=
  BlockIDFromShardAndHour shard (hour_string unixNano).

Definition HourBoundaryNano (unixNano : Z) : Z :=
  let t := unixNano in
  UnixNano (Date (Year t) (Month t) (Day t) (HourOf t)).

(** The upper byte of a shard identifier, as [sealCurrent] extracts it. *)
Definition shard_event_type (s : ShardID) : Z := u8 (Z.shiftr s 8).

(** ** The order of events in a block: by key hash, then timestamp

    The comparison the memtable sorts with and the merge heap uses. *)
Definition ev_less (a b : Event) : bool :=
  if negb (KeyHash a =? KeyHash b) then KeyHash a <? KeyHash b
  else Timestamp a <? Timestamp b.

Definition ev_le (a b : Event) : Prop := ev_less b a = false.

#[export] Instance ev_le_dec : RelDecision ev_le.
Proof. intros a b. unfold ev_le. apply _. Defined.

Lemma ev_le_iff a b :
  ev_le a b ↔ KeyHash a < KeyHash b ∨ (KeyHash a = KeyHash b ∧ Timestamp a <= Timestamp b).
Proof. unfold ev_le, ev_less. zcases; simpl; zcases; simpl; split; try done; lia. Qed.

#[export] Instance ev_le_trans : Transitive ev_le.
Proof. intros a b c. rewrite !ev_le_iff. lia. Qed.
#[export] Instance ev_le_total : Total ev_le.
Proof. intros a b. rewrite !ev_le_iff. lia. Qed.
#[export] Instance ev_le_refl : Reflexive ev_le.
Proof. intros a. rewrite !ev_le_iff. lia. Qed.

Lemma ev_less_le a b : ev_less a b = true → ev_le a b.
Proof. unfold ev_le, ev_less. zcases; simpl; zcases; simpl; try done; lia. Qed.

(** ** Shards *)

Lemma lor_disjoint_add a b : 0 <= b < 256 → Z.lor (a * 256) b = a * 256 + b.
Proof. intros Hb. change 256 with (2 ^ 8). rewrite <- (Z.shiftl_mul_pow2 a 8) by lia. by rewrite lor_shift, Z.shiftl_mul_pow2. Qed.

Lemma ShardFor_arith `{XXHash} k et :
  is_u8 et → ShardFor k et = et * 256 + Sum64 k mod 256.
Proof.
  intros He. unfold ShardFor. unfold is_u8 in He.
  pose proof (Z.mod_pos_bound (Sum64 k) 256 ltac:(lia)) as Hm.
  rewrite (u16_id et), Z.shiftl_mul_pow2 by (unfold is_u16; lia). change (2 ^ 8) with 256.
  rewrite !u16_id by (unfold is_u16; lia). by apply lor_disjoint_add.
Qed.

Lemma ShardFor_range `{XXHash} k et : is_u8 et → is_u16 (ShardFor k et).
Proof.
  intros He. rewrite ShardFor_arith by done. unfold is_u8, is_u16 in *.
  pose proof (Z.mod_pos_bound (Sum64 k) 256 ltac:(lia)). lia.
Qed.

Lemma shard_event_type_ShardFor `{XXHash} k et :
  is_u8 et → shard_event_type (ShardFor k et) = et.
Proof.
  intros He. rewrite ShardFor_arith by done. unfold shard_event_type.
  rewrite Z.shiftr_div_pow2 by lia. change (2 ^ 8) with 256.
  pose proof (Z.mod_pos_bound (Sum64 k) 256 ltac:(lia)).
  rewrite Z.div_add_l, Z.div_small, Z.add_0_r by lia. by apply u8_id.
Qed.

(** ** Hexadecimal shard numbers read back *)

Definition unhex_char (c : Z) : Z := if c <? 58 then c - 48 else c - 87.

Lemma unhex_digits l :
  Forall (fun d => 0 <= d < 16) l → map unhex_char (map digit_char l) = l.
Proof.
  induction 1 as [|d l Hd Hl IH]; [done|]. simpl. rewrite IH. f_equal.
  unfold unhex_char, digit_char. simpl in Hd. zcases; lia.
Qed.

Lemma sprintf_0x_val n z :
  0 <= z → digits_val 16 (map unhex_char (sprintf_0x n z)) = z.
Proof.
  intros Hz. unfold sprintf_0x, sprintf_0. destruct (Z.ltb_spec z 0); [lia|].
  rewrite pad_zero_map, unhex_digits.
  - rewrite digits_val_zeros. apply digits_val_digits; lia.
  - apply Forall_app. split; [apply Forall_replicate; lia|apply digits_range; lia].
Qed.

Lemma sprintf_0x_inj n a b : 0 <= a → 0 <= b → sprintf_0x n a = sprintf_0x n b → a = b.
Proof. intros Ha Hb E. rewrite <- (sprintf_0x_val n a), <- (sprintf_0x_val n b), E; done. Qed.

(** ** Characters of identifiers *)

Lemma hex_no_colon n z : 0 <= z → colon ∉ sprintf_0x n z.
Proof.
  intros Hz. apply hexchars_notin; [apply sprintf_0_hexchars; lia|].
  unfold hexchar, colon. lia.
Qed.

Lemma dec_notin c n z : 0 <= z → c = 45 ∨ c = 84 ∨ c = 58 → c ∉ sprintf_0d n z.
Proof.
  intros Hz Hc. apply hexchars_notin; [apply decchars_hexchars, sprintf_0d_decchars, Hz|].
  unfold hexchar. lia.
Qed.

Lemma BlockID_split shard hour :
  is_u16 shard →
  SplitN2 colon (BlockIDFromShardAndHour shard hour) = [sprintf_0x 4 (u16 shard); hour].
Proof.
  intros Hs. unfold BlockIDFromShardAndHour. simpl. apply SplitN2_app, hex_no_colon.
  apply u16_range.
Qed.

Lemma HourBoundaryNano_floor t :
  is_i64 t → is_i64 (t - t mod Hour) → HourBoundaryNano t = t - t mod Hour.
Proof. intros Ht Hb. unfold HourBoundaryNano, UnixNano. by rewrite Date_fields, i64_id. Qed.

Section claims.
Context `{XXHash}.

(** An event's shard determines its event type and the low byte of its
    key hash: two (key, type) pairs share a shard exactly when the types
    agree and the hashes agree modulo 256. *)
Theorem ShardFor_routes k et k' et' :
  is_u8 et → is_u8 et' →
  is_u16 (ShardFor k et) ∧ shard_event_type (ShardFor k et) = et ∧
  (ShardFor k et = ShardFor k' et' ↔
   et = et' ∧ KeyHashFor k mod 256 = KeyHashFor k' mod 256).
Proof.
  intros He He'. split; [by apply ShardFor_range|].
  split; [by apply shard_event_type_ShardFor|].
  rewrite !ShardFor_arith by done. unfold KeyHashFor.
  generalize (Z.mod_pos_bound (Sum64 k) 256 ltac:(lia)).
  generalize (Z.mod_pos_bound (Sum64 k') 256 ltac:(lia)).
  generalize (Sum64 k mod 256), (Sum64 k' mod 256). lia.
Qed.
End claims.

(** A stand-in hash for witnesses: the bytes read as one big-endian number. *)
#[export] Instance ToyHash : XXHash := {
  Sum64 b := u64 (unbe b);
  Sum64_range b := u64_range (unbe b);
}.

Lemma ShardFor_routes_witness :
  ShardFor [1; 7] 10 = 2567 ∧ shard_event_type (ShardFor [1; 7] 10) = 10.
Proof.
  split; [reflexivity|].
  destruct (ShardFor_routes [1; 7] 10 [2; 7] 10) as (_ & E & _);
    [unfold is_u8; lia|unfold is_u8; lia|exact E].
Defined.
