(* ===== verification/Memtable.v ===== *)
(** * The memtable: [internal/block/memtable.go]

    An in-memory columnar buffer.  Its abstract content is the list of its
    rows; appending extends the list, sorting permutes it into block order. *)
From S2P Require Import Prelude PebbleRef Event.

(** ** [sort.Slice]

    [sort.Slice] does not fix the order of equal elements: the memtable is
    parametric in a sorting function with its documented contract.  [less]
    must be a strict weak order. *)
Record strict_weak {A} (less : A → A → bool) : Prop := {
  sw_asym x y : less x y = true → less y x = false;
  sw_negtrans x y z : less y x = false → less z y = false → less z x = false;
}.

Class SliceSort := {
  sort_slice {A : Type} : (A → A → bool) → list A → list A;
  sort_slice_perm {A : Type} (less : A → A → bool) l : sort_slice less l ≡ₚ l;
  sort_slice_sorted {A : Type} (less : A → A → bool) l :
    strict_weak less → StronglySorted (fun x y => less y x = false) (sort_slice less l);
}.

(** ** The table *)
Record Memtable := mkMemtable {
  keyHashes : list Z;
  timestamps : list Z;
  payloads : list bytes;
  approxBytes : Z;
}.

Definition NewMemtable : Memtable := mkMemtable [] [] [] 0.

Definition Append (m : Memtable) (e : Event) : Memtable := {|
  keyHashes := keyHashes m ++ [KeyHash e];
  timestamps := timestamps m ++ [Timestamp e];
  payloads := payloads m ++ [Payload e];
  approxBytes := i64 (approxBytes m + (8 + 8 + zlen (Payload e)));
|}.

Definition Len (m : Memtable) : Z := zlen (keyHashes m).

Definition ApproxBytes (m : Memtable) : Z := approxBytes m.

(** The comparison [Sort] passes to [sort.Slice], on row numbers. *)
Definition row_less (m : Memtable) (ia ib : nat) : bool :=
  if negb (nth ia (keyHashes m) 0 =? nth ib (keyHashes m) 0)
  then nth ia (keyHashes m) 0 <? nth ib (keyHashes m) 0
  else nth ia (timestamps m) 0 <? nth ib (timestamps m) 0.

Definition Sort `{SliceSort} (m : Memtable) : Memtable :=
  let n := length (keyHashes m) in
  let idx := sort_slice (row_less m) (seq 0 n) in
  {| keyHashes := map (fun orig => nth orig (keyHashes m) 0) idx;
     timestamps := map (fun orig => nth orig (timestamps m) 0) idx;
     payloads := map (fun orig => nth orig (payloads m) []) idx;
     approxBytes := approxBytes m |}.

Definition row (m : Memtable) (i : nat) : Event :=
  mkEvent (nth i (keyHashes m) 0) (nth i (timestamps m) 0) (nth i (payloads m) []).

Definition Rows (m : Memtable) : list Event :=
  map (row m) (seq 0 (length (keyHashes m))).

(** The keys of a Go map, in its iteration order. *)
Definition UniqueKeyHashes `{MapOrder} (m : Memtable) : list Z :=
  map_order (remove_dups (keyHashes m)).

Definition KeyHashes (m : Memtable) : list Z := keyHashes m.
Definition Timestamps (m : Memtable) : list Z := timestamps m.
Definition Payloads (m : Memtable) : list bytes := payloads m.

Definition Reset (m : Memtable) : Memtable := mkMemtable [] [] [] 0.

(** ** Well-formed tables: three columns of equal length *)
Definition mt_ok (m : Memtable) : Prop :=
  length (timestamps m) = length (keyHashes m) ∧ length (payloads m) = length (keyHashes m).

(** A table holding a list of events. *)
Definition mt_of (es : list Event) (ab : Z) : Memtable :=
  mkMemtable (map KeyHash es) (map Timestamp es) (map Payload es) ab.

Lemma mt_ok_new : mt_ok NewMemtable.
Proof. done. Qed.

Lemma map_nth_seq {A B} (g : A → B) (l : list A) d :
  map (fun i => g (nth i l d)) (seq 0 (length l)) = map g l.
Proof.
  apply nth_ext with (d := g d) (d' := g d); [by rewrite !length_map, length_seq|].
  intros n Hn. rewrite length_map, length_seq in Hn.
  rewrite (nth_indep _ (g d) (g (nth 0 l d))) by (by rewrite length_map, length_seq).
  rewrite (map_nth (fun i => g (nth i l d))), seq_nth by done. simpl.
  by rewrite (map_nth g).
Qed.

Lemma mt_of_Rows m : mt_ok m → m = mt_of (Rows m) (approxBytes m).
Proof.
  destruct m as [kh ts pl ab]. intros [Ht Hp]. unfold mt_of, Rows, row. simpl in *.
  rewrite !map_map. simpl. f_equal.
  - by rewrite (map_nth_seq (fun x => x)), map_id.
  - by rewrite <- Ht, (map_nth_seq (fun x => x)), map_id.
  - by rewrite <- Hp, (map_nth_seq (fun x => x)), map_id.
Qed.

Lemma Rows_mt_of es ab : Rows (mt_of es ab) = es.
Proof.
  unfold Rows, row, mt_of. simpl. rewrite length_map.
  set (d := mkEvent 0 0 []).
  transitivity (map (fun i => nth i es d) (seq 0 (length es))).
  - apply map_ext_in. intros i Hi%in_seq.
    rewrite (nth_indep _ 0 (KeyHash d)), (nth_indep (map Timestamp es) 0 (Timestamp d)),
      (nth_indep _ [] (Payload d)), !map_nth by (rewrite length_map; lia).
    by destruct (nth i es d).
  - by rewrite (map_nth_seq (fun x => x)), map_id.
Qed.

Lemma mt_of_ok es ab : mt_ok (mt_of es ab).
Proof. unfold mt_ok, mt_of. simpl. by rewrite !length_map. Qed.

Lemma Append_ok m e : mt_ok m → mt_ok (Append m e).
Proof. intros [H1 H2]. unfold mt_ok, Append. simpl. rewrite !length_app. simpl. lia. Qed.

Lemma Rows_Append m e : mt_ok m → Rows (Append m e) = Rows m ++ [e].
Proof.
  intros Hm. rewrite (mt_of_Rows m Hm) at 1.
  replace (Append (mt_of (Rows m) (approxBytes m)) e)
    with (mt_of (Rows m ++ [e]) (i64 (approxBytes m + (8 + 8 + zlen (Payload e))))).
  - apply Rows_mt_of.
  - unfold mt_of, Append. simpl. by rewrite !map_app.
Qed.

Lemma Len_Rows m : Len m = zlen (Rows m).
Proof. unfold Len, Rows, zlen. by rewrite length_map, length_seq. Qed.

Lemma fold_Append_ok es m :
  mt_ok m → mt_ok (fold_left Append es m) ∧ Rows (fold_left Append es m) = Rows m ++ es.
Proof.
  revert m. induction es as [|e es IH]; intros m Hm; cbn [fold_left]; [by rewrite app_nil_r|].
  destruct (IH (Append m e) (Append_ok m e Hm)) as [Hok Hr]. split; [done|].
  by rewrite Hr, Rows_Append, <- app_assoc.
Qed.

(** ** Sorting *)

Lemma row_less_ev m i j : row_less m i j = ev_less (row m i) (row m j).
Proof. done. Qed.

Lemma row_less_strict_weak m : strict_weak (row_less m).
Proof.
  split; intros; rewrite !row_less_ev in *.
  - by apply ev_less_le.
  - by eapply (ev_le_trans (row m x) (row m y) (row m z)).
Qed.

Section sorting.
Context `{SliceSort}.

Lemma Sort_mt_of m :
  Sort m = mt_of (map (row m) (sort_slice (row_less m) (seq 0 (length (keyHashes m)))))
             (approxBytes m).
Proof. unfold Sort, mt_of. by rewrite !map_map. Qed.

Lemma Rows_Sort m :
  Rows (Sort m) = map (row m) (sort_slice (row_less m) (seq 0 (length (keyHashes m)))).
Proof. by rewrite Sort_mt_of, Rows_mt_of. Qed.

Lemma Sort_ok m : mt_ok (Sort m).
Proof. rewrite Sort_mt_of. apply mt_of_ok. Qed.

Lemma Sort_perm m : Rows (Sort m) ≡ₚ Rows m.
Proof. rewrite Rows_Sort. unfold Rows. apply Permutation_map, sort_slice_perm. Qed.

Lemma Sort_sorted m : StronglySorted ev_le (Rows (Sort m)).
Proof.
  rewrite Rows_Sort.
  pose proof (sort_slice_sorted _ (seq 0 (length (keyHashes m))) (row_less_strict_weak m)) as Hs.
  induction Hs as [|i l Hs IH Hi]; simpl; constructor; [done|].
  apply Forall_map. eapply Forall_impl; [exact Hi|]. intros j Hj. exact Hj.
Qed.

(** Sorting a memtable permutes its rows into (key hash, timestamp)
    order: no row is lost, invented or torn apart across the columns. *)
Theorem Sort_correct m :
  mt_ok (Sort m) ∧ Rows (Sort m) ≡ₚ Rows m ∧ StronglySorted ev_le (Rows (Sort m)) ∧
  Len (Sort m) = Len m ∧ ApproxBytes (Sort m) = ApproxBytes m.
Proof.
  repeat split; try apply Sort_ok.
  - apply Sort_perm.
  - apply Sort_sorted.
  - rewrite !Len_Rows. unfold zlen. by rewrite Sort_perm.
Qed.
End sorting.

Lemma elem_of_UniqueKeyHashes `{MapOrder} m h :
  h ∈ UniqueKeyHashes m ↔ h ∈ keyHashes m.
Proof. unfold UniqueKeyHashes. by rewrite elem_of_map_order, elem_of_remove_dups. Qed.

Lemma NoDup_UniqueKeyHashes `{MapOrder} m : NoDup (UniqueKeyHashes m).
Proof. unfold UniqueKeyHashes. rewrite map_order_perm. apply NoDup_remove_dups. Qed.

(** ** A sorting function with the contract of [sort.Slice] *)
Definition neg_less {A} (less : A → A → bool) (x y : A) : Prop := less y x = false.

#[export] Instance neg_less_dec {A} (less : A → A → bool) : RelDecision (neg_less less).
Proof. intros x y. unfold neg_less. apply _. Defined.

#[export] Instance MergeSlice : SliceSort.
Proof.
  refine {| sort_slice A less l := merge_sort (neg_less less) l |}.
  - intros. apply merge_sort_Permutation.
  - intros A less l [Ha Hn]. apply Sorted_StronglySorted.
    + intros x y z Hxy Hyz. exact (Hn x y z Hxy Hyz).
    + assert (Total (neg_less less)).
      { intros x y. unfold neg_less. destruct (less y x) eqn:E; [right; by apply Ha|by left]. }
      apply (Sorted_merge_sort (neg_less less)).
Defined.

(** ** The size estimate *)
Definition rows_bytes (es : list Event) : Z :=
  foldr (fun e acc => 16 + zlen (Payload e) + acc) 0 es.

Lemma rows_bytes_app es es' : rows_bytes (es ++ es') = rows_bytes es + rows_bytes es'.
Proof. induction es as [|e es IH]; simpl; [done|]. rewrite IH. lia. Qed.

Lemma rows_bytes_nonneg es : 0 <= rows_bytes es.
Proof. induction es as [|e es IH]; simpl; unfold zlen in *; lia. Qed.

Lemma rows_bytes_perm es es' : es ≡ₚ es' → rows_bytes es = rows_bytes es'.
Proof. induction 1; simpl; lia. Qed.

(** The estimate stays exact while it fits an [int64]. *)
Lemma fold_Append_bytes es m :
  0 <= approxBytes m → approxBytes m + rows_bytes es < 2 ^ 63 →
  approxBytes (fold_left Append es m) = approxBytes m + rows_bytes es.
Proof.
  revert m. induction es as [|e es IH]; intros m Hm Hb; cbn [fold_left rows_bytes foldr] in *; [lia|].
  fold (rows_bytes es) in *. pose proof (rows_bytes_nonneg es).
  assert (0 <= zlen (Payload e)) by (unfold zlen; lia).
  assert (approxBytes (Append m e) = approxBytes m + (8 + 8 + zlen (Payload e))) as Ha
    by (cbn; apply i64_id; unfold is_i64; lia).
  rewrite IH; rewrite Ha; lia.
Qed.

(** Filling a fresh table event by event gives exactly those rows in
    order, and [ApproxBytes] is 16 bytes per row plus the payload bytes as
    long as that fits an [int64]. *)
Theorem Append_all_rows es :
  rows_bytes es < 2 ^ 63 →
  let m := fold_left Append es NewMemtable in
  mt_ok m ∧ Rows m = es ∧ Len m = zlen es ∧ ApproxBytes m = rows_bytes es.
Proof.
  intros Hb m. destruct (fold_Append_ok es NewMemtable mt_ok_new) as [Hok Hr]. fold m in Hok, Hr.
  split; [done|]. split; [done|]. split; [by rewrite Len_Rows, Hr|]. by apply fold_Append_bytes.
Qed.

Lemma Append_all_rows_witness :
  ApproxBytes (fold_left Append [mkEvent 5 9 [1; 2]; mkEvent 3 8 []] NewMemtable) = 34.
Proof.
  destruct (Append_all_rows [mkEvent 5 9 [1; 2]; mkEvent 3 8 []]) as (_ & _ & _ & E).
  - vm_compute. reflexivity.
  - rewrite E. reflexivity.
Defined.
