(* ===== verification/Bloom.v ===== *)
(** * Bloom filters: [internal/block/bloom.go]

    The filter itself is github.com/bits-and-blooms/bloom.  The class lists
    the operations the wrapper calls and what the read path relies on: an
    added key tests positive, adding keeps earlier positives, and a filter
    read back from its serialization answers as the original. *)
From Stdlib Require Import QArith.
From S2P Require Import Prelude PebbleRef Event Memtable.
#[local] Open Scope Z_scope.

Class BloomLib := {
  bloomT : Type;
  NewWithEstimates : Z → Q → bloomT;
  bf_Add : bloomT → bytes → bloomT;
  bf_Test : bloomT → bytes → bool;
  bf_WriteTo : bloomT → result bytes;
  bf_ReadFrom : bytes → result bloomT;
  bf_add_same f k : bf_Test (bf_Add f k) k = true;
  bf_add_mono f k k' : bf_Test f k = true → bf_Test (bf_Add f k') k = true;
  bf_roundtrip f data : bf_WriteTo f = Ok data →
    ∃ f', bf_ReadFrom data = Ok f' ∧ ∀ k, bf_Test f' k = bf_Test f k;
}.

Definition DefaultBloomFPR : Q := 1 # 100.

Definition uint64ToBytes (v : Z) : bytes :=
  [ u8 (Z.shiftr v 56); u8 (Z.shiftr v 48); u8 (Z.shiftr v 40); u8 (Z.shiftr v 32);
    u8 (Z.shiftr v 24); u8 (Z.shiftr v 16); u8 (Z.shiftr v 8); u8 v ].

Section bloom.
Context `{BloomLib}.

Definition BuildBloom (keyHashes : list Z) (fpr : Q) : bloomT :=
  let fpr := if Qle_bool fpr 0 then DefaultBloomFPR else fpr in
  let n := zlen keyHashes in
  let n := if n =? 0 then 1 else n in
  fold_left (fun bf h => bf_Add bf (uint64ToBytes h)) keyHashes (NewWithEstimates n fpr).

Definition BuildBloomFromMemtable `{MapOrder} (mt : Memtable) (fpr : Q) : bloomT :=
  BuildBloom (UniqueKeyHashes mt) fpr.

Definition TestHash (f : bloomT) (keyHash : Z) : bool := bf_Test f (uint64ToBytes keyHash).

Definition Serialize (f : bloomT) : result bytes := bf_WriteTo f.

Definition DeserializeBloom (data : bytes) : result bloomT := bf_ReadFrom data.

Lemma fold_add_mono hs f k :
  bf_Test f k = true →
  bf_Test (fold_left (fun bf h => bf_Add bf (uint64ToBytes h)) hs f) k = true.
Proof.
  revert f. induction hs as [|h hs IH]; intros f Hf; simpl; [done|].
  by apply IH, bf_add_mono.
Qed.

Lemma BuildBloom_positive hs fpr h : h ∈ hs → TestHash (BuildBloom hs fpr) h = true.
Proof.
  intros Hin. unfold BuildBloom, TestHash. generalize (NewWithEstimates (if zlen hs =? 0 then 1 else zlen hs)
    (if Qle_bool fpr 0 then DefaultBloomFPR else fpr)).
  induction hs as [|x hs IH]; intros f; [by apply not_elem_of_nil in Hin|]. simpl.
  apply elem_of_cons in Hin as [->|Hin]; [apply fold_add_mono, bf_add_same|by apply IH].
Qed.

(** No false negatives survive sealing: the filter built from a memtable,
    written out and read back, is positive for the key hash of every row,
    whatever the false-positive rate. *)
Theorem bloom_no_false_negatives `{MapOrder} mt fpr data e :
  mt_ok mt → e ∈ Rows mt → Serialize (BuildBloomFromMemtable mt fpr) = Ok data →
  ∃ f, DeserializeBloom data = Ok f ∧ TestHash f (KeyHash e) = true.
Proof.
  intros Hmt He Hs. unfold Serialize in Hs. apply bf_roundtrip in Hs as (f & Hf & Heq).
  exists f. split; [done|]. unfold TestHash. rewrite Heq. apply BuildBloom_positive.
  apply elem_of_UniqueKeyHashes. rewrite (mt_of_Rows mt Hmt). simpl.
  by apply list_elem_of_In, in_map, list_elem_of_In.
Qed.
End bloom.

(** ** An exact filter that satisfies the interface: the list of added keys,
    serialized with a length before each *)
Definition keys_enc (f : list bytes) : bytes := concat (map (fun k => zlen k :: k) f).

Fixpoint keys_dec (fuel : nat) (l : bytes) : list bytes :=
  match fuel, l with
  | S fu, n :: r => take (Z.to_nat n) r :: keys_dec fu (drop (Z.to_nat n) r)
  | _, _ => []
  end.

Lemma keys_dec_enc f fuel : (length (keys_enc f) <= fuel)%nat → keys_dec fuel (keys_enc f) = f.
Proof.
  revert fuel. unfold keys_enc. induction f as [|k f IH]; intros fuel Hf; [by destruct fuel|].
  simpl in *. destruct fuel as [|fuel]; [lia|]. cbn [keys_dec].
  unfold zlen. rewrite Nat2Z.id, take_app_length, drop_app_length. f_equal. apply IH.
  rewrite length_app in Hf. lia.
Qed.

#[export] Instance SetBloom : BloomLib.
Proof.
  refine {| bloomT := list bytes;
            NewWithEstimates n fpr := [];
            bf_Add f k := f ++ [k];
            bf_Test f k := bool_decide (k ∈ f);
            bf_WriteTo f := Ok (keys_enc f);
            bf_ReadFrom data := Ok (keys_dec (length data) data) |}.
  - intros f k. apply bool_decide_eq_true, elem_of_app. right. by apply list_elem_of_singleton.
  - intros f k k' Hf%bool_decide_eq_true. apply bool_decide_eq_true, elem_of_app. by left.
  - intros f data [= <-]. eexists. split; [done|]. intros k. by rewrite keys_dec_enc.
Defined.

Definition two_rows : Memtable := mt_of [mkEvent 5 9 [1]; mkEvent 77 3 [2]] 34.

Lemma bloom_no_false_negatives_witness :
  ∃ f, DeserializeBloom (keys_enc [uint64ToBytes 5; uint64ToBytes 77]) = Ok f ∧
       TestHash f 77 = true.
Proof.
  apply (bloom_no_false_negatives two_rows 0 (keys_enc [uint64ToBytes 5; uint64ToBytes 77])
           (mkEvent 77 3 [2])).
  - apply mt_of_ok.
  - unfold two_rows. rewrite Rows_mt_of. apply elem_of_cons. right. apply elem_of_cons. by left.
  - vm_compute. reflexivity.
Defined.
