(* ===== verification/Format.v ===== *)
(** * The block file format: [internal/block/format.go]

    A file is a 64-byte header, three compressed columns and a 56-byte
    footer.  zstd is third-party code: the encoder and decoder are parameters
    related by the round trip that the format relies on. *)
From S2P Require Import Prelude Crc32 GoOs PebbleRef Event Memtable.

Class Zstd := {
  EncodeAll : bytes → bytes;
  DecodeAll : bytes → result bytes;
  zstd_roundtrip b : are_bytes b → DecodeAll (EncodeAll b) = Ok b;
  EncodeAll_bytes b : are_bytes b → are_bytes (EncodeAll b);
}.

Definition HeaderSize : Z := 64.
Definition FooterSize : Z := 56.
Definition MagicBBDB : bytes := b!"BBDB".
Definition MagicTBBD : bytes := b!"TBBD".
Definition Version : Z := 1.

Record BlockHeader := mkHeader {
  bh_ShardID : Z;
  bh_EventType : Z;
  bh_OpenedAt : Z;
  bh_SealedAt : Z;
  bh_RowCount : Z;
}.

(** The two arrays are [[3]uint64]. *)
Record BlockFooter := mkFooter {
  ColOffsets : list Z;
  ColSizes : list Z;
  BodyChecksum : Z;
}.

(** ** Header *)

(** [buf[:60]]: magic, version, shard, event type, times, row count, 28 reserved zero bytes. *)
Definition header_body (h : BlockHeader) : bytes :=
  MagicBBDB ++ [Version] ++ be 2 (bh_ShardID h) ++ [bh_EventType h] ++
  be 8 (u64 (bh_OpenedAt h)) ++ be 8 (u64 (bh_SealedAt h)) ++ be 8 (bh_RowCount h) ++
  replicate 28 0.

Definition EncodeHeader (h : BlockHeader) : bytes :=
  let buf := header_body h in
  buf ++ be 4 (ChecksumIEEE buf).

Definition DecodeHeader (buf : bytes) : result BlockHeader :=
  if zlen buf <? HeaderSize then Err (EMsg "header too short")
  else if negb (beqb (take 4 buf) MagicBBDB) then Err (EMsg "invalid magic: expected BBDB")
  else
    let wantCS := ChecksumIEEE (take 60 buf) in
    let gotCS := unbe (slice 60 4 buf) in
    if negb (wantCS =? gotCS) then Err (EMsg "header checksum mismatch")
    else Ok {| bh_ShardID := unbe (slice 5 2 buf);
               bh_EventType := nth 7 buf 0;
               bh_OpenedAt := i64 (unbe (slice 8 8 buf));
               bh_SealedAt := i64 (unbe (slice 16 8 buf));
               bh_RowCount := unbe (slice 24 8 buf) |}.

(** ** Footer *)
Definition EncodeFooter (f : BlockFooter) : bytes :=
  concat (map (be 8) (ColOffsets f)) ++ concat (map (be 8) (ColSizes f)) ++
  be 4 (BodyChecksum f) ++ MagicTBBD.

Definition DecodeFooter (buf : bytes) : result BlockFooter :=
  if zlen buf <? FooterSize then Err (EMsg "footer too short")
  else if negb (beqb (drop 52 buf) MagicTBBD) then Err (EMsg "invalid footer magic: expected TBBD")
  else Ok {| ColOffsets := map (fun i => unbe (slice (8 * i) 8 buf)) [0; 1; 2]%nat;
             ColSizes := map (fun i => unbe (slice (24 + 8 * i) 8 buf)) [0; 1; 2]%nat;
             BodyChecksum := unbe (slice 48 4 buf) |}.

(** ** Columns *)
Section columns.
Context `{Zstd}.

Definition CompressUint64Column (vals : list Z) : bytes :=
  EncodeAll (concat (map (be 8) vals)).

Definition words (raw : bytes) : list Z :=
  map (fun i => unbe (slice (i * 8) 8 raw)) (seq 0 (length raw / 8)).

Definition DecompressUint64Column (data : bytes) : result (list Z) :=
  match DecodeAll data with
  | Err e => Err e
  | Ok raw => if negb (zlen raw mod 8 =? 0)
              then Err (EMsg "uint64 column: raw length not multiple of 8")
              else Ok (words raw)
  end.

Definition CompressInt64Column (vals : list Z) : bytes :=
  EncodeAll (concat (map (fun v => be 8 (u64 v)) vals)).

Definition DecompressInt64Column (data : bytes) : result (list Z) :=
  match DecodeAll data with
  | Err e => Err e
  | Ok raw => if negb (zlen raw mod 8 =? 0)
              then Err (EMsg "int64 column: raw length not multiple of 8")
              else Ok (map i64 (words raw))
  end.

Definition CompressBytesColumn (pls : list bytes) : bytes :=
  EncodeAll (concat (map (fun p => be 4 (u32 (zlen p)) ++ p) pls)).

(** The loop over the raw column, on what is left of it.  Every round
    consumes at least four bytes; [fuel] bounds the rounds. *)
Fixpoint split_payloads (fuel : nat) (raw : bytes) (out : list bytes) : result (list bytes) :=
  match fuel, raw with
  | _, [] => Ok out
  | O, _ => Err (EMsg "out of fuel")
  | S f, _ =>
      if zlen raw <? 4 then Err (EMsg "bytes column: truncated length prefix")
      else
        let n := unbe (take 4 raw) in
        let rest := drop 4 raw in
        if zlen rest <? n then Err (EMsg "bytes column: truncated payload")
        else split_payloads f (drop (Z.to_nat n) rest) (out ++ [take (Z.to_nat n) rest])
  end.

Definition DecompressBytesColumn (data : bytes) : result (list bytes) :=
  match DecodeAll data with
  | Err e => Err e
  | Ok raw => split_payloads (length raw) raw []
  end.

(** ** The body of a block

    [WriteBlockBody] writes the header and then the three columns in one
    write to the file behind the writer. *)
Definition block_body (mt : Memtable) : bytes :=
  CompressUint64Column (KeyHashes mt) ++ CompressInt64Column (Timestamps mt) ++
  CompressBytesColumn (Payloads mt).

Definition block_footer (mt : Memtable) : BlockFooter :=
  let off0 := u64 HeaderSize in
  let khCol := CompressUint64Column (KeyHashes mt) in
  let off1 := u64 (off0 + u64 (zlen khCol)) in
  let tsCol := CompressInt64Column (Timestamps mt) in
  let off2 := u64 (off1 + u64 (zlen tsCol)) in
  let plCol := CompressBytesColumn (Payloads mt) in
  {| ColOffsets := [off0; off1; off2];
     ColSizes := [u64 (zlen khCol); u64 (zlen tsCol); u64 (zlen plCol)];
     BodyChecksum := ChecksumIEEE (khCol ++ tsCol ++ plCol) |}.

Definition WriteBlockBody (w : bytes) (hdr : BlockHeader) (mt : Memtable) : ST FS BlockFooter :=
  Write w (EncodeHeader hdr) ;;;
  Write w (block_body mt) ;;;
  st_ret (block_footer mt).

(** [make([]byte, n)]: a run-time panic when [n] exceeds the address space
    (2^48 bytes on amd64). *)
Definition max_alloc : Z := 2 ^ 48.
Definition make_bytes (n : Z) : ST FS unit := fun s =>
  if max_alloc <? n then (s, Err (EPanic "makeslice: len out of range")) else (s, Ok tt).

Definition of_result {S A} (r : result A) : ST S A := fun s => (s, r).

Definition ReadFilterColumns (r : bytes) (footer : BlockFooter) : ST FS (list Z * list Z) :=
  let kh_size := nth 0 (ColSizes footer) 0 in
  let ts_size := nth 1 (ColSizes footer) 0 in
  make_bytes kh_size ;;;
  let! khData := st_wrap "read key_hash column"
                   (ReadAt r kh_size (i64 (nth 0 (ColOffsets footer) 0))) in
  let! keyHashes := st_wrap "decompress key_hash" (of_result (DecompressUint64Column khData)) in
  make_bytes ts_size ;;;
  let! tsData := st_wrap "read timestamp column"
                   (ReadAt r ts_size (i64 (nth 1 (ColOffsets footer) 0))) in
  let! timestamps := st_wrap "decompress timestamp" (of_result (DecompressInt64Column tsData)) in
  st_ret (keyHashes, timestamps).
End columns.

(** The whole file of a block. *)
Definition block_file `{Zstd} (hdr : BlockHeader) (mt : Memtable) : bytes :=
  EncodeHeader hdr ++ block_body mt ++ EncodeFooter (block_footer mt).

#[local] Opaque ChecksumIEEE.

(** ** Header round trip *)
Definition header_ok (h : BlockHeader) : Prop :=
  is_u16 (bh_ShardID h) ∧ is_u8 (bh_EventType h) ∧ is_i64 (bh_OpenedAt h) ∧
  is_i64 (bh_SealedAt h) ∧ is_u64 (bh_RowCount h).

Lemma length_header_body h : length (header_body h) = 60%nat.
Proof. reflexivity. Qed.

Lemma length_EncodeHeader h : length (EncodeHeader h) = 64%nat.
Proof. unfold EncodeHeader. by rewrite length_app, length_be, length_header_body. Qed.

Lemma header_body_bytes h : is_u8 (bh_EventType h) → are_bytes (header_body h).
Proof.
  intros He. unfold header_body, are_bytes, MagicBBDB, Version.
  rewrite !Forall_app. repeat split; try apply be_are_bytes.
  - repeat constructor; unfold is_u8; simpl; lia.
  - repeat constructor; unfold is_u8; lia.
  - by apply Forall_cons.
  - apply Forall_replicate. unfold is_u8. lia.
Qed.

Lemma EncodeHeader_bytes h : is_u8 (bh_EventType h) → are_bytes (EncodeHeader h).
Proof. intros. apply Forall_app. split; [by apply header_body_bytes|apply be_are_bytes]. Qed.

Lemma header_checksum_u32 h : is_u8 (bh_EventType h) → is_u32 (ChecksumIEEE (header_body h)).
Proof. intros. by apply ChecksumIEEE_range, header_body_bytes. Qed.

Lemma take_app_at {A} (l k : list A) n : length l = n → take n (l ++ k) = l.
Proof. intros <-. apply take_app_length. Qed.
Lemma drop_app_at {A} (l k : list A) n : length l = n → drop n (l ++ k) = k.
Proof. intros <-. apply drop_app_length. Qed.

Lemma slice_app_at {A} (l k : list A) i n :
  length l = i → length k = n → slice i n (l ++ k) = k.
Proof.
  intros Hl Hk. unfold slice. rewrite drop_app_at by done. rewrite <- Hk. apply firstn_all.
Qed.

(** The stored checksum of an encoded header, and what it covers. *)
Lemma header_parts h :
  take 60 (EncodeHeader h) = header_body h ∧
  slice 60 4 (EncodeHeader h) = be 4 (ChecksumIEEE (header_body h)).
Proof.
  unfold EncodeHeader. split.
  - by apply take_app_at.
  - by apply slice_app_at; [|apply length_be].
Qed.

Lemma DecodeHeader_EncodeHeader h rest :
  header_ok h → DecodeHeader (EncodeHeader h ++ rest) = Ok h.
Proof.
  destruct h as [sh et o se rc]. intros (H1 & H2 & H3 & H4 & H5); cbn [bh_ShardID bh_EventType
    bh_OpenedAt bh_SealedAt bh_RowCount] in *.
  set (h := mkHeader sh et o se rc). unfold DecodeHeader, zlen.
  rewrite length_app, length_EncodeHeader.
  destruct (Z.ltb_spec (Z.of_nat (64 + length rest)) HeaderSize); [unfold HeaderSize in *; lia|].
  assert (slice 60 4 (EncodeHeader h ++ rest) = be 4 (ChecksumIEEE (header_body h))) as ->.
  { unfold EncodeHeader. rewrite <- app_assoc. by apply slice_app. }
  assert (take 60 (EncodeHeader h ++ rest) = header_body h) as ->.
  { rewrite take_app_le by (rewrite length_EncodeHeader; lia). exact (proj1 (header_parts h)). }
  rewrite unbe_be4, u32_id by (by apply header_checksum_u32).
  rewrite Z.eqb_refl. unfold EncodeHeader. generalize (ChecksumIEEE (header_body h)) as c. intros c.
  change (take 4 _) with MagicBBDB. rewrite beqb_refl. cbn [negb].
  change (slice 5 2 _) with (be 2 sh). change (nth 7 _ 0) with et.
  change (slice 8 8 _) with (be 8 (u64 o)). change (slice 16 8 _) with (be 8 (u64 se)).
  change (slice 24 8 _) with (be 8 rc).
  rewrite unbe_be2, !unbe_be8, !(u64_id (u64 _)), !i64_u64 by auto with bbdb.
  rewrite u16_id, u64_id by done. done.
Qed.

(** ** Corrupted headers *)

(** C28: A header in which any single byte has been changed is rejected. *)
Theorem DecodeHeader_detects_byte_corruption h i b b' :
  header_ok h → EncodeHeader h !! i = Some b → is_u8 b' → b' ≠ b →
  ∃ e, DecodeHeader (<[i := b']> (EncodeHeader h)) = Err e.
Proof.
  intros (_ & He & _) Hi Hb' Hne. pose proof (EncodeHeader_bytes h He) as Hbytes.
  assert (is_u8 b) as Hb.
  { unfold are_bytes in Hbytes. by eapply Forall_lookup_1. }
  assert (i < 64)%nat as Hlt.
  { apply lookup_lt_Some in Hi. by rewrite length_EncodeHeader in Hi. }
  unfold DecodeHeader. destruct (zlen _ <? _); [by eexists|].
  destruct (negb (beqb _ _)); [by eexists|].
  assert (ChecksumIEEE (take 60 (<[i:=b']> (EncodeHeader h)))
          ≠ unbe (slice 60 4 (<[i:=b']> (EncodeHeader h)))) as Hcs; [|].
  2: { apply Z.eqb_neq in Hcs. rewrite Hcs. by eexists. }
  pose proof (header_parts h) as [Ht Hs]. unfold slice in *.
  destruct (decide (i < 60)%nat) as [Hi60|Hi60].
  - rewrite take_insert_lt, drop_insert_lt by lia. rewrite Ht, Hs.
    rewrite unbe_be4, u32_id by (by apply header_checksum_u32).
    assert (header_body h !! i = Some b) as Hbi.
    { rewrite <- Ht. by rewrite lookup_take_lt. }
    pose proof (header_body_bytes h He) as Hbb.
    rewrite <- (take_drop_middle _ _ _ Hbi) in Hbb |- *.
    apply Forall_app in Hbb as [Hp [_ Hq]%Forall_cons].
    rewrite insert_app_r_alt by (rewrite length_take; lia).
    rewrite length_take, length_header_body, Nat.min_l, Nat.sub_diag by lia. simpl.
    apply ChecksumIEEE_byte_change; auto.
  - rewrite take_insert_ge by lia. rewrite Ht. intros E.
    assert (take 4 (drop 60 (<[i:=b']> (EncodeHeader h))) = be 4 (ChecksumIEEE (header_body h)))
      as E2.
    { apply unbe_inj.
      - apply Forall_take, Forall_drop, Forall_insert; done.
      - apply be_are_bytes.
      - rewrite length_take, length_drop, length_insert, length_EncodeHeader, length_be. lia.
      - by rewrite <- E, unbe_be4, u32_id by (by apply header_checksum_u32). }
    rewrite <- Hs in E2.
    apply (f_equal (fun l => l !! (i - 60)%nat)) in E2.
    rewrite !lookup_take_lt, !lookup_drop in E2 by lia.
    replace (60 + (i - 60))%nat with i in E2 by lia.
    rewrite list_lookup_insert_eq, Hi in E2 by (rewrite length_EncodeHeader; lia).
    congruence.
Qed.

(** ** Footer round trip *)
Definition footer_ok (f : BlockFooter) : Prop :=
  length (ColOffsets f) = 3%nat ∧ length (ColSizes f) = 3%nat ∧
  Forall is_u64 (ColOffsets f) ∧ Forall is_u64 (ColSizes f) ∧ is_u32 (BodyChecksum f).

Lemma length_concat_be8 l : length (concat (map (be 8) l)) = (8 * length l)%nat.
Proof. induction l as [|v l IH]; simpl; [done|]. simpl in IH. rewrite IH. lia. Qed.

Lemma length_EncodeFooter f : footer_ok f → length (EncodeFooter f) = 56%nat.
Proof.
  intros (H1 & H2 & _). unfold EncodeFooter.
  rewrite !length_app, !length_concat_be8, H1, H2, length_be. done.
Qed.

Lemma DecodeFooter_EncodeFooter f : footer_ok f → DecodeFooter (EncodeFooter f) = Ok f.
Proof.
  intros Hf. pose proof (length_EncodeFooter f Hf) as Hlen. unfold DecodeFooter.
  unfold zlen. rewrite Hlen. change (Z.of_nat 56 <? FooterSize) with false. cbn [negb].
  destruct Hf as (H1 & H2 & H3 & H4 & H5). destruct f as [os ss c]. cbn [ColOffsets ColSizes BodyChecksum] in *.
  destruct os as [|o0 [|o1 [|o2 []]]]; try done. destruct ss as [|s0 [|s1 [|s2 []]]]; try done.
  unfold EncodeFooter. cbn [ColOffsets ColSizes BodyChecksum].
  change (drop 52 _) with MagicTBBD. rewrite beqb_refl. cbn [negb map].
  change (slice (8 * 0) 8 _) with (be 8 o0). change (slice (8 * 1) 8 _) with (be 8 o1).
  change (slice (8 * 2) 8 _) with (be 8 o2). change (slice (24 + 8 * 0) 8 _) with (be 8 s0).
  change (slice (24 + 8 * 1) 8 _) with (be 8 s1). change (slice (24 + 8 * 2) 8 _) with (be 8 s2).
  change (slice 48 4 _) with (be 4 c).
  rewrite !unbe_be8, unbe_be4, (u32_id c) by done.
  repeat (apply Forall_cons in H3 as [? H3]). repeat (apply Forall_cons in H4 as [? H4]).
  rewrite !u64_id by done. done.
Qed.

(** ** Column round trips *)

Lemma words_snoc l :
  words (concat (map (be 8) l)) = map u64 l.
Proof.
  unfold words. rewrite length_concat_be8, Nat.mul_comm, Nat.div_mul by lia.
  induction l as [|v l IH] using rev_ind; [done|].
  rewrite length_app. simpl length. rewrite Nat.add_1_r, seq_S, !map_app, concat_app.
  cbn [map concat]. rewrite app_nil_r. f_equal.
  - rewrite <- IH. apply map_ext_in. intros i Hi%in_seq. f_equal. unfold slice.
    rewrite drop_app_le, take_app_le; [done|rewrite length_drop|]; rewrite length_concat_be8; lia.
  - f_equal. rewrite slice_app_at; [apply unbe_be8| |done]. rewrite length_concat_be8. lia.
Qed.

Lemma zlen_concat_be8 l : zlen (concat (map (be 8) l)) mod 8 = 0.
Proof.
  unfold zlen. rewrite length_concat_be8, Nat2Z.inj_mul, Z.mul_comm. apply Z.mod_mul. lia.
Qed.

Lemma map_u64_id l : Forall is_u64 l → map u64 l = l.
Proof. induction 1; simpl; [done|]. f_equal; [by apply u64_id|done]. Qed.

(** The payload loop never runs out of fuel: it returns the same result for
    every amount of fuel that covers the bytes left. *)
Lemma split_payloads_fuel fuel raw out :
  (length raw <= fuel)%nat → split_payloads fuel raw out ≠ Err (EMsg "out of fuel").
Proof.
  revert raw out. induction fuel as [|f IH]; intros raw out Hf.
  - destruct raw; simpl in *; [done|lia].
  - destruct raw as [|c raw]; [done|]. cbn [split_payloads].
    destruct (zlen (c :: raw) <? 4); [done|].
    destruct (_ <? _) eqn:E; [done|]. apply IH.
    rewrite length_drop. simpl in *. rewrite length_drop. lia.
Qed.

Lemma split_payloads_frames fuel pls out :
  Forall (fun p : bytes => zlen p < 2 ^ 32) pls →
  (length (concat (map (fun p => be 4 (u32 (zlen p)) ++ p) pls)) <= fuel)%nat →
  split_payloads fuel (concat (map (fun p => be 4 (u32 (zlen p)) ++ p) pls)) out = Ok (out ++ pls).
Proof.
  intros Hp. revert fuel out. induction Hp as [|p pls Hlen Hp IH]; intros fuel out Hf.
  - rewrite app_nil_r. by destruct fuel.
  - cbn [map concat] in *. rewrite !length_app, length_be in Hf.
    destruct fuel as [|fuel]; [lia|].
    set (rest := concat (map _ pls)) in *. rewrite <- app_assoc.
    assert (is_u32 (zlen p)) as Hu by (unfold is_u32, zlen in *; simpl in Hlen; lia).
    destruct (be 4 (u32 (zlen p)) ++ p ++ rest) as [|c r] eqn:E.
    { apply (f_equal length) in E. rewrite length_app, length_be in E. done. }
    cbn [split_payloads]. rewrite <- E. unfold zlen at 1. rewrite !length_app, length_be.
    destruct (Z.ltb_spec (Z.of_nat (4 + (length p + length rest))) 4); [lia|].
    rewrite take_app_at, drop_app_at by apply length_be.
    rewrite unbe_be4, (u32_id (u32 _)), (u32_id (zlen p)) by auto with bbdb.
    unfold zlen. rewrite length_app, Nat2Z.id, take_app_length, drop_app_length.
    destruct (Z.ltb_spec (Z.of_nat (length p + length rest)) (Z.of_nat (length p))); [lia|].
    rewrite IH by lia. by rewrite <- app_assoc.
Qed.

Lemma concat_be8_bytes l : are_bytes (concat (map (be 8) l)).
Proof.
  induction l as [|v l IH]; [constructor|]. cbn [map concat]. apply Forall_app.
  split; [apply be_are_bytes|done].
Qed.

Definition payload_ok (p : bytes) : Prop := are_bytes p ∧ zlen p < 2 ^ 32.

Lemma frames_bytes pls :
  Forall payload_ok pls → are_bytes (concat (map (fun p => be 4 (u32 (zlen p)) ++ p) pls)).
Proof.
  induction 1 as [|p l [Hp _] Hl IH]; [constructor|]. cbn [map concat].
  apply Forall_app. split; [apply Forall_app; split; [apply be_are_bytes|done]|done].
Qed.

Section column_props.
Context `{Zstd}.

Lemma Uint64Column_roundtrip l :
  Forall is_u64 l → DecompressUint64Column (CompressUint64Column l) = Ok l.
Proof.
  intros Hl. unfold DecompressUint64Column, CompressUint64Column.
  rewrite zstd_roundtrip, zlen_concat_be8 by apply concat_be8_bytes. simpl. by rewrite words_snoc, map_u64_id.
Qed.

Lemma Int64Column_roundtrip l :
  Forall is_i64 l → DecompressInt64Column (CompressInt64Column l) = Ok l.
Proof.
  intros Hl. unfold DecompressInt64Column, CompressInt64Column.
  replace (concat (map (fun v => be 8 (u64 v)) l)) with (concat (map (be 8) (map u64 l)))
    by (by rewrite map_map).
  rewrite zstd_roundtrip, zlen_concat_be8 by apply concat_be8_bytes. simpl. rewrite words_snoc, !map_map. f_equal.
  induction Hl as [|v l Hv Hl IH]; simpl; [done|]. rewrite IH. f_equal.
  rewrite (u64_id (u64 v)) by auto with bbdb. by apply i64_u64.
Qed.

Lemma BytesColumn_roundtrip l :
  Forall payload_ok l → DecompressBytesColumn (CompressBytesColumn l) = Ok l.
Proof.
  intros Hl. unfold DecompressBytesColumn, CompressBytesColumn.
  rewrite zstd_roundtrip by by apply frames_bytes. rewrite split_payloads_frames; [done| |done].
  eapply Forall_impl; [exact Hl|]. by intros p [_ ?].
Qed.

(** C27: The three column codecs are lossless: key hashes over all [uint64]
    values, timestamps over all [int64] values, payloads below 4 GiB each
    (empty ones included); decoding any payload column ends with a result
    or one of its two truncation errors. *)
Theorem columns_roundtrip khs tss pls data :
  Forall is_u64 khs → Forall is_i64 tss → Forall payload_ok pls →
  DecompressUint64Column (CompressUint64Column khs) = Ok khs ∧
  DecompressInt64Column (CompressInt64Column tss) = Ok tss ∧
  DecompressBytesColumn (CompressBytesColumn pls) = Ok pls ∧
  (∀ raw, DecodeAll data = Ok raw →
     DecompressBytesColumn data ≠ Err (EMsg "out of fuel")).
Proof.
  intros Hk Ht Hp. repeat split.
  - by apply Uint64Column_roundtrip.
  - by apply Int64Column_roundtrip.
  - by apply BytesColumn_roundtrip.
  - intros raw E. unfold DecompressBytesColumn. rewrite E. by apply split_payloads_fuel.
Qed.

Lemma block_body_bytes mt : Forall payload_ok (payloads mt) → are_bytes (block_body mt).
Proof.
  intros Hp. unfold block_body. apply Forall_app. split; [|apply Forall_app; split];
    apply EncodeAll_bytes.
  - apply concat_be8_bytes.
  - rewrite <- (map_map u64 (be 8)). apply concat_be8_bytes.
  - by apply frames_bytes.
Qed.

Lemma block_footer_ok mt : Forall payload_ok (payloads mt) → footer_ok (block_footer mt).
Proof.
  intros Hp. unfold footer_ok, block_footer. cbn [ColOffsets ColSizes BodyChecksum].
  repeat split; try (repeat (apply Forall_cons; split; [apply u64_range|]); apply Forall_nil_2);
    by apply ChecksumIEEE_range, block_body_bytes.
Qed.

(** A successful [WriteBlockBody] appends header and columns to the file. *)
Lemma WriteBlockBody_ok w hdr mt s s' f :
  WriteBlockBody w hdr mt s = (s', Ok f) →
  f = block_footer mt ∧
  files s' = <[w := default [] (files s !! w) ++ EncodeHeader hdr ++ block_body mt]> (files s).
Proof.
  unfold WriteBlockBody, st_bind, st_ret.
  destruct (Write w (EncodeHeader hdr) s) as [s1 [[]|e]] eqn:E1; [|done].
  destruct (Write w (block_body mt) s1) as [s2 [[]|e]] eqn:E2; [|done].
  intros [= <- <-]. apply Write_ok in E1, E2. split; [done|].
  rewrite E2, E1. unfold append_file. rewrite lookup_insert_eq, insert_insert_eq. simpl.
  by rewrite <- app_assoc.
Qed.

(** Whatever it returns, it touches only its file. *)
Lemma WriteBlockBody_frame w hdr mt q s s' r :
  WriteBlockBody w hdr mt s = (s', r) → q ≠ w → files s' !! q = files s !! q.
Proof.
  unfold WriteBlockBody, st_bind, st_ret. intros E Hq.
  destruct (Write w (EncodeHeader hdr) s) as [s1 [[]|e]] eqn:E1.
  - apply (Write_frame _ _ q) in E1; [|done].
    destruct (Write w (block_body mt) s1) as [s2 [[]|e]] eqn:E2;
      injection E as <- _; apply (Write_frame _ _ q) in E2; congruence.
  - injection E as <- _. by eapply Write_frame.
Qed.
End column_props.

(** ** A codec that satisfies the interface: a magic byte before the data *)
#[export] Instance StoreCodec : Zstd.
Proof.
  refine {| EncodeAll b := 40 :: b;
            DecodeAll d := match d with
                           | c :: r => if c =? 40 then Ok r else Err (EMsg "bad magic")
                           | [] => Err (EMsg "bad magic")
                           end |}.
  - done.
  - intros b Hb. apply Forall_cons. split; [unfold is_u8; lia|done].
Defined.

Lemma columns_roundtrip_witness :
  DecompressBytesColumn (CompressBytesColumn [[1; 2]; []; [3]]) = Ok [[1; 2]; []; [3]].
Proof.
  destruct (columns_roundtrip [5; 6] [-1; 7] [[1; 2]; []; [3]] [40]) as (_ & _ & E & _).
  - repeat constructor; unfold is_u64; lia.
  - repeat constructor; unfold is_i64; lia.
  - repeat (apply Forall_cons; split; [split; [|reflexivity]|]); try apply Forall_nil_2;
      repeat constructor; unfold is_u8; lia.
  - exact E.
Defined.

Definition sample_header : BlockHeader := mkHeader 263 1 3600000000000 3700000000000 2.

Lemma DecodeHeader_detects_byte_corruption_witness :
  ∃ e, DecodeHeader (<[9%nat := 255]> (EncodeHeader sample_header)) = Err e.
Proof.
  apply (DecodeHeader_detects_byte_corruption sample_header 9 0 255).
  - unfold header_ok, sample_header, is_u16, is_u8, is_i64, is_u64; simpl; lia.
  - vm_compute. reflexivity.
  - unfold is_u8. lia.
  - lia.
Defined.
