(* ===== verification/Tier.v ===== *)
(** * Storage tiers: [internal/tier/tier.go], [internal/tier/local.go]

    [TierStore] is the Go interface: the paths of a block's two files and the
    operations on them.  The class [TierLaws] states what the sealer, the
    query engine, the reaper and the janitor rely on; [LocalStore] is shown
    to satisfy it. *)
From S2P Require Import Prelude GoTime GoFmt GoOs Keys Event.

Record TierStore := mkTier {
  BlockPath : BlockID → bytes;
  BloomPath : BlockID → bytes;
  Put : BlockID → bytes → ST FS unit;
  Get : BlockID → ST FS unit;
  Exists : BlockID → ST FS bool;
  Delete : BlockID → ST FS unit;
}.

(** Identifiers the program builds: a shard and the hour of a time. *)
Definition block_id_ok (id : BlockID) : Prop :=
  ∃ shard t, is_u16 shard ∧ is_i64 t ∧ id = BlockIDForShard shard t.

Class TierLaws (ts : TierStore) : Prop := {
  block_path_inj id id' : block_id_ok id → block_id_ok id' →
    BlockPath ts id = BlockPath ts id' → id = id';
  bloom_path_inj id id' : block_id_ok id → block_id_ok id' →
    BloomPath ts id = BloomPath ts id' → id = id';
  block_bloom_path id id' : block_id_ok id → block_id_ok id' →
    BlockPath ts id ≠ BloomPath ts id';
  (** No path of the store ends like a temporary file. *)
  tmp_path_ne id p : block_id_ok id →
    BlockPath ts id ≠ p ++ b!".tmp" ∧ BloomPath ts id ≠ p ++ b!".tmp";
  Put_ok id src s s' : Put ts id src s = (s', Ok tt) →
    ∃ c, files s !! src = Some c ∧ files s' = <[BlockPath ts id := c]> (delete src (files s));
  (** A calm disk takes a file that is there. *)
  Put_runs id src s : sched s = [] → is_Some (files s !! src) →
    ∃ s', Put ts id src s = (s', Ok tt) ∧ sched s' = [];
  Put_err id src s s' e : Put ts id src s = (s', Err e) → files s' = files s;
  Delete_ok id s s' : Delete ts id s = (s', Ok tt) →
    files s' = delete (BloomPath ts id) (delete (BlockPath ts id) (files s));
  Delete_frame id s s' r q : Delete ts id s = (s', r) →
    q ≠ BlockPath ts id → q ≠ BloomPath ts id → files s' !! q = files s !! q;
  (** Deleting creates nothing, even when it fails half-way. *)
  Delete_shrinks id s s' r q : Delete ts id s = (s', r) →
    files s' !! q = None ∨ files s' !! q = files s !! q;
  (** On a calm disk deleting works, whatever is there. *)
  Delete_runs id s : sched s = [] → ∃ s', Delete ts id s = (s', Ok tt) ∧ sched s' = [];
  Exists_runs id s : sched s = [] → ∃ s' b, Exists ts id s = (s', Ok b) ∧ sched s' = [];
  Exists_spec id s s' r : Exists ts id s = (s', r) →
    files s' = files s ∧
    (r = Ok true → is_Some (files s !! BlockPath ts id)) ∧
    (r = Ok false → files s !! BlockPath ts id = None);
}.

(** ** The local file system store *)
Record LocalStore := mkLocal { ls_root : bytes; ls_tier : Tier }.

Definition splitBlockID (id : BlockID) : bytes * bytes :=
  match SplitN2 colon id with
  | [a; b] => (a, b)
  | _ => (id, [])
  end.

Definition LocalBlockPath (s : LocalStore) (id : BlockID) : bytes :=
  let '(shard, hour) := splitBlockID id in
  Join [ls_root s; b!"blocks"; shard; hour ++ b!".block"].

Definition LocalBloomPath (s : LocalStore) (id : BlockID) : bytes :=
  let '(shard, hour) := splitBlockID id in
  Join [ls_root s; b!"blocks"; shard; hour ++ b!".bloom"].

Definition NewLocalStore (root : bytes) (t : Tier) : ST FS LocalStore :=
  MkdirAll (Join [root; b!"blocks"]) ;;; st_ret (mkLocal root t).

Definition LocalPut (st : LocalStore) (id : BlockID) (srcPath : bytes) : ST FS unit :=
  let dst := LocalBlockPath st id in
  MkdirAll (Dir dst) ;;; Rename srcPath dst.

Definition LocalGet (st : LocalStore) (id : BlockID) : ST FS unit :=
  Open (LocalBlockPath st id).

(** [os.Stat] succeeds exactly when the file is there, unless the call fails. *)
Definition LocalExists (st : LocalStore) (id : BlockID) : ST FS bool := fun s =>
  match Open (LocalBlockPath st id) s with
  | (s', Ok _) => (s', Ok true)
  | (s', Err e) => if is_not_exist e then (s', Ok false) else (s', Err e)
  end.

(** Removes a file; a missing one is not an error. *)
Definition remove_if_present (p : bytes) : ST FS unit := fun s =>
  match Remove p s with
  | (s', Err e) => if is_not_exist e then (s', Ok tt) else (s', Err e)
  | r => r
  end.

Definition LocalDelete (st : LocalStore) (id : BlockID) : ST FS unit :=
  let blockPath := LocalBlockPath st id in
  let bloomPath := LocalBloomPath st id in
  st_wrap "delete block" (remove_if_present blockPath) ;;;
  st_wrap "delete bloom" (remove_if_present bloomPath).

Definition copyFile (src dst : bytes) : ST FS unit :=
  Open src ;;;
  Create dst ;;;
  let! data := ReadFile src in
  Write dst data ;;;
  Sync dst.

(** [tmpPath] is the fresh name [os.CreateTemp] chose. *)
Definition Migrate (st : LocalStore) (id : BlockID) (dst : TierStore) (tmpPath : bytes)
  : ST FS unit :=
  Create tmpPath ;;;
  st_wrap "migrate copy"
    (st_onerr (copyFile (LocalBlockPath st id) tmpPath) (st_exec (Remove tmpPath))) ;;;
  st_wrap "migrate put"
    (st_onerr (Put dst id tmpPath) (st_exec (Remove tmpPath))) ;;;
  LocalDelete st id.

Definition local_tier (st : LocalStore) : TierStore := {|
  BlockPath := LocalBlockPath st;
  BloomPath := LocalBloomPath st;
  Put := LocalPut st;
  Get := LocalGet st;
  Exists := LocalExists st;
  Delete := LocalDelete st;
|}.

(** ** Paths *)

(** A path component that [filepath.Join] keeps as it is. *)
Definition plain (c : bytes) : Prop :=
  slash ∉ c ∧ c ≠ [] ∧ c ≠ b!"." ∧ c ≠ b!"..".

Lemma Split_ne sep s : Split sep s ≠ [].
Proof.
  destruct s as [|c r]; simpl; [done|]. destruct (c =? sep); [done|]. by destruct (Split sep r).
Qed.

Lemma Split_app_gen sep a b : Split sep (a ++ sep :: b) = Split sep a ++ Split sep b.
Proof.
  induction a as [|c a IH]; simpl; [by rewrite Z.eqb_refl|].
  destruct (c =? sep); [by rewrite IH|]. rewrite IH.
  pose proof (Split_ne sep a). by destruct (Split sep a).
Qed.

Lemma clean_comps_app rooted cs1 cs2 acc :
  clean_comps rooted (cs1 ++ cs2) acc = clean_comps rooted cs2 (clean_comps rooted cs1 acc).
Proof.
  revert acc. induction cs1 as [|c cs1 IH]; intros acc; [done|]. cbn [app clean_comps].
  destruct (_ || _); [done|]. destruct (beqb c _); [|done].
  destruct acc as [|a acc]; [destruct rooted; done|]. by destruct (beqb a _).
Qed.

Lemma clean_comps_plain rooted c cs acc :
  plain c → clean_comps rooted (c :: cs) acc = clean_comps rooted cs (c :: acc).
Proof.
  intros (_ & H1 & H2 & H3). cbn [clean_comps]. unfold beqb.
  by rewrite !bool_decide_eq_false_2 by done.
Qed.

Lemma join_slash_app l m :
  m ≠ [] → join_slash (l ++ m) = concat (map (fun c => c ++ [slash]) l) ++ join_slash m.
Proof.
  intros Hm. induction l as [|c l IH]; [done|]. cbn [app map concat].
  destruct (l ++ m) as [|x r] eqn:E.
  { apply app_eq_nil in E as [_ ?]. done. }
  change (join_slash (c :: x :: r)) with (c ++ slash :: join_slash (x :: r)).
  rewrite IH. by rewrite <- !app_assoc.
Qed.

Lemma Split_join cs : cs ≠ [] → Forall (fun c => slash ∉ c) cs → Split slash (join_slash cs) = cs.
Proof.
  intros Hne Hcs. induction Hcs as [|c cs Hc Hcs IH]; [done|].
  destruct cs as [|d cs]; [by apply Split_none|].
  change (join_slash (c :: d :: cs)) with (c ++ slash :: join_slash (d :: cs)).
  rewrite Split_app by done. by rewrite IH.
Qed.

Lemma clean_comps_push rooted cs acc : Forall plain cs → clean_comps rooted cs acc = rev cs ++ acc.
Proof.
  intros Hcs. revert acc. induction Hcs as [|c l Hc Hl IH]; intros acc; [done|].
  rewrite clean_comps_plain, IH by done. simpl. by rewrite <- app_assoc.
Qed.

Lemma join_slash_ne cs : cs ≠ [] → Forall plain cs → join_slash cs ≠ [].
Proof.
  intros Hne Hcs. destruct cs as [|c l]; [done|]. apply Forall_cons in Hcs as [(_ & Hc & _) _].
  destruct l; simpl; [done|]. by destruct c.
Qed.

(** [filepath.Join] of any root with plain components: the components follow
    a prefix that depends on the root only. *)
Lemma Join_plain root :
  ∃ pre, ∀ cs, cs ≠ [] → Forall plain cs → Join (root :: cs) = pre ++ join_slash cs.
Proof.
  set (rooted := match root with 47 :: _ => true | _ => false end).
  set (base := match root with [] => [] | _ => clean_comps rooted (Split slash root) [] end).
  exists ((if rooted then [slash] else []) ++ concat (map (fun c => c ++ [slash]) (rev base))).
  intros cs Hne Hcs.
  assert (Forall (fun c => slash ∉ c) cs) as Hns.
  { eapply Forall_impl; [exact Hcs|]. by intros c [? _]. }
  pose proof (fun acc => clean_comps_push rooted cs acc Hcs) as Hpush.
  assert (join_slash (rev (rev cs ++ base))
          = concat (map (fun c => c ++ [slash]) (rev base)) ++ join_slash cs) as Hbody.
  { rewrite rev_app_distr, rev_involutive. by apply join_slash_app. }
  pose proof (join_slash_ne cs Hne Hcs) as Hj.
  unfold Join. destruct root as [|r0 root].
  - cbn [drop_empty]. subst base.
    replace (drop_empty cs) with cs.
    2: { destruct cs as [|c l]; [done|]. apply Forall_cons in Hcs as [(_ & Hc & _) _].
         by destruct c. }
    destruct cs as [|c l] eqn:Ecs; [done|]. rewrite <- Ecs in *.
    unfold Clean. rewrite Split_join by done.
    assert ((match join_slash cs with 47 :: _ => true | _ => false end) = rooted) as ->.
    { subst rooted cs. apply Forall_cons in Hns as [Hc _].
      apply Forall_cons in Hcs as [(_ & Hc0 & _) _]. destruct c as [|x c]; [done|].
      apply not_elem_of_cons in Hc as [Hx _].
      assert (∃ y, join_slash ((x :: c) :: l) = x :: y) as [y ->] by (destruct l; simpl; eauto).
      unfold slash in Hx. destruct x as [|p|p]; try done.
      repeat (destruct p as [p|p|]; try done). }
    rewrite Hpush. subst rooted. rewrite Hbody. simpl. unfold beqb.
    by rewrite bool_decide_eq_false_2.
  - change (drop_empty ((r0 :: root) :: cs)) with ((r0 :: root) :: cs).
    destruct cs as [|c l] eqn:Ecs; [done|]. rewrite <- Ecs in *.
    assert (join_slash ((r0 :: root) :: cs) = (r0 :: root) ++ slash :: join_slash cs) as ->
      by (by rewrite Ecs).
    unfold Clean. rewrite Split_app_gen, Split_join by done.
    assert ((match (r0 :: root) ++ slash :: join_slash cs with 47 :: _ => true | _ => false end)
            = rooted) as -> by done.
    rewrite clean_comps_app, Hpush. change (clean_comps rooted (Split slash (r0 :: root)) []) with base.
    rewrite Hbody. clear Hpush Hbody. clearbody rooted. destruct rooted.
    + by rewrite <- app_assoc.
    + unfold beqb. rewrite bool_decide_eq_false_2; [done|].
      intros [_ ?]%app_eq_nil. done.
Qed.

(** ** Identifiers give plain components *)

Lemma dec_no_slash n z : 0 <= z → slash ∉ sprintf_0d n z.
Proof.
  intros Hz. apply hexchars_notin; [apply decchars_hexchars, sprintf_0d_decchars, Hz|].
  unfold hexchar, slash. lia.
Qed.

Lemma hour_string_no_slash t : is_i64 t → slash ∉ hour_string t.
Proof.
  intros Ht. pose proof (Year_range t Ht). pose proof (fields_range t).
  unfold hour_string, slash. rewrite !not_elem_of_app, !list_elem_of_singleton.
  repeat split; try lia; apply dec_no_slash; lia.
Qed.

Lemma shard_string_plain s : is_u16 s → plain (sprintf_0x 4 (u16 s)).
Proof.
  intros Hs. rewrite u16_id by done. unfold is_u16 in Hs.
  assert (Forall hexchar (sprintf_0x 4 s)) as Hh by (apply sprintf_0_hexchars; lia).
  assert (sprintf_0x 4 s ≠ []) as Hne.
  { unfold sprintf_0x, sprintf_0. destruct (Z.ltb_spec s 0); [lia|].
    rewrite pad_zero_map. intros E%map_eq_nil%app_eq_nil. destruct E as [_ E].
    by apply to_digits_nonempty in E; [|right]. }
  split; [apply hexchars_notin; [done|unfold hexchar, slash; lia]|]. split; [done|].
  destruct (sprintf_0x 4 s) as [|c r]; [done|]. apply Forall_cons in Hh as [Hc _].
  unfold hexchar in Hc. split; intros [= -> ->]; simpl in Hc; lia.
Qed.

(** A suffix that is neither empty nor a dot component, without a slash. *)
Lemma file_plain h suf :
  slash ∉ h → slash ∉ suf → (2 < length suf)%nat → plain (h ++ suf).
Proof.
  intros Hh Hs Hl. split; [by rewrite not_elem_of_app|].
  repeat split; intros E%(f_equal length); rewrite length_app in E; simpl in E; lia.
Qed.

Lemma splitBlockID_ok shard t :
  is_u16 shard → splitBlockID (BlockIDForShard shard t) = (sprintf_0x 4 (u16 shard), hour_string t).
Proof. intros Hs. unfold splitBlockID, BlockIDForShard. by rewrite BlockID_split. Qed.

(** Where a block file lies: under a prefix that depends on the store only. *)
Lemma local_path_shape st :
  ∃ pre, ∀ shard t suf, is_u16 shard → is_i64 t → slash ∉ suf → (2 < length suf)%nat →
    Join [ls_root st; b!"blocks"; sprintf_0x 4 (u16 shard); hour_string t ++ suf]
    = pre ++ join_slash [b!"blocks"; sprintf_0x 4 (u16 shard); hour_string t ++ suf].
Proof.
  destruct (Join_plain (ls_root st)) as [pre Hpre]. exists pre.
  intros shard t suf Hs Ht Hsuf Hl. apply Hpre; [done|].
  repeat (apply Forall_cons; split); [|by apply shard_string_plain| |apply Forall_nil_2].
  - repeat split; try done. vm_compute. intros H.
    repeat (apply elem_of_cons in H as [?|H]; [done|]). by apply not_elem_of_nil in H.
  - apply file_plain; [by apply hour_string_no_slash|done|done].
Qed.

Lemma no_slash_lit (s : string) :
  forallb (fun c => negb (c =? slash)) (b!s) = true → slash ∉ b!s.
Proof.
  intros H Hin. rewrite forallb_forall in H. apply list_elem_of_In in Hin.
  specialize (H _ Hin). by rewrite Z.eqb_refl in H.
Qed.

Lemma local_path_inj st suf shard t shard' t' :
  is_u16 shard → is_u16 shard' → is_i64 t → is_i64 t' → slash ∉ suf → (2 < length suf)%nat →
  Join [ls_root st; b!"blocks"; sprintf_0x 4 (u16 shard); hour_string t ++ suf]
  = Join [ls_root st; b!"blocks"; sprintf_0x 4 (u16 shard'); hour_string t' ++ suf] →
  BlockIDForShard shard t = BlockIDForShard shard' t'.
Proof.
  intros Hs Hs' Ht Ht' Hsuf Hl E. destruct (local_path_shape st) as [pre Hpre].
  rewrite !Hpre in E by done. apply app_inv_head, (f_equal (Split slash)) in E.
  assert (∀ s t, is_u16 s → is_i64 t →
    Forall (fun c => slash ∉ c) [b!"blocks"; sprintf_0x 4 (u16 s); hour_string t ++ suf]) as Hall.
  { intros s u Hs0 Hu. repeat (apply Forall_cons; split); [|..|apply Forall_nil_2].
    - by apply no_slash_lit.
    - by apply shard_string_plain.
    - rewrite not_elem_of_app. split; [by apply hour_string_no_slash|done]. }
  rewrite !Split_join in E by (done || by apply Hall). injection E as E1 E2.
  apply app_inv_tail in E2. unfold BlockIDForShard, BlockIDFromShardAndHour. by rewrite E1, E2.
Qed.

(** The last byte of a path names the kind of file. *)
Lemma local_path_last st shard t suf c :
  is_u16 shard → is_i64 t → slash ∉ suf ++ [c] → (2 < length (suf ++ [c]))%nat →
  ∃ p, Join [ls_root st; b!"blocks"; sprintf_0x 4 (u16 shard); hour_string t ++ suf ++ [c]]
       = p ++ [c].
Proof.
  intros Hs Ht Hsuf Hl. destruct (local_path_shape st) as [pre Hpre].
  rewrite Hpre by done. cbn [join_slash]. eexists. by rewrite ?app_comm_cons, !app_assoc.
Qed.

Lemma last_byte_ne (p q : bytes) c d : c ≠ d → p ++ [c] ≠ q ++ [d].
Proof. intros Hne [_ ?]%app_inj_tail. done. Qed.

(** ** [LocalStore] satisfies the interface *)

Lemma remove_if_present_ok p s s' :
  remove_if_present p s = (s', Ok tt) → files s' = delete p (files s).
Proof.
  unfold remove_if_present. destruct (Remove p s) as [s1 [[]|e]] eqn:E.
  - intros [= <-]. by apply Remove_ok in E.
  - apply Remove_err in E as [E1 E2]. destruct (is_not_exist e); [|done]. intros [= <-].
    rewrite E1, delete_id; auto.
Qed.

Lemma remove_if_present_frame p s s' r q :
  remove_if_present p s = (s', r) → q ≠ p → files s' !! q = files s !! q.
Proof.
  unfold remove_if_present. destruct (Remove p s) as [s1 [[]|e]] eqn:E; intros E' Hq;
    apply (Remove_frame _ q) in E; try done; destruct_or?;
    try destruct (is_not_exist e); by injection E' as <- _.
Qed.

Lemma remove_if_present_shrinks p s s' r q :
  remove_if_present p s = (s', r) → files s' !! q = None ∨ files s' !! q = files s !! q.
Proof.
  destruct (decide (q = p)) as [->|Hne]; [|intros E; right; by eapply remove_if_present_frame].
  unfold remove_if_present. destruct (Remove p s) as [s1 [[]|e]] eqn:E.
  - intros [= <- _]. apply Remove_ok in E. left. rewrite E. apply lookup_delete_eq.
  - apply Remove_err in E as [E _]. intros E'. right. rewrite <- E.
    destruct (is_not_exist e); by injection E' as <- _.
Qed.

(** *** The local store keeps the laws *)
Lemma LocalBlock_ne_LocalBloom st st' id id' :
  block_id_ok id → block_id_ok id' → LocalBlockPath st id ≠ LocalBloomPath st' id'.
Proof.
  intros (s & t & Hs & Ht & ->) (s' & t' & Hs' & Ht' & ->).
  unfold LocalBlockPath, LocalBloomPath. rewrite !splitBlockID_ok by done.
  change (b!".block") with (b!".bloc" ++ [107]). change (b!".bloom") with (b!".bloo" ++ [109]).
  destruct (local_path_last st s t (b!".bloc") 107) as [p ->]; try done;
    [by apply (no_slash_lit ".block")|vm_compute; lia|].
  destruct (local_path_last st' s' t' (b!".bloo") 109) as [q ->]; try done;
    [by apply (no_slash_lit ".bloom")|vm_compute; lia|]. by apply last_byte_ne.
Qed.

Lemma Local_ne_tmp st id p :
  block_id_ok id →
  LocalBlockPath st id ≠ p ++ b!".tmp" ∧ LocalBloomPath st id ≠ p ++ b!".tmp".
Proof.
  intros (s & t & Hs & Ht & ->).
  unfold LocalBlockPath, LocalBloomPath. rewrite !splitBlockID_ok by done.
  change (b!".block") with (b!".bloc" ++ [107]). change (b!".bloom") with (b!".bloo" ++ [109]).
  change (b!".tmp") with (b!".tm" ++ [112]). rewrite (app_assoc p). split.
  + destruct (local_path_last st s t (b!".bloc") 107) as [q ->]; try done;
      [by apply (no_slash_lit ".block")|vm_compute; lia|]. by apply last_byte_ne.
  + destruct (local_path_last st s t (b!".bloo") 109) as [q ->]; try done;
      [by apply (no_slash_lit ".bloom")|vm_compute; lia|]. by apply last_byte_ne.
Qed.

Lemma LocalPut_ok st id src s s' :
  LocalPut st id src s = (s', Ok tt) →
  ∃ c, files s !! src = Some c ∧ files s' = <[LocalBlockPath st id := c]> (delete src (files s)).
Proof.
  intros E. unfold LocalPut, st_bind in E.
  destruct (MkdirAll _ s) as [s1 [[]|e]] eqn:E1; [|done]. apply MkdirAll_files in E1.
  apply Rename_ok in E as (c & Hc & Hf). exists c. by rewrite <- E1.
Qed.

Lemma LocalPut_err st id src s s' e : LocalPut st id src s = (s', Err e) → files s' = files s.
Proof.
  intros E. unfold LocalPut, st_bind in E.
  destruct (MkdirAll _ s) as [s1 [[]|e1]] eqn:E1; apply MkdirAll_files in E1.
  + apply Rename_err in E. congruence.
  + by injection E as <- _.
Qed.

Lemma LocalDelete_ok st id s s' :
  LocalDelete st id s = (s', Ok tt) →
  files s' = delete (LocalBloomPath st id) (delete (LocalBlockPath st id) (files s)).
Proof.
  intros E. unfold LocalDelete, st_bind, st_wrap in E.
  destruct (remove_if_present (LocalBlockPath st id) s) as [s1 [[]|e]] eqn:E1; [|done].
  destruct (remove_if_present (LocalBloomPath st id) s1) as [s2 [[]|e]] eqn:E2; [|done].
  injection E as <-. apply remove_if_present_ok in E1, E2. by rewrite E2, E1.
Qed.

Lemma LocalDelete_frame st id s s' r q :
  LocalDelete st id s = (s', r) → q ≠ LocalBlockPath st id → q ≠ LocalBloomPath st id →
  files s' !! q = files s !! q.
Proof.
  intros E Hq1 Hq2. unfold LocalDelete, st_bind, st_wrap in E.
  destruct (remove_if_present (LocalBlockPath st id) s) as [s1 [[]|e]] eqn:E1;
    apply (remove_if_present_frame _ _ _ _ q) in E1; try done.
  + destruct (remove_if_present (LocalBloomPath st id) s1) as [s2 [[]|e]] eqn:E2;
      apply (remove_if_present_frame _ _ _ _ q) in E2; try done; injection E as <- _; congruence.
  + injection E as <- _. congruence.
Qed.

Lemma remove_if_present_runs p s :
  sched s = [] → ∃ s', remove_if_present p s = (s', Ok tt) ∧ sched s' = [].
Proof.
  intros Hs. unfold remove_if_present, Remove, syscall, next_call. rewrite Hs.
  destruct (files s !! p); cbn; eauto.
Qed.

Lemma LocalDelete_shrinks st id s s' r q :
  LocalDelete st id s = (s', r) → files s' !! q = None ∨ files s' !! q = files s !! q.
Proof.
  intros E. unfold LocalDelete, st_bind, st_wrap in E.
  destruct (remove_if_present (LocalBlockPath st id) s) as [s1 [[]|e]] eqn:E1;
    apply (remove_if_present_shrinks _ _ _ _ q) in E1.
  + destruct (remove_if_present (LocalBloomPath st id) s1) as [s2 [[]|e]] eqn:E2;
      apply (remove_if_present_shrinks _ _ _ _ q) in E2; injection E as <- _;
      destruct E1, E2; (left; congruence) || (right; congruence).
  + by injection E as <- _.
Qed.

Lemma LocalExists_spec st id s s' r :
  LocalExists st id s = (s', r) →
  files s' = files s ∧ (r = Ok true → is_Some (files s !! LocalBlockPath st id)) ∧
  (r = Ok false → files s !! LocalBlockPath st id = None).
Proof.
  intros E. unfold LocalExists in E.
  destruct (Open _ s) as [s1 [[]|e]] eqn:E1; pose proof (Open_files _ _ _ _ E1) as Hf.
  + injection E as <- <-. split; [done|]. split; [|done]. intros _.
    unfold Open, syscall in E1. os_cases; try congruence. rewrite <- Ecall. by eexists.
  + destruct (is_not_exist e) eqn:Ee; injection E as <- <-; split; try done; split; try done.
    intros _. unfold Open, syscall in E1. os_cases; try congruence; done.
Qed.

#[export] Instance LocalTierLaws st : TierLaws (local_tier st).
Proof.
  split; simpl.
  - intros id id' (s & t & Hs & Ht & ->) (s' & t' & Hs' & Ht' & ->).
    unfold LocalBlockPath. rewrite !splitBlockID_ok by done.
    apply local_path_inj; try done; [by apply no_slash_lit|vm_compute; lia].
  - intros id id' (s & t & Hs & Ht & ->) (s' & t' & Hs' & Ht' & ->).
    unfold LocalBloomPath. rewrite !splitBlockID_ok by done.
    apply local_path_inj; try done; [by apply no_slash_lit|vm_compute; lia].
  - apply LocalBlock_ne_LocalBloom.
  - apply Local_ne_tmp.
  - intros. by eapply LocalPut_ok; eauto.
  - intros id src s Hs [c Hc]. unfold LocalPut, st_bind, MkdirAll, Rename, syscall, next_call, st_ret.
    rewrite !Hs, Hc. by eexists.
  - intros. by eapply LocalPut_err; eauto.
  - intros. by eapply LocalDelete_ok; eauto.
  - intros. by eapply LocalDelete_frame; eauto.
  - intros. by eapply LocalDelete_shrinks; eauto.
  - intros id s Hs. unfold LocalDelete, st_bind, st_wrap.
    destruct (remove_if_present_runs (LocalBlockPath st id) s Hs) as (s1 & -> & Hs1).
    destruct (remove_if_present_runs (LocalBloomPath st id) s1 Hs1) as (s2 & -> & Hs2). eauto.
  - intros id s Hs. unfold LocalExists, Open, syscall, next_call. rewrite Hs.
    destruct (files s !! LocalBlockPath st id); cbn; eauto.
  - intros. by eapply LocalExists_spec; eauto.
Qed.


(** ** Migration *)

Lemma copyFile_ok src dst s s' :
  src ≠ dst → copyFile src dst s = (s', Ok tt) →
  ∃ c, files s !! src = Some c ∧ files s' = <[dst := c]> (files s).
Proof.
  intros Hne E. unfold copyFile in E. st_inv E; try done.
  apply Open_files in E0. destruct r0. apply Create_ok in E1.
  pose proof (ReadFile_files _ _ _ _ E2) as F2. apply ReadFile_ok in E2.
  destruct r2. apply Write_ok in E3. apply Sync_files in E.
  rewrite E1, lookup_insert_ne, E0 in E2 by done. exists r1. split; [done|].
  rewrite E, E3, F2, E1, E0. unfold append_file.
  by rewrite lookup_insert_eq, insert_insert_eq.
Qed.

Lemma copyFile_frame src dst s s' r q :
  copyFile src dst s = (s', r) → q ≠ dst → files s' !! q = files s !! q.
Proof.
  intros E Hq. revert s s' r E. change (keeps q (copyFile src dst)).
  unfold copyFile. auto 8 with keeps.
Qed.

Lemma exec_Remove_frame p s q : q ≠ p → files (st_exec (Remove p) s) !! q = files s !! q.
Proof.
  intros Hq. unfold st_exec. destruct (Remove p s) as [s' r] eqn:E. by eapply Remove_frame.
Qed.

(** C30: Migrating a block never loses it, whichever of its system calls fail:
    the block file is complete at the source or at the destination.  A
    successful migration has moved the block and deleted the source's bloom
    file, and gives the destination none. *)
Theorem Migrate_never_loses_block st dst `{!TierLaws dst} id tmp s s' r c :
  block_id_ok id →
  BlockPath dst id ≠ LocalBlockPath st id → BlockPath dst id ≠ LocalBloomPath st id →
  BloomPath dst id ≠ LocalBlockPath st id → BloomPath dst id ≠ LocalBloomPath st id →
  files s !! LocalBlockPath st id = Some c →
  Migrate st id dst (tmp ++ b!".tmp") s = (s', r) →
  (files s' !! LocalBlockPath st id = Some c ∨ files s' !! BlockPath dst id = Some c) ∧
  (r = Ok tt →
     files s' !! BlockPath dst id = Some c ∧
     files s' !! LocalBlockPath st id = None ∧ files s' !! LocalBloomPath st id = None ∧
     files s' !! BloomPath dst id = files s !! BloomPath dst id).
Proof.
  intros Hid Hbb Hbm Hmb Hmm Hc E.
  destruct (tmp_path_ne (ts := local_tier st) id tmp Hid) as [Ht1 Ht2].
  destruct (tmp_path_ne (ts := dst) id tmp Hid) as [Ht3 Ht4]. cbn [BlockPath BloomPath local_tier] in *.
  set (t := tmp ++ b!".tmp") in *. unfold Migrate, st_bind, st_wrap, st_onerr in E.
  destruct (Create t s) as [s1 [[]|e]] eqn:E1; pose proof (fun q => Create_frame _ q _ _ _ E1) as F1.
  2: { injection E as <- <-. split; [left; rewrite F1; done|done]. }
  destruct (copyFile _ t s1) as [s2 [[]|e]] eqn:E2;
    pose proof (fun q => copyFile_frame _ _ _ _ _ q E2) as F2.
  2: { injection E as <- <-. split; [|done]. left.
       rewrite exec_Remove_frame, F2, F1; done. }
  apply copyFile_ok in E2 as (c' & Hc' & Hf2); [|done]. rewrite F1, Hc in Hc' by done.
  injection Hc' as <-.
  destruct (Put dst id t s2) as [s3 [[]|e]] eqn:E3.
  2: { injection E as <- <-. split; [|done]. left. apply Put_err in E3.
       rewrite exec_Remove_frame, E3, F2, F1; done. }
  apply Put_ok in E3 as (c' & Hc' & Hf3). rewrite Hf2, lookup_insert_eq in Hc'.
  injection Hc' as <-.
  assert (∀ q, q ≠ t → q ≠ BlockPath dst id → files s3 !! q = files s !! q) as F3.
  { intros q Hq1 Hq2. rewrite Hf3, lookup_insert_ne, lookup_delete_ne, F2, F1; done. }
  assert (files s' !! BlockPath dst id = Some c) as Hdst.
  { rewrite (Delete_frame (ts := local_tier st) _ _ _ _ _ E) by done.
    rewrite Hf3. apply lookup_insert_eq. }
  split; [by right|]. intros ->. split; [done|].
  assert (LocalBlockPath st id ≠ LocalBloomPath st id) as Hne
    by by apply (block_bloom_path (ts := local_tier st)).
  rewrite (Delete_ok (ts := local_tier st) _ _ _ E). cbn [BlockPath BloomPath local_tier].
  rewrite lookup_delete_ne, !lookup_delete_eq by done. split; [done|]. split; [done|].
  rewrite !lookup_delete_ne by done. apply F3; [done|].
  apply not_eq_sym. by apply block_bloom_path.
Qed.

(** A block of shard 0x0107 on the hot store, moved to the warm one. *)
Definition hot_store : LocalStore := mkLocal (b!"/hot") TierHot.
Definition warm_store : LocalStore := mkLocal (b!"/warm") TierWarm.
Definition sample_id : BlockID := BlockIDForShard 263 (3 * Hour).
Definition hot_fs : FS :=
  mkFS (<[LocalBlockPath hot_store sample_id := [1; 2; 3]]>
       (<[LocalBloomPath hot_store sample_id := [9]]> ∅)) [].

Lemma sample_id_ok : block_id_ok sample_id.
Proof. exists 263, (3 * Hour). split; [|split]; [unfold is_u16; lia|by vm_compute|done]. Qed.

Lemma Migrate_never_loses_block_witness :
  files (Migrate hot_store sample_id (local_tier warm_store) (b!"/tmp/m" ++ b!".tmp") hot_fs).1
    !! LocalBlockPath warm_store sample_id = Some [1; 2; 3] ∧
  files (Migrate hot_store sample_id (local_tier warm_store) (b!"/tmp/m" ++ b!".tmp") hot_fs).1
    !! LocalBloomPath warm_store sample_id = None.
Proof.
  destruct (Migrate_never_loses_block hot_store (local_tier warm_store) sample_id (b!"/tmp/m") hot_fs
    (Migrate hot_store sample_id (local_tier warm_store) (b!"/tmp/m" ++ b!".tmp") hot_fs).1
    (Ok tt) [1; 2; 3] sample_id_ok) as [_ H].
  1-4: vm_compute; discriminate.
  1-2: vm_compute; reflexivity.
  destruct (H eq_refl) as (H1 & _ & _ & H4). split; [exact H1|].
  cbn [BloomPath local_tier] in H4. rewrite H4. vm_compute. reflexivity.
Defined.
