(* ===== verification/GoFloat.v ===== *)
(** * [float64] arithmetic as far as [time.Duration.Hours] needs it

    IEEE 754 double precision, round to nearest even, through the Standard
    Library's executable specification of floating-point numbers. *)
From Corelib Require Import SpecFloat.
From S2P Require Import Prelude GoTime.

Definition float64 (z : Z) : spec_float := binary_normalize 53 1024 z 0 false.
Definition fadd : spec_float → spec_float → spec_float := SFadd 53 1024.
Definition fdiv : spec_float → spec_float → spec_float := SFdiv 53 1024.

(** [d.Hours()]: whole hours plus the rest as a fraction of an hour. *)
Definition Hours (d : duration) : spec_float :=
  fadd (float64 (Z.quot d Hour)) (fdiv (float64 (Z.rem d Hour)) (float64 Hour)).

(** Conversion of a float to an integer type truncates toward zero. *)
Definition ftrunc (f : spec_float) : Z :=
  match f with
  | S754_finite s m e =>
      let v := if 0 <=? e then Z.shiftl (Zpos m) e else Z.shiftr (Zpos m) (- e) in
      if s then - v else v
  | _ => 0
  end.

(** [uint64(f)]: a negative value is implementation-specific in Go; this is
    what amd64 computes. *)
Definition uint64_of_float (f : spec_float) : Z := u64 (ftrunc f).

(** ** Whole hours are exact *)
Lemma iter_xO_shiftl m n : Zpos (Pos.iter xO m n) = Z.shiftl (Zpos m) (Zpos n).
Proof.
  rewrite Z.shiftl_mul_pow2 by lia. induction n as [|n IH] using Pos.peano_ind.
  - change (Pos.iter xO m 1) with (xO m). lia.
  - rewrite Pos.iter_succ, Pos2Z.inj_succ, Z.pow_succ_r by lia. lia.
Qed.

Lemma digits2_iter_xO m n : digits2_pos (Pos.iter xO m n) = (digits2_pos m + n)%positive.
Proof.
  induction n as [|n IH] using Pos.peano_ind.
  - change (Pos.iter xO m 1) with (xO m). cbn [digits2_pos]. lia.
  - rewrite Pos.iter_succ. cbn [digits2_pos]. rewrite IH. lia.
Qed.

Lemma digits2_pos_le m n : 0 <= n → Zpos m < 2 ^ n → Zpos (digits2_pos m) <= n.
Proof.
  revert n. induction m as [m IH|m IH|]; intros n Hn Hm; cbn [digits2_pos];
    (destruct (decide (n = 0)) as [->|]; [change (2 ^ 0) with 1 in Hm; lia|]);
    replace n with (Z.succ (n - 1)) in Hm by lia; rewrite Z.pow_succ_r in Hm by lia;
    [specialize (IH (n - 1))|specialize (IH (n - 1))|]; lia.
Qed.

(** A significand of 53 bits needs no rounding. *)
Lemma round_exact m e :
  Zpos (digits2_pos m) = 53 → -1074 <= e <= 0 →
  binary_round_aux 53 1024 false (Zpos m) e loc_Exact = S754_finite false m e.
Proof.
  intros Hd He. unfold binary_round_aux.
  assert (shr_fexp 53 1024 (Zpos m) e loc_Exact = (Build_shr_record (Zpos m) false false, e)) as Hs.
  { unfold shr_fexp, fexp, emin. cbn [Zdigits2]. rewrite Hd.
    replace (Z.max (53 + e - 53) (3 - 1024 - 53) - e) with 0 by lia. done. }
  rewrite Hs. cbn [shr_m loc_of_shr_record round_nearest_even]. rewrite Hs. cbn [shr_m].
  destruct (Z.leb_spec e (1024 - 53)); [done|lia].
Qed.

Lemma float64_exact m :
  Zpos m < 2 ^ 53 → ∃ m' e, float64 (Zpos m) = S754_finite false m' e ∧ ftrunc (float64 (Zpos m)) = Zpos m.
Proof.
  intros Hm. pose proof (digits2_pos_le m 53 ltac:(lia) Hm) as Hd.
  unfold float64, binary_normalize, binary_round, fexp, emin.
  replace (Z.max _ _) with (Zpos (digits2_pos m) - 53) by (change (3 - 1024 - 53) with (-1074); lia).
  unfold shl_align. rewrite Z.sub_0_r. destruct (Zpos (digits2_pos m) - 53) as [|p|n] eqn:E.
  - rewrite round_exact by lia. eexists _, _. split; [done|]. reflexivity.
  - lia.
  - assert (Zpos (digits2_pos (Pos.iter xO m n)) = 53) as H53.
    { rewrite digits2_iter_xO, Pos2Z.inj_add. lia. }
    rewrite round_exact by (done || lia). eexists _, _. split; [done|].
    cbn [ftrunc]. change (0 <=? Zneg n) with false. cbv iota. rewrite iter_xO_shiftl.
    change (- Zneg n) with (Zpos n). by rewrite Z.shiftr_shiftl_l, Z.sub_diag by lia.
Qed.

(** Up to 2^53 hours, more than a [time.Duration] can hold. *)
Lemma Hours_whole k : 0 < k < 2 ^ 53 → uint64_of_float (Hours (k * Hour)) = k.
Proof.
  intros Hk. unfold Hours. rewrite Z.quot_mul, Z.rem_mul by done.
  destruct k as [|m|m]; [lia| |lia]. destruct (float64_exact m) as (m' & e & E & Ht); [lia|].
  assert (fdiv (float64 0) (float64 Hour) = S754_zero false) as -> by (vm_compute; reflexivity).
  rewrite E. cbn [fadd SFadd]. rewrite E in Ht. unfold uint64_of_float. 
  change (fadd (S754_finite false m' e) (S754_zero false)) with (S754_finite false m' e).
  rewrite Ht. apply u64_id. unfold is_u64. lia.
Qed.
