(* ===== verification/World.v ===== *)
(** * The two stores a component works on: the key-value store and the disk *)
From S2P Require Import Prelude Pebble PebbleRef GoOs.

Record World `{PebbleOps} := mkWorld { db : pdb; fs : FS }.

Section lift.
Context `{PebbleOps}.

Definition on_db {A} (m : ST pdb A) : ST World A := fun w =>
  let '(d, r) := m (db w) in (mkWorld _ d (fs w), r).

Definition on_fs {A} (m : ST FS A) : ST World A := fun w =>
  let '(f, r) := m (fs w) in (mkWorld _ (db w) f, r).

Lemma on_db_inv {A} (m : ST pdb A) w w' r :
  on_db m w = (w', r) → m (db w) = (db w', r) ∧ fs w' = fs w.
Proof. unfold on_db. destruct (m (db w)) as [d x]. by intros [= <- <-]. Qed.

Lemma on_fs_inv {A} (m : ST FS A) w w' r :
  on_fs m w = (w', r) → m (fs w) = (fs w', r) ∧ db w' = db w.
Proof. unfold on_fs. destruct (m (fs w)) as [f x]. by intros [= <- <-]. Qed.
End lift.

(** The world the witnesses start from: nothing stored, nothing failing. *)
Definition empty_world : World := mkWorld RefOps empty_db (mkFS ∅ []).
