(* ===== verification/Sealer.v ===== *)
(** * Sealing a memtable into a block: [internal/block/sealer.go]

    [Seal] works on the key-value store and the disk.  It is split at its
    numbered steps: the block file (1, 2), the bloom file (3), the rename (4),
    the index chunks (5) and the atomic batch (6). *)
From Stdlib Require Import QArith_base.
From S2P Require Import Prelude GoTime GoFmt GoFloat GoOs Pebble PebbleRef Keys Wal BlockMetaDB.
From S2P Require Import IdxDB Expiry Event Memtable Bloom Crc32 Format Tier World.
#[local] Open Scope Z_scope.

Definition DefaultIdxChunkSize : Z := 100000.
Definition defaultRetentionHours : Z := 5 * 365 * 24.

(** The database handle is the state the function works on. *)
Record SealRequest := mkSealRequest {
  sr_Store : TierStore;
  sr_TmpDir : bytes;
  sr_Shard : ShardID;
  sr_EventType : Z;
  sr_OpenedAt : Z;
  sr_SealedAt : Z;
  sr_Memtable : Memtable;
  sr_Retention : duration;
  sr_BloomFPR : Q;
  sr_IdxChunkSize : Z;
}.

(** The name of the block and of its temporary file. *)
Definition seal_id (req : SealRequest) : BlockID := BlockIDForShard (sr_Shard req) (sr_OpenedAt req).

Definition tmp_path (req : SealRequest) : bytes :=
  Join [sr_TmpDir req; seal_id req ++ b!".block.tmp"].

Definition seal_header (req : SealRequest) (mt : Memtable) : BlockHeader := {|
  bh_ShardID := u16 (sr_Shard req);
  bh_EventType := sr_EventType req;
  bh_OpenedAt := sr_OpenedAt req;
  bh_SealedAt := sr_SealedAt req;
  bh_RowCount := u64 (Len mt);
|}.

Definition retention_hours (retention : duration) : Z :=
  let retentionHours := uint64_of_float (Hours retention) in
  if retentionHours =? 0 then defaultRetentionHours else retentionHours.

Definition expiry_hour (req : SealRequest) : Z :=
  let openHour := u64 (Z.quot (Unix (sr_OpenedAt req)) 3600) in
  u64 (openHour + retention_hours (sr_Retention req)).

Section seal.
Context `{PebbleOps} `{SliceSort} `{MapOrder} `{BloomLib} `{Zstd}.

(** Runs a step; on failure removes files, ignoring the outcome. *)
Definition or_remove {A} (ps : list bytes) (m : ST FS A) : ST FS A :=
  st_onerr m (fun s => fold_left (fun s p => st_exec (Remove p) s) ps s).

(** Steps 1 and 2: the block file, complete and synced, under its temporary name. *)
Definition write_block_file (tmpPath tmpDir : bytes) (hdr : BlockHeader) (mt : Memtable)
  : ST FS (BlockFooter * Z) :=
  MkdirAll tmpDir ;;;
  st_wrap "create tmp block" (Create tmpPath) ;;;
  let! footer := st_wrap "write block body" (or_remove [tmpPath] (WriteBlockBody tmpPath hdr mt)) in
  st_wrap "write footer" (or_remove [tmpPath] (Write tmpPath (EncodeFooter footer))) ;;;
  st_wrap "fsync block" (or_remove [tmpPath] (Sync tmpPath)) ;;;
  let! size := or_remove [tmpPath] (StatSize tmpPath) in
  st_ret (footer, u64 size).

(** Step 3: the bloom file, synced before the block is renamed into place. *)
Definition write_bloom_file (tmpPath bloomPath : bytes) (mt : Memtable) (fpr : Q) : ST FS unit :=
  let! bloomData := st_wrap "build bloom"
    (or_remove [tmpPath] (of_result (Serialize (BuildBloomFromMemtable mt fpr)))) in
  or_remove [tmpPath] (MkdirAll (Dir bloomPath)) ;;;
  st_wrap "create bloom file" (or_remove [tmpPath] (Create bloomPath)) ;;;
  st_wrap "write bloom" (or_remove [bloomPath; tmpPath] (Write bloomPath bloomData)) ;;;
  st_wrap "fsync bloom" (or_remove [bloomPath; tmpPath] (Sync bloomPath)).

(** Step 5: chunks [hashes[start:start+chunkSize]] until the end.  [start]
    and [end] stay below the length of a slice plus one chunk, so the [int]
    additions do not wrap.  A chunk is at least one hash: as many rounds as
    hashes are enough. *)
Fixpoint put_idx_chunks (fuel : nat) (eventType start chunkSize : Z) (uniqueHashes : list Z)
    (blockID : BlockID) : ST pdb unit :=
  if start <? zlen uniqueHashes then
    match fuel with
    | O => st_err (EMsg "out of fuel")
    | S fuel =>
        let end' := if zlen uniqueHashes <? start + chunkSize
                    then zlen uniqueHashes else start + chunkSize in
        st_wrap "put idx batch"
          (PutIdxBatch eventType (slice (Z.to_nat start) (Z.to_nat (end' - start)) uniqueHashes)
             blockID) ;;;
        put_idx_chunks fuel eventType (start + chunkSize) chunkSize uniqueHashes blockID
    end
  else st_ret tt.

Definition seal_meta (req : SealRequest) (blockSize : Z) (footer : BlockFooter) : BlockMeta := {|
  bm_ShardID := sr_Shard req;
  bm_OpenedAt := sr_OpenedAt req;
  bm_SealedAt := sr_SealedAt req;
  bm_Tier := TierHot;
  bm_Size := blockSize;
  bm_Checksum := BodyChecksum footer;
|}.

(** Steps 1 to 4: everything [Seal] does on disk. *)
Definition seal_files (req : SealRequest) (mt : Memtable) : ST FS (BlockFooter * Z) :=
  let blockID := seal_id req in
  let tmpPath := tmp_path req in
  let bloomPath := BloomPath (sr_Store req) blockID in
  let! written := write_block_file tmpPath (sr_TmpDir req) (seal_header req mt) mt in
  write_bloom_file tmpPath bloomPath mt (sr_BloomFPR req) ;;;
  st_wrap "store.Put" (or_remove [bloomPath; tmpPath] (Put (sr_Store req) blockID tmpPath)) ;;;
  st_ret written.

Definition Seal (req : SealRequest) : ST World BlockID :=
  let mt := Sort (sr_Memtable req) in
  let blockID := seal_id req in
  let! written := on_fs (seal_files req mt) in
  let '(footer, blockSize) := written in
  let chunkSize := if sr_IdxChunkSize req <=? 0 then DefaultIdxChunkSize else sr_IdxChunkSize req in
  let uniqueHashes := UniqueKeyHashes mt in
  on_db (put_idx_chunks (length uniqueHashes) (sr_EventType req) 0 chunkSize uniqueHashes blockID) ;;;
  on_db (SealBatch (sr_Shard req) blockID (seal_meta req blockSize footer) (expiry_hour req)) ;;;
  st_ret blockID.
End seal.

(** ** The files *)
Definition sealreq_ok (req : SealRequest) : Prop :=
  is_u16 (sr_Shard req) ∧ is_u8 (sr_EventType req) ∧ is_i64 (sr_OpenedAt req) ∧
  is_i64 (sr_SealedAt req) ∧ Forall event_ok (Rows (sr_Memtable req)) ∧
  mt_ok (sr_Memtable req).

Lemma seal_id_ok req : sealreq_ok req → block_id_ok (seal_id req).
Proof. intros (Hs & _ & Ho & _). by exists (sr_Shard req), (sr_OpenedAt req). Qed.

Lemma tmp_path_shape req : sealreq_ok req → ∃ p, tmp_path req = p ++ b!".tmp".
Proof.
  intros (Hs & _ & Ho & _). destruct (Join_plain (sr_TmpDir req)) as [pre Hpre].
  unfold tmp_path. rewrite Hpre; [|done|].
  - exists (pre ++ seal_id req ++ b!".block"). cbn [join_slash]. by rewrite <- !app_assoc.
  - apply Forall_cons. split; [|apply Forall_nil_2].
    apply file_plain; [|by apply no_slash_lit|vm_compute; lia].
    unfold seal_id, BlockIDForShard, BlockIDFromShardAndHour.
    rewrite !not_elem_of_app, list_elem_of_singleton. unfold colon.
    repeat split; [by apply shard_string_plain|done|by apply hour_string_no_slash].
Qed.

Section files.
Context `{SliceSort} `{MapOrder} `{BloomLib} `{Zstd}.

Lemma or_remove_ok {A} ps (m : ST FS A) s s' a :
  or_remove ps m s = (s', Ok a) → m s = (s', Ok a).
Proof. unfold or_remove, st_onerr. by destruct (m s) as [s1 [x|e]]. Qed.

Lemma keeps_removes q ps s :
  q ∉ ps → files (fold_left (fun s p => st_exec (Remove p) s) ps s) !! q = files s !! q.
Proof.
  revert s. induction ps as [|p ps IH]; intros s Hq; [done|].
  apply not_elem_of_cons in Hq as [Hp Hq]. cbn [fold_left]. rewrite IH by done.
  auto with keeps.
Qed.

Lemma or_remove_err {A} ps (m : ST FS A) s s' e q :
  or_remove ps m s = (s', Err e) → q ∉ ps →
  ∃ s1, m s = (s1, Err e) ∧ files s' !! q = files s1 !! q.
Proof.
  unfold or_remove, st_onerr. destruct (m s) as [s1 [x|e1]]; [done|]. intros E Hq.
  assert (s' = fold_left (fun s p => st_exec (Remove p) s) ps s1 ∧ e = e1) as [-> ->]
    by (split; congruence).
  exists s1. split; [done|]. by apply keeps_removes.
Qed.

Lemma keeps_or_remove q {A} ps (m : ST FS A) : q ∉ ps → keeps q m → keeps q (or_remove ps m).
Proof. intros Hq Hm. apply keeps_onerr; [done|]. intros s. by apply keeps_removes. Qed.

Lemma keeps_WriteBlockBody q w hdr mt : q ≠ w → keeps q (WriteBlockBody w hdr mt).
Proof. intros Hq s s' r E. by eapply WriteBlockBody_frame. Qed.

Lemma write_block_file_ok tmp dir hdr mt s s' footer size :
  write_block_file tmp dir hdr mt s = (s', Ok (footer, size)) →
  footer = block_footer mt ∧ size = u64 (zlen (block_file hdr mt)) ∧
  files s' = <[tmp := block_file hdr mt]> (files s).
Proof.
  intros E. unfold write_block_file in E.
  apply st_bind_ok in E as (s1 & [] & E1%MkdirAll_files & E).
  apply st_bind_ok in E as (s2 & [] & E2%st_wrap_ok%Create_ok & E).
  apply st_bind_ok in E as (s3 & f & E3%st_wrap_ok%or_remove_ok%WriteBlockBody_ok & E).
  destruct E3 as [-> E3].
  apply st_bind_ok in E as (s4 & [] & E4%st_wrap_ok%or_remove_ok%Write_ok & E).
  apply st_bind_ok in E as (s5 & [] & E5%st_wrap_ok%or_remove_ok%Sync_files & E).
  apply st_bind_ok in E as (s6 & n & E6%or_remove_ok & E).
  pose proof (StatSize_files _ _ _ _ E6) as F6. apply StatSize_ok in E6 as (c & Hc & Hn).
  injection E as <- <- <-.
  assert (files s6 = <[tmp := block_file hdr mt]> (files s)) as Hf.
  { rewrite F6, E5, E4, E3, E2, E1. unfold append_file.
    rewrite !lookup_insert_eq, !insert_insert_eq. simpl. unfold block_file.
    by rewrite ?app_nil_l, ?app_assoc. }
  rewrite <- F6, Hf, lookup_insert_eq in Hc. injection Hc as <-. by rewrite Hn.
Qed.

Lemma write_bloom_file_ok tmp bloom mt fpr s s' u :
  write_bloom_file tmp bloom mt fpr s = (s', Ok u) →
  ∃ data, Serialize (BuildBloomFromMemtable mt fpr) = Ok data ∧
          files s' = <[bloom := data]> (files s).
Proof.
  intros E. unfold write_bloom_file in E.
  apply st_bind_ok in E as (s1 & data & E1%st_wrap_ok%or_remove_ok & E).
  apply st_bind_ok in E as (s2 & [] & E2%or_remove_ok%MkdirAll_files & E).
  apply st_bind_ok in E as (s3 & [] & E3%st_wrap_ok%or_remove_ok%Create_ok & E).
  apply st_bind_ok in E as (s4 & [] & E4%st_wrap_ok%or_remove_ok%Write_ok & E).
  apply st_wrap_ok, or_remove_ok, Sync_files in E. injection E1 as <- E1. exists data.
  split; [done|]. rewrite E, E4, E3, E2. unfold append_file.
  by rewrite lookup_insert_eq, insert_insert_eq.
Qed.

Lemma keeps_write_block_file q tmp dir hdr mt : q ≠ tmp → keeps q (write_block_file tmp dir hdr mt).
Proof.
  intros Hq. unfold write_block_file. assert (q ∉ [tmp]) by (by rewrite list_elem_of_singleton).
  auto 20 using keeps_or_remove, keeps_WriteBlockBody with keeps.
Qed.

Lemma keeps_write_bloom_file q tmp bloom mt fpr :
  q ≠ tmp → q ≠ bloom → keeps q (write_bloom_file tmp bloom mt fpr).
Proof.
  intros Hq Hb. unfold write_bloom_file, of_result.
  assert (q ∉ [tmp]) by (by rewrite list_elem_of_singleton).
  assert (q ∉ [bloom; tmp]) by (by rewrite not_elem_of_cons, list_elem_of_singleton).
  auto 20 using keeps_or_remove with keeps.
Qed.
End files.

(** ** Rows of a table that can be sealed *)
Lemma rows_payloads mt : mt_ok mt → Forall event_ok (Rows mt) → Forall payload_ok (payloads mt).
Proof.
  intros Hok Hall. rewrite (mt_of_Rows mt Hok). simpl. apply Forall_map.
  eapply Forall_impl; [exact Hall|]. by intros e (_ & _ & ? & ?).
Qed.

Lemma rows_hashes mt : mt_ok mt → Forall event_ok (Rows mt) → Forall is_u64 (keyHashes mt).
Proof.
  intros Hok Hall. rewrite (mt_of_Rows mt Hok). simpl. apply Forall_map.
  eapply Forall_impl; [exact Hall|]. by intros e (? & _).
Qed.

Lemma Sort_events `{SliceSort} mt : Forall event_ok (Rows mt) → Forall event_ok (Rows (Sort mt)).
Proof. intros Hall. by rewrite Sort_perm. Qed.

(** ** The index chunks *)
Lemma put_idx_app et a b id m : put_idx et (a ++ b) id m = put_idx et b id (put_idx et a id m).
Proof. unfold put_idx, apply_ops. by rewrite map_app, fold_left_app. Qed.

Lemma take_drop_slice {A} (l : list A) i n : drop i l = slice i n l ++ drop (i + n) l.
Proof. unfold slice. rewrite <- drop_drop. symmetry. apply take_drop. Qed.

Section index.
Context `{Pebble}.

(** One round of the loop covers exactly the next chunk. *)
Lemma chunk_split (hs : list Z) start c :
  0 <= start < zlen hs → 0 < c →
  let end' := if zlen hs <? start + c then zlen hs else start + c in
  drop (Z.to_nat start) hs
  = slice (Z.to_nat start) (Z.to_nat (end' - start)) hs ++ drop (Z.to_nat (start + c)) hs.
Proof.
  intros Hs Hc end'. rewrite (take_drop_slice hs (Z.to_nat start) (Z.to_nat (end' - start))).
  f_equal. subst end'. destruct (Z.ltb_spec (zlen hs) (start + c)).
  - unfold zlen in *. rewrite !drop_ge by lia. done.
  - f_equal. lia.
Qed.

(** However the loop ends, the hashes of a prefix are indexed. *)
Lemma put_idx_chunks_any fuel et start c hs id db db' r :
  0 <= start → 0 < c → put_idx_chunks fuel et start c hs id db = (db', r) →
  ∃ n, view db' = put_idx et (take n (drop (Z.to_nat start) hs)) id (view db).
Proof.
  intros Hs Hc. revert start db Hs. induction fuel as [|fuel IH]; intros start db Hs; simpl.
  { destruct (_ <? _); intros [= <- _]; by exists 0%nat. }
  destruct (Z.ltb_spec start (zlen hs)) as [Hlt|]; [|intros [= <- _]; by exists 0%nat].
  pose proof (chunk_split hs start c (conj Hs Hlt) Hc) as Hsplit. cbv zeta in Hsplit.
  set (ch := slice _ _ hs) in *. unfold st_bind, st_wrap.
  destruct (PutIdxBatch et ch id db) as [db1 [[]|e]] eqn:E1.
  - apply PutIdxBatch_ok in E1. intros (n & Hn)%IH; [|lia]. exists (length ch + n)%nat.
    by rewrite Hn, E1, Hsplit, take_app_add, put_idx_app.
  - apply PutIdxBatch_any in E1. intros [= <- _]. destruct E1 as [E1|E1].
    + by exists 0%nat.
    + exists (length ch). by rewrite Hsplit, take_app_length.
Qed.

(** A loop that returns no error has indexed every hash. *)
Lemma put_idx_chunks_ok fuel et start c hs id db db' u :
  0 <= start → 0 < c → put_idx_chunks fuel et start c hs id db = (db', Ok u) →
  view db' = put_idx et (drop (Z.to_nat start) hs) id (view db).
Proof.
  intros Hs Hc. revert start db Hs. induction fuel as [|fuel IH]; intros start db Hs; simpl;
    destruct (Z.ltb_spec start (zlen hs)) as [Hlt|Hge]; try done.
  1, 3: intros [= <- _]; rewrite drop_ge by (unfold zlen in Hge; lia); done.
  pose proof (chunk_split hs start c (conj Hs Hlt) Hc) as Hsplit. cbv zeta in Hsplit.
  set (ch := slice _ _ hs) in *.
  intros (db1 & [] & E1%st_wrap_ok%PutIdxBatch_ok & E2%IH)%st_bind_ok; [|lia].
  by rewrite E2, E1, Hsplit, put_idx_app.
Qed.

(** The loop ends within its rounds: it succeeds when the store works. *)
Lemma works_put_idx_chunks W fuel et start c hs id :
  writes_work W → 0 <= start → 0 < c → zlen hs - start <= Z.of_nat fuel →
  works W (put_idx_chunks fuel et start c hs id).
Proof.
  intros HW Hs Hc. revert start Hs. induction fuel as [|fuel IH]; intros start Hs Hf; cbn [put_idx_chunks];
    destruct (Z.ltb_spec start (zlen hs)) as [Hlt|Hge]; try apply works_ret; [lia|].
  apply works_bind; [by apply works_wrap, works_pwrite_batch|]. intros _. apply IH; lia.
Qed.
End index.

(** ** Sealing *)
Section seal_props.
Context `{Pebble} `{SliceSort} `{MapOrder} `{BloomLib} `{Zstd}.

(** Both files of the block are in place and complete. *)
Definition on_disk (req : SealRequest) (m : gmap bytes bytes) : Prop :=
  let mt := Sort (sr_Memtable req) in
  m !! BlockPath (sr_Store req) (seal_id req) = Some (block_file (seal_header req mt) mt) ∧
  ∃ data, Serialize (BuildBloomFromMemtable mt (sr_BloomFPR req)) = Ok data ∧
          m !! BloomPath (sr_Store req) (seal_id req) = Some data.

(** The metadata recorded for the block. *)
Definition sealed_meta (req : SealRequest) : BlockMeta :=
  let mt := Sort (sr_Memtable req) in
  seal_meta req (u64 (zlen (block_file (seal_header req mt) mt))) (block_footer mt).

Lemma sealed_meta_ok req : sealreq_ok req → meta_ok (sealed_meta req).
Proof.
  intros (Hs & He & Ho & Hc & Hr & Hm). unfold meta_ok, sealed_meta, seal_meta.
  cbn [bm_ShardID bm_OpenedAt bm_SealedAt bm_Tier bm_Size bm_Checksum block_footer BodyChecksum].
  do 4 (split; [done|]). split; [apply u64_range|].
  apply ChecksumIEEE_range, block_body_bytes, rows_payloads; auto using Sort_ok, Sort_events.
Qed.

Lemma seal_files_ok req s s' footer size :
  TierLaws (sr_Store req) → sealreq_ok req →
  seal_files req (Sort (sr_Memtable req)) s = (s', Ok (footer, size)) →
  on_disk req (files s') ∧ seal_meta req size footer = sealed_meta req ∧
  files s' !! tmp_path req = None.
Proof.
  intros Hlaws Hok E. pose proof (seal_id_ok req Hok) as Hid.
  destruct (tmp_path_shape req Hok) as [p Hp].
  destruct (tmp_path_ne (ts := sr_Store req) (seal_id req) p Hid) as [Hb Hm]. rewrite <- Hp in *.
  pose proof (block_bloom_path (ts := sr_Store req) _ _ Hid Hid) as Hbm. unfold seal_files in E.
  apply st_bind_ok in E as (s1 & [f n] & (-> & -> & E1)%write_block_file_ok & E).
  apply st_bind_ok in E as (s2 & [] & (data & Hdata & E2)%write_bloom_file_ok & E).
  apply st_bind_ok in E as (s3 & [] & (c & Hc & E3)%st_wrap_ok%or_remove_ok%Put_ok & E).
  injection E as <- <- <-.
  rewrite E2, E1, lookup_insert_ne, lookup_insert_eq in Hc by done. injection Hc as <-.
  split; [split|split; [done|]].
  - rewrite E3. apply lookup_insert_eq.
  - exists data. split; [done|].
    rewrite E3, lookup_insert_ne, lookup_delete_ne, E2 by done. apply lookup_insert_eq.
  - rewrite E3, lookup_insert_ne by done. apply lookup_delete_eq.
Qed.

(** Files other than the temporary one, the block and its bloom are untouched;
    a failure leaves the block file as it was. *)
Lemma seal_files_frame req mt s s' r q :
  TierLaws (sr_Store req) → seal_files req mt s = (s', r) →
  q ≠ tmp_path req → q ≠ BloomPath (sr_Store req) (seal_id req) →
  (∃ e, r = Err e) ∨ q ≠ BlockPath (sr_Store req) (seal_id req) → files s' !! q = files s !! q.
Proof.
  intros Hlaws E Ht Hbl Hq. unfold seal_files, st_bind, st_wrap, st_ret in E.
  destruct (write_block_file _ _ _ _ s) as [s1 [x|e]] eqn:E1;
    apply (keeps_write_block_file q) in E1; try done; [|by injection E as <- _].
  destruct (write_bloom_file _ _ _ _ s1) as [s2 [[]|e]] eqn:E2;
    apply (keeps_write_bloom_file q) in E2; try done; [|injection E as <- _; congruence].
  destruct (or_remove _ _ s2) as [s3 [[]|e]] eqn:E3.
  - injection E as <- <-. destruct Hq as [[e ?]|Hq]; [done|].
    apply or_remove_ok, Put_ok in E3 as (c & _ & ->). rewrite lookup_insert_ne, lookup_delete_ne by done. congruence.
  - injection E as <- _. apply (or_remove_err _ _ _ _ _ q) in E3 as (s4 & E3%Put_err & E4).
    + congruence.
    + by rewrite not_elem_of_cons, list_elem_of_singleton.
Qed.

(** What the index chunks and the batch do to the store. *)
Definition sealed_db (req : SealRequest) (m : gmap bytes bytes) : gmap bytes bytes :=
  sealed_view (sr_Shard req) (seal_id req) (sealed_meta req) (expiry_hour req)
    (put_idx (sr_EventType req) (UniqueKeyHashes (Sort (sr_Memtable req))) (seal_id req) m).

(** However [Seal] ends: nothing but index entries was added to the store, or
    the whole block was registered, and then both files are in place. *)
Lemma Seal_cases req w w' r :
  TierLaws (sr_Store req) → sealreq_ok req → Seal req w = (w', r) →
  ((∃ e, r = Err e) ∧
   ∃ n, view (db w') = put_idx (sr_EventType req)
          (take n (UniqueKeyHashes (Sort (sr_Memtable req)))) (seal_id req) (view (db w))) ∨
  (on_disk req (files (fs w')) ∧ view (db w') = sealed_db req (view (db w))).
Proof.
  intros Hlaws Hok E. unfold Seal, st_bind in E.
  set (mt := Sort (sr_Memtable req)) in *.
  destruct (on_fs (seal_files req mt) w) as [w1 [[footer size]|e]] eqn:E1;
    apply on_fs_inv in E1 as [E1 D1].
  2: { injection E as <- <-. left. split; [by eexists|]. exists 0%nat. by rewrite D1. }
  apply seal_files_ok in E1 as (Hdisk & Hmeta & _); try done. rewrite Hmeta in E.
  set (c := if _ <=? 0 then _ else _) in E.
  assert (0 < c) as Hc by (subst c; destruct (Z.leb_spec (sr_IdxChunkSize req) 0);
                           [vm_compute; done|lia]).
  destruct (on_db (put_idx_chunks _ _ _ _ _ _) w1) as [w2 [[]|e]] eqn:E2;
    apply on_db_inv in E2 as [E2 F2].
  2: { injection E as <- <-. left. split; [by eexists|].
       apply put_idx_chunks_any in E2 as [n E2]; [|lia|done]. exists n. by rewrite E2, D1. }
  apply put_idx_chunks_ok in E2; [|lia|done]. cbn [drop Z.to_nat] in E2. rewrite drop_0 in E2.
  destruct (on_db (SealBatch _ _ _ _) w2) as [w3 [[]|e]] eqn:E3; apply on_db_inv in E3 as [E3 F3].
  - injection E as <- <-. right. apply SealBatch_ok in E3. rewrite F3, F2.
    split; [done|]. by rewrite E3, E2, D1.
  - injection E as <- <-. apply SealBatch_any in E3 as [E3|E3].
    + left. split; [by eexists|]. exists (length (UniqueKeyHashes mt)).
      by rewrite take_ge, E3, E2, D1 by done.
    + right. rewrite F3, F2. split; [done|]. by rewrite E3, E2, D1.
Qed.

Lemma put_idx_wal_ok et hs id m :
  is_u8 et → Forall is_u64 hs → wal_ok m → wal_ok (put_idx et hs id m).
Proof.
  intros He Hh Hm. pose proof Hm as [Hdb _].
  eapply wal_ok_other; [done|by apply put_idx_ok| |].
  - intros s q v _ _. by rewrite put_idx_other by auto with bbdb.
  - intros s. apply put_idx_other. auto with bbdb.
Qed.

Lemma put_idx_log et hs id m s :
  is_u16 s → is_u8 et → Forall is_u64 hs → db_ok m →
  wal_log s (put_idx et hs id m) = wal_log s m.
Proof.
  intros Hs He Hh Hm. apply wal_log_ext; [done|done|by apply put_idx_ok|].
  intros q Hq. apply put_idx_other. auto with bbdb.
Qed.

Lemma unique_hashes_u64 req :
  sealreq_ok req → Forall is_u64 (UniqueKeyHashes (Sort (sr_Memtable req))).
Proof.
  intros (_ & _ & _ & _ & Hr & _). unfold UniqueKeyHashes. rewrite map_order_perm.
  apply Forall_forall. intros h Hh. rewrite elem_of_remove_dups in Hh. revert h Hh.
  apply Forall_forall, rows_hashes; auto using Sort_ok, Sort_events.
Qed.

(** *** On a calm disk every step succeeds *)
Lemma onerr_runs {A} ps (g : ST FS A) s s' a : g s = (s', Ok a) → or_remove ps g s = (s', Ok a).
Proof. unfold or_remove, st_onerr. by intros ->. Qed.

Lemma write_block_file_runs tmp dir hdr mt m :
  ∃ m' r, write_block_file tmp dir hdr mt (mkFS m []) = (mkFS m' [], Ok r) ∧ is_Some (m' !! tmp).
Proof.
  unfold write_block_file, or_remove, st_onerr, st_wrap, st_bind, WriteBlockBody, MkdirAll, Create,
    Write, Sync, StatSize, st_bind, syscall, next_call, st_ret, set_files, append_file.
  cbn [sched files]. rewrite lookup_insert_eq. eexists _, _. split; [reflexivity|].
  rewrite lookup_insert_eq. by eexists.
Qed.

Lemma write_bloom_file_runs tmp bloom mt fpr data m :
  Serialize (BuildBloomFromMemtable mt fpr) = Ok data → tmp ≠ bloom → is_Some (m !! tmp) →
  ∃ m', write_bloom_file tmp bloom mt fpr (mkFS m []) = (mkFS m' [], Ok tt) ∧ is_Some (m' !! tmp).
Proof.
  intros Hs Hne Hm.
  unfold write_bloom_file, or_remove, st_onerr, st_wrap, st_bind, of_result. rewrite Hs.
  unfold MkdirAll, Create, Write, Sync, syscall, next_call, st_ret, set_files, append_file.
  cbn [sched files]. eexists. split; [reflexivity|]. by rewrite !lookup_insert_ne.
Qed.

Lemma seal_files_runs req mt data s :
  TierLaws (sr_Store req) → sealreq_ok req → sched s = [] →
  Serialize (BuildBloomFromMemtable mt (sr_BloomFPR req)) = Ok data →
  ∃ s' r, seal_files req mt s = (s', Ok r) ∧ sched s' = [].
Proof.
  intros Hlaws Hok Hs Hser. pose proof (seal_id_ok req Hok) as Hid.
  destruct (tmp_path_shape req Hok) as [p Hp].
  destruct (tmp_path_ne (ts := sr_Store req) (seal_id req) p Hid) as [_ Hm]. rewrite <- Hp in Hm.
  destruct s as [m sc]. cbn in Hs. subst sc. unfold seal_files.
  destruct (write_block_file_runs (tmp_path req) (sr_TmpDir req) (seal_header req mt) mt m)
    as (m1 & r & E1 & Hm1). unfold st_bind at 1. rewrite E1.
  destruct (write_bloom_file_runs (tmp_path req) (BloomPath (sr_Store req) (seal_id req)) mt
              (sr_BloomFPR req) data m1 Hser) as (m2 & E2 & Hm2); [congruence|done|].
  unfold st_bind at 1. rewrite E2.
  destruct (Put_runs (ts := sr_Store req) (seal_id req) (tmp_path req) (mkFS m2 [])) as (s3 & E3 & Hs3);
    [done|done|]. unfold st_bind, st_wrap. rewrite (onerr_runs _ _ _ _ _ E3). eauto.
Qed.

(** Sealing succeeds when the store, the disk and the filter's encoder work. *)
Lemma Seal_runs W req w w' r data :
  TierLaws (sr_Store req) → sealreq_ok req → writes_work W → W (db w) → sched (fs w) = [] →
  Serialize (BuildBloomFromMemtable (Sort (sr_Memtable req)) (sr_BloomFPR req)) = Ok data →
  Seal req w = (w', r) → r = Ok (seal_id req) ∧ W (db w') ∧ sched (fs w') = [].
Proof.
  intros Hlaws Hok HW Hw Hs Hser. unfold Seal, st_bind, on_fs.
  destruct (seal_files_runs req _ data (fs w) Hlaws Hok Hs Hser) as (s1 & [footer size] & E1 & Hs1).
  rewrite E1. set (c := if _ <=? 0 then _ else _).
  assert (0 < c) as Hc by (subst c; destruct (Z.leb_spec (sr_IdxChunkSize req) 0);
                           [vm_compute; done|lia]).
  unfold on_db. cbn [db fs].
  destruct (works_put_idx_chunks W (length (UniqueKeyHashes (Sort (sr_Memtable req))))
              (sr_EventType req) 0 c (UniqueKeyHashes (Sort (sr_Memtable req))) (seal_id req) HW)
    with (s := db w) as (d1 & [] & E2 & Hw1); [lia|done|unfold zlen; lia|done|]. rewrite E2. cbn [db fs].
  destruct (works_pwrite_batch W (seal_ops (sr_Shard req) (seal_id req) (seal_meta req size footer)
              (expiry_hour req)) [] HW d1 Hw1) as (d2 & [] & E3 & Hw2).
  unfold SealBatch. rewrite E3. unfold st_ret. by intros [= <- <-].
Qed.

(** However [Seal] ends, seen through the logs, the metadata and the files. *)
Lemma Seal_outcome req w w' r :
  TierLaws (sr_Store req) → sealreq_ok req → wal_ok (view (db w)) → Seal req w = (w', r) →
  wal_ok (view (db w')) ∧
  (((∃ e, r = Err e) ∧
    (∀ s, is_u16 s → wal_log s (view (db w')) = wal_log s (view (db w))) ∧
    (∀ id, view (db w') !! BlockKey id = view (db w) !! BlockKey id)) ∨
   (on_disk req (files (fs w')) ∧
    (∀ s, is_u16 s → wal_log s (view (db w'))
                     = if decide (s = sr_Shard req) then [] else wal_log s (view (db w))) ∧
    view (db w') !! BlockKey (seal_id req) = Some (encodeBlockMeta (sealed_meta req)) ∧
    decodeBlockMeta (encodeBlockMeta (sealed_meta req)) = Ok (sealed_meta req) ∧
    expires (expiry_hour req) (seal_id req) (view (db w')) ∧
    ∀ e, e ∈ Rows (sr_Memtable req) →
         indexed (sr_EventType req) (KeyHash e) (seal_id req) (view (db w')))).
Proof.
  intros Hlaws Hok Hwal E. pose proof Hwal as [Hdb _].
  pose proof (unique_hashes_u64 req Hok) as Hu. pose proof Hok as (Hs & He & _ & _ & Hr & Hm).
  assert (is_u64 (expiry_hour req)) as Hx by apply u64_range.
  apply Seal_cases in E as [(Herr & n & Hv)|(Hdisk & Hv)]; [..|done|done]; rewrite Hv.
  - assert (Forall is_u64 (take n (UniqueKeyHashes (Sort (sr_Memtable req))))) by by apply Forall_take.
    split; [by apply put_idx_wal_ok|]. left. split; [done|]. split.
    + intros s Hs'. by apply put_idx_log.
    + intros id. apply put_idx_other. auto with bbdb.
  - unfold sealed_db. split; [by apply sealed_view_wal_ok, put_idx_wal_ok|]. right.
    split; [done|]. split; [|split; [apply sealed_view_block|split]].
    + intros s Hs'. rewrite sealed_view_log by auto using put_idx_ok.
      destruct (decide _); [done|]. by apply put_idx_log.
    + by apply decode_encodeBlockMeta, sealed_meta_ok.
    + split; [apply sealed_view_expires|]. intros e Hin. unfold indexed.
      rewrite sealed_view_other by auto with bbdb. apply indexed_put_idx; [|done|left].
      * rewrite Forall_forall in Hr. by apply Hr.
      * split; [done|]. split; [|done]. rewrite elem_of_UniqueKeyHashes.
        rewrite (mt_of_Rows _ (Sort_ok (sr_Memtable req))). simpl.
        apply list_elem_of_In, in_map, list_elem_of_In. by rewrite Sort_perm.
Qed.

(** C9: Sealing is crash safe: whichever of its system calls and store
    operations fail, either it returned an error, every write-ahead log and
    every block's metadata are as before; or the block and bloom files are
    complete in place, the shard's log (and no other) is truncated, and
    metadata, expiry and an index entry for every key of the table are
    recorded.  When store and disk work and the bloom filter can be encoded,
    it returns the block's identifier. *)
Theorem Seal_crash_safe W req w w' r :
  TierLaws (sr_Store req) → sealreq_ok req → wal_ok (view (db w)) → Seal req w = (w', r) →
  wal_ok (view (db w')) ∧
  (writes_work W → W (db w) → sched (fs w) = [] →
   (∃ data, Serialize (BuildBloomFromMemtable (Sort (sr_Memtable req)) (sr_BloomFPR req)) = Ok data) →
   r = Ok (seal_id req)) ∧
  (((∃ e, r = Err e) ∧
    (∀ s, is_u16 s → wal_log s (view (db w')) = wal_log s (view (db w))) ∧
    (∀ id, view (db w') !! BlockKey id = view (db w) !! BlockKey id)) ∨
   (on_disk req (files (fs w')) ∧
    (∀ s, is_u16 s → wal_log s (view (db w'))
                     = if decide (s = sr_Shard req) then [] else wal_log s (view (db w))) ∧
    view (db w') !! BlockKey (seal_id req) = Some (encodeBlockMeta (sealed_meta req)) ∧
    decodeBlockMeta (encodeBlockMeta (sealed_meta req)) = Ok (sealed_meta req) ∧
    expires (expiry_hour req) (seal_id req) (view (db w')) ∧
    ∀ e, e ∈ Rows (sr_Memtable req) →
         indexed (sr_EventType req) (KeyHash e) (seal_id req) (view (db w')))).
Proof.
  intros Hlaws Hok Hwal E. destruct (Seal_outcome req w w' r Hlaws Hok Hwal E) as [Hw' Hout].
  split; [done|]. split; [|done]. intros HW Hw Hs [data Hser].
  by destruct (Seal_runs W req w w' r data Hlaws Hok HW Hw Hs Hser E).
Qed.

(** What [Seal] does on disk is what its first four steps do. *)
Lemma Seal_fs req w w' r :
  Seal req w = (w', r) → ∃ r', seal_files req (Sort (sr_Memtable req)) (fs w) = (fs w', r').
Proof.
  intros E. unfold Seal, st_bind in E.
  destruct (on_fs _ w) as [w1 [[footer size]|e]] eqn:E1; apply on_fs_inv in E1 as [E1 _].
  - eexists. rewrite E1. f_equal.
    destruct (on_db _ w1) as [w2 [[]|e]] eqn:E2; apply on_db_inv in E2 as [_ E2];
      [|injection E as <- _; congruence].
    destruct (on_db _ w2) as [w3 [[]|e]] eqn:E3; apply on_db_inv in E3 as [_ E3];
      injection E as <- _; congruence.
  - eexists. rewrite E1. by injection E as <- _.
Qed.

(** Sealing touches no file of another block, whatever it returns. *)
Theorem Seal_isolates_blocks req w w' r id' :
  TierLaws (sr_Store req) → sealreq_ok req → Seal req w = (w', r) →
  block_id_ok id' → id' ≠ seal_id req →
  files (fs w') !! BlockPath (sr_Store req) id' = files (fs w) !! BlockPath (sr_Store req) id' ∧
  files (fs w') !! BloomPath (sr_Store req) id' = files (fs w) !! BloomPath (sr_Store req) id'.
Proof.
  intros Hlaws Hok E Hid' Hne. pose proof (seal_id_ok req Hok) as Hid.
  destruct (tmp_path_shape req Hok) as [p Hp].
  destruct (tmp_path_ne (ts := sr_Store req) id' p Hid') as [Ht1 Ht2]. rewrite <- Hp in *.
  destruct (Seal_fs req w w' r E) as [r' Ef].
  split; eapply seal_files_frame; eauto.
  - by apply block_bloom_path.
  - right. intros Heq. by apply Hne, (block_path_inj (ts := sr_Store req)).
  - intros Heq. by apply Hne, (bloom_path_inj (ts := sr_Store req)).
  - right. apply not_eq_sym. by apply block_bloom_path.
Qed.
End seal_props.

(** ** An hour's block of shard 0x0107 *)
Definition sample_request : SealRequest := {|
  sr_Store := local_tier hot_store; sr_TmpDir := b!"/tmp"; sr_Shard := 263; sr_EventType := 1;
  sr_OpenedAt := 3 * Hour; sr_SealedAt := 3 * Hour + 5 * Second;
  sr_Memtable := Append (Append NewMemtable (mkEvent 9 70 [1; 2])) (mkEvent 4 60 []);
  sr_Retention := 720 * Hour; sr_BloomFPR := 0; sr_IdxChunkSize := 1;
|}.

Lemma sample_request_ok : sealreq_ok sample_request.
Proof.
  split; [by vm_compute|]. split; [by vm_compute|]. split; [by vm_compute|].
  split; [by vm_compute|]. split; [|by vm_compute].
  change (Rows (sr_Memtable sample_request)) with [mkEvent 9 70 [1; 2]; mkEvent 4 60 []].
  repeat (apply Forall_cons; split); try apply Forall_nil_2;
    (split; [by vm_compute|split; [by vm_compute|split; [|by vm_compute]]]);
    repeat (apply Forall_cons; split; [by vm_compute|]); apply Forall_nil_2.
Qed.

(** The world after the seal. *)
Definition sealed_world : World * result BlockID := Seal sample_request empty_world.

Lemma Seal_crash_safe_witness :
  sealed_world.2 = Ok sample_id ∧ indexed 1 9 sample_id (view (db sealed_world.1)).
Proof.
  split; [vm_compute; reflexivity|].
  destruct (Seal_crash_safe calm sample_request empty_world sealed_world.1 sealed_world.2)
    as (_ & Hruns & [[[e He] _]|(_ & _ & _ & _ & _ & Hidx)]).
  - apply LocalTierLaws.
  - exact sample_request_ok.
  - exact wal_ok_empty.
  - apply surjective_pairing.
  - exfalso. rewrite Hruns in He; [discriminate He|exact calm_writes|reflexivity|reflexivity|].
    eexists. vm_compute. reflexivity.
  - apply (Hidx (mkEvent 9 70 [1; 2])). vm_compute. left.
Defined.

(** Sealing the same shard's block of another hour leaves this one's files. *)
Definition next_request : SealRequest := {|
  sr_Store := local_tier hot_store; sr_TmpDir := b!"/tmp"; sr_Shard := 263; sr_EventType := 1;
  sr_OpenedAt := 4 * Hour; sr_SealedAt := 4 * Hour; sr_Memtable := NewMemtable;
  sr_Retention := 0; sr_BloomFPR := 0; sr_IdxChunkSize := 0;
|}.

Lemma Seal_isolates_blocks_witness :
  files (fs (Seal next_request sealed_world.1).1) !! BloomPath (local_tier hot_store) sample_id
  = files (fs sealed_world.1) !! BloomPath (local_tier hot_store) sample_id.
Proof.
  apply (Seal_isolates_blocks next_request sealed_world.1 (Seal next_request sealed_world.1).1
           (Seal next_request sealed_world.1).2 sample_id).
  - apply LocalTierLaws.
  - do 4 (split; [by vm_compute|]). split; [apply Forall_nil_2|by vm_compute].
  - apply surjective_pairing.
  - exact sample_id_ok.
  - vm_compute. discriminate.
Defined.

(** A retention of whole hours is kept exactly through the [float64]
    conversion, however long; zero means five years, and so does any positive
    retention below one hour that is a whole number of minutes. *)
Theorem retention_hours_values k :
  0 < k < 2 ^ 53 → retention_hours (k * Hour) = k ∧
  retention_hours 0 = 43800 ∧
  ∀ m, 0 < m < 60 → retention_hours (m * Minute) = 43800.
Proof.
  intros Hk. split; [|split; [vm_compute; reflexivity|]].
  - unfold retention_hours. rewrite Hours_whole by done. destruct (Z.eqb_spec k 0); [lia|done].
  - intros m Hm.
    assert (forallb (fun m => retention_hours (m * Minute) =? 43800) (seqZ 1 59) = true) as HF
      by (vm_compute; reflexivity).
    rewrite forallb_forall in HF. apply Z.eqb_eq, HF, list_elem_of_In, elem_of_seqZ. lia.
Qed.

Lemma retention_hours_values_witness : retention_hours (720 * Hour) = 720.
Proof. apply (retention_hours_values 720). lia. Defined.
