(* ===== verification/RingBuf.v ===== *)
(** * The ring buffer: [internal/ingestion/ringbuf.go]

    First the operations run one at a time, with the queue they implement;
    then the concurrent machine: each atomic access of [Push] and [Pop] is a
    step, producers and the consumer interleave.  Go's atomics are
    sequentially consistent and order the accesses to the slots between them,
    so interleaving steps is the right semantics. *)
From S2P Require Import Prelude Event.

Record RingBuf := mkRing {
  buf : list Event;
  mask : Z;
  head : Z;
  tail : Z;
}.

Definition zero_event : Event := mkEvent 0 0 [].

(** [for p < n { p <<= 1 }] on 64-bit [int]; [None] when [fuel] rounds are not
    enough. *)
Fixpoint nextPow2_loop (fuel : nat) (n p : Z) : option Z :=
  if p <? n then
    match fuel with O => None | S fuel => nextPow2_loop fuel n (i64 (Z.shiftl p 1)) end
  else Some p.

Definition nextPow2 (fuel : nat) (n : Z) : option Z :=
  if n <=? 1 then Some 1 else nextPow2_loop fuel n 1.

(** 63 doublings reach any capacity that can be reached. *)
Definition pow2_fuel : nat := 63.

Definition NewRingBuf (capacity : Z) : option RingBuf :=
  match nextPow2 pow2_fuel capacity with
  | Some size => Some (mkRing (replicate (Z.to_nat size) zero_event) (u64 (size - 1)) 0 0)
  | None => None
  end.

(** One round of the loop of [Push]: [None] when the buffer is full. *)
Definition push_round (rb : RingBuf) (e : Event) : option RingBuf :=
  let head := head rb in
  let tail := tail rb in
  if u64 (head - tail) <? u64 (zlen (buf rb)) then
    Some (mkRing (<[Z.to_nat (Z.land head (mask rb)) := e]> (buf rb)) (mask rb) (u64 (head + 1)) tail)
  else None.

(** [Push] with nobody else running: full and not canceled, it spins ([None]). *)
Definition Push (canceled : bool) (rb : RingBuf) (e : Event) : option (RingBuf * result unit) :=
  match push_round rb e with
  | Some rb' => Some (rb', Ok tt)
  | None => if canceled then Some (rb, Err ECanceled) else None
  end.

Definition Pop (rb : RingBuf) : RingBuf * option Event :=
  if tail rb =? head rb then (rb, None)
  else
    let e := nth (Z.to_nat (Z.land (tail rb) (mask rb))) (buf rb) zero_event in
    (mkRing (buf rb) (mask rb) (head rb) (u64 (tail rb + 1)), Some e).

(** Pops until empty; [None] when [fuel] pops were not enough. *)
Fixpoint drain (fuel : nat) (rb : RingBuf) (out : list Event) : option (RingBuf * list Event) :=
  match Pop rb with
  | (rb', None) => Some (rb', out)
  | (rb', Some e) => match fuel with O => None | S fuel => drain fuel rb' (out ++ [e]) end
  end.

(** With no producer running, a buffer holds at most its capacity. *)
Definition DrainAll (rb : RingBuf) : option (RingBuf * list Event) := drain (length (buf rb)) rb [].

Definition RingLen (rb : RingBuf) : Z := i64 (u64 (head rb - tail rb)).

(** ** Capacity *)

Lemma nextPow2_loop_spec fuel n k :
  (k <= 62)%nat → 2 ^ Z.of_nat k < 2 * n → n <= 2 ^ 62 → (62 - k <= fuel)%nat → 1 < n →
  ∃ j, (j <= 62)%nat ∧ nextPow2_loop fuel n (2 ^ Z.of_nat k) = Some (2 ^ Z.of_nat j) ∧
       n <= 2 ^ Z.of_nat j < 2 * n.
Proof.
  revert k. induction fuel as [|fuel IH]; intros k Hk Hlt Hn Hf H1; cbn [nextPow2_loop].
  - assert (k = 62%nat) as -> by lia. change (2 ^ Z.of_nat 62) with (2 ^ 62) in *.
    destruct (Z.ltb_spec (2 ^ 62) n); [lia|]. exists 62%nat. split; [lia|]. split; [done|].
    change (Z.of_nat 62) with 62. lia.
  - destruct (Z.ltb_spec (2 ^ Z.of_nat k) n) as [Hp|Hp].
    2: { exists k. split; [done|]. split; [done|]. lia. }
    assert (k < 62)%nat.
    { destruct (decide (k = 62%nat)) as [->|]; [|lia]. change (Z.of_nat 62) with 62 in Hp. lia. }
    assert (2 ^ Z.of_nat (S k) = 2 * 2 ^ Z.of_nat k) as HS
      by (rewrite Nat2Z.inj_succ, Z.pow_succ_r by lia; done).
    assert (2 ^ Z.of_nat (S k) <= 2 ^ 62) by (apply Z.pow_le_mono_r; lia).
    rewrite Z.shiftl_mul_pow2, Z.pow_1_r, Z.mul_comm, <- HS, i64_id
      by (try lia; unfold is_i64; lia).
    apply IH; try lia.
Qed.

(** The capacity is the least power of two that is enough. *)
Lemma nextPow2_spec n :
  n <= 2 ^ 62 →
  ∃ j, (j <= 62)%nat ∧ nextPow2 pow2_fuel n = Some (2 ^ Z.of_nat j) ∧
       Z.max n 1 <= 2 ^ Z.of_nat j < 2 * Z.max n 1.
Proof.
  intros Hn. unfold nextPow2. destruct (Z.leb_spec n 1).
  - exists 0%nat. split; [lia|]. split; [done|]. simpl. lia.
  - destruct (nextPow2_loop_spec pow2_fuel n 0) as (j & Hj & E & Hb);
      [lia|change (2 ^ Z.of_nat 0) with 1; lia|done|unfold pow2_fuel; lia|done|].
    exists j. split; [done|]. split; [done|]. lia.
Qed.

(** Above 2^62 the shift overflows and the loop never ends. *)
Lemma nextPow2_loop_zero fuel n : 0 < n → nextPow2_loop fuel n 0 = None.
Proof.
  intros Hn. induction fuel as [|fuel IH]; cbn [nextPow2_loop].
  - destruct (Z.ltb_spec 0 n); [done|lia].
  - destruct (Z.ltb_spec 0 n); [|lia]. exact IH.
Qed.

Lemma nextPow2_loop_diverges fuel n k :
  2 ^ 62 < n → (k <= 62)%nat → nextPow2_loop fuel n (2 ^ Z.of_nat k) = None.
Proof.
  intros Hn. revert k. induction fuel as [|fuel IH]; intros k Hk; cbn [nextPow2_loop];
    (assert (2 ^ Z.of_nat k <= 2 ^ 62) by (apply Z.pow_le_mono_r; lia));
    (destruct (Z.ltb_spec (2 ^ Z.of_nat k) n); [|lia]); [done|].
  assert (Z.shiftl (2 ^ Z.of_nat k) 1 = 2 ^ Z.of_nat (S k)) as ->.
  { rewrite Z.shiftl_mul_pow2, Nat2Z.inj_succ, Z.pow_succ_r by lia. lia. }
  destruct (decide (k = 62%nat)) as [->|].
  - change (i64 (2 ^ Z.of_nat 63)) with (- 2 ^ 63).
    destruct fuel as [|fuel]; cbn [nextPow2_loop];
      (destruct (Z.ltb_spec (- 2 ^ 63) n); [|lia]); [done|].
    change (i64 (Z.shiftl (- 2 ^ 63) 1)) with 0. apply nextPow2_loop_zero. lia.
  - rewrite i64_id; [apply IH; lia|]. unfold is_i64.
    assert (2 ^ Z.of_nat (S k) <= 2 ^ 62) by (apply Z.pow_le_mono_r; lia). lia.
Qed.

(** The capacity is the least power of two not below the requested one
    (at least one); the rounding loop terminates exactly for requests up to
    2^62, above it spins forever. *)
Theorem nextPow2_correct n fuel :
  (n <= 2 ^ 62 → ∃ j, nextPow2 pow2_fuel n = Some (2 ^ Z.of_nat j) ∧
                      Z.max n 1 <= 2 ^ Z.of_nat j < 2 * Z.max n 1) ∧
  (2 ^ 62 < n → nextPow2 fuel n = None).
Proof.
  split.
  - intros Hn. destruct (nextPow2_spec n Hn) as (j & _ & E & Hb). eauto.
  - intros Hn. unfold nextPow2. destruct (Z.leb_spec n 1); [lia|].
    apply (nextPow2_loop_diverges fuel n 0); lia.
Qed.

Lemma nextPow2_correct_witness :
  nextPow2 pow2_fuel 16000 = Some 16384 ∧ nextPow2 1000 (2 ^ 62 + 1) = None.
Proof.
  split; [vm_compute; reflexivity|]. apply (nextPow2_correct (2 ^ 62 + 1) 1000).
  lia.
Defined.

(** ** The queue a buffer represents

    [ring_rep k rb all p]: [rb] has 2^k slots; [all] are the events pushed so
    far, of which [p] have been popped.  The counters are the numbers of
    pushes and pops modulo 2^64. *)
Definition slot (k i : nat) : nat := (i mod 2 ^ k)%nat.

Record ring_rep (k : nat) (rb : RingBuf) (all : list Event) (p : nat) : Prop := {
  rep_k : (k <= 62)%nat;
  rep_buf : length (buf rb) = (2 ^ k)%nat;
  rep_mask : mask rb = Z.ones (Z.of_nat k);
  rep_head : head rb = u64 (Z.of_nat (length all));
  rep_tail : tail rb = u64 (Z.of_nat p);
  rep_le : (p <= length all)%nat;
  rep_cap : (length all - p <= 2 ^ k)%nat;
  rep_slots i e : (p <= i)%nat → all !! i = Some e → buf rb !! slot k i = Some e;
}.

Lemma pow2_nat_pos k : (0 < 2 ^ k)%nat.
Proof. apply Nat.neq_0_lt_0, Nat.pow_nonzero. lia. Qed.

Lemma pow2_nat_Z k : Z.of_nat (2 ^ k) = 2 ^ Z.of_nat k.
Proof. by rewrite Nat2Z.inj_pow. Qed.

Lemma pow2_lt_64 k : (k <= 62)%nat → 2 ^ Z.of_nat k < 2 ^ 64.
Proof. intros Hk. apply Z.pow_lt_mono_r; lia. Qed.

(** The slot of a counter: masking the wrapped counter is reducing the number. *)
Lemma land_slot k i :
  (k <= 62)%nat → Z.to_nat (Z.land (u64 (Z.of_nat i)) (Z.ones (Z.of_nat k))) = slot k i.
Proof.
  intros Hk. rewrite Z.land_ones by lia. unfold u64, slot.
  assert (2 ^ 64 = 2 ^ (64 - Z.of_nat k) * 2 ^ Z.of_nat k) as ->
    by (rewrite <- Z.pow_add_r by lia; f_equal; lia).
  rewrite (Z.mul_comm (2 ^ (64 - _))), Z.rem_mul_r, Z.mul_comm, Z.mod_add, Z.mod_mod
    by (try apply Z.pow_nonzero; try apply Z.pow_pos_nonneg; lia).
  rewrite <- pow2_nat_Z, <- Nat2Z.inj_mod. apply Nat2Z.id.
Qed.

Lemma slot_lt k i : (slot k i < 2 ^ k)%nat.
Proof. apply Nat.mod_upper_bound. pose proof (pow2_nat_pos k). lia. Qed.

Lemma slot_ne k i j : (i < j)%nat → (j - i < 2 ^ k)%nat → slot k i ≠ slot k j.
Proof.
  unfold slot. intros Hij Hd E. pose proof (Nat.div_mod_eq i (2 ^ k)).
  pose proof (Nat.div_mod_eq j (2 ^ k)). pose proof (pow2_nat_pos k).
  assert (2 ^ k * (i / 2 ^ k) < 2 ^ k * (j / 2 ^ k))%nat as Hlt by lia.
  apply Nat.mul_lt_mono_pos_l in Hlt; [|done]. nia.
Qed.

(** A difference of counters below 2^64 is exact. *)
Lemma u64_sub a b : (b <= a)%nat → Z.of_nat (a - b) < 2 ^ 64 →
  u64 (u64 (Z.of_nat a) - u64 (Z.of_nat b)) = Z.of_nat (a - b).
Proof.
  intros Hab Hlt. unfold u64. rewrite <- Zminus_mod, <- Nat2Z.inj_sub by done.
  apply Z.mod_small. lia.
Qed.

Lemma u64_succ a : u64 (u64 (Z.of_nat a) + 1) = u64 (Z.of_nat (S a)).
Proof. unfold u64. rewrite Z.add_mod_idemp_l by lia. f_equal. lia. Qed.

Lemma u64_eq_iff a b : (b <= a)%nat → Z.of_nat (a - b) < 2 ^ 64 →
  u64 (Z.of_nat b) = u64 (Z.of_nat a) ↔ a = b.
Proof.
  intros Hab Hlt. split; [|by intros ->]. intros E. pose proof (u64_sub a b Hab Hlt) as Hs.
  rewrite E, Z.sub_diag in Hs. change (u64 0) with 0 in Hs. lia.
Qed.

Lemma rep_room k rb all p (n : nat) :
  ring_rep k rb all p → (n <= p)%nat → (length all - n <= 2 ^ k)%nat →
  (u64 (u64 (Z.of_nat (length all)) - u64 (Z.of_nat n)) <? u64 (zlen (buf rb))) = true →
  (length all - p < 2 ^ k)%nat.
Proof.
  intros R Hn Hcap. pose proof (rep_le _ _ _ _ R). pose proof (pow2_lt_64 k (rep_k _ _ _ _ R)).
  assert (Z.of_nat (length all - n) <= 2 ^ Z.of_nat k) by (rewrite <- pow2_nat_Z; lia).
  rewrite u64_sub by lia. unfold zlen. rewrite (rep_buf _ _ _ _ R), pow2_nat_Z, u64_id
    by (unfold is_u64; lia).
  intros Hlt%Z.ltb_lt. rewrite <- pow2_nat_Z in Hlt. lia.
Qed.

(** Writing the slot at [head] is invisible until [head] moves. *)
Lemma rep_write k rb all p e :
  ring_rep k rb all p → (length all - p < 2 ^ k)%nat →
  ring_rep k (mkRing (<[slot k (length all) := e]> (buf rb)) (mask rb) (head rb) (tail rb)) all p ∧
  <[slot k (length all) := e]> (buf rb) !! slot k (length all) = Some e.
Proof.
  intros [] Hroom. split.
  - split; cbn [buf mask head tail]; try done; [by rewrite length_insert|].
    intros i e' Hi Hl. rewrite list_lookup_insert_ne; [by apply rep_slots0|].
    apply not_eq_sym, slot_ne; apply lookup_lt_Some in Hl; lia.
  - apply list_lookup_insert_eq. rewrite rep_buf0. apply slot_lt.
Qed.

Lemma rep_publish k rb all p e :
  ring_rep k rb all p → (length all - p < 2 ^ k)%nat → buf rb !! slot k (length all) = Some e →
  ring_rep k (mkRing (buf rb) (mask rb) (u64 (head rb + 1)) (tail rb)) (all ++ [e]) p.
Proof.
  intros [] Hroom Hslot. split; cbn [buf mask head tail]; try done.
  - rewrite rep_head0, u64_succ, length_app. simpl. by rewrite Nat.add_1_r.
  - rewrite length_app. lia.
  - rewrite length_app. simpl. lia.
  - intros i e' Hi Hl. apply lookup_app_Some in Hl as [Hl|[Hge Hl]]; [by apply rep_slots0|].
    apply list_lookup_singleton_Some in Hl as [Hi0 <-]. by replace i with (length all) by lia.
Qed.

Lemma rep_pop k rb all p :
  ring_rep k rb all p → (p < length all)%nat →
  ∃ e, all !! p = Some e ∧ nth (slot k p) (buf rb) zero_event = e ∧
       ring_rep k (mkRing (buf rb) (mask rb) (head rb) (u64 (tail rb + 1))) all (S p).
Proof.
  intros [] Hlt. destruct (lookup_lt_is_Some_2 all p Hlt) as [e He]. exists e. split; [done|].
  split; [apply nth_lookup_Some, rep_slots0; [lia|done]|].
  split; cbn [buf mask head tail]; try done; try lia.
  - by rewrite rep_tail0, u64_succ.
  - intros i e' Hi. apply rep_slots0. lia.
Qed.

(** ** Sequential behaviour *)
Lemma rep_new n rb :
  n <= 2 ^ 62 → NewRingBuf n = Some rb → ∃ k, ring_rep k rb [] 0 ∧ Z.max n 1 <= 2 ^ Z.of_nat k.
Proof.
  intros Hn. destruct (nextPow2_spec n Hn) as (j & Hj & E & Hb). unfold NewRingBuf. rewrite E.
  intros [= <-]. exists j. split; [|lia]. pose proof (pow2_lt_64 j Hj).
  assert (0 < 2 ^ Z.of_nat j) by (apply Z.pow_pos_nonneg; lia).
  split; cbn [buf mask head tail]; try done; try (simpl; lia).
  - by rewrite length_replicate, <- pow2_nat_Z, Nat2Z.id.
  - rewrite u64_id by (unfold is_u64; lia). by rewrite Z.ones_equiv.
Qed.

Lemma Pop_rep k rb all p :
  ring_rep k rb all p →
  match Pop rb with
  | (rb', None) => rb' = rb ∧ p = length all
  | (rb', Some e) => all !! p = Some e ∧ ring_rep k rb' all (S p)
  end.
Proof.
  intros R. pose proof (pow2_lt_64 k (rep_k _ _ _ _ R)).
  assert (Z.of_nat (length all - p) < 2 ^ 64).
  { pose proof (rep_cap _ _ _ _ R). pose proof (pow2_nat_Z k). lia. }
  unfold Pop. rewrite (rep_head _ _ _ _ R), (rep_tail _ _ _ _ R).
  destruct (Z.eqb_spec (u64 (Z.of_nat p)) (u64 (Z.of_nat (length all)))) as [Heq|Hne].
  - apply u64_eq_iff in Heq; [done|apply R|done].
  - assert (p < length all)%nat as Hlt.
    { pose proof (rep_le _ _ _ _ R). assert (p ≠ length all); [|lia]. by intros ->. }
    destruct (rep_pop _ _ _ _ R Hlt) as (e & He & Hn & R').
    rewrite (rep_mask _ _ _ _ R), land_slot, Hn by apply R.
    rewrite (rep_head _ _ _ _ R), (rep_tail _ _ _ _ R), (rep_mask _ _ _ _ R) in R'. done.
Qed.

Lemma drain_rep fuel k rb all p out :
  ring_rep k rb all p → (length all - p <= fuel)%nat →
  ∃ rb', drain fuel rb out = Some (rb', out ++ drop p all) ∧ ring_rep k rb' all (length all).
Proof.
  revert rb p out. induction fuel as [|fuel IH]; intros rb p out R Hf; cbn [drain];
    pose proof (Pop_rep _ _ _ _ R) as HP; destruct (Pop rb) as [rb' [e|]].
  - destruct HP as [He%lookup_lt_Some _]. lia.
  - destruct HP as [-> ->]. exists rb. by rewrite drop_all, app_nil_r.
  - destruct HP as [He R']. destruct (IH rb' (S p) (out ++ [e]) R') as (rb2 & E & R2); [lia|].
    exists rb2. rewrite E, (drop_S all e p), <- app_assoc by done. done.
  - destruct HP as [-> ->]. exists rb. by rewrite drop_all, app_nil_r.
Qed.

(** Draining returns everything pending, in order, and always ends. *)
Lemma DrainAll_rep k rb all p :
  ring_rep k rb all p →
  ∃ rb', DrainAll rb = Some (rb', drop p all) ∧ ring_rep k rb' all (length all).
Proof.
  intros R. apply (drain_rep (length (buf rb)) k rb all p []); [done|].
  rewrite (rep_buf _ _ _ _ R). apply R.
Qed.

(** What is in the buffer, oldest first. *)
Definition ring_content (rb : RingBuf) : list Event :=
  match DrainAll rb with Some (_, l) => l | None => [] end.

Definition ring_ok (rb : RingBuf) : Prop := ∃ k all p, ring_rep k rb all p.

Lemma ring_content_rep k rb all p : ring_rep k rb all p → ring_content rb = drop p all.
Proof. intros R. unfold ring_content. by destruct (DrainAll_rep _ _ _ _ R) as (rb' & -> & _). Qed.

Lemma push_round_rep k rb all p e :
  ring_rep k rb all p →
  match push_round rb e with
  | Some rb' => ring_rep k rb' (all ++ [e]) p
  | None => (length all - p = 2 ^ k)%nat
  end.
Proof.
  intros R. unfold push_round. rewrite (rep_head _ _ _ _ R), (rep_tail _ _ _ _ R).
  destruct (_ <? _) eqn:E.
  - apply (rep_room k rb all p p) in E; [|done|done|apply R].
    destruct (rep_write k rb all p e R E) as [R1 Hs].
    apply (rep_publish _ _ _ _ e) in R1; [|done|done]. cbn [buf mask head tail] in R1.
    rewrite (rep_head _ _ _ _ R), (rep_tail _ _ _ _ R) in R1.
    rewrite (rep_mask _ _ _ _ R) in *. rewrite land_slot by apply R. done.
  - pose proof (rep_cap _ _ _ _ R). pose proof (rep_le _ _ _ _ R).
    pose proof (pow2_lt_64 k (rep_k _ _ _ _ R)). pose proof (pow2_nat_Z k) as HZ.
    rewrite u64_sub in E by lia. unfold zlen in E.
    rewrite (rep_buf _ _ _ _ R), HZ, u64_id in E by (unfold is_u64; lia).
    apply Z.ltb_ge in E. lia.
Qed.

(** Pushes of a list, one after the other, on a buffer nobody drains. *)
Fixpoint push_all (rb : RingBuf) (es : list Event) : option RingBuf :=
  match es with
  | [] => Some rb
  | e :: es => match push_round rb e with Some rb' => push_all rb' es | None => None end
  end.

Lemma push_all_rep k p es rb all :
  ring_rep k rb all p → (length all + length es - p <= 2 ^ k)%nat →
  ∃ rb1, push_all rb es = Some rb1 ∧ ring_rep k rb1 (all ++ es) p.
Proof.
  revert rb all. induction es as [|e es IH]; intros rb all R Hl; cbn [push_all].
  - exists rb. by rewrite app_nil_r.
  - pose proof (push_round_rep _ _ _ _ e R) as HP. simpl in Hl. pose proof (rep_le _ _ _ _ R).
    destruct (push_round rb e) as [rb'|]; [|lia].
    destruct (IH rb' (all ++ [e]) HP) as (rb1 & E & R1); [rewrite length_app; simpl; lia|].
    exists rb1. by rewrite <- app_assoc in R1.
Qed.

(** Run one operation at a time the buffer is a bounded FIFO queue: a new
    one is empty and has the requested capacity; as many pushes as it has
    slots succeed, draining then terminates and returns exactly the pushed
    events in order, and leaves the buffer empty.  The drained state may be
    any, so this holds also after the counters have wrapped around 2^64. *)
Theorem RingBuf_fifo n k rb all es :
  n <= 2 ^ 62 → ring_rep k rb all (length all) → (length es <= 2 ^ k)%nat →
  (∃ rb0 k0, NewRingBuf n = Some rb0 ∧ ring_rep k0 rb0 [] 0 ∧ Z.max n 1 <= 2 ^ Z.of_nat k0) ∧
  ∃ rb1 rb2, push_all rb es = Some rb1 ∧ DrainAll rb1 = Some (rb2, es) ∧ Pop rb2 = (rb2, None) ∧
             ring_rep k rb2 (all ++ es) (length (all ++ es)).
Proof.
  intros Hn R Hes. split.
  { destruct (NewRingBuf n) as [rb0|] eqn:E0.
    - destruct (rep_new n rb0 Hn E0) as (k0 & R0 & Hk0). eauto.
    - unfold NewRingBuf in E0. destruct (nextPow2_spec n Hn) as (j & _ & Hj & _). by rewrite Hj in E0. }
  destruct (push_all_rep k (length all) es rb all R) as (rb1 & E1 & R1); [lia|].
  destruct (DrainAll_rep _ _ _ _ R1) as (rb2 & E2 & R2). rewrite drop_app_length in E2.
  exists rb1, rb2. split; [done|]. split; [done|]. split; [|done].
  pose proof (Pop_rep _ _ _ _ R2) as HP. unfold Pop in *.
  destruct (tail rb2 =? head rb2); [done|]. destruct HP as [Hl%lookup_lt_Some _]. lia.
Qed.

Lemma RingBuf_fifo_witness :
  ∃ rb rb1 rb2, NewRingBuf 3 = Some rb ∧ push_all rb [mkEvent 1 2 [3]; mkEvent 4 5 []] = Some rb1 ∧
    DrainAll rb1 = Some (rb2, [mkEvent 1 2 [3]; mkEvent 4 5 []]).
Proof.
  destruct (NewRingBuf 3) as [rb|] eqn:E; [|discriminate E]. injection E as <-.
  destruct (RingBuf_fifo 3 2 (mkRing (replicate 4 zero_event) 3 0 0) []
              [mkEvent 1 2 [3]; mkEvent 4 5 []]) as [_ (rb1 & rb2 & H1 & H2 & _)].
  - lia.
  - split; simpl; try reflexivity; try lia. intros i e _ H. discriminate H.
  - simpl. lia.
  - eexists _, rb1, rb2. split; [reflexivity|]. split; [exact H1|exact H2].
Defined.

(** ** Producers and the consumer, concurrently

    The program counters between the atomic accesses, with the values the
    goroutine has loaded.  A producer runs [Push(ctx, e)]; the consumer runs
    [Pop]. *)
Inductive PState :=
  | PIdle
  | PStart (e : Event)
  | PHead (e : Event) (h : Z)
  | PTail (e : Event) (h t : Z)
  | PWrote (e : Event) (h : Z).

Inductive CState :=
  | CIdle
  | CHead (h : Z)
  | CTail (h t : Z)
  | CRead (t : Z) (e : Event).

(** [returned] are the events whose [Push] returned [nil], in order; [popped]
    the events [Pop] returned. *)
Record cfg := mkCfg {
  ring : RingBuf;
  prods : list PState;
  cons : CState;
  returned : list Event;
  popped : list Event;
}.

(** One access of producer [i], which is at [pc]: what it does to the buffer,
    its next program counter and the event it has pushed, if any. *)
Inductive pstep : PState → RingBuf → RingBuf → PState → list Event → Prop :=
  | p_call e rb : pstep PIdle rb rb (PStart e) []
  | p_load_head e rb : pstep (PStart e) rb rb (PHead e (head rb)) []
  | p_load_tail e h rb : pstep (PHead e h) rb rb (PTail e h (tail rb)) []
  | p_write e h t rb :
      (u64 (h - t) <? u64 (zlen (buf rb))) = true →
      pstep (PTail e h t) rb
        (mkRing (<[Z.to_nat (Z.land h (mask rb)) := e]> (buf rb)) (mask rb) (head rb) (tail rb))
        (PWrote e h) []
  | p_full_retry e h t rb :
      (u64 (h - t) <? u64 (zlen (buf rb))) = false → pstep (PTail e h t) rb rb (PStart e) []
  | p_full_canceled e h t rb :
      (u64 (h - t) <? u64 (zlen (buf rb))) = false → pstep (PTail e h t) rb rb PIdle []
  | p_store_head e h rb :
      pstep (PWrote e h) rb (mkRing (buf rb) (mask rb) (u64 (h + 1)) (tail rb)) PIdle [e].

Inductive cstep : CState → RingBuf → RingBuf → CState → list Event → Prop :=
  | c_load_head rb : cstep CIdle rb rb (CHead (head rb)) []
  | c_load_tail h rb : cstep (CHead h) rb rb (CTail h (tail rb)) []
  | c_empty h t rb : t = h → cstep (CTail h t) rb rb CIdle []
  | c_read h t rb :
      t ≠ h →
      cstep (CTail h t) rb rb (CRead t (nth (Z.to_nat (Z.land t (mask rb))) (buf rb) zero_event)) []
  | c_store_tail t e rb :
      cstep (CRead t e) rb (mkRing (buf rb) (mask rb) (head rb) (u64 (t + 1))) CIdle [e].

Inductive step : cfg → cfg → Prop :=
  | step_prod i pc rb rb' pc' out ps c ret pop :
      ps !! i = Some pc → pstep pc rb rb' pc' out →
      step (mkCfg rb ps c ret pop) (mkCfg rb' (<[i := pc']> ps) c (ret ++ out) pop)
  | step_cons rb rb' c c' out ps ret pop :
      cstep c rb rb' c' out →
      step (mkCfg rb ps c ret pop) (mkCfg rb' ps c' ret (pop ++ out)).

Definition start (rb : RingBuf) (producers : nat) : cfg :=
  mkCfg rb (replicate producers PIdle) CIdle [] [].

(** *** One producer: what each program counter knows *)
Definition prod_inv (k : nat) (rb : RingBuf) (all : list Event) (p : nat) (pc : PState) : Prop :=
  match pc with
  | PIdle | PStart _ => True
  | PHead _ h => h = u64 (Z.of_nat (length all))
  | PTail _ h t => h = u64 (Z.of_nat (length all)) ∧
      ∃ n : nat, t = u64 (Z.of_nat n) ∧ (n <= p)%nat ∧ (length all - n <= 2 ^ k)%nat
  | PWrote e h => h = u64 (Z.of_nat (length all)) ∧ (length all - p < 2 ^ k)%nat ∧
      buf rb !! slot k (length all) = Some e
  end.

Definition cons_inv (k : nat) (all : list Event) (p : nat) (pc : CState) : Prop :=
  match pc with
  | CIdle => True
  | CHead h => ∃ n : nat, h = u64 (Z.of_nat n) ∧ (p <= n <= length all)%nat
  | CTail h t => t = u64 (Z.of_nat p) ∧ ∃ n : nat, h = u64 (Z.of_nat n) ∧ (p <= n <= length all)%nat
  | CRead t e => t = u64 (Z.of_nat p) ∧ all !! p = Some e
  end.

Definition spsc_inv (k : nat) (c : cfg) : Prop :=
  ring_rep k (ring c) (returned c) (length (popped c)) ∧
  popped c = take (length (popped c)) (returned c) ∧
  cons_inv k (returned c) (length (popped c)) (cons c) ∧
  ∃ pc, prods c = [pc] ∧ prod_inv k (ring c) (returned c) (length (popped c)) pc.

(** The buffer of the invariant may be read through any equal counters. *)
Lemma pstep_inv k rb rb' all p pc pc' out :
  pstep pc rb rb' pc' out → ring_rep k rb all p → prod_inv k rb all p pc →
  ring_rep k rb' (all ++ out) p ∧ prod_inv k rb' (all ++ out) p pc'.
Proof.
  intros Hstep R. destruct Hstep as [e rb|e rb|e h rb|e h t rb E|e h t rb E|e h t rb E|e h rb];
    cbn [prod_inv]; rewrite ?app_nil_r.
  - done.
  - intros _. split; [done|]. apply R.
  - intros ->. split; [done|]. split; [done|]. exists p. split; [apply R|]. split; [done|apply R].
  - intros (-> & n & -> & Hn & Hc). apply (rep_room k rb all p n) in E; try done.
    rewrite (rep_mask _ _ _ _ R), land_slot, <- (rep_mask _ _ _ _ R) by apply R.
    destruct (rep_write k rb all p e R E) as [R' Hs]. split; [done|]. done.
  - done.
  - done.
  - intros (-> & Hroom & Hs). split; [|done].
    rewrite <- (rep_head _ _ _ _ R). by apply rep_publish.
Qed.

Lemma cstep_inv k rb rb' all p pc pc' out :
  cstep pc rb rb' pc' out → ring_rep k rb all p → cons_inv k all p pc →
  ring_rep k rb' all (p + length out) ∧ cons_inv k all (p + length out) pc' ∧
  out = take (length out) (drop p all) ∧ buf rb' = buf rb.
Proof.
  intros Hstep R. assert (Z.of_nat (2 ^ k) < 2 ^ 64) as H64
    by (rewrite pow2_nat_Z; apply pow2_lt_64, R).
  pose proof (rep_cap _ _ _ _ R) as Hcap.
  destruct Hstep as [rb|h rb|h t rb E|h t rb E|t e rb]; cbn [cons_inv length];
    rewrite ?Nat.add_0_r.
  - intros _. split; [done|]. split; [|done]. exists (length all).
    split; [apply R|]. split; [apply R|done].
  - intros (n & -> & Hn). split; [done|]. split; [|done]. split; [apply R|]. by exists n.
  - done.
  - intros (-> & n & -> & Hn). split; [done|]. split; [|done]. split; [done|].
    assert (p < length all)%nat as Hlt.
    { assert (p ≠ n); [|lia]. intros ->. by apply E. }
    destruct (rep_pop _ _ _ _ R Hlt) as (e & He & <- & _).
    by rewrite (rep_mask _ _ _ _ R), land_slot by apply R.
  - intros (-> & He). apply lookup_lt_Some in He as Hlt.
    destruct (rep_pop _ _ _ _ R Hlt) as (e' & He' & _ & R'). rewrite Nat.add_1_r.
    rewrite <- (rep_tail _ _ _ _ R). split; [done|]. split; [done|]. split; [|done].
    by rewrite (drop_S _ e).
Qed.

Lemma prod_inv_pop k rb rb' all p p' pc :
  (p <= p')%nat → buf rb' = buf rb → prod_inv k rb all p pc → prod_inv k rb' all p' pc.
Proof.
  intros Hp Hb. destruct pc; cbn [prod_inv]; try done.
  - intros (-> & n & -> & Hn & Hc). split; [done|]. exists n. split; [done|]. split; [lia|done].
  - intros (-> & Hc & Hs). rewrite Hb. split; [done|]. split; [lia|done].
Qed.

Lemma cons_inv_push k all out p pc : cons_inv k all p pc → cons_inv k (all ++ out) p pc.
Proof.
  destruct pc; cbn [cons_inv]; rewrite ?length_app.
  - done.
  - intros (n & -> & Hn). exists n. split; [done|lia].
  - intros (-> & n & -> & Hn). split; [done|]. exists n. split; [done|lia].
  - intros (-> & He). split; [done|]. by apply lookup_app_l_Some.
Qed.

Lemma spsc_step k c c' : spsc_inv k c → step c c' → spsc_inv k c'.
Proof.
  intros (R & Hpop & Hc & pc0 & Hps & Hp) Hstep.
  destruct Hstep as [i pc rb rb' pc' out ps c ret pop Hi Hst|rb rb' c c' out ps ret pop Hst];
    unfold spsc_inv; cbn [ring prods cons returned popped] in *.
  - subst ps. apply list_lookup_singleton_Some in Hi as [-> ->].
    destruct (pstep_inv _ _ _ _ _ _ _ _ Hst R Hp) as [R' Hp']. split; [done|].
    split; [|split; [by apply cons_inv_push|by exists pc']].
    rewrite take_app_le; [done|]. apply R.
  - destruct (cstep_inv _ _ _ _ _ _ _ _ Hst R Hc) as (R' & Hc' & Hout & Hb).
    rewrite length_app. split; [done|]. split; [|split; [done|]].
    + rewrite <- take_take_drop, <- Hout, <- Hpop. done.
    + exists pc0. split; [done|]. eapply prod_inv_pop; [|done|done]. lia.
Qed.

Lemma spsc_start k rb : ring_rep k rb [] 0 → spsc_inv k (start rb 1).
Proof. intros R. split; [done|]. split; [done|]. split; [done|]. by exists PIdle. Qed.

Lemma spsc_reachable k c c' : spsc_inv k c → rtc step c c' → spsc_inv k c'.
Proof. intros Hi Hr. induction Hr; [done|]. eauto using spsc_step. Qed.

(** C14: With one producer and one consumer the buffer is a bounded FIFO queue
    under every interleaving: what was popped is a prefix of what was pushed
    (nothing lost, duplicated or reordered), no more than the capacity is
    pending, and draining at any point returns exactly the rest. *)
Theorem ring_spsc_fifo n rb c :
  n <= 2 ^ 62 → NewRingBuf n = Some rb → rtc step (start rb 1) c →
  ∃ rest rb', returned c = popped c ++ rest ∧ (length rest <= length (buf rb))%nat ∧
              DrainAll (ring c) = Some (rb', rest).
Proof.
  intros Hn Hrb Hreach. destruct (rep_new n rb Hn Hrb) as (k & R & _).
  destruct (spsc_reachable k _ _ (spsc_start k rb R) Hreach) as (R' & Hpop & _).
  destruct (DrainAll_rep _ _ _ _ R') as (rb' & E & _).
  exists (drop (length (popped c)) (returned c)), rb'. split; [|split; [|done]].
  - rewrite <- (take_drop (length (popped c)) (returned c)) at 1. by rewrite <- Hpop.
  - rewrite length_drop, (rep_buf _ _ _ _ R). apply R'.
Qed.

(** One step of producer [i]. *)
Ltac run_prod i t := eapply rtc_l; [eapply (step_prod i); [reflexivity|t]|].

Definition ev_a : Event := mkEvent 1 10 [1].
Definition ev_b : Event := mkEvent 2 20 [2].

(** C34: With two producers, which the buffer does not support, an event can be
    lost although its [Push] returned [nil]: both pushes of a reachable state
    have returned and only one event is in the buffer. *)
Theorem ring_two_producers_lose_event :
  ∃ rb c rb', NewRingBuf 2 = Some rb ∧ rtc step (start rb 2) c ∧
    prods c = [PIdle; PIdle] ∧ returned c = [ev_a; ev_b] ∧ popped c = [] ∧
    DrainAll (ring c) = Some (rb', [ev_b]).
Proof.
  eexists (mkRing [zero_event; zero_event] 1 0 0), _, _. split; [reflexivity|].
  split; [|split; [|split; [|split; [|]]]]; cycle 1.
  5: { unfold start.
    run_prod 0%nat ltac:(apply (p_call ev_a)).
    run_prod 1%nat ltac:(apply (p_call ev_b)).
    run_prod 0%nat ltac:(apply p_load_head).
    run_prod 1%nat ltac:(apply p_load_head).
    run_prod 0%nat ltac:(apply p_load_tail).
    run_prod 1%nat ltac:(apply p_load_tail).
    run_prod 0%nat ltac:(apply p_write; reflexivity).
    run_prod 1%nat ltac:(apply p_write; reflexivity).
    run_prod 0%nat ltac:(apply p_store_head).
    run_prod 1%nat ltac:(apply p_store_head).
    apply rtc_refl. }
  all: vm_compute; reflexivity.
Qed.

Lemma ring_spsc_fifo_witness :
  ∃ rest rb', [ev_a] = [] ++ rest ∧ (length rest <= 2)%nat ∧
    DrainAll (mkRing [ev_a; zero_event] 1 1 0) = Some (rb', rest).
Proof.
  apply (ring_spsc_fifo 2 (mkRing [zero_event; zero_event] 1 0 0)
           (mkCfg (mkRing [ev_a; zero_event] 1 1 0) [PIdle] CIdle [ev_a] [])).
  - lia.
  - reflexivity.
  - unfold start.
    run_prod 0%nat ltac:(apply (p_call ev_a)).
    run_prod 0%nat ltac:(apply p_load_head).
    run_prod 0%nat ltac:(apply p_load_tail).
    run_prod 0%nat ltac:(apply p_write; reflexivity).
    run_prod 0%nat ltac:(apply p_store_head).
    apply rtc_refl.
Defined.
