(* ===== verification/BlockReader.v ===== *)
(** * Reading a block: [internal/query/block_reader.go] *)
From Stdlib Require Import QArith_base.
From S2P Require Import Prelude GoTime GoOs Crc32 Pebble PebbleRef Keys Event Memtable Bloom.
From S2P Require Import Format Tier World Sealer.
#[local] Open Scope Z_scope.

(** [timestamps[i]]: a run-time panic when [i] is out of range. *)
Definition index_at {S A} (l : list A) (i : nat) : ST S A := fun s =>
  match l !! i with
  | Some x => (s, Ok x)
  | None => (s, Err (EPanic "index out of range"))
  end.

(** The loop over [keyHashes]: positions of the rows that match, from row [i] on. *)
Fixpoint match_rows (keyHash fromNano toNano : Z) (timestamps : list Z) (i : nat)
    (keyHashes : list Z) (matchIdx : list nat) : ST FS (list nat) :=
  match keyHashes with
  | [] => st_ret matchIdx
  | kh :: r =>
      if negb (kh =? keyHash) then match_rows keyHash fromNano toNano timestamps (S i) r matchIdx
      else
        let! ts := index_at timestamps i in
        if (fromNano <=? ts) && (ts <? toNano)
        then match_rows keyHash fromNano toNano timestamps (S i) r (matchIdx ++ [i])
        else match_rows keyHash fromNano toNano timestamps (S i) r matchIdx
  end.

(** The last loop: one event per matching row that has a payload.  The rows of
    [matchIdx] are positions of [keyHashes] and of [timestamps]. *)
Definition collect_rows (keyHashes timestamps : list Z) (payloads : list bytes)
    (matchIdx : list nat) : list Event :=
  omap (fun i => if (length payloads <=? i)%nat then None
                 else Some (mkEvent (nth i keyHashes 0) (nth i timestamps 0) (nth i payloads [])))
    matchIdx.

Section reader.
Context `{Zstd}.

Definition ReadBlock (store : TierStore) (id : BlockID) (keyHash : Z) (from to : time)
  : ST FS (list Event) :=
  let path := BlockPath store id in
  st_wrap "open block" (Open path) ;;;
  let! fileSize := StatSize path in
  if fileSize <? HeaderSize + FooterSize then st_err (EMsg "block too small")
  else
    let! footerBuf := st_wrap "read footer" (ReadAt path FooterSize (fileSize - FooterSize)) in
    let! footer := st_wrap "decode footer" (of_result (DecodeFooter footerBuf)) in
    let! headerBuf := st_wrap "read header" (ReadAt path HeaderSize 0) in
    st_wrap "decode header" (of_result (DecodeHeader headerBuf)) ;;;
    let! cols := st_wrap "read filter columns" (ReadFilterColumns path footer) in
    let '(keyHashes, timestamps) := cols in
    let fromNano := UnixNano from in
    let toNano := UnixNano to in
    let! matchIdx := match_rows keyHash fromNano toNano timestamps 0 keyHashes [] in
    match matchIdx with
    | [] => st_ret []
    | _ =>
        let plSize := nth 2 (ColSizes footer) 0 in
        make_bytes plSize ;;;
        let! payloadData := st_wrap "read payload column"
                              (ReadAt path plSize (i64 (nth 2 (ColOffsets footer) 0))) in
        let! payloads := st_wrap "decompress payload"
                           (of_result (DecompressBytesColumn payloadData)) in
        st_ret (collect_rows keyHashes timestamps payloads matchIdx)
    end.
End reader.

(** ** Reading under failures

    [reads m f a]: on a disk holding [f], [m] changes no file, returns [a] or
    an error that is not a panic, and returns [a] when no call fails. *)
Fixpoint is_panic (e : error) : bool :=
  match e with EPanic _ => true | EWrap _ e => is_panic e | _ => false end.

Definition reads {A} (m : ST FS A) (f : gmap bytes bytes) (a : A) : Prop :=
  ∀ s, files s = f →
    files (m s).1 = f ∧
    ((m s).2 = Ok a ∨ ∃ e, (m s).2 = Err e ∧ is_panic e = false) ∧
    (sched s = [] → m s = (s, Ok a)).

Lemma reads_bind {A B} (m : ST FS A) (k : A → ST FS B) f a b :
  reads m f a → reads (k a) f b → reads (st_bind m k) f b.
Proof.
  intros Hm Hk s Hs. destruct (Hm s Hs) as (Hf & Hr & Hn). unfold st_bind.
  destruct (m s) as [s1 r]. cbn [fst snd] in *. destruct Hr as [->|(e & -> & He)].
  - destruct (Hk s1 Hf) as (Hf' & Hr' & Hn'). split; [done|]. split; [done|].
    intros Hsch. specialize (Hn Hsch). injection Hn as ->. by apply Hn'.
  - cbn [fst snd]. split; [done|]. split; [right; eauto|].
    intros Hsch. specialize (Hn Hsch). discriminate Hn.
Qed.

Lemma reads_wrap {A} msg (m : ST FS A) f a : reads m f a → reads (st_wrap msg m) f a.
Proof.
  intros Hm s Hs. destruct (Hm s Hs) as (Hf & Hr & Hn). unfold st_wrap.
  destruct (m s) as [s1 r]. cbn [fst snd] in *. destruct Hr as [->|(e & -> & He)].
  - split; [done|]. split; [by left|done].
  - cbn [fst snd]. split; [done|]. split; [right; by eexists|].
    intros Hsch. specialize (Hn Hsch). discriminate Hn.
Qed.

Lemma reads_ret {A} (a : A) f : reads (st_ret a) f a.
Proof. intros s Hs. split; [done|]. split; [by left|done]. Qed.

Lemma reads_result {A} (r : result A) f a : r = Ok a → reads (of_result r) f a.
Proof. intros ->. apply reads_ret. Qed.

(** A system call that, when it runs, returns [a] and changes nothing. *)
Lemma reads_syscall {A} (k : ST FS A) f a :
  (∀ s, files s = f → k s = (s, Ok a)) → reads (syscall k) f a.
Proof.
  intros Hk s Hs. unfold syscall, next_call. destruct (sched s) as [|[n|] r] eqn:E; cbn [fst snd].
  - rewrite (Hk s Hs). split; [done|]. split; [by left|done].
  - split; [done|]. split; [right; by eexists|done].
  - rewrite (Hk (mkFS (files s) r)) by done. split; [done|]. split; [by left|done].
Qed.

Lemma reads_Open p f c : f !! p = Some c → reads (Open p) f tt.
Proof. intros Hc. apply reads_syscall. intros s <-. by rewrite Hc. Qed.

Lemma reads_StatSize p f c : f !! p = Some c → reads (StatSize p) f (zlen c).
Proof. intros Hc. apply reads_syscall. intros s <-. by rewrite Hc. Qed.

Lemma reads_ReadAt p n off f c d :
  f !! p = Some c → 0 <= off → off + n <= zlen c →
  slice (Z.to_nat off) (Z.to_nat n) c = d → reads (ReadAt p n off) f d.
Proof.
  intros Hc Ho Hn <-. apply reads_syscall. intros s <-. rewrite Hc. zcases; try lia. done.
Qed.

Lemma reads_make_bytes n f : n <= max_alloc → reads (make_bytes n) f tt.
Proof.
  intros Hn. unfold make_bytes. destruct (Z.ltb_spec max_alloc n); [lia|]. apply reads_ret.
Qed.

(** ** Which rows a query selects *)
Definition row_matches (keyHash fromNano toNano : Z) (e : Event) : bool :=
  (KeyHash e =? keyHash) && ((fromNano <=? Timestamp e) && (Timestamp e <? toNano)).

Definition matching (keyHash fromNano toNano : Z) (es : list Event) : list Event :=
  List.filter (row_matches keyHash fromNano toNano) es.

(** Positions of the selected rows, counted from [i]. *)
Fixpoint positions (P : Event → bool) (i : nat) (es : list Event) : list nat :=
  match es with
  | [] => []
  | e :: es => if P e then i :: positions P (S i) es else positions P (S i) es
  end.

Lemma reads_match_rows kh f t pre es acc m :
  reads (match_rows kh f t (map Timestamp (pre ++ es)) (length pre) (map KeyHash es) acc) m
    (acc ++ positions (row_matches kh f t) (length pre) es).
Proof.
  revert pre acc. induction es as [|e es IH]; intros pre acc; cbn [map match_rows positions].
  { rewrite app_nil_r. apply reads_ret. }
  assert (∀ acc', reads (match_rows kh f t (map Timestamp (pre ++ e :: es)) (S (length pre))
            (map KeyHash es) acc') m (acc' ++ positions (row_matches kh f t) (S (length pre)) es)) as IH'.
  { intros acc'. specialize (IH (pre ++ [e]) acc').
    by rewrite <- app_assoc, length_app, Nat.add_1_r in IH. }
  unfold row_matches at 1. destruct (KeyHash e =? kh); cbn [negb andb]; [|apply IH'].
  eapply reads_bind.
  - unfold index_at. rewrite map_app, lookup_app_r, length_map, Nat.sub_diag by (by rewrite length_map).
    simpl. apply reads_ret.
  - destruct (_ && _); [|apply IH']. specialize (IH' (acc ++ [length pre])).
    by rewrite <- app_assoc in IH'.
Qed.

Lemma collect_positions P pre es :
  collect_rows (map KeyHash (pre ++ es)) (map Timestamp (pre ++ es)) (map Payload (pre ++ es))
    (positions P (length pre) es) = List.filter P es.
Proof.
  revert pre. induction es as [|e es IH]; intros pre; [done|]. cbn [positions List.filter].
  specialize (IH (pre ++ [e])). rewrite <- app_assoc, length_app, Nat.add_1_r in IH. cbn [app] in IH.
  destruct (P e); [|done]. cbn [collect_rows omap list_omap]. unfold collect_rows in IH.
  destruct (Nat.leb_spec (length (map Payload (pre ++ e :: es))) (length pre)) as [Hl|_].
  { rewrite length_map, length_app in Hl. simpl in Hl. lia. }
  rewrite IH. f_equal. destruct e as [k t p]. f_equal.
  all: rewrite map_app, app_nth2 by (rewrite length_map; lia); by rewrite length_map, Nat.sub_diag.
Qed.

Lemma positions_nil P i es : positions P i es = [] → List.filter P es = [].
Proof.
  revert i. induction es as [|e es IH]; intros i; [done|]. simpl. destruct (P e); [done|]. apply IH.
Qed.

(** ** The parts of a block file *)
Section layout.
Context `{Zstd}.

Definition file_ok (hdr : BlockHeader) (mt : Memtable) : Prop :=
  header_ok hdr ∧ mt_ok mt ∧ Forall event_ok (Rows mt) ∧ zlen (block_file hdr mt) <= max_alloc.

Lemma file_parts hdr mt :
  Forall payload_ok (payloads mt) →
  let kh := CompressUint64Column (KeyHashes mt) in
  let ts := CompressInt64Column (Timestamps mt) in
  let pl := CompressBytesColumn (Payloads mt) in
  block_file hdr mt = EncodeHeader hdr ++ kh ++ ts ++ pl ++ EncodeFooter (block_footer mt) ∧
  zlen (block_file hdr mt) = 64 + zlen kh + zlen ts + zlen pl + 56.
Proof.
  intros Hp kh ts pl. unfold block_file, block_body. split; [by rewrite <- !app_assoc|].
  unfold zlen. rewrite !length_app, length_EncodeHeader, length_EncodeFooter by by apply block_footer_ok.
  fold kh ts pl. lia.
Qed.

Lemma zlen_nonneg {A} (l : list A) : 0 <= zlen l.
Proof. unfold zlen. lia. Qed.

(** With a file that fits in memory the footer's 64-bit sums are exact. *)
Lemma block_footer_exact hdr mt :
  Forall payload_ok (payloads mt) → zlen (block_file hdr mt) <= max_alloc →
  let kh := zlen (CompressUint64Column (KeyHashes mt)) in
  let ts := zlen (CompressInt64Column (Timestamps mt)) in
  let pl := zlen (CompressBytesColumn (Payloads mt)) in
  ColOffsets (block_footer mt) = [64; 64 + kh; 64 + kh + ts] ∧
  ColSizes (block_footer mt) = [kh; ts; pl].
Proof.
  intros Hp Hsz. cbv zeta. destruct (file_parts hdr mt Hp) as [_ Hlen]. cbv zeta in Hlen.
  rewrite Hlen in Hsz. clear Hlen. unfold max_alloc in Hsz. revert Hsz.
  unfold block_footer, HeaderSize. cbn [ColOffsets ColSizes].
  pose proof (zlen_nonneg (CompressUint64Column (KeyHashes mt))) as H1. revert H1.
  pose proof (zlen_nonneg (CompressInt64Column (Timestamps mt))) as H1. revert H1.
  pose proof (zlen_nonneg (CompressBytesColumn (Payloads mt))) as H1. revert H1.
  generalize (zlen (CompressUint64Column (KeyHashes mt))) as kh,
    (zlen (CompressInt64Column (Timestamps mt))) as ts, (zlen (CompressBytesColumn (Payloads mt))) as pl.
  intros kh ts pl Hpl Hts Hkh Hsz.
  rewrite !(u64_id kh), !(u64_id ts), !(u64_id pl), (u64_id 64), (u64_id (64 + kh)),
    (u64_id (64 + kh + ts)) by (unfold is_u64; lia). done.
Qed.
End layout.

#[local] Opaque ChecksumIEEE.

Section read_block.
Context `{Zstd}.

(** Reading one column of the file, by the footer's offset and size. *)
Lemma reads_column p f (pre col post : bytes) n off :
  f !! p = Some (pre ++ col ++ post) → n = zlen col → off = zlen pre →
  reads (ReadAt p n off) f col.
Proof.
  intros Hf -> ->. eapply reads_ReadAt; [exact Hf|apply zlen_nonneg| |].
  - unfold zlen. rewrite !length_app. lia.
  - unfold zlen. rewrite !Nat2Z.id. by apply slice_app.
Qed.

Lemma i64_small z : 0 <= z <= max_alloc → i64 z = z.
Proof. intros Hz. apply i64_id. unfold is_i64, max_alloc in *. lia. Qed.

Lemma event_columns mt :
  mt_ok mt → Forall event_ok (Rows mt) →
  Forall is_u64 (keyHashes mt) ∧ Forall is_i64 (timestamps mt) ∧ Forall payload_ok (payloads mt).
Proof.
  intros Hok Hall. rewrite (mt_of_Rows mt Hok). cbn [mt_of keyHashes timestamps payloads].
  rewrite !Forall_map.
  split; [|split]; (eapply Forall_impl; [exact Hall|]); intros e (? & ? & ? & ?); done.
Qed.

Lemma reads_ReadFilterColumns p f hdr mt :
  file_ok hdr mt → f !! p = Some (block_file hdr mt) →
  reads (ReadFilterColumns p (block_footer mt)) f (keyHashes mt, timestamps mt).
Proof.
  intros (Hh & Hm & Hev & Hsz) Hf. destruct (event_columns mt Hm Hev) as (Hk & Ht & Hp).
  destruct (block_footer_exact hdr mt Hp Hsz) as [Ho Hs].
  destruct (file_parts hdr mt Hp) as [Hparts Hlen]. cbv zeta in *.
  pose proof (zlen_nonneg (CompressUint64Column (KeyHashes mt))).
  pose proof (zlen_nonneg (CompressInt64Column (Timestamps mt))).
  pose proof (zlen_nonneg (CompressBytesColumn (Payloads mt))).
  rewrite Hlen in Hsz. rewrite Hparts in Hf.
  unfold ReadFilterColumns. rewrite Ho, Hs. cbn [nth]. rewrite !i64_small by lia.
  eapply reads_bind; [apply reads_make_bytes; lia|].
  eapply reads_bind; [apply reads_wrap; eapply reads_column; [exact Hf|done|]|].
  { unfold zlen. by rewrite length_EncodeHeader. }
  eapply reads_bind; [apply reads_wrap, reads_result, Uint64Column_roundtrip, Hk|].
  eapply reads_bind; [apply reads_make_bytes; lia|].
  eapply reads_bind; [apply reads_wrap; eapply reads_column; [|done|]|].
  { rewrite Hf. by rewrite (app_assoc (EncodeHeader hdr)). }
  { unfold zlen. rewrite length_app, length_EncodeHeader. lia. }
  eapply reads_bind; [apply reads_wrap, reads_result, Int64Column_roundtrip, Ht|]. apply reads_ret.
Qed.

Lemma reads_payload_column p f hdr mt :
  file_ok hdr mt → f !! p = Some (block_file hdr mt) →
  reads (ReadAt p (nth 2 (ColSizes (block_footer mt)) 0)
           (i64 (nth 2 (ColOffsets (block_footer mt)) 0))) f (CompressBytesColumn (Payloads mt)).
Proof.
  intros (Hh & Hm & Hev & Hsz) Hf. destruct (event_columns mt Hm Hev) as (_ & _ & Hp).
  destruct (block_footer_exact hdr mt Hp Hsz) as [Ho Hs].
  destruct (file_parts hdr mt Hp) as [Hparts Hlen]. cbv zeta in *.
  pose proof (zlen_nonneg (CompressUint64Column (KeyHashes mt))).
  pose proof (zlen_nonneg (CompressInt64Column (Timestamps mt))).
  pose proof (zlen_nonneg (CompressBytesColumn (Payloads mt))).
  rewrite Hlen in Hsz. rewrite Ho, Hs. cbn [nth]. rewrite i64_small by lia.
  eapply reads_column; [|done|].
  - rewrite Hf, Hparts. by rewrite !(app_assoc _ _ (CompressBytesColumn _ ++ _)).
  - unfold zlen. rewrite !length_app, length_EncodeHeader. lia.
Qed.

Lemma columns_of_rows mt :
  mt_ok mt → keyHashes mt = map KeyHash (Rows mt) ∧ timestamps mt = map Timestamp (Rows mt) ∧
             payloads mt = map Payload (Rows mt).
Proof. intros Hm. pose proof (mt_of_Rows mt Hm) as E. by rewrite E at 1 3 5. Qed.

Lemma reads_ReadBlock store id kh from to f hdr mt :
  file_ok hdr mt → f !! BlockPath store id = Some (block_file hdr mt) →
  reads (ReadBlock store id kh from to) f (matching kh (UnixNano from) (UnixNano to) (Rows mt)).
Proof.
  intros Hok Hf. pose proof Hok as (Hh & Hm & Hev & Hsz).
  destruct (event_columns mt Hm Hev) as (Hk & Ht & Hp).
  destruct (block_footer_exact hdr mt Hp Hsz) as [Ho Hs].
  destruct (file_parts hdr mt Hp) as [Hparts Hlen]. cbv zeta in *.
  pose proof (zlen_nonneg (CompressUint64Column (KeyHashes mt))).
  pose proof (zlen_nonneg (CompressInt64Column (Timestamps mt))).
  pose proof (zlen_nonneg (CompressBytesColumn (Payloads mt))).
  unfold ReadBlock. eapply reads_bind; [by eapply reads_wrap, reads_Open|].
  eapply reads_bind; [by eapply reads_StatSize|].
  unfold HeaderSize, FooterSize. destruct (Z.ltb_spec (zlen (block_file hdr mt)) (64 + 56)); [lia|].
  eapply reads_bind; [apply reads_wrap; eapply (reads_column _ _ _ (EncodeFooter (block_footer mt)) [])|].
  { rewrite Hf, app_nil_r, Hparts. by rewrite !app_assoc. }
  { unfold zlen. by rewrite length_EncodeFooter by by apply block_footer_ok. }
  { rewrite Hlen. unfold zlen. rewrite !length_app, length_EncodeHeader. lia. }
  eapply reads_bind.
  { apply reads_wrap, reads_result, DecodeFooter_EncodeFooter. by apply block_footer_ok. }
  eapply reads_bind; [apply reads_wrap; eapply (reads_column _ _ [] (EncodeHeader hdr))|].
  { rewrite Hf. reflexivity. }
  { unfold zlen. by rewrite length_EncodeHeader. }
  { done. }
  eapply reads_bind.
  { apply reads_wrap, reads_result. rewrite <- (app_nil_r (EncodeHeader hdr)).
    by apply DecodeHeader_EncodeHeader. }
  eapply reads_bind; [by eapply reads_wrap, reads_ReadFilterColumns|].
  cbv beta match. destruct (columns_of_rows mt Hm) as (Ek & Et & Ep). rewrite Ek, Et.
  eapply reads_bind; [exact (reads_match_rows kh (UnixNano from) (UnixNano to) [] (Rows mt) [] f)|].
  cbn [app]. destruct (positions _ _ (Rows mt)) as [|i l] eqn:Epos.
  { unfold matching. rewrite (positions_nil _ _ _ Epos). apply reads_ret. }
  eapply reads_bind; [apply reads_make_bytes; rewrite Hs; cbn [nth]; lia|].
  eapply reads_bind; [by eapply reads_wrap, reads_payload_column|].
  eapply reads_bind; [apply reads_wrap, reads_result, BytesColumn_roundtrip, Hp|].
  pose proof (collect_positions (row_matches kh (UnixNano from) (UnixNano to)) [] (Rows mt)) as Hc.
  cbn [app length] in Hc, Epos. unfold Payloads, matching. rewrite Ep, <- Hc, Epos. apply reads_ret.
Qed.

(** Reading a well-formed block file returns exactly the rows of the key
    within the half-open time range, in file order; whichever calls fail it
    returns those or an error, never a panic and never other rows, and
    without failures it succeeds. *)
Theorem ReadBlock_selects_rows store id kh from to hdr mt s s' r :
  file_ok hdr mt → files s !! BlockPath store id = Some (block_file hdr mt) →
  ReadBlock store id kh from to s = (s', r) →
  files s' = files s ∧
  (r = Ok (matching kh (UnixNano from) (UnixNano to) (Rows mt)) ∨
   ∃ e, r = Err e ∧ is_panic e = false) ∧
  (sched s = [] → r = Ok (matching kh (UnixNano from) (UnixNano to) (Rows mt))).
Proof.
  intros Hok Hf E.
  destruct (reads_ReadBlock store id kh from to _ hdr mt Hok Hf s eq_refl) as (H1 & H2 & H3).
  rewrite E in *. split; [done|]. split; [done|]. intros Hs. specialize (H3 Hs). by injection H3.
Qed.
End read_block.

(** ** From the sealer to the reader *)
Section seal_read.
Context `{Pebble} `{SliceSort} `{MapOrder} `{BloomLib} `{Zstd}.

Lemma Seal_returns_id req w w' id : Seal req w = (w', Ok id) → id = seal_id req.
Proof.
  unfold Seal. intros (w1 & [footer size] & _ & E)%st_bind_ok.
  apply st_bind_ok in E as (w2 & [] & _ & E). apply st_bind_ok in E as (w3 & [] & _ & E).
  by injection E as _ <-.
Qed.

Lemma sealed_file_ok req :
  sealreq_ok req →
  zlen (block_file (seal_header req (Sort (sr_Memtable req))) (Sort (sr_Memtable req))) <= max_alloc →
  file_ok (seal_header req (Sort (sr_Memtable req))) (Sort (sr_Memtable req)).
Proof.
  intros (Hs & He & Ho & Hc & Hr & Hm) Hsz. split; [|split; [apply Sort_ok|split; [by apply Sort_events|done]]].
  unfold header_ok, seal_header. cbn [bh_ShardID bh_EventType bh_OpenedAt bh_SealedAt bh_RowCount].
  rewrite u16_id by done. do 4 (split; [done|]). apply u64_range.
Qed.

Lemma matching_perm kh f t l l' : l ≡ₚ l' → matching kh f t l ≡ₚ matching kh f t l'.
Proof.
  unfold matching. induction 1 as [|x l l' Hl IH|x y l|l1 l2 l3 Hp1 IH1 Hp2 IH2]; simpl.
  - done.
  - destruct (row_matches kh f t x); [by constructor|done].
  - destruct (row_matches kh f t x), (row_matches kh f t y); done || constructor.
  - by etransitivity.
Qed.

Lemma matching_sorted kh f t l : StronglySorted ev_le l → StronglySorted ev_le (matching kh f t l).
Proof.
  unfold matching. induction 1 as [|e l Hs IH Hall]; simpl; [constructor|].
  destruct (row_matches kh f t e); [|done]. constructor; [done|].
  rewrite Forall_forall in Hall |- *. intros x Hx. apply Hall.
  apply list_elem_of_In, filter_In in Hx as [Hx _]. by apply list_elem_of_In.
Qed.

(** C13: A sealed block reads back: whatever a successful seal wrote, reading
    the block returns the table's rows for the key and time range, each as
    often as it was appended, ordered by timestamp. *)
Theorem sealed_block_reads_back req w w' id kh from to s' evs :
  TierLaws (sr_Store req) → sealreq_ok req →
  zlen (block_file (seal_header req (Sort (sr_Memtable req))) (Sort (sr_Memtable req))) <= max_alloc →
  Seal req w = (w', Ok id) → ReadBlock (sr_Store req) id kh from to (fs w') = (s', Ok evs) →
  evs ≡ₚ matching kh (UnixNano from) (UnixNano to) (Rows (sr_Memtable req)) ∧
  StronglySorted ev_le evs.
Proof.
  intros Hlaws Hok Hsz E ER. pose proof (Seal_returns_id _ _ _ _ E) as ->.
  apply Seal_cases in E as [[[e He] _]|[[Hdisk _] _]]; [done| |done|done].
  destruct (reads_ReadBlock (sr_Store req) (seal_id req) kh from to _ _ _
              (sealed_file_ok req Hok Hsz) Hdisk (fs w') eq_refl) as (_ & [H6|(e & H6 & _)] & _);
    rewrite ER in H6; [|done]. injection H6 as ->.
  split; [apply matching_perm, Sort_perm|apply matching_sorted, Sort_sorted].
Qed.
End seal_read.

(** ** Instances *)
Lemma ReadBlock_selects_rows_witness :
  (ReadBlock (local_tier hot_store) sample_id 9 0 100
     (mkFS (<[BlockPath (local_tier hot_store) sample_id :=
              block_file sample_header two_rows]> ∅) [])).2
  = Ok (matching 9 0 100 (Rows two_rows)).
Proof.
  destruct (ReadBlock_selects_rows (local_tier hot_store) sample_id 9 0 100 sample_header two_rows
    (mkFS (<[BlockPath (local_tier hot_store) sample_id := block_file sample_header two_rows]> ∅) [])
    (ReadBlock (local_tier hot_store) sample_id 9 0 100
       (mkFS (<[BlockPath (local_tier hot_store) sample_id :=
                block_file sample_header two_rows]> ∅) [])).1
    (ReadBlock (local_tier hot_store) sample_id 9 0 100
       (mkFS (<[BlockPath (local_tier hot_store) sample_id :=
                block_file sample_header two_rows]> ∅) [])).2) as (_ & _ & H).
  - split; [by vm_compute|]. split; [by vm_compute|]. split; [|by vm_compute].
    repeat (apply Forall_cons; split); try apply Forall_nil_2;
      (split; [by vm_compute|split; [by vm_compute|split; [|by vm_compute]]]);
      repeat (apply Forall_cons; split; [by vm_compute|]); apply Forall_nil_2.
  - cbn [files]. apply lookup_insert_eq.
  - apply surjective_pairing.
  - apply H. reflexivity.
Defined.

Lemma sealed_block_reads_back_witness :
  [mkEvent 9 70 [1; 2]] ≡ₚ matching 9 0 100 (Rows (sr_Memtable sample_request)).
Proof.
  destruct (sealed_block_reads_back sample_request empty_world sealed_world.1 sample_id 9 0 100
    (ReadBlock (local_tier hot_store) sample_id 9 0 100 (fs sealed_world.1)).1
    [mkEvent 9 70 [1; 2]]) as [H _].
  - apply LocalTierLaws.
  - exact sample_request_ok.
  - vm_compute. discriminate.
  - transitivity (sealed_world.1, sealed_world.2); [apply surjective_pairing|].
    f_equal; vm_compute; reflexivity.
  - etransitivity; [apply surjective_pairing|]. f_equal; vm_compute; reflexivity.
  - exact H.
Defined.

(** A block whose footer gives an impossible column size. *)
Definition bad_footer : BlockFooter := mkFooter [64; 64; 64] [2 ^ 63; 0; 0] 0.


