(* ===== verification/Heap.v ===== *)
(** * Go's [container/heap]

    The functions of the package as the merger uses them, on a list with the
    caller's [Less]; [Swap], [Push] and [Pop] of the interface are those of a
    slice.  Positions handed to [h_get] and [h_swap] are always below the
    length.  The loops take a bound on their rounds that is never reached. *)
From S2P Require Import Prelude Event Memtable.

Section heap.
Context {A : Type} (d : A) (less : A → A → bool).

Definition h_get (h : list A) (i : nat) : A := nth i h d.

Definition h_Less (h : list A) (i j : nat) : bool := less (h_get h i) (h_get h j).

Definition h_Swap (i j : nat) (h : list A) : list A :=
  <[i := h_get h j]> (<[j := h_get h i]> h).

Fixpoint heap_up (fuel : nat) (h : list A) (j : nat) : list A :=
  match fuel with
  | O => h
  | S fuel =>
      let i := ((j - 1) / 2)%nat in
      if (i =? j)%nat || negb (h_Less h j i) then h
      else heap_up fuel (h_Swap i j h) i
  end.

Fixpoint heap_down (fuel : nat) (h : list A) (i n : nat) : list A :=
  match fuel with
  | O => h
  | S fuel =>
      let j1 := (2 * i + 1)%nat in
      if (n <=? j1)%nat then h
      else
        let j2 := (j1 + 1)%nat in
        let j := if (j2 <? n)%nat && h_Less h j2 j1 then j2 else j1 in
        if negb (h_Less h j i) then h
        else heap_down fuel (h_Swap i j h) j n
  end.

Definition heap_Push (h : list A) (x : A) : list A :=
  let h' := h ++ [x] in heap_up (length h') h' (length h' - 1).

(** The heap without its first element, and that element. *)
Definition heap_Pop (h : list A) : list A * A :=
  let n := (length h - 1)%nat in
  let h' := heap_down (length h) (h_Swap 0 n h) 0 n in
  (take n h', h_get h' n).

(** ** The order and the invariant *)
Context (Hsw : strict_weak less).

Definition h_le (x y : A) : Prop := less y x = false.

Lemma h_le_trans x y z : h_le x y → h_le y z → h_le x z.
Proof. apply (sw_negtrans _ Hsw). Qed.

Lemma h_less_le x y : less x y = true → h_le x y.
Proof. apply (sw_asym _ Hsw). Qed.

Lemma h_le_refl x : h_le x x.
Proof. unfold h_le. destruct (less x x) eqn:E; [|done]. rewrite (sw_asym _ Hsw) in E; done. Qed.

Definition parent (c : nat) : nat := ((c - 1) / 2)%nat.

(** Among the first [n] elements every one is at least its parent. *)
Definition heap_ok (n : nat) (h : list A) : Prop :=
  ∀ c, (0 < c < n)%nat → h_le (h_get h (parent c)) (h_get h c).

Lemma parent_lt c : (0 < c)%nat → (parent c < c)%nat.
Proof. unfold parent. intros Hc. apply Nat.Div0.div_lt_upper_bound. lia. Qed.

Lemma parent_iff c i : (0 < c)%nat → parent c = i ↔ c = (2 * i + 1)%nat ∨ c = (2 * i + 2)%nat.
Proof.
  unfold parent. intros Hc. pose proof (Nat.div_mod_eq (c - 1) 2).
  pose proof (Nat.mod_upper_bound (c - 1) 2). lia.
Qed.

Lemma heap_root n h k : heap_ok n h → (k < n)%nat → h_le (h_get h 0) (h_get h k).
Proof.
  intros Hh. induction k as [k IH] using lt_wf_ind. intros Hk.
  destruct (decide (k = 0%nat)) as [->|]; [apply h_le_refl|].
  pose proof (parent_lt k ltac:(lia)). eapply h_le_trans; [apply (IH (parent k)); lia|].
  apply Hh. lia.
Qed.

(** ** Swapping *)
Lemma length_Swap i j h : length (h_Swap i j h) = length h.
Proof. unfold h_Swap. by rewrite !length_insert. Qed.

Lemma h_get_insert h i x k :
  (i < length h)%nat → h_get (<[i := x]> h) k = if decide (k = i) then x else h_get h k.
Proof.
  intros Hi. unfold h_get. destruct (decide (k = i)) as [->|Hne].
  - apply nth_lookup_Some. by apply list_lookup_insert_eq.
  - rewrite !nth_lookup. by rewrite list_lookup_insert_ne.
Qed.

Lemma h_get_Swap i j h k :
  (i < length h)%nat → (j < length h)%nat →
  h_get (h_Swap i j h) k
  = if decide (k = i) then h_get h j else if decide (k = j) then h_get h i else h_get h k.
Proof.
  intros Hi Hj. unfold h_Swap. rewrite h_get_insert by (by rewrite length_insert).
  by rewrite h_get_insert.
Qed.

Lemma perm_insert h i x : (i < length h)%nat → h_get h i :: <[i := x]> h ≡ₚ x :: h.
Proof.
  revert i. induction h as [|y h IH]; intros [|i] Hi; simpl in *; try lia.
  - apply perm_swap.
  - unfold h_get in *. simpl. rewrite perm_swap, IH by lia. apply perm_swap.
Qed.

Lemma Swap_perm i j h : (i < length h)%nat → (j < length h)%nat → h_Swap i j h ≡ₚ h.
Proof.
  intros Hi Hj. apply (Permutation_cons_inv (a := h_get h i)).
  pose proof (perm_insert h j (h_get h i) Hj) as P1.
  pose proof (perm_insert (<[j := h_get h i]> h) i (h_get h j)) as P2.
  rewrite length_insert in P2. specialize (P2 Hi). rewrite h_get_insert in P2 by done.
  fold (h_Swap i j h) in P2. destruct (decide (i = j)) as [->|].
  - rewrite P2. exact P1.
  - rewrite P2. exact P1.
Qed.

(** ** Moving an element up

    All edges hold but the one above [j], and [j]'s children are at least its
    parent. *)
Definition up_inv (n : nat) (h : list A) (j : nat) : Prop :=
  (∀ c, (0 < c < n)%nat → c ≠ j → h_le (h_get h (parent c)) (h_get h c)) ∧
  (∀ c, (0 < c < n)%nat → parent c = j → (0 < j)%nat → h_le (h_get h (parent j)) (h_get h c)).

Lemma up_step n h j :
  (0 < j < n)%nat → n = length h → up_inv n h j → h_Less h j (parent j) = true →
  up_inv n (h_Swap (parent j) j h) (parent j).
Proof.
  intros Hj Hn [H1 H2] Hless. pose proof (parent_lt j ltac:(lia)) as Hp.
  assert (∀ k, h_get (h_Swap (parent j) j h) k
    = if decide (k = parent j) then h_get h j
      else if decide (k = j) then h_get h (parent j) else h_get h k) as Hg
    by (intros k; apply h_get_Swap; lia).
  apply h_less_le in Hless.
  assert (∀ c, (0 < c < n)%nat → c ≠ j → parent c = parent j → h_le (h_get h j) (h_get h c)) as Hsib.
  { intros c Hc Hcj E. eapply h_le_trans; [exact Hless|]. rewrite <- E. by apply H1. }
  split.
  - intros c Hc Hci. pose proof (parent_lt c ltac:(lia)). rewrite !Hg.
    destruct (decide (c = parent j)) as [|_]; [done|].
    destruct (decide (c = j)) as [->|Hcj]; [by rewrite decide_True|].
    destruct (decide (parent c = parent j)) as [E|_]; [by apply Hsib|].
    destruct (decide (parent c = j)) as [E|_]; [apply H2; done || lia|]. by apply H1.
  - intros c Hc Epar Hpos. pose proof (parent_lt (parent j) ltac:(lia)).
    pose proof (parent_lt c ltac:(lia)). rewrite !Hg.
    rewrite (decide_False (P := parent (parent j) = parent j)) by lia.
    rewrite (decide_False (P := parent (parent j) = j)) by lia.
    rewrite (decide_False (P := c = parent j)) by lia.
    assert (h_le (h_get h (parent (parent j))) (h_get h (parent j))) as Hgp by (apply H1; lia).
    destruct (decide (c = j)) as [->|Hcj]; [done|].
    eapply h_le_trans; [exact Hgp|]. rewrite <- Epar. by apply H1.
Qed.

Lemma heap_up_spec fuel h j :
  (j < length h)%nat → (j < fuel)%nat → up_inv (length h) h j →
  heap_ok (length h) (heap_up fuel h j) ∧ heap_up fuel h j ≡ₚ h.
Proof.
  revert h j. induction fuel as [|fuel IH]; intros h j Hj Hf Hinv; [lia|]. cbn [heap_up].
  change ((j - 1) / 2)%nat with (parent j).
  destruct (Nat.eqb_spec (parent j) j) as [E|Hne]; cbn [orb].
  { split; [|done]. intros c Hc. apply Hinv; [done|]. intros ->.
    pose proof (parent_lt j ltac:(lia)). lia. }
  assert (0 < j)%nat by (destruct j; [done|lia]). pose proof (parent_lt j ltac:(lia)).
  destruct (h_Less h j (parent j)) eqn:E; cbn [negb].
  - destruct (IH (h_Swap (parent j) j h) (parent j)) as [Hok Hperm];
      rewrite ?length_Swap; [lia|lia|by apply up_step|].
    rewrite length_Swap in Hok. split; [done|]. rewrite Hperm. apply Swap_perm; lia.
  - split; [|done]. intros c Hc. destruct (decide (c = j)) as [->|]; [exact E|by apply Hinv].
Qed.

Lemma heap_Push_spec h x :
  heap_ok (length h) h → heap_ok (S (length h)) (heap_Push h x) ∧ heap_Push h x ≡ₚ x :: h.
Proof.
  intros Hh. unfold heap_Push.
  assert (length (h ++ [x]) = S (length h)) as Hlen by (rewrite length_app; simpl; lia).
  assert (∀ k, (k < length h)%nat → h_get (h ++ [x]) k = h_get h k) as Hg.
  { intros k Hk. unfold h_get. by apply app_nth1. }
  destruct (heap_up_spec (length (h ++ [x])) (h ++ [x]) (length (h ++ [x]) - 1)) as [H1 H2];
    rewrite Hlen in *; [lia|lia| |].
  - split.
    + intros c Hc Hne. pose proof (parent_lt c ltac:(lia)). rewrite !Hg by lia. apply Hh. lia.
    + intros c Hc Hpar. pose proof (parent_lt c ltac:(lia)). lia.
  - split; [done|]. rewrite H2. symmetry. apply Permutation_cons_append.
Qed.

(** ** Moving an element down

    All edges hold but those below [i], and [i]'s children are at least its
    parent. *)
Definition down_inv (n : nat) (h : list A) (i : nat) : Prop :=
  (∀ c, (0 < c < n)%nat → parent c ≠ i → h_le (h_get h (parent c)) (h_get h c)) ∧
  (∀ c, (0 < c < n)%nat → parent c = i → (0 < i)%nat → h_le (h_get h (parent i)) (h_get h c)).

Lemma down_step n h i j :
  (0 < j < n)%nat → (n <= length h)%nat → parent j = i → down_inv n h i →
  (∀ c, (0 < c < n)%nat → parent c = i → h_le (h_get h j) (h_get h c)) →
  h_Less h j i = true → down_inv n (h_Swap i j h) j.
Proof.
  intros Hj Hn Hpar [H1 H2] Hmin Hless. pose proof (parent_lt j ltac:(lia)) as Hp.
  assert (∀ k, h_get (h_Swap i j h) k
    = if decide (k = i) then h_get h j else if decide (k = j) then h_get h i else h_get h k) as Hg
    by (intros k; apply h_get_Swap; lia).
  apply h_less_le in Hless. split.
  - intros c Hc Hcj. pose proof (parent_lt c ltac:(lia)). rewrite !Hg.
    destruct (decide (parent c = i)) as [E|Hpi].
    + rewrite (decide_False (P := c = i)) by lia.
      destruct (decide (c = j)) as [->|]; [done|]. by apply Hmin.
    + rewrite (decide_False (P := parent c = j)) by done.
      destruct (decide (c = i)) as [->|]; [apply H2; done || lia|].
      rewrite (decide_False (P := c = j)) by congruence. by apply H1.
  - intros c Hc Hcj _. pose proof (parent_lt c ltac:(lia)). rewrite !Hg, Hpar.
    rewrite decide_True by done. rewrite (decide_False (P := c = i)) by lia.
    rewrite (decide_False (P := c = j)) by lia. rewrite <- Hcj. apply H1; lia.
Qed.

(** The child the loop compares with is a least one. *)
Lemma down_child n h i :
  (2 * i + 1 < n)%nat →
  let j := if (2 * i + 1 + 1 <? n)%nat && h_Less h (2 * i + 1 + 1) (2 * i + 1)
           then (2 * i + 1 + 1)%nat else (2 * i + 1)%nat in
  (0 < j < n)%nat ∧ parent j = i ∧
  ∀ c, (0 < c < n)%nat → parent c = i → h_le (h_get h j) (h_get h c).
Proof.
  intros Hn j.
  assert (∀ c, (0 < c < n)%nat → parent c = i → c = (2 * i + 1)%nat ∨ c = (2 * i + 1 + 1)%nat) as Hch.
  { intros c Hc [->| ->]%parent_iff; lia. }
  subst j. destruct (Nat.ltb_spec (2 * i + 1 + 1) n) as [Hlt|Hge]; cbn [andb].
  - destruct (h_Less h (2 * i + 1 + 1) (2 * i + 1)) eqn:E.
    + split; [lia|]. split; [apply parent_iff; lia|].
      intros c Hc [-> | ->]%Hch; [by apply h_less_le|apply h_le_refl|done].
    + split; [lia|]. split; [apply parent_iff; lia|].
      intros c Hc [-> | ->]%Hch; [apply h_le_refl|exact E|done].
  - split; [lia|]. split; [apply parent_iff; lia|].
    intros c Hc [-> | ->]%Hch; [apply h_le_refl|lia|done].
Qed.

Lemma heap_down_spec fuel h i n :
  (n <= length h)%nat → (n <= i + fuel)%nat → down_inv n h i →
  let h' := heap_down fuel h i n in
  heap_ok n h' ∧ h' ≡ₚ h ∧ (∀ k, (n <= k)%nat → h_get h' k = h_get h k).
Proof.
  revert h i. induction fuel as [|fuel IH]; intros h i Hn Hf Hinv; cbn [heap_down].
  { split; [|done]. intros c Hc. apply Hinv; [done|]. pose proof (parent_lt c ltac:(lia)). lia. }
  destruct (Nat.leb_spec n (2 * i + 1)) as [Hle|Hlt].
  { split; [|done]. intros c Hc. apply Hinv; [done|]. intros E%parent_iff; lia. }
  destruct (down_child n h i Hlt) as (Hj & Hpar & Hmin). cbv zeta in *.
  set (j := if (2 * i + 1 + 1 <? n)%nat && h_Less h (2 * i + 1 + 1) (2 * i + 1)
            then (2 * i + 1 + 1)%nat else (2 * i + 1)%nat) in *.
  destruct (h_Less h j i) eqn:E; cbn [negb].
  - pose proof (parent_lt j ltac:(lia)).
    destruct (IH (h_Swap i j h) j) as (H1 & H2 & H3); rewrite ?length_Swap;
      [lia|lia|by apply down_step|].
    split; [done|]. split; [rewrite H2; apply Swap_perm; lia|].
    intros k Hk. rewrite H3, h_get_Swap by lia. by rewrite !decide_False by lia.
  - split; [|done]. intros c Hc. destruct (decide (parent c = i)) as [Ec|]; [|by apply Hinv].
    eapply h_le_trans; [|by apply Hmin]. rewrite Ec. exact E.
Qed.

Lemma last_split h n : length h = S n → h = take n h ++ [h_get h n].
Proof.
  intros Hl. rewrite <- (take_drop n h) at 1. f_equal.
  destruct (lookup_lt_is_Some_2 h n) as [x Hx]; [lia|]. rewrite (drop_S _ _ _ Hx), drop_ge by lia.
  f_equal. symmetry. by apply nth_lookup_Some.
Qed.

(** Popping returns a least element and keeps the rest. *)
Lemma heap_Pop_spec h h' x :
  h ≠ [] → heap_ok (length h) h → heap_Pop h = (h', x) →
  h ≡ₚ x :: h' ∧ heap_ok (length h') h' ∧ ∀ y, y ∈ h → h_le x y.
Proof.
  intros Hne Hh E. assert (0 < length h)%nat by (destruct h; [done|simpl; lia]).
  unfold heap_Pop in E. set (n := (length h - 1)%nat) in *.
  assert (∀ k, h_get (h_Swap 0 n h) k
    = if decide (k = 0%nat) then h_get h n else if decide (k = n) then h_get h 0 else h_get h k) as Hg
    by (intros k; apply h_get_Swap; lia).
  destruct (heap_down_spec (length h) (h_Swap 0 n h) 0 n) as (H1 & H2 & H3).
  { rewrite length_Swap. lia. }
  { lia. }
  { split; [|lia]. intros c Hc Hp. pose proof (parent_lt c ltac:(lia)). rewrite !Hg.
    rewrite !decide_False by lia. apply Hh. lia. }
  set (h2 := heap_down _ _ _ _) in *. injection E as <- <-.
  assert (length h2 = S n) as Hlen.
  { rewrite (Permutation_length H2), length_Swap. lia. }
  assert (h_get h2 n = h_get h 0) as Hx.
  { rewrite H3, Hg by lia. destruct (decide (n = 0%nat)) as [E0|]; [by rewrite E0|].
    by rewrite decide_True. }
  rewrite Hx. split; [|split].
  - transitivity h2; [rewrite H2; symmetry; apply Swap_perm; lia|].
    rewrite (last_split h2 n Hlen) at 1. rewrite Hx. symmetry. apply Permutation_cons_append.
  - rewrite length_take, Hlen. intros c Hc. pose proof (parent_lt c ltac:(lia)). unfold h_get.
    assert (∀ k, (k < n)%nat → nth k (take n h2) d = nth k h2 d) as Ht.
    { intros k Hk. rewrite !nth_lookup. by rewrite lookup_take_lt. }
    rewrite !Ht by lia. apply H1. lia.
  - intros y (k & Hk)%list_elem_of_lookup. pose proof (lookup_lt_Some _ _ _ Hk).
    rewrite <- (nth_lookup_Some _ _ d _ Hk). by apply (heap_root (length h)).
Qed.
End heap.
