(* ===== verification/Merger.v ===== *)
(** * Merging sorted slices: [internal/query/merger.go] *)
From S2P Require Import Prelude Event Memtable Heap.

Record heapItem := mkItem { hi_event : Event; hi_slice : nat; hi_pos : nat }.

Definition zero_item : heapItem := mkItem (mkEvent 0 0 []) 0 0.

(** [eventHeap.Less] *)
Definition item_less (x y : heapItem) : bool :=
  let a := hi_event x in
  let b := hi_event y in
  if negb (KeyHash a =? KeyHash b) then KeyHash a <? KeyHash b else Timestamp a <? Timestamp b.

(** The first event of every slice that has one; [i] is the slice's number. *)
Fixpoint push_heads (i : nat) (slices : list (list Event)) (h : list heapItem) : list heapItem :=
  match slices with
  | [] => h
  | s :: r =>
      push_heads (S i) r
        match s with
        | [] => h
        | e :: _ => heap_Push zero_item item_less h (mkItem e i 0)
        end
  end.

(** Every round emits one event, so the number of events bounds the rounds. *)
Fixpoint merge_loop (fuel : nat) (slices : list (list Event)) (h : list heapItem)
    (result : list Event) : list Event :=
  match h, fuel with
  | [], _ | _, O => result
  | _, S fuel =>
      let '(h, item) := heap_Pop zero_item item_less h in
      let next := S (hi_pos item) in
      let h := match nth (hi_slice item) slices [] !! next with
               | Some e => heap_Push zero_item item_less h (mkItem e (hi_slice item) next)
               | None => h
               end in
      merge_loop fuel slices h (result ++ [hi_event item])
  end.

Definition MergeEvents (slices : list (list Event)) : list Event :=
  match slices with
  | [] => []
  | [s] => s
  | _ =>
      let total := length (concat slices) in
      if (total =? 0)%nat then [] else merge_loop total slices (push_heads 0 slices []) []
  end.

(** ** The heap's order is the block order *)
Lemma item_less_ev x y : item_less x y = ev_less (hi_event x) (hi_event y).
Proof. done. Qed.

Lemma item_less_strict_weak : strict_weak item_less.
Proof.
  split.
  - intros x y. rewrite !item_less_ev. apply ev_less_le.
  - intros x y z. rewrite !item_less_ev. apply ev_le_trans.
Qed.

Lemma item_le_ev x y : h_le item_less x y ↔ ev_le (hi_event x) (hi_event y).
Proof. done. Qed.

(** ** What is left to emit

    An item stands for its event and the rest of its slice. *)
Section merge.
Context (slices : list (list Event)).

Definition item_rest (x : heapItem) : list Event := drop (hi_pos x) (nth (hi_slice x) slices []).

Definition item_ok (x : heapItem) : Prop :=
  nth (hi_slice x) slices [] !! hi_pos x = Some (hi_event x).

Definition pending (h : list heapItem) : list Event := concat (map item_rest h).

Lemma item_rest_cons x :
  item_ok x → item_rest x = hi_event x :: drop (S (hi_pos x)) (nth (hi_slice x) slices []).
Proof. intros Hx. by apply drop_S. Qed.

#[export] Instance pending_perm : Proper ((≡ₚ) ==> (≡ₚ)) pending.
Proof.
  intros h h' Hp. unfold pending. induction Hp; simpl.
  - done.
  - by f_equiv.
  - rewrite !app_assoc. f_equiv. apply Permutation_app_comm.
  - by etransitivity.
Qed.

(** One round: the popped event and what is pending afterwards. *)
Lemma merge_round h h1 x :
  h ≠ [] → heap_ok zero_item item_less (length h) h → Forall item_ok h →
  heap_Pop zero_item item_less h = (h1, x) →
  let h2 := match nth (hi_slice x) slices [] !! S (hi_pos x) with
            | Some e => heap_Push zero_item item_less h1 (mkItem e (hi_slice x) (S (hi_pos x)))
            | None => h1
            end in
  heap_ok zero_item item_less (length h2) h2 ∧ Forall item_ok h2 ∧
  pending h ≡ₚ hi_event x :: pending h2 ∧ (∀ y, y ∈ h → ev_le (hi_event x) (hi_event y)).
Proof.
  intros Hne Hh Hok E h2. pose proof (heap_Pop_spec _ _ item_less_strict_weak _ _ _ Hne Hh E)
    as (Hperm & Hh1 & Hmin).
  rewrite Hperm in Hok. apply Forall_cons in Hok as [Hx Hok1].
  assert (∀ y, y ∈ h → ev_le (hi_event x) (hi_event y)) as Hmin'.
  { intros y Hy. by apply item_le_ev, Hmin. }
  assert (pending h ≡ₚ hi_event x :: drop (S (hi_pos x)) (nth (hi_slice x) slices []) ++ pending h1)
    as Hpend.
  { rewrite Hperm. unfold pending. cbn [map concat]. by rewrite item_rest_cons. }
  subst h2. destruct (_ !! S (hi_pos x)) as [e|] eqn:He.
  - destruct (heap_Push_spec _ _ item_less_strict_weak h1 (mkItem e (hi_slice x) (S (hi_pos x))) Hh1)
      as [Hh2 Hp2].
    assert (item_ok (mkItem e (hi_slice x) (S (hi_pos x)))) as Hnew by exact He.
    split; [by rewrite (Permutation_length Hp2)|]. split; [rewrite Hp2; by apply Forall_cons|].
    split; [|done]. rewrite Hpend, Hp2. unfold pending. cbn [map concat]. done.
  - split; [done|]. split; [done|]. split; [|done]. rewrite Hpend.
    rewrite drop_ge by (by apply lookup_ge_None). done.
Qed.

Lemma item_rest_head x y :
  Forall (StronglySorted ev_le) slices → item_ok x → y ∈ item_rest x → ev_le (hi_event x) y.
Proof.
  intros Hs Hx Hy. assert (StronglySorted ev_le (item_rest x)) as Hsort.
  { unfold item_rest. destruct (nth_in_or_default (hi_slice x) slices []) as [Hin|Hd].
    - rewrite Forall_forall in Hs. apply list_elem_of_In, Hs in Hin.
      rewrite <- (take_drop (hi_pos x) (nth _ _ _)) in Hin. by apply StronglySorted_app_1_r in Hin.
    - rewrite Hd, drop_nil. constructor. }
  rewrite item_rest_cons in Hsort, Hy by done. apply StronglySorted_inv in Hsort as [_ Hall].
  apply elem_of_cons in Hy as [->|Hy]; [reflexivity|]. rewrite Forall_forall in Hall. by apply Hall.
Qed.

Lemma merge_loop_perm fuel h res :
  heap_ok zero_item item_less (length h) h → Forall item_ok h → (length (pending h) <= fuel)%nat →
  merge_loop fuel slices h res ≡ₚ res ++ pending h.
Proof.
  revert h res. induction fuel as [|fuel IH]; intros [|x0 h0] res Hh Hok Hf; cbn [merge_loop];
    try (by rewrite app_nil_r).
  - apply Forall_cons in Hok as [Hx _]. unfold pending in Hf. cbn [map concat] in Hf.
    rewrite item_rest_cons in Hf by done. simpl in Hf. lia.
  - destruct (heap_Pop zero_item item_less (x0 :: h0)) as [h1 x] eqn:E.
    destruct (merge_round (x0 :: h0) h1 x ltac:(done) Hh Hok E) as (Hh2 & Hok2 & Hp & _).
    rewrite IH; [|done|done|].
    + rewrite Hp, <- app_assoc. done.
    + apply Permutation_length in Hp. simpl in Hp. lia.
Qed.

Lemma merge_loop_sorted fuel h res :
  heap_ok zero_item item_less (length h) h → Forall item_ok h →
  Forall (StronglySorted ev_le) slices → StronglySorted ev_le res →
  (∀ a b, a ∈ res → b ∈ pending h → ev_le a b) →
  StronglySorted ev_le (merge_loop fuel slices h res).
Proof.
  intros Hh Hok Hs. revert h res Hh Hok.
  induction fuel as [|fuel IH]; intros [|x0 h0] res Hh Hok Hres Hle; cbn [merge_loop]; try done.
  destruct (heap_Pop zero_item item_less (x0 :: h0)) as [h1 x] eqn:E.
  destruct (merge_round (x0 :: h0) h1 x ltac:(done) Hh Hok E) as (Hh2 & Hok2 & Hp & Hmin).
  assert (∀ b, b ∈ pending (x0 :: h0) → ev_le (hi_event x) b) as Hx.
  { intros b Hb. unfold pending in Hb. apply list_elem_of_In, in_concat in Hb as (l & Hl & Hb).
    apply in_map_iff in Hl as (y & <- & Hy). apply list_elem_of_In in Hy. apply list_elem_of_In in Hb.
    rewrite Forall_forall in Hok. transitivity (hi_event y); [by apply Hmin|].
    by apply item_rest_head; [|apply Hok|]. }
  apply IH; try done.
  - apply StronglySorted_app_2; [|done|repeat constructor].
    intros a b Ha Hb. apply list_elem_of_singleton in Hb as ->. apply Hle; [done|].
    rewrite Hp. left.
  - intros a b [Ha|Ha]%elem_of_app Hb.
    + apply Hle; [done|]. rewrite Hp. by right.
    + apply list_elem_of_singleton in Ha as ->. apply Hx. rewrite Hp. by right.
Qed.
End merge.

Lemma push_heads_spec slices pre rest h :
  slices = pre ++ rest → heap_ok zero_item item_less (length h) h → Forall (item_ok slices) h →
  let h' := push_heads (length pre) rest h in
  heap_ok zero_item item_less (length h') h' ∧ Forall (item_ok slices) h' ∧
  pending slices h' ≡ₚ pending slices h ++ concat rest.
Proof.
  revert pre h. induction rest as [|s rest IH]; intros pre h Hsl Hh Hok; cbn [push_heads concat].
  { split; [done|]. split; [done|]. by rewrite app_nil_r. }
  assert (slices = (pre ++ [s]) ++ rest) as Hsl' by (by rewrite <- app_assoc).
  assert (S (length pre) = length (pre ++ [s])) as -> by (rewrite length_app; simpl; lia).
  destruct s as [|e s]; [by apply IH|].
  destruct (heap_Push_spec _ _ item_less_strict_weak h (mkItem e (length pre) 0) Hh) as [Hh2 Hp2].
  assert (nth (length pre) slices [] = e :: s) as Hnth
    by (rewrite Hsl, app_nth2, Nat.sub_diag by lia; done).
  assert (item_ok slices (mkItem e (length pre) 0)) as Hnew.
  { unfold item_ok. cbn [hi_slice hi_pos hi_event]. by rewrite Hnth. }
  destruct (IH _ (heap_Push zero_item item_less h (mkItem e (length pre) 0)) Hsl') as (H1 & H2 & H3).
  - by rewrite (Permutation_length Hp2).
  - rewrite Hp2. by apply Forall_cons.
  - split; [done|]. split; [done|]. rewrite H3, Hp2. unfold pending. cbn [map concat].
    unfold item_rest at 1. cbn [hi_slice hi_pos]. rewrite Hnth, drop_0.
    rewrite (Permutation_app_comm (e :: s)), <- app_assoc. done.
Qed.

Lemma MergeEvents_spec slices :
  MergeEvents slices ≡ₚ concat slices ∧
  (Forall (StronglySorted ev_le) slices → StronglySorted ev_le (MergeEvents slices)).
Proof.
  unfold MergeEvents. destruct slices as [|s1 [|s2 rest]].
  - split; [done|constructor].
  - cbn [concat]. rewrite app_nil_r. split; [done|]. by intros [? _]%Forall_cons.
  - set (slices := s1 :: s2 :: rest).
    destruct (push_heads_spec slices [] slices [] eq_refl) as (H1 & H2 & H3);
      [intros c Hc; simpl in Hc; lia|apply Forall_nil_2|].
    cbn [length] in *. rewrite app_nil_l in H3.
    destruct (Nat.eqb_spec (length (concat slices)) 0) as [E|_].
    + apply nil_length_inv in E. rewrite E. split; [done|constructor].
    + split.
      * rewrite merge_loop_perm, H3 by (done || by rewrite H3). done.
      * intros Hs. apply merge_loop_sorted; try done; [constructor|].
        intros a b Ha. by apply not_elem_of_nil in Ha.
Qed.

(** C23: Merging returns every event of every slice exactly as often as it
    occurs, whatever the slices, and if they are sorted by (key hash,
    timestamp) then so is the result, of length the sum of theirs. *)
Theorem MergeEvents_correct slices :
  MergeEvents slices ≡ₚ concat slices ∧
  length (MergeEvents slices) = sum_list_with length slices ∧
  (Forall (StronglySorted ev_le) slices → StronglySorted ev_le (MergeEvents slices)).
Proof.
  destruct (MergeEvents_spec slices) as [Hp Hs]. split; [done|]. split; [|done].
  rewrite (Permutation_length Hp). clear. induction slices as [|s l IH]; [done|].
  simpl. by rewrite length_app, IH.
Qed.

(** Two blocks' results, interleaved. *)
Definition two_slices : list (list Event) :=
  [[mkEvent 1 10 []; mkEvent 1 30 []]; []; [mkEvent 1 20 [7]]].

Lemma MergeEvents_correct_witness :
  MergeEvents two_slices = [mkEvent 1 10 []; mkEvent 1 20 [7]; mkEvent 1 30 []] ∧
  StronglySorted ev_le (MergeEvents two_slices).
Proof.
  split; [vm_compute; reflexivity|]. apply (MergeEvents_correct two_slices).
  repeat (apply Forall_cons; split); try apply Forall_nil_2; repeat constructor.
Defined.
