(* ===== verification/Index.v ===== *)
(** * The sparse index: [internal/index/index.go] *)
From S2P Require Import Prelude GoTime GoFmt Pebble PebbleRef Keys IdxDB Event Tier.

(** [strconv.Atoi] errors are ignored: the number is then what [Atoi] returns. *)
Definition parseBlockHour (id : BlockID) : result time :=
  match SplitN2 colon id with
  | [_; hourStr] =>
      match SplitN2 84 hourStr with
      | [date; hour] =>
          match Split 45 date with
          | [year; month; day] =>
              Ok (Date (Atoi year).1 (Atoi month).1 (Atoi day).1 (Atoi hour).1)
          | _ => Err (EMsg "invalid block ID date")
          end
      | _ => Err (EMsg "invalid block ID hour")
      end
  | _ => Err (EMsg "invalid block ID")
  end.

(** The block's hour [h, h+1h) overlaps the range: [blockHour.Before(to) &&
    blockEnd.After(from)]. *)
Definition hour_overlaps (from to : time) (id : BlockID) : bool :=
  match parseBlockHour id with
  | Err _ => false
  | Ok blockHour =>
      let blockEnd := blockHour + Hour in
      (blockHour <? to) && (from <? blockEnd)
  end.

Section index.
Context `{PebbleOps}.

Definition AddBlock (eventType keyHash : Z) (blockID : BlockID) : ST pdb unit :=
  PutIdxBatch eventType [keyHash] blockID.

Definition Lookup (eventType keyHash : Z) (from to : time) : ST pdb (list BlockID) :=
  let! all := IdxLookupBlocks eventType keyHash in
  st_ret (List.filter (hour_overlaps from to) all).
End index.

(** ** Identifiers carry their hour *)
Lemma parse_BlockIDForShard shard t :
  is_u16 shard → is_i64 t → parseBlockHour (BlockIDForShard shard t) = Ok (t - t mod Hour).
Proof.
  intros Hs Ht. pose proof (Year_range t Ht). pose proof (fields_range t) as (? & ? & ?).
  assert (∀ n z, 0 <= z → 45 ∉ sprintf_0d n z) as Hdash by (intros; apply dec_notin; [done|lia]).
  assert (∀ n z, 0 <= z → 84 ∉ sprintf_0d n z) as HT by (intros; apply dec_notin; [done|lia]).
  unfold parseBlockHour, BlockIDForShard. rewrite BlockID_split by done. unfold hour_string.
  set (date := sprintf_0d 4 (Year t) ++ [45] ++ sprintf_0d 2 (Month t) ++ [45] ++ sprintf_0d 2 (Day t)).
  assert (SplitN2 84 (sprintf_0d 4 (Year t) ++ [45] ++ sprintf_0d 2 (Month t) ++ [45] ++
            sprintf_0d 2 (Day t) ++ [84] ++ sprintf_0d 2 (HourOf t)) = [date; sprintf_0d 2 (HourOf t)]) as ->.
  { replace (_ ++ _) with (date ++ 84 :: sprintf_0d 2 (HourOf t))
      by (unfold date; by rewrite <- !app_assoc).
    apply SplitN2_app. unfold date. rewrite !not_elem_of_app, !list_elem_of_singleton.
    repeat split; try done; apply HT; lia. }
  assert (Split 45 date = [sprintf_0d 4 (Year t); sprintf_0d 2 (Month t); sprintf_0d 2 (Day t)]) as ->.
  { unfold date. cbn [app]. rewrite !Split_app by (apply Hdash; lia).
    rewrite Split_none by (apply Hdash; lia). done. }
  assert (∀ z, 0 <= z <= 9999 → z <= max_int) by (unfold max_int; lia).
  rewrite !Atoi_sprintf by (unfold max_int; lia). cbn [fst]. by rewrite Date_fields.
Qed.

Section lookup.
Context `{Pebble}.

Lemma Lookup_spec et kh from to db db' ids :
  is_u64 kh → db_ok (view db) → Lookup et kh from to db = (db', Ok ids) →
  view db' = view db ∧ StronglySorted blt ids ∧
  ∀ id, id ∈ ids ↔ indexed et kh id (view db) ∧ hour_overlaps from to id = true.
Proof.
  intros Hk Hdb. unfold Lookup. intros (db1 & all & E & E2)%st_bind_ok. injection E2 as <- <-.
  apply IdxLookupBlocks_spec in E as (Hv & Hsort & Hin); try done. split; [done|]. split.
  - clear Hin. induction Hsort as [|x l Hs IH Hall]; simpl; [constructor|].
    destruct (hour_overlaps from to x); [|done]. constructor; [done|].
    rewrite Forall_forall in Hall. apply Forall_forall. intros y Hy. apply Hall.
    apply list_elem_of_In, filter_In in Hy as [Hy _]. by apply list_elem_of_In.
  - intros id. rewrite <- Hin. rewrite !list_elem_of_In. apply filter_In.
Qed.

Lemma Lookup_view et kh from to db db' r :
  Lookup et kh from to db = (db', r) → view db' = view db.
Proof.
  unfold Lookup, IdxLookupBlocks, st_bind, st_ret.
  destruct (piter _ _ db) as [db1 [es|e]] eqn:E; intros [= <- _]; by eapply piter_view.
Qed.

(** A lookup returns, each once and in byte order, exactly the blocks
    indexed for the key whose hour overlaps the time range: the hour is
    recovered from the identifier, for every shard and every time. *)
Theorem Lookup_exact et kh from to db db' ids shard t :
  is_u64 kh → db_ok (view db) → is_u16 shard → is_i64 t →
  Lookup et kh from to db = (db', Ok ids) →
  StronglySorted blt ids ∧
  (BlockIDForShard shard t ∈ ids ↔
   indexed et kh (BlockIDForShard shard t) (view db) ∧
   t - t mod Hour < to ∧ from < t - t mod Hour + Hour).
Proof.
  intros Hk Hdb Hs Ht E. apply Lookup_spec in E as (_ & Hsort & Hin); try done.
  split; [done|]. rewrite Hin. unfold hour_overlaps. rewrite parse_BlockIDForShard by done.
  rewrite andb_true_iff, Z.ltb_lt, Z.ltb_lt. done.
Qed.
End lookup.

Lemma blt_sorted_NoDup l : StronglySorted blt l → NoDup l.
Proof.
  induction 1 as [|x l Hs IH Hall]; constructor; [|done]. intros Hin.
  rewrite Forall_forall in Hall. apply (irreflexivity blt x). by apply Hall.
Qed.

(** ** The interface [index.Index] and what its clients may rely on *)
Record Index `{PebbleOps} := mkIndex {
  ix_AddBlock : Z → Z → BlockID → ST pdb unit;
  ix_Lookup : Z → Z → time → time → ST pdb (list BlockID);
}.
Arguments ix_AddBlock {_} _ _ _ _.
Arguments ix_Lookup {_} _ _ _ _ _.

Definition NewSparseIndex `{PebbleOps} : Index := mkIndex _ AddBlock Lookup.

Class IndexLaws `{Pebble} (ix : Index) : Prop := {
  ix_add et kh id db db' : is_u8 et → is_u64 kh → db_ok (view db) → ix_AddBlock ix et kh id db = (db', Ok tt) →
    db_ok (view db') ∧
    ∀ et' kh' id', is_u64 kh' →
      indexed et' kh' id' (view db') ↔ (et' = et ∧ kh' = kh ∧ id' = id) ∨ indexed et' kh' id' (view db);
  ix_find et kh from to db db' ids : is_u64 kh → db_ok (view db) → ix_Lookup ix et kh from to db = (db', Ok ids) →
    view db' = view db ∧ NoDup ids ∧
    ∀ id, id ∈ ids ↔ indexed et kh id (view db) ∧ hour_overlaps from to id = true;
}.

#[export] Instance SparseIndexLaws `{Pebble} : IndexLaws NewSparseIndex.
Proof.
  split.
  - intros et kh id db db' He Hk Hdb E. change (PutIdxBatch et [kh] id db = (db', Ok tt)) in E. apply PutIdxBatch_ok in E as ->.
    assert (Forall is_u64 [kh]) as Hu by (by apply Forall_singleton).
    split; [by apply put_idx_ok|].
    intros et' kh' id' Hk'. rewrite indexed_put_idx by done. by rewrite list_elem_of_singleton.
  - intros et kh from to db db' ids Hk Hdb E. apply Lookup_spec in E as (Hv & Hs & Hin); [|done|done].
    split; [done|]. split; [by apply blt_sorted_NoDup|done].
Qed.

(** Against the interface: what was added is found, by ranges its hour overlaps. *)
Lemma added_is_found `{IndexLaws ix} et kh id from to db db1 db2 ids :
  is_u8 et → is_u64 kh → db_ok (view db) → ix_AddBlock ix et kh id db = (db1, Ok tt) →
  ix_Lookup ix et kh from to db1 = (db2, Ok ids) → id ∈ ids ↔ hour_overlaps from to id = true.
Proof.
  intros He Hk Hdb E1 E2. destruct (ix_add (ix := ix) _ _ _ _ _ He Hk Hdb E1) as [Hdb1 Hi].
  destruct (ix_find (ix := ix) _ _ _ _ _ _ _ Hk Hdb1 E2) as (_ & _ & Hin). rewrite Hin, Hi by done. tauto.
Qed.

(** A block of 03:00 is found for a range within its hour, not for the next one. *)
Definition indexed_db : @pdb RefOps := (AddBlock 1 9 sample_id empty_db).1.

Lemma Lookup_exact_witness :
  (Lookup 1 9 (3 * Hour + 5) (3 * Hour + 6) indexed_db).2 = Ok [sample_id] ∧
  ¬ sample_id ∈ (match (Lookup 1 9 (4 * Hour) (5 * Hour) indexed_db).2 with
                 | Ok l => l | Err _ => [] end).
Proof.
  split; [vm_compute; reflexivity|].
  destruct (Lookup_exact 1 9 (4 * Hour) (5 * Hour) indexed_db indexed_db [] 263 (3 * Hour))
    as [_ Hin].
  - unfold is_u64. lia.
  - assert (view indexed_db = put_idx 1 [9] sample_id ∅) as -> by reflexivity.
    apply put_idx_ok; [unfold is_u8; lia|repeat constructor; unfold is_u64; lia|apply db_ok_empty].
  - unfold is_u16. lia.
  - by vm_compute.
  - vm_compute. reflexivity.
  - intros Hmem. assert (sample_id ∈ @nil BlockID) as Hnil by exact Hmem.
    apply Hin in Hnil as [_ [_ Hlt]]. by vm_compute in Hlt.
Defined.
