(* ===== verification/BloomCache.v ===== *)
(** * The bloom filter cache: [internal/index/bloom_cache.go]

    [order] is the list of cached entries, most recently used first; [items]
    maps an identifier to its element.  An element is identified by the
    identifier of its entry, of which the list holds at most one.  The mutex
    makes every operation atomic. *)
From S2P Require Import Prelude GoOs PebbleRef Keys Event Memtable Bloom Tier.

Section cache.
Context `{BloomLib}.

Record bloomEntry := mkBloomEntry { be_id : BlockID; be_filter : bloomT; be_size : Z }.

Record BloomCache := mkBloomCache {
  bc_store : TierStore;
  maxMem : Z;
  usedMem : Z;
  items : gmap BlockID bloomEntry;
  order : list bloomEntry;
}.

Definition NewBloomCache (store : TierStore) (maxMemBytes : Z) : BloomCache :=
  mkBloomCache store maxMemBytes 0 ∅ [].

(** [c.order.Remove(elem)] *)
Definition list_Remove (id : BlockID) (l : list bloomEntry) : list bloomEntry :=
  filter (fun e => be_id e ≠ id) l.

Definition removeElem (c : BloomCache) (entry : bloomEntry) : BloomCache :=
  mkBloomCache (bc_store c) (maxMem c) (usedMem c - be_size entry)
    (delete (be_id entry) (items c)) (list_Remove (be_id entry) (order c)).

Definition evictOldest (c : BloomCache) : BloomCache :=
  match last (order c) with
  | None => c
  | Some back => removeElem c back
  end.

Definition Evict (c : BloomCache) (id : BlockID) : BloomCache :=
  match items c !! id with
  | Some entry => removeElem c entry
  | None => c
  end.

(** The eviction loop: every round removes an entry, so there are at most as
    many rounds as entries. *)
Fixpoint evict_until (fuel : nat) (size : Z) (c : BloomCache) : BloomCache :=
  if (0 <? maxMem c) && (maxMem c <? usedMem c + size) && (0 <? length (order c))%nat
  then match fuel with O => c | S fuel => evict_until fuel size (evictOldest c) end
  else c.

Definition loadFromDisk (c : BloomCache) (id : BlockID) : ST FS (bloomT * Z) :=
  let path := BloomPath (bc_store c) id in
  let! data := ReadFile path in
  fun s => match DeserializeBloom data with
           | Ok bf => (s, Ok (bf, zlen data))
           | Err e => (s, Err e)
           end.

Definition Test (id : BlockID) (keyHash : Z) : ST (BloomCache * FS) bool := fun '(c, s) =>
  match items c !! id with
  | Some entry =>
      let c' := mkBloomCache (bc_store c) (maxMem c) (usedMem c) (items c)
                  (entry :: list_Remove id (order c)) in
      ((c', s), Ok (TestHash (be_filter entry) keyHash))
  | None =>
      match loadFromDisk c id s with
      | (s', Err e) => if is_not_exist e then ((c, s'), Ok false) else ((c, s'), Err e)
      | (s', Ok (bf, size)) =>
          let c1 := evict_until (length (order c)) size c in
          let entry := mkBloomEntry id bf size in
          let c2 := mkBloomCache (bc_store c1) (maxMem c1) (usedMem c1 + size)
                      (<[id := entry]> (items c1)) (entry :: order c1) in
          ((c2, s'), Ok (TestHash bf keyHash))
      end
  end.

(** ** Invariant *)
Definition sizes (l : list bloomEntry) : Z := foldr (fun e n => be_size e + n) 0 l.

Record cache_inv (c : BloomCache) : Prop := {
  ci_items id e : items c !! id = Some e ↔ e ∈ order c ∧ be_id e = id;
  ci_nodup : NoDup (map be_id (order c));
  ci_used : usedMem c = sizes (order c);
  ci_size : Forall (fun e => 0 <= be_size e) (order c);
  (** Within the limit, unless a single filter exceeds it. *)
  ci_max : 0 < maxMem c → usedMem c <= maxMem c ∨ (length (order c) <= 1)%nat;
}.

(** Every cached filter is the one on disk. *)
Definition coherent (c : BloomCache) (m : gmap bytes bytes) : Prop :=
  ∀ e, e ∈ order c → ∃ data, m !! BloomPath (bc_store c) (be_id e) = Some data ∧
                             DeserializeBloom data = Ok (be_filter e).

(** The same for the filters of some blocks. *)
Definition coherent_on (P : BlockID → Prop) (c : BloomCache) (m : gmap bytes bytes) : Prop :=
  ∀ e, e ∈ order c → P (be_id e) → ∃ data, m !! BloomPath (bc_store c) (be_id e) = Some data ∧
                                            DeserializeBloom data = Ok (be_filter e).

Lemma coherent_on_weaken P c m : coherent c m → coherent_on P c m.
Proof. intros Hc e He _. by apply Hc. Qed.

Lemma coherent_on_all c m : coherent_on (fun _ => True) c m → coherent c m.
Proof. intros Hc e He. by apply Hc. Qed.

Lemma NewBloomCache_inv store n m :
  cache_inv (NewBloomCache store n) ∧ coherent (NewBloomCache store n) m.
Proof.
  split; [|by intros e He%not_elem_of_nil]. split; simpl; try done.
  - intros id e. rewrite lookup_empty. split; [done|]. by intros [He%not_elem_of_nil _].
  - constructor.
  - intros _. right. lia.
Qed.

Lemma elem_of_Remove id l e : e ∈ list_Remove id l ↔ e ∈ l ∧ be_id e ≠ id.
Proof. unfold list_Remove. rewrite list_elem_of_filter. tauto. Qed.

Lemma Remove_none id l : (∀ e, e ∈ l → be_id e ≠ id) → list_Remove id l = l.
Proof.
  unfold list_Remove. induction l as [|x l IH]; intros Hl; [done|].
  rewrite filter_cons_True by (apply Hl; left). f_equal. apply IH.
  intros e He. apply Hl. by right.
Qed.

(** An element occurs once: taking it out of the list leaves the others. *)
Lemma Remove_perm l e :
  NoDup (map be_id l) → e ∈ l → l ≡ₚ e :: list_Remove (be_id e) l.
Proof.
  induction l as [|x l IH]; intros Hnd He; [by apply not_elem_of_nil in He|].
  cbn [map] in Hnd. apply NoDup_cons in Hnd as [Hx Hnd].
  assert (∀ y, y ∈ l → be_id y ≠ be_id x) as Hne.
  { intros y Hy E. apply Hx. rewrite <- E. apply list_elem_of_In, in_map. by apply list_elem_of_In. }
  unfold list_Remove. apply elem_of_cons in He as [->|He].
  - rewrite filter_cons_False by (by intros []). fold (list_Remove (be_id x) l).
    by rewrite Remove_none.
  - rewrite filter_cons_True by (intros E; by apply (Hne e)). fold (list_Remove (be_id e) l).
    rewrite perm_swap, <- IH by done. done.
Qed.

Lemma sizes_perm l l' : l ≡ₚ l' → sizes l = sizes l'.
Proof. unfold sizes. induction 1; simpl; lia. Qed.

Lemma removeElem_inv c e : cache_inv c → e ∈ order c → cache_inv (removeElem c e).
Proof.
  intros [Hi Hn Hu Hs Hm] He. pose proof (Remove_perm _ _ Hn He) as Hp.
  rewrite Hp in Hn. cbn [map] in Hn. apply NoDup_cons in Hn as [_ Hn].
  rewrite (sizes_perm _ _ Hp) in Hu. cbn [sizes foldr] in Hu. fold (sizes (list_Remove (be_id e) (order c))) in Hu.
  rewrite Hp in Hs. apply Forall_cons in Hs as [Hse Hs].
  apply Permutation_length in Hp. simpl in Hp.
  split; cbn [removeElem items order usedMem maxMem]; try done.
  - intros id x. rewrite lookup_delete_Some, Hi, elem_of_Remove. split.
    + intros (Hne & Hx & <-). auto.
    + intros [[Hx Hne] <-]. auto.
  - lia.
  - intros Hpos. destruct (Hm Hpos); [left|right]; lia.
Qed.

(** Removing entries keeps the rest coherent. *)
Definition shrinks (c c' : BloomCache) : Prop :=
  cache_inv c' ∧ bc_store c' = bc_store c ∧ maxMem c' = maxMem c ∧
  ∀ e, e ∈ order c' → e ∈ order c.

Lemma shrinks_removeElem c e : cache_inv c → e ∈ order c → shrinks c (removeElem c e).
Proof.
  intros Hc He. split; [by apply removeElem_inv|]. split; [done|]. split; [done|].
  intros x. cbn [removeElem order]. rewrite elem_of_Remove. tauto.
Qed.

Lemma shrinks_coherent P c c' m : shrinks c c' → coherent_on P c m → coherent_on P c' m.
Proof. intros (_ & Hst & _ & Hsub) Hco e He. rewrite Hst. by apply Hco, Hsub. Qed.

Lemma length_removeElem c e :
  cache_inv c → e ∈ order c → length (order c) = S (length (order (removeElem c e))).
Proof. intros [_ Hn _ _ _] He. apply (Permutation_length (Remove_perm _ _ Hn He)). Qed.

(** The loop ends with enough room or an empty cache. *)
Lemma evict_until_spec fuel size c :
  cache_inv c → (length (order c) <= fuel)%nat →
  let c' := evict_until fuel size c in
  shrinks c c' ∧ (0 < maxMem c → usedMem c' + size <= maxMem c ∨ order c' = []).
Proof.
  revert c. induction fuel as [|fuel IH]; intros c Hc Hf; cbn [evict_until].
  - assert (order c = []) as Ho by (apply nil_length_inv; lia).
    rewrite Ho. cbn [length]. rewrite andb_false_r. split; [|by right].
    split; [done|]. split; [done|]. split; [done|]. by rewrite Ho.
  - destruct (_ && _) eqn:E.
    + apply andb_true_iff in E as [_ Hpos%Nat.ltb_lt].
      assert (is_Some (last (order c))) as [e Hl] by (apply last_is_Some; by destruct (order c); simpl in *; [lia|]).
      assert (e ∈ order c) as He by (apply last_Some in Hl as [l' ->]; apply elem_of_app; right; left).
      unfold evictOldest. rewrite Hl. pose proof (length_removeElem c e Hc He) as Hlen.
      pose proof (shrinks_removeElem c e Hc He) as Hsh1.
      destruct (IH (removeElem c e)) as [Hsh2 Hroom]; [apply Hsh1|lia|].
      cbn [removeElem maxMem] in Hroom. split; [|done].
      destruct Hsh1 as (_ & S1 & M1 & O1), Hsh2 as (I2 & S2 & M2 & O2).
      split; [done|]. split; [congruence|]. split; [congruence|]. auto.
    + split; [split; [done|]; done|]. intros Hpos.
      apply andb_false_iff in E as [[E|E]%andb_false_iff|E].
      * apply Z.ltb_ge in E. lia.
      * apply Z.ltb_ge in E. by left.
      * apply Nat.ltb_ge in E. right. apply nil_length_inv. lia.
Qed.

Lemma Test_hit_inv c id e :
  cache_inv c → items c !! id = Some e →
  cache_inv (mkBloomCache (bc_store c) (maxMem c) (usedMem c) (items c)
               (e :: list_Remove id (order c))).
Proof.
  intros Hc Hit. pose proof Hc as [Hi Hn Hu Hs Hm]. apply Hi in Hit as [He <-].
  pose proof (Remove_perm _ _ Hn He) as Hp.
  split; cbn [items order usedMem maxMem].
  - intros id x. by rewrite Hi, <- Hp.
  - by rewrite <- Hp.
  - by rewrite <- (sizes_perm _ _ Hp).
  - by rewrite <- Hp.
  - intros Hpos. rewrite <- (Permutation_length Hp). auto.
Qed.

Lemma Test_miss_inv c id bf size :
  cache_inv c → (∀ e, e ∈ order c → be_id e ≠ id) → 0 <= size →
  (0 < maxMem c → usedMem c + size <= maxMem c ∨ order c = []) →
  cache_inv (mkBloomCache (bc_store c) (maxMem c) (usedMem c + size)
               (<[id := mkBloomEntry id bf size]> (items c)) (mkBloomEntry id bf size :: order c)).
Proof.
  intros [Hi Hn Hu Hs Hm] Hnew Hsz Hroom. split; cbn [items order usedMem maxMem map].
  - intros id' x. rewrite lookup_insert_Some, Hi, elem_of_cons. split.
    + intros [[<- <-]|(Hne & Hx & <-)]; auto.
    + intros [[-> |Hx] <-]; [by left|]. right. split; [|done]. apply not_eq_sym. by apply Hnew.
  - apply NoDup_cons. split; [|done]. rewrite list_elem_of_In, in_map_iff.
    intros (x & Hx & Hin). apply list_elem_of_In in Hin. by apply (Hnew x).
  - simpl. rewrite Hu. unfold sizes. lia.
  - by apply Forall_cons.
  - intros Hpos. destruct (Hroom Hpos) as [?| ->]; [left; lia|right; simpl; lia].
Qed.

Lemma loadFromDisk_ok c id s s' bf size :
  loadFromDisk c id s = (s', Ok (bf, size)) →
  files s' = files s ∧ 0 <= size ∧
  ∃ data, files s !! BloomPath (bc_store c) id = Some data ∧ DeserializeBloom data = Ok bf.
Proof.
  unfold loadFromDisk. intros (s1 & data & E & E2)%st_bind_ok.
  pose proof (ReadFile_files _ _ _ _ E) as Hf. apply ReadFile_ok in E.
  destruct (DeserializeBloom data) as [f|e] eqn:Hd; [|done]. injection E2 as <- <- <-.
  split; [done|]. split; [unfold zlen; lia|]. by exists data.
Qed.

Lemma loadFromDisk_err c id s s' e :
  loadFromDisk c id s = (s', Err e) →
  files s' = files s ∧
  (is_not_exist e = true →
   match files s !! BloomPath (bc_store c) id with
   | None => True
   | Some data => DeserializeBloom data = Err e
   end).
Proof.
  unfold loadFromDisk, st_bind.
  destruct (ReadFile _ s) as [s1 [data|e1]] eqn:E; pose proof (ReadFile_files _ _ _ _ E) as Hf.
  - apply ReadFile_ok in E. rewrite E. destruct (DeserializeBloom data) as [f|e2] eqn:Hd; [done|].
    by intros [= <- <-].
  - intros [= <- <-]. split; [done|]. intros Hne. by rewrite (ReadFile_not_exist _ _ _ _ E Hne).
Qed.

(** A test may load the one filter it is about. *)
Definition cached_ids (c : BloomCache) : list BlockID := map be_id (order c).

Lemma Test_spec P id kh c s c' s' r :
  cache_inv c → coherent_on P c (files s) → Test id kh (c, s) = ((c', s'), r) →
  cache_inv c' ∧ coherent_on P c' (files s') ∧ files s' = files s ∧ bc_store c' = bc_store c ∧
  (∀ x, x ∈ cached_ids c' → x ∈ cached_ids c ∨ x = id) ∧
  ∀ b, r = Ok b → P id →
    match files s !! BloomPath (bc_store c) id with
    | None => b = false
    | Some data => match DeserializeBloom data with
                   | Ok f => b = TestHash f kh
                   | Err e => b = false ∧ is_not_exist e = true
                   end
    end.
Proof.
  intros Hc Hco E. unfold Test in E. destruct (items c !! id) as [e|] eqn:Hit.
  - injection E as <- <- <-. pose proof (Test_hit_inv c id e Hc Hit) as Hc'.
    pose proof Hc as [Hi Hn _ _ _]. apply Hi in Hit as [He <-].
    split; [done|]. split; [|split; [done|split; [done|split]]].
    + intros x Hx. cbn [order bc_store] in *. rewrite <- Remove_perm in Hx by done. by apply Hco.
    + intros x Hx. left. unfold cached_ids in *. cbn [order] in Hx. by rewrite <- Remove_perm in Hx.
    + intros b [= <-] HP. destruct (Hco e He HP) as (data & -> & ->). done.
  - destruct (loadFromDisk c id s) as [s1 [[bf size]|e]] eqn:EL.
    + apply loadFromDisk_ok in EL as (Hf & Hsz & data & Hd & Hbf).
      destruct (evict_until_spec (length (order c)) size c Hc ltac:(lia)) as [Hsh Hroom].
      set (c1 := evict_until _ _ _) in *. injection E as <- <- <-.
      pose proof Hsh as (Hc1 & Hst & Hmx & Hsub).
      assert (∀ x, x ∈ order c1 → be_id x ≠ id) as Hnew.
      { intros x Hx%Hsub Eid. destruct Hc as [Hi _ _ _ _]. by rewrite (proj2 (Hi id x)) in Hit. }
      split; [apply Test_miss_inv; try done; by rewrite Hmx|]. rewrite Hf. split; [|split; [done|split; [done|split]]].
      * intros x Hx. cbn [order bc_store] in *. apply elem_of_cons in Hx as [->|Hx].
        -- intros _. exists data. by rewrite Hst.
        -- by apply (shrinks_coherent P c c1).
      * intros x Hx. unfold cached_ids in *. cbn [order map] in Hx. apply elem_of_cons in Hx as [->|Hx]; [by right|].
        left. apply list_elem_of_In, in_map_iff in Hx as (y & <- & Hy). apply list_elem_of_In, in_map.
        by apply list_elem_of_In, Hsub, list_elem_of_In.
      * intros b [= <-] _. by rewrite Hd, Hbf.
    + apply loadFromDisk_err in EL as [Hf Hmiss].
      destruct (is_not_exist e) eqn:Ee; injection E as <- <- <-; rewrite Hf.
      * do 4 (split; [done|]). split; [auto|]. intros b [= <-] _. specialize (Hmiss eq_refl).
        destruct (files s !! _) as [data|]; [|done]. by rewrite Hmiss.
      * do 4 (split; [done|]). split; [auto|done].
Qed.

End cache.

(** Two filters of 8 bytes each in a cache of 10: the older one is evicted. *)
Definition filter_fs : FS :=
  mkFS (<[BloomPath (local_tier hot_store) (b!"a") := keys_enc [uint64ToBytes 5]]>
       (<[BloomPath (local_tier hot_store) (b!"b") := keys_enc [uint64ToBytes 6]]> ∅)) [].

