(* ===== verification/Query.v ===== *)
(** * The query engine: [internal/query/query.go]

    A query reads the store, the bloom cache and the disk.  The engine reads
    the blocks in parallel goroutines; a read changes no file and fills its
    own slot of [results], so the model runs the reads in task order. *)
From Stdlib Require Import QArith_base.
From S2P Require Import Prelude GoTime GoOs Pebble PebbleRef Keys Wal BlockMetaDB IdxDB Expiry Event Memtable.
From S2P Require Import Bloom Format Tier World Sealer BlockReader Heap Merger Index BloomCache.
#[local] Open Scope Z_scope.

Record QueryRequest := mkQuery {
  qr_PartitionKey : bytes;
  qr_EventType : option Z;
  qr_From : time;
  qr_To : time;
}.

Section engine.
Context `{PebbleOps} `{BloomLib} `{Zstd} `{XXHash}.

Record QState := mkQState { qs_db : pdb; qs_cache : BloomCache; qs_fs : FS }.

Definition q_db {A} (m : ST pdb A) : ST QState A := fun s =>
  let '(d, r) := m (qs_db s) in (mkQState d (qs_cache s) (qs_fs s), r).
Definition q_bloom {A} (m : ST (BloomCache * FS) A) : ST QState A := fun s =>
  let '((c, f), r) := m (qs_cache s, qs_fs s) in (mkQState (qs_db s) c f, r).
Definition q_fs {A} (m : ST FS A) : ST QState A := fun s =>
  let '(f, r) := m (qs_fs s) in (mkQState (qs_db s) (qs_cache s) f, r).

(** [for et := 0; et < 256; et++] *)
Fixpoint lookup_all (ets : list Z) (keyHash : Z) (from to : time) (blockIDs : list BlockID)
  : ST QState (list BlockID) :=
  match ets with
  | [] => st_ret blockIDs
  | et :: r =>
      let! ids := q_db (Lookup et keyHash from to) in
      lookup_all r keyHash from to (blockIDs ++ ids)
  end.

Definition event_types : list Z := map Z.of_nat (seq 0 256).

(** The blocks that may hold the key and whose tier has a store. *)
Fixpoint build_tasks (tiers : gmap Tier TierStore) (keyHash : Z) (ids : list BlockID)
    (tasks : list (BlockID * TierStore)) : ST QState (list (BlockID * TierStore)) :=
  match ids with
  | [] => st_ret tasks
  | id :: r =>
      let! present := q_bloom (Test id keyHash) in
      if negb present then build_tasks tiers keyHash r tasks
      else fun s =>
        match q_db (GetBlockMeta id) s with
        | (s', Err e) =>
            if is_not_found e then build_tasks tiers keyHash r tasks s' else (s', Err e)
        | (s', Ok bmeta) =>
            match tiers !! bm_Tier bmeta with
            | None => build_tasks tiers keyHash r tasks s'
            | Some store => build_tasks tiers keyHash r (tasks ++ [(id, store)]) s'
            end
        end
  end.

(** Every task runs; its outcome goes to its slot. *)
Fixpoint read_tasks (keyHash : Z) (from to : time) (tasks : list (BlockID * TierStore))
    (results : list (result (list Event))) : ST QState (list (result (list Event))) :=
  match tasks with
  | [] => st_ret results
  | (id, store) :: r => fun s =>
      let '(s', res) := q_fs (ReadBlock store id keyHash from to) s in
      read_tasks keyHash from to r (results ++ [res]) s'
  end.

(** The first error in task order, or the slices that have events. *)
Fixpoint collect (results : list (result (list Event))) (slices : list (list Event))
  : result (list (list Event)) :=
  match results with
  | [] => Ok slices
  | Err e :: _ => Err e
  | Ok [] :: r => collect r slices
  | Ok events :: r => collect r (slices ++ [events])
  end.

(** The candidate blocks of a request. *)
Definition candidates (req : QueryRequest) (keyHash : Z) : ST QState (list BlockID) :=
  match qr_EventType req with
  | Some et => q_db (Lookup et keyHash (qr_From req) (qr_To req))
  | None => lookup_all event_types keyHash (qr_From req) (qr_To req) []
  end.

(** From the candidates to the merged events. *)
Definition read_blocks (tiers : gmap Tier TierStore) (keyHash : Z) (from to : time)
    (blockIDs : list BlockID) : ST QState (list Event) :=
  match blockIDs with
  | [] => st_ret []
  | _ =>
      let! tasks := build_tasks tiers keyHash blockIDs [] in
      match tasks with
      | [] => st_ret []
      | _ =>
          let! results := read_tasks keyHash from to tasks [] in
          let! slices := of_result (collect results []) in
          st_ret (MergeEvents slices)
      end
  end.

Definition Query (tiers : gmap Tier TierStore) (req : QueryRequest) : ST QState (list Event) :=
  if (length (qr_PartitionKey req) =? 0)%nat then st_err (EMsg "PartitionKey must not be empty")
  else if negb (qr_From req <? qr_To req) then st_err (EMsg "From must be before To")
  else
    let keyHash := KeyHashFor (qr_PartitionKey req) in
    let! blockIDs := candidates req keyHash in
    read_blocks tiers keyHash (qr_From req) (qr_To req) blockIDs.
End engine.

(** ** The abstract database

    The sealed blocks: their tier and rows.  [consistent] says that metadata,
    block files and bloom files represent them. *)
Section spec.
Context `{Pebble} `{BloomLib} `{Zstd} `{XXHash} `{MapOrder} `{SliceSort}.

Abbreviation Blocks := (gmap BlockID (Tier * Memtable)).

Record consistent (tiers : gmap Tier TierStore) (cstore : TierStore) (blocks : Blocks)
    (m f : gmap bytes bytes) : Prop := {
  co_db : db_ok m;
  co_meta id t mt : blocks !! id = Some (t, mt) →
    ∃ bm, m !! BlockKey id = Some (encodeBlockMeta bm) ∧ meta_ok bm ∧ bm_Tier bm = t;
  co_none id : blocks !! id = None → m !! BlockKey id = None;
  co_file id t mt : blocks !! id = Some (t, mt) →
    ∃ store hdr, tiers !! t = Some store ∧ file_ok hdr mt ∧
                 f !! BlockPath store id = Some (block_file hdr mt);
  co_sorted id t mt : blocks !! id = Some (t, mt) → StronglySorted ev_le (Rows mt);
  co_bloom id t mt : blocks !! id = Some (t, mt) →
    ∃ fpr data, Serialize (BuildBloomFromMemtable mt fpr) = Ok data ∧
                f !! BloomPath cstore id = Some data;
  co_index id t mt e : blocks !! id = Some (t, mt) → e ∈ Rows mt →
    ∃ et, is_u8 et ∧ indexed et (KeyHash e) id m;
}.

(** What a block contributes to a query. *)
Definition answer (blocks : Blocks) (kh : Z) (from to : time) (id : BlockID) : list Event :=
  match blocks !! id with
  | Some (_, mt) => matching kh (UnixNano from) (UnixNano to) (Rows mt)
  | None => []
  end.

(** A bloom file left over for an index entry of a deleted block can be read. *)
Definition strays_readable (cstore : TierStore) (blocks : Blocks) (kh : Z) (m f : gmap bytes bytes)
  : Prop :=
  ∀ et id data, indexed et kh id m → blocks !! id = None → f !! BloomPath cstore id = Some data →
    ∃ bf, DeserializeBloom data = Ok bf.

(** The index names blocks, present or deleted, and no unreadable bloom file is
    left of a deleted one. *)
Definition index_sound (cstore : TierStore) (blocks : Blocks) (m f : gmap bytes bytes) : Prop :=
  ∀ et kh id, is_u64 kh → indexed et kh id m →
    block_id_ok id ∧
    (blocks !! id = None → ∀ data, f !! BloomPath cstore id = Some data → ∃ bf, DeserializeBloom data = Ok bf).

Lemma index_sound_strays cstore blocks kh m f :
  is_u64 kh → index_sound cstore blocks m f → strays_readable cstore blocks kh m f.
Proof. intros Hk Hi et id data Hx Hn. by apply (Hi et kh id Hk Hx). Qed.

(** The cached filters of the blocks are those on disk; filters of deleted
    blocks may linger. *)
Definition warm (blocks : Blocks) : BloomCache → gmap bytes bytes → Prop :=
  coherent_on (fun id => is_Some (blocks !! id)).

Section steps.
Context (tiers : gmap Tier TierStore) (cstore : TierStore) (blocks : Blocks) (m f : gmap bytes bytes).
Context (Hco : consistent tiers cstore blocks m f).
Context (kh : Z) (from to : time).

(** The state a query leaves unchanged, but for the order of the cache. *)
Record q_inv (s : QState) : Prop := {
  qi_db : view (qs_db s) = m;
  qi_fs : files (qs_fs s) = f;
  qi_store : bc_store (qs_cache s) = cstore;
  qi_cache : cache_inv (qs_cache s);
  qi_warm : warm blocks (qs_cache s) f;
}.

Lemma q_db_inv {A} (g : ST pdb A) s s' r :
  q_inv s → q_db g s = (s', r) → (∀ d d' r', g d = (d', r') → view d' = view d) →
  q_inv s' ∧ g (qs_db s) = (qs_db s', r).
Proof.
  intros [] E Hg. unfold q_db in E. destruct (g (qs_db s)) as [d r'] eqn:Eg. injection E as <- <-.
  split; [|done]. split; try done. cbn [qs_db]. by rewrite (Hg _ _ _ Eg).
Qed.

Lemma q_bloom_inv id s s' r :
  q_inv s → q_bloom (Test id kh) s = (s', r) →
  q_inv s' ∧
  (∀ b, r = Ok b → is_Some (blocks !! id) → match f !! BloomPath cstore id with
                   | None => b = false
                   | Some data => match DeserializeBloom data with
                                  | Ok bf => b = TestHash bf kh
                                  | Err e => b = false ∧ is_not_exist e = true
                                  end
                   end).
Proof.
  intros [Hd Hf Hst Hc Hcoh] E. unfold q_bloom in E.
  destruct (Test id kh (qs_cache s, qs_fs s)) as [[c g] r'] eqn:Et. injection E as <- <-.
  apply (Test_spec (fun id => is_Some (blocks !! id))) in Et as (J5 & J6 & J7 & J8 & _ & J9); [|done|by rewrite Hf].
  rewrite Hf, Hst in J9. rewrite Hf in J7.
  split; [|done]. split; cbn [qs_db qs_fs qs_cache]; try done; try congruence.
  by unfold warm; rewrite <- J7.
Qed.

(** A negative test: the block has no row for the key. *)
Lemma negative_answer id :
  (is_Some (blocks !! id) →
   match f !! BloomPath cstore id with
   | None => True
   | Some data => match DeserializeBloom data with
                  | Ok bf => TestHash bf kh = false
                  | Err e => True
                  end
   end) → answer blocks kh from to id = [].
Proof.
  intros Hneg. unfold answer. destruct (blocks !! id) as [[t mt]|] eqn:Hb; [|done].
  specialize (Hneg ltac:(by eexists)).
  destruct (co_bloom _ _ _ _ _ Hco _ _ _ Hb) as (fpr & data & Hser & Hdata). rewrite Hdata in Hneg.
  destruct (co_file _ _ _ _ _ Hco _ _ _ Hb) as (store & hdr & _ & (_ & Hmt & _ & _) & _).
  unfold Serialize in Hser. apply bf_roundtrip in Hser as (bf & Hbf & Heq).
  unfold DeserializeBloom in Hneg. rewrite Hbf in Hneg. unfold TestHash in Hneg. rewrite Heq in Hneg.
  destruct (matching kh _ _ (Rows mt)) as [|e l] eqn:Hm; [done|]. exfalso.
  assert (e ∈ matching kh (UnixNano from) (UnixNano to) (Rows mt)) as He by (rewrite Hm; left).
  apply list_elem_of_In, filter_In in He as [He Hrow].
  unfold row_matches in Hrow. apply andb_true_iff in Hrow as [Hk%Z.eqb_eq _].
  pose proof (BuildBloom_positive (UniqueKeyHashes mt) fpr kh) as Hpos. unfold TestHash in Hpos.
  unfold BuildBloomFromMemtable in Hneg. rewrite Hpos in Hneg; [done|].
  apply elem_of_UniqueKeyHashes. rewrite (mt_of_Rows mt Hmt), <- Hk. cbn [mt_of keyHashes].
  by apply list_elem_of_In, in_map.
Qed.

(** A task reads a block of the database from the store of its tier. *)
Definition task_ok (t : BlockID * TierStore) : Prop :=
  ∃ ti mt, blocks !! t.1 = Some (ti, mt) ∧ tiers !! ti = Some t.2.

Lemma build_tasks_spec ids tasks s s' tasks' :
  q_inv s → Forall task_ok tasks → build_tasks tiers kh ids tasks s = (s', Ok tasks') →
  q_inv s' ∧ Forall task_ok tasks' ∧
  concat (map (answer blocks kh from to) tasks'.*1)
  = concat (map (answer blocks kh from to) tasks.*1) ++ concat (map (answer blocks kh from to) ids).
Proof.
  revert tasks s. induction ids as [|id ids IH]; intros tasks s Hq Ht; cbn [build_tasks].
  { intros [= <- <-]. cbn [map concat]. by rewrite app_nil_r. }
  intros (s1 & b & E1 & E)%st_bind_ok. apply q_bloom_inv in E1 as [Hq1 Htest]; [|done].
  specialize (Htest b eq_refl). cbn [map concat].
  destruct b; cbn [negb] in E.
  - destruct (q_db (GetBlockMeta id) s1) as [s2 [bm|e]] eqn:E2;
      apply q_db_inv in E2 as [Hq2 E2]; try done; try (intros d d' r' Hg; by eapply GetBlockMeta_view).
    + apply GetBlockMeta_ok in E2 as (v & Hv & Hdec). rewrite (qi_db _ Hq1) in Hv.
      destruct (blocks !! id) as [[t mt]|] eqn:Hb.
      2: { by rewrite (co_none _ _ _ _ _ Hco id Hb) in Hv. }
      destruct (co_meta _ _ _ _ _ Hco _ _ _ Hb) as (bm' & Hv' & Hok' & Hti).
      rewrite Hv in Hv'. injection Hv' as ->. rewrite decode_encodeBlockMeta in Hdec by done.
      injection Hdec as <-. destruct (co_file _ _ _ _ _ Hco _ _ _ Hb) as (store & hdr & Hstore & _).
      rewrite Hti, Hstore in E. apply IH in E as (J5 & J6 & J7); [|done|].
      * split; [done|]. split; [done|]. rewrite J7, fmap_app, map_app, concat_app. simpl.
        rewrite app_nil_r. by rewrite <- app_assoc.
      * apply Forall_app. split; [done|]. apply Forall_cons. split; [|apply Forall_nil_2].
        by exists t, mt.
    + destruct (is_not_found e) eqn:Ee; [|done].
      pose proof (GetBlockMeta_not_found _ _ _ _ E2 Ee) as Hn. rewrite (qi_db _ Hq1) in Hn.
      assert (answer blocks kh from to id = []) as ->.
      { unfold answer. destruct (blocks !! id) as [[t mt]|] eqn:Hb; [|done].
        destruct (co_meta _ _ _ _ _ Hco _ _ _ Hb) as (bm' & Hv' & _). congruence. }
      by eapply IH.
  - rewrite negative_answer; [by eapply IH|]. intros Hsome. specialize (Htest Hsome).
    destruct (f !! _) as [data|]; [|done]. destruct (DeserializeBloom data); [done|done].
Qed.

(** A read returns the block's contribution, or an error. *)
Definition res_ok (t : BlockID * TierStore) (r : result (list Event)) : Prop :=
  r = Ok (answer blocks kh from to t.1) ∨ ∃ e, r = Err e.

Lemma read_task id store s s' r :
  q_inv s → task_ok (id, store) → q_fs (ReadBlock store id kh from to) s = (s', r) →
  q_inv s' ∧ res_ok (id, store) r.
Proof.
  intros [Hd Hf Hst Hc Hcoh] (ti & mt & Hb & Hti) E. cbn [fst snd] in *.
  destruct (co_file _ _ _ _ _ Hco _ _ _ Hb) as (store' & hdr & Hti' & Hok & Hfile).
  rewrite Hti in Hti'. injection Hti' as <-. unfold q_fs in E.
  destruct (reads_ReadBlock store id kh from to f hdr mt Hok Hfile (qs_fs s) Hf) as (J5 & J6 & _).
  destruct (ReadBlock store id kh from to (qs_fs s)) as [g r']. injection E as <- <-.
  cbn [fst snd] in *. split; [by split|]. unfold res_ok, answer. cbn [fst]. rewrite Hb.
  destruct J6 as [->|(e & -> & _)]; [by left|right; by eexists].
Qed.

Lemma read_tasks_spec tasks results s s' results' done' :
  q_inv s → Forall task_ok tasks → Forall2 res_ok done' results →
  read_tasks kh from to tasks results s = (s', Ok results') →
  q_inv s' ∧ Forall2 res_ok (done' ++ tasks) results'.
Proof.
  revert s results done'. induction tasks as [|[id store] tasks IH]; intros s results done' Hq Ht Hr;
    cbn [read_tasks].
  { intros [= <- <-]. by rewrite app_nil_r. }
  apply Forall_cons in Ht as [Ht1 Ht].
  destruct (q_fs (ReadBlock store id kh from to) s) as [s1 r] eqn:E1.
  apply read_task in E1 as [Hq1 Hr1]; try done. intros E.
  apply (IH s1 (results ++ [r]) (done' ++ [(id, store)])) in E as [J5 J6]; try done.
  - by rewrite <- app_assoc in J6.
  - apply Forall2_app; [done|]. by apply Forall2_cons.
Qed.

Lemma collect_spec tasks results slices slices' :
  Forall2 res_ok tasks results → collect results slices = Ok slices' →
  concat slices' = concat slices ++ concat (map (answer blocks kh from to) tasks.*1) ∧
  (Forall (StronglySorted ev_le) slices → Forall (StronglySorted ev_le) slices').
Proof.
  intros Hr. revert slices. induction Hr as [|t r tasks results J5 Hr IH]; intros slices; cbn [collect].
  { intros [= <-]. simpl. by rewrite app_nil_r. }
  destruct J5 as [->|[e ->]]; [|done].
  assert (StronglySorted ev_le (answer blocks kh from to t.1)) as Hs.
  { unfold answer. destruct (blocks !! t.1) as [[ti mt]|] eqn:Hb; [|constructor].
    apply matching_sorted. by eapply (co_sorted _ _ _ _ _ Hco). }
  cbn [fmap list_fmap map concat]. destruct (answer blocks kh from to t.1) as [|e es] eqn:Ha.
  - intros E. by apply IH.
  - intros E. apply IH in E as [J5 J6]. rewrite J5, concat_app. cbn [concat].
    rewrite app_nil_r, <- app_assoc. split; [done|]. intros Hsl. apply J6, Forall_app.
    split; [done|]. apply Forall_cons. by split; [|apply Forall_nil_2].
Qed.

(** The index lookups of a query without an event type. *)
Lemma lookup_all_spec ets ids s s' ids' :
  is_u64 kh → q_inv s → lookup_all ets kh from to ids s = (s', Ok ids') →
  q_inv s' ∧ ∀ id, id ∈ ids' ↔ id ∈ ids ∨ ((∃ et, et ∈ ets ∧ indexed et kh id m) ∧
                                       hour_overlaps from to id = true).
Proof.
  intros Hk. revert s ids. induction ets as [|et ets IH]; intros s ids Hq; cbn [lookup_all].
  { intros [= <- <-]. split; [done|]. intros id. split; [auto|].
    intros [?|[(et & Het & _) _]]; [done|by apply not_elem_of_nil in Het]. }
  intros (s1 & l & E1 & E)%st_bind_ok. apply q_db_inv in E1 as [Hq1 E1];
    [|done|intros d d' r' Hg; by eapply Lookup_view].
  pose proof (qi_db _ Hq) as Hv. pose proof (co_db _ _ _ _ _ Hco) as Hdb.
  apply Lookup_spec in E1 as (_ & _ & Hin); [|done|by rewrite Hv]. rewrite Hv in Hin.
  apply IH in E as [Hq2 Hin2]; [|done]. split; [done|]. intros id.
  rewrite Hin2, elem_of_app, Hin. split.
  - intros [[?|[? ?]]|[(et' & ? & ?) ?]]; [by left| |]; right; split; try done.
    + exists et. split; [left|done].
    + exists et'. split; [by right|done].
  - intros [?|[(et' & Het & ?) ?]]; [auto|]. apply elem_of_cons in Het as [->|Het]; [auto|].
    right. split; [|done]. by exists et'.
Qed.

Lemma read_blocks_spec ids s s' evs :
  q_inv s → read_blocks tiers kh from to ids s = (s', Ok evs) →
  q_inv s' ∧ evs ≡ₚ concat (map (answer blocks kh from to) ids) ∧ StronglySorted ev_le evs.
Proof.
  intros Hq. unfold read_blocks. destruct ids as [|i ids0] eqn:Eids.
  { intros [= <- <-]. split; [done|]. split; [done|constructor]. }
  rewrite <- Eids. clear i ids0 Eids. intros (s1 & tasks & E1 & E)%st_bind_ok.
  apply build_tasks_spec in E1 as (Hq1 & Ht & Hcat); [|done|apply Forall_nil_2].
  cbn [fmap list_fmap map concat app] in Hcat. rewrite <- Hcat.
  destruct tasks as [|t tasks0] eqn:Etasks.
  { injection E as <- <-. split; [done|]. split; [done|constructor]. }
  rewrite <- Etasks in *. clear t tasks0 Etasks.
  apply st_bind_ok in E as (s2 & results & E2 & E).
  apply (read_tasks_spec _ _ _ _ _ []) in E2 as [Hq2 Hr]; [|done|done|constructor].
  apply st_bind_ok in E as (s3 & slices & E3 & E). injection E3 as <- E3. injection E as <- <-.
  apply (collect_spec _ _ _ _ Hr) in E3 as [Hsl Hsort]. cbn [concat app] in Hsl, Hr.
  destruct (MergeEvents_spec slices) as [Hp Hs]. split; [done|].
  split; [by rewrite Hp, Hsl|]. apply Hs, Hsort, Forall_nil_2.
Qed.

(** *** Without failures every step succeeds

    [W] holds of store states whose reads work, and reading keeps it. *)
Section live.
Context (W : pdb → Prop) (HW : reads_work W).
Context (Hkh : is_u64 kh) (Hstray : strays_readable cstore blocks kh m f).

Definition live (s : QState) : Prop := q_inv s ∧ W (qs_db s) ∧ sched (qs_fs s) = [].

Definition runs {A} (g : ST QState A) (P : A → Prop) : Prop :=
  ∀ s, live s → ∃ s' a, g s = (s', Ok a) ∧ live s' ∧ P a.

Lemma runs_bind {A B} (g : ST QState A) (k : A → ST QState B) P Q :
  runs g P → (∀ a, P a → runs (k a) Q) → runs (st_bind g k) Q.
Proof.
  intros Hg Hk s Hs. destruct (Hg s Hs) as (s1 & a & E & Hs1 & Ha). unfold st_bind. rewrite E.
  by apply Hk.
Qed.

Lemma runs_ret {A} (a : A) (P : A → Prop) : P a → runs (st_ret a) P.
Proof. intros Ha s Hs. by exists s, a. Qed.

Definition known (id : BlockID) : Prop := ∃ et, indexed et kh id m.

Lemma runs_Lookup et : runs (q_db (Lookup et kh from to)) (Forall known).
Proof.
  intros s (Hq & Hw & Hsch). unfold q_db.
  destruct (proj2 HW (IdxKeyPrefix et kh) (bump_last (IdxKeyPrefix et kh)) _ Hw) as (d1 & l & Hl & Hw').
  destruct (Lookup et kh from to (qs_db s)) as [d r] eqn:E.
  assert (W d ∧ ∃ ids, r = Ok ids) as [Hwd [ids ->]].
  { unfold Lookup, IdxLookupBlocks, st_bind, st_ret in E.
    rewrite Hl in E. injection E as <- <-. eauto. }
  pose proof (qi_db _ Hq) as Hm.
  apply Lookup_spec in E as (Hv & _ & Hin); [|done|rewrite Hm; by apply (co_db _ _ _ _ _ Hco)].
  rewrite Hm in Hv, Hin. eexists _, ids. split; [done|]. split.
  - split; [destruct Hq; by split|done].
  - apply Forall_forall. intros id [Hi' _]%Hin. by exists et.
Qed.

Lemma bloom_readable id data :
  known id → f !! BloomPath cstore id = Some data → ∃ bf, DeserializeBloom data = Ok bf.
Proof.
  intros [et Het] Hd. destruct (blocks !! id) as [[t mt]|] eqn:Hb;
    [|by eapply Hstray].
  destruct (co_bloom _ _ _ _ _ Hco _ _ _ Hb) as (fpr & data' & Hser & Hd').
  rewrite Hd in Hd'. injection Hd' as <-. apply bf_roundtrip in Hser as (bf & Hbf & _). eauto.
Qed.

Lemma runs_Test id : known id → runs (q_bloom (Test id kh)) (fun _ => True).
Proof.
  intros Hid s (Hq & Hw & Hsch). destruct (q_bloom (Test id kh) s) as [s' r] eqn:E.
  pose proof (q_bloom_inv _ _ _ _ Hq E) as [Hq' _]. pose proof (qi_fs _ Hq) as Hf.
  pose proof (qi_store _ Hq) as Hst. unfold q_bloom, Test in E.
  destruct (items (qs_cache s) !! id) as [entry|].
  { injection E as <- <-. by eexists _, _. }
  unfold loadFromDisk, ReadFile, syscall, next_call, st_bind in E. rewrite Hsch, Hst, Hf in E.
  destruct (f !! BloomPath cstore id) as [data|] eqn:Hd; [|by injection E as <- <-; eexists _, _].
  destruct (bloom_readable id data Hid Hd) as [bf Hbf]. rewrite Hbf in E.
  injection E as <- <-. by eexists _, _.
Qed.

Lemma runs_build_tasks ids tasks :
  Forall known ids → Forall task_ok tasks → runs (build_tasks tiers kh ids tasks) (Forall task_ok).
Proof.
  intros Hids. revert tasks. induction Hids as [|id ids Hid _ IH]; intros tasks Ht; cbn [build_tasks];
    [by apply runs_ret|]. eapply runs_bind; [by apply runs_Test|]. intros [] _; cbn [negb]; [|by apply IH].
  intros s (Hq & Hw & Hsch). destruct (proj1 HW (BlockKey id) _ Hw) as (d1 & v & Ep & Hw').
  unfold q_db. destruct (GetBlockMeta id (qs_db s)) as [d r] eqn:E.
  pose proof (GetBlockMeta_view _ _ _ _ E) as Hview. unfold GetBlockMeta in E.
  rewrite Ep in E. pose proof (pget_ok _ _ _ _ Ep) as ->. rewrite (qi_db _ Hq) in E, Hview.
  assert (d = d1) as -> by (destruct (m !! _); congruence).
  assert (live (mkQState d1 (qs_cache s) (qs_fs s))) as Hlive
    by (split; [destruct Hq; by split|done]).
  destruct (blocks !! id) as [[t mt]|] eqn:Hb.
  - destruct (co_meta _ _ _ _ _ Hco _ _ _ Hb) as (bm & Hbm & Hok & Hti). rewrite Hbm in E.
    rewrite decode_encodeBlockMeta in E by done. injection E as <-.
    destruct (co_file _ _ _ _ _ Hco _ _ _ Hb) as (store & hdr & Hstore & _). rewrite Hti, Hstore.
    apply IH; [|done]. apply Forall_app. split; [done|]. apply Forall_cons. split; [|apply Forall_nil_2].
    by exists t, mt.
  - rewrite (co_none _ _ _ _ _ Hco id Hb) in E. injection E as <-. cbn [is_not_found]. by apply IH.
Qed.

Lemma runs_read_tasks tasks results :
  Forall task_ok tasks → Forall (fun r => ∃ l, r = Ok l) results →
  runs (read_tasks kh from to tasks results) (Forall (fun r => ∃ l, r = Ok l)).
Proof.
  revert results. induction tasks as [|[id store] tasks IH]; intros results Ht Hr; cbn [read_tasks];
    [by apply runs_ret|]. apply Forall_cons in Ht as [(ti & mt & Hb & Hti) Ht]. cbn [fst snd] in *.
  intros s (Hq & Hw & Hsch).
  destruct (co_file _ _ _ _ _ Hco _ _ _ Hb) as (store' & hdr & Hti' & Hok & Hfile).
  rewrite Hti in Hti'. injection Hti' as <-. unfold q_fs.
  destruct (reads_ReadBlock store id kh from to f hdr mt Hok Hfile (qs_fs s) (qi_fs _ Hq)) as (_ & _ & HR).
  rewrite (HR Hsch). apply IH; [done| |].
  - apply Forall_app. split; [done|]. apply Forall_cons. split; [by eexists|apply Forall_nil_2].
  - split; [destruct Hq; by split|done].
Qed.

Lemma collect_runs results slices :
  Forall (fun r => ∃ l, r = Ok l) results → ∃ slices', collect results slices = Ok slices'.
Proof.
  intros Hr. revert slices. induction Hr as [|r results [l ->] _ IH]; intros slices; cbn [collect];
    [by eexists|]. destruct l; apply IH.
Qed.

Lemma runs_read_blocks ids :
  Forall known ids → runs (read_blocks tiers kh from to ids) (fun _ => True).
Proof.
  intros Hids. unfold read_blocks. destruct ids as [|i ids]; [by apply runs_ret|].
  eapply runs_bind; [by apply runs_build_tasks, Forall_nil_2|]. intros [|t tasks] Ht; [by apply runs_ret|].
  eapply runs_bind; [apply runs_read_tasks; [done|apply Forall_nil_2]|]. intros results Hr.
  destruct (collect_runs results [] Hr) as [slices E]. rewrite E.
  intros s Hs. by eexists s, _.
Qed.

Lemma runs_lookup_all ets ids :
  Forall known ids → runs (lookup_all ets kh from to ids) (Forall known).
Proof.
  revert ids. induction ets as [|et ets IH]; intros ids Hids; cbn [lookup_all]; [by apply runs_ret|].
  eapply runs_bind; [apply runs_Lookup|]. intros l Hl. apply IH. by apply Forall_app.
Qed.
End live.
End steps.

(** The event types a request selects. *)
Definition selects (req : QueryRequest) (et : Z) : Prop :=
  match qr_EventType req with Some et' => et = et' | None => is_u8 et end.

Lemma elem_of_event_types et : et ∈ event_types ↔ is_u8 et.
Proof.
  unfold event_types, is_u8. rewrite list_elem_of_In, in_map_iff. split.
  - intros (n & <- & Hn%in_seq). lia.
  - intros Het. exists (Z.to_nat et). split; [lia|]. apply in_seq. lia.
Qed.

Lemma elem_of_answers blocks kh from to ids e :
  e ∈ concat (map (answer blocks kh from to) ids) ↔
  ∃ id, id ∈ ids ∧ ∃ t mt, blocks !! id = Some (t, mt) ∧ e ∈ Rows mt ∧ KeyHash e = kh ∧
        UnixNano from <= Timestamp e < UnixNano to.
Proof.
  rewrite list_elem_of_In, in_concat. split.
  - intros (l & (id & <- & Hid)%in_map_iff & He). exists id. split; [by apply list_elem_of_In|].
    unfold answer in He. destruct (blocks !! id) as [[t mt]|]; [|done]. exists t, mt.
    apply filter_In in He as [He Hm]. unfold row_matches in Hm.
    rewrite !andb_true_iff, Z.eqb_eq, Z.leb_le, Z.ltb_lt in Hm.
    split; [done|]. split; [by apply list_elem_of_In|]. tauto.
  - intros (id & Hid & t & mt & Hb & He & Hk & Hts). exists (answer blocks kh from to id). split.
    + apply in_map. by apply list_elem_of_In.
    + unfold answer. rewrite Hb. apply filter_In. split; [by apply list_elem_of_In|].
      unfold row_matches. rewrite !andb_true_iff, Z.eqb_eq, Z.leb_le, Z.ltb_lt. tauto.
Qed.

Lemma candidates_spec tiers cstore blocks m f req kh s s' ids :
  is_u64 kh → consistent tiers cstore blocks m f → q_inv cstore blocks m f s →
  candidates req kh s = (s', Ok ids) →
  q_inv cstore blocks m f s' ∧ (is_Some (qr_EventType req) → NoDup ids) ∧
  ∀ id, id ∈ ids ↔ (∃ et, selects req et ∧ indexed et kh id m) ∧
                   hour_overlaps (qr_From req) (qr_To req) id = true.
Proof.
  intros Hk Hco Hq E. unfold candidates, selects in *. pose proof (qi_db _ _ _ _ _ Hq) as Hv.
  pose proof (co_db _ _ _ _ _ Hco) as Hdb. destruct (qr_EventType req) as [et|].
  - apply (q_db_inv cstore blocks m f) in E as [Hq1 E];
      [|done|intros d d' r' Hg; by eapply Lookup_view].
    apply Lookup_spec in E as (_ & Hs & Hin); [|done|by rewrite Hv]. rewrite Hv in Hin.
    split; [done|]. split; [intros _; by apply blt_sorted_NoDup|]. intros id. rewrite Hin.
    split; [intros [? ?]; eauto|]. by intros [(et' & -> & ?) ?].
  - eapply lookup_all_spec in E as [Hq1 Hin]; [|done|done|done]. split; [done|].
    split; [by intros [? ?]|]. intros id. rewrite Hin. split.
    + intros [Hn|[(et & Het & ?) ?]]; [by apply not_elem_of_nil in Hn|].
      apply elem_of_event_types in Het. eauto.
    + intros [(et & Het & ?) ?]. right. split; [|done]. exists et. by rewrite elem_of_event_types.
Qed.

Lemma Query_spec tiers cstore blocks req s s' evs :
  consistent tiers cstore blocks (view (qs_db s)) (files (qs_fs s)) →
  bc_store (qs_cache s) = cstore → cache_inv (qs_cache s) → warm blocks (qs_cache s) (files (qs_fs s)) →
  Query tiers req s = (s', Ok evs) →
  StronglySorted ev_le evs ∧
  (∃ ids, evs ≡ₚ concat (map (answer blocks (KeyHashFor (qr_PartitionKey req))
                                (qr_From req) (qr_To req)) ids) ∧
    (is_Some (qr_EventType req) → NoDup ids) ∧
    ∀ id, id ∈ ids ↔
      (∃ et, selects req et ∧ indexed et (KeyHashFor (qr_PartitionKey req)) id (view (qs_db s))) ∧
      hour_overlaps (qr_From req) (qr_To req) id = true) ∧
  view (qs_db s') = view (qs_db s) ∧ files (qs_fs s') = files (qs_fs s) ∧
  cache_inv (qs_cache s') ∧ warm blocks (qs_cache s') (files (qs_fs s')).
Proof.
  intros Hco Hst Hc Hcoh E. unfold Query in E.
  assert (is_u64 (KeyHashFor (qr_PartitionKey req))) as Hkh by apply Sum64_range.
  destruct (length _ =? 0)%nat; [done|]. destruct (_ <? _); cbn [negb] in E; [|done].
  set (kh := KeyHashFor _) in *. set (m := view (qs_db s)) in *. set (f := files (qs_fs s)) in *.
  apply st_bind_ok in E as (s1 & ids & E1 & E).
  destruct (candidates_spec tiers cstore blocks m f req kh s s1 ids) as (Hq1 & Hnd & Hids); try done.
  destruct (read_blocks_spec tiers cstore blocks m f Hco kh (qr_From req) (qr_To req) ids s1 s' evs)
    as (Hq2 & Hperm & Hsort); try done.
  destruct Hq2. split; [done|]. split; [by exists ids|]. split; [done|]. split; [done|].
  split; [done|]. by rewrite qi_fs0.
Qed.

Lemma Query_succeeds W tiers cstore blocks req s :
  qr_PartitionKey req ≠ [] → qr_From req < qr_To req →
  consistent tiers cstore blocks (view (qs_db s)) (files (qs_fs s)) →
  strays_readable cstore blocks (KeyHashFor (qr_PartitionKey req)) (view (qs_db s)) (files (qs_fs s)) →
  bc_store (qs_cache s) = cstore → cache_inv (qs_cache s) → warm blocks (qs_cache s) (files (qs_fs s)) →
  reads_work W → W (qs_db s) → sched (qs_fs s) = [] →
  ∃ s' evs, Query tiers req s = (s', Ok evs) ∧ live cstore blocks (view (qs_db s)) (files (qs_fs s)) W s'.
Proof.
  intros Hkey Hft Hco Hstray Hst Hc Hcoh HW Hw Hsch. unfold Query.
  rewrite (proj2 (Nat.eqb_neq _ 0)) by (by destruct (qr_PartitionKey req)).
  rewrite (proj2 (Z.ltb_lt _ _) Hft). cbn [negb].
  set (m := view (qs_db s)) in *. set (f := files (qs_fs s)) in *.
  assert (live cstore blocks m f W s) as Hlive by done.
  assert (is_u64 (KeyHashFor (qr_PartitionKey req))) as Hkh by apply Sum64_range.
  set (kh := KeyHashFor _) in *.
  assert (runs cstore blocks m f W (candidates req kh) (Forall (known m kh))) as Hcand.
  { unfold candidates. destruct (qr_EventType req); [by eapply runs_Lookup|].
    eapply runs_lookup_all; try done. }
  destruct (runs_bind cstore blocks m f W _ (read_blocks tiers kh (qr_From req) (qr_To req)) _ (fun _ => True) Hcand)
    with (s := s) as (s' & evs & E & Hl & _); [|done|by exists s', evs].
  intros ids Hids. by eapply runs_read_blocks.
Qed.

(** C10: A query over a consistent database is exact: it returns, sorted by
    (key hash, timestamp), the rows of the key within the time range from
    exactly the blocks that are indexed for the key and whose hour overlaps
    the range.  The bloom filters and the cache change nothing, neither store
    nor disk is modified, and the cache stays correct for the existing blocks. *)
Theorem Query_exact tiers cstore blocks req s s' evs :
  consistent tiers cstore blocks (view (qs_db s)) (files (qs_fs s)) →
  bc_store (qs_cache s) = cstore → cache_inv (qs_cache s) → warm blocks (qs_cache s) (files (qs_fs s)) →
  Query tiers req s = (s', Ok evs) →
  StronglySorted ev_le evs ∧
  (∃ ids, evs ≡ₚ concat (map (answer blocks (KeyHashFor (qr_PartitionKey req))
                                (qr_From req) (qr_To req)) ids) ∧
    (is_Some (qr_EventType req) → NoDup ids) ∧
    ∀ id, id ∈ ids ↔
      (∃ et, selects req et ∧ indexed et (KeyHashFor (qr_PartitionKey req)) id (view (qs_db s))) ∧
      hour_overlaps (qr_From req) (qr_To req) id = true) ∧
  view (qs_db s') = view (qs_db s) ∧ files (qs_fs s') = files (qs_fs s) ∧
  cache_inv (qs_cache s') ∧ warm blocks (qs_cache s') (files (qs_fs s')).
Proof. apply Query_spec. Qed.

(** A query over all event types, on working stores. *)
Lemma Query_all_types W tiers cstore blocks req s :
  qr_EventType req = None → qr_PartitionKey req ≠ [] → qr_From req < qr_To req →
  consistent tiers cstore blocks (view (qs_db s)) (files (qs_fs s)) →
  strays_readable cstore blocks (KeyHashFor (qr_PartitionKey req)) (view (qs_db s)) (files (qs_fs s)) →
  bc_store (qs_cache s) = cstore → cache_inv (qs_cache s) → warm blocks (qs_cache s) (files (qs_fs s)) →
  reads_work W → W (qs_db s) → sched (qs_fs s) = [] →
  ∃ s' evs, Query tiers req s = (s', Ok evs) ∧
  ∀ e, e ∈ evs ↔ ∃ id t mt, blocks !! id = Some (t, mt) ∧ e ∈ Rows mt ∧
    KeyHash e = KeyHashFor (qr_PartitionKey req) ∧
    UnixNano (qr_From req) <= Timestamp e < UnixNano (qr_To req) ∧
    hour_overlaps (qr_From req) (qr_To req) id = true.
Proof.
  intros Hnone Hkey Hft Hco Hstray Hst Hc Hcoh HW Hw Hsch.
  destruct (Query_succeeds W tiers cstore blocks req s) as (s' & evs & E & _); try done.
  exists s', evs. split; [done|]. intros e.
  destruct (Query_spec _ _ _ _ _ _ _ Hco Hst Hc Hcoh E) as (_ & (ids & Hp & _ & Hids) & _).
  unfold selects in Hids. rewrite Hnone in Hids. rewrite Hp, elem_of_answers. split.
  - intros (id & [_ Hov]%Hids & t & mt & Hb & Hin & Hm & Hts). by exists id, t, mt.
  - intros (id & t & mt & Hb & Hin & Hm & Hts & Hov). exists id. split.
    + apply Hids. split; [|done]. rewrite <- Hm. by eapply (co_index _ _ _ _ _ Hco).
    + by exists t, mt.
Qed.

(** A query over all event types succeeds and misses nothing its index can
    see: when reads of the store and the disk work, a query with a key and a
    non-empty interval returns, and an event is in the result exactly when some
    block holds it, it has the key and lies in the time range, and the block's
    own hour overlaps the range. *)
Theorem Query_complete W tiers cstore blocks req s :
  qr_EventType req = None → qr_PartitionKey req ≠ [] → qr_From req < qr_To req →
  consistent tiers cstore blocks (view (qs_db s)) (files (qs_fs s)) →
  strays_readable cstore blocks (KeyHashFor (qr_PartitionKey req)) (view (qs_db s)) (files (qs_fs s)) →
  bc_store (qs_cache s) = cstore → cache_inv (qs_cache s) → warm blocks (qs_cache s) (files (qs_fs s)) →
  reads_work W → W (qs_db s) → sched (qs_fs s) = [] →
  ∃ s' evs, Query tiers req s = (s', Ok evs) ∧
  ∀ e, e ∈ evs ↔ ∃ id t mt, blocks !! id = Some (t, mt) ∧ e ∈ Rows mt ∧
    KeyHash e = KeyHashFor (qr_PartitionKey req) ∧
    UnixNano (qr_From req) <= Timestamp e < UnixNano (qr_To req) ∧
    hour_overlaps (qr_From req) (qr_To req) id = true.
Proof. apply Query_all_types. Qed.

(** ** Sealing extends the database *)

(** The paths the sealer writes. *)
Definition seal_paths (req : SealRequest) : list bytes :=
  [tmp_path req; BloomPath (sr_Store req) (seal_id req); BlockPath (sr_Store req) (seal_id req)].

Lemma Seal_frame req w w' r q :
  TierLaws (sr_Store req) → Seal req w = (w', r) → q ∉ seal_paths req →
  files (fs w') !! q = files (fs w) !! q.
Proof.
  intros Hlaws E Hq. destruct (Seal_fs req w w' r E) as [r' Ef]. unfold seal_paths in Hq.
  apply not_elem_of_cons in Hq as [Hq1 Hq]. apply not_elem_of_cons in Hq as [Hq2 Hq].
  apply not_elem_of_cons in Hq as [Hq3 _]. eapply seal_files_frame; eauto.
Qed.

(** The hot store's own paths for another block are not written. *)
Lemma seal_paths_other req id' :
  TierLaws (sr_Store req) → sealreq_ok req → block_id_ok id' → id' ≠ seal_id req →
  BlockPath (sr_Store req) id' ∉ seal_paths req ∧ BloomPath (sr_Store req) id' ∉ seal_paths req.
Proof.
  intros Hlaws Hok Hid' Hne. pose proof (seal_id_ok req Hok) as Hid.
  destruct (tmp_path_shape req Hok) as [p Hp].
  destruct (tmp_path_ne (ts := sr_Store req) id' p Hid') as [Ht1 Ht2]. rewrite <- Hp in *.
  unfold seal_paths. rewrite !not_elem_of_cons. split; (split; [done|]); (split; [|split; [|apply not_elem_of_nil]]).
  - by apply block_bloom_path.
  - intros Heq. by apply Hne, (block_path_inj (ts := sr_Store req)).
  - intros Heq. by apply Hne, (bloom_path_inj (ts := sr_Store req)).
  - apply not_eq_sym. by apply block_bloom_path.
Qed.

(** Every block is named by the program, and no other tier shares a path with
    what the seal writes. *)
Definition seal_apart (tiers : gmap Tier TierStore) (blocks : Blocks) (req : SealRequest) : Prop :=
  (∀ id' t mt, blocks !! id' = Some (t, mt) → block_id_ok id') ∧
  tiers !! TierHot = Some (sr_Store req) ∧
  ∀ t store id', tiers !! t = Some store → t ≠ TierHot → block_id_ok id' →
    BlockPath store id' ∉ seal_paths req.

Lemma sealed_db_block req m id' :
  id' ≠ seal_id req → sealed_db req m !! BlockKey id' = m !! BlockKey id'.
Proof.
  intros Hne. unfold sealed_db. rewrite sealed_view_other by (auto with bbdb; intros E; by apply BlockKey_inj in E).
  apply put_idx_other. auto with bbdb.
Qed.

Lemma sealed_db_indexed req m et kh id' :
  sealreq_ok req → is_u64 kh →
  indexed et kh id' (sealed_db req m) ↔
  (et = sr_EventType req ∧ kh ∈ UniqueKeyHashes (Sort (sr_Memtable req)) ∧ id' = seal_id req) ∨
  indexed et kh id' m.
Proof.
  intros Hok Hk. unfold sealed_db, indexed. rewrite sealed_view_other by auto with bbdb.
  apply indexed_put_idx; [done|]. by apply unique_hashes_u64.
Qed.

Lemma Seal_consistent tiers blocks req w w' id :
  TierLaws (sr_Store req) → sealreq_ok req →
  zlen (block_file (seal_header req (Sort (sr_Memtable req))) (Sort (sr_Memtable req))) <= max_alloc →
  seal_apart tiers blocks req →
  consistent tiers (sr_Store req) blocks (view (db w)) (files (fs w)) →
  Seal req w = (w', Ok id) →
  consistent tiers (sr_Store req) (<[id := (TierHot, Sort (sr_Memtable req))]> blocks)
    (view (db w')) (files (fs w')).
Proof.
  intros Hlaws Hok Hsz (Hnames & Hhot & Hapart) Hco E. pose proof (Seal_returns_id _ _ _ _ E) as ->.
  pose proof (fun q => Seal_frame req w w' _ q Hlaws E) as Hframe.
  pose proof (unique_hashes_u64 req Hok) as Hu. pose proof Hok as (_ & He & _ & _ & Hrows & _).
  apply Seal_cases in E as [[[e He'] _]|[Hdisk Hview]]; [done| |done|done].
  pose proof Hdisk as [Hblock (data & Hdata & Hbloom)]. rewrite Hview.
  assert (∀ id' t mt, blocks !! id' = Some (t, mt) → id' ≠ seal_id req →
    BlockPath (sr_Store req) id' ∉ seal_paths req ∧ BloomPath (sr_Store req) id' ∉ seal_paths req) as Hother.
  { intros id' t mt Hb Hne. by eapply seal_paths_other; [| |eapply Hnames|]. }
  destruct Hco as [Cdb Cmeta Cnone Cfile Csort Cbloom Cidx]. split.
  - apply sealed_view_db_ok; [apply u64_range|by apply put_idx_ok].
  - intros id' t mt [[<- [= <- <-]]|[Hne Hb]]%lookup_insert_Some.
    + exists (sealed_meta req). split; [apply sealed_view_block|]. by split; [apply sealed_meta_ok|].
    + rewrite sealed_db_block by done. by eapply Cmeta.
  - intros id' [Hb Hne]%lookup_insert_None. rewrite sealed_db_block by done. by apply Cnone.
  - intros id' t mt [[<- [= <- <-]]|[Hne Hb]]%lookup_insert_Some.
    + exists (sr_Store req), (seal_header req (Sort (sr_Memtable req))).
      split; [done|]. by split; [apply sealed_file_ok|].
    + destruct (Cfile _ _ _ Hb) as (store & hdr & Hs & Hf & Hp). exists store, hdr.
      split; [done|]. split; [done|]. rewrite Hframe; [done|].
      destruct (decide (t = TierHot)) as [->|Ht]; [|eapply Hapart; eauto].
      rewrite Hhot in Hs. injection Hs as <-. by eapply Hother.
  - intros id' t mt [[<- [= <- <-]]|[Hne Hb]]%lookup_insert_Some; [apply Sort_sorted|by eapply Csort].
  - intros id' t mt [[<- [= <- <-]]|[Hne Hb]]%lookup_insert_Some; [by exists (sr_BloomFPR req), data|].
    destruct (Cbloom _ _ _ Hb) as (fpr & data' & Hs & Hp). exists fpr, data'. split; [done|].
    rewrite Hframe; [done|]. by eapply Hother.
  - intros id' t mt e [[<- [= <- <-]]|[Hne Hb]]%lookup_insert_Some Hin.
    + rewrite Sort_perm in Hin. exists (sr_EventType req). split; [done|].
      rewrite Forall_forall in Hrows. apply sealed_db_indexed; [done|by apply Hrows|]. left.
      split; [done|]. split; [|done]. apply elem_of_UniqueKeyHashes.
      rewrite (mt_of_Rows _ (Sort_ok (sr_Memtable req))). cbn [mt_of keyHashes].
      apply list_elem_of_In, in_map, list_elem_of_In. by rewrite Sort_perm.
    + destruct (Cidx _ _ _ _ Hb Hin) as (et & Het & Hi). exists et. split; [done|].
      destruct (Cfile _ _ _ Hb) as (store & hdr & _ & (_ & _ & Hev & _) & _).
      rewrite Forall_forall in Hev. apply sealed_db_indexed; [done|by apply Hev|by right].
Qed.

(** Sealing extends the database the queries read: after a successful seal
    the store and the disk represent the old blocks and the new one with the
    rows of its table, sorted.  A block that already had this identifier (the
    same shard and hour) is replaced: its rows are gone.  The shard's
    write-ahead log is empty afterwards. *)
Theorem Seal_extends_database tiers blocks req w w' id :
  TierLaws (sr_Store req) → sealreq_ok req →
  zlen (block_file (seal_header req (Sort (sr_Memtable req))) (Sort (sr_Memtable req))) <= max_alloc →
  seal_apart tiers blocks req →
  consistent tiers (sr_Store req) blocks (view (db w)) (files (fs w)) →
  Seal req w = (w', Ok id) →
  consistent tiers (sr_Store req) (<[id := (TierHot, Sort (sr_Memtable req))]> blocks)
    (view (db w')) (files (fs w')) ∧
  wal_log (sr_Shard req) (view (db w')) = [].
Proof.
  intros Hlaws Hok Hsz Hapart Hco E. split; [by eapply Seal_consistent|].
  pose proof (unique_hashes_u64 req Hok) as Hu. pose proof Hok as (Hs & He & _).
  apply Seal_cases in E as [[[e He'] _]|[_ ->]]; [done| |done|done]. unfold sealed_db.
  rewrite sealed_view_log; [by rewrite decide_True|done|done|apply u64_range|].
  apply put_idx_ok; [done|done|]. by apply Hco.
Qed.
End spec.

(** ** One sealed block, queried *)
Definition hot_tiers : gmap Tier TierStore := {[TierHot := local_tier hot_store]}.
Definition one_block : gmap BlockID (Tier * Memtable) :=
  <[sample_id := (TierHot, Sort (sr_Memtable sample_request))]> ∅.
Definition engine_state : QState :=
  mkQState (db sealed_world.1) (NewBloomCache (local_tier hot_store) 0) (fs sealed_world.1).
Definition whole_day (key : bytes) : QueryRequest := mkQuery key None 0 (24 * Hour).

Lemma no_blocks : consistent hot_tiers (local_tier hot_store) ∅ ∅ ∅.
Proof. split; [apply db_ok_empty|..]; intros; done. Qed.

Lemma sample_apart : seal_apart hot_tiers ∅ sample_request.
Proof.
  split; [intros; done|]. split; [reflexivity|]. intros t store id' Ht Hne.
  unfold hot_tiers in Ht. apply lookup_singleton_Some in Ht as [<- _]. done.
Qed.

Lemma sealed_ok : Seal sample_request empty_world = (sealed_world.1, Ok sample_id).
Proof.
  transitivity (sealed_world.1, sealed_world.2); [apply surjective_pairing|].
  f_equal; vm_compute; reflexivity.
Qed.

Lemma Seal_extends_database_witness :
  consistent hot_tiers (local_tier hot_store) one_block
    (view (db sealed_world.1)) (files (fs sealed_world.1)).
Proof.
  apply (Seal_extends_database hot_tiers ∅ sample_request empty_world sealed_world.1 sample_id).
  - apply LocalTierLaws.
  - exact sample_request_ok.
  - vm_compute. discriminate.
  - exact sample_apart.
  - exact no_blocks.
  - exact sealed_ok.
Defined.

Lemma one_block_consistent :
  consistent hot_tiers (local_tier hot_store) one_block
    (view (db sealed_world.1)) (files (fs sealed_world.1)).
Proof.
  apply (Seal_consistent hot_tiers ∅ sample_request empty_world).
  - apply LocalTierLaws.
  - exact sample_request_ok.
  - vm_compute. discriminate.
  - exact sample_apart.
  - exact no_blocks.
  - exact sealed_ok.
Qed.

Lemma query_result key evs :
  (Query hot_tiers (whole_day key) engine_state).2 = Ok evs →
  Query hot_tiers (whole_day key) engine_state
  = ((Query hot_tiers (whole_day key) engine_state).1, Ok evs).
Proof. intros <-. apply surjective_pairing. Qed.

Lemma Query_exact_witness :
  (Query hot_tiers (whole_day [9]) engine_state).2 = Ok [mkEvent 9 70 [1; 2]] ∧
  StronglySorted ev_le [mkEvent 9 70 [1; 2]].
Proof.
  assert ((Query hot_tiers (whole_day [9]) engine_state).2 = Ok [mkEvent 9 70 [1; 2]]) as E
    by (vm_compute; reflexivity).
  split; [exact E|].
  destruct (NewBloomCache_inv (local_tier hot_store) 0 (files (fs sealed_world.1))) as [H1 H2].
  apply (coherent_on_weaken (fun id => is_Some (one_block !! id))) in H2.
  apply (Query_exact hot_tiers (local_tier hot_store) one_block (whole_day [9]) engine_state
    _ [mkEvent 9 70 [1; 2]] one_block_consistent eq_refl H1 H2 (query_result [9] _ E)).
Defined.

Lemma sealed_no_stray :
  strays_readable (local_tier hot_store) one_block 9
    (view (db sealed_world.1)) (files (fs sealed_world.1)).
Proof.
  intros et id data Hi Hn _. exfalso.
  destruct (Seal_cases sample_request empty_world _ _ (LocalTierLaws hot_store) sample_request_ok sealed_ok)
    as [[[e He] _]|[_ E]]; [done|]. rewrite E in Hi.
  apply (sealed_db_indexed sample_request (view (db empty_world)) et 9 id sample_request_ok) in Hi;
    [|unfold is_u64; lia]. destruct Hi as [(_ & _ & Hid)|[v Hv]].
  - rewrite Hid in Hn. unfold one_block in Hn. rewrite lookup_insert_eq in Hn. discriminate Hn.
  - change (view (db empty_world)) with (∅ : gmap bytes bytes) in Hv.
    rewrite lookup_empty in Hv. discriminate Hv.
Qed.

Lemma Query_complete_witness :
  ∃ s' evs, Query hot_tiers (whole_day [9]) engine_state = (s', Ok evs) ∧
    ∀ e, e ∈ evs ↔ ∃ id t mt, one_block !! id = Some (t, mt) ∧ e ∈ Rows mt ∧
      KeyHash e = KeyHashFor [9] ∧ UnixNano 0 <= Timestamp e < UnixNano (24 * Hour) ∧
      hour_overlaps 0 (24 * Hour) id = true.
Proof.
  destruct (NewBloomCache_inv (local_tier hot_store) 0 (files (fs sealed_world.1))) as [H1 H2].
  apply (coherent_on_weaken (fun id => is_Some (one_block !! id))) in H2.
  apply (Query_complete calm hot_tiers (local_tier hot_store)
           one_block (whole_day [9]) engine_state).
  - reflexivity.
  - discriminate.
  - vm_compute. reflexivity.
  - exact one_block_consistent.
  - exact sealed_no_stray.
  - reflexivity.
  - exact H1.
  - exact H2.
  - exact calm_reads.
  - vm_compute. reflexivity.
  - vm_compute. reflexivity.
Defined.

