(* ===== verification/QueryPar.v ===== *)
(** * The query engine's parallel reads: the worker pool of [Query] in [internal/query/query.go]

    [Query] starts one goroutine per block, at most [maxP] at a time: the
    channel [sem] counts the slots, [done] collects the goroutines that ended.
    The pool is a step relation over the main goroutine and the readers; a
    schedule is any sequence of steps.  The theorems show that schedules do
    not matter: the pool always ends, never exceeds its limit, and fills the
    slots of [results] with what the reads return one by one. *)
From Stdlib Require Import QArith_base.
From S2P Require Import Prelude GoTime GoOs Pebble PebbleRef Keys Event Memtable Bloom Format Tier World.
From S2P Require Import Sealer BlockReader Merger Index BloomCache Query.

(** ** The engine *)
Record EngineConfig := mkEngineConfig { ec_MaxParallel : Z }.
Definition DefaultEngineConfig : EngineConfig := mkEngineConfig 8.

(** The index and the metadata share one database handle, the state of the
    model; the rest of the engine is its cache, its tiers and its limit. *)
Record Engine `{BloomLib} := mkEngine {
  en_bloom : BloomCache;
  en_tiers : gmap Tier TierStore;
  en_cfg : EngineConfig;
}.

Definition NewEngine `{BloomLib} (bloom : BloomCache) (tiers : gmap Tier TierStore) (cfg : EngineConfig)
  : Engine := mkEngine _ bloom tiers cfg.

(** The number of slots for [n] tasks. *)
Definition max_parallel (cfg : EngineConfig) (n : Z) : Z :=
  let maxP := ec_MaxParallel cfg in
  let maxP := if maxP <=? 0 then 1 else maxP in
  if n <? maxP then n else maxP.

(** ** The pool *)
Inductive phase := NotStarted | Reading | Wrote | Released | Finished.

(** Before the [i]-th [sem <-], before the [i]-th [go], and after [k]
    receives from [done]. *)
Inductive main_pc := Acquire (i : nat) | Spawn (i : nat) | Collect (k : nat).

#[export] Instance main_pc_eq_dec : EqDecision main_pc.
Proof. solve_decision. Defined.

Record Pool (R : Type) := mkPool {
  po_main : main_pc;
  po_sem : nat;
  po_done : nat;
  po_readers : list phase;
  po_results : list (option R);
}.
Arguments mkPool {R}.
Arguments po_main {R}. Arguments po_sem {R}. Arguments po_done {R}.
Arguments po_readers {R}. Arguments po_results {R}.

Section pool.
Context {R : Type} (outcome : nat → R → Prop) (n maxP : nat).

Definition pool_start : Pool R := mkPool (Acquire 0) 0 0 (replicate n NotStarted) (replicate n None).

Inductive pool_step : Pool R → Pool R → Prop :=
  | ps_acquire i sem d gs rs : (i < n)%nat → (sem < maxP)%nat →
      pool_step (mkPool (Acquire i) sem d gs rs) (mkPool (Spawn i) (S sem) d gs rs)
  | ps_spawn i sem d gs rs :
      pool_step (mkPool (Spawn i) sem d gs rs) (mkPool (Acquire (S i)) sem d (<[i := Reading]> gs) rs)
  | ps_all_spawned sem d gs rs :
      pool_step (mkPool (Acquire n) sem d gs rs) (mkPool (Collect 0) sem d gs rs)
  | ps_read i r m sem d gs rs : gs !! i = Some Reading → outcome i r →
      pool_step (mkPool m sem d gs rs) (mkPool m sem d (<[i := Wrote]> gs) (<[i := Some r]> rs))
  | ps_release i m sem d gs rs : gs !! i = Some Wrote →
      pool_step (mkPool m (S sem) d gs rs) (mkPool m sem d (<[i := Released]> gs) rs)
  | ps_finish i m sem d gs rs : gs !! i = Some Released → (d < n)%nat →
      pool_step (mkPool m sem d gs rs) (mkPool m sem (S d) (<[i := Finished]> gs) rs)
  | ps_receive k sem d gs rs : (k < n)%nat →
      pool_step (mkPool (Collect k) sem (S d) gs rs) (mkPool (Collect (S k)) sem d gs rs).

(** The loop over [done] is over. *)
Definition pool_final (p : Pool R) : Prop := po_main p = Collect n.

(** *** Counting readers *)
Definition busy (ph : phase) : bool := match ph with Reading | Wrote => true | _ => false end.
Definition reading (ph : phase) : bool := match ph with Reading => true | _ => false end.
Definition finished (ph : phase) : bool := match ph with Finished => true | _ => false end.

(** *** The invariant *)
Definition spawned (m : main_pc) : nat := match m with Acquire i | Spawn i => i | Collect _ => n end.
Definition received (m : main_pc) : nat := match m with Collect k => k | _ => 0%nat end.
Definition holds_slot (m : main_pc) : nat := match m with Spawn _ => 1%nat | _ => 0%nat end.

Definition slot_ok (i : nat) (ph : phase) (res : option R) : Prop :=
  match ph with
  | NotStarted | Reading => res = None
  | _ => ∃ r, res = Some r ∧ outcome i r
  end.

Record pool_inv (p : Pool R) : Prop := {
  pi_len : length (po_readers p) = n ∧ length (po_results p) = n;
  pi_main : match po_main p with Acquire i => i <= n | Spawn i => i < n | Collect k => k <= n end%nat;
  pi_started i ph : po_readers p !! i = Some ph → ph = NotStarted ↔ (spawned (po_main p) <= i)%nat;
  pi_sem : po_sem p = (count busy (po_readers p) + holds_slot (po_main p))%nat;
  pi_max : (po_sem p <= maxP)%nat;
  pi_done : (po_done p + received (po_main p) = count finished (po_readers p))%nat;
  pi_slots i ph : po_readers p !! i = Some ph →
    ∃ res, po_results p !! i = Some res ∧ slot_ok i ph res;
}.

Lemma pool_inv_start : pool_inv pool_start.
Proof.
  split; cbn [pool_start po_main po_sem po_done po_readers po_results spawned received holds_slot].
  - by rewrite !length_replicate.
  - lia.
  - intros i ph [-> _]%lookup_replicate. split; [lia|done].
  - by rewrite count_replicate.
  - lia.
  - by rewrite count_replicate.
  - intros i ph [-> Hi]%lookup_replicate. exists None. split; [by apply lookup_replicate|done].
Qed.

Ltac pool_cbn := cbn [po_main po_sem po_done po_readers po_results spawned received holds_slot] in *.

(** Replacing a reader's phase: the other readers and slots stay. *)
Lemma readers_insert (gs : list phase) i ph j x :
  <[i := ph]> gs !! j = Some x → (j = i ∧ x = ph ∧ (i < length gs)%nat) ∨ (j ≠ i ∧ gs !! j = Some x).
Proof. intros [(<- & <- & ?)|[? ?]]%list_lookup_insert_Some; [by left|by right]. Qed.

(** A reader moves on without touching its slot. *)
Lemma slots_insert (gs : list phase) (rs : list (option R)) i old new :
  gs !! i = Some old →
  (∀ j ph, gs !! j = Some ph → ∃ res, rs !! j = Some res ∧ slot_ok j ph res) →
  (∀ res, slot_ok i old res → slot_ok i new res) →
  ∀ j ph, <[i := new]> gs !! j = Some ph → ∃ res, rs !! j = Some res ∧ slot_ok j ph res.
Proof.
  intros Hi Hs Hmv j ph [(-> & -> & _)|[_ Hj]]%readers_insert; [|by apply Hs].
  destruct (Hs i old Hi) as (res & Hr & Hok). eauto.
Qed.

Lemma started_insert (gs : list phase) (c : nat) i old new :
  gs !! i = Some old → old ≠ NotStarted → new ≠ NotStarted →
  (∀ j ph, gs !! j = Some ph → ph = NotStarted ↔ (c <= j)%nat) →
  ∀ j ph, <[i := new]> gs !! j = Some ph → ph = NotStarted ↔ (c <= j)%nat.
Proof.
  intros Hi Ho Hn Hs j ph [(-> & -> & _)|[_ Hj]]%readers_insert; [|by apply Hs].
  specialize (Hs i old Hi). tauto.
Qed.

Lemma pool_inv_step p p' : pool_inv p → pool_step p p' → pool_inv p'.
Proof.
  intros [[Hg Hr] Hm Hst Hsem Hmax Hd Hsl] Hstep. destruct Hstep; pool_cbn.
  - split; pool_cbn; auto; lia.
  - assert (gs !! i = Some NotStarted) as Hi.
    { destruct (lookup_lt_is_Some_2 gs i ltac:(lia)) as [ph Hph]. rewrite Hph. f_equal.
      apply (Hst i ph Hph). lia. }
    pose proof (count_insert busy gs i _ Reading Hi). pose proof (count_insert finished gs i _ Reading Hi).
    cbn in *. split; pool_cbn; try lia.
    + by rewrite length_insert.
    + intros j ph [(-> & -> & _)|[Hne Hj]]%readers_insert; [split; [done|lia]|].
      rewrite (Hst j ph Hj). lia.
    + apply (slots_insert gs rs i NotStarted); [done|done|]. by intros res.
  - split; pool_cbn; auto; lia.
  - pose proof (count_insert busy gs i _ Wrote ltac:(done)). pose proof (count_insert finished gs i _ Wrote ltac:(done)).
    cbn in *. split; pool_cbn; try lia; try done; [by rewrite !length_insert| |].
    + by apply (started_insert gs _ i Reading).
    + intros j ph [(-> & -> & Hl)|[Hne Hj]]%readers_insert.
      * exists (Some r). split; [apply list_lookup_insert_eq; lia|]. by exists r.
      * rewrite list_lookup_insert_ne by done. by apply Hsl.
  - pose proof (count_insert busy gs i _ Released ltac:(done)). pose proof (count_insert finished gs i _ Released ltac:(done)).
    cbn in *. split; pool_cbn; try lia; try done; [by rewrite !length_insert| |].
    + by apply (started_insert gs _ i Wrote).
    + by apply (slots_insert gs rs i Wrote).
  - pose proof (count_insert busy gs i _ Finished ltac:(done)). pose proof (count_insert finished gs i _ Finished ltac:(done)).
    cbn in *. split; pool_cbn; try lia; try done; [by rewrite !length_insert| |].
    + by apply (started_insert gs _ i Released).
    + by apply (slots_insert gs rs i Released).
  - split; pool_cbn; auto; lia.
Qed.

Lemma pool_inv_reachable p : rtc pool_step pool_start p → pool_inv p.
Proof.
  intros Hp. pose proof pool_inv_start as Hi. induction Hp as [p|p q r Hpq _ IH]; [done|].
  apply IH. by eapply pool_inv_step.
Qed.

Lemma all_filled (l : list (option R)) (out : nat → R → Prop) :
  (∀ i, (i < length l)%nat → ∃ r, l !! i = Some (Some r) ∧ out i r) →
  ∃ rs, l = map Some rs ∧ ∀ i r, rs !! i = Some r → out i r.
Proof.
  revert out. induction l as [|res l IH]; intros out Hall; [by exists []|].
  destruct (Hall 0%nat) as (r & Hr & Ho); [simpl; lia|]. injection Hr as ->.
  destruct (IH (fun i => out (S i))) as (rs & -> & Hi).
  - intros i Hi. apply (Hall (S i)). simpl. lia.
  - exists (r :: rs). split; [done|]. intros [|i] r' Hr'; [by injection Hr' as <-|by apply Hi].
Qed.

(** At the end every reader has finished and every slot is filled. *)
Lemma pool_final_results p :
  pool_inv p → pool_final p →
  ∃ rs, po_results p = map Some rs ∧ length rs = n ∧ ∀ i r, rs !! i = Some r → outcome i r.
Proof.
  intros [[Hg Hr] _ _ _ _ Hd Hsl] Hf. unfold pool_final in Hf. rewrite Hf in Hd. cbn [received] in Hd.
  assert (count finished (po_readers p) = length (po_readers p)) as Hc
    by (pose proof (count_le finished (po_readers p)); lia).
  assert (∀ i, (i < n)%nat → ∃ r, po_results p !! i = Some (Some r) ∧ outcome i r) as Hall.
  { intros i Hi. destruct (lookup_lt_is_Some_2 (po_readers p) i ltac:(lia)) as [ph Hph].
    destruct (Hsl i ph Hph) as (res & Hres & Hok). pose proof (count_all _ _ _ _ Hc Hph) as Hfin.
    destruct ph; try done. destruct Hok as (r & -> & Ho). eauto. }
  rewrite <- Hr in Hall. destruct (all_filled _ _ Hall) as (rs & E & Ho).
  exists rs. split; [done|]. split; [|done]. by rewrite <- (length_map Some rs), <- E.
Qed.

(** *** Every schedule ends *)
Definition phase_weight (ph : phase) : nat :=
  match ph with NotStarted => 4 | Reading => 3 | Wrote => 2 | Released => 1 | Finished => 0 end.
Definition weight (gs : list phase) : nat := foldr (fun ph a => phase_weight ph + a)%nat 0%nat gs.
Definition main_weight (m : main_pc) : nat :=
  match m with
  | Acquire i => 2 * (n - i) + n + 1
  | Spawn i => 2 * (n - i) + n
  | Collect k => n - k
  end%nat.
Definition pool_measure (p : Pool R) : nat := (main_weight (po_main p) + weight (po_readers p))%nat.

Lemma weight_insert gs i old new :
  gs !! i = Some old →
  (weight (<[i := new]> gs) + phase_weight old = weight gs + phase_weight new)%nat.
Proof.
  unfold weight. revert i. induction gs as [|g gs IH]; intros [|i] Hi; try done.
  - injection Hi as ->. change (<[0%nat := new]> (old :: gs)) with (new :: gs). cbn [foldr]. lia.
  - specialize (IH i Hi). change (<[S i := new]> (g :: gs)) with (g :: <[i := new]> gs).
    cbn [foldr]. lia.
Qed.

Lemma pool_measure_step p p' : pool_inv p → pool_step p p' → (pool_measure p' < pool_measure p)%nat.
Proof.
  intros [[Hg Hr] Hm Hst Hsem Hmax Hd Hsl] Hstep. unfold pool_measure.
  destruct Hstep as [| i sem d gs rs | | i r m sem d gs rs Hi | i m sem d gs rs Hi | i m sem d gs rs Hi |];
    pool_cbn; cbn [main_weight] in *; try lia.
  - assert (gs !! i = Some NotStarted) as Hi.
    { destruct (lookup_lt_is_Some_2 gs i ltac:(lia)) as [ph Hph]. rewrite Hph. f_equal.
      apply (Hst i ph Hph). lia. }
    pose proof (weight_insert gs i _ Reading Hi). cbn [phase_weight] in *. lia.
  - pose proof (weight_insert gs i _ Wrote Hi). cbn [phase_weight] in *. lia.
  - pose proof (weight_insert gs i _ Released Hi). cbn [phase_weight] in *. lia.
  - pose proof (weight_insert gs i _ Finished Hi). cbn [phase_weight] in *. lia.
Qed.

(** *** No schedule is stuck *)
Lemma pool_progress p :
  (0 < maxP)%nat → (∀ i, (i < n)%nat → ∃ r, outcome i r) → pool_inv p → ¬ pool_final p →
  ∃ p', pool_step p p'.
Proof.
  intros HP Hout [[Hg Hr] Hm Hst Hsem Hmax Hd Hsl] Hnf. destruct p as [m sem d gs rs]; pool_cbn.
  assert (∀ i ph, gs !! i = Some ph → ph = Reading ∨ ph = Wrote ∨ ph = Released →
          (received m < n)%nat → ∃ p', pool_step (mkPool m sem d gs rs) p') as Hreader.
  { intros i ph Hi [->|[->| ->]] Hk.
    - destruct (Hout i) as [r Ho]; [apply lookup_lt_Some in Hi; lia|]. eexists. by eapply ps_read.
    - pose proof (count_insert busy gs i _ Released Hi). cbn in *. destruct sem as [|sem]; [lia|].
      eexists. by eapply ps_release.
    - eexists. eapply ps_finish; [done|]. pose proof (count_insert finished gs i _ Released Hi).
      pose proof (count_insert finished gs i _ Finished Hi).
      pose proof (count_le finished (<[i := Finished]> gs)). rewrite length_insert in *. cbn in *. lia. }
  destruct m as [i|i|k]; pool_cbn.
  - destruct (decide (i = n)) as [->|]; [eexists; apply ps_all_spawned|].
    destruct (decide (sem < maxP)%nat); [eexists; apply ps_acquire; [lia|done]|].
    destruct (count_pos busy gs) as (j & ph & Hj & Hb); [lia|].
    apply (Hreader j ph Hj); [destruct ph; auto; done|lia].
  - eexists. apply ps_spawn.
  - assert (k < n)%nat as Hk by (destruct (decide (k = n)) as [->|]; [by destruct Hnf|lia]).
    destruct d as [|d]; [|eexists; by apply ps_receive].
    destruct (count_pos (fun ph => negb (finished ph)) gs) as (j & ph & Hj & Hb).
    + assert (count (fun ph => negb (finished ph)) gs + count finished gs = length gs)%nat as Hsum
        by (unfold count; clear; induction gs as [|g gs IH]; simpl; [done|]; destruct (finished g); simpl; lia).
      lia.
    + apply (Hreader j ph Hj); [|done]. specialize (Hst j ph Hj).
      assert (j < n)%nat by (apply lookup_lt_Some in Hj; lia).
      destruct ph; auto; [|done]. exfalso. assert (n <= j)%nat by by apply Hst. lia.
Qed.

Lemma pool_ends p :
  (0 < maxP)%nat → (∀ i, (i < n)%nat → ∃ r, outcome i r) → pool_inv p →
  ∃ p', rtc pool_step p p' ∧ pool_final p'.
Proof.
  intros HP Hout. remember (pool_measure p) as k eqn:Ek. revert p Ek.
  induction (lt_wf k) as [k _ IH]; intros p -> Hi.
  destruct (decide (po_main p = Collect n)) as [Hf|Hf]; [by exists p|].
  destruct (pool_progress p HP Hout Hi Hf) as [q Hq].
  destruct (IH (pool_measure q)) with (p := q) as (p' & Hp & Hf'); [by apply pool_measure_step|done| |].
  - by eapply pool_inv_step.
  - exists p'. split; [by eapply rtc_l|done].
Qed.
End pool.

Section outcomes.
Context {R : Type}.

Lemma pool_step_mono (P Q : nat → R → Prop) n maxP p p' :
  (∀ i r, P i r → Q i r) → pool_step P n maxP p p' → pool_step Q n maxP p p'.
Proof. intros HPQ []; econstructor; eauto. Qed.

(** What the schedules can leave in the slots: exactly the independent
    outcomes of the reads. *)
Lemma pool_results_iff (outcome : nat → R → Prop) n maxP rs :
  (0 < maxP)%nat →
  (∃ p, rtc (pool_step outcome n maxP) (pool_start n) p ∧ pool_final n p ∧ po_results p = map Some rs)
  ↔ length rs = n ∧ ∀ i r, rs !! i = Some r → outcome i r.
Proof.
  intros HP. split.
  - intros (p & Hp%pool_inv_reachable & Hf & E).
    destruct (pool_final_results _ _ _ p Hp Hf) as (rs' & E' & Hl & Ho). rewrite E in E'.
    apply (inj (map Some)) in E' as ->. done.
  - intros [Hl Ho]. pose (only i r := rs !! i = Some r).
    destruct (pool_ends only n maxP (pool_start n) HP) as (p & Hp & Hf).
    + intros i Hi. rewrite <- Hl in Hi. by apply lookup_lt_is_Some_2 in Hi.
    + apply pool_inv_start.
    + exists p. split; [|split; [done|]].
      * eapply rtc_subrel, Hp. intros x y. by apply pool_step_mono.
      * destruct (pool_final_results _ _ _ p (pool_inv_reachable _ _ _ p Hp) Hf) as (rs' & -> & Hl' & Ho').
        f_equal. apply list_eq_same_length with n; [lia|done|].
        intros i x y Hi Hx Hy. apply Ho' in Hx. unfold only in Hx. congruence.
Qed.
End outcomes.

Section engine_pool.
Context `{PebbleOps} `{BloomLib} `{Zstd} `{XXHash}.

(** Reading a block changes no file. *)
Lemma ReadBlock_keeps q store id kh from to : keeps q (ReadBlock store id kh from to).
Proof.
  assert (∀ ts l i acc, keeps q (match_rows kh (UnixNano from) (UnixNano to) ts i l acc)) as Hrows.
  { intros ts l. induction l as [|k l IH]; intros i acc; cbn [match_rows]; [auto with keeps|].
    destruct (negb _); [done|]. apply keeps_bind; [|intros t; by destruct (_ && _)].
    unfold index_at. intros s s' r. destruct (ts !! i); by intros [= <- _]. }
  assert (∀ n, keeps q (make_bytes n)) as Hmake
    by (intros n s s' r; unfold make_bytes; destruct (_ <? _); by intros [= <- _]).
  unfold ReadBlock, of_result, st_err, ReadFilterColumns, of_result. apply keeps_bind; [auto with keeps|]. intros _.
  apply keeps_bind; [auto with keeps|]. intros size. destruct (size <? _); [auto with keeps|].
  do 5 (apply keeps_bind; [auto 20 with keeps|intros ?]).
  destruct a3 as [khs ts]. apply keeps_bind; [apply Hrows|]. intros [|? ?]; auto 20 with keeps.
Qed.

Lemma ReadBlock_files store id kh from to s s' r :
  ReadBlock store id kh from to s = (s', r) → files s' = files s.
Proof. intros E. apply map_eq. intros q. by eapply ReadBlock_keeps. Qed.

(** What a goroutine may find for its task: the read on the files of the disk,
    whichever of its system calls fail. *)
Definition may_read (f : gmap bytes bytes) (kh : Z) (from to : time) (t : BlockID * TierStore)
    (r : result (list Event)) : Prop :=
  ∃ sc, (ReadBlock t.2 t.1 kh from to (mkFS f sc)).2 = r.

Definition task_outcome (f : gmap bytes bytes) (kh : Z) (from to : time)
    (tasks : list (BlockID * TierStore)) (i : nat) (r : result (list Event)) : Prop :=
  ∃ t, tasks !! i = Some t ∧ may_read f kh from to t r.

(** The pool of a query for these tasks. *)
Definition pool_of (cfg : EngineConfig) (f : gmap bytes bytes) (kh : Z) (from to : time)
    (tasks : list (BlockID * TierStore)) : relation (Pool (result (list Event))) :=
  pool_step (task_outcome f kh from to tasks) (length tasks)
    (Z.to_nat (max_parallel cfg (zlen tasks))).

(** The reads in task order, as [Query] has them, are such outcomes. *)
Lemma read_tasks_outcomes kh from to tasks acc s s' rs :
  read_tasks kh from to tasks acc s = (s', Ok rs) →
  ∃ rs', rs = acc ++ rs' ∧ Forall2 (may_read (files (qs_fs s)) kh from to) tasks rs'.
Proof.
  revert acc s. induction tasks as [|[id store] tasks IH]; intros acc s; cbn [read_tasks].
  { intros [= <- <-]. exists []. by rewrite app_nil_r. }
  unfold q_fs. destruct (ReadBlock store id kh from to (qs_fs s)) as [g r] eqn:E.
  intros (rs' & -> & Hrs)%IH. exists (r :: rs'). rewrite <- app_assoc. split; [done|].
  cbn [qs_fs] in Hrs. rewrite (ReadBlock_files _ _ _ _ _ _ _ _ E) in Hrs. constructor; [|done].
  exists (sched (qs_fs s)). destruct (qs_fs s) as [f sc]. cbn [fst snd files sched]. by rewrite E.
Qed.

Lemma max_parallel_pos cfg n : 0 < n → 0 < max_parallel cfg n <= n ∧
  (0 < ec_MaxParallel cfg → max_parallel cfg n <= ec_MaxParallel cfg).
Proof. intros Hn. unfold max_parallel. zcases; lia. Qed.

(** C11: The parallel reads of a query are equivalent to reading the blocks one
    after the other.  Whatever the schedule, the slots end up holding exactly
    one independent read per task, and any such outcomes are possible, among
    them those of the sequential reads; never more than [MaxParallel] blocks
    are read at a time; every schedule can be completed, and none runs
    forever, since each step lowers a measure. *)
Theorem parallel_reads_equiv cfg f kh from to tasks :
  tasks ≠ [] →
  let step := pool_of cfg f kh from to tasks in
  let start := pool_start (length tasks) in
  let final p rs := pool_final (length tasks) p ∧ po_results p = map Some rs in
  (∀ rs, (∃ p, rtc step start p ∧ final p rs) ↔ Forall2 (may_read f kh from to) tasks rs) ∧
  (∀ s s' rs, files (qs_fs s) = f → read_tasks kh from to tasks [] s = (s', Ok rs) →
     ∃ p, rtc step start p ∧ final p rs) ∧
  (∀ p, rtc step start p →
     Z.of_nat (count reading (po_readers p)) <= max_parallel cfg (zlen tasks) ∧
     (∃ p' rs, rtc step p p' ∧ final p' rs) ∧
     ∀ p', step p p' → (pool_measure (length tasks) p' < pool_measure (length tasks) p)%nat).
Proof.
  intros Hne step start final.
  assert (0 < zlen tasks) as Hn by (destruct tasks; [done|unfold zlen; simpl; lia]).
  destruct (max_parallel_pos cfg _ Hn) as [[HP _] _].
  assert (0 < Z.to_nat (max_parallel cfg (zlen tasks)))%nat as HP' by lia.
  assert (∀ rs, (∃ p, rtc step start p ∧ final p rs) ↔ Forall2 (may_read f kh from to) tasks rs) as Hiff.
  { intros rs. unfold step, final, start, pool_of. rewrite pool_results_iff by done.
    rewrite Forall2_same_length_lookup. split.
    - intros [Hl Ho]. split; [done|]. intros i t r Ht Hr. destruct (Ho i r Hr) as (t' & Ht' & Hm). congruence.
    - intros [Hl Ho]. split; [done|]. intros i r Hr.
      destruct (lookup_lt_is_Some_2 tasks i) as [t Ht]; [apply lookup_lt_Some in Hr; lia|].
      exists t. split; [done|]. by eapply Ho. }
  split; [done|]. split.
  - intros s s' rs <- E. apply Hiff. apply read_tasks_outcomes in E as (rs' & -> & Hrs). done.
  - intros p Hp. pose proof (pool_inv_reachable _ _ _ p Hp) as Hi. split; [|split].
    + destruct Hi. pose proof (count_mono reading busy (po_readers p) ltac:(by intros [])). lia.
    + destruct (pool_ends (task_outcome f kh from to tasks) (length tasks) _ p HP') as (p' & Hp' & Hf).
      * intros i Hi'. destruct (lookup_lt_is_Some_2 tasks i Hi') as [t Ht].
        eexists. exists t. split; [done|]. by exists [].
      * done.
      * destruct (pool_final_results _ _ _ p' (pool_inv_reachable _ _ _ p' ltac:(by etrans)) Hf) as (rs & E & _).
        by exists p', rs.
    + intros p' Hs. by eapply pool_measure_step.
Qed.
End engine_pool.

(** Two reads of the sample block, two slots. *)
Lemma parallel_reads_equiv_witness :
  ∃ p, rtc (pool_of DefaultEngineConfig (files (fs sealed_world.1)) 9 0 (24 * Hour)
              [(sample_id, local_tier hot_store); (sample_id, local_tier hot_store)]) (pool_start 2) p ∧
    po_results p = [Some (Ok [mkEvent 9 70 [1; 2]]); Some (Ok [mkEvent 9 70 [1; 2]])].
Proof.
  destruct (parallel_reads_equiv DefaultEngineConfig (files (fs sealed_world.1)) 9 0 (24 * Hour)
              [(sample_id, local_tier hot_store); (sample_id, local_tier hot_store)]) as (Hiff & _).
  - discriminate.
  - destruct (proj2 (Hiff [Ok [mkEvent 9 70 [1; 2]]; Ok [mkEvent 9 70 [1; 2]]])) as (p & Hp & _ & Hr).
    + assert (may_read (files (fs sealed_world.1)) 9 0 (24 * Hour) (sample_id, local_tier hot_store)
                (Ok [mkEvent 9 70 [1; 2]])) by (exists []; vm_compute; reflexivity).
      by repeat constructor.
    + exists p. split; [exact Hp|exact Hr].
Defined.
