(* ===== verification/QueryExact.v ===== *)
(** * Queries as multisets: what the engine returns, counted

    [Query] says which events a query returns; here each one is counted.  An
    index entry of a block carries the block's event type, so a block is a
    candidate once even when all 256 types are looked up, and the answer is,
    as a multiset, a plain selection over the rows of the blocks.  A query
    changes nothing but the cache, and the cache only gets filters of indexed
    blocks. *)
From S2P Require Import Prelude GoTime GoOs Pebble PebbleRef Keys Wal BlockMetaDB IdxDB Expiry Event Memtable.
From S2P Require Import Bloom Format Tier World Sealer BlockReader Heap Merger Index BloomCache Query.
#[local] Open Scope Z_scope.

(** ** Concatenations over sublists *)
Lemma concat_nil {A B} (g : A → list B) l : (∀ x, x ∈ l → g x = []) → concat (map g l) = [].
Proof.
  induction l as [|x l IH]; intros Hl; [done|]. cbn [map concat]. rewrite (Hl x) by left.
  apply IH. intros y Hy. apply Hl. by right.
Qed.

Lemma concat_ext {A B} (g h : A → list B) l :
  (∀ x, x ∈ l → g x = h x) → concat (map g l) = concat (map h l).
Proof.
  induction l as [|x l IH]; intros Hl; [done|]. cbn [map concat]. rewrite (Hl x) by left. f_equal.
  apply IH. intros y Hy. apply Hl. by right.
Qed.

(** Elements that contribute nothing may be left out. *)
Lemma concat_sub {A B} `{EqDecision A} (g : A → list B) l1 l2 :
  NoDup l1 → NoDup l2 → (∀ x, x ∈ l1 → x ∈ l2) → (∀ x, x ∈ l2 → x ∉ l1 → g x = []) →
  concat (map g l1) ≡ₚ concat (map g l2).
Proof.
  intros H1 H2 Hsub Hnil. destruct (submseteq_Permutation l1 l2) as [k Hk]; [by apply NoDup_submseteq|].
  rewrite Hk, map_app, concat_app. rewrite (concat_nil g k); [by rewrite app_nil_r|].
  intros x Hx. apply Hnil; [rewrite Hk; apply elem_of_app; by right|].
  rewrite Hk in H2. apply NoDup_app in H2 as (_ & Hdis & _). intros Hx1. by apply (Hdis x).
Qed.

Lemma concat_filter {A B} (g : A → list B) P `{∀ x, Decision (P x)} l :
  (∀ x, x ∈ l → ¬ P x → g x = []) → concat (map g l) = concat (map g (filter P l)).
Proof.
  induction l as [|x l IH]; intros Hl; [done|]. cbn [map concat]. rewrite filter_cons.
  destruct (decide (P x)) as [HP|HP]; cbn [map concat].
  - f_equal. apply IH. intros y Hy. apply Hl. by right.
  - rewrite (Hl x) by (done || left). apply IH. intros y Hy. apply Hl. by right.
Qed.

Section exact.
Context `{Pebble} `{BloomLib} `{Zstd} `{XXHash} `{MapOrder} `{SliceSort}.

(** ** The answer *)

(** The request covers the hour and the event type of the block. *)
Definition selected (ty : BlockID → Z) (req : QueryRequest) (id : BlockID) : bool :=
  hour_overlaps (qr_From req) (qr_To req) id &&
  match qr_EventType req with None => true | Some et => ty id =? et end.

Definition block_rows (ty : BlockID → Z) (req : QueryRequest) (p : BlockID * (Tier * Memtable)) : list Event :=
  if selected ty req p.1
  then matching (KeyHashFor (qr_PartitionKey req)) (UnixNano (qr_From req)) (UnixNano (qr_To req)) (Rows p.2.2)
  else [].

(** The rows of the key and the time range in the selected blocks. *)
Definition query_rows (ty : BlockID → Z) (blocks : gmap BlockID (Tier * Memtable)) (req : QueryRequest)
  : list Event := concat (map (block_rows ty req) (map_to_list blocks)).

(** Every index entry of a block is under the block's event type. *)
Definition index_typed (ty : BlockID → Z) (blocks : gmap BlockID (Tier * Memtable)) (m : gmap bytes bytes) : Prop :=
  ∀ et kh id, is_u64 kh → indexed et kh id m → is_Some (blocks !! id) → et = ty id.

Section candidates.
Context (tiers : gmap Tier TierStore) (cstore : TierStore) (blocks : gmap BlockID (Tier * Memtable)).
Context (m f : gmap bytes bytes) (ty : BlockID → Z).
Context (Hco : consistent tiers cstore blocks m f) (Hty : index_typed ty blocks m).

Abbreviation alive := (fun id => is_Some (blocks !! id)).

Lemma lookup_all_once ets kh from to ids s s' ids' :
  is_u64 kh → NoDup ets → q_inv cstore blocks m f s →
  NoDup (filter alive ids) → (∀ id, id ∈ ids → is_Some (blocks !! id) → ty id ∉ ets) →
  lookup_all ets kh from to ids s = (s', Ok ids') → NoDup (filter alive ids').
Proof.
  intros Hk Hnd. revert ids s. induction Hnd as [|et ets Hni Hnd IH]; intros ids s Hq Hn Hold;
    cbn [lookup_all]; [by intros [= <- <-]|].
  intros (s1 & l & E1 & E)%st_bind_ok.
  apply (q_db_inv cstore blocks m f) in E1 as [Hq1 E1]; [|done|intros d d' r' Hg; by eapply Lookup_view].
  pose proof (qi_db _ _ _ _ _ Hq) as Hv. pose proof (co_db _ _ _ _ _ Hco) as Hdb.
  apply Lookup_spec in E1 as (_ & Hs & Hin); [|done|by rewrite Hv]. rewrite Hv in Hin.
  eapply IH; [exact Hq1|..|exact E].
  - rewrite filter_app. apply NoDup_app. split; [done|]. split.
    + intros id [Hl Hid]%list_elem_of_filter [_ Hidl]%list_elem_of_filter.
      apply Hin in Hidl as [Hidl _]. apply (Hold id Hid Hl). rewrite <- (Hty et kh id Hk Hidl Hl). left.
    + apply NoDup_filter. by apply blt_sorted_NoDup.
  - intros id [Hid|[Hi _]%Hin]%elem_of_app Hl.
    + specialize (Hold id Hid Hl). by apply not_elem_of_cons in Hold as [_ ?].
    + by rewrite <- (Hty et kh id Hk Hi Hl).
Qed.

Lemma event_types_NoDup : NoDup event_types.
Proof.
  unfold event_types. apply NoDup_fmap_2_strong; [|apply NoDup_seq]. intros x y _ _. lia.
Qed.

Lemma candidates_once req kh s s' ids :
  is_u64 kh → q_inv cstore blocks m f s → candidates req kh s = (s', Ok ids) → NoDup (filter alive ids).
Proof.
  intros Hk Hq E. destruct (candidates_spec tiers cstore blocks m f req kh s s' ids Hk Hco Hq E) as (_ & Hnd & _).
  unfold candidates in E. destruct (qr_EventType req) as [et|].
  - apply NoDup_filter, Hnd. by eexists.
  - apply (lookup_all_once event_types kh (qr_From req) (qr_To req) [] s s' ids Hk event_types_NoDup Hq); [apply NoDup_nil_2| |exact E].
    by intros id ?%not_elem_of_nil.
Qed.

(** The candidates' contributions are the selected rows. *)
Lemma candidates_rows req ids :
  let kh := KeyHashFor (qr_PartitionKey req) in
  NoDup (filter alive ids) →
  (∀ id, id ∈ ids ↔ (∃ et, selects req et ∧ indexed et kh id m) ∧
                    hour_overlaps (qr_From req) (qr_To req) id = true) →
  concat (map (answer blocks kh (qr_From req) (qr_To req)) ids) ≡ₚ query_rows ty blocks req.
Proof.
  intros kh Hnd Hids. assert (is_u64 kh) as Hk by apply Sum64_range.
  set (g := fun id => if selected ty req id then answer blocks kh (qr_From req) (qr_To req) id else []).
  assert (∀ id et, selects req et → et = ty id → hour_overlaps (qr_From req) (qr_To req) id = true →
                   selected ty req id = true) as Hsel.
  { intros id et Hs -> Hov. unfold selected. rewrite Hov. unfold selects in Hs.
    destruct (qr_EventType req); [by rewrite Hs, Z.eqb_refl|done]. }
  assert (query_rows ty blocks req = concat (map g (map fst (map_to_list blocks)))) as ->.
  { unfold query_rows. rewrite map_map. apply concat_ext. intros [id [t mt]] Hp%elem_of_map_to_list.
    unfold block_rows, g, answer. cbn [fst snd]. by rewrite Hp. }
  rewrite (concat_filter _ alive).
  2: { intros id _ Hn. unfold answer. destruct (blocks !! id) eqn:E; [|done]. destruct Hn. by eexists. }
  rewrite (concat_ext _ g).
  2: { intros id [Hl [(et & Hs & Hi) Hov]%Hids]%list_elem_of_filter. unfold g.
       by rewrite (Hsel id et Hs (Hty et kh id Hk Hi Hl) Hov). }
  apply concat_sub; [done|apply NoDup_fst_map_to_list| |].
  - intros id [[b Hb] _]%list_elem_of_filter. apply elem_of_map_to_list in Hb.
    apply list_elem_of_In, in_map_iff. exists (id, b). split; [done|]. by apply list_elem_of_In.
  - intros id _ Hni. unfold g. destruct (selected ty req id) eqn:Es; [|done].
    unfold answer. destruct (blocks !! id) as [[t mt]|] eqn:Hb; [|done].
    destruct (matching kh _ _ (Rows mt)) as [|e l] eqn:Hm; [done|]. exfalso. apply Hni.
    assert (e ∈ matching kh (UnixNano (qr_From req)) (UnixNano (qr_To req)) (Rows mt)) as He by (rewrite Hm; left).
    apply list_elem_of_In, filter_In in He as [He Hrow].
    unfold row_matches in Hrow. apply andb_true_iff in Hrow as [Hkh%Z.eqb_eq _].
    destruct (co_index _ _ _ _ _ Hco id t mt e Hb) as (et & Het & Hi); [by apply list_elem_of_In|].
    rewrite Hkh in Hi. unfold selected in Es. apply andb_true_iff in Es as [Hov Hev].
    apply list_elem_of_filter. split; [by eexists|]. apply Hids. split; [|done].
    exists et. split; [|done]. unfold selects. rewrite (Hty et kh id Hk Hi) in * by (by eexists).
    destruct (qr_EventType req); [by apply Z.eqb_eq|done].
Qed.
End candidates.

Lemma Query_counted ty tiers cstore blocks req s s' evs :
  consistent tiers cstore blocks (view (qs_db s)) (files (qs_fs s)) →
  index_typed ty blocks (view (qs_db s)) →
  bc_store (qs_cache s) = cstore → cache_inv (qs_cache s) → warm blocks (qs_cache s) (files (qs_fs s)) →
  Query tiers req s = (s', Ok evs) →
  StronglySorted ev_le evs ∧ evs ≡ₚ query_rows ty blocks req ∧ q_inv cstore blocks (view (qs_db s)) (files (qs_fs s)) s'.
Proof.
  intros Hco Hty Hst Hc Hw E. unfold Query in E.
  destruct (length _ =? 0)%nat; [done|]. destruct (_ <? _); cbn [negb] in E; [|done].
  assert (is_u64 (KeyHashFor (qr_PartitionKey req))) as Hkh by apply Sum64_range.
  assert (q_inv cstore blocks (view (qs_db s)) (files (qs_fs s)) s) as Hq by done.
  apply st_bind_ok in E as (s1 & ids & E1 & E).
  pose proof (candidates_once _ _ _ _ _ _ Hco Hty req _ s s1 ids Hkh Hq E1) as Hnd.
  destruct (candidates_spec tiers cstore blocks _ _ req _ s s1 ids Hkh Hco Hq E1) as (Hq1 & _ & Hids).
  destruct (read_blocks_spec tiers cstore blocks _ _ Hco _ (qr_From req) (qr_To req) ids s1 s' evs Hq1 E)
    as (Hq2 & Hperm & Hsort).
  split; [done|]. split; [|done]. rewrite Hperm. by eapply candidates_rows.
Qed.

(** ** What a query does to the cache *)
Definition cached (P : BlockID → Prop) (s : QState) : Prop :=
  cache_inv (qs_cache s) ∧ ∀ x, x ∈ cached_ids (qs_cache s) → P x.

Lemma q_db_cache {A} (g : ST pdb A) s s' r : q_db g s = (s', r) → qs_cache s' = qs_cache s.
Proof. unfold q_db. destruct (g (qs_db s)). by intros [= <- _]. Qed.

Lemma lookup_all_cache ets kh from to ids s s' r :
  lookup_all ets kh from to ids s = (s', r) → qs_cache s' = qs_cache s.
Proof.
  revert ids s. induction ets as [|et ets IH]; intros ids s; cbn [lookup_all]; [by intros [= <- _]|].
  unfold st_bind. destruct (q_db _ s) as [s1 [l|e]] eqn:E1; apply q_db_cache in E1.
  - intros E%IH. congruence.
  - by intros [= <- _].
Qed.

Lemma read_tasks_cache kh from to tasks results s s' r :
  read_tasks kh from to tasks results s = (s', r) → qs_cache s' = qs_cache s.
Proof.
  revert results s. induction tasks as [|[id store] tasks IH]; intros results s; cbn [read_tasks];
    [by intros [= <- _]|]. destruct (q_fs _ s) as [s1 res] eqn:E1. intros E%IH. rewrite E.
  unfold q_fs in E1. destruct (ReadBlock _ _ _ _ _ _). by injection E1 as <- _.
Qed.

Lemma build_tasks_cached P tiers kh ids tasks s s' r :
  (∀ id, id ∈ ids → P id) → cached P s → build_tasks tiers kh ids tasks s = (s', r) → cached P s'.
Proof.
  revert tasks s. induction ids as [|id ids IH]; intros tasks s Hids Hs; cbn [build_tasks]; [by intros [= <- _]|].
  unfold st_bind. destruct (q_bloom (Test id kh) s) as [s1 [b|e]] eqn:E1;
    assert (cached P s1) as Hs1.
  1, 3: unfold q_bloom in E1; destruct (Test id kh (qs_cache s, qs_fs s)) as [[c g] r'] eqn:Et;
    destruct Hs as [Hc HP]; apply (Test_spec (fun _ => False)) in Et as (Hc' & _ & _ & _ & Hx & _);
      [|done|by intros x _ []]; injection E1 as <- _; (split; [done|]);
      intros x [Hx'| ->]%Hx; [by apply HP|apply Hids; left].
  2: by intros [= <- _].
  assert (∀ x, x ∈ ids → P x) as Hids' by (intros x Hx; apply Hids; by right).
  destruct b; cbn [negb]; [|by apply IH].
  destruct (q_db (GetBlockMeta id) s1) as [s2 [bm|e]] eqn:E2; apply q_db_cache in E2;
    assert (cached P s2) as Hs2 by (unfold cached; by rewrite E2).
  - destruct (tiers !! bm_Tier bm); by apply IH.
  - destruct (is_not_found e); [by apply IH|]. by intros [= <- _].
Qed.

(** However a query ends, the cache got filters of indexed blocks only. *)
Lemma Query_cached P tiers cstore blocks req s s' r :
  consistent tiers cstore blocks (view (qs_db s)) (files (qs_fs s)) →
  bc_store (qs_cache s) = cstore → warm blocks (qs_cache s) (files (qs_fs s)) → cached P s →
  (∀ et id, indexed et (KeyHashFor (qr_PartitionKey req)) id (view (qs_db s)) → P id) →
  Query tiers req s = (s', r) → cached P s'.
Proof.
  intros Hco Hst Hw Hc HP. unfold Query.
  destruct (length _ =? 0)%nat; [by intros [= <- _]|]. destruct (_ <? _); cbn [negb]; [|by intros [= <- _]].
  assert (is_u64 (KeyHashFor (qr_PartitionKey req))) as Hkh by apply Sum64_range.
  set (kh := KeyHashFor _) in *. unfold st_bind. destruct (candidates req kh s) as [s1 [ids|e]] eqn:E1;
    assert (cached P s1) as Hs1.
  1, 3: assert (qs_cache s1 = qs_cache s) as Ec
      by (unfold candidates in E1; destruct (qr_EventType req); [by eapply q_db_cache|by eapply lookup_all_cache]);
    unfold cached; by rewrite Ec.
  2: by intros [= <- _].
  assert (q_inv cstore blocks (view (qs_db s)) (files (qs_fs s)) s) as Hq by (split; try done; apply Hc).
  destruct (candidates_spec tiers cstore blocks _ _ req _ s s1 ids Hkh Hco Hq E1) as (_ & _ & Hids).
  unfold read_blocks. destruct ids as [|i ids]; [by intros [= <- _]|]. unfold st_bind.
  destruct (build_tasks tiers kh (i :: ids) [] s1) as [s2 rt] eqn:E2.
  apply (build_tasks_cached P) in E2; [|intros id [(et & _ & Hi) _]%Hids; by eapply HP|done].
  destruct rt as [tasks|e]; [|by intros [= <- _]].
  destruct tasks as [|t tasks]; [by intros [= <- _]|].
  destruct (read_tasks _ _ _ _ _ s2) as [s3 [rs|e]] eqn:E3; apply read_tasks_cache in E3;
    assert (cached P s3) by (unfold cached; by rewrite E3); [|by intros [= <- _]].
  destruct (collect rs []); by intros [= <- _].
Qed.
End exact.
