(* ===== verification/Ttl.v ===== *)
(** * Expiry of blocks: [internal/ttl/reaper.go], [internal/ttl/janitor.go]

    One cycle of the reaper and one sweep of the janitor, over the store and
    the disk.  [ctx] lists whether the context is found canceled at the
    successive checks; after the end of the list it never is.  The timers
    that pace the deletions and repeat the cycles are not modelled. *)
From S2P Require Import Prelude GoTime GoOs Pebble PebbleRef Keys Wal BlockMetaDB Expiry Event Tier World.

Record ReaperConfig := mkReaperConfig {
  rc_Interval : duration;
  rc_MaxDeletesPerSec : Z;
  rc_Tiers : gmap Tier TierStore;
}.

Definition DefaultReaperConfig : ReaperConfig := mkReaperConfig (10 * Minute) 100 ∅.

Definition NewReaper (cfg : ReaperConfig) : ReaperConfig := {|
  rc_Interval := if rc_Interval cfg <=? 0 then rc_Interval DefaultReaperConfig else rc_Interval cfg;
  rc_MaxDeletesPerSec := if rc_MaxDeletesPerSec cfg <=? 0
                         then rc_MaxDeletesPerSec DefaultReaperConfig else rc_MaxDeletesPerSec cfg;
  rc_Tiers := rc_Tiers cfg;
|}.

Record JanitorConfig := mkJanitorConfig {
  jc_Interval : duration;
  jc_Tiers : gmap Tier TierStore;
}.

Definition DefaultJanitorConfig : JanitorConfig := mkJanitorConfig Hour ∅.

Definition NewJanitor (cfg : JanitorConfig) : JanitorConfig := {|
  jc_Interval := if jc_Interval cfg <=? 0 then jc_Interval DefaultJanitorConfig else jc_Interval cfg;
  jc_Tiers := jc_Tiers cfg;
|}.

(** The next check of the context. *)
Definition ctx_next (ctx : list bool) : bool * list bool :=
  match ctx with [] => (false, []) | c :: r => (c, r) end.

Definition now_hour (now : time) : Z := u64 (Z.quot (Unix now) 3600).

Section ttl.
Context `{PebbleOps}.

(** The body of the reaper's loop for one entry; [true] when it deleted a
    block, after which it waits. *)
Definition reap_one (tiers : gmap Tier TierStore) (entry : ExpiredEntry) : ST World bool := fun w =>
  match on_db (GetBlockMeta (ee_ID entry)) w with
  | (w, Err _) =>
      (st_exec (on_db (DeleteBlockAndExpiry (ee_Hour entry) (ee_ID entry))) w, Ok false)
  | (w, Ok bm) =>
      match tiers !! bm_Tier bm with
      | None => (w, Ok false)
      | Some store =>
          (on_fs (Delete store (ee_ID entry)) ;;;
           on_db (DeleteBlockAndExpiry (ee_Hour entry) (ee_ID entry)) ;;;
           st_ret true) w
      end
  end.

Fixpoint reap (tiers : gmap Tier TierStore) (ctx : list bool) (expired : list ExpiredEntry)
  : ST World unit :=
  match expired with
  | [] => st_ret tt
  | entry :: r =>
      let '(canceled, ctx) := ctx_next ctx in
      if canceled then st_ret tt
      else
        let! deleted := reap_one tiers entry in
        if deleted : bool then
          let '(canceled, ctx) := ctx_next ctx in
          if canceled then st_ret tt else reap tiers ctx r
        else reap tiers ctx r
  end.

Definition Reaper_RunOnce (cfg : ReaperConfig) (ctx : list bool) (now : time) : ST World unit :=
  let! expired := on_db (ScanExpiredEntries (now_hour now)) in
  reap (rc_Tiers cfg) ctx expired.

(** The body of the janitor's loop for one entry. *)
Definition sweep_one (tiers : gmap Tier TierStore) (entry : ExpiredEntry) : ST World unit := fun w =>
  match on_db (GetBlockMeta (ee_ID entry)) w with
  | (w, Err _) =>
      (st_exec (on_db (DeleteBlockAndExpiry (ee_Hour entry) (ee_ID entry))) w, Ok tt)
  | (w, Ok bm) =>
      match tiers !! bm_Tier bm with
      | None => (w, Ok tt)
      | Some store =>
          (let! exists' := on_fs (Exists store (ee_ID entry)) in
           if exists' : bool then st_ret tt
           else on_db (DeleteBlockAndExpiry (ee_Hour entry) (ee_ID entry))) w
      end
  end.

Fixpoint sweep (tiers : gmap Tier TierStore) (ctx : list bool) (entries : list ExpiredEntry)
  : ST World unit :=
  match entries with
  | [] => st_ret tt
  | entry :: r =>
      let '(canceled, ctx) := ctx_next ctx in
      if canceled then st_ret tt
      else sweep_one tiers entry ;;; sweep tiers ctx r
  end.

Definition Janitor_RunOnce (cfg : JanitorConfig) (ctx : list bool) (now : time) : ST World unit :=
  let! entries := on_db (ScanExpiredEntries (now_hour now)) in
  sweep (jc_Tiers cfg) ctx entries.
End ttl.

(** ** What one entry can change *)
Section props.
Context `{Pebble}.
Context (tiers : gmap Tier TierStore) (Hlaws : ∀ t store, tiers !! t = Some store → TierLaws store).

(** The two files of a block in some tier. *)
Definition tier_file (id : BlockID) (q : bytes) : Prop :=
  ∃ t store, tiers !! t = Some store ∧ (q = BlockPath store id ∨ q = BloomPath store id).

Definition entry_key (e : ExpiredEntry) (k : bytes) : Prop :=
  k = BlockKey (ee_ID e) ∨ k = ExpiryKey (ee_Hour e) (ee_ID e).

(** The files of the entry's block only get fewer; keys other than its two
    keep their value and those two at most disappear. *)
Record shrunk (e : ExpiredEntry) (w w' : World) : Prop := {
  sh_db : view (db w') = view (db w) ∨
          view (db w') = unsealed_view (ee_Hour e) (ee_ID e) (view (db w));
  sh_fs q : files (fs w') !! q = None ∨ files (fs w') !! q = files (fs w) !! q;
  sh_frame q : ¬ tier_file (ee_ID e) q → files (fs w') !! q = files (fs w) !! q;
}.

Lemma drop_keys_db e w w' r :
  on_db (DeleteBlockAndExpiry (ee_Hour e) (ee_ID e)) w = (w', r) → shrunk e w w'.
Proof.
  intros [E F]%on_db_inv. apply DeleteBlockAndExpiry_any in E.
  split; [done|intros q; rewrite F; auto|intros q _; by rewrite F].
Qed.

Lemma get_meta_view id w w' r :
  on_db (GetBlockMeta id) w = (w', r) → view (db w') = view (db w) ∧ fs w' = fs w.
Proof. intros [E F]%on_db_inv. split; [by eapply GetBlockMeta_view|done]. Qed.

Lemma shrunk_from e w0 w w' :
  view (db w) = view (db w0) → fs w = fs w0 → shrunk e w w' → shrunk e w0 w'.
Proof. intros Hv Hf []. split; rewrite <- ?Hv; [done|intros q; rewrite <- ?Hf; auto..]. Qed.

Lemma delete_file_shrunk e store t w w' r :
  tiers !! t = Some store → on_fs (Delete store (ee_ID e)) w = (w', r) → shrunk e w w'.
Proof.
  intros Ht [E F]%on_fs_inv. pose proof (Hlaws _ _ Ht) as Hl. split.
  - left. by rewrite F.
  - intros q. by eapply (Delete_shrinks (ts := store)).
  - intros q Hq. eapply (Delete_frame (ts := store)); [exact E|..]; intros ->; apply Hq;
      exists t, store; auto.
Qed.

Lemma shrunk_trans e w1 w2 w3 :
  view (db w2) = view (db w1) → shrunk e w1 w2 → shrunk e w2 w3 → shrunk e w1 w3.
Proof.
  intros Hv [_ F1 G1] [D2 F2 G2]. split.
  - by rewrite Hv in D2.
  - intros q. destruct (F1 q) as [Hq1|Hq1], (F2 q) as [Hq2|Hq2]; rewrite ?Hq2, ?Hq1; auto.
  - intros q Hq. by rewrite G2, G1.
Qed.

Lemma reap_one_shrunk e w w' r : reap_one tiers e w = (w', r) → shrunk e w w'.
Proof.
  unfold reap_one. destruct (on_db (GetBlockMeta (ee_ID e)) w) as [w1 [bm|err]] eqn:E1;
    apply get_meta_view in E1 as [Hv1 Hf1].
  - destruct (tiers !! bm_Tier bm) as [store|] eqn:Ht.
    + intros E. apply (shrunk_from e w w1); [done|done|]. unfold st_bind, st_ret in E.
      destruct (on_fs (Delete store (ee_ID e)) w1) as [w2 [[]|err]] eqn:E2;
        pose proof (delete_file_shrunk _ _ _ _ _ _ Ht E2) as S2; [|by injection E as <- _].
      apply on_fs_inv in E2 as [_ D2].
      destruct (on_db _ w2) as [w3 [[]|err]] eqn:E3; injection E as <- _;
        apply drop_keys_db in E3; (eapply shrunk_trans; [by rewrite D2|done|done]).
    + intros [= <- _]. split; rewrite ?Hv1, ?Hf1; auto.
  - intros [= <- _]. apply (shrunk_from e w w1); [done|done|]. unfold st_exec.
    destruct (on_db _ w1) as [w2 r2] eqn:E2. by eapply drop_keys_db.
Qed.

Lemma sweep_one_shrunk e w w' r :
  sweep_one tiers e w = (w', r) → shrunk e w w' ∧ files (fs w') = files (fs w).
Proof.
  assert (∀ w1 w2 r2, view (db w1) = view (db w) → files (fs w1) = files (fs w) →
    on_db (DeleteBlockAndExpiry (ee_Hour e) (ee_ID e)) w1 = (w2, r2) →
    shrunk e w w2 ∧ files (fs w2) = files (fs w)) as Hdrop.
  { intros w1 w2 r2 Hv Hf E. pose proof (drop_keys_db _ _ _ _ E) as [D _ _].
    apply on_db_inv in E as [_ F]. rewrite Hv in D. rewrite F, Hf.
    split; [|done]. split; rewrite ?F, ?Hf; auto. }
  unfold sweep_one. destruct (on_db (GetBlockMeta (ee_ID e)) w) as [w1 [bm|err]] eqn:E1;
    apply get_meta_view in E1 as [Hv1 Hf1].
  - destruct (tiers !! bm_Tier bm) as [store|] eqn:Ht.
    + unfold st_bind. destruct (on_fs (Exists store (ee_ID e)) w1) as [w2 [b|err]] eqn:E2;
        apply on_fs_inv in E2 as [E2 D2]; pose proof (Hlaws _ _ Ht) as Hl;
        apply (Exists_spec (ts := store)) in E2 as [F2 _]; rewrite Hf1 in F2.
      * destruct b; [|intros E; eapply Hdrop; [..|exact E]; congruence].
        intros [= <- _]. split; [split|]; rewrite ?D2, ?F2, ?Hv1; auto.
      * intros [= <- _]. split; [split|]; rewrite ?D2, ?F2, ?Hv1; auto.
    + intros [= <- _]. split; [split|]; rewrite ?Hv1, ?Hf1; auto.
  - intros [= <- _]. unfold st_exec. destruct (on_db _ w1) as [w2 r2] eqn:E2.
    eapply Hdrop; [..|exact E2]; congruence.
Qed.

(** *** Cycles are sequences of such changes, for listed entries *)
Definition shrink_steps (l : list ExpiredEntry) : World → World → Prop :=
  rtc (fun w w' => ∃ e, e ∈ l ∧ shrunk e w w').

Lemma shrink_steps_trans l w1 w2 w3 :
  shrink_steps l w1 w2 → shrink_steps l w2 w3 → shrink_steps l w1 w3.
Proof. unfold shrink_steps. apply transitivity. Qed.

Lemma shrink_steps_cons e l w w' : shrink_steps l w w' → shrink_steps (e :: l) w w'.
Proof.
  apply rtc_subrel. intros a b (x & Hx & Hs). exists x. split; [by right|done].
Qed.

Lemma reap_steps ctx l w w' r : reap tiers ctx l w = (w', r) → shrink_steps l w w'.
Proof.
  revert ctx w. induction l as [|e l IH]; intros ctx w; cbn [reap].
  { intros [= <- _]. apply rtc_refl. }
  destruct (ctx_next ctx) as [[] ctx1]; [intros [= <- _]; apply rtc_refl|]. unfold st_bind.
  destruct (reap_one tiers e w) as [w1 [b|err]] eqn:E1; apply reap_one_shrunk in E1 as S1;
    assert (shrink_steps (e :: l) w w1) as R1 by (apply rtc_once; exists e; split; [left|done]).
  - assert (∀ ctx2, reap tiers ctx2 l w1 = (w', r) → shrink_steps (e :: l) w w') as Hrest.
    { intros ctx2 E. eapply shrink_steps_trans; [exact R1|]. by eapply shrink_steps_cons, IH. }
    destruct b; [|apply Hrest]. destruct (ctx_next ctx1) as [[] ctx2]; [|apply Hrest].
    by intros [= <- _].
  - by intros [= <- _].
Qed.

Lemma sweep_steps ctx l w w' r :
  sweep tiers ctx l w = (w', r) → shrink_steps l w w' ∧ files (fs w') = files (fs w).
Proof.
  revert ctx w. induction l as [|e l IH]; intros ctx w; cbn [sweep].
  { intros [= <- _]. by split; [apply rtc_refl|]. }
  destruct (ctx_next ctx) as [[] ctx1]; [intros [= <- _]; by split; [apply rtc_refl|]|].
  unfold st_bind. destruct (sweep_one tiers e w) as [w1 [[]|err]] eqn:E1;
    apply sweep_one_shrunk in E1 as [S1 F1];
    assert (shrink_steps (e :: l) w w1) as R1 by (apply rtc_once; exists e; split; [left|done]).
  - intros [R2 F2]%IH. split; [|congruence]. eapply shrink_steps_trans; [exact R1|].
    by apply shrink_steps_cons.
  - by intros [= <- _].
Qed.

Lemma unsealed_other h id m k :
  k ≠ BlockKey id → k ≠ ExpiryKey h id → unsealed_view h id m !! k = m !! k.
Proof. intros H1 H2. unfold unsealed_view. by rewrite !lookup_delete_ne by done. Qed.

Lemma shrink_steps_db l w w' k :
  shrink_steps l w w' → (∀ e, e ∈ l → ¬ entry_key e k) → view (db w') !! k = view (db w) !! k.
Proof.
  intros Hs Hk. induction Hs as [w|w1 w2 w3 (e & He & S) _ IH]; [done|]. rewrite IH.
  specialize (Hk e He). destruct (sh_db _ _ _ S) as [->| ->]; [done|].
  apply unsealed_other; intros ->; apply Hk; [by left|by right].
Qed.

Lemma shrink_steps_fs l w w' q :
  shrink_steps l w w' → (∀ e, e ∈ l → ¬ tier_file (ee_ID e) q) →
  files (fs w') !! q = files (fs w) !! q.
Proof.
  intros Hs Hq. induction Hs as [w|w1 w2 w3 (e & He & S) _ IH]; [done|]. rewrite IH.
  apply (sh_frame _ _ _ S). by apply Hq.
Qed.

Lemma shrink_steps_ok l w w' : shrink_steps l w w' → wal_ok (view (db w)) → wal_ok (view (db w')).
Proof.
  intros Hs. induction Hs as [w|w1 w2 w3 (e & He & S) _ IH]; [done|]. intros Hw. apply IH.
  destruct (sh_db _ _ _ S) as [->| ->]; [done|]. pose proof Hw as [Hdb _].
  eapply wal_ok_other; [done|auto with bbdb| |].
  - intros s q v _ _. by rewrite unsealed_other by auto with bbdb.
  - intros s. apply unsealed_other; auto with bbdb.
Qed.

(** *** Safety of a cycle: blocks that are not due *)

(** No due block's files are the given block's. *)
Definition files_apart (m : gmap bytes bytes) (id : BlockID) : Prop :=
  ∀ h id' q, is_u64 h → expires h id' m → id' ≠ id → tier_file id q → ¬ tier_file id' q.

(** No expiry hour of the block has begun. *)
Definition not_due (now : time) (m : gmap bytes bytes) (id : BlockID) : Prop :=
  ∀ h, is_u64 h → h * Hour <= now → ¬ expires h id m.

Lemma now_hour_div now : 0 <= now → is_i64 now → now_hour now = now / Hour.
Proof.
  intros Hn [_ Hi]. unfold now_hour, Unix, Hour, Minute, Second.
  assert (0 <= now / 1000000000) by (apply Z.div_pos; lia).
  rewrite Z.quot_div_nonneg, Z.div_div by lia. change (60 * (60 * 1000000000)) with (1000000000 * 3600).
  assert (0 <= now / (1000000000 * 3600) <= now)
    by (split; [apply Z.div_pos; lia|apply Z.div_le_upper_bound; lia]).
  apply u64_id. unfold is_u64. lia.
Qed.

Lemma now_hour_range now : 0 <= now → is_i64 now → is_u64 (now_hour now + 1).
Proof.
  intros Hn Hi. rewrite now_hour_div by done. destruct Hi as [_ Hi]. unfold is_u64.
  assert (0 <= now / Hour <= now) by (split; [apply Z.div_pos|apply Z.div_le_upper_bound]; unfold Hour, Minute, Second; lia).
  lia.
Qed.

(** The entries scanned are those whose hour has begun. *)
Lemma now_hour_le now h : 0 <= now → is_i64 now → h <= now_hour now ↔ h * Hour <= now.
Proof.
  intros Hn Hi. rewrite now_hour_div by done. rewrite Z.mul_comm. split.
  - intros Hh. etransitivity; [apply Z.mul_le_mono_nonneg_l; [done|exact Hh]|]. by apply Z.mul_div_le.
  - intros Hh. by apply Z.div_le_lower_bound.
Qed.

Lemma scan_due now w w1 l :
  0 <= now → is_i64 now → db_ok (view (db w)) →
  on_db (ScanExpiredEntries (now_hour now)) w = (w1, Ok l) →
  view (db w1) = view (db w) ∧ fs w1 = fs w ∧
  ∀ e, e ∈ l ↔ is_u64 (ee_Hour e) ∧ ee_Hour e * Hour <= now ∧
               expires (ee_Hour e) (ee_ID e) (view (db w)).
Proof.
  intros Hn Hi Hdb [E F]%on_db_inv. pose proof (now_hour_range now Hn Hi) as Hr.
  apply ScanExpiredEntries_spec in E as [Hv ->]; [|done|done]. split; [done|]. split; [done|].
  intros e. rewrite <- (now_hour_le now) by done. by apply elem_of_expired_scan.
Qed.

(** What a cycle that deletes for due entries only leaves alone. *)
Definition keeps_block (id : BlockID) (w w' : World) : Prop :=
  view (db w') !! BlockKey id = view (db w) !! BlockKey id ∧
  (∀ h, is_u64 h → view (db w') !! ExpiryKey h id = view (db w) !! ExpiryKey h id) ∧
  (∀ q, tier_file id q → files (fs w') !! q = files (fs w) !! q).

Lemma due_steps_keep now l w w' id :
  (∀ e, e ∈ l → is_u64 (ee_Hour e) ∧ ee_Hour e * Hour <= now ∧
                expires (ee_Hour e) (ee_ID e) (view (db w))) →
  not_due now (view (db w)) id → files_apart (view (db w)) id →
  shrink_steps l w w' → keeps_block id w w'.
Proof.
  intros Hl Hnd Hap Hs.
  assert (∀ e, e ∈ l → ee_ID e ≠ id) as Hne.
  { intros e He <-. destruct (Hl e He) as (H1 & H2 & H3). by apply (Hnd (ee_Hour e)). }
  split; [|split].
  - eapply shrink_steps_db; [done|]. intros e He [E|E]; [by apply BlockKey_inj in E; apply (Hne e)|].
    by apply BlockKey_ne_ExpiryKey in E.
  - intros h Hh. eapply shrink_steps_db; [done|]. intros e He [E|E].
    + symmetry in E. by apply BlockKey_ne_ExpiryKey in E.
    + apply ExpiryKey_inj in E as [_ E]; [by apply (Hne e)|done|by apply Hl].
  - intros q Hq. eapply shrink_steps_fs; [done|]. intros e He. destruct (Hl e He) as (Hh & _ & Hex).
    by apply (Hap (ee_Hour e)); [..|apply Hne|].
Qed.

(** *** Blocks that are due *)

(** Point reads of the store do not fail. *)
Definition gets_work : Prop := ∀ k d, ∃ v, (pget k d).2 = Ok v.

(** The block's metadata is there and names a configured tier. *)
Definition has_meta (id : BlockID) (bm : BlockMeta) (m : gmap bytes bytes) : Prop :=
  m !! BlockKey id = Some (encodeBlockMeta bm).

Definition files_gone (id : BlockID) (store : TierStore) (w : World) : Prop :=
  files (fs w) !! BlockPath store id = None ∧ files (fs w) !! BloomPath store id = None.

Context (Hget : gets_work) (id : BlockID) (bm : BlockMeta) (store : TierStore).
Context (Hbm : meta_ok bm) (Hstore : tiers !! bm_Tier bm = Some store).

Lemma get_meta_works w :
  has_meta id bm (view (db w)) → ∃ w1, on_db (GetBlockMeta id) w = (w1, Ok bm).
Proof.
  intros Hm. unfold on_db, GetBlockMeta. pose proof (pget_law (BlockKey id) (db w)) as [_ Hr].
  destruct (Hget (BlockKey id) (db w)) as [v Hv]. destruct (pget _ (db w)) as [d r].
  cbn [fst snd] in *. rewrite Hv in Hr |- *. rewrite Hr, Hm, decode_encodeBlockMeta by done.
  by eexists.
Qed.

Lemma files_gone_stays e w w' : shrunk e w w' → files_gone id store w → files_gone id store w'.
Proof.
  intros S [H1 H2]. split; (destruct (sh_fs _ _ _ S (BlockPath store id)) as [E1|E1],
    (sh_fs _ _ _ S (BloomPath store id)) as [E2|E2]; congruence).
Qed.

Lemma meta_other e w w' :
  shrunk e w w' → ee_ID e ≠ id → view (db w') !! BlockKey id = view (db w) !! BlockKey id.
Proof.
  intros S Hne. destruct (sh_db _ _ _ S) as [->| ->]; [done|].
  apply unsealed_other; [|auto with bbdb]. intros E. by apply BlockKey_inj in E.
Qed.

Lemma meta_absent_stays e w w' :
  shrunk e w w' → view (db w) !! BlockKey id = None → view (db w') !! BlockKey id = None.
Proof.
  intros S Hn. destruct (sh_db _ _ _ S) as [->| ->]; [done|]. unfold unsealed_view.
  rewrite lookup_delete_ne by auto with bbdb.
  destruct (decide (BlockKey (ee_ID e) = BlockKey id)) as [->|]; [apply lookup_delete_eq|].
  by rewrite lookup_delete_ne.
Qed.

(** The entry of the block itself: files first, keys after. *)
Lemma reap_one_self e w w' r :
  ee_ID e = id → has_meta id bm (view (db w)) → reap_one tiers e w = (w', r) →
  (has_meta id bm (view (db w')) ∨ files_gone id store w') ∧
  (∀ b, r = Ok b → files_gone id store w' ∧ view (db w') !! BlockKey id = None).
Proof.
  intros Heq Hm. unfold reap_one. rewrite Heq. destruct (get_meta_works w Hm) as [w1 E1]. rewrite E1.
  apply get_meta_view in E1 as [Hv1 Hf1]. rewrite Hstore. unfold st_bind, st_ret.
  pose proof (Hlaws _ _ Hstore) as Hl.
  destruct (on_fs (Delete store id) w1) as [w2 [[]|err]] eqn:E2; apply on_fs_inv in E2 as [E2 D2].
  - apply (Delete_ok (ts := store)) in E2.
    assert (files_gone id store w2) as Hg.
    { unfold files_gone. rewrite E2. split; [|apply lookup_delete_eq].
      destruct (decide (BloomPath store id = BlockPath store id)) as [->|];
        [apply lookup_delete_eq|]. rewrite lookup_delete_ne by done. apply lookup_delete_eq. }
    destruct (on_db _ w2) as [w3 [[]|err]] eqn:E3; apply on_db_inv in E3 as [E3 F3];
      intros [= <- <-]; unfold files_gone; rewrite F3; (split; [by right|]); [|done].
    intros b _. split; [done|]. apply DeleteBlockAndExpiry_ok in E3. rewrite E3.
    unfold unsealed_view. rewrite lookup_delete_ne by auto with bbdb. apply lookup_delete_eq.
  - intros [= <- <-]. split; [|done]. left. unfold has_meta. by rewrite D2, Hv1.
Qed.

Lemma reap_order ctx l w w' r :
  reap tiers ctx l w = (w', r) → has_meta id bm (view (db w)) ∨ files_gone id store w →
  has_meta id bm (view (db w')) ∨ files_gone id store w'.
Proof.
  revert ctx w. induction l as [|e l IH]; intros ctx w; cbn [reap]; [by intros [= <- _]|].
  destruct (ctx_next ctx) as [[] ctx1]; [by intros [= <- _]|]. unfold st_bind. intros E Hw.
  destruct (reap_one tiers e w) as [w1 r1] eqn:E1. pose proof (reap_one_shrunk _ _ _ _ E1) as S1.
  assert (has_meta id bm (view (db w1)) ∨ files_gone id store w1) as Hw1.
  { destruct Hw as [Hm|Hg]; [|right; by eapply files_gone_stays].
    destruct (decide (ee_ID e = id)) as [Heq|Hne]; [by eapply reap_one_self in E1 as [? _]|].
    left. unfold has_meta. by rewrite (meta_other e w w1). }
  destruct r1 as [b|err]; [|by injection E as <- _].
  destruct b; [|by eapply IH]. destruct (ctx_next ctx1) as [[] ctx2]; [by injection E as <- _|by eapply IH].
Qed.

Definition block_gone (w : World) : Prop :=
  files_gone id store w ∧ view (db w) !! BlockKey id = None.

Lemma reap_complete ctx l w w' u :
  Forall (eq false) ctx → reap tiers ctx l w = (w', Ok u) →
  has_meta id bm (view (db w)) ∨ block_gone w →
  (has_meta id bm (view (db w')) ∨ block_gone w') ∧
  ((∃ e, e ∈ l ∧ ee_ID e = id) ∨ block_gone w → block_gone w').
Proof.
  revert ctx w. induction l as [|e l IH]; intros ctx w Hctx; cbn [reap].
  { intros [= <- _] Hw. split; [done|]. intros [(e & He & _)|?]; [by apply not_elem_of_nil in He|done]. }
  assert (∀ c, Forall (eq false) c → (ctx_next c).1 = false ∧ Forall (eq false) (ctx_next c).2) as Hnext.
  { intros [|c r]; [done|]. intros [<- ?]%Forall_cons. done. }
  destruct (Hnext ctx Hctx) as [Hc1 Hctx1]. destruct (ctx_next ctx) as [c1 ctx1].
  cbn [fst snd] in *. subst c1. intros (w1 & b & E1 & E)%st_bind_ok Hw.
  pose proof (reap_one_shrunk _ _ _ _ E1) as S1.
  assert ((has_meta id bm (view (db w1)) ∨ block_gone w1) ∧
          (ee_ID e = id ∨ block_gone w → block_gone w1)) as [Hw1 Hgone].
  { assert (block_gone w → block_gone w1) as Hstay.
    { intros [H1 H2]. split; [by eapply files_gone_stays|by eapply meta_absent_stays]. }
    destruct Hw as [Hm|Hg]; [|split; [right|]; auto].
    destruct (decide (ee_ID e = id)) as [Heq|Hne].
    - eapply reap_one_self in E1 as [_ Hd]; [|done|done].
      assert (block_gone w1) by (by apply (Hd b)). auto.
    - split; [left; unfold has_meta; by rewrite (meta_other e w w1)|]. intros [?|?]; [done|auto]. }
  assert (∃ ctx2, Forall (eq false) ctx2 ∧ reap tiers ctx2 l w1 = (w', Ok u)) as (ctx2 & Hctx2 & E2).
  { destruct b; [|by exists ctx1]. destruct (Hnext ctx1 Hctx1) as [Hc2 Hctx2].
    destruct (ctx_next ctx1) as [c2 ctx2]. cbn [fst snd] in *. subst c2. by exists ctx2. }
  destruct (IH ctx2 w1 Hctx2 E2 Hw1) as [Hw2 Hl]. split; [done|].
  intros [(x & Hx & Hid)|Hg]; [|auto]. apply elem_of_cons in Hx as [->|Hx]; [auto|].
  apply Hl. left. by exists x.
Qed.

(** The janitor and a block whose file is there. *)
Lemma sweep_one_present e w w' r c :
  has_meta id bm (view (db w)) → files (fs w) !! BlockPath store id = Some c →
  sweep_one tiers e w = (w', r) → has_meta id bm (view (db w')).
Proof.
  intros Hm Hc E. destruct (decide (ee_ID e = id)) as [Heq|Hne].
  - unfold sweep_one in E. rewrite Heq in E. destruct (get_meta_works w Hm) as [w1 E1]. rewrite E1 in E.
    apply get_meta_view in E1 as [Hv1 Hf1]. rewrite Hstore in E. unfold st_bind in E.
    pose proof (Hlaws _ _ Hstore) as Hl.
    destruct (on_fs (Exists store id) w1) as [w2 [b|err]] eqn:E2; apply on_fs_inv in E2 as [E2 D2];
      apply (Exists_spec (ts := store)) in E2 as (_ & _ & Hfalse).
    + destruct b; [injection E as <- _; unfold has_meta; by rewrite D2, Hv1|].
      rewrite Hf1, Hc in Hfalse. by specialize (Hfalse eq_refl).
    + injection E as <- _. unfold has_meta. by rewrite D2, Hv1.
  - apply sweep_one_shrunk in E as [S _]. unfold has_meta. by rewrite (meta_other e w w').
Qed.

Lemma sweep_present ctx l w w' r c :
  has_meta id bm (view (db w)) → files (fs w) !! BlockPath store id = Some c →
  sweep tiers ctx l w = (w', r) → has_meta id bm (view (db w')).
Proof.
  revert ctx w. induction l as [|e l IH]; intros ctx w Hm Hc; cbn [sweep]; [by intros [= <- _]|].
  destruct (ctx_next ctx) as [[] ctx1]; [by intros [= <- _]|]. unfold st_bind. intros E.
  destruct (sweep_one tiers e w) as [w1 r1] eqn:E1.
  pose proof (sweep_one_present _ _ _ _ _ Hm Hc E1) as Hm1.
  apply sweep_one_shrunk in E1 as [_ F1]. destruct r1 as [[]|err]; [|by injection E as <- _].
  eapply IH; [done|by rewrite F1|exact E].
Qed.
End props.

(** ** The reaper *)
Section claims.
Context `{Pebble}.

(** A reaper cycle harms nothing that is not due, whichever operations
    fail and wherever it is canceled: every write-ahead log is as before, and
    a block none of whose expiry hours has begun keeps its
    metadata, its expiry entries and its files in every tier. *)
Theorem Reaper_spares_undue cfg ctx now w w' r id :
  (∀ t store, rc_Tiers cfg !! t = Some store → TierLaws store) →
  0 <= now → is_i64 now → wal_ok (view (db w)) →
  not_due now (view (db w)) id → files_apart (rc_Tiers cfg) (view (db w)) id →
  Reaper_RunOnce cfg ctx now w = (w', r) →
  keeps_block (rc_Tiers cfg) id w w' ∧ wal_ok (view (db w')) ∧
  ∀ s, is_u16 s → wal_log s (view (db w')) = wal_log s (view (db w)).
Proof.
  intros Hlaws Hn Hi Hw Hnd Hap E. pose proof Hw as [Hdb _]. unfold Reaper_RunOnce, st_bind in E.
  destruct (on_db (ScanExpiredEntries (now_hour now)) w) as [w1 [l|e]] eqn:E1.
  - apply scan_due in E1 as (Hv & Hf & Hl); [|done|done|done].
    assert (keeps_block (rc_Tiers cfg) id w1 w') as (K1 & K2 & K3).
    { eapply due_steps_keep; [..|by eapply reap_steps]; rewrite Hv; try done. intros e. apply Hl. }
    rewrite Hv in K1, K2. rewrite Hf in K3. split; [by split|].
    apply reap_steps in E as Hs; [|done].
    assert (wal_ok (view (db w'))) as Hw' by (eapply shrink_steps_ok; [done|by rewrite Hv]).
    split; [done|]. intros s Hs16. rewrite <- Hv. pose proof Hw' as [Hdb' _].
    apply wal_log_ext; [done|by rewrite Hv|done|]. intros q Hq. eapply shrink_steps_db; [done|].
    intros e _ [Ek|Ek]; [by apply WALKey_ne_BlockKey in Ek|by apply WALKey_ne_ExpiryKey in Ek].
  - apply on_db_inv in E1 as [E1 F1]. apply ScanExpiredEntries_view in E1. injection E as <- _.
    unfold keeps_block. rewrite E1, F1. done.
Qed.


(** The janitor deletes no file, and when point reads of the store work it
    never removes the metadata of a block whose file is present. *)
Theorem Janitor_spares_present cfg ctx now w w' r id bm store c :
  (∀ t st, jc_Tiers cfg !! t = Some st → TierLaws st) → gets_work →
  meta_ok bm → has_meta id bm (view (db w)) → jc_Tiers cfg !! bm_Tier bm = Some store →
  files (fs w) !! BlockPath store id = Some c →
  Janitor_RunOnce cfg ctx now w = (w', r) →
  files (fs w') = files (fs w) ∧ has_meta id bm (view (db w')).
Proof.
  intros Hlaws Hget Hbm Hm Hst Hc E. unfold Janitor_RunOnce, st_bind in E.
  destruct (on_db (ScanExpiredEntries (now_hour now)) w) as [w1 [l|e]] eqn:E1;
    apply on_db_inv in E1 as [E1 F1]; apply ScanExpiredEntries_view in E1.
  - rewrite <- F1. rewrite <- F1 in Hc. unfold has_meta in Hm. rewrite <- E1 in Hm.
    split; [by eapply sweep_steps|]. eapply sweep_present; eauto.
  - injection E as <- _. rewrite F1. split; [done|]. unfold has_meta. by rewrite E1.
Qed.
End claims.

(** ** Instances *)
Definition ttl_tiers : gmap Tier TierStore := {[TierHot := local_tier hot_store]}.
Definition reaper_cfg : ReaperConfig := NewReaper (mkReaperConfig 0 0 ttl_tiers).
Definition janitor_cfg : JanitorConfig := NewJanitor (mkJanitorConfig 0 ttl_tiers).
Definition other_id : BlockID := BlockIDForShard 264 (3 * Hour).

Lemma ttl_laws t store : ttl_tiers !! t = Some store → TierLaws store.
Proof. unfold ttl_tiers. intros [_ <-]%lookup_singleton_Some. apply LocalTierLaws. Qed.

(** One block, with metadata, due at hour 100; its two files are on disk. *)
Definition due_view : gmap bytes bytes :=
  <[BlockKey other_id := encodeBlockMeta sample_meta]> (<[ExpiryKey 100 other_id := []]> ∅).
Definition due_files : gmap bytes bytes :=
  <[LocalBlockPath hot_store other_id := [1]]> (<[LocalBloomPath hot_store other_id := [2]]> ∅).
Definition due_world (faults : list bool) : World :=
  mkWorld RefOps (mkRef due_view faults) (mkFS due_files []).

Lemma due_view_expires h id : is_u64 h → expires h id due_view → id = other_id ∧ h = 100.
Proof.
  intros Hh [v Hv]. unfold due_view in Hv.
  apply lookup_insert_Some in Hv as [[E _]|[_ Hv]]; [by apply BlockKey_ne_ExpiryKey in E|].
  apply lookup_insert_Some in Hv as [[E _]|[_ Hv]]; [|by rewrite lookup_empty in Hv].
  apply ExpiryKey_inj in E as [E1 E2]; [auto|by vm_compute|done].
Qed.

Lemma due_view_ok : wal_ok due_view.
Proof.
  eapply wal_ok_other; [exact wal_ok_empty| | |].
  - unfold due_view. apply db_ok_insert; [|apply wf_blk].
    apply db_ok_insert; [apply db_ok_empty|by apply wf_exp].
  - intros s q v _ _. unfold due_view. by rewrite !lookup_insert_ne by auto with bbdb.
  - intros s. unfold due_view. by rewrite !lookup_insert_ne by auto with bbdb.
Qed.

Lemma other_files_apart : files_apart ttl_tiers due_view sample_id.
Proof.
  unfold files_apart, tier_file, ttl_tiers. intros h id' q Hh Hex Hne (t & store & [_ <-]%lookup_singleton_Some & Hq)
    (t' & store' & [_ <-]%lookup_singleton_Some & Hq').
  apply due_view_expires in Hex as [-> _]; [|done].
  assert (block_id_ok other_id) as Hok.
  { exists 264, (3 * Hour). split; [unfold is_u16; lia|]. split; [by vm_compute|done]. }
  pose proof sample_id_ok as Hok'.
  destruct Hq as [-> | ->], Hq' as [E|E]; apply Hne.
  - by apply (block_path_inj (ts := local_tier hot_store)).
  - by apply (block_bloom_path (ts := local_tier hot_store)) in E.
  - symmetry in E. by apply (block_bloom_path (ts := local_tier hot_store)) in E.
  - by apply (bloom_path_inj (ts := local_tier hot_store)).
Qed.

Lemma Reaper_spares_undue_witness :
  keeps_block ttl_tiers sample_id (due_world [])
    (Reaper_RunOnce reaper_cfg [] (200 * Hour) (due_world [])).1.
Proof.
  apply (Reaper_spares_undue reaper_cfg [] (200 * Hour) (due_world []) _
           (Reaper_RunOnce reaper_cfg [] (200 * Hour) (due_world [])).2).
  - apply ttl_laws.
  - by vm_compute.
  - by vm_compute.
  - exact due_view_ok.
  - intros h Hh _ [E _]%due_view_expires; [|done]. by vm_compute in E.
  - exact other_files_apart.
  - apply surjective_pairing.
Defined.

(** A store whose operations never fail. *)
Definition pure_world : @World PureOps := mkWorld PureOps due_view (mkFS due_files []).

Lemma pure_gets : @gets_work PureOps.
Proof. intros k d. by eexists. Qed.


Lemma Janitor_spares_present_witness :
  has_meta other_id sample_meta
    (@view PureOps PurePebble (db (Janitor_RunOnce janitor_cfg [] (200 * Hour) pure_world).1)).
Proof.
  apply (Janitor_spares_present (H0 := PurePebble) janitor_cfg [] (200 * Hour) pure_world
           (Janitor_RunOnce janitor_cfg [] (200 * Hour) pure_world).1
           (Janitor_RunOnce janitor_cfg [] (200 * Hour) pure_world).2 other_id sample_meta
           (local_tier hot_store) [1]).
  - apply ttl_laws.
  - exact pure_gets.
  - by vm_compute.
  - apply lookup_insert_eq.
  - apply lookup_singleton_eq.
  - apply lookup_insert_eq.
  - apply surjective_pairing.
Defined.

(** The reaper takes any error of reading a block's metadata for "already
    gone": when that one read fails, the cycle returns no error, the block's
    metadata and expiry entry are deleted, and its files stay on disk with
    nothing left that refers to them. *)
Theorem Reaper_read_error_leaks_files :
  (Reaper_RunOnce reaper_cfg [] (200 * Hour) (due_world [false; true])).2 = Ok tt ∧
  (let w' := (Reaper_RunOnce reaper_cfg [] (200 * Hour) (due_world [false; true])).1 in
   view (db w') !! BlockKey other_id = None ∧ view (db w') !! ExpiryKey 100 other_id = None ∧
   files (fs w') !! LocalBlockPath hot_store other_id = Some [1]).
Proof. cbv zeta. split; [|split; [|split]]; vm_compute; reflexivity. Qed.
