(* ===== verification/TtlRun.v ===== *)
(** * The background loops: [Run] of [internal/ttl/reaper.go] and [internal/ttl/janitor.go]

    Each loop runs one cycle at once and one at every tick until the context is
    canceled; errors of a cycle are only logged.  The two loops share store and
    disk: their cycles interleave.  A cycle is given by the outcomes of its
    context checks and its reading of the clock. *)
From S2P Require Import Prelude GoTime GoOs Pebble PebbleRef Keys Wal BlockMetaDB Expiry Event Tier World Ttl.
#[local] Open Scope Z_scope.

Record cycle := mkCycle { cy_ctx : list bool; cy_now : time }.

Section loops.
Context `{PebbleOps}.

(** The cycles at the ticks until [ctx.Done()]. *)
Fixpoint reaper_ticks (cfg : ReaperConfig) (ticks : list cycle) (w : World) : World :=
  match ticks with
  | [] => w
  | c :: r => reaper_ticks cfg r (st_exec (Reaper_RunOnce cfg (cy_ctx c) (cy_now c)) w)
  end.

Definition Reaper_Run (cfg : ReaperConfig) (first : cycle) (ticks : list cycle) (w : World) : World :=
  reaper_ticks cfg ticks (st_exec (Reaper_RunOnce cfg (cy_ctx first) (cy_now first)) w).

Fixpoint janitor_ticks (cfg : JanitorConfig) (ticks : list cycle) (w : World) : World :=
  match ticks with
  | [] => w
  | c :: r => janitor_ticks cfg r (st_exec (Janitor_RunOnce cfg (cy_ctx c) (cy_now c)) w)
  end.

Definition Janitor_Run (cfg : JanitorConfig) (first : cycle) (ticks : list cycle) (w : World) : World :=
  janitor_ticks cfg ticks (st_exec (Janitor_RunOnce cfg (cy_ctx first) (cy_now first)) w).

(** Both loops at work: cycles of either, in any order. *)
Inductive upkeep := Reap (c : cycle) | Sweep (c : cycle).

Definition upkeep_cycle (u : upkeep) : cycle := match u with Reap c | Sweep c => c end.

Definition upkeep_step (rcfg : ReaperConfig) (jcfg : JanitorConfig) (w : World) (u : upkeep) : World :=
  match u with
  | Reap c => st_exec (Reaper_RunOnce rcfg (cy_ctx c) (cy_now c)) w
  | Sweep c => st_exec (Janitor_RunOnce jcfg (cy_ctx c) (cy_now c)) w
  end.

Definition run_upkeep (rcfg : ReaperConfig) (jcfg : JanitorConfig) (us : list upkeep) (w : World) : World :=
  fold_left (upkeep_step rcfg jcfg) us w.

Lemma Reaper_Run_upkeep rcfg jcfg first ticks w :
  Reaper_Run rcfg first ticks w = run_upkeep rcfg jcfg (map Reap (first :: ticks)) w.
Proof.
  unfold Reaper_Run, run_upkeep. cbn [map fold_left upkeep_step]. generalize (st_exec (Reaper_RunOnce rcfg (cy_ctx first) (cy_now first)) w).
  induction ticks as [|c ticks IH]; intros w'; cbn [reaper_ticks map fold_left upkeep_step]; [done|apply IH].
Qed.

Lemma Janitor_Run_upkeep rcfg jcfg first ticks w :
  Janitor_Run jcfg first ticks w = run_upkeep rcfg jcfg (map Sweep (first :: ticks)) w.
Proof.
  unfold Janitor_Run, run_upkeep. cbn [map fold_left upkeep_step]. generalize (st_exec (Janitor_RunOnce jcfg (cy_ctx first) (cy_now first)) w).
  induction ticks as [|c ticks IH]; intros w'; cbn [janitor_ticks map fold_left upkeep_step]; [done|apply IH].
Qed.
End loops.

Section props.
Context `{Pebble}.
Context (rcfg : ReaperConfig) (jcfg : JanitorConfig) (tiers : gmap Tier TierStore).
Context (Hr : rc_Tiers rcfg = tiers) (Hj : jc_Tiers jcfg = tiers).
Context (Hlaws : ∀ t store, tiers !! t = Some store → TierLaws store).

(** A change that only removes keys of due blocks and files. *)
Lemma shrink_steps_sub l w w' k :
  shrink_steps tiers l w w' → view (db w') !! k = None ∨ view (db w') !! k = view (db w) !! k.
Proof.
  intros Hs. induction Hs as [w|w1 w2 w3 (e & _ & S) _ IH]; [by right|].
  destruct IH as [->|E]; [by left|]. rewrite E. destruct (sh_db _ _ _ _ S) as [->| ->]; [by right|].
  unfold unsealed_view. destruct (decide (ExpiryKey (ee_Hour e) (ee_ID e) = k)) as [->|];
    [left; apply lookup_delete_eq|]. rewrite lookup_delete_ne by done.
  destruct (decide (BlockKey (ee_ID e) = k)) as [->|]; [left; apply lookup_delete_eq|].
  right. by rewrite lookup_delete_ne.
Qed.

(** A cycle of either loop is such a change, for entries due at its time. *)
Lemma upkeep_shrinks u w :
  0 <= cy_now (upkeep_cycle u) → is_i64 (cy_now (upkeep_cycle u)) → db_ok (view (db w)) →
  let w' := upkeep_step rcfg jcfg w u in
  ∃ w1 l, view (db w1) = view (db w) ∧ fs w1 = fs w ∧ shrink_steps tiers l w1 w' ∧
    ∀ e, e ∈ l → is_u64 (ee_Hour e) ∧ ee_Hour e * Hour <= cy_now (upkeep_cycle u) ∧
                 expires (ee_Hour e) (ee_ID e) (view (db w)).
Proof.
  intros Hn Hi Hdb w'. subst w'. set (now := cy_now (upkeep_cycle u)) in *.
  destruct (on_db (ScanExpiredEntries (now_hour now)) w) as [w1 r1] eqn:E1. exists w1.
  assert (∀ e, r1 = Err e → view (db w1) = view (db w) ∧ fs w1 = fs w) as Herr.
  { intros e ->. apply on_db_inv in E1 as [E1 F1]. by apply ScanExpiredEntries_view in E1. }
  destruct u as [c|c]; cbn [upkeep_cycle upkeep_step] in *; fold now;
    [unfold st_exec, Reaper_RunOnce, st_bind|unfold st_exec, Janitor_RunOnce, st_bind]; rewrite E1;
    (destruct r1 as [l|e]; [|destruct (Herr e eq_refl) as [Hv Hf]; exists []; do 2 (split; [done|]);
       split; [apply rtc_refl|by intros e' ?%not_elem_of_nil]]);
    apply scan_due in E1 as (Hv & Hf & Hl); try done; exists l; do 2 (split; [done|]);
    (split; [|intros e; apply Hl]).
  - rewrite Hr. destruct (reap tiers (cy_ctx c) l w1) as [w2 r2] eqn:E2. by eapply reap_steps.
  - rewrite Hj. destruct (sweep tiers (cy_ctx c) l w1) as [w2 r2] eqn:E2. by eapply sweep_steps.
Qed.

(** One cycle leaves the logs and every block that is not due alone, and adds
    no key. *)
Lemma upkeep_spares u w id :
  0 <= cy_now (upkeep_cycle u) → is_i64 (cy_now (upkeep_cycle u)) → wal_ok (view (db w)) →
  not_due (cy_now (upkeep_cycle u)) (view (db w)) id → files_apart tiers (view (db w)) id →
  let w' := upkeep_step rcfg jcfg w u in
  keeps_block tiers id w w' ∧ wal_ok (view (db w')) ∧
  (∀ s, is_u16 s → wal_log s (view (db w')) = wal_log s (view (db w))) ∧
  ∀ k, view (db w') !! k = None ∨ view (db w') !! k = view (db w) !! k.
Proof.
  intros Hn Hi Hw Hnd Hap w'. pose proof Hw as [Hdb _].
  destruct (upkeep_shrinks u w Hn Hi Hdb) as (w1 & l & Hv & Hf & Hs & Hl). fold w' in Hs.
  assert (keeps_block tiers id w1 w') as (K1 & K2 & K3).
  { eapply due_steps_keep; [..|exact Hs]; rewrite Hv; eauto. }
  rewrite Hv in K1, K2. rewrite Hf in K3.
  assert (wal_ok (view (db w'))) as Hw' by (eapply shrink_steps_ok; [exact Hs|by rewrite Hv]).
  split; [by split|]. split; [done|]. split.
  - intros s Hs16. rewrite <- Hv. pose proof Hw' as [Hdb' _].
    apply wal_log_ext; [done|by rewrite Hv|done|]. intros q Hq. eapply shrink_steps_db; [done|].
    intros e _ [Ek|Ek]; [by apply WALKey_ne_BlockKey in Ek|by apply WALKey_ne_ExpiryKey in Ek].
  - intros k. rewrite <- Hv. by eapply shrink_steps_sub.
Qed.

Lemma keeps_block_trans id w1 w2 w3 :
  keeps_block tiers id w1 w2 → keeps_block tiers id w2 w3 → keeps_block tiers id w1 w3.
Proof.
  intros (A1 & B1 & C1) (A2 & B2 & C2). split; [congruence|]. split.
  - intros h Hh. by rewrite B2, B1.
  - intros q Hq. by rewrite C2, C1.
Qed.

(** C15: However long reaper and janitor run, in whatever interleaving of their
    cycles, with whatever failures and cancellations: a block none of whose
    expiry hours has begun at the latest cycle keeps its metadata, its expiry
    entries and its files in every tier; every write-ahead log stays as it is;
    and no key is ever added.  Either loop alone is such an interleaving. *)
Theorem upkeep_spares_undue us latest w id :
  Forall (fun u => 0 <= cy_now (upkeep_cycle u) <= latest) us → is_i64 latest → wal_ok (view (db w)) →
  not_due latest (view (db w)) id → files_apart tiers (view (db w)) id →
  let w' := run_upkeep rcfg jcfg us w in
  keeps_block tiers id w w' ∧ wal_ok (view (db w')) ∧
  (∀ s, is_u16 s → wal_log s (view (db w')) = wal_log s (view (db w))) ∧
  (∀ k, view (db w') !! k = None ∨ view (db w') !! k = view (db w) !! k) ∧
  ∀ first ticks, Reaper_Run rcfg first ticks w = run_upkeep rcfg jcfg (map Reap (first :: ticks)) w ∧
                 Janitor_Run jcfg first ticks w = run_upkeep rcfg jcfg (map Sweep (first :: ticks)) w.
Proof.
  intros Hus Hl Hw Hnd Hap.
  assert (∀ first ticks, Reaper_Run rcfg first ticks w = run_upkeep rcfg jcfg (map Reap (first :: ticks)) w ∧
            Janitor_Run jcfg first ticks w = run_upkeep rcfg jcfg (map Sweep (first :: ticks)) w) as Hloops
    by (intros first ticks; split; [apply Reaper_Run_upkeep|apply Janitor_Run_upkeep]).
  cut (let w' := run_upkeep rcfg jcfg us w in
       keeps_block tiers id w w' ∧ wal_ok (view (db w')) ∧
       (∀ s, is_u16 s → wal_log s (view (db w')) = wal_log s (view (db w))) ∧
       ∀ k, view (db w') !! k = None ∨ view (db w') !! k = view (db w) !! k).
  { cbv zeta. tauto. }
  clear Hloops. revert w Hw Hnd Hap. induction Hus as [|u us [Hn0 Hn] _ IH]; intros w Hw Hnd Hap.
  { cbn. split; [by split|]. split; [done|]. split; [done|]. by right. }
  cbn [run_upkeep fold_left].
  destruct (upkeep_spares u w id) as (K & Hw1 & Hlog & Hsub); try done.
  - unfold is_i64 in *. lia.
  - intros h Hh Hle. apply Hnd; [done|lia].
  - set (w1 := upkeep_step rcfg jcfg w u) in *.
    assert (∀ h id', expires h id' (view (db w1)) → expires h id' (view (db w))) as Hex.
    { intros h id' [v Hv]. destruct (Hsub (ExpiryKey h id')) as [E|E]; [congruence|].
      exists v. by rewrite <- E. }
    destruct (IH w1) as (K2 & Hw2 & Hlog2 & Hsub2).
    + done.
    + intros h Hh Hle He. by apply (Hnd h Hh Hle), Hex.
    + intros h id' q Hh He. by apply (Hap h id' q Hh), Hex.
    + split; [by eapply keeps_block_trans|]. split; [done|]. split; [intros s Hs; by rewrite Hlog2, Hlog|].
      intros k. destruct (Hsub2 k) as [E|E]; [by left|]. unfold run_upkeep in E. rewrite E. apply Hsub.
Qed.
End props.

(** A reaper cycle, two sweeps and another cycle around the due block. *)
Lemma upkeep_spares_undue_witness :
  keeps_block ttl_tiers sample_id (due_world [true])
    (run_upkeep reaper_cfg janitor_cfg
       [Reap (mkCycle [] (199 * Hour)); Sweep (mkCycle [true] (199 * Hour)); Sweep (mkCycle [] (200 * Hour));
        Reap (mkCycle [false; true] (200 * Hour))] (due_world [true])).
Proof.
  apply (upkeep_spares_undue reaper_cfg janitor_cfg ttl_tiers eq_refl eq_refl ttl_laws _ (200 * Hour)).
  - repeat (apply Forall_cons; split; [by vm_compute|]). apply Forall_nil_2.
  - by vm_compute.
  - exact due_view_ok.
  - intros h Hh _ [E _]%due_view_expires; [|done]. by vm_compute in E.
  - exact other_files_apart.
Defined.
