(* ===== verification/Reap.v ===== *)
(** * Expiry of the abstract database: reaper and janitor over blocks

    [Query] relates store and disk to a finite map of blocks and shows that a
    seal inserts into it and a query selects from it.  Here the third
    operation: on a store and a disk that work, a cycle of the reaper deletes
    from the map the blocks that are due, as many of them as it gets to before
    it is canceled, and a cycle of the janitor leaves the map as it is. *)
From S2P Require Import Prelude GoTime GoOs Pebble PebbleRef Keys Wal BlockMetaDB IdxDB Expiry Event Memtable.
From S2P Require Import Bloom Format Tier World Sealer BlockReader Heap Merger Index BloomCache Query Ttl.
#[local] Open Scope Z_scope.

(** ** The effect of a list of entries *)
Definition reap_blocks {B} (es : list ExpiredEntry) (blocks : gmap BlockID B) : gmap BlockID B :=
  fold_left (fun b e => delete (ee_ID e) b) es blocks.

Definition reap_view (es : list ExpiredEntry) (m : gmap bytes bytes) : gmap bytes bytes :=
  fold_left (fun m e => unsealed_view (ee_Hour e) (ee_ID e) m) es m.

Lemma reap_blocks_lookup {B} (es : list ExpiredEntry) (blocks : gmap BlockID B) id :
  reap_blocks es blocks !! id = if decide (id ∈ map ee_ID es) then None else blocks !! id.
Proof.
  unfold reap_blocks. revert blocks. induction es as [|e es IH]; intros blocks; cbn [fold_left map].
  { by rewrite decide_False by apply not_elem_of_nil. }
  rewrite IH. destruct (decide (id ∈ map ee_ID es)) as [Hin|Hin].
  - by rewrite decide_True by by right.
  - destruct (decide (ee_ID e = id)) as [<-|Hne].
    + rewrite lookup_delete_eq. by rewrite decide_True by left.
    + rewrite lookup_delete_ne by done. rewrite decide_False; [done|].
      rewrite elem_of_cons. intros [?|?]; [by destruct Hne|done].
Qed.

Lemma reap_view_other (es : list ExpiredEntry) m k : (∀ e, e ∈ es → ¬ entry_key e k) → reap_view es m !! k = m !! k.
Proof.
  unfold reap_view. revert m. induction es as [|e es IH]; intros m Hk; cbn [fold_left]; [done|].
  rewrite IH by (intros x Hx; apply Hk; by right).
  assert (¬ entry_key e k) as Hne by (apply Hk; left).
  apply unsealed_other; intros ->; apply Hne; [by left|by right].
Qed.

Lemma delete_lookup_Some {B} (id : BlockID) (blocks : gmap BlockID B) (id' : BlockID) b :
  delete id blocks !! id' = Some b → blocks !! id' = Some b.
Proof. by intros [_ ?]%lookup_delete_Some. Qed.

(** A context that is never canceled stays so. *)
Lemma ctx_next_calm ctx c ctx' :
  ctx_next ctx = (c, ctx') → Forall (eq false) ctx → c = false ∧ Forall (eq false) ctx'.
Proof. destruct ctx as [|c0 ctx0]; intros [= <- <-]; [done|]. by intros [<- ?]%Forall_cons. Qed.

Section reap.
Context `{Pebble} `{SliceSort} `{MapOrder} `{BloomLib} `{Zstd} `{XXHash}.
Context (W : pdb → Prop) (tiers : gmap Tier TierStore) (store : TierStore).

Abbreviation Blocks := (gmap BlockID (Tier * Memtable)).

(** Stores that obey their laws, the hot one first, and no two blocks share a
    file. *)
Record tiers_ok : Prop := {
  tk_reads : reads_work W;
  tk_writes : writes_work W;
  tk_laws t st : tiers !! t = Some st → TierLaws st;
  tk_hot : tiers !! TierHot = Some store;
  tk_apart id id' q : block_id_ok id → block_id_ok id' → id ≠ id' → tier_file tiers id q → ¬ tier_file tiers id' q;
}.

(** Store and disk represent the blocks, and nothing will fail. *)
Record stable (blocks : Blocks) (w : World) : Prop := {
  sb_wal : wal_ok (view (db w));
  sb_W : W (db w);
  sb_disk : sched (fs w) = [];
  sb_co : consistent tiers store blocks (view (db w)) (files (fs w));
  sb_names id t mt : blocks !! id = Some (t, mt) → block_id_ok id;
  sb_index : index_sound store blocks (view (db w)) (files (fs w));
}.

Context (Htk : tiers_ok).

Lemma unsealed_wal_ok h id m : wal_ok m → wal_ok (unsealed_view h id m).
Proof.
  intros Hw. pose proof Hw as [Hdb _]. eapply wal_ok_other; [done|auto with bbdb| |].
  - intros s q v _ _. by rewrite unsealed_other by auto with bbdb.
  - intros s. apply unsealed_other; auto with bbdb.
Qed.

Lemma unsealed_indexed h id m et kh id' : indexed et kh id' (unsealed_view h id m) ↔ indexed et kh id' m.
Proof. unfold indexed. by rewrite unsealed_other by auto with bbdb. Qed.

(** Deleting the files of a block leaves those of the other blocks. *)
Lemma other_files (blocks : Blocks) (f : gmap bytes bytes) id t mt st :
  blocks !! id = Some (t, mt) → tiers !! t = Some st → (∀ i t' mt', blocks !! i = Some (t', mt') → block_id_ok i) →
  ∀ i b q, delete id blocks !! i = Some b → tier_file tiers i q →
    delete (BloomPath st id) (delete (BlockPath st id) f) !! q = f !! q.
Proof.
  intros Hb Ht Hn i [t' mt'] q [Hne Hi]%lookup_delete_Some Hf.
  assert (¬ tier_file tiers id q) as Hnf by (apply (tk_apart Htk i id); [by eapply Hn|by eapply Hn|done|done]).
  rewrite !lookup_delete_ne; [done|..]; intros <-; apply Hnf; exists t, st; auto.
Qed.

(** The files of a block are deleted with its metadata. *)
Lemma consistent_delete blocks m f id t mt st h :
  blocks !! id = Some (t, mt) → tiers !! t = Some st → (∀ i t' mt', blocks !! i = Some (t', mt') → block_id_ok i) →
  consistent tiers store blocks m f →
  consistent tiers store (delete id blocks) (unsealed_view h id m)
    (delete (BloomPath st id) (delete (BlockPath st id) f)).
Proof.
  intros Hb Ht Hn [Cdb Cmeta Cnone Cfile Csort Cbloom Cidx].
  pose proof (other_files blocks f id t mt st Hb Ht Hn) as Hq.
  split.
  - auto with bbdb.
  - intros i t' mt' Hi. pose proof (delete_lookup_Some _ _ _ _ Hi) as Hi'. apply lookup_delete_Some in Hi as [Hne _].
    rewrite unsealed_other; [by eapply Cmeta| |auto with bbdb]. intros E%BlockKey_inj. by destruct Hne.
  - intros i Hi. destruct (decide (id = i)) as [<-|Hne].
    + unfold unsealed_view. rewrite lookup_delete_ne by auto with bbdb. apply lookup_delete_eq.
    + rewrite lookup_delete_ne in Hi by done. rewrite unsealed_other; [by apply Cnone| |auto with bbdb].
      intros E%BlockKey_inj. by destruct Hne.
  - intros i t' mt' Hi. destruct (Cfile i t' mt' (delete_lookup_Some _ _ _ _ Hi)) as (st' & hdr & Ht' & Hok & Hf).
    exists st', hdr. do 2 (split; [done|]). rewrite (Hq i (t', mt')); [done|done|]. exists t', st'. auto.
  - intros i t' mt' Hi. eapply Csort. by eapply delete_lookup_Some.
  - intros i t' mt' Hi. destruct (Cbloom i t' mt' (delete_lookup_Some _ _ _ _ Hi)) as (fpr & data & Hs & Hf).
    exists fpr, data. split; [done|]. rewrite (Hq i (t', mt')); [done|done|].
    exists TierHot, store. split; [apply Htk|auto].
  - intros i t' mt' e Hi He. destruct (Cidx i t' mt' e (delete_lookup_Some _ _ _ _ Hi) He) as (et & Het & Hx).
    exists et. by rewrite unsealed_indexed.
Qed.

(** Without a block only the expiry entry goes. *)
Lemma consistent_unsealed blocks m f id h :
  blocks !! id = None → consistent tiers store blocks m f →
  consistent tiers store blocks (unsealed_view h id m) f.
Proof.
  intros Hb [Cdb Cmeta Cnone Cfile Csort Cbloom Cidx]. split; try done.
  - auto with bbdb.
  - intros i t mt Hi. rewrite unsealed_other; [by eapply Cmeta| |auto with bbdb]. intros E%BlockKey_inj. congruence.
  - intros i Hi. destruct (decide (id = i)) as [<-|Hne].
    + unfold unsealed_view. rewrite lookup_delete_ne by auto with bbdb. apply lookup_delete_eq.
    + rewrite unsealed_other; [by apply Cnone| |auto with bbdb]. intros E%BlockKey_inj. by destruct Hne.
  - intros i t mt e Hi He. destruct (Cidx i t mt e Hi He) as (et & Het & Hx). exists et. by rewrite unsealed_indexed.
Qed.

Lemma drop_keys_works h id w :
  W (db w) → ∃ w', on_db (DeleteBlockAndExpiry h id) w = (w', Ok tt) ∧ W (db w') ∧ fs w' = fs w ∧
    view (db w') = unsealed_view h id (view (db w)).
Proof.
  intros Hw. destruct (works_pwrite_batch W [OpDelete (BlockKey id); OpDelete (ExpiryKey h id)] [] (tk_writes Htk) (db w) Hw)
    as (d & [] & E & Hd). eexists (mkWorld _ d (fs w)). unfold on_db, DeleteBlockAndExpiry. rewrite E.
  do 3 (split; [done|]). cbn [db]. by apply (DeleteBlockAndExpiry_ok h id (db w) d tt).
Qed.

(** Reading a block's metadata, with what is found. *)
Lemma get_meta_stable blocks w id :
  stable blocks w →
  ∃ w' r, on_db (GetBlockMeta id) w = (w', r) ∧ W (db w') ∧ fs w' = fs w ∧ view (db w') = view (db w) ∧
    match blocks !! id with
    | Some (t, mt) => ∃ bm, r = Ok bm ∧ bm_Tier bm = t
    | None => ∃ e, r = Err e
    end.
Proof.
  intros St. destruct (proj1 (tk_reads Htk) (BlockKey id) (db w) (sb_W _ _ St)) as (d & v & E & Hd).
  unfold on_db, GetBlockMeta. rewrite E. pose proof (pget_view _ _ _ _ E) as Hv. apply pget_ok in E as ->.
  pose proof (sb_co _ _ St) as Co. destruct (blocks !! id) as [[t mt]|] eqn:Hb.
  - destruct (co_meta _ _ _ _ _ Co id t mt Hb) as (bm & -> & Hok & Ht). rewrite decode_encodeBlockMeta by done.
    eexists _, _. do 4 (split; [done|]). by exists bm.
  - rewrite (co_none _ _ _ _ _ Co id Hb). eexists _, _. do 4 (split; [done|]). by eexists.
Qed.

Lemma stable_unsealed blocks w w' h id :
  stable blocks w → blocks !! id = None → W (db w') → fs w' = fs w →
  view (db w') = unsealed_view h id (view (db w)) → stable blocks w'.
Proof.
  intros [] Hn Hw Hf Hv. split; rewrite ?Hv, ?Hf; try done.
  - by apply unsealed_wal_ok.
  - by apply consistent_unsealed.
  - intros et kh i Hk. rewrite unsealed_indexed. by apply sb_index0.
Qed.

Lemma delete_none {B} (blocks : gmap BlockID B) (id : BlockID) : blocks !! id = None → delete id blocks = blocks.
Proof. apply delete_id. Qed.

(** One entry of the reaper: its block is gone, with its keys. *)
Lemma reap_one_works blocks w e :
  stable blocks w →
  ∃ w', reap_one tiers e w = (w', Ok (bool_decide (is_Some (blocks !! ee_ID e)))) ∧
    stable (delete (ee_ID e) blocks) w' ∧
    view (db w') = unsealed_view (ee_Hour e) (ee_ID e) (view (db w)) ∧
    ∀ i b q, delete (ee_ID e) blocks !! i = Some b → tier_file tiers i q → files (fs w') !! q = files (fs w) !! q.
Proof.
  intros St. destruct (get_meta_stable blocks w (ee_ID e) St) as (w1 & r & E1 & HW1 & Hf1 & Hv1 & Hr).
  unfold reap_one. rewrite E1. destruct (blocks !! ee_ID e) as [[t mt]|] eqn:Hb.
  - destruct Hr as (bm & -> & Ht). destruct (co_file _ _ _ _ _ (sb_co _ _ St) _ _ _ Hb) as (st & hdr & Hst & _).
    rewrite Ht, Hst. pose proof (tk_laws Htk t st Hst) as Hl.
    assert (sched (fs w1) = []) as Hsch by (rewrite Hf1; apply St).
    destruct (Delete_runs (ts := st) (ee_ID e) (fs w1) Hsch) as (f2 & ED & Hs2).
    unfold st_bind, st_ret, on_fs. rewrite ED.
    destruct (drop_keys_works (ee_Hour e) (ee_ID e) (mkWorld _ (db w1) f2) HW1) as (w3 & E3 & HW3 & Hf3 & Hv3).
    rewrite E3. cbn [db fs] in *. eexists. split; [by rewrite bool_decide_true by by eexists|].
    apply (Delete_ok (ts := st)) in ED. rewrite Hf1 in ED. rewrite Hv1 in Hv3.
    split; [|split; [done|rewrite Hf3, ED; by eapply other_files; [| |apply St]]].
    destruct St. split; rewrite ?Hv3, ?Hf3, ?ED; try done.
    + by apply unsealed_wal_ok.
    + by eapply consistent_delete.
    + intros i t' mt' Hi. eapply sb_names0. by eapply delete_lookup_Some.
    + intros et kh i Hk. rewrite unsealed_indexed. intros Hx. destruct (sb_index0 et kh i Hk Hx) as [Hok Hs].
      split; [done|]. intros Hn data [_ Hd]%lookup_delete_Some. apply lookup_delete_Some in Hd as [_ Hd].
      destruct (decide (ee_ID e = i)) as [<-|Hne]; [|rewrite lookup_delete_ne in Hn by done; by apply (Hs Hn data)].
      destruct (co_bloom _ _ _ _ _ sb_co0 _ _ _ Hb) as (fpr & data' & Hser & Hd'). rewrite Hd in Hd'. injection Hd' as <-.
      apply bf_roundtrip in Hser as (bf & Hbf & _). eauto.
  - destruct Hr as [err ->]. unfold st_exec.
    destruct (drop_keys_works (ee_Hour e) (ee_ID e) w1 HW1) as (w3 & E3 & HW3 & Hf3 & Hv3). rewrite E3. cbn [fst].
    rewrite Hv1 in Hv3. rewrite Hf1 in Hf3. eexists. split; [by rewrite bool_decide_false by by intros []|].
    split; [|split; [done|by rewrite Hf3]].
    rewrite delete_none by done. by eapply stable_unsealed.
Qed.

(** One entry of the janitor: a block that is there stays. *)
Lemma sweep_one_works blocks w e :
  stable blocks w →
  ∃ w', sweep_one tiers e w = (w', Ok tt) ∧ stable blocks w' ∧ files (fs w') = files (fs w) ∧
    (view (db w') = view (db w) ∨
     blocks !! ee_ID e = None ∧ view (db w') = unsealed_view (ee_Hour e) (ee_ID e) (view (db w))).
Proof.
  intros St. destruct (get_meta_stable blocks w (ee_ID e) St) as (w1 & r & E1 & HW1 & Hf1 & Hv1 & Hr).
  unfold sweep_one. rewrite E1. destruct (blocks !! ee_ID e) as [[t mt]|] eqn:Hb.
  - destruct Hr as (bm & -> & Ht). destruct (co_file _ _ _ _ _ (sb_co _ _ St) _ _ _ Hb) as (st & hdr & Hst & _ & Hfile).
    rewrite Ht, Hst. pose proof (tk_laws Htk t st Hst) as Hl.
    assert (sched (fs w1) = []) as Hsch by (rewrite Hf1; apply St).
    destruct (Exists_runs (ts := st) (ee_ID e) (fs w1) Hsch) as (f2 & b & EE & Hs2).
    unfold st_bind, st_ret, on_fs. rewrite EE. apply (Exists_spec (ts := st)) in EE as (Hf2 & _ & Hfalse).
    destruct b.
    + eexists. split; [done|]. cbn [db fs]. rewrite Hf1 in Hf2. split; [|split; [done|by left]].
      destruct St. split; cbn [db fs]; rewrite ?Hv1, ?Hf2; done.
    + specialize (Hfalse eq_refl). rewrite Hf1, Hfile in Hfalse. done.
  - destruct Hr as [err ->]. unfold st_exec.
    destruct (drop_keys_works (ee_Hour e) (ee_ID e) w1 HW1) as (w3 & E3 & HW3 & Hf3 & Hv3). rewrite E3. cbn [fst].
    rewrite Hv1 in Hv3. rewrite Hf1 in Hf3. eexists. split; [done|].
    split; [by eapply stable_unsealed|]. split; [by rewrite Hf3|]. by right.
Qed.

Lemma reap_works ctx l blocks w :
  stable blocks w →
  ∃ w' es, reap tiers ctx l w = (w', Ok tt) ∧ es `prefix_of` l ∧ (Forall (eq false) ctx → es = l) ∧
    stable (reap_blocks es blocks) w' ∧ view (db w') = reap_view es (view (db w)).
Proof.
  revert ctx blocks w. induction l as [|e l IH]; intros ctx blocks w St; cbn [reap].
  { exists w, []. split; [done|]. split; [done|]. split; [done|]. by split. }
  assert (∃ w' es, st_ret (S := World) tt w = (w', Ok tt) ∧ es `prefix_of` e :: l ∧
            stable (reap_blocks es blocks) w' ∧ view (db w') = reap_view es (view (db w))) as Hstop.
  { exists w, []. split; [done|]. split; [apply prefix_nil|]. by split. }
  destruct (ctx_next ctx) as [c1 ctx1] eqn:Ec.
  destruct c1.
  { destruct Hstop as (w' & es & ? & ? & ? & ?). exists w', es. do 2 (split; [done|]). split; [|done].
    intros Hctx. by destruct (ctx_next_calm _ _ _ Ec Hctx). }
  destruct (reap_one_works blocks w e St) as (w1 & E1 & St1 & Hv1 & _). unfold st_bind. rewrite E1.
  generalize (bool_decide (is_Some (blocks !! ee_ID e))) as b. intros b.
  assert (∀ ctx2, (Forall (eq false) ctx → Forall (eq false) ctx2) →
            ∃ w' es, reap tiers ctx2 l w1 = (w', Ok tt) ∧ es `prefix_of` e :: l ∧ (Forall (eq false) ctx → es = e :: l) ∧
              stable (reap_blocks es blocks) w' ∧ view (db w') = reap_view es (view (db w))) as Hgo.
  { intros ctx2 Hc2. destruct (IH ctx2 _ w1 St1) as (w' & es & E & Hp & Hall & St' & Hv').
    exists w', (e :: es). split; [done|]. split; [by apply prefix_cons|].
    split; [intros Hc; f_equal; auto|]. split; [done|]. by rewrite Hv', Hv1. }
  assert (Forall (eq false) ctx → Forall (eq false) ctx1) as Hc1.
  { intros Hc. by eapply ctx_next_calm. }
  destruct b; [|by apply Hgo]. destruct (ctx_next ctx1) as [c2 ctx2] eqn:Ec2.
  assert (Forall (eq false) ctx1 → c2 = false ∧ Forall (eq false) ctx2) as Hc2.
  { by apply ctx_next_calm. }
  destruct c2; [|apply Hgo; intros Hc; by apply Hc2, Hc1].
  exists w1, [e]. split; [done|]. split; [apply prefix_cons, prefix_nil|].
  split; [intros Hc; by destruct (Hc2 (Hc1 Hc))|]. by split.
Qed.

Lemma sweep_works ctx l blocks w :
  stable blocks w →
  ∃ w' es, sweep tiers ctx l w = (w', Ok tt) ∧ (∀ e, e ∈ es → e ∈ l ∧ blocks !! ee_ID e = None) ∧
    stable blocks w' ∧ files (fs w') = files (fs w) ∧ view (db w') = reap_view es (view (db w)).
Proof.
  revert ctx w. induction l as [|e l IH]; intros ctx w St; cbn [sweep].
  { exists w, []. split; [done|]. split; [by intros x ?%not_elem_of_nil|]. by split. }
  destruct (ctx_next ctx) as [[] ctx1].
  { exists w, []. split; [done|]. split; [by intros x ?%not_elem_of_nil|]. by split. }
  destruct (sweep_one_works blocks w e St) as (w1 & E1 & St1 & Hf1 & Hv1). unfold st_bind. rewrite E1.
  destruct (IH ctx1 w1 St1) as (w' & es & E & Hes & St' & Hf' & Hv').
  destruct Hv1 as [Hv1|[Hn Hv1]]; [exists w', es|exists w', (e :: es)];
    (split; [done|]); (split; [|split; [done|split; [congruence|by rewrite Hv', Hv1]]]).
  - intros x [? ?]%Hes. split; [by right|done].
  - intros x [->|[? ?]%Hes]%elem_of_cons; [split; [left|done]|]. split; [by right|done].
Qed.

(** ** Cycles *)
Lemma scan_works now blocks w :
  0 <= now → is_i64 now → stable blocks w →
  ∃ w1 l, on_db (ScanExpiredEntries (now_hour now)) w = (w1, Ok l) ∧ stable blocks w1 ∧
    view (db w1) = view (db w) ∧ files (fs w1) = files (fs w) ∧
    ∀ e, e ∈ l ↔ is_u64 (ee_Hour e) ∧ ee_Hour e * Hour <= now ∧ expires (ee_Hour e) (ee_ID e) (view (db w)).
Proof.
  intros Hn Hi St.
  destruct (proj2 (tk_reads Htk) prefixExpiry (ExpiryKeyUpperBound (now_hour now)) (db w) (sb_W _ _ St)) as (d & es & E & Hd).
  assert (on_db (ScanExpiredEntries (now_hour now)) w
          = (mkWorld _ d (fs w), Ok (omap expired_of (take_prefixed prefixExpiry es)))) as ES.
  { unfold on_db, ScanExpiredEntries, st_bind, st_ret. by rewrite E. }
  rewrite ES. eexists _, _. split; [done|].
  apply scan_due in ES as (Hv & Hf & Hl); [|done|done|apply (sb_wal _ _ St)]. cbn [db fs] in *.
  split; [|done]. destruct St. split; cbn [db fs]; rewrite ?Hv; done.
Qed.

Lemma Reaper_RunOnce_works cfg ctx now blocks w :
  rc_Tiers cfg = tiers → 0 <= now → is_i64 now → stable blocks w →
  ∃ w' es, Reaper_RunOnce cfg ctx now w = (w', Ok tt) ∧ stable (reap_blocks es blocks) w' ∧
    view (db w') = reap_view es (view (db w)) ∧
    (∀ e, e ∈ es → is_u64 (ee_Hour e) ∧ ee_Hour e * Hour <= now ∧ expires (ee_Hour e) (ee_ID e) (view (db w))) ∧
    (Forall (eq false) ctx → ∀ h id, is_u64 h → h * Hour <= now → expires h id (view (db w)) → mkExpired id h ∈ es).
Proof.
  intros Hc Hn Hi St. destruct (scan_works now blocks w Hn Hi St) as (w1 & l & E1 & St1 & Hv1 & Hf1 & Hl).
  destruct (reap_works ctx l blocks w1 St1) as (w' & es & E & [k Hp] & Hall & St' & Hv').
  exists w', es. unfold Reaper_RunOnce, st_bind. rewrite E1, Hc, E, Hv', Hv1. do 3 (split; [done|]). split.
  - intros e He. apply Hl. rewrite Hp. apply elem_of_app. by left.
  - intros Hctx h id Hh Hle Hx. rewrite (Hall Hctx). by apply Hl.
Qed.

Lemma Janitor_RunOnce_works cfg ctx now blocks w :
  jc_Tiers cfg = tiers → 0 <= now → is_i64 now → stable blocks w →
  ∃ w' es, Janitor_RunOnce cfg ctx now w = (w', Ok tt) ∧ stable blocks w' ∧ files (fs w') = files (fs w) ∧
    view (db w') = reap_view es (view (db w)) ∧ ∀ e, e ∈ es → is_u64 (ee_Hour e) ∧ blocks !! ee_ID e = None.
Proof.
  intros Hc Hn Hi St. destruct (scan_works now blocks w Hn Hi St) as (w1 & l & E1 & St1 & Hv1 & Hf1 & Hl).
  destruct (sweep_works ctx l blocks w1 St1) as (w' & es & E & Hes & St' & Hf' & Hv').
  exists w', es. unfold Janitor_RunOnce, st_bind. rewrite E1, Hc, E, Hv', Hv1. do 2 (split; [done|]).
  split; [congruence|]. split; [done|]. intros e [He Hb]%Hes. split; [by apply Hl|done].
Qed.
End reap.
