(* ===== verification/Writer.v ===== *)
(** * The shard writer: [internal/ingestion/writer.go]

    A writer drains its ring buffer into the write-ahead log and the
    memtable and seals the memtable.  The clock is an argument.  Errors of the
    log and of sealing are only logged, as in the code. *)
From Stdlib Require Import QArith_base.
From S2P Require Import Prelude GoTime GoFmt GoOs Pebble PebbleRef Keys Wal IdxDB Expiry Event Memtable.
From S2P Require Import Bloom Format Tier World Sealer RingBuf BlockReader.
#[local] Open Scope Z_scope.

(** ** [json.Marshal] of an event *)
Definition b64_alphabet : bytes := b!"ABCDEFGHIJKLMNOPQRSTUVWXYZabcdefghijklmnopqrstuvwxyz0123456789+/".
Definition b64_char (i : Z) : Z := nth (Z.to_nat (Z.land i 63)) b64_alphabet 0.

(** Standard base64 with padding. *)
Fixpoint base64 (l : bytes) : bytes :=
  match l with
  | [] => []
  | [a] => [b64_char (Z.shiftr a 2); b64_char (Z.shiftl a 4); 61; 61]
  | [a; b] => [b64_char (Z.shiftr a 2); b64_char (Z.lor (Z.shiftl a 4) (Z.shiftr b 4));
               b64_char (Z.shiftl b 2); 61]
  | a :: b :: c :: r =>
      [b64_char (Z.shiftr a 2); b64_char (Z.lor (Z.shiftl a 4) (Z.shiftr b 4));
       b64_char (Z.lor (Z.shiftl b 2) (Z.shiftr c 6)); b64_char c] ++ base64 r
  end.

Definition quoted (s : bytes) : bytes := [34] ++ s ++ [34].

(** Field order and names of [block.Event]; a payload without bytes is [nil]. *)
Definition json_Marshal (e : Event) : bytes :=
  b!"{" ++ quoted (b!"KeyHash") ++ b!":" ++ itoa (KeyHash e) ++ b!"," ++
  quoted (b!"Timestamp") ++ b!":" ++ itoa (Timestamp e) ++ b!"," ++
  quoted (b!"Payload") ++ b!":" ++
  match Payload e with [] => b!"null" | p => quoted (base64 p) end ++ b!"}".

Example json_example :
  json_Marshal (mkEvent 7 (-5) [104; 105; 33; 10])
  = [123; 34] ++ b!"KeyHash" ++ [34] ++ b!":7," ++ [34] ++ b!"Timestamp" ++ [34] ++ b!":-5," ++
    [34] ++ b!"Payload" ++ [34; 58; 34] ++ b!"aGkhCg==" ++ [34; 125].
Proof. vm_compute. reflexivity. Qed.

(** ** The writer *)
Definition defaultMaxBlockBytes : Z := Z.shiftl 256 20.

(** [Store = nil] disables sealing. *)
Record WriterConfig := mkWriterConfig {
  wc_BatchInterval : duration;
  wc_RingBufSize : Z;
  wc_Store : option TierStore;
  wc_TmpDir : bytes;
  wc_Retention : duration;
  wc_MaxBlockBytes : Z;
  wc_BloomFPR : Q;
  wc_IdxChunkSize : Z;
}.

(** Autoseal off: no store. *)
Definition DefaultWriterConfig : WriterConfig :=
  mkWriterConfig (2 * 1000000) (Z.shiftl 1 14) None [] 0 0 (0 # 1) 0.

Record ShardWriter := mkWriter {
  sw_shard : ShardID;
  sw_cfg : WriterConfig;
  sw_ring : RingBuf;
  sw_memtable : Memtable;
  sw_openedAt : time;
}.

Definition hourBoundary (t : time) : time := Truncate t Hour.

Definition set_MaxBlockBytes (cfg : WriterConfig) (n : Z) : WriterConfig :=
  mkWriterConfig (wc_BatchInterval cfg) (wc_RingBufSize cfg) (wc_Store cfg) (wc_TmpDir cfg)
    (wc_Retention cfg) n (wc_BloomFPR cfg) (wc_IdxChunkSize cfg).

(** The default for a missing size limit. *)
Definition with_limit (cfg : WriterConfig) : WriterConfig :=
  if wc_MaxBlockBytes cfg <=? 0 then set_MaxBlockBytes cfg defaultMaxBlockBytes else cfg.

(** [None] when the ring buffer's size does not terminate. *)
Definition NewShardWriter (shard : ShardID) (cfg : WriterConfig) (now : time) : option ShardWriter :=
  let cfg := with_limit cfg in
  match NewRingBuf (wc_RingBufSize cfg) with
  | Some ring => Some (mkWriter shard cfg ring NewMemtable (hourBoundary now))
  | None => None
  end.

(** [Write] with the goroutine not running: pushes until one fails or spins. *)
Fixpoint sw_Write (canceled : bool) (sw : ShardWriter) (events : list Event)
  : option (ShardWriter * result unit) :=
  match events with
  | [] => Some (sw, Ok tt)
  | e :: r =>
      match Push canceled (sw_ring sw) e with
      | None => None
      | Some (ring, Err err) => Some (sw, Err err)
      | Some (ring, Ok _) =>
          sw_Write canceled (mkWriter (sw_shard sw) (sw_cfg sw) ring (sw_memtable sw) (sw_openedAt sw)) r
      end
  end.

(** The calendar comparison of [flushAndMaybeSeal]. *)
Definition hour_changed (now openedAt : time) : bool :=
  negb (HourOf now =? HourOf openedAt) || negb (Day now =? Day openedAt) ||
  negb (Month now =? Month openedAt) || negb (Year now =? Year openedAt).

Section writer.
Context `{PebbleOps} `{SliceSort} `{MapOrder} `{BloomLib} `{Zstd}.

(** The loop over the drained events. *)
Fixpoint log_events (shard : ShardID) (events : list Event) (mt : Memtable) (w : World)
  : Memtable * World :=
  match events with
  | [] => (mt, w)
  | e :: r =>
      let data := json_Marshal e in
      let w := st_exec (on_db (WALAppend shard data)) w in
      log_events shard r (Append mt e) w
  end.

Definition seal_request (sw : ShardWriter) (store : TierStore) (sealedAt : time) : SealRequest := {|
  sr_Store := store;
  sr_TmpDir := wc_TmpDir (sw_cfg sw);
  sr_Shard := sw_shard sw;
  sr_EventType := u8 (Z.shiftr (sw_shard sw) 8);
  sr_OpenedAt := UnixNano (sw_openedAt sw);
  sr_SealedAt := UnixNano sealedAt;
  sr_Memtable := sw_memtable sw;
  sr_Retention := wc_Retention (sw_cfg sw);
  sr_BloomFPR := wc_BloomFPR (sw_cfg sw);
  sr_IdxChunkSize := wc_IdxChunkSize (sw_cfg sw);
|}.

(** Seals, whatever comes of it, and starts over with an empty table. *)
Definition sealCurrent (sw : ShardWriter) (store : TierStore) (sealedAt : time) (w : World)
  : ShardWriter * World :=
  let w := st_exec (Seal (seal_request sw store sealedAt)) w in
  (mkWriter (sw_shard sw) (sw_cfg sw) (sw_ring sw) NewMemtable (hourBoundary sealedAt), w).

(** [None] only when draining does not end, which a lone consumer rules out. *)
Definition flushAndMaybeSeal (forceSeal : bool) (now : time) (sw : ShardWriter) (w : World)
  : option (ShardWriter * World) :=
  match DrainAll (sw_ring sw) with
  | None => None
  | Some (ring, events) =>
      let '(mt, w) := log_events (sw_shard sw) events (sw_memtable sw) w in
      let sw := mkWriter (sw_shard sw) (sw_cfg sw) ring mt (sw_openedAt sw) in
      match wc_Store (sw_cfg sw) with
      | None => Some (sw, w)
      | Some store =>
          if Len mt =? 0 then Some (sw, w)
          else
            let hourChanged := hour_changed now (sw_openedAt sw) in
            let sizeExceeded := wc_MaxBlockBytes (sw_cfg sw) <=? ApproxBytes mt in
            if forceSeal || hourChanged || sizeExceeded then Some (sealCurrent sw store now w)
            else Some (sw, w)
      end
  end.

(** [Stop]: the goroutine's last flush seals what is there. *)
Definition sw_Stop : time → ShardWriter → World → option (ShardWriter * World) :=
  flushAndMaybeSeal true.
End writer.

(** ** The queue *)

(** A write appends to the queue: everything, or a proper prefix when canceled. *)
Lemma sw_Write_spec canceled sw es sw' r :
  ring_ok (sw_ring sw) → sw_Write canceled sw es = Some (sw', r) →
  sw' = mkWriter (sw_shard sw) (sw_cfg sw) (sw_ring sw') (sw_memtable sw) (sw_openedAt sw) ∧
  ring_ok (sw_ring sw') ∧ length (buf (sw_ring sw')) = length (buf (sw_ring sw)) ∧
  ∃ n, ring_content (sw_ring sw') = ring_content (sw_ring sw) ++ take n es ∧
       (r = Ok tt → take n es = es).
Proof.
  revert sw. induction es as [|e es IH]; intros sw Hok; cbn [sw_Write].
  { intros [= <- <-]. split; [by destruct sw|]. do 2 (split; [done|]). exists 0%nat. by rewrite app_nil_r. }
  destruct Hok as (k & all & p & R). unfold Push. pose proof (push_round_rep _ _ _ _ e R) as HP.
  destruct (push_round (sw_ring sw) e) as [rb'|].
  - intros E. apply IH in E as (Hs & Hok' & Hb & n & Hc & Hall);
      cbn [sw_ring sw_shard sw_cfg sw_memtable sw_openedAt] in *; [|by exists k, (all ++ [e]), p].
    split; [done|]. split; [done|].
    split; [by rewrite Hb, (rep_buf _ _ _ _ HP), (rep_buf _ _ _ _ R)|]. exists (S n). cbn [take].
    rewrite Hc, (ring_content_rep _ _ _ _ HP), (ring_content_rep _ _ _ _ R).
    rewrite drop_app_le by apply R. rewrite <- app_assoc. split; [done|].
    intros Hr. by rewrite Hall.
  - destruct canceled; [|done]. intros [= <- <-]. split; [by destruct sw|].
    split; [by exists k, all, p|]. split; [done|]. exists 0%nat. by rewrite app_nil_r.
Qed.

Lemma sw_Write_room canceled sw es :
  ring_ok (sw_ring sw) →
  (length (ring_content (sw_ring sw)) + length es <= length (buf (sw_ring sw)))%nat →
  ∃ sw', sw_Write canceled sw es = Some (sw', Ok tt).
Proof.
  revert sw. induction es as [|e es IH]; intros sw (k & all & p & R) Hroom; cbn [sw_Write].
  { by exists sw. }
  rewrite (ring_content_rep _ _ _ _ R), (rep_buf _ _ _ _ R), length_drop in Hroom. simpl in Hroom.
  unfold Push. pose proof (push_round_rep _ _ _ _ e R) as HP.
  destruct (push_round (sw_ring sw) e) as [rb'|]; [|lia]. pose proof (rep_le _ _ _ _ R).
  apply IH; cbn [sw_ring]; [by exists k, (all ++ [e]), p|].
  rewrite (ring_content_rep _ _ _ _ HP), (rep_buf _ _ _ _ HP), length_drop, length_app. simpl. lia.
Qed.

(** A new writer has an empty queue with room for the configured size. *)
Lemma NewShardWriter_spec s cfg now :
  wc_RingBufSize cfg <= 2 ^ 62 →
  ∃ ring, NewShardWriter s cfg now
          = Some (mkWriter s (with_limit cfg) ring NewMemtable (hourBoundary now)) ∧
    ring_ok ring ∧ ring_content ring = [] ∧
    Z.max (wc_RingBufSize cfg) 1 <= Z.of_nat (length (buf ring)).
Proof.
  intros Hn. unfold NewShardWriter.
  assert (wc_RingBufSize (with_limit cfg) = wc_RingBufSize cfg) as ->
    by (unfold with_limit; by destruct (_ <=? 0)).
  destruct (NewRingBuf (wc_RingBufSize cfg)) as [ring|] eqn:E.
  - exists ring. destruct (rep_new _ _ Hn E) as (k & R & Hk). split; [done|].
    split; [by exists k, [], 0%nat|]. split; [by rewrite (ring_content_rep _ _ _ _ R)|].
    by rewrite (rep_buf _ _ _ _ R), pow2_nat_Z.
  - unfold NewRingBuf in E. destruct (nextPow2_spec _ Hn) as (j & _ & Hj & _). by rewrite Hj in E.
Qed.

(** ** Hours *)
Lemma fields_of_floor t : (days_of t, HourOf t) = (t / Hour / 24 + unix_days, t / Hour mod 24).
Proof.
  unfold days_of, HourOf, DayNs. set (h := Hour).
  assert (0 < h) by (unfold h, Hour, Minute, Second; lia). f_equal.
  - f_equal. rewrite Z.div_div by lia. f_equal; lia.
  - rewrite (Z.mul_comm 24), Z.rem_mul_r by lia.
    replace (t mod h + h * ((t / h) mod 24)) with ((t / h) mod 24 * h + t mod h) by lia.
    pose proof (Z.mod_pos_bound t h). rewrite Z.div_add_l, (Z.div_small (t mod h)) by lia. lia.
Qed.

Lemma floor_div t : t - t mod Hour = Hour * (t / Hour).
Proof. pose proof (Z.div_mod t Hour). unfold Hour, Minute, Second in *. lia. Qed.

(** The calendar comparison detects exactly a change of the hour. *)
Lemma hour_changed_iff a b : hour_changed a b = true ↔ a - a mod Hour ≠ b - b mod Hour.
Proof.
  unfold hour_changed. rewrite !orb_true_iff, !negb_true_iff, !Z.eqb_neq. split.
  - intros Hne E. rewrite !floor_div in E. apply Z.mul_cancel_l in E as E'; [|done].
    pose proof (fields_of_floor a) as Ha. pose proof (fields_of_floor b) as Hb. rewrite E' in Ha.
    rewrite <- Hb in Ha. injection Ha as Hd Hh.
    assert (Day a = Day b) by (unfold Day; by rewrite Hd).
    assert (Month a = Month b) by (unfold Month; by rewrite Hd).
    assert (Year a = Year b) by (unfold Year; by rewrite Hd). tauto.
  - intros Hne. destruct (decide (HourOf a = HourOf b ∧ Day a = Day b ∧ Month a = Month b ∧ Year a = Year b))
      as [(H1 & H2 & H3 & H4)|Hn].
    + exfalso. apply Hne. by rewrite <- !Date_fields, H1, H2, H3, H4.
    + destruct (decide (HourOf a = HourOf b)), (decide (Day a = Day b)),
        (decide (Month a = Month b)); auto. right. intros ?. apply Hn. auto.
Qed.

(** ** Logging a batch of events *)

(** The shard's counter can be advanced [k] more times. *)
Definition seq_room (s : ShardID) (k : Z) (m : gmap bytes bytes) : Prop :=
  k < 2 ^ 64 ∧ ∀ n, is_u64 n → m !! WALSeqKey s = Some (be 8 n) → n + k < 2 ^ 64.

Lemma seq_room_mono s k k' m : seq_room s k m → k' <= k → seq_room s k' m.
Proof. intros [Hk Hr] Hle. split; [lia|]. intros n Hn E. specialize (Hr n Hn E). lia. Qed.

Section log.
Context `{Pebble}.

Definition next_seq (s : ShardID) (m : gmap bytes bytes) : Z :=
  match m !! WALSeqKey s with None => 0 | Some v => u64 (unbe (take 8 v) + 1) end.

(** However an append ends: nothing, the counter only, or counter and entry. *)
Lemma WALAppend_any s data d d' r :
  WALAppend s data d = (d', r) →
  let n := next_seq s (view d) in
  let m1 := <[WALSeqKey s := be 8 n]> (view d) in
  (r ≠ Ok tt ∧ (view d' = view d ∨ view d' = m1)) ∨ view d' = <[WALKey s n := data]> m1.
Proof.
  unfold WALAppend, WALNextSeq, st_bind, st_ret, pset. unfold next_seq.
  destruct (pget _ d) as [d1 [v|e]] eqn:E1; pose proof (pget_view _ _ _ _ E1) as V1;
    [|intros [= <- <-]; left; auto]. apply pget_ok in E1. subst v.
  set (n := match view d !! _ with None => 0 | Some v => _ end).
  destruct (pcommit _ d1) as [d2 [u|e]] eqn:E2.
  - apply pcommit_ok in E2. cbn [apply_ops fold_left apply_op] in E2. rewrite V1 in E2.
    destruct r as [[]|e].
    + intros E3%pcommit_ok. cbn [apply_ops fold_left apply_op] in E3. rewrite E2 in E3. by right.
    + intros E3%pcommit_any. cbn [apply_ops fold_left apply_op] in E3. rewrite E2 in E3.
      destruct E3; [left|by right]. by split; [|right].
  - apply pcommit_any in E2. cbn [apply_ops fold_left apply_op] in E2. rewrite V1 in E2.
    intros [= <- <-]. by left.
Qed.

Lemma WALAppend_works W s data : reads_work W → writes_work W → works W (WALAppend s data).
Proof.
  intros [Hg _] [_ Hc]. unfold WALAppend, WALNextSeq, pset.
  apply works_bind; [|intros n; apply Hc]. apply works_bind; [apply Hg|]. intros v.
  apply works_bind; [apply Hc|]. intros _. apply works_ret.
Qed.

(** The next number is fresh and leaves room for the rest. *)
Lemma next_seq_room s k m :
  is_u16 s → db_ok m → seq_room s k m → 0 < k →
  is_u64 (next_seq s m) ∧ next_seq s m + (k - 1) < 2 ^ 64 ∧
  ∀ n, is_u64 n → m !! WALSeqKey s = Some (be 8 n) → n < next_seq s m.
Proof.
  intros Hs Hm [Hk Hroom] Hpos. unfold next_seq. destruct (m !! WALSeqKey s) as [v|] eqn:E.
  - destruct (wfentry_seq s v) as (n & Hn & ->); [eauto|].
    specialize (Hroom n Hn eq_refl). unfold is_u64 in Hn.
    rewrite take_ge, unbe_be8, (u64_id n), u64_id by (rewrite ?length_be; unfold is_u64; lia).
    split; [unfold is_u64; lia|]. split; [lia|]. intros n' Hn' E'.
    assert (be 8 n = be 8 n') as Eb by congruence. apply be8_inj in Eb; [lia|unfold is_u64; lia|done].
  - split; [unfold is_u64; lia|]. split; [lia|]. done.
Qed.

Lemma seq_insert_wal_ok s n m :
  is_u16 s → is_u64 n → wal_ok m →
  (∀ k, is_u64 k → m !! WALSeqKey s = Some (be 8 k) → k < n) →
  wal_ok (<[WALSeqKey s := be 8 n]> m).
Proof.
  intros Hs Hn [Hdb Hq] Hmax. split; [auto with bbdb|]. intros s' Hs' q v Hqq Hl.
  rewrite lookup_insert_ne in Hl by auto with bbdb.
  destruct (Hq s' Hs' q v Hqq Hl) as (k & Hk & Hsk & Hle).
  destruct (decide (s' = s)) as [->|Hne].
  - exists n. rewrite lookup_insert_eq. specialize (Hmax k Hk Hsk). split; [done|]. split; [done|lia].
  - exists k. rewrite lookup_insert_ne; [done|]. intros E. apply WALSeqKey_inj in E; auto.
Qed.

(** One append: the entry is last, or the logs are as before. *)
Lemma WALAppend_step s data k d d' r :
  is_u16 s → s < 65535 → wal_ok (view d) → 0 < k → seq_room s k (view d) →
  WALAppend s data d = (d', r) →
  wal_ok (view d') ∧ seq_room s (k - 1) (view d') ∧
  (∀ s', is_u16 s' → s' ≠ s → wal_log s' (view d') = wal_log s' (view d)) ∧
  (wal_log s (view d') = wal_log s (view d) ++ [data] ∨
   (wal_log s (view d') = wal_log s (view d) ∧ r ≠ Ok tt)).
Proof.
  intros Hs Hlt Hw Hk Hroom E. pose proof Hw as [Hdb _].
  destruct (next_seq_room s k (view d) Hs Hdb Hroom Hk) as (Hn & Hr & Hmax).
  set (n := next_seq s (view d)) in *.
  assert (seq_room s (k - 1) (<[WALSeqKey s := be 8 n]> (view d))) as Hroom1.
  { split; [destruct Hroom; lia|]. intros n' Hn' E'. rewrite lookup_insert_eq in E'.
    assert (be 8 n = be 8 n') as Eb by congruence. apply be8_inj in Eb; [lia|done|done]. }
  apply WALAppend_any in E as [(Hne & [-> | ->])| ->]; fold n.
  - split; [done|]. split; [|split; [done|by right]].
    destruct Hroom as [Hk64 Hroom]. split; [lia|]. intros n' Hn' E'. specialize (Hroom n' Hn' E'). lia.
  - split; [by apply seq_insert_wal_ok|]. split; [done|].
    split; [intros s' Hs' _|right; split; [|done]]; by apply seq_insert_log.
  - split; [by apply wal_append_ok|]. split; [|split; [|left; by apply wal_append_last]].
    + destruct Hroom1 as [H1 H2]. split; [done|]. intros n' Hn'.
      rewrite lookup_insert_ne by auto with bbdb. by apply H2.
    + intros s' Hs' Hne. rewrite <- (seq_insert_log s n s' (view d)) by done.
      apply wal_log_ext; auto with bbdb. intros q Hq.
      rewrite lookup_insert_ne; [done|]. intros E. apply WALKey_inj in E as [? _]; auto.
Qed.
End log.

Section flush.
Context `{Pebble} `{SliceSort} `{MapOrder} `{BloomLib} `{Zstd}.

(** The whole batch goes to the table; its log entries are appended in order,
    all of them when the store works. *)
Lemma log_events_spec s k es mt w :
  is_u16 s → s < 65535 → wal_ok (view (db w)) → seq_room s k (view (db w)) → zlen es <= k → mt_ok mt →
  let '(mt', w') := log_events s es mt w in
  mt' = fold_left Append es mt ∧ fs w' = fs w ∧ wal_ok (view (db w')) ∧
  seq_room s (k - zlen es) (view (db w')) ∧
  (∀ s', is_u16 s' → s' ≠ s → wal_log s' (view (db w')) = wal_log s' (view (db w))) ∧
  ∃ l, wal_log s (view (db w')) = wal_log s (view (db w)) ++ l ∧
       sublist l (map json_Marshal es) ∧
       ∀ W, reads_work W → writes_work W → W (db w) → l = map json_Marshal es ∧ W (db w').
Proof.
  intros Hs Hlt. revert k mt w. induction es as [|e es IH]; intros k mt w Hw Hroom Hk Hmt; cbn [log_events map].
  { rewrite Z.sub_0_r. do 5 (split; [done|]). exists []. by rewrite app_nil_r. }
  unfold st_exec. destruct (on_db (WALAppend s (json_Marshal e)) w) as [w1 r] eqn:E1.
  apply on_db_inv in E1 as [E1 F1]. cbn [fst].
  assert (∀ W, reads_work W → writes_work W → W (db w) → r = Ok tt ∧ W (db w1)) as Hworks.
  { intros W HR HW Hd. destruct (WALAppend_works W s (json_Marshal e) HR HW (db w) Hd) as (d & [] & Ed & Hd').
    rewrite E1 in Ed. by injection Ed as <- ->. }
  assert (zlen (e :: es) = zlen es + 1) as Hlen by (unfold zlen; simpl; lia).
  assert (0 <= zlen es) by (unfold zlen; lia).
  destruct (WALAppend_step s (json_Marshal e) k _ _ _ Hs Hlt Hw ltac:(lia) Hroom E1)
    as (Hw1 & Hroom1 & Hoth & Hlog).
  specialize (IH (k - 1) (Append mt e) w1 Hw1 Hroom1 ltac:(lia) (Append_ok _ _ Hmt)).
  destruct (log_events s es (Append mt e) w1) as [mt' w'].
  destruct IH as (Hfold & Hf & Hw' & Hroom' & Hoth' & l & Hl & Hsub & Hall).
  replace (k - 1 - zlen es) with (k - zlen (e :: es)) in Hroom' by lia.
  split; [done|]. split; [congruence|]. split; [done|]. split; [done|].
  split; [intros s' Hs' Hne; by rewrite Hoth', Hoth|].
  destruct Hlog as [Hlog|[Hlog Hne]].
  - exists (json_Marshal e :: l). rewrite Hl, Hlog, <- app_assoc.
    split; [done|]. split; [by constructor|]. intros W HR HW Hd.
    destruct (Hworks W HR HW Hd) as [_ Hd1]. destruct (Hall W HR HW Hd1) as [-> Hd']. done.
  - exists l. rewrite Hl, Hlog. split; [done|]. split; [by constructor|].
    intros W HR HW Hd. by destruct (Hworks W HR HW Hd) as [? _].
Qed.

(** When a flush seals: the hours compared as intervals. *)
Definition seal_due (force : bool) (now : time) (sw : ShardWriter) (mt : Memtable) : bool :=
  negb (Len mt =? 0) &&
  (force || negb (now - now mod Hour =? sw_openedAt sw - sw_openedAt sw mod Hour) ||
   (wc_MaxBlockBytes (sw_cfg sw) <=? ApproxBytes mt)).

Lemma hour_changed_eq a b : hour_changed a b = negb (a - a mod Hour =? b - b mod Hour).
Proof.
  destruct (hour_changed a b) eqn:E.
  - apply hour_changed_iff in E. by apply Z.eqb_neq in E as ->.
  - symmetry. apply negb_false_iff, Z.eqb_eq.
    destruct (decide (a - a mod Hour = b - b mod Hour)); [done|].
    assert (hour_changed a b = true) by by apply hour_changed_iff. congruence.
Qed.

(** A flush that finds [events] in the buffer. *)
Lemma flush_unfold force now sw w ring' events :
  DrainAll (sw_ring sw) = Some (ring', events) →
  flushAndMaybeSeal force now sw w
  = let '(mt, w1) := log_events (sw_shard sw) events (sw_memtable sw) w in
    let sw1 := mkWriter (sw_shard sw) (sw_cfg sw) ring' mt (sw_openedAt sw) in
    Some match wc_Store (sw_cfg sw) with
         | Some store =>
             if seal_due force now sw mt
             then (mkWriter (sw_shard sw) (sw_cfg sw) ring' NewMemtable (now - now mod Hour),
                   (Seal (seal_request sw1 store now) w1).1)
             else (sw1, w1)
         | None => (sw1, w1)
         end.
Proof.
  intros E. unfold flushAndMaybeSeal. rewrite E. destruct (log_events _ _ _ w) as [mt w1].
  cbn [sw_cfg sw_openedAt]. destruct (wc_Store (sw_cfg sw)) as [store|]; [|done].
  unfold seal_due. rewrite hour_changed_eq.
  destruct (Len mt =? 0); cbn [negb andb]; [done|]. destruct (_ || _); [|done].
  unfold sealCurrent, st_exec, hourBoundary. by rewrite Truncate_Hour.
Qed.

(** C16: A flush drains the ring buffer completely and always ends.  Every
    drained event joins the table in order, and its log entry the shard's
    log (each of them when the store works; never out of order).  It seals
    exactly when the table is not empty and the writer stops, the UTC hour
    differs from the one the block was opened in, or the size limit is
    reached; otherwise disk and table keep what they had. *)
Theorem flush_correct force now sw w k all p :
  is_u16 (sw_shard sw) → sw_shard sw < 65535 → wal_ok (view (db w)) → mt_ok (sw_memtable sw) →
  ring_rep k (sw_ring sw) all p → seq_room (sw_shard sw) (zlen (drop p all)) (view (db w)) →
  ∃ ring' mt w1 l,
    ring_rep k ring' all (length all) ∧ mt_ok mt ∧ wal_ok (view (db w1)) ∧ fs w1 = fs w ∧
    Rows mt = Rows (sw_memtable sw) ++ drop p all ∧
    wal_log (sw_shard sw) (view (db w1)) = wal_log (sw_shard sw) (view (db w)) ++ l ∧
    sublist l (map json_Marshal (drop p all)) ∧
    (∀ W, reads_work W → writes_work W → W (db w) → l = map json_Marshal (drop p all)) ∧
    let sw1 := mkWriter (sw_shard sw) (sw_cfg sw) ring' mt (sw_openedAt sw) in
    flushAndMaybeSeal force now sw w
    = Some match wc_Store (sw_cfg sw) with
           | Some store =>
               if seal_due force now sw mt
               then (mkWriter (sw_shard sw) (sw_cfg sw) ring' NewMemtable (now - now mod Hour),
                     (Seal (seal_request sw1 store now) w1).1)
               else (sw1, w1)
           | None => (sw1, w1)
           end.
Proof.
  intros Hs Hlt Hw Hmt R Hroom. destruct (DrainAll_rep _ _ _ _ R) as (ring' & ED & R').
  rewrite (flush_unfold _ _ _ _ _ _ ED).
  pose proof (log_events_spec (sw_shard sw) (zlen (drop p all)) (drop p all) (sw_memtable sw) w
                Hs Hlt Hw Hroom ltac:(lia) Hmt) as Hlog.
  destruct (log_events _ _ _ w) as [mt w1].
  destruct Hlog as (-> & Hf & Hw1 & _ & _ & l & Hl & Hsub & Hall).
  destruct (fold_Append_ok (drop p all) (sw_memtable sw) Hmt) as [Hok Hrows].
  set (mt := fold_left Append _ _) in *.
  exists ring', mt, w1, l. do 7 (split; [done|]).
  split; [intros W HR HW Hd; by apply (Hall W)|done].
Qed.
End flush.

(** ** Instances: a writer that seals at every flush *)
Definition sample_cfg : WriterConfig :=
  mkWriterConfig (2 * 1000000) 2 (Some (local_tier hot_store)) (b!"/tmp") 0 1 0 0.

Definition pending_writer : ShardWriter :=
  mkWriter 263 sample_cfg (mkRing [ev_a; zero_event] 1 1 0) NewMemtable (3 * Hour).

Lemma flush_correct_witness :
  ∃ mt w1 l, Rows mt = [ev_a] ∧ wal_log 263 (view (db w1)) = [] ++ l ∧
    sublist l [json_Marshal ev_a].
Proof.
  destruct (flush_correct false (3 * Hour + 5) pending_writer empty_world 1 [ev_a] 0)
    as (ring' & mt & w1 & l & _ & _ & _ & _ & H1 & H2 & H3 & _).
  - by vm_compute.
  - by vm_compute.
  - exact wal_ok_empty.
  - by vm_compute.
  - split; simpl; try reflexivity; try lia. intros [|i] e _ He; [by injection He as <-|done].
  - split; [by vm_compute|]. intros n _ E. discriminate E.
  - exists mt, w1, l. split; [exact H1|]. split; [exact H2|exact H3].
Defined.

(** Hands one event to the writer and lets it flush. *)
Definition write_flush (e : Event) (now : time) (sw : ShardWriter) (w : World)
  : option (ShardWriter * World) :=
  match sw_Write false sw [e] with
  | Some (sw, Ok _) => flushAndMaybeSeal false now sw w
  | _ => None
  end.

Definition new_writer : option ShardWriter := NewShardWriter 263 sample_cfg (3 * Hour + 1).

(** What is left of the two events: in the block of that hour, in the log, in
    the table. *)
Record traces := mkTraces {
  of_a : result (list Event);
  of_b : result (list Event);
  in_log : list bytes;
  in_table : list Event;
}.

Definition found (e : Event) (w : World) : result (list Event) :=
  match (ReadBlock (local_tier hot_store) sample_id (KeyHash e) 0 (24 * Hour) (fs w)).2 with
  | Ok l => Ok l
  | Err _ => Err ENotExist
  end.

Definition observe (sw : ShardWriter) (w : World) : traces :=
  mkTraces (found ev_a w) (found ev_b w) (wal_log 263 (view (db w))) (Rows (sw_memtable sw)).

(** Writes and flushes [ev_a] and then [ev_b] within one hour. *)
Definition two_flushes (w : World) : option (traces * traces) :=
  match new_writer with
  | None => None
  | Some sw =>
      match write_flush ev_a (3 * Hour + 2) sw w with
      | None => None
      | Some (sw1, w1) =>
          match write_flush ev_b (3 * Hour + 3) sw1 w1 with
          | None => None
          | Some (sw2, w2) => Some (observe sw1 w1, observe sw2 w2)
          end
      end
  end.


(** The disk refuses the first system call, then works. *)
Definition failing_once : World := mkWorld RefOps empty_db (mkFS ∅ [Some 0%nat]).

