(* ===== verification/Json.v ===== *)
(** * Reading the write-ahead log back

    The writer logs an event as the JSON text [json.Marshal] makes of it.  No
    code of the program reads these entries; what they are good for is stated
    by a decoder of this one shape of text, which follows [json.Unmarshal] on
    it.  Decoding an entry gives the event back, so the log of a shard
    determines its table. *)
From S2P Require Import Prelude GoTime GoFmt Event Memtable Writer.
#[local] Open Scope Z_scope.

(** ** Base64 *)
Fixpoint index_of (c : Z) (l : bytes) (i : Z) : option Z :=
  match l with
  | [] => None
  | x :: r => if x =? c then Some i else index_of c r (i + 1)
  end.

Definition b64_value (c : Z) : option Z := index_of c b64_alphabet 0.

(** Three bytes of four values. *)
Definition b64_bytes (v1 v2 v3 v4 : Z) : bytes :=
  [v1 * 4 + v2 / 16; v2 mod 16 * 16 + v3 / 4; v3 mod 4 * 64 + v4].

Fixpoint unbase64 (l : bytes) : option bytes :=
  match l with
  | [] => Some []
  | c1 :: c2 :: c3 :: c4 :: r =>
      match b64_value c1, b64_value c2 with
      | Some v1, Some v2 =>
          if c3 =? 61 then if (c4 =? 61) && bool_decide (r = []) then Some (take 1 (b64_bytes v1 v2 0 0)) else None
          else match b64_value c3 with
               | None => None
               | Some v3 =>
                   if c4 =? 61 then if bool_decide (r = []) then Some (take 2 (b64_bytes v1 v2 v3 0)) else None
                   else match b64_value c4, unbase64 r with
                        | Some v4, Some t => Some (b64_bytes v1 v2 v3 v4 ++ t)
                        | _, _ => None
                        end
               end
      | _, _ => None
      end
  | _ => None
  end.

Lemma b64_value_char i : b64_value (b64_char i) = Some (i mod 64) ∧ b64_char i ≠ 61 ∧ b64_char i ≠ 34.
Proof.
  unfold b64_char. change 63 with (Z.ones 6). rewrite Z.land_ones by lia. change (2 ^ 6) with 64.
  pose proof (Z.mod_pos_bound i 64 ltac:(lia)) as Hm. revert Hm. generalize (i mod 64). clear i. intros i Hi.
  assert (Forall (fun k => b64_value (nth (Z.to_nat k) b64_alphabet 0) = Some k ∧
                           nth (Z.to_nat k) b64_alphabet 0 ≠ 61 ∧ nth (Z.to_nat k) b64_alphabet 0 ≠ 34)
            (map Z.of_nat (seq 0 64))) as Hall.
  { apply (bool_decide_unpack _). vm_compute. exact I. }
  rewrite Forall_forall in Hall. apply Hall. apply list_elem_of_In, in_map_iff. exists (Z.to_nat i).
  split; [lia|]. apply in_seq. lia.
Qed.

(** What the encoder's shifts compute. *)
Lemma b64_groups a b c :
  is_u8 a → is_u8 b → is_u8 c →
  b64_bytes (Z.shiftr a 2 mod 64) (Z.lor (Z.shiftl a 4) (Z.shiftr b 4) mod 64)
    (Z.lor (Z.shiftl b 2) (Z.shiftr c 6) mod 64) (c mod 64) = [a; b; c].
Proof.
  unfold is_u8, b64_bytes. intros Ha Hb Hc. rewrite !Z.shiftr_div_pow2 by lia.
  rewrite !lor_shift by first [done|split; [apply Z.div_pos; lia|apply Z.div_lt_upper_bound; lia]].
  change (2 ^ 2) with 4. change (2 ^ 4) with 16. change (2 ^ 6) with 64. change (2 ^ 8) with 256 in *.
  assert (∀ x y z : Z, x = a → y = b → z = c → [x; y; z] = [a; b; c]) as Hl by (by intros ? ? ? -> -> ->).
  apply Hl; Z.to_euclidean_division_equations; lia.
Qed.

(** One group of four characters. *)
Lemma unbase64_group i1 i2 i3 i4 r :
  unbase64 (b64_char i1 :: b64_char i2 :: b64_char i3 :: b64_char i4 :: r)
  = match unbase64 r with
    | Some t => Some (b64_bytes (i1 mod 64) (i2 mod 64) (i3 mod 64) (i4 mod 64) ++ t)
    | None => None
    end.
Proof.
  cbn [unbase64]. destruct (b64_value_char i1) as [-> _], (b64_value_char i2) as [-> _].
  destruct (b64_value_char i3) as (-> & H3 & _), (b64_value_char i4) as (-> & H4 & _).
  by rewrite (proj2 (Z.eqb_neq _ _) H3), (proj2 (Z.eqb_neq _ _) H4).
Qed.

Lemma unbase64_two i1 i2 i3 :
  unbase64 [b64_char i1; b64_char i2; b64_char i3; 61]
  = Some (take 2 (b64_bytes (i1 mod 64) (i2 mod 64) (i3 mod 64) 0)).
Proof.
  cbn [unbase64]. destruct (b64_value_char i1) as [-> _], (b64_value_char i2) as [-> _].
  destruct (b64_value_char i3) as (-> & H3 & _). by rewrite (proj2 (Z.eqb_neq _ _) H3).
Qed.

Lemma unbase64_one i1 i2 :
  unbase64 [b64_char i1; b64_char i2; 61; 61] = Some (take 1 (b64_bytes (i1 mod 64) (i2 mod 64) 0 0)).
Proof. cbn [unbase64]. by destruct (b64_value_char i1) as [-> _], (b64_value_char i2) as [-> _]. Qed.

Lemma zero_byte : is_u8 0.
Proof. by vm_compute. Qed.

Lemma unbase64_base64 l : are_bytes l → unbase64 (base64 l) = Some l.
Proof.
  enough (∀ n l, (length l < n)%nat → are_bytes l → unbase64 (base64 l) = Some l) as Hgo by (intros; eapply Hgo; eauto).
  clear l. induction n as [|n IH]; intros l Hn Hl; [lia|].
  destruct l as [|a [|b [|c r]]]; [done|..]; cbn [base64 app].
  - apply Forall_cons in Hl as [Ha _]. rewrite unbase64_one.
    pose proof (b64_groups a 0 0 Ha zero_byte zero_byte) as E. rewrite !Z.shiftr_0_l, Z.lor_0_r in E.
    apply (f_equal (take 1)) in E. f_equal. exact E.
  - apply Forall_cons in Hl as [Ha Hl]. apply Forall_cons in Hl as [Hb _]. rewrite unbase64_two.
    pose proof (b64_groups a b 0 Ha Hb zero_byte) as E. rewrite Z.shiftr_0_l, Z.lor_0_r in E.
    apply (f_equal (take 2)) in E. f_equal. exact E.
  - apply Forall_cons in Hl as [Ha Hl]. apply Forall_cons in Hl as [Hb Hl]. apply Forall_cons in Hl as [Hc Hl].
    rewrite unbase64_group, b64_groups, IH by (done || (cbn in Hn; lia)). done.
Qed.

Lemma base64_plain l : 34 ∉ base64 l.
Proof.
  assert (∀ i, 34 ≠ b64_char i) as Hc by (intros i E; by apply (proj2 (proj2 (b64_value_char i)))).
  enough (∀ n l, (length l < n)%nat → 34 ∉ base64 l) as Hgo by (eapply Hgo; eauto).
  clear l. induction n as [|n IH]; intros l Hn; [lia|].
  destruct l as [|a [|b [|c r]]]; cbn [base64 app]; rewrite ?not_elem_of_cons;
    repeat (split; [apply Hc || done|]); try apply not_elem_of_nil. apply IH. cbn in Hn. lia.
Qed.

(** ** Numbers *)
Definition num_char (c : Z) : bool := is_digit c || (c =? 45).

Fixpoint span (p : Z → bool) (s : bytes) : bytes * bytes :=
  match s with
  | [] => ([], [])
  | c :: r => if p c then let '(a, b) := span p r in (c :: a, b) else ([], s)
  end.

Definition read_number (s : bytes) : option Z :=
  match s with
  | 45 :: r => match atou r with Some z => Some (- z) | None => None end
  | _ => atou s
  end.

Lemma span_app p l c r : Forall (fun x => p x = true) l → p c = false → span p (l ++ c :: r) = (l, c :: r).
Proof.
  intros Hl Hc. induction Hl as [|x l Hx _ IH]; cbn [span app]; [by rewrite Hc|]. by rewrite Hx, IH.
Qed.

Lemma atou_itoa z : 0 <= z → atou (map digit_char (digits 10 z)) = Some z.
Proof.
  intros Hz. rewrite atou_digits.
  - by rewrite digits_val_digits.
  - by apply to_digits_nonempty; right.
  - by apply digits_range.
Qed.

Lemma digits_chars z : 0 <= z → Forall decchar (map digit_char (digits 10 z)).
Proof.
  intros Hz. pose proof (sprintf_0d_decchars 0 z Hz) as Hd. unfold sprintf_0d, sprintf_0 in Hd.
  by rewrite (proj2 (Z.ltb_ge z 0) Hz) in Hd.
Qed.

Lemma read_itoa z : read_number (itoa z) = Some z ∧ Forall (fun c => num_char c = true) (itoa z).
Proof.
  assert (∀ l, Forall decchar l → Forall (fun c => num_char c = true) l) as Hnum.
  { intros l Hl. eapply Forall_impl; [exact Hl|]. intros c. unfold decchar, num_char, is_digit. zcases; simpl; lia. }
  assert (∀ l, pad_zero 0 l = l) as Hpad by done. unfold itoa, sprintf_0. cbn [Nat.sub]. rewrite !Hpad.
  destruct (Z.ltb_spec z 0).
  - cbn [read_number]. rewrite atou_itoa by lia. split; [f_equal; lia|]. apply Forall_cons.
    split; [done|]. apply Hnum, digits_chars. lia.
  - pose proof (digits_chars z ltac:(lia)) as Hd. split; [|by apply Hnum]. pose proof (atou_itoa z ltac:(lia)) as Ha.
    destruct (map digit_char (digits 10 z)) as [|c r]; [done|]. apply Forall_cons in Hd as [Hc _].
    unfold decchar in Hc. rewrite <- Ha. cbn [read_number].
    destruct c as [|c|c]; try done. by do 6 (destruct c as [c|c|]; try done).
Qed.

(** ** An entry *)
Fixpoint strip (lit s : bytes) : option bytes :=
  match lit, s with
  | [], _ => Some s
  | a :: lit, b :: s => if a =? b then strip lit s else None
  | _ :: _, [] => None
  end.

Lemma strip_app lit s : strip lit (lit ++ s) = Some s.
Proof. induction lit as [|a lit IH]; [done|]. cbn [strip app]. by rewrite Z.eqb_refl. Qed.

(** The text between two literals, read as a number. *)
Definition read_field (name : bytes) (s : bytes) : option (Z * bytes) :=
  match strip (quoted name ++ b!":") s with
  | None => None
  | Some s => let '(num, s) := span num_char s in
              match read_number num with Some z => Some (z, s) | None => None end
  end.

Definition read_payload (s : bytes) : option bytes :=
  match strip (b!"null") s with
  | Some s => match strip (b!"}") s with Some [] => Some [] | _ => None end
  | None =>
      match strip [34] s with
      | None => None
      | Some s => let '(text, s) := span (fun c => negb (c =? 34)) s in
                  match strip ([34] ++ b!"}") s with Some [] => unbase64 text | _ => None end
      end
  end.

Definition json_Unmarshal (s : bytes) : option Event :=
  match strip (b!"{") s with
  | None => None
  | Some s =>
      match read_field (b!"KeyHash") s with
      | None => None
      | Some (kh, s) =>
          match strip (b!",") s with
          | None => None
          | Some s =>
              match read_field (b!"Timestamp") s with
              | None => None
              | Some (ts, s) =>
                  match strip (b!"," ++ quoted (b!"Payload") ++ b!":") s with
                  | None => None
                  | Some s => match read_payload s with Some p => Some (mkEvent kh ts p) | None => None end
                  end
              end
          end
      end
  end.

Lemma read_field_ok name z c r :
  num_char c = false → read_field name (quoted name ++ b!":" ++ itoa z ++ c :: r) = Some (z, c :: r).
Proof.
  intros Hc. destruct (read_itoa z) as [Hz Hn]. unfold read_field. rewrite app_assoc, strip_app, span_app by done.
  by rewrite Hz.
Qed.

Lemma read_payload_ok p :
  are_bytes p →
  read_payload (match p with [] => b!"null" | _ => quoted (base64 p) end ++ b!"}") = Some p.
Proof.
  intros Hp. destruct p as [|x p]; [done|]. unfold read_payload, quoted. rewrite <- !app_assoc.
  change (strip (b!"null") ([34] ++ _)) with (@None bytes). cbv iota. rewrite strip_app.
  cbn [app]. rewrite span_app; [|apply Forall_forall; intros c Hc; apply negb_true_iff, Z.eqb_neq; intros ->|done].
  - cbn [strip]. rewrite Z.eqb_refl. change (strip (b!"}") (b!"}")) with (Some (@nil Z)). by apply unbase64_base64.
  - by apply base64_plain in Hc.
Qed.

(** Decoding an entry of the log gives the event. *)
Lemma json_Unmarshal_Marshal e : event_ok e → json_Unmarshal (json_Marshal e) = Some e.
Proof.
  intros (_ & _ & Hp & _). unfold json_Unmarshal, json_Marshal. rewrite strip_app.
  set (r2 := b!"," ++ quoted (b!"Payload") ++ _). set (r1 := quoted (b!"Timestamp") ++ b!":" ++ itoa (Timestamp e) ++ r2).
  change (b!"," ++ r1) with (44 :: r1). rewrite read_field_ok by done.
  change (strip (b!",") (44 :: r1)) with (Some r1). unfold r1.
  assert (r2 = (b!"," ++ quoted (b!"Payload") ++ b!":") ++
            match Payload e with [] => b!"null" | _ => quoted (base64 (Payload e)) end ++ b!"}") as Hr2
    by (unfold r2; rewrite <- !app_assoc; by destruct (Payload e)).
  assert (∃ r, r2 = 44 :: r) as [r Hr] by by eexists.
  rewrite Hr, read_field_ok by done. rewrite <- Hr, Hr2, strip_app, read_payload_ok by done. by destruct e.
Qed.

(** The log entries as events. *)
Definition recover (log : list bytes) : list Event := omap json_Unmarshal log.

Lemma recover_Marshal es : Forall event_ok es → recover (map json_Marshal es) = es.
Proof.
  induction 1 as [|e es He _ IH]; [done|]. unfold recover. cbn [map omap list_omap].
  rewrite json_Unmarshal_Marshal by done. f_equal. exact IH.
Qed.


