(* ===== verification/MetaDB.v ===== *)
(** * The typed metadata database: the write operations of [internal/meta]

    One pebble database holds six kinds of entry under byte-string keys, and
    every reader decodes what some writer encoded.  [typed] is the type of
    that database: which values may stand under which keys.  Every exported
    write operation keeps it, also when it fails half-way. *)
From S2P Require Import Prelude Pebble PebbleRef Keys Wal BlockMetaDB IdxDB Expiry Writer.

(** ** The type of an entry *)
Definition migr_ok (m : MigrationMeta) : Prop := is_u8 (mm_DstTier m).

Inductive typed_entry : bytes → bytes → Prop :=
  | te_wal s q v : is_u16 s → is_u64 q → typed_entry (WALKey s q) v
  | te_seq s n : is_u16 s → is_u64 n → typed_entry (WALSeqKey s) (be 8 n)
  | te_block id m : meta_ok m → typed_entry (BlockKey id) (encodeBlockMeta m)
  | te_idx et kh id : is_u8 et → is_u64 kh → typed_entry (IdxKey et kh id) []
  | te_expiry h id : is_u64 h → typed_entry (ExpiryKey h id) []
  | te_migr id m : migr_ok m → typed_entry (MigrationKey id) (encodeMigrationMeta m).
#[export] Hint Constructors typed_entry : bbdb.

(** Entries have their types, and counters are ahead of the logs. *)
Definition typed (m : gmap bytes bytes) : Prop :=
  (∀ k v, m !! k = Some v → typed_entry k v) ∧ wal_ok m.

(** ** The write operations *)
Inductive meta_op :=
  | OpWALAppend (shard : ShardID) (data : bytes)
  | OpWALTruncate (shard : ShardID)
  | OpPutBlockMeta (id : BlockID) (m : BlockMeta)
  | OpDeleteBlockMeta (id : BlockID)
  | OpPutMigrationMeta (id : BlockID) (m : MigrationMeta)
  | OpDeleteMigrationMeta (id : BlockID)
  | OpPutIdxBatch (eventType : Z) (keyHashes : list Z) (blockID : BlockID)
  | OpPutExpiryKey (unixHour : Z) (blockID : BlockID)
  | OpDeleteExpiryKey (unixHour : Z) (blockID : BlockID)
  | OpSealBatch (shard : ShardID) (blockID : BlockID) (bm : BlockMeta) (expiryHour : Z)
  | OpDeleteBlockAndExpiry (unixHour : Z) (id : BlockID).

(** The arguments are values of their Go types. *)
Definition op_ok (o : meta_op) : Prop :=
  match o with
  | OpWALAppend s _ | OpWALTruncate s => is_u16 s
  | OpPutBlockMeta _ m => meta_ok m
  | OpPutMigrationMeta _ m => migr_ok m
  | OpPutIdxBatch et hs _ => is_u8 et ∧ Forall is_u64 hs
  | OpPutExpiryKey h _ => is_u64 h
  | OpSealBatch s _ bm h => is_u16 s ∧ meta_ok bm ∧ is_u64 h
  | _ => True
  end.

Section ops.
Context `{PebbleOps}.

Definition run_op (o : meta_op) : ST pdb unit :=
  match o with
  | OpWALAppend s d => WALAppend s d
  | OpWALTruncate s => WALTruncate s
  | OpPutBlockMeta id m => PutBlockMeta id m
  | OpDeleteBlockMeta id => DeleteBlockMeta id
  | OpPutMigrationMeta id m => PutMigrationMeta id m
  | OpDeleteMigrationMeta id => DeleteMigrationMeta id
  | OpPutIdxBatch et hs id => PutIdxBatch et hs id
  | OpPutExpiryKey h id => PutExpiryKey h id
  | OpDeleteExpiryKey h id => DeleteExpiryKey h id
  | OpSealBatch s id bm h => SealBatch s id bm h
  | OpDeleteBlockAndExpiry h id => DeleteBlockAndExpiry h id
  end.

(** Operations in any order; a failed one is followed by the next. *)
Definition run_ops (ops : list meta_op) (db : pdb) : pdb := fold_left (fun d o => (run_op o d).1) ops db.
End ops.

(** ** Batches that respect the types *)

(** A batch operation that writes no log entry and leaves every counter. *)
Definition typed_bop (o : bop) : Prop :=
  match o with
  | OpSet k v => typed_entry k v ∧ (∀ s q, k ≠ WALKey s q) ∧ ∀ s, k ≠ WALSeqKey s
  | OpDelete k => ∀ s, k ≠ WALSeqKey s
  | OpDeleteRange lo hi => ∀ s, in_range lo hi (WALSeqKey s) = false
  end.

Lemma typed_entry_wf k v : typed_entry k v → wfentry k v.
Proof. destruct 1; auto with bbdb. Qed.

Lemma typed_bop_counters o m s : typed_bop o → apply_op m o !! WALSeqKey s = m !! WALSeqKey s.
Proof.
  destruct o as [k v|k|lo hi]; cbn.
  - intros (_ & _ & Hs). by rewrite lookup_insert_ne.
  - intros Hs. by rewrite lookup_delete_ne.
  - intros Hs. by rewrite lookup_delete_range, Hs.
Qed.

Lemma typed_apply_op o m : typed_bop o → typed m → typed (apply_op m o).
Proof.
  intros Ho [Ht Hw].
  assert (∀ k v, apply_op m o !! k = Some v → typed_entry k v ∧ (m !! k = Some v ∨ ∀ s q, k ≠ WALKey s q)) as Hall.
  { intros k v. destruct o as [k' v'|k'|lo hi]; cbn in *.
    - intros [[-> ->]|[_ Hl]]%lookup_insert_Some; [destruct Ho as (? & ? & _); auto|]. auto.
    - intros [_ Hl]%lookup_delete_Some. auto.
    - rewrite lookup_delete_range. destruct (in_range lo hi k); [done|]. auto. }
  split; [intros k v Hl; by apply Hall|].
  eapply wal_ok_other; [exact Hw| | |].
  - intros k v Hl. by apply typed_entry_wf, Hall.
  - intros s q v _ _ Hl. destruct (Hall _ _ Hl) as [_ [?|Hne]]; [done|]. by destruct (Hne s q).
  - intros s. by apply typed_bop_counters.
Qed.

Lemma typed_apply_ops ops m :
  Forall typed_bop ops → typed m →
  typed (apply_ops ops m) ∧ ∀ s, apply_ops ops m !! WALSeqKey s = m !! WALSeqKey s.
Proof.
  intros Ho. revert m. induction Ho as [|o ops Ho _ IH]; intros m Hm; cbn [apply_ops fold_left]; [done|].
  destruct (IH (apply_op m o)) as [H1 H2]; [by apply typed_apply_op|]. split; [done|].
  intros s. unfold apply_ops in H2. rewrite H2. by apply typed_bop_counters.
Qed.

Section typed_ops.
Context `{Pebble}.

(** The batch an operation writes, appends apart. *)
Definition op_batch (o : meta_op) : list bop :=
  match o with
  | OpWALAppend _ _ => []
  | OpWALTruncate s => [OpDeleteRange (WALKeyStart s) (WALKeyEnd s)]
  | OpPutBlockMeta id m => [OpSet (BlockKey id) (encodeBlockMeta m)]
  | OpDeleteBlockMeta id => [OpDelete (BlockKey id)]
  | OpPutMigrationMeta id m => [OpSet (MigrationKey id) (encodeMigrationMeta m)]
  | OpDeleteMigrationMeta id => [OpDelete (MigrationKey id)]
  | OpPutIdxBatch et hs id => map (fun h => OpSet (IdxKey et h id) []) hs
  | OpPutExpiryKey h id => [OpSet (ExpiryKey h id) []]
  | OpDeleteExpiryKey h id => [OpDelete (ExpiryKey h id)]
  | OpSealBatch s id bm h => seal_ops s id bm h
  | OpDeleteBlockAndExpiry h id => [OpDelete (BlockKey id); OpDelete (ExpiryKey h id)]
  end.

Lemma op_batch_typed o : op_ok o → Forall typed_bop (op_batch o).
Proof.
  assert (∀ id s, MigrationKey id ≠ WALSeqKey s) as Hms by (intros id s; key_ne).
  assert (∀ id s q, MigrationKey id ≠ WALKey s q) as Hmw by (intros id s q; key_ne).
  destruct o; cbn [op_ok op_batch]; intros Ho; unfold seal_ops;
    repeat first [apply Forall_nil | apply Forall_cons; split]; cbn [typed_bop]; auto 6 with bbdb;
    try (destruct Ho as (? & ? & ?); auto 6 with bbdb).
  destruct Ho as [He Hh]. apply Forall_map. eapply Forall_impl; [exact Hh|]. intros h Hh'.
  unfold compose. cbn [typed_bop]. auto 6 with bbdb.
Qed.

Lemma run_op_any o db :
  (∀ s d, o ≠ OpWALAppend s d) →
  view (run_op o db).1 = view db ∨ view (run_op o db).1 = apply_ops (op_batch o) (view db).
Proof.
  intros Hna. destruct (run_op o db) as [db' r] eqn:E. cbn [fst].
  destruct o; cbn [run_op op_batch] in *; try (by destruct (Hna shard data));
    first [by apply pwrite_batch_any in E | by apply pcommit_any in E].
Qed.

Lemma typed_append s data k db :
  is_u16 s → 0 < k → typed (view db) → (∀ s', is_u16 s' → seq_room s' k (view db)) →
  let db' := (WALAppend s data db).1 in
  typed (view db') ∧ ∀ s', is_u16 s' → seq_room s' (k - 1) (view db').
Proof.
  intros Hs Hk [Ht Hw] Hroom. cbn zeta. destruct (WALAppend s data db) as [db' r] eqn:E. cbn [fst].
  pose proof Hw as [Hdb _]. pose proof (Hroom s Hs) as Hrs.
  destruct (next_seq_room s k (view db) Hs Hdb Hrs Hk) as (Hn & Hr & Hmax).
  apply WALAppend_any in E. set (n := next_seq s (view db)) in *. cbn zeta in E.
  set (m1 := <[WALSeqKey s := be 8 n]> (view db)) in *.
  assert (typed m1) as Ht1.
  { split; [|by apply seq_insert_wal_ok]. intros k0 v [[<- <-]|[_ ?]]%lookup_insert_Some; auto with bbdb. }
  assert (∀ s', is_u16 s' → seq_room s' (k - 1) m1) as Hroom1.
  { intros s' Hs'. destruct (decide (s' = s)) as [->|Hne].
    - split; [destruct Hrs; lia|]. intros n' Hn' E'. unfold m1 in E'. rewrite lookup_insert_eq in E'.
      assert (be 8 n = be 8 n') as Eb by congruence. apply be8_inj in Eb; [lia|done|done].
    - destruct (seq_room_mono s' k (k - 1) _ (Hroom s' Hs')) as [H1 H2]; [lia|].
      split; [done|]. intros n' Hn'. unfold m1. rewrite lookup_insert_ne; [by apply H2|].
      intros Eq%WALSeqKey_inj; [by destruct Hne|done|done]. }
  destruct E as [(_ & [-> | ->])| ->].
  - split; [done|]. intros s' Hs'. eapply seq_room_mono; [by apply Hroom|lia].
  - done.
  - split; [split|].
    + destruct Ht1 as [Ht1 _]. intros k0 v [[<- <-]|[_ ?]]%lookup_insert_Some; auto with bbdb.
    + by apply wal_append_ok.
    + intros s' Hs'. destruct (Hroom1 s' Hs') as [H1 H2]. split; [done|]. intros n' Hn'.
      rewrite lookup_insert_ne by auto with bbdb. by apply H2.
Qed.

Lemma typed_step o k db :
  op_ok o → 0 < k → typed (view db) → (∀ s, is_u16 s → seq_room s k (view db)) →
  let db' := (run_op o db).1 in
  typed (view db') ∧ ∀ s, is_u16 s → seq_room s (k - 1) (view db').
Proof.
  intros Ho Hk Ht Hroom. cbn zeta.
  assert ((∃ s d, o = OpWALAppend s d) ∨ ∀ s d, o ≠ OpWALAppend s d) as [(s & d & ->)|Hna]
    by (destruct o; eauto; right; done).
  { by apply (typed_append s d k). }
  destruct (typed_apply_ops (op_batch o) (view db)) as [T1 C1]; [by apply op_batch_typed|done|].
  destruct (run_op_any o db Hna) as [-> | ->].
  - split; [done|]. intros s Hs. eapply seq_room_mono; [by apply Hroom|lia].
  - split; [done|]. intros s Hs. destruct (seq_room_mono s k (k - 1) _ (Hroom s Hs)) as [H1 H2]; [lia|].
    split; [done|]. intros n Hn. rewrite C1. by apply H2.
Qed.

Lemma typed_run ops db k :
  Forall op_ok ops → zlen ops <= k → typed (view db) → (∀ s, is_u16 s → seq_room s k (view db)) →
  typed (view (run_ops ops db)).
Proof.
  intros Ho. revert db k. induction Ho as [|o ops Ho _ IH]; intros db k Hk Ht Hroom; [done|].
  unfold zlen in Hk. cbn [length] in Hk.
  destruct (typed_step o k db Ho ltac:(lia) Ht Hroom) as [T R]. apply (IH _ (k - 1)); [unfold zlen; lia|done|done].
Qed.

Lemma typed_empty : typed ∅.
Proof. split; [intros k v E; by rewrite lookup_empty in E|apply wal_ok_empty]. Qed.

(** ** Reading a typed database *)
Lemma typed_block id v m : typed m → m !! BlockKey id = Some v → ∃ bm, meta_ok bm ∧ v = encodeBlockMeta bm.
Proof.
  intros [Ht _] Hl. apply Ht in Hl. remember (BlockKey id) as k eqn:Ek.
  destruct Hl; try (exfalso; revert Ek; key_ne). eauto.
Qed.

Lemma typed_migration id v m :
  typed m → m !! MigrationKey id = Some v → ∃ mm, migr_ok mm ∧ v = encodeMigrationMeta mm.
Proof.
  intros [Ht _] Hl. apply Ht in Hl. remember (MigrationKey id) as k eqn:Ek.
  destruct Hl; try (exfalso; revert Ek; key_ne). eauto.
Qed.

Lemma typed_GetBlockMeta id db db' r :
  typed (view db) → GetBlockMeta id db = (db', r) →
  (∃ bm, r = Ok bm ∧ meta_ok bm ∧ view db !! BlockKey id = Some (encodeBlockMeta bm)) ∨
  (r = Err (EWrap "block" ENotFound) ∧ view db !! BlockKey id = None) ∨
  (∃ e, r = Err e ∧ (pget (BlockKey id) db).2 = Err e).
Proof.
  intros Ht. unfold GetBlockMeta. destruct (pget _ db) as [db1 [[v|]|e]] eqn:E; intros [= <- <-].
  - apply pget_ok in E. destruct (typed_block id v _ Ht (eq_sym E)) as (bm & Hbm & ->).
    left. exists bm. rewrite decode_encodeBlockMeta by done. auto.
  - apply pget_ok in E. auto.
  - right. right. eauto.
Qed.

Lemma typed_GetMigrationMeta id db db' r :
  typed (view db) → GetMigrationMeta id db = (db', r) →
  (∃ mm, r = Ok mm ∧ migr_ok mm ∧ view db !! MigrationKey id = Some (encodeMigrationMeta mm)) ∨
  (r = Err ENotFound ∧ view db !! MigrationKey id = None) ∨
  (∃ e, r = Err e ∧ (pget (MigrationKey id) db).2 = Err e).
Proof.
  intros Ht. unfold GetMigrationMeta. destruct (pget _ db) as [db1 [[v|]|e]] eqn:E.
  - apply pget_ok in E. destruct (typed_migration id v _ Ht (eq_sym E)) as ([t p] & Hmm & ->).
    intros E2. left. exists (mkMigrationMeta t p). split; [|done].
    unfold encodeMigrationMeta in E2. cbn [length Nat.ltb migrationMetaSize nth mm_DstTier mm_InProgress] in E2.
    injection E2 as _ <-. rewrite u8_id by exact Hmm. by destruct p.
  - apply pget_ok in E. intros [= <- <-]. auto.
  - intros [= <- <-]. right. right. eauto.
Qed.

(** Every key of a family parses as one of that family. *)
Definition keys_parse (m : gmap bytes bytes) : Prop :=
  ∀ k v, m !! k = Some v →
    (has_prefix k prefixWAL = true → ∃ s q, ParseWALKey k = Ok (s, q)) ∧
    (has_prefix k prefixIdx = true → ∃ et kh id, ParseIdxKey k = Ok (et, kh, id)) ∧
    (has_prefix k prefixExpiry = true → ∃ h id, ParseExpiryKey k = Ok (h, id)).

Lemma typed_keys_parse m : typed m → keys_parse m.
Proof.
  intros [Ht _] k v Hl. destruct (Ht _ _ Hl); (split; [|split]); try (intros E; discriminate E); intros _.
  - rewrite ParseWALKey_WALKey by done. eauto.
  - rewrite ParseIdxKey_IdxKey by done. eauto.
  - rewrite ParseExpiryKey_ExpiryKey by done. eauto.
Qed.

(** C12: The metadata database is typed: from a typed one, any sequence of the
    write operations of the package, failing or not, leads to a typed one,
    as long as no sequence counter runs out.  In it every key of a family
    parses, the counters are ahead of the logs, and reading block or migration
    metadata gives a valid record, not-found for an absent one, or the
    store's own error; a stored record never fails to decode. *)
Theorem metadata_stays_typed ops db :
  Forall op_ok ops → typed (view db) → (∀ s, is_u16 s → seq_room s (zlen ops) (view db)) →
  let db' := run_ops ops db in
  typed (view db') ∧ keys_parse (view db') ∧
  (∀ id d r, GetBlockMeta id db' = (d, r) →
    (∃ bm, r = Ok bm ∧ meta_ok bm ∧ view db' !! BlockKey id = Some (encodeBlockMeta bm)) ∨
    (r = Err (EWrap "block" ENotFound) ∧ view db' !! BlockKey id = None) ∨
    (∃ e, r = Err e ∧ (pget (BlockKey id) db').2 = Err e)) ∧
  (∀ id d r, GetMigrationMeta id db' = (d, r) →
    (∃ mm, r = Ok mm ∧ migr_ok mm ∧ view db' !! MigrationKey id = Some (encodeMigrationMeta mm)) ∨
    (r = Err ENotFound ∧ view db' !! MigrationKey id = None) ∨
    (∃ e, r = Err e ∧ (pget (MigrationKey id) db').2 = Err e)).
Proof.
  intros Ho Ht Hroom. cbn zeta.
  assert (typed (view (run_ops ops db))) as T by (eapply typed_run; [done|reflexivity|done|done]).
  split; [done|]. split; [by apply typed_keys_parse|].
  split; intros id d r; [by apply typed_GetBlockMeta|by apply typed_GetMigrationMeta].
Qed.
End typed_ops.

(** A shard is logged to, sealed with two store failures on the way, expires
    and migrates. *)
Definition sample_ops : list meta_op :=
  [ OpWALAppend 263 b!"a"; OpWALAppend 263 b!"b"; OpPutIdxBatch 1 [7; 9] b!"00107:2026010100";
    OpSealBatch 263 b!"00107:2026010100" sample_meta 500000;
    OpPutMigrationMeta b!"00107:2026010100" (mkMigrationMeta 1 true);
    OpDeleteMigrationMeta b!"00107:2026010100"; OpPutExpiryKey 9 b!"x"; OpDeleteExpiryKey 9 b!"x";
    OpPutBlockMeta b!"x" sample_meta; OpDeleteBlockMeta b!"x"; OpWALTruncate 263;
    OpDeleteBlockAndExpiry 500000 b!"00107:2026010100" ].

Definition sample_db : @pdb RefOps := mkRef ∅ [false; false; true; false; false; true].

Lemma metadata_stays_typed_witness :
  typed (view (run_ops sample_ops sample_db)) ∧
  is_Some (view (run_ops (take 9 sample_ops) sample_db) !! BlockKey b!"x").
Proof.
  split.
  - apply (metadata_stays_typed sample_ops sample_db).
    + unfold sample_ops. repeat (apply Forall_cons; split); try exact I;
        repeat split; repeat (apply Forall_cons; split); try apply Forall_nil; by vm_compute.
    + apply typed_empty.
    + intros s Hs. split; [by vm_compute|]. intros n Hn E. cbn in E. by rewrite lookup_empty in E.
  - vm_compute. by eexists.
Defined.

