(* ===== verification/WriterRun.v ===== *)
(** * Whole runs of a shard writer: [run] and [Stop] of [internal/ingestion/writer.go]

    The writer's goroutine flushes at every tick and once more, sealing, when
    it is stopped; between ticks the ingestion service pushes events.  A run is
    the sequence of these calls.  The theorems follow a run on a store and a
    disk that work: every event that was written is in the table, the queue or
    a sealed block at any time, the write-ahead log holds exactly the table,
    and after the stop everything is in blocks, where queries find it. *)
From Stdlib Require Import QArith_base.
From S2P Require Import Prelude GoTime GoFmt GoOs Pebble PebbleRef Keys Wal IdxDB Expiry Event Memtable.
From S2P Require Import Bloom Format Tier World Sealer RingBuf BlockReader Merger Index BloomCache Query Writer.
#[local] Open Scope Z_scope.

(** ** The loop *)
Inductive Input :=
  | Written (events : list Event)
  | Tick (now : time).

Section loop.
Context `{PebbleOps} `{SliceSort} `{MapOrder} `{BloomLib} `{Zstd}.

(** [None] when a push finds the buffer full: it spins until the next tick. *)
Fixpoint run_loop (ins : list Input) (sw : ShardWriter) (w : World) : option (ShardWriter * World) :=
  match ins with
  | [] => Some (sw, w)
  | Written es :: r =>
      match sw_Write false sw es with
      | Some (sw, Ok _) => run_loop r sw w
      | _ => None
      end
  | Tick now :: r =>
      match flushAndMaybeSeal false now sw w with
      | Some (sw, w) => run_loop r sw w
      | None => None
      end
  end.

(** The goroutine from its start to the end of [Stop]. *)
Definition run (ins : list Input) (stopAt : time) (sw : ShardWriter) (w : World)
  : option (ShardWriter * World) :=
  match run_loop ins sw w with
  | Some (sw, w) => sw_Stop stopAt sw w
  | None => None
  end.
End loop.

(** ** Inputs *)
Fixpoint written (ins : list Input) : list Event :=
  match ins with
  | [] => []
  | Written es :: r => es ++ written r
  | Tick _ :: r => written r
  end.

(** The clock does not go back: readings from [t] on. *)
Fixpoint clock (t : time) (ins : list Input) (stopAt : time) : Prop :=
  match ins with
  | [] => t <= stopAt ∧ is_i64 stopAt
  | Written _ :: r => clock t r stopAt
  | Tick now :: r => t <= now ∧ is_i64 now ∧ clock now r stopAt
  end.

(** The queue never exceeds [cap] events between two ticks. *)
Fixpoint fits (cap : Z) (queue : Z) (ins : list Input) : Prop :=
  match ins with
  | [] => True
  | Written es :: r => queue + zlen es <= cap ∧ fits cap (queue + zlen es) r
  | Tick _ :: r => fits cap 0 r
  end.

(** A tick seals a table of [b] bytes opened at [o] because the hour is over. *)
Definition hour_over (now o : time) (b : Z) : bool := negb (b =? 0) && negb (now - now mod Hour =? o).

(** The writer's table, of [b] bytes and opened at [o], stays below the size
    limit within an hour and within what a block file can hold. *)
Fixpoint paced (limit o b : Z) (ins : list Input) : Prop :=
  match ins with
  | [] => b < 2 ^ 44
  | Written es :: r => paced limit o (b + rows_bytes es) r
  | Tick now :: r =>
      b < 2 ^ 44 ∧
      if hour_over now o b then paced limit (now - now mod Hour) 0 r
      else b < limit ∧ paced limit o b r
  end.

(** ** Sizes of block files

    What compression may add at most; the zstd format adds far less. *)
Definition zstd_bound `{Zstd} : Prop := ∀ b, zlen (EncodeAll b) <= 2 * zlen b + 1024.

Lemma zlen_app {A} (l k : list A) : zlen (l ++ k) = zlen l + zlen k.
Proof. unfold zlen. rewrite length_app. lia. Qed.

Lemma column_raw_size (f : Event → bytes) es :
  (∀ e, zlen (f e) <= 16 + zlen (Payload e)) → zlen (concat (map f es)) <= rows_bytes es.
Proof.
  intros Hf. induction es as [|e es IH]; cbn [map concat rows_bytes foldr]; [done|].
  fold (rows_bytes es). rewrite zlen_app. specialize (Hf e). lia.
Qed.

Lemma zlen_be n x : zlen (be n x) = Z.of_nat n.
Proof. unfold zlen. by rewrite length_be. Qed.

Lemma block_file_small `{Zstd} hdr mt :
  zstd_bound → mt_ok mt → Forall event_ok (Rows mt) → rows_bytes (Rows mt) < 2 ^ 44 →
  zlen (block_file hdr mt) <= max_alloc.
Proof.
  intros Hz Hmt Hev Hb.
  destruct (file_parts hdr mt (rows_payloads _ Hmt Hev)) as [_ ->].
  assert (0 <= rows_bytes (Rows mt)) by apply rows_bytes_nonneg.
  rewrite (mt_of_Rows mt Hmt). cbn [KeyHashes Timestamps Payloads mt_of keyHashes timestamps payloads].
  unfold CompressUint64Column, CompressInt64Column, CompressBytesColumn. rewrite !map_map.
  pose proof (Hz (concat (map (fun e => be 8 (KeyHash e)) (Rows mt)))) as H1.
  pose proof (Hz (concat (map (fun e => be 8 (u64 (Timestamp e))) (Rows mt)))) as H2.
  pose proof (Hz (concat (map (fun e => be 4 (u32 (zlen (Payload e))) ++ Payload e) (Rows mt)))) as H3.
  assert (zlen (concat (map (fun e => be 8 (KeyHash e)) (Rows mt))) <= rows_bytes (Rows mt)) as R1
    by (apply column_raw_size; intros e; rewrite zlen_be; unfold zlen; lia).
  assert (zlen (concat (map (fun e => be 8 (u64 (Timestamp e))) (Rows mt))) <= rows_bytes (Rows mt)) as R2
    by (apply column_raw_size; intros e; rewrite zlen_be; unfold zlen; lia).
  assert (zlen (concat (map (fun e => be 4 (u32 (zlen (Payload e))) ++ Payload e) (Rows mt)))
          <= rows_bytes (Rows mt)) as R3
    by (apply column_raw_size; intros e; rewrite zlen_app, zlen_be; lia).
  unfold max_alloc. lia.
Qed.

(** ** The blocks as one database *)
Section durable.
Context `{Pebble} `{SliceSort} `{MapOrder} `{BloomLib} `{Zstd} `{XXHash}.

(** All events in sealed blocks. *)
Definition stored (blocks : gmap BlockID (Tier * Memtable)) : list Event :=
  concat (map (fun p => Rows p.2.2) (map_to_list blocks)).

Lemma stored_insert blocks id t mt :
  blocks !! id = None → stored (<[id := (t, mt)]> blocks) ≡ₚ stored blocks ++ Rows mt.
Proof.
  intros Hn. unfold stored. rewrite (map_to_list_insert _ _ _ Hn). cbn [map concat snd].
  apply Permutation_app_comm.
Qed.

Lemma elem_of_stored blocks e :
  e ∈ stored blocks ↔ ∃ id t mt, blocks !! id = Some (t, mt) ∧ e ∈ Rows mt.
Proof.
  unfold stored. rewrite list_elem_of_In, in_concat. split.
  - intros (l & ([id [t mt]] & <- & Hp)%in_map_iff & He).
    apply list_elem_of_In, elem_of_map_to_list in Hp. exists id, t, mt. by rewrite list_elem_of_In.
  - intros (id & t & mt & Hb & He). exists (Rows mt). split; [|by apply list_elem_of_In].
    apply in_map_iff. exists (id, (t, mt)). split; [done|].
    by apply list_elem_of_In, elem_of_map_to_list.
Qed.

(** Logging changes the shard's log and counter only. *)
Definition log_key (s : ShardID) (k : bytes) : Prop := (∃ q, k = WALKey s q) ∨ k = WALSeqKey s.

Lemma log_events_other s es mt w k :
  ¬ log_key s k → view (db (log_events s es mt w).2) !! k = view (db w) !! k.
Proof.
  intros Hk. revert mt w. induction es as [|e es IH]; intros mt w; cbn [log_events]; [done|].
  rewrite IH. unfold st_exec. destruct (on_db _ w) as [w1 r] eqn:E. cbn [fst].
  apply on_db_inv in E as [E _]. apply WALAppend_any in E.
  assert (WALSeqKey s ≠ k) by (intros <-; apply Hk; by right).
  assert (∀ q, WALKey s q ≠ k) by (intros q <-; apply Hk; left; eauto).
  destruct E as [[_ [-> | ->]] | ->]; rewrite ?lookup_insert_ne by done; done.
Qed.

Lemma log_events_fs s es mt w : fs (log_events s es mt w).2 = fs w.
Proof.
  revert mt w. induction es as [|e es IH]; intros mt w; cbn [log_events]; [done|]. rewrite IH.
  unfold st_exec. destruct (on_db _ w) as [w1 r] eqn:E. by apply on_db_inv in E as [_ ?].
Qed.

Lemma BlockKey_not_log s id : ¬ log_key s (BlockKey id).
Proof. intros [[q E]|E]; [by apply (WALKey_ne_BlockKey s q id)|by apply BlockKey_ne_SeqKey in E]. Qed.

Lemma IdxKey_not_log s et kh id : ¬ log_key s (IdxKey et kh id).
Proof. intros [[q E]|E]; [by apply (WALKey_ne_IdxKey s q et kh id)|by apply IdxKey_ne_SeqKey in E]. Qed.

Lemma ExpiryKey_not_log s h id : ¬ log_key s (ExpiryKey h id).
Proof. intros [[q E]|E]; [by apply (WALKey_ne_ExpiryKey s q h id)|by apply ExpiryKey_ne_SeqKey in E]. Qed.

Lemma SeqKey_not_log s s' : is_u16 s → is_u16 s' → s' ≠ s → ¬ log_key s (WALSeqKey s').
Proof.
  intros Hs Hs' Hne [[q E]|E]; [by apply (WALKey_ne_SeqKey s q s')|].
  by apply WALSeqKey_inj in E.
Qed.

Lemma consistent_ext tiers cstore blocks m m' f :
  consistent tiers cstore blocks m f → db_ok m' →
  (∀ id, m' !! BlockKey id = m !! BlockKey id) →
  (∀ et kh id, m' !! IdxKey et kh id = m !! IdxKey et kh id) →
  consistent tiers cstore blocks m' f.
Proof.
  intros [Cdb Cmeta Cnone Cfile Csort Cbloom Cidx] Hdb Hb Hi. split; try done.
  - intros id t mt E. rewrite Hb. by apply (Cmeta id t mt).
  - intros id E. rewrite Hb. by apply Cnone.
  - intros id t mt e E He. destruct (Cidx id t mt e E He) as (et & Het & v & Hv).
    exists et. split; [done|]. exists v. by rewrite Hi.
Qed.

(** ** The setting of a run

    A store and a disk that work, a filter library that can encode, tiers that
    do not share paths with the files this writer's seals touch. *)
Context (W : pdb → Prop) (tiers : gmap Tier TierStore) (store : TierStore).

Record setting (s : ShardID) (cfg : WriterConfig) : Prop := {
  st_shard : is_u16 s ∧ s < 65535;
  st_store : wc_Store cfg = Some store;
  st_laws : TierLaws store;
  st_hot : tiers !! TierHot = Some store;
  st_apart t store' id req :
    tiers !! t = Some store' → t ≠ TierHot → block_id_ok id →
    sealreq_ok req → sr_Store req = store → sr_TmpDir req = wc_TmpDir cfg → sr_Shard req = s →
    BlockPath store' id ∉ seal_paths req;
  st_reads : reads_work W;
  st_writes : writes_work W;
  st_zstd : zstd_bound;
  st_bloom b : ∃ data, Serialize b = Ok data;
}.

(** Events in blocks of this shard opened between [lo] and [t]. *)
Definition in_new_blocks (s : ShardID) (lo t : time) (blocks : gmap BlockID (Tier * Memtable))
    (new : list Event) : Prop :=
  ∀ e, e ∈ new → ∃ o mt, lo <= o <= t ∧ is_i64 o ∧
                 blocks !! BlockIDForShard s o = Some (TierHot, mt) ∧ e ∈ Rows mt.

(** The state between two inputs, after the events [all]: what is in newly
    sealed blocks, in the table and in the queue adds up to them, and the log
    mirrors the table.  [t] is the last reading of the clock. *)
Record accounted (s : ShardID) (cfg : WriterConfig) (lo : time) (blocks0 : gmap BlockID (Tier * Memtable))
    (all : list Event) (t : time) (k : Z) (sw : ShardWriter) (w : World)
    (blocks : gmap BlockID (Tier * Memtable)) : Prop := {
  ac_shard : sw_shard sw = s;
  ac_cfg : sw_cfg sw = cfg;
  ac_ring : ring_ok (sw_ring sw);
  ac_mt : mt_ok (sw_memtable sw);
  ac_bytes : approxBytes (sw_memtable sw) = rows_bytes (Rows (sw_memtable sw));
  ac_wal : wal_ok (view (db w));
  ac_log : wal_log s (view (db w)) = map json_Marshal (Rows (sw_memtable sw));
  ac_seq : seq_room s k (view (db w));
  ac_W : W (db w);
  ac_disk : sched (fs w) = [];
  ac_co : consistent tiers store blocks (view (db w)) (files (fs w));
  ac_names id t' mt : blocks !! id = Some (t', mt) → block_id_ok id;
  ac_index : index_sound store blocks (view (db w)) (files (fs w));
  ac_opened : sw_openedAt sw mod Hour = 0 ∧ 0 <= lo <= sw_openedAt sw ∧ sw_openedAt sw <= t ∧ is_i64 t;
  ac_events : ∃ new, new ++ Rows (sw_memtable sw) ++ ring_content (sw_ring sw) ≡ₚ all ∧
                     stored blocks ≡ₚ stored blocks0 ++ new ∧ in_new_blocks s lo t blocks new;
}.
#[local] Arguments ac_shard {s cfg lo blocks0 all t k sw w blocks} _.
#[local] Arguments ac_cfg {s cfg lo blocks0 all t k sw w blocks} _.
#[local] Arguments ac_ring {s cfg lo blocks0 all t k sw w blocks} _.
#[local] Arguments ac_mt {s cfg lo blocks0 all t k sw w blocks} _.
#[local] Arguments ac_wal {s cfg lo blocks0 all t k sw w blocks} _.
#[local] Arguments ac_seq {s cfg lo blocks0 all t k sw w blocks} _.
#[local] Arguments ac_bytes {s cfg lo blocks0 all t k sw w blocks} _.
#[local] Arguments ac_log {s cfg lo blocks0 all t k sw w blocks} _.
#[local] Arguments ac_names {s cfg lo blocks0 all t k sw w blocks} _ _ _ _ _.
#[local] Arguments ac_index {s cfg lo blocks0 all t k sw w blocks} _.
#[local] Arguments ac_opened {s cfg lo blocks0 all t k sw w blocks} _.
#[local] Arguments ac_events {s cfg lo blocks0 all t k sw w blocks} _.

(** The name the next seal would use, and later ones, are not taken. *)
Definition fresh (s : ShardID) (opened : time) (blocks : gmap BlockID (Tier * Memtable)) : Prop :=
  ∀ o, is_i64 o → opened <= o → blocks !! BlockIDForShard s o = None.

Lemma BlockIDForShard_hour s o o' :
  is_u16 s → is_i64 o → is_i64 o' → BlockIDForShard s o = BlockIDForShard s o' →
  o - o mod Hour = o' - o' mod Hour.
Proof.
  intros Hs Ho Ho' E. pose proof (parse_BlockIDForShard s o Hs Ho) as P.
  rewrite E, parse_BlockIDForShard in P by done. by injection P.
Qed.

Lemma fresh_insert s opened opened' blocks b :
  is_u16 s → is_i64 opened → opened mod Hour = 0 → opened + Hour <= opened' → fresh s opened blocks →
  fresh s opened' (<[BlockIDForShard s opened := b]> blocks).
Proof.
  intros Hs Hi Hm Hlt Hf o Ho Hle. rewrite lookup_insert_ne; [apply Hf; [done|]|].
  - unfold Hour, Minute, Second in *. lia.
  - intros E. apply BlockIDForShard_hour in E; [|done..]. rewrite Hm in E.
    pose proof (Z.mod_pos_bound o Hour). unfold Hour, Minute, Second in *. lia.
Qed.

Lemma accounted_write s cfg lo blocks0 all t k sw w blocks es sw' :
  accounted s cfg lo blocks0 all t k sw w blocks →
  sw_Write false sw es = Some (sw', Ok tt) →
  accounted s cfg lo blocks0 (all ++ es) t k sw' w blocks ∧
  ring_content (sw_ring sw') = ring_content (sw_ring sw) ++ es ∧
  length (buf (sw_ring sw')) = length (buf (sw_ring sw)).
Proof.
  intros A E. apply sw_Write_spec in E as (-> & Hok & Hb & n & Hc & Htake); [|apply A].
  cbn [sw_ring] in *. rewrite (Htake eq_refl) in Hc. split; [|done].
  destruct A; split; cbn [sw_shard sw_cfg sw_ring sw_memtable sw_openedAt]; try done.
  destruct ac_events0 as (new & Hall & Hst & Hnew). exists new. split; [|done].
  by rewrite Hc, <- Hall, <- !app_assoc.
Qed.

(** Draining: the queue goes to the table and to the log. *)
Lemma accounted_log s cfg lo blocks0 all t k sw w blocks ring' events :
  setting s cfg → accounted s cfg lo blocks0 all t k sw w blocks →
  DrainAll (sw_ring sw) = Some (ring', events) → zlen events <= k →
  rows_bytes (Rows (sw_memtable sw) ++ events) < 2 ^ 63 →
  let '(mt, w1) := log_events s events (sw_memtable sw) w in
  accounted s cfg lo blocks0 all t (k - zlen events)
    (mkWriter s cfg ring' mt (sw_openedAt sw)) w1 blocks ∧
  Rows mt = Rows (sw_memtable sw) ++ events ∧
  ring_content ring' = [] ∧ length (buf ring') = length (buf (sw_ring sw)).
Proof.
  intros S A ED Hk Hbytes. pose proof A as [As Ac (j & l & p & R) Am Ab Aw Al Aq AW Ad Aco An Acl Ao Ae].
  destruct (DrainAll_rep _ _ _ _ R) as (ring2 & ED2 & R2). rewrite ED2 in ED. injection ED as -> <-.
  rewrite (ring_content_rep _ _ _ _ R) in Ae. destruct (st_shard _ _ S) as [Hs Hlt].
  pose proof (log_events_spec s k (drop p l) (sw_memtable sw) w Hs Hlt Aw Aq Hk Am) as Hlog.
  pose proof (fun key => log_events_other s (drop p l) (sw_memtable sw) w key) as Hoth.
  destruct (log_events s (drop p l) (sw_memtable sw) w) as [mt w1]. cbn [snd] in Hoth.
  destruct Hlog as (-> & Hf & Hw1 & Hq1 & _ & lg & Hlg & _ & Hworks).
  destruct (Hworks W (st_reads _ _ S) (st_writes _ _ S) AW) as [-> HW1].
  destruct (fold_Append_ok (drop p l) (sw_memtable sw) Am) as [Hmt Hrows].
  destruct Ae as (new & Hall & Hst & Hnew). rewrite rows_bytes_app in Hbytes.
  pose proof (rows_bytes_nonneg (Rows (sw_memtable sw))).
  assert (ring_content ring' = []) as Hempty
    by (rewrite (ring_content_rep _ _ _ _ R2), drop_ge by lia; done).
  split; [|split; [done|split; [done|by rewrite (rep_buf _ _ _ _ R2), (rep_buf _ _ _ _ R)]]].
  split; cbn [sw_shard sw_cfg sw_ring sw_memtable sw_openedAt]; try done.
  - by exists j, l, (length l).
  - rewrite fold_Append_bytes, Hrows, rows_bytes_app by lia. lia.
  - by rewrite Hlg, Al, Hrows, map_app.
  - by rewrite Hf.
  - rewrite Hf. eapply consistent_ext; [done|apply Hw1|..]; intros; apply Hoth;
      [apply BlockKey_not_log|apply IdxKey_not_log].
  - rewrite Hf. intros et kh id Hkh [v Hv]. rewrite Hoth in Hv by apply IdxKey_not_log.
    apply (Acl et kh id Hkh). by exists v.
  - exists new. rewrite Hempty, app_nil_r, Hrows. done.
Qed.

(** What this writer asks the sealer for. *)
Lemma writer_request s cfg lo blocks0 all t k sw w blocks now :
  setting s cfg → accounted s cfg lo blocks0 all t k sw w blocks → Forall event_ok all →
  is_i64 now → let req := seal_request sw store now in
  sealreq_ok req ∧ seal_id req = BlockIDForShard s (sw_openedAt sw) ∧
  seal_apart tiers blocks req.
Proof.
  intros S A Hev Hnow req. pose proof A as [As Ac Ar Am Ab Aw Al Aq AW Ad Aco An Acl Ao Ae].
  destruct Ao as (Hom & Hlo & Hot & Hti). destruct (st_shard _ _ S) as [Hs _].
  assert (is_i64 (sw_openedAt sw)) as Hoi by (unfold is_i64 in *; lia).
  destruct Ae as (new & Hall & _).
  assert (sealreq_ok req) as Hreq; [|split; [done|split]].
  - unfold sealreq_ok, req, seal_request, UnixNano.
    cbn [sr_Shard sr_EventType sr_OpenedAt sr_SealedAt sr_Memtable]. rewrite !i64_id by done.
    rewrite As. split; [done|]. split; [apply u8_range|]. do 2 (split; [done|]). split; [|done].
    rewrite <- Hall in Hev. apply Forall_app in Hev as [_ Hev]. by apply Forall_app in Hev as [Hev _].
  - unfold seal_id, req, seal_request, UnixNano. cbn [sr_Shard sr_OpenedAt]. by rewrite i64_id, As.
  - split; [done|]. split; [apply S|]. intros t' store' id' Ht Hne Hid'. eapply (st_apart _ _ S); eauto.
    cbn. by rewrite Ac.
Qed.

(** An hour that is over is over by at least an hour's start. *)
Lemma next_hour o now :
  o mod Hour = 0 → o <= now → now - now mod Hour ≠ o - o mod Hour → o + Hour <= now - now mod Hour.
Proof.
  intros Hom Hle Hne. assert (0 < Hour) by done.
  assert (o / Hour <= now / Hour) by (apply Z.div_le_mono; [done|lia]).
  rewrite !floor_div in *. pose proof (floor_div o) as Ho. rewrite Hom in Ho.
  assert (now / Hour ≠ o / Hour) by congruence.
  assert (Hour * (o / Hour + 1) <= Hour * (now / Hour)) by (apply Z.mul_le_mono_nonneg_l; lia). lia.
Qed.

(** Sealing: the table goes to a new block, and the log is empty. *)
Lemma accounted_seal s cfg lo blocks0 all t k sw w blocks now :
  setting s cfg → accounted s cfg lo blocks0 all t k sw w blocks → fresh s (sw_openedAt sw) blocks →
  Forall event_ok all → rows_bytes (Rows (sw_memtable sw)) < 2 ^ 44 → t <= now → is_i64 now →
  let o' := now - now mod Hour in
  let req := seal_request sw store now in
  let w' := (Seal req w).1 in
  accounted s cfg lo blocks0 all now k (mkWriter s cfg (sw_ring sw) NewMemtable o') w'
    (<[BlockIDForShard s (sw_openedAt sw) := (TierHot, Sort (sw_memtable sw))]> blocks) ∧
  view (db w') = sealed_db req (view (db w)) ∧
  ∀ q, q ∉ seal_paths req → files (fs w') !! q = files (fs w) !! q.
Proof.
  intros S A Hfresh Hev Hb Hle Hnow o' req.
  destruct (writer_request _ _ _ _ _ _ _ _ _ _ now S A Hev Hnow) as (Hreq & Hid & Hap).
  pose proof A as [As Ac Ar Am Ab Aw Al Aq AW Ad Aco An Acl Ao Ae].
  destruct (st_shard _ _ S) as [Hs _]. destruct Ao as (Hom & Hlo & Hot & Hti).
  assert (is_i64 (sw_openedAt sw)) as Hoi by (unfold is_i64 in *; lia).
  fold req in Hreq, Hid, Hap. pose proof (st_laws _ _ S) as Hlaws.
  change (TierLaws (sr_Store req)) in Hlaws. cbv zeta.
  destruct (Seal req w) as [w' r] eqn:E. cbn [fst].
  pose proof (fun q => Seal_frame req w w' r q Hlaws E) as Hframe.
  destruct (st_bloom _ _ S (BuildBloomFromMemtable (Sort (sr_Memtable req)) (sr_BloomFPR req))) as [data Hdata].
  destruct (Seal_runs W req w w' r data Hlaws Hreq (st_writes _ _ S) AW Ad Hdata E) as (-> & HW' & Hd').
  pose proof (Seal_outcome req w w' _ Hlaws Hreq Aw E) as [Hw' [[[e He] _]|(_ & Hlog & _)]]; [done|].
  assert (zlen (block_file (seal_header req (Sort (sr_Memtable req))) (Sort (sr_Memtable req))) <= max_alloc).
  { destruct Hreq as (_ & _ & _ & _ & Hrows & _). apply block_file_small; [apply S|apply Sort_ok|by apply Sort_events|].
    rewrite (rows_bytes_perm _ _ (Sort_perm _)). change (sr_Memtable req) with (sw_memtable sw). lia. }
  pose proof (Seal_consistent tiers blocks req w w' _ Hlaws Hreq ltac:(done) Hap Aco E) as Hco.
  apply Seal_cases in E as [[[e He] _]|[_ Hview]]; [done| |done|done].
  rewrite Hid in Hco. pose proof (Hfresh (sw_openedAt sw) Hoi ltac:(lia)) as Hnone.
  assert (0 <= now mod Hour < Hour) by (apply Z.mod_pos_bound; reflexivity).
  split; [|done].
  split; cbn [sw_shard sw_cfg sw_ring sw_memtable sw_openedAt]; try done.
  - specialize (Hlog s Hs). change (sr_Shard req) with (sw_shard sw) in Hlog. rewrite As in Hlog.
    by rewrite decide_True in Hlog.
  - destruct Aq as [Hk Hq]. split; [done|]. intros n Hn Hl. apply (Hq n Hn).
    rewrite Hview in Hl. unfold sealed_db in Hl. rewrite sealed_view_other in Hl by auto with bbdb.
    by rewrite put_idx_other in Hl by auto with bbdb.
  - intros id t' mt [[<- _]|[_ Hl]]%lookup_insert_Some; [|by eapply An].
    rewrite <- Hid. by apply seal_id_ok.
  - rewrite <- Hid. intros et kh id Hkh. rewrite Hview, sealed_db_indexed by done.
    destruct (decide (seal_id req = id)) as [<-|Hne]; [intros _; split; [by apply seal_id_ok|by rewrite lookup_insert_eq]|].
    intros [(_ & _ & ->)|Hi]; [done|]. destruct (Acl et kh id Hkh Hi) as [Hok Hstray]. split; [done|].
    rewrite lookup_insert_ne by done. intros Hnb dt. rewrite Hframe; [by apply Hstray|].
    by apply (seal_paths_other req id Hlaws Hreq Hok (not_eq_sym Hne)).
  - split; [|split; [|split; [|done]]]; unfold o'.
    + rewrite floor_div, Z.mul_comm. by apply Z.mod_mul.
    + destruct (decide (now - now mod Hour = sw_openedAt sw - sw_openedAt sw mod Hour)) as [He|He]; [rewrite Hom in He; lia|].
      pose proof (next_hour (sw_openedAt sw) now Hom ltac:(lia) He). unfold Hour, Minute, Second in *. lia.
    + lia.
  - destruct Ae as (new & Hall & Hst & Hnew). exists (new ++ Rows (sw_memtable sw)).
    split; [by rewrite <- Hall, <- app_assoc|].
    split; [by rewrite (stored_insert _ _ _ _ Hnone), Hst, Sort_perm, app_assoc|].
    intros e [He|He]%elem_of_app.
    + destruct (Hnew e He) as (o & mt & Ho & Hi & Hb' & Hr). exists o, mt. split; [lia|].
      split; [done|]. rewrite lookup_insert_ne by congruence. done.
    + exists (sw_openedAt sw), (Sort (sw_memtable sw)). rewrite lookup_insert_eq, Sort_perm.
      split; [lia|done].
Qed.

Lemma accounted_later s cfg lo blocks0 all t t' k sw w blocks :
  accounted s cfg lo blocks0 all t k sw w blocks → t <= t' → is_i64 t' →
  accounted s cfg lo blocks0 all t' k sw w blocks.
Proof.
  intros [] Hle Ht. split; try done.
  - destruct ac_opened0 as (? & ? & ? & ?). do 2 (split; [done|]). split; [lia|done].
  - destruct ac_events0 as (new & Hall & Hst & Hnew). exists new. do 2 (split; [done|]).
    intros e He. destruct (Hnew e He) as (o & mt & Ho & Hr). exists o, mt. split; [lia|done].
Qed.

(** When a flush seals, with the sizes of table and queue. *)
Lemma rows_bytes_zero es : (rows_bytes es =? 0) = (zlen es =? 0).
Proof.
  destruct es as [|e es]; [done|]. cbn [rows_bytes foldr]. fold (rows_bytes es).
  pose proof (rows_bytes_nonneg es). unfold zlen. simpl length. zcases; lia.
Qed.

Lemma seal_due_sizes (force : bool) now sw mt limit :
  sw_openedAt sw mod Hour = 0 → approxBytes mt = rows_bytes (Rows mt) →
  wc_MaxBlockBytes (sw_cfg sw) = limit →
  let b := rows_bytes (Rows mt) in
  (if force then true else hour_over now (sw_openedAt sw) b || (b <? limit)) = true →
  seal_due force now sw mt = if force then negb (zlen (Rows mt) =? 0) else hour_over now (sw_openedAt sw) b.
Proof.
  intros Hom Hb <- b. subst b. unfold seal_due, hour_over, ApproxBytes.
  rewrite Len_Rows, <- rows_bytes_zero, Hb, Hom, Z.sub_0_r. generalize (rows_bytes (Rows mt)).
  intros b Hlim. destruct force; [by rewrite andb_true_r|].
  destruct (b =? 0), (now - now mod Hour =? sw_openedAt sw); cbn in *; try done.
  apply Z.ltb_lt in Hlim. apply Z.leb_gt. done.
Qed.

(** What a flush does to the store and the disk: nothing but the shard's log
    changes, or the table is sealed as well. *)
Definition flush_effect (s : ShardID) (cfg : WriterConfig) (now : time) (sw sw' : ShardWriter) (w w' : World)
    (blocks blocks' : gmap BlockID (Tier * Memtable)) : Prop :=
  let held x := Rows (sw_memtable x) ++ ring_content (sw_ring x) in
  (blocks' = blocks ∧ sw_openedAt sw' = sw_openedAt sw ∧ held sw' = held sw ∧ files (fs w') = files (fs w) ∧
   ∀ k, ¬ log_key s k → view (db w') !! k = view (db w) !! k) ∨
  ∃ ring mt m1,
    let req := seal_request (mkWriter s cfg ring mt (sw_openedAt sw)) store now in
    sealreq_ok req ∧ seal_id req = BlockIDForShard s (sw_openedAt sw) ∧
    Rows mt = held sw ∧ held sw' = [] ∧
    blocks' = <[seal_id req := (TierHot, Sort mt)]> blocks ∧ sw_openedAt sw' = now - now mod Hour ∧
    (∀ k, ¬ log_key s k → m1 !! k = view (db w) !! k) ∧ view (db w') = sealed_db req m1 ∧
    ∀ q, q ∉ seal_paths req → files (fs w') !! q = files (fs w) !! q.

(** A flush: the queue is empty afterwards; a forced one leaves nothing in the
    table either. *)
Lemma accounted_flush (force : bool) s cfg lo blocks0 all t k sw w blocks now :
  setting s cfg → accounted s cfg lo blocks0 all t k sw w blocks → fresh s (sw_openedAt sw) blocks →
  Forall event_ok all → t <= now → is_i64 now → zlen (ring_content (sw_ring sw)) <= k →
  let b := rows_bytes (Rows (sw_memtable sw) ++ ring_content (sw_ring sw)) in
  let over := hour_over now (sw_openedAt sw) b in
  b < 2 ^ 44 → (if force then true else over || (b <? wc_MaxBlockBytes cfg)) = true →
  ∃ sw' w' blocks', flushAndMaybeSeal force now sw w = Some (sw', w') ∧
    accounted s cfg lo blocks0 all now (k - zlen (ring_content (sw_ring sw))) sw' w' blocks' ∧
    ring_content (sw_ring sw') = [] ∧ length (buf (sw_ring sw')) = length (buf (sw_ring sw)) ∧
    flush_effect s cfg now sw sw' w w' blocks blocks' ∧
    if force then Rows (sw_memtable sw') = []
    else fresh s (sw_openedAt sw') blocks' ∧
         (sw_openedAt sw', Rows (sw_memtable sw'))
         = if over then (now - now mod Hour, [])
           else (sw_openedAt sw, Rows (sw_memtable sw) ++ ring_content (sw_ring sw)).
Proof.
  intros S A Hf Hev Hle Hnow Hk b over H44 Hlim.
  destruct (ac_ring A) as (j & l & p & R).
  destruct (DrainAll_rep _ _ _ _ R) as (ring' & ED & R'). rewrite (flush_unfold _ _ _ _ _ _ ED).
  subst over b. rewrite (ring_content_rep _ _ _ _ R) in *.
  assert (rows_bytes (Rows (sw_memtable sw) ++ drop p l) < 2 ^ 63) as H63 by lia.
  pose proof (accounted_log _ _ _ _ _ _ _ _ _ _ _ _ S A ED Hk H63) as Hlog.
  rewrite (ac_shard A), (ac_cfg A), (st_store _ _ S).
  pose proof (fun key => log_events_other s (drop p l) (sw_memtable sw) w key) as Hoth.
  pose proof (log_events_fs s (drop p l) (sw_memtable sw) w) as Hfs.
  destruct (log_events s (drop p l) (sw_memtable sw) w) as [mt w1]. cbn [snd] in Hoth, Hfs.
  destruct Hlog as (A1 & Hrows & Hempty & Hbuf). rewrite <- Hrows in *.
  set (sw1 := mkWriter s cfg ring' mt (sw_openedAt sw)) in *.
  destruct (ac_opened A) as (Hom & Hlo & Ho & Hti). destruct (st_shard _ _ S) as [Hs _].
  assert (is_i64 (sw_openedAt sw)) as Hoi by (unfold is_i64 in *; lia).
  rewrite (seal_due_sizes force now sw mt (wc_MaxBlockBytes cfg) Hom (ac_bytes A1))
    by (done || by rewrite (ac_cfg A)).
  destruct (accounted_seal _ _ _ _ _ _ _ _ _ _ now S A1 Hf Hev H44 Hle Hnow) as (A2 & Hview & Hframe).
  destruct (writer_request _ _ _ _ _ _ _ _ _ _ now S A1 Hev Hnow) as (Hreq & Hid & _).
  assert (Rows mt = Rows (sw_memtable sw) ++ ring_content (sw_ring sw)) as Hheld by by rewrite Hrows, (ring_content_rep _ _ _ _ R).
  assert (flush_effect s cfg now sw (mkWriter s cfg ring' NewMemtable (now - now mod Hour)) w
            (Seal (seal_request sw1 store now) w1).1 blocks
            (<[BlockIDForShard s (sw_openedAt sw) := (TierHot, Sort mt)]> blocks)) as Hsealed.
  { right. exists ring', mt, (view (db w1)). cbv zeta. fold sw1. change (sw_openedAt sw1) with (sw_openedAt sw) in Hid.
    rewrite Hid. do 3 (split; [done|]). split; [done|]. do 4 (split; [done|]). intros q Hq. by rewrite Hframe, Hfs. }
  assert (flush_effect s cfg now sw sw1 w w1 blocks blocks) as Hkept.
  { left. cbn [sw1 sw_memtable sw_ring]. by rewrite Hempty, app_nil_r, Hheld, Hfs. }
  pose proof (accounted_later _ _ _ _ _ _ _ _ _ _ _ A1 Hle Hnow) as A3.
  destruct force.
  - destruct (zlen (Rows mt) =? 0) eqn:Hz; cbn [negb]; eexists _, _, _; (split; [reflexivity|]).
    2: { do 3 (split; [done|]). by split; [exact Hsealed|]. }
    do 3 (split; [done|]). split; [exact Hkept|]. cbn [sw_memtable sw1]. apply Z.eqb_eq in Hz. unfold zlen in Hz.
    destruct (Rows mt); [done|simpl in Hz; lia].
  - destruct (hour_over now (sw_openedAt sw) (rows_bytes (Rows mt))) eqn:Hover;
      eexists _, _, _; (split; [reflexivity|]); (split; [done|]); do 2 (split; [done|]);
      [split; [exact Hsealed|]|split; [exact Hkept|done]].
    split; [|done]. change (sw_openedAt sw1) with (sw_openedAt sw).
    apply fresh_insert; try done. apply next_hour; [done|lia|].
    unfold hour_over in Hover. apply andb_true_iff in Hover as [_ Hne%negb_true_iff%Z.eqb_neq].
    by rewrite Hom, Z.sub_0_r.
Qed.

(** A flush leaves the logs and counters of other shards alone. *)
Lemma flush_frame force s cfg lo blocks0 all t k sw w blocks now sw' w' s' :
  setting s cfg → accounted s cfg lo blocks0 all t k sw w blocks → Forall event_ok all →
  is_i64 now → zlen (ring_content (sw_ring sw)) <= k →
  rows_bytes (Rows (sw_memtable sw) ++ ring_content (sw_ring sw)) < 2 ^ 63 →
  flushAndMaybeSeal force now sw w = Some (sw', w') → is_u16 s' → s' ≠ s →
  wal_log s' (view (db w')) = wal_log s' (view (db w)) ∧
  view (db w') !! WALSeqKey s' = view (db w) !! WALSeqKey s'.
Proof.
  intros S A Hev Hnow Hk H63 E Hs' Hne. destruct (st_shard _ _ S) as [Hs Hlt].
  destruct (ac_ring A) as (j & l & p & R). destruct (DrainAll_rep _ _ _ _ R) as (ring' & ED & R').
  rewrite (flush_unfold _ _ _ _ _ _ ED), (ac_shard A), (ac_cfg A), (st_store _ _ S) in E.
  rewrite (ring_content_rep _ _ _ _ R) in *.
  pose proof (log_events_spec s k (drop p l) (sw_memtable sw) w Hs Hlt (ac_wal A) (ac_seq A) Hk (ac_mt A)) as Hlog.
  pose proof (accounted_log _ _ _ _ _ _ _ _ _ _ _ _ S A ED Hk H63) as A1.
  pose proof (log_events_other s (drop p l) (sw_memtable sw) w _ (SeqKey_not_log s s' Hs Hs' Hne)) as Hseq.
  destruct (log_events s (drop p l) (sw_memtable sw) w) as [mt w1]. cbn [snd] in Hseq.
  destruct Hlog as (_ & _ & Hw1 & _ & Hoth & _). destruct A1 as [A1 _].
  destruct (seal_due force now sw mt); [|injection E as <- <-; by rewrite Hoth].
  destruct (writer_request _ _ _ _ _ _ _ _ _ _ now S A1 Hev Hnow) as (Hreq & _).
  set (req := seal_request _ _ _) in *. pose proof (st_laws _ _ S) as Hlaws.
  change (TierLaws (sr_Store req)) in Hlaws. injection E as _ <-. fold req.
  destruct (Seal req w1) as [w2 r] eqn:ES. cbn [fst]. split.
  - rewrite <- Hoth by done.
    destruct (Seal_outcome req w1 w2 r Hlaws Hreq Hw1 ES) as [_ [(_ & Hl & _)|(_ & Hl & _)]];
      rewrite Hl by done; [done|]. rewrite decide_False; [done|]. by change (sr_Shard req) with s.
  - rewrite <- Hseq. apply Seal_cases in ES as [(_ & n & ->)|[_ ->]]; try done.
    + apply put_idx_other. auto with bbdb.
    + unfold sealed_db. rewrite sealed_view_other by auto with bbdb. apply put_idx_other. auto with bbdb.
Qed.

Lemma accounted_loop s cfg lo blocks0 ins all t k sw w blocks stopAt cap :
  setting s cfg → accounted s cfg lo blocks0 all t k sw w blocks → fresh s (sw_openedAt sw) blocks →
  Forall event_ok (all ++ written ins) → clock t ins stopAt →
  cap <= zlen (buf (sw_ring sw)) → fits cap (zlen (ring_content (sw_ring sw))) ins →
  zlen (ring_content (sw_ring sw)) + zlen (written ins) <= k →
  paced (wc_MaxBlockBytes cfg) (sw_openedAt sw)
    (rows_bytes (Rows (sw_memtable sw) ++ ring_content (sw_ring sw))) ins →
  ∃ sw' w' blocks' t' k', run_loop ins sw w = Some (sw', w') ∧
    accounted s cfg lo blocks0 (all ++ written ins) t' k' sw' w' blocks' ∧
    fresh s (sw_openedAt sw') blocks' ∧ t' <= stopAt ∧ zlen (ring_content (sw_ring sw')) <= k' ∧
    rows_bytes (Rows (sw_memtable sw') ++ ring_content (sw_ring sw')) < 2 ^ 44.
Proof.
  intros S. revert all t k sw w blocks.
  induction ins as [|[es|now] ins IH]; intros all t k sw w blocks A Hf Hev Hcl Hcap Hfit Hk Hp;
    cbn [run_loop written clock fits paced] in *.
  - exists sw, w, blocks, t, k. rewrite app_nil_r in *. unfold zlen at 2 in Hk. simpl in Hk.
    do 3 (split; [done|]). split; [lia|]. split; [lia|done].
  - destruct Hfit as [Hroom Hfit].
    destruct (sw_Write_room false sw es (ac_ring A)) as [sw1 E];
      [unfold zlen in *; lia|]. rewrite E.
    destruct (accounted_write _ _ _ _ _ _ _ _ _ _ _ _ A E) as (A1 & Hc & Hb).
    apply sw_Write_spec in E as (Esw & _); [|apply A].
    assert (sw_openedAt sw1 = sw_openedAt sw ∧ sw_memtable sw1 = sw_memtable sw) as [Eo Em] by by rewrite Esw.
    rewrite (app_assoc all es). apply (IH (all ++ es) t k sw1 w blocks); try done.
    + by rewrite Eo.
    + by rewrite <- app_assoc.
    + unfold zlen in *. by rewrite Hb.
    + by rewrite Hc, zlen_app.
    + rewrite Hc, zlen_app. rewrite zlen_app in Hk. lia.
    + by rewrite Eo, Em, Hc, app_assoc, rows_bytes_app.
  - destruct Hcl as (Hle & Hnow & Hcl), Hp as [H44 Hp]. pose proof (zlen_nonneg (written ins)).
    pose proof (zlen_nonneg (ring_content (sw_ring sw))).
    assert (Forall event_ok all) as Hall by by apply Forall_app in Hev as [? _].
    destruct (accounted_flush false s cfg lo blocks0 all t k sw w blocks now)
      as (sw1 & w1 & blocks1 & E & A1 & Hc & Hb & _ & Hf1 & Hst); try done; [lia|..].
    { destruct (hour_over _ _ _); [done|]. apply Z.ltb_lt, Hp. }
    rewrite E. apply (IH all now (k - zlen (ring_content (sw_ring sw))) sw1 w1 blocks1); try done.
    + unfold zlen in *. by rewrite Hb.
    + by rewrite Hc.
    + rewrite Hc. unfold zlen at 1. simpl. lia.
    + rewrite Hc, app_nil_r. destruct (hour_over _ _ _); injection Hst as -> ->; [done|apply Hp].
Qed.

(** *** Where a run starts: no leftovers of the shard, and no block of the
    current hour. *)
Record start (s : ShardID) (cfg : WriterConfig) (t0 : time) (k : Z)
    (blocks : gmap BlockID (Tier * Memtable)) (w : World) : Prop := {
  sa_time : 0 <= t0 ∧ is_i64 t0;
  sa_ring : wc_RingBufSize cfg <= 2 ^ 62;
  sa_wal : wal_ok (view (db w));
  sa_log : wal_log s (view (db w)) = [];
  sa_seq : seq_room s k (view (db w));
  sa_W : W (db w);
  sa_disk : sched (fs w) = [];
  sa_co : consistent tiers store blocks (view (db w)) (files (fs w));
  sa_names id t' mt : blocks !! id = Some (t', mt) → block_id_ok id;
  sa_index : index_sound store blocks (view (db w)) (files (fs w));
  sa_fresh : fresh s (t0 - t0 mod Hour) blocks;
}.

(** What the clients and the clock do. *)
Record inputs_ok (cfg : WriterConfig) (t0 : time) (ins : list Input) (stopAt : time) : Prop := {
  in_events : Forall event_ok (written ins);
  in_clock : clock t0 ins stopAt;
  in_fits : fits (Z.max (wc_RingBufSize cfg) 1) 0 ins;
  in_paced : paced (wc_MaxBlockBytes (with_limit cfg)) (t0 - t0 mod Hour) 0 ins;
}.

Lemma clock_le t ins stopAt : is_i64 t → clock t ins stopAt → t <= stopAt ∧ is_i64 stopAt.
Proof.
  revert t. induction ins as [|[es|now] ins IH]; intros t Ht Hc; cbn [clock] in Hc; [done|by apply IH|].
  destruct Hc as (? & Hn & Hc). apply IH in Hc; [|done]. split; [lia|apply Hc].
Qed.

Lemma accounted_new s cfg t0 blocks w ins stopAt :
  setting s (with_limit cfg) → start s cfg t0 (zlen (written ins)) blocks w →
  inputs_ok cfg t0 ins stopAt →
  ∃ sw0 sw w' blocks' t k, NewShardWriter s cfg t0 = Some sw0 ∧ run_loop ins sw0 w = Some (sw, w') ∧
    accounted s (with_limit cfg) (t0 - t0 mod Hour) blocks (written ins) t k sw w' blocks' ∧
    fresh s (sw_openedAt sw) blocks' ∧ t <= stopAt ∧ is_i64 stopAt ∧
    zlen (ring_content (sw_ring sw)) <= k ∧
    rows_bytes (Rows (sw_memtable sw) ++ ring_content (sw_ring sw)) < 2 ^ 44.
Proof.
  intros S [[Ht0 Hti] Hring Hwal Hlog Hseq HW Hd Hco Hn Hcl Hf] [Hev Hclk Hfit Hp].
  destruct (NewShardWriter_spec s cfg t0 Hring) as (ring & E & Hok & Hc & Hlen).
  unfold hourBoundary in E. rewrite Truncate_Hour in E.
  set (sw0 := mkWriter s (with_limit cfg) ring NewMemtable (t0 - t0 mod Hour)) in E.
  assert (accounted s (with_limit cfg) (t0 - t0 mod Hour) blocks [] t0 (zlen (written ins)) sw0 w blocks) as A.
  { split; try done; cbn [sw_openedAt sw_memtable sw_ring sw0].
    - split; [rewrite floor_div, Z.mul_comm; by apply Z.mod_mul|].
      assert (0 <= t0 mod Hour < Hour) by (by apply Z.mod_pos_bound).
      pose proof (Z.mod_le t0 Hour ltac:(lia) ltac:(done)). split; [lia|]. split; [lia|done].
    - exists []. rewrite Hc, (app_nil_r (stored blocks)). do 2 (split; [done|]).
      by intros e He%elem_of_nil. }
  destruct (accounted_loop s (with_limit cfg) (t0 - t0 mod Hour) blocks ins [] t0 (zlen (written ins)) sw0 w blocks stopAt
              (Z.max (wc_RingBufSize cfg) 1))
    as (sw & w' & blocks' & t & k & Er & A' & Hf' & Ht & Hk & Hb); try done; cbn [sw_ring sw0 sw_memtable sw_openedAt];
    rewrite ?Hc; try done.
  exists sw0, sw, w', blocks', t, k. do 5 (split; [done|]).
  split; [by eapply clock_le in Hclk as [_ ?]|done].
Qed.

(** A running writer accounts for every event.  Whatever clients write and
    whenever the clock ticks, on a store and a disk that work, with the
    buffer not overrun between ticks and the table below its limit within an
    hour: the loop never fails; the events in newly sealed blocks, in the
    table and in the queue are together exactly those written, each as often;
    the write-ahead log of the shard holds exactly the table, in order; and
    the database stays consistent, its index included.  So a crash at any
    point loses no more than the queue, if the log is replayed. *)
Theorem run_accounts_every_event s cfg t0 blocks w ins stopAt :
  setting s (with_limit cfg) → start s cfg t0 (zlen (written ins)) blocks w →
  inputs_ok cfg t0 ins stopAt →
  ∃ sw0 sw w' blocks' new, NewShardWriter s cfg t0 = Some sw0 ∧ run_loop ins sw0 w = Some (sw, w') ∧
    consistent tiers store blocks' (view (db w')) (files (fs w')) ∧
    wal_log s (view (db w')) = map json_Marshal (Rows (sw_memtable sw)) ∧
    stored blocks' ≡ₚ stored blocks ++ new ∧
    new ++ Rows (sw_memtable sw) ++ ring_content (sw_ring sw) ≡ₚ written ins.
Proof.
  intros S St In. destruct (accounted_new s cfg t0 blocks w ins stopAt S St In)
    as (sw0 & sw & w' & blocks' & t & k & E0 & E & A & _).
  destruct (ac_events A) as (new & Hall & Hst & Hnew).
  exists sw0, sw, w', blocks', new. do 2 (split; [done|]). split; [apply A|]. split; [apply A|done].
Qed.

(** After a stop. *)
Lemma run_stops s cfg t0 blocks w ins stopAt :
  setting s (with_limit cfg) → start s cfg t0 (zlen (written ins)) blocks w →
  inputs_ok cfg t0 ins stopAt →
  ∃ sw0 sw w' blocks' k, NewShardWriter s cfg t0 = Some sw0 ∧ run ins stopAt sw0 w = Some (sw, w') ∧
    accounted s (with_limit cfg) (t0 - t0 mod Hour) blocks (written ins) stopAt k sw w' blocks' ∧
    ring_content (sw_ring sw) = [] ∧ Rows (sw_memtable sw) = [].
Proof.
  intros S St In. destruct (accounted_new s cfg t0 blocks w ins stopAt S St In)
    as (sw0 & sw & w1 & blocks1 & t & k & E0 & E & A & Hf & Ht & Hsi & Hk & Hb).
  destruct (accounted_flush true s (with_limit cfg) (t0 - t0 mod Hour) blocks (written ins) t k sw w1 blocks1 stopAt)
    as (sw' & w' & blocks' & Es & A' & Hc & _ & _ & Hr); try done; [by destruct In|].
  exists sw0, sw', w', blocks', (k - zlen (ring_content (sw_ring sw))). split; [done|].
  unfold run. rewrite E. split; [exact Es|]. by split.
Qed.

(** A stopped writer has made everything durable: from its creation to the
    end of [Stop] the run succeeds, and then queue, table and write-ahead log
    are empty and the sealed blocks hold exactly the events they held before
    and every event written, each as often as it was written. *)
Theorem run_durable s cfg t0 blocks w ins stopAt :
  setting s (with_limit cfg) → start s cfg t0 (zlen (written ins)) blocks w →
  inputs_ok cfg t0 ins stopAt →
  ∃ sw0 sw w' blocks', NewShardWriter s cfg t0 = Some sw0 ∧ run ins stopAt sw0 w = Some (sw, w') ∧
    consistent tiers store blocks' (view (db w')) (files (fs w')) ∧
    ring_content (sw_ring sw) = [] ∧ Rows (sw_memtable sw) = [] ∧ wal_log s (view (db w')) = [] ∧
    stored blocks' ≡ₚ stored blocks ++ written ins.
Proof.
  intros S St In. destruct (run_stops s cfg t0 blocks w ins stopAt S St In)
    as (sw0 & sw & w' & blocks' & k & E0 & E & A & Hc & Hr).
  exists sw0, sw, w', blocks'. do 2 (split; [done|]). split; [apply A|]. do 2 (split; [done|]).
  split; [by rewrite (ac_log A), Hr|].
  destruct (ac_events A) as (new & Hall & Hst & Hnew). rewrite Hc, Hr, !app_nil_r in Hall.
  by rewrite Hst, Hall.
Qed.

End durable.

(** ** A morning of shard 0x0107: two events in the third hour, one in the
    fourth, a stop *)
Definition run_cfg : WriterConfig :=
  mkWriterConfig (2 * 1000000) 2 (Some (local_tier hot_store)) (b!"/tmp") 0 0 0 0.

Definition morning : list Input :=
  [Written [ev_a; ev_b]; Tick (3 * Hour + 5); Tick (4 * Hour + 1); Written [ev_a]].

Lemma run_setting : setting calm hot_tiers (local_tier hot_store) 263 (with_limit run_cfg).
Proof.
  split.
  - by vm_compute.
  - reflexivity.
  - apply LocalTierLaws.
  - reflexivity.
  - intros t store' id req Ht Hne _. unfold hot_tiers in Ht.
    by apply lookup_singleton_Some in Ht as [<- _].
  - exact calm_reads.
  - exact calm_writes.
  - intros b. cbn. unfold zlen. simpl. lia.
  - intros b. by eexists.
Qed.

Lemma run_start : start calm hot_tiers (local_tier hot_store) 263 run_cfg (3 * Hour + 1) 3 ∅ empty_world.
Proof.
  split.
  - by vm_compute.
  - by vm_compute.
  - exact wal_ok_empty.
  - reflexivity.
  - split; [by vm_compute|]. intros n _ E. discriminate E.
  - reflexivity.
  - reflexivity.
  - exact no_blocks.
  - intros id t' mt E. discriminate E.
  - intros et kh id _ [v Hv]. change (view (db empty_world)) with (∅ : gmap bytes bytes) in Hv.
    by rewrite lookup_empty in Hv.
  - intros o _ _. apply lookup_empty.
Qed.

Lemma morning_ok : inputs_ok run_cfg (3 * Hour + 1) morning (4 * Hour + 9).
Proof.
  split; [|by vm_compute|by vm_compute|by vm_compute].
  change (written morning) with [ev_a; ev_b; ev_a]. unfold ev_a, ev_b.
  repeat (apply Forall_cons; split); try apply Forall_nil_2;
    (split; [by vm_compute|split; [by vm_compute|split; [|by vm_compute]]]);
    repeat (apply Forall_cons; split; [by vm_compute|]); apply Forall_nil_2.
Qed.

Lemma run_accounts_every_event_witness :
  ∃ sw0 sw w', NewShardWriter 263 run_cfg (3 * Hour + 1) = Some sw0 ∧
    run_loop morning sw0 empty_world = Some (sw, w') ∧
    wal_log 263 (view (db w')) = map json_Marshal (Rows (sw_memtable sw)).
Proof.
  destruct (run_accounts_every_event calm hot_tiers (local_tier hot_store) 263 run_cfg
              (3 * Hour + 1) ∅ empty_world morning (4 * Hour + 9) run_setting run_start morning_ok)
    as (sw0 & sw & w' & blocks' & new & E0 & E & _ & El & _).
  exists sw0, sw, w'. split; [exact E0|]. split; [exact E|exact El].
Defined.

Lemma run_durable_witness :
  ∃ sw0 sw w' blocks', NewShardWriter 263 run_cfg (3 * Hour + 1) = Some sw0 ∧
    run morning (4 * Hour + 9) sw0 empty_world = Some (sw, w') ∧
    stored blocks' ≡ₚ [ev_a; ev_b; ev_a].
Proof.
  destruct (run_durable calm hot_tiers (local_tier hot_store) 263 run_cfg
              (3 * Hour + 1) ∅ empty_world morning (4 * Hour + 9) run_setting run_start morning_ok)
    as (sw0 & sw & w' & blocks' & E0 & E & _ & _ & _ & _ & Hs).
  exists sw0, sw, w', blocks'. split; [exact E0|]. split; [exact E|exact Hs].
Defined.


(** ** After an idle spell *)

(** An event of the third hour, sealed at four; nothing until ten, then an event
    with the time of its arrival, sealed by the next tick. *)
Definition ev_late : Event := mkEvent (KeyHash ev_a) (10 * Hour + 5) [9].

Definition idle : list Input :=
  [Written [ev_a]; Tick (4 * Hour + 1); Tick (9 * Hour); Written [ev_late]; Tick (10 * Hour + 6)].

(** What a new engine answers for the key of both events. *)
Definition asked (from to : time) (w : World) : result (list Event) :=
  (Query hot_tiers (mkQuery [1] None from to) (mkQState (db w) (NewBloomCache (local_tier hot_store) 0) (fs w))).2.

Definition idle_view (w : World) : option (result (list Event) * result (list Event) * list bytes) :=
  match NewShardWriter 263 run_cfg (3 * Hour + 1) with
  | None => None
  | Some sw =>
      match run_loop idle sw w with
      | None => None
      | Some (sw, w) => Some (asked (10 * Hour) (11 * Hour) w, asked (4 * Hour) (11 * Hour) w, wal_log 263 (view (db w)))
      end
  end.

