(* ===== verification/Ingest.v ===== *)
(** * The ingestion service: [internal/grpc/convert.go], [internal/grpc/ingestion_server.go]

    Protobuf messages are records of their fields.  The UUIDs that replace
    missing partition keys and the clock readings that replace missing
    timestamps are arguments, one per event of a batch.  A batch is handled
    with no other goroutine running: the writers' goroutines are the subject
    of the ring buffer's and the writer's theorems. *)
From Stdlib Require Import QArith_base.
From S2P Require Import Prelude GoTime GoFmt GoOs Pebble PebbleRef Keys Event Memtable Bloom Format.
From S2P Require Import Tier World Sealer RingBuf BlockReader Writer.
#[local] Open Scope Z_scope.

Record ProtoEvent := mkProtoEvent {
  pe_PartitionKey : bytes;
  pe_EventType : Z;
  pe_TimestampNs : Z;
  pe_Payload : bytes;
}.

(** ** Conversion *)
Definition ResolvePartitionKey (uuid key : bytes) : bytes :=
  if (0 <? length key)%nat then key else uuid.

Definition ResolveTimestamp (now ts : Z) : Z := if negb (ts =? 0) then ts else now.

(** The event type is not part of a stored event: the field stays zero. *)
Definition BlockEventsToProto (events : list Event) (partitionKey : bytes) : list ProtoEvent :=
  map (fun e => mkProtoEvent partitionKey 0 (Timestamp e) (Payload e)) events.

(** What a batch finds outside: a fresh UUID and the time, for each event. *)
Abbreviation Env := (nat → bytes * Z).

Section convert.
Context `{XXHash}.

Fixpoint ProtoEventsToBlock_from (env : Env) (i : nat) (events : list ProtoEvent)
  : list (Event * bytes) :=
  match events with
  | [] => []
  | e :: r =>
      let key := ResolvePartitionKey (env i).1 (pe_PartitionKey e) in
      let ts := ResolveTimestamp (env i).2 (pe_TimestampNs e) in
      (mkEvent (KeyHashFor key) ts (pe_Payload e), key) :: ProtoEventsToBlock_from env (S i) r
  end.

Definition ProtoEventsToBlock (env : Env) (events : list ProtoEvent) : list Event * list bytes :=
  let l := ProtoEventsToBlock_from env 0 events in (map fst l, map snd l).
End convert.

(** ** The server *)
Record WriteRequest := mkWriteRequest { wr_Events : list ProtoEvent; wr_BatchId : bytes }.

(** The text of an error is kept as the error: [MsgOf err] is [err.Error()]. *)
Inductive Message := MsgText (text : bytes) | MsgOf (err : error).
Record ProtoError := mkProtoError { er_Code : Z; er_Message : Message }.

Record WriteResponse := mkWriteResponse {
  wp_BatchId : bytes;
  wp_Accepted : Z;
  wp_PartitionKeys : list bytes;
  wp_Error : option ProtoError;
}.

Record IngestionServer := mkIngestionServer {
  is_writerCfg : WriterConfig;
  is_writers : gmap ShardID ShardWriter;
}.

Definition NewIngestionServer (cfg : WriterConfig) : IngestionServer := mkIngestionServer cfg ∅.

(** [None] when a new writer's buffer size does not terminate. *)
Definition getOrCreateWriter (now : time) (srv : IngestionServer) (shard : ShardID)
  : option (IngestionServer * ShardWriter) :=
  match is_writers srv !! shard with
  | Some w => Some (srv, w)
  | None =>
      match NewShardWriter shard (is_writerCfg srv) now with
      | Some w => Some (mkIngestionServer (is_writerCfg srv) (<[shard := w]> (is_writers srv)), w)
      | None => None
      end
  end.

(** The first event type that does not fit a byte. *)
Fixpoint bad_event_type (events : list ProtoEvent) : option Z :=
  match events with
  | [] => None
  | e :: r => if 255 <? pe_EventType e then Some (pe_EventType e) else bad_event_type r
  end.

Definition bad_type_message (et : Z) : Message :=
  MsgText (b!"event_type " ++ itoa et ++ b!" exceeds max value 255").

(** The events of a shard, in batch order. *)
Definition shard_events (shard : ShardID) (routed : list (ShardID * Event)) : list Event :=
  map snd (List.filter (fun p => p.1 =? shard) routed).

Section server.
Context `{XXHash} `{MapOrder}.

Definition route (events : list ProtoEvent) (converted : list Event * list bytes)
  : list (ShardID * Event) :=
  map (fun '(e, (be, key)) => (ShardFor key (u8 (pe_EventType e)), be))
    (combine events (combine converted.1 converted.2)).

(** Writes shard by shard; stops at the first failure.  [None] when a push
    spins. *)
Fixpoint write_shards (canceled : bool) (now : time) (routed : list (ShardID * Event))
    (shards : list ShardID) (srv : IngestionServer) : option (IngestionServer * result unit) :=
  match shards with
  | [] => Some (srv, Ok tt)
  | shard :: r =>
      match getOrCreateWriter now srv shard with
      | None => None
      | Some (srv, w) =>
          match sw_Write canceled w (shard_events shard routed) with
          | None => None
          | Some (w', res) =>
              let srv := mkIngestionServer (is_writerCfg srv) (<[shard := w']> (is_writers srv)) in
              match res with
              | Ok _ => write_shards canceled now routed r srv
              | Err e => Some (srv, Err e)
              end
          end
      end
  end.

Definition handleBatch (env : Env) (canceled : bool) (now : time) (srv : IngestionServer)
    (req : WriteRequest) : option (IngestionServer * WriteResponse) :=
  let '(blockEvents, resolvedKeys) := ProtoEventsToBlock env (wr_Events req) in
  match bad_event_type (wr_Events req) with
  | Some et =>
      Some (srv, mkWriteResponse (wr_BatchId req) 0 resolvedKeys
                   (Some (mkProtoError 1 (bad_type_message et))))
  | None =>
      let routed := route (wr_Events req) (blockEvents, resolvedKeys) in
      let shards := map_order (remove_dups (map fst routed)) in
      match write_shards canceled now routed shards srv with
      | None => None
      | Some (srv, Err e) =>
          Some (srv, mkWriteResponse (wr_BatchId req) 0 resolvedKeys
                       (Some (mkProtoError 2 (MsgOf e))))
      | Some (srv, Ok _) =>
          Some (srv, mkWriteResponse (wr_BatchId req) (u32 (zlen (wr_Events req))) resolvedKeys None)
      end
  end.

(** What one turn of the stream's loop meets: the outcome of [Recv], the state
    of the context, the clock, and the outcome of [Send]. *)
Record Turn := mkTurn {
  tn_recv : result WriteRequest;
  tn_env : Env;
  tn_canceled : bool;
  tn_now : time;
  tn_send : result unit;
}.

(** [Write]: the end of the list is [io.EOF].  Returns the responses handed to
    [Send], in order. *)
Fixpoint IngestionServer_Write (turns : list Turn) (srv : IngestionServer) (sent : list WriteResponse)
  : option (IngestionServer * list WriteResponse * result unit) :=
  match turns with
  | [] => Some (srv, sent, Ok tt)
  | t :: r =>
      match tn_recv t with
      | Err e => Some (srv, sent, Err e)
      | Ok req =>
          match handleBatch (tn_env t) (tn_canceled t) (tn_now t) srv req with
          | None => None
          | Some (srv, resp) =>
              match tn_send t with
              | Err e => Some (srv, sent ++ [resp], Err e)
              | Ok _ => IngestionServer_Write r srv (sent ++ [resp])
              end
          end
      end
  end.
End server.

(** ** What is queued for a shard *)
Definition queued (srv : IngestionServer) (shard : ShardID) : list Event :=
  match is_writers srv !! shard with
  | Some w => ring_content (sw_ring w)
  | None => []
  end.

Definition server_ok (srv : IngestionServer) : Prop :=
  wc_RingBufSize (is_writerCfg srv) <= 2 ^ 62 ∧
  ∀ s w, is_writers srv !! s = Some w → sw_shard w = s ∧ ring_ok (sw_ring w).

(** Setting a shard's writer changes that shard's queue only. *)
Lemma queued_insert srv cfg s s' w :
  queued (mkIngestionServer cfg (<[s := w]> (is_writers srv))) s'
  = if decide (s = s') then ring_content (sw_ring w) else queued srv s'.
Proof.
  unfold queued. cbn [is_writers]. destruct (decide (s = s')) as [-> | Hne].
  - by rewrite lookup_insert_eq.
  - by rewrite lookup_insert_ne.
Qed.

Lemma server_ok_insert srv s w :
  server_ok srv → sw_shard w = s → ring_ok (sw_ring w) →
  server_ok (mkIngestionServer (is_writerCfg srv) (<[s := w]> (is_writers srv))).
Proof.
  intros [Hn Hw] Hs Hr. split; [done|]. intros s' w'. cbn [is_writers].
  rewrite lookup_insert_Some. intros [[<- <-]|[_ H]]; [done|by apply Hw].
Qed.

(** The writer of a shard: the one it has, or a new one with an empty queue. *)
Lemma getOrCreateWriter_spec now srv s srv' w :
  server_ok srv → getOrCreateWriter now srv s = Some (srv', w) →
  server_ok srv' ∧ is_writerCfg srv' = is_writerCfg srv ∧ sw_shard w = s ∧ ring_ok (sw_ring w) ∧
  ring_content (sw_ring w) = queued srv s ∧ ∀ s', queued srv' s' = queued srv s'.
Proof.
  intros Hok. pose proof Hok as [Hn Hw]. unfold getOrCreateWriter.
  destruct (is_writers srv !! s) as [w0|] eqn:E.
  - intros [= <- <-]. destruct (Hw s w0 E). unfold queued at 1. by rewrite E.
  - destruct (NewShardWriter_spec s _ now Hn) as (ring & -> & Hr & Hc & _). intros [= <- <-].
    assert (queued srv s = []) as Hq by (unfold queued; by rewrite E).
    split; [by apply server_ok_insert|]. do 3 (split; [done|]). split; [by rewrite Hq|].
    intros s'. rewrite queued_insert. destruct (decide (s = s')) as [<-|]; [by rewrite Hq|done].
Qed.

Section routing.
Context `{XXHash} `{MapOrder}.

(** Every listed shard's queue grows by a prefix of its events, by all of them
    when the loop ends; the other queues are untouched. *)
Lemma write_shards_spec canceled now routed shards srv srv' r :
  NoDup shards → server_ok srv → write_shards canceled now routed shards srv = Some (srv', r) →
  server_ok srv' ∧
  (∀ s, s ∉ shards → queued srv' s = queued srv s) ∧
  ∀ s, s ∈ shards →
    ∃ n, queued srv' s = queued srv s ++ take n (shard_events s routed) ∧
         (r = Ok tt → take n (shard_events s routed) = shard_events s routed).
Proof.
  revert srv. induction shards as [|s0 shards IH]; intros srv Hnd Hok; cbn [write_shards].
  { intros [= <- <-]. split; [done|]. split; [done|]. by intros s ?%not_elem_of_nil. }
  apply NoDup_cons in Hnd as [Hni Hnd].
  destruct (getOrCreateWriter now srv s0) as [[srv1 w]|] eqn:EG; [|done].
  destruct (getOrCreateWriter_spec _ _ _ _ _ Hok EG) as (Hok1 & Hcfg & Hs & Hr & Hc & Hq).
  destruct (sw_Write _ _ _) as [[w' res]|] eqn:EW; [|done].
  destruct (sw_Write_spec _ _ _ _ _ Hr EW) as (Hsw & Hr' & _ & n & Hc' & Hall).
  assert (sw_shard w' = sw_shard w) as Hs' by by rewrite Hsw.
  set (srv2 := mkIngestionServer _ _).
  assert (server_ok srv2) as Hok2 by (apply server_ok_insert; [done|congruence|done]).
  assert (∀ s, queued srv2 s = if decide (s0 = s) then queued srv s ++ take n (shard_events s routed)
                               else queued srv s) as Hq2.
  { intros s. unfold srv2. rewrite queued_insert. destruct (decide (s0 = s)) as [<-|]; [|done].
    by rewrite Hc', Hc. }
  destruct res as [[]|e].
  - intros E. destruct (IH srv2 Hnd Hok2 E) as (Hok' & Hout & Hin). split; [done|]. split.
    + intros s [Hne Hns]%not_elem_of_cons. rewrite Hout, Hq2, decide_False by done. done.
    + intros s [-> |Hs0]%elem_of_cons.
      * exists n. rewrite Hout, Hq2, decide_True by done. split; [done|]. intros _. by apply Hall.
      * destruct (Hin s Hs0) as (n' & Hn' & Hn'all). exists n'.
        by rewrite Hn', Hq2, decide_False by (intros ->; done).
  - intros [= <- <-]. split; [done|]. split.
    + intros s [Hne _]%not_elem_of_cons. by rewrite Hq2, decide_False.
    + intros s _. rewrite Hq2. destruct (decide (s0 = s)) as [<-|]; [by exists n|].
      exists 0%nat. by rewrite app_nil_r.
Qed.

Lemma shard_events_absent s routed : s ∉ map fst routed → shard_events s routed = [].
Proof.
  unfold shard_events. induction routed as [|[s1 e] r IH]; [done|]. cbn [map fst List.filter].
  intros [Hne Hr]%not_elem_of_cons. rewrite (proj2 (Z.eqb_neq s1 s)) by congruence. by apply IH.
Qed.

Lemma bad_event_type_spec es :
  match bad_event_type es with
  | Some et => 255 < et
  | None => Forall (fun e => pe_EventType e <= 255) es
  end.
Proof.
  induction es as [|e es IH]; cbn [bad_event_type]; [constructor|].
  destruct (Z.ltb_spec 255 (pe_EventType e)); [done|]. destruct (bad_event_type es); [done|].
  by constructor.
Qed.

Lemma ProtoEventsToBlock_length env es : length (ProtoEventsToBlock env es).2 = length es.
Proof.
  unfold ProtoEventsToBlock. cbn [snd]. rewrite length_map. generalize 0%nat.
  induction es as [|e es IH]; intros i; cbn [ProtoEventsToBlock_from length]; [done|]. by rewrite IH.
Qed.

(** The loop over the map of a batch's shards reaches every event. *)
Lemma write_shards_all canceled now routed srv srv' r :
  server_ok srv →
  write_shards canceled now routed (map_order (remove_dups (map fst routed))) srv = Some (srv', r) →
  server_ok srv' ∧
  ∀ s, ∃ n, queued srv' s = queued srv s ++ take n (shard_events s routed) ∧
            (r = Ok tt → take n (shard_events s routed) = shard_events s routed).
Proof.
  intros Hok E. apply write_shards_spec in E as (Hok' & Hout & Hin); [|by rewrite map_order_perm; apply NoDup_remove_dups|done].
  split; [done|]. intros s. destruct (decide (s ∈ map fst routed)) as [Hs|Hs].
  - apply Hin. by rewrite elem_of_map_order, elem_of_remove_dups.
  - exists 0%nat. rewrite shard_events_absent by done. rewrite Hout, app_nil_r; [done|].
    by rewrite elem_of_map_order, elem_of_remove_dups.
Qed.

(** What a batch adds to a shard's queue, if it is taken: its events of that
    shard, with missing keys and timestamps replaced. *)
Fixpoint batch_from (env : Env) (i : nat) (es : list ProtoEvent) (s : ShardID) : list Event :=
  match es with
  | [] => []
  | e :: r =>
      let key := match pe_PartitionKey e with [] => (env i).1 | key => key end in
      let ts := if decide (pe_TimestampNs e = 0) then (env i).2 else pe_TimestampNs e in
      let rest := batch_from env (S i) r s in
      if decide (ShardFor key (u8 (pe_EventType e)) = s)
      then mkEvent (Sum64 key) ts (pe_Payload e) :: rest else rest
  end.

Definition batch_for (env : Env) (req : WriteRequest) (s : ShardID) : list Event :=
  batch_from env 0 (wr_Events req) s.

Lemma batch_for_routed env es s :
  shard_events s (route es (ProtoEventsToBlock env es)) = batch_from env 0 es s.
Proof.
  unfold ProtoEventsToBlock, route. cbn [fst snd]. generalize 0%nat as i.
  induction es as [|e es IH]; intros i; [done|].
  cbn [ProtoEventsToBlock_from map fst snd combine batch_from]. unfold shard_events in *.
  cbn [List.filter fst]. unfold ResolvePartitionKey, ResolveTimestamp, KeyHashFor.
  assert ((if (0 <? length (pe_PartitionKey e))%nat then pe_PartitionKey e else (env i).1)
          = match pe_PartitionKey e with [] => (env i).1 | key => key end) as ->
    by (by destruct (pe_PartitionKey e)).
  assert ((if negb (pe_TimestampNs e =? 0) then pe_TimestampNs e else (env i).2)
          = if decide (pe_TimestampNs e = 0) then (env i).2 else pe_TimestampNs e) as ->
    by (case_decide; destruct (Z.eqb_spec (pe_TimestampNs e) 0); done).
  set (key := match pe_PartitionKey e with [] => _ | _ => _ end).
  rewrite <- IH. destruct (decide (ShardFor key (u8 (pe_EventType e)) = s)) as [Hs|Hs].
  - rewrite (proj2 (Z.eqb_eq _ _) Hs). done.
  - rewrite (proj2 (Z.eqb_neq _ _) Hs). done.
Qed.

(** C17: A batch is routed completely and in order: when the response has no
    error every shard's queue has grown by exactly the batch's events of that
    shard, in batch order, and the count of the batch is acknowledged; when an
    event type exceeds 255 the batch is refused with code 1 and nothing is
    queued; a canceled write is answered with code 2 and a count of 0 while
    each shard has received a prefix of its events.  The response always
    carries the batch's id and one resolved key per event. *)
Theorem handleBatch_routes env canceled now srv req srv' resp :
  server_ok srv → handleBatch env canceled now srv req = Some (srv', resp) →
  server_ok srv' ∧ wp_BatchId resp = wr_BatchId req ∧
  wp_PartitionKeys resp = (ProtoEventsToBlock env (wr_Events req)).2 ∧
  length (wp_PartitionKeys resp) = length (wr_Events req) ∧
  match wp_Error resp with
  | None => wp_Accepted resp = u32 (zlen (wr_Events req)) ∧
            Forall (fun e => pe_EventType e <= 255) (wr_Events req) ∧
            ∀ s, queued srv' s = queued srv s ++ batch_for env req s
  | Some err => wp_Accepted resp = 0 ∧
      ((er_Code err = 1 ∧ srv' = srv ∧ ∃ et, 255 < et ∧ er_Message err = bad_type_message et) ∨
       (er_Code err = 2 ∧ ∀ s, ∃ n, queued srv' s = queued srv s ++ take n (batch_for env req s)))
  end.
Proof.
  intros Hok. unfold handleBatch.
  pose proof (fun s => batch_for_routed env (wr_Events req) s) as Hbf.
  destruct (ProtoEventsToBlock env (wr_Events req)) as [bes keys] eqn:EC. intros E.
  assert (length keys = length (wr_Events req)) as Hlen.
  { rewrite <- (ProtoEventsToBlock_length env (wr_Events req)). by rewrite EC. }
  pose proof (bad_event_type_spec (wr_Events req)) as Hbad.
  destruct (bad_event_type (wr_Events req)) as [et|].
  { injection E as <- <-. cbn. do 5 (split; [done|]). left. eauto. }
  destruct (write_shards _ _ _ _ _) as [[srv1 [[]|e]]|] eqn:EW; [| |done]; injection E as <- <-;
    apply write_shards_all in EW as [Hok' Hq]; try done; cbn; do 5 (split; [done|]).
  - split; [done|]. intros s. destruct (Hq s) as (n & -> & Hall). unfold batch_for. by rewrite <- Hbf, Hall.
  - right. split; [done|]. intros s. destruct (Hq s) as (n & -> & _). exists n. unfold batch_for. by rewrite <- Hbf.
Qed.

(** *** A batch that fits is taken *)
Definition has_room (srv : IngestionServer) (s : ShardID) (n : nat) : Prop :=
  match is_writers srv !! s with
  | Some w => (length (ring_content (sw_ring w)) + n <= length (buf (sw_ring w)))%nat
  | None => Z.of_nat n <= Z.max (wc_RingBufSize (is_writerCfg srv)) 1
  end.

(** Getting a shard's writer succeeds, and leaves the others alone. *)
Lemma getOrCreateWriter_room now srv s n :
  server_ok srv → has_room srv s n →
  ∃ srv' w, getOrCreateWriter now srv s = Some (srv', w) ∧
    (length (ring_content (sw_ring w)) + n <= length (buf (sw_ring w)))%nat ∧
    ∀ s', s' ≠ s → is_writers srv' !! s' = is_writers srv !! s'.
Proof.
  intros [Hn _]. unfold getOrCreateWriter, has_room.
  destruct (is_writers srv !! s) as [w|] eqn:E; [by exists srv, w|]. intros Hroom.
  destruct (NewShardWriter_spec s _ now Hn) as (ring & -> & _ & Hc & Hbuf). eexists _, _.
  split; [done|]. cbn [sw_ring]. rewrite Hc. split; [simpl; lia|]. intros s' Hne. by apply lookup_insert_ne.
Qed.

Lemma write_shards_room canceled now routed shards srv :
  NoDup shards → server_ok srv →
  (∀ s, s ∈ shards → has_room srv s (length (shard_events s routed))) →
  ∃ srv', write_shards canceled now routed shards srv = Some (srv', Ok tt).
Proof.
  revert srv. induction shards as [|s0 shards IH]; intros srv Hnd Hok Hroom; cbn [write_shards].
  { by exists srv. }
  apply NoDup_cons in Hnd as [Hni Hnd].
  destruct (getOrCreateWriter_room now srv s0 (length (shard_events s0 routed)))
    as (srv1 & w & EG & Hw & Hoth); [done|apply Hroom; left|]. rewrite EG.
  destruct (getOrCreateWriter_spec _ _ _ _ _ Hok EG) as (Hok1 & Hcfg & Hs & Hr & _).
  destruct (sw_Write_room canceled w (shard_events s0 routed) Hr Hw) as [w' EW]. rewrite EW.
  destruct (sw_Write_spec _ _ _ _ _ Hr EW) as (Hsw & Hr' & _).
  assert (sw_shard w' = sw_shard w) as Hs' by by rewrite Hsw.
  apply IH; [done|apply server_ok_insert; [done|congruence|done]|].
  intros s Hin. assert (s ≠ s0) by (intros ->; done). unfold has_room. cbn [is_writers is_writerCfg].
  rewrite lookup_insert_ne, Hoth, Hcfg by done. apply Hroom. by right.
Qed.

Lemma bad_event_type_none es :
  Forall (fun e => pe_EventType e <= 255) es → bad_event_type es = None.
Proof.
  induction 1 as [|e es He _ IH]; cbn [bad_event_type]; [done|].
  by destruct (Z.ltb_spec 255 (pe_EventType e)); [lia|].
Qed.

(** A batch that fits is accepted: when every event type is at most 255 and
    each shard's queue has room for its events, [handleBatch] returns, without
    an error, even if the context is already canceled. *)
Theorem handleBatch_accepts env canceled now srv req :
  server_ok srv → Forall (fun e => pe_EventType e <= 255) (wr_Events req) →
  (∀ s, has_room srv s (length (batch_for env req s))) →
  ∃ srv' resp, handleBatch env canceled now srv req = Some (srv', resp) ∧ wp_Error resp = None.
Proof.
  intros Hok Hty Hroom. unfold handleBatch. unfold batch_for in Hroom.
  setoid_rewrite <- batch_for_routed in Hroom.
  destruct (ProtoEventsToBlock env (wr_Events req)) as [bes keys].
  rewrite bad_event_type_none by done.
  edestruct write_shards_room as [srv' E]; [| |intros s _; apply (Hroom s)|rewrite E; eauto];
    [by rewrite map_order_perm; apply NoDup_remove_dups|done].
Qed.
End routing.

(** *** A batch of two shards *)
Definition sample_batch : WriteRequest :=
  mkWriteRequest [mkProtoEvent [7] 1 100 [1]; mkProtoEvent [8] 2 0 [2]; mkProtoEvent [7] 1 300 [3]]
    (b!"batch").
Definition sample_env : Env := fun i => ([42], 55).
Definition sample_server : IngestionServer :=
  NewIngestionServer (mkWriterConfig 100 4 None [] 0 0 0%Q 0).

Lemma sample_server_ok : server_ok sample_server.
Proof. split; [vm_compute; discriminate|]. intros s w E. discriminate E. Qed.

Lemma handleBatch_routes_witness :
  ∃ srv' resp, handleBatch sample_env false 0 sample_server sample_batch = Some (srv', resp) ∧
    wp_Accepted resp = 3 ∧ queued srv' 263 = [mkEvent 7 100 [1]; mkEvent 7 300 [3]] ∧
    queued srv' 520 = [mkEvent 8 55 [2]].
Proof.
  destruct (handleBatch sample_env false 0 sample_server sample_batch) as [[srv' resp]|] eqn:E;
    [|discriminate E]. exists srv', resp. split; [reflexivity|].
  destruct (handleBatch_routes sample_env false 0 sample_server sample_batch srv' resp
              sample_server_ok E) as (_ & _ & _ & _ & H).
  assert (wp_Error resp = None) as He by (injection E as _ <-; reflexivity). rewrite He in H.
  destruct H as (Ha & _ & Hq). split; [exact Ha|]. split; rewrite Hq; reflexivity.
Defined.

Lemma handleBatch_accepts_witness :
  ∃ srv' resp, handleBatch sample_env true 0 sample_server sample_batch = Some (srv', resp) ∧
    wp_Error resp = None.
Proof.
  apply handleBatch_accepts.
  - apply sample_server_ok.
  - repeat constructor; vm_compute; discriminate.
  - intros s. change (Z.of_nat (length (batch_for sample_env sample_batch s)) <= 4).
    unfold batch_for, sample_batch. cbn [wr_Events batch_from].
    repeat (case_decide; cbn [length]); lia.
Defined.
