(* ===== verification/IngestRun.v ===== *)
(** * The ingestion service at work: [internal/grpc/ingestion_server.go] with its writers

    Batches arrive, the writers of the shards flush at their ticks, and [Stop]
    stops them all.  A history of the service is a sequence of such steps over
    one store and one disk, with the functions of the writer and of the
    service.  On a store and a disk that work no accepted event is lost,
    whatever the interleaving of batches and ticks of different shards. *)
From Stdlib Require Import QArith_base.
From S2P Require Import Prelude GoTime GoFmt GoOs Pebble PebbleRef Keys Wal IdxDB Expiry Event Memtable.
From S2P Require Import Bloom Format Tier World Sealer RingBuf BlockReader Merger Index BloomCache Query Writer WriterRun Ingest.
#[local] Open Scope Z_scope.

(** ** [Stop] *)
Section stop.
Context `{PebbleOps} `{SliceSort} `{MapOrder} `{BloomLib} `{Zstd}.

(** The goroutines of [Stop] stop the writers; [shards] is the order in which
    they do. *)
Fixpoint stop_writers (now : time) (shards : list ShardID) (srv : IngestionServer) (w : World)
  : option (IngestionServer * World) :=
  match shards with
  | [] => Some (srv, w)
  | s :: r =>
      match is_writers srv !! s with
      | None => stop_writers now r srv w
      | Some sw =>
          match sw_Stop now sw w with
          | None => None
          | Some (sw', w') =>
              stop_writers now r (mkIngestionServer (is_writerCfg srv) (<[s := sw']> (is_writers srv))) w'
          end
      end
  end.

(** The slice of writers taken under the lock, in the order of the map. *)
Definition IngestionServer_Stop (now : time) (srv : IngestionServer) (w : World)
  : option (IngestionServer * World) :=
  stop_writers now (map_order (map fst (map_to_list (is_writers srv)))) srv w.
End stop.

(** ** Identifiers of different shards *)
Lemma BlockIDForShard_shard s s' o o' :
  is_u16 s → is_u16 s' → BlockIDForShard s o = BlockIDForShard s' o' → s = s'.
Proof.
  intros Hs Hs' E. apply (f_equal (SplitN2 colon)) in E. unfold BlockIDForShard in E.
  rewrite !BlockID_split in E by done. injection E as E _. rewrite !u16_id in E by done.
  unfold is_u16 in *. apply sprintf_0x_inj in E; lia.
Qed.

Lemma fresh_later s o o' blocks : fresh s o blocks → o <= o' → fresh s o' blocks.
Proof. intros Hf Hle x Hx Hlt. apply Hf; [done|lia]. Qed.

Lemma fresh_other s s' o x b blocks :
  is_u16 s → is_u16 s' → s' ≠ s → fresh s' o blocks → fresh s' o (<[BlockIDForShard s x := b]> blocks).
Proof.
  intros Hs Hs' Hne Hf y Hy Hle. rewrite lookup_insert_ne; [by apply Hf|].
  intros E. apply Hne. symmetry. by eapply BlockIDForShard_shard.
Qed.

Lemma seq_room_ext s k m m' : m' !! WALSeqKey s = m !! WALSeqKey s → seq_room s k m → seq_room s k m'.
Proof. intros E [Hk Hr]. split; [done|]. intros n Hn. rewrite E. by apply Hr. Qed.

(** ** What waits to be sealed *)
Definition waiting (sw : ShardWriter) : list Event := Rows (sw_memtable sw) ++ ring_content (sw_ring sw).

Definition pending (srv : IngestionServer) : list Event :=
  concat (map (fun p => waiting p.2) (map_to_list (is_writers srv))).

Lemma pending_insert_new srv cfg s sw :
  is_writers srv !! s = None →
  pending (mkIngestionServer cfg (<[s := sw]> (is_writers srv))) ≡ₚ waiting sw ++ pending srv.
Proof. intros Hn. unfold pending. cbn [is_writers]. by rewrite (map_to_list_insert _ _ _ Hn). Qed.

(** Everything that waits, with one writer's part taken out. *)
Lemma pending_split srv s sw :
  is_writers srv !! s = Some sw →
  ∃ rest, pending srv ≡ₚ waiting sw ++ rest ∧
    ∀ cfg sw', pending (mkIngestionServer cfg (<[s := sw']> (is_writers srv))) ≡ₚ waiting sw' ++ rest.
Proof.
  intros Hs. exists (concat (map (fun p => waiting p.2) (map_to_list (delete s (is_writers srv))))).
  split.
  - unfold pending. rewrite <- (insert_delete_id (is_writers srv) s sw Hs) at 1.
    rewrite map_to_list_insert by apply lookup_delete_eq. done.
  - intros cfg sw'. unfold pending. cbn [is_writers]. rewrite <- insert_delete_eq.
    rewrite map_to_list_insert by apply lookup_delete_eq. done.
Qed.

Section service.
Context `{Pebble} `{SliceSort} `{MapOrder} `{BloomLib} `{Zstd} `{XXHash}.
Context (W : pdb → Prop) (tiers : gmap Tier TierStore) (store : TierStore) (cfg : WriterConfig).
Context (t0 : time) (K : Z) (blocks0 : gmap BlockID (Tier * Memtable)).

Abbreviation Blocks := (gmap BlockID (Tier * Memtable)).

(** Every shard's writer runs in a setting where its own run loses nothing. *)
Definition service_setting : Prop :=
  wc_RingBufSize cfg <= 2 ^ 62 ∧
  ∀ s, is_u16 s → s < 65535 → setting W tiers store s (with_limit cfg).

(** *** The invariant *)

(** One writer; [n] events were accepted so far, for all shards. *)
Record writer_ok (s : ShardID) (sw : ShardWriter) (m : gmap bytes bytes) (t : time) (n : Z) : Prop := {
  wo_shard : sw_shard sw = s ∧ is_u16 s ∧ s < 65535;
  wo_cfg : sw_cfg sw = with_limit cfg;
  wo_ring : ring_ok (sw_ring sw);
  wo_mt : mt_ok (sw_memtable sw);
  wo_bytes : approxBytes (sw_memtable sw) = rows_bytes (Rows (sw_memtable sw));
  wo_log : wal_log s m = map json_Marshal (Rows (sw_memtable sw));
  wo_seq : seq_room s (K - n + zlen (ring_content (sw_ring sw))) m;
  wo_opened : sw_openedAt sw mod Hour = 0 ∧ t0 - t0 mod Hour <= sw_openedAt sw <= t;
}.

(** The service; the writers of [stopped] have been stopped, [all] was accepted
    and [gone] was in blocks that have been deleted since. *)
Record service_ok (stopped : list ShardID) (all gone : list Event) (t : time) (srv : IngestionServer)
    (w : World) (blocks : Blocks) : Prop := {
  sv_cfg : is_writerCfg srv = cfg;
  sv_time : 0 <= t0 <= t ∧ is_i64 t;
  sv_room : zlen all <= K;
  sv_ev : Forall event_ok all;
  sv_wal : wal_ok (view (db w));
  sv_W : W (db w);
  sv_disk : sched (fs w) = [];
  sv_co : consistent tiers store blocks (view (db w)) (files (fs w));
  sv_names id t' mt : blocks !! id = Some (t', mt) → block_id_ok id;
  sv_index : index_sound store blocks (view (db w)) (files (fs w));
  sv_writer s sw : is_writers srv !! s = Some sw → writer_ok s sw (view (db w)) t (zlen all);
  sv_fresh s sw : is_writers srv !! s = Some sw → s ∉ stopped → fresh s (sw_openedAt sw) blocks;
  sv_stopped s sw : is_writers srv !! s = Some sw → s ∈ stopped → waiting sw = [];
  sv_absent s : is_u16 s → s < 65535 → is_writers srv !! s = None →
    wal_log s (view (db w)) = [] ∧ seq_room s (K - zlen all) (view (db w)) ∧
    fresh s (t0 - t0 mod Hour) blocks;
  sv_events : ∃ new, stored blocks ++ gone ≡ₚ stored blocks0 ++ new ∧ new ++ pending srv ≡ₚ all;
}.

Lemma floor_range t : 0 <= t → 0 <= t - t mod Hour <= t ∧ (t - t mod Hour) mod Hour = 0.
Proof.
  intros Ht. pose proof (Z.mod_le t Hour Ht ltac:(done)).
  pose proof (Z.mod_pos_bound t Hour ltac:(done)). split; [lia|].
  rewrite floor_div, Z.mul_comm. by apply Z.mod_mul.
Qed.

(** A writer of the service, seen as a run of its own that starts now. *)
Lemma writer_accounted stopped all gone t srv w blocks s sw :
  service_ok stopped all gone t srv w blocks → is_writers srv !! s = Some sw →
  accounted W tiers store s (with_limit cfg) (t0 - t0 mod Hour) blocks (waiting sw) t
    (K - zlen all + zlen (ring_content (sw_ring sw))) sw w blocks.
Proof.
  intros I Hs. destruct I. destruct (sv_writer0 s sw Hs) as [[Hss [Hu Hlt]] Hc Hr Hm Hb Hlg Hq [Hom Ho]].
  destruct (floor_range t0) as [Hfl _]; [lia|]. split; try done.
  - split; [done|]. split; [lia|]. split; [lia|apply sv_time0].
  - exists []. split; [done|]. split; [by rewrite app_nil_r|]. by intros e ?%not_elem_of_nil.
Qed.

(** *** A writer flushes *)
Lemma service_flush (force : bool) stopped all gone t srv w blocks s sw now :
  service_setting → service_ok stopped all gone t srv w blocks → is_writers srv !! s = Some sw →
  s ∉ stopped → t <= now → is_i64 now →
  let b := rows_bytes (waiting sw) in
  b < 2 ^ 44 →
  (if force then true else hour_over now (sw_openedAt sw) b || (b <? wc_MaxBlockBytes (with_limit cfg))) = true →
  ∃ sw' w' blocks', flushAndMaybeSeal force now sw w = Some (sw', w') ∧
    service_ok (if force then s :: stopped else stopped) all gone now
      (mkIngestionServer cfg (<[s := sw']> (is_writers srv))) w' blocks' ∧
    flush_effect store s (with_limit cfg) now sw sw' w w' blocks blocks'.
Proof.
  intros [Hn Hset] I Hs Hns Hle Hnow b H44 Hlim.
  pose proof (writer_accounted _ _ _ _ _ _ _ _ _ I Hs) as A.
  pose proof (sv_writer _ _ _ _ _ _ _ I s sw Hs) as Wo. destruct (wo_shard _ _ _ _ _ Wo) as (Hss & Hu & Hlt).
  specialize (Hset s Hu Hlt). pose proof (zlen_nonneg (ring_content (sw_ring sw))) as Hz.
  pose proof (sv_room _ _ _ _ _ _ _ I) as HK.
  assert (Forall event_ok (waiting sw)) as Hev.
  { destruct (sv_events _ _ _ _ _ _ _ I) as (new & _ & Hall). destruct (pending_split srv s sw Hs) as (rest & Hp & _).
    pose proof (sv_ev _ _ _ _ _ _ _ I) as Hev. rewrite <- Hall, Hp in Hev.
    apply Forall_app in Hev as [_ Hev]. by apply Forall_app in Hev as [Hev _]. }
  destruct (accounted_flush W tiers store force s (with_limit cfg) _ blocks (waiting sw) t _ sw w blocks now
              Hset A) as (sw' & w' & blocks' & E & A' & Hc & _ & Hbl & Hend); try done; [..|lia|].
  { by apply (sv_fresh _ _ _ _ _ _ _ I). }
  exists sw', w', blocks'. split; [done|]. split; [|done].
  assert (∀ s', is_u16 s' → s' ≠ s → wal_log s' (view (db w')) = wal_log s' (view (db w)) ∧
            view (db w') !! WALSeqKey s' = view (db w) !! WALSeqKey s') as Hframe.
  { intros s' Hu' Hne. eapply (flush_frame W tiers store force s); eauto; [lia|]. unfold waiting in *. lia. }
  assert (∀ s' o, is_u16 s' → s' ≠ s → fresh s' o blocks → fresh s' o blocks') as Hfr.
  { intros s' o Hu' Hne Hf. destruct Hbl as [[-> _]|(? & ? & ? & _ & -> & _ & _ & -> & _)]; [done|]. by apply fresh_other. }
  destruct A' as [A1 A2 A3 A4 A5 A6 A7 A8 A9 A10 A11 A12 A13 (A14 & A15 & A16 & A17) (new' & Hall' & Hst' & _)].
  rewrite Hc in *. destruct I. split; cbn [is_writers is_writerCfg]; try done.
  - split; [lia|done].
  - intros s' sw1 [[<- <-]|[Hne Hl]]%lookup_insert_Some.
    + split; try done; [|split; [done|lia]]. rewrite Hc. eapply seq_room_mono; [exact A8|].
      change (zlen (@nil Event)) with 0. lia.
    + destruct (sv_writer0 s' sw1 Hl) as [[B1 [B2 B3]] B4 B5 B6 B7 B8 B9 [B10 B11]].
      destruct (Hframe s' B2 (not_eq_sym Hne)) as [F1 F2]. split; try done.
      * by rewrite F1.
      * by eapply seq_room_ext.
      * split; [done|lia].
  - intros s' sw1 [[<- <-]|[Hne Hl]]%lookup_insert_Some Hns'.
    + destruct force; [by destruct Hns'; left|]. apply Hend.
    + assert (s' ∉ stopped) as Hns1 by (destruct force; [by apply not_elem_of_cons in Hns' as [_ ?]|done]).
      destruct (sv_writer0 s' sw1 Hl) as [[B1 [B2 B3]] _ _ _ _ _ _ _]. apply Hfr; [done|congruence|]. by apply sv_fresh0.
  - intros s' sw1 [[<- <-]|[Hne Hl]]%lookup_insert_Some Hin.
    + destruct force; [|done]. unfold waiting. by rewrite Hend, Hc.
    + apply (sv_stopped0 s' sw1 Hl). destruct force; [|done]. apply elem_of_cons in Hin as [->|?]; done.
  - intros s' Hu' Hlt' [Hl Hne]%lookup_insert_None. destruct (sv_absent0 s' Hu' Hlt' Hl) as (B1 & B2 & B3).
    destruct (Hframe s' Hu' (not_eq_sym Hne)) as [F1 F2]. split; [by rewrite F1|].
    split; [by eapply seq_room_ext|]. apply Hfr; [done|congruence|done].
  - destruct sv_events0 as (new & Hst & Hall). destruct (pending_split srv s sw Hs) as (rest & Hp & Hp').
    exists (new ++ new'). split.
    { rewrite Hst', <- app_assoc, (Permutation_app_comm new' gone), app_assoc, Hst. by rewrite app_assoc. }
    rewrite (Hp' cfg sw'). rewrite <- Hall, Hp, <- Hall'. unfold waiting. rewrite Hc, !app_nil_r.
    by rewrite <- !app_assoc.
Qed.

Lemma writer_later s sw m t n t' :
  writer_ok s sw m t n → t <= t' → writer_ok s sw m t' n.
Proof. intros [] Ht. split; try done. destruct wo_opened0 as [? ?]. split; [done|lia]. Qed.

Lemma service_later stopped all gone t srv w blocks now :
  service_ok stopped all gone t srv w blocks → t <= now → is_i64 now → service_ok stopped all gone now srv w blocks.
Proof.
  intros [] Ht Hi. split; try done; [split; [lia|done]|]. intros s sw Hs. eapply writer_later; eauto.
Qed.

(** *** A batch's events of one shard *)
Lemma service_writer all gone t srv w blocks s now srv1 sw :
  service_setting → service_ok [] all gone t srv w blocks → t <= now → is_i64 now → is_u16 s → s < 65535 →
  getOrCreateWriter now srv s = Some (srv1, sw) →
  service_ok [] all gone now srv1 w blocks ∧ is_writers srv1 !! s = Some sw.
Proof.
  intros [Hn _] I Hle Hnow Hu Hlt. unfold getOrCreateWriter. destruct (is_writers srv !! s) as [sw0|] eqn:Es.
  { intros [= <- <-]. split; [by eapply service_later|done]. }
  rewrite (sv_cfg _ _ _ _ _ _ _ I). destruct (NewShardWriter_spec s cfg now Hn) as (ring & -> & Hr & Hc & _).
  intros [= <- <-]. cbn [is_writers]. split; [|apply lookup_insert_eq].
  pose proof (service_later _ _ _ _ _ _ _ _ I Hle Hnow) as I'. destruct I'.
  destruct (sv_absent0 s Hu Hlt Es) as (B1 & B2 & B3).
  destruct (floor_range now) as [Hfl Hfm]; [lia|]. destruct (floor_range t0) as [Hfl0 Hfm0]; [lia|].
  assert (t0 - t0 mod Hour <= now - now mod Hour) as Hmono.
  { rewrite !floor_div. apply Z.mul_le_mono_nonneg_l; [done|]. apply Z.div_le_mono; [done|lia]. }
  unfold hourBoundary. rewrite Truncate_Hour.
  split; cbn [is_writers is_writerCfg]; try done.
  - intros s' sw1 [[<- <-]|[Hne Hl]]%lookup_insert_Some; [|by apply sv_writer0].
    split; cbn [sw_shard sw_cfg sw_ring sw_memtable sw_openedAt]; try done; [|split; [done|lia]].
    rewrite Hc. eapply seq_room_mono; [exact B2|]. change (zlen (@nil Event)) with 0. lia.
  - intros s' sw1 [[<- <-]|[Hne Hl]]%lookup_insert_Some Hns; [|by apply sv_fresh0].
    cbn [sw_openedAt]. by eapply fresh_later.
  - intros s' sw1 _ ?%not_elem_of_nil. done.
  - intros s' Hu' Hlt' [Hl Hne]%lookup_insert_None. by apply sv_absent0.
  - destruct sv_events0 as (new & Hst & Hall). exists new. split; [done|].
    rewrite pending_insert_new by done. unfold waiting. cbn [sw_memtable sw_ring]. rewrite Hc. done.
Qed.

Lemma service_push c all gone t srv w blocks s sw es sw' r :
  service_ok [] all gone t srv w blocks → is_writers srv !! s = Some sw →
  Forall event_ok es → zlen (all ++ es) <= K → sw_Write c sw es = Some (sw', r) →
  ∃ n, (r = Ok tt → take n es = es) ∧
    service_ok [] (all ++ take n es) gone t (mkIngestionServer cfg (<[s := sw']> (is_writers srv))) w blocks.
Proof.
  intros I Hs Hev HK E. destruct I. destruct (sv_writer0 s sw Hs) as [[C1 [C2 C3]] C4 C5 C6 C7 C8 C9 C10].
  apply sw_Write_spec in E as (-> & Hok & Hb & n & Hc & Htake); [|done]. cbn [sw_ring] in *.
  exists n. split; [done|]. clear Htake. rewrite <- (take_drop n es) in Hev, HK.
  apply Forall_app in Hev as [Hev _]. revert Hc HK Hev. generalize (take n es) as es1. intros es1 Hc HK Hev.
  rewrite !zlen_app in HK. pose proof (zlen_nonneg es1). pose proof (zlen_nonneg (drop n es)).
  split; cbn [is_writers is_writerCfg]; try done.
  - rewrite zlen_app. lia.
  - by apply Forall_app.
  - intros s' sw1 [[<- <-]|[Hne Hl]]%lookup_insert_Some.
    + split; cbn [sw_shard sw_cfg sw_ring sw_memtable sw_openedAt]; try done.
      rewrite Hc, !zlen_app. eapply seq_room_mono; [exact C9|lia].
    + destruct (sv_writer0 s' sw1 Hl) as [B1 B4 B5 B6 B7 B8 B9 B10]. split; try done.
      rewrite zlen_app. eapply seq_room_mono; [exact B9|lia].
  - intros s' sw1 [[<- <-]|[Hne Hl]]%lookup_insert_Some Hns; [|by apply sv_fresh0].
    cbn [sw_openedAt]. by apply sv_fresh0.
  - intros s' sw1 _ ?%not_elem_of_nil. done.
  - intros s' Hu' Hlt' [Hl Hne]%lookup_insert_None. destruct (sv_absent0 s' Hu' Hlt' Hl) as (B1 & B2 & B3).
    split; [done|]. split; [|done]. rewrite zlen_app. eapply seq_room_mono; [exact B2|lia].
  - destruct sv_events0 as (new & Hst & Hall). destruct (pending_split srv s sw Hs) as (rest & Hp & Hp').
    exists new. split; [done|]. rewrite (Hp' cfg). rewrite <- Hall, Hp. unfold waiting. cbn [sw_memtable sw_ring].
    rewrite Hc. rewrite <- !app_assoc. apply Permutation_app_head, Permutation_app_head, Permutation_app_head.
    apply Permutation_app_comm.
Qed.

(** [kept] is what was queued; all of it unless the write was canceled. *)
Lemma service_write_shards c now routed shards all gone t srv w blocks srv' r :
  service_setting → service_ok [] all gone t srv w blocks → t <= now → is_i64 now →
  Forall (fun s => is_u16 s ∧ s < 65535) shards →
  let es := concat (map (fun s => shard_events s routed) shards) in
  Forall event_ok es → zlen (all ++ es) <= K →
  write_shards c now routed shards srv = Some (srv', r) →
  ∃ kept, kept `sublist_of` es ∧ (r = Ok tt → kept = es) ∧ service_ok [] (all ++ kept) gone now srv' w blocks.
Proof.
  intros Hset. revert all t srv. induction shards as [|s shards IH]; intros all t srv I Hle Hnow Hsh es Hev HK;
    cbn [write_shards map concat] in *.
  { intros [= <- <-]. exists []. subst es. do 2 (split; [done|]). rewrite app_nil_r. by eapply service_later. }
  apply Forall_cons in Hsh as [[Hu Hlt] Hsh]. subst es.
  apply Forall_app in Hev as [Hev1 Hev2]. rewrite app_assoc in HK. rewrite !zlen_app in HK.
  pose proof (zlen_nonneg (concat (map (fun s => shard_events s routed) shards))).
  destruct (getOrCreateWriter now srv s) as [[srv1 sw]|] eqn:EG; [|done].
  destruct (service_writer _ _ _ _ _ _ _ _ _ _ Hset I Hle Hnow Hu Hlt EG) as [I1 Hs].
  destruct (sw_Write c sw (shard_events s routed)) as [[sw' r1]|] eqn:EW; [|done].
  destruct (service_push _ _ _ _ _ _ _ _ _ _ _ _ I1 Hs Hev1 ltac:(rewrite zlen_app; lia) EW) as (n & Htake & I2).
  rewrite (sv_cfg _ _ _ _ _ _ _ I1). destruct r1 as [[]|e].
  - rewrite (Htake eq_refl) in I2. intros E.
    apply (IH _ now _ I2) in E as (kept & Hsub & Hok & I3); try done; [|by rewrite !zlen_app].
    exists (shard_events s routed ++ kept). split; [by apply sublist_app|].
    split; [intros Hr; by rewrite Hok|by rewrite app_assoc].
  - intros [= <- <-]. exists (take n (shard_events s routed)). split; [|done].
    apply sublist_inserts_r, sublist_take.
Qed.

(** The shards of a batch partition it. *)
Lemma shard_events_cons s s1 e routed :
  shard_events s ((s1, e) :: routed) = (if decide (s1 = s) then [e] else []) ++ shard_events s routed.
Proof.
  unfold shard_events. cbn [List.filter fst]. destruct (decide (s1 = s)) as [->|Hne].
  - by rewrite Z.eqb_refl.
  - by rewrite (proj2 (Z.eqb_neq s1 s) Hne).
Qed.

Lemma shards_partition routed shards :
  NoDup shards → (∀ s, s ∈ map fst routed → s ∈ shards) →
  concat (map (fun s => shard_events s routed) shards) ≡ₚ map snd routed.
Proof.
  intros Hnd. induction routed as [|[s1 e] routed IH]; intros Hin.
  { clear. induction shards as [|s shards IH]; [done|]. cbn [map concat]. by rewrite IH. }
  assert (concat (map (fun s => shard_events s ((s1, e) :: routed)) shards)
          ≡ₚ e :: concat (map (fun s => shard_events s routed) shards)) as ->.
  { assert (s1 ∈ shards) as Hs1 by (apply Hin; left). clear Hin IH.
    induction Hnd as [|s shards Hni Hnd IH]; [by apply not_elem_of_nil in Hs1|]. cbn [map concat].
    rewrite shard_events_cons. destruct (decide (s1 = s)) as [->|Hne].
    - cbn [app]. constructor. apply Permutation_app_head.
      assert (map (fun s0 => shard_events s0 ((s, e) :: routed)) shards
              = map (fun s0 => shard_events s0 routed) shards) as ->; [|done].
      apply map_ext_in. intros s0 Hs0%list_elem_of_In. rewrite shard_events_cons, decide_False; [done|].
      by intros ->.
    - apply elem_of_cons in Hs1 as [?|Hs1]; [done|]. cbn [app]. rewrite (IH Hs1).
      symmetry. apply Permutation_middle. }
  cbn [map snd]. constructor. apply IH. intros s Hs. apply Hin. by right.
Qed.

Lemma route_events env es :
  map snd (route es (ProtoEventsToBlock env es)) = (ProtoEventsToBlock env es).1.
Proof.
  unfold ProtoEventsToBlock, route. cbn [fst snd]. generalize 0%nat as i.
  induction es as [|e es IH]; intros i; [done|]. cbn [ProtoEventsToBlock_from map fst snd combine].
  by rewrite IH.
Qed.

(** *** An accepted batch *)
Definition batch_events (env : Env) (req : WriteRequest) : list Event :=
  (ProtoEventsToBlock env (wr_Events req)).1.

(** No event of the batch is of the last shard, 0xffff. *)
Definition in_range (env : Env) (req : WriteRequest) : Prop :=
  Forall (fun p => is_u16 p.1 ∧ p.1 < 65535) (route (wr_Events req) (ProtoEventsToBlock env (wr_Events req))).

Lemma service_ok_perm stopped all all' gone t srv w blocks :
  service_ok stopped all gone t srv w blocks → all ≡ₚ all' → service_ok stopped all' gone t srv w blocks.
Proof.
  intros [] Hp. assert (zlen all' = zlen all) as Hz by (unfold zlen; by rewrite Hp).
  split; try done; rewrite ?Hz; try done.
  - by rewrite <- Hp.
  - destruct sv_events0 as (new & Hst & Hall). exists new. by rewrite <- Hp.
Qed.

Lemma service_batch env c now req all gone t srv w blocks srv' resp :
  service_setting → service_ok [] all gone t srv w blocks → t <= now → is_i64 now →
  in_range env req → Forall event_ok (batch_events env req) → zlen (all ++ batch_events env req) <= K →
  handleBatch env c now srv req = Some (srv', resp) →
  ∃ kept, kept ⊆+ batch_events env req ∧ (wp_Error resp = None → kept = batch_events env req) ∧
    service_ok [] (all ++ kept) gone now srv' w blocks.
Proof.
  intros Hset I Hle Hnow Hrange Hev HK E. unfold batch_events, in_range in *.
  pose proof (route_events env (wr_Events req)) as Hroute. unfold handleBatch in E.
  destruct (ProtoEventsToBlock env (wr_Events req)) as [bes keys]. cbn [fst] in *.
  destruct (bad_event_type (wr_Events req)).
  { injection E as <- <-. exists []. split; [apply submseteq_nil_l|]. split; [done|].
    rewrite app_nil_r. by eapply service_later. }
  set (routed := route (wr_Events req) (bes, keys)) in *.
  set (shards := map_order (remove_dups (map fst routed))) in *.
  destruct (write_shards c now routed shards srv) as [[srv1 r]|] eqn:EW; [|done].
  assert (concat (map (fun s => shard_events s routed) shards) ≡ₚ bes) as Hp.
  { rewrite <- Hroute. apply shards_partition.
    - unfold shards. rewrite map_order_perm. apply NoDup_remove_dups.
    - intros s Hs. unfold shards. by rewrite elem_of_map_order, elem_of_remove_dups. }
  apply (service_write_shards c now routed shards all gone t srv w blocks) in EW as (kept & Hsub & Hok & I'); try done.
  - assert (srv' = srv1 ∧ (wp_Error resp = None → r = Ok tt)) as [-> Hr]
      by (destruct r as [[]|e]; by injection E as <- <-).
    destruct r as [[]|e].
    + exists bes. split; [done|]. split; [done|]. eapply service_ok_perm; [exact I'|]. by rewrite (Hok eq_refl), Hp.
    + exists kept. split; [rewrite <- Hp; by apply sublist_submseteq|]. split; [intros Hx; by specialize (Hr Hx)|done].
  - apply Forall_forall. intros s Hs. unfold shards in Hs.
    rewrite elem_of_map_order, elem_of_remove_dups in Hs. apply list_elem_of_In, in_map_iff in Hs as (p & <- & Hp').
    rewrite Forall_forall in Hrange. apply Hrange. by apply list_elem_of_In.
  - by rewrite Hp.
  - unfold zlen in *. by rewrite Hp.
Qed.

(** *** Stopping *)
Lemma service_stop now shards stopped all gone t srv w blocks :
  service_setting → service_ok stopped all gone t srv w blocks → NoDup shards →
  (∀ s, s ∈ shards → s ∉ stopped) → t <= now → is_i64 now →
  (∀ s sw, s ∈ shards → is_writers srv !! s = Some sw → rows_bytes (waiting sw) < 2 ^ 44) →
  ∃ srv' w' blocks' stopped', stop_writers now shards srv w = Some (srv', w') ∧
    service_ok stopped' all gone now srv' w' blocks' ∧
    (∀ s, is_Some (is_writers srv' !! s) ↔ is_Some (is_writers srv !! s)) ∧
    ∀ s, is_Some (is_writers srv !! s) → s ∈ shards ∨ s ∈ stopped → s ∈ stopped'.
Proof.
  intros Hset I Hnd. revert stopped t srv w blocks I.
  induction Hnd as [|s shards Hni Hnd IH]; intros stopped t srv w blocks I Hdis Hle Hnow Hsz; cbn [stop_writers].
  { exists srv, w, blocks, stopped. split; [done|]. split; [by eapply service_later|]. split; [done|].
    by intros s _ [?%not_elem_of_nil|?]. }
  destruct (is_writers srv !! s) as [sw|] eqn:Es.
  - destruct (service_flush true stopped all gone t srv w blocks s sw now Hset I Es) as (sw' & w' & blocks' & E & I' & _);
      try done; [apply Hdis; left|apply (Hsz s sw); [left|done]|].
    unfold sw_Stop. rewrite E, (sv_cfg _ _ _ _ _ _ _ I).
    destruct (IH (s :: stopped) now _ w' blocks' I') as (srv2 & w2 & blocks2 & st2 & E2 & I2 & Hdom & Hst); try done.
    + intros x Hx. apply not_elem_of_cons. split; [by intros ->|apply Hdis; by right].
    + intros x sw1 Hx. cbn [is_writers]. rewrite lookup_insert_ne by (by intros ->). apply Hsz. by right.
    + assert (∀ x, is_Some (is_writers (mkIngestionServer cfg (<[s := sw']> (is_writers srv))) !! x)
                   ↔ is_Some (is_writers srv !! x)) as Hd.
      { intros x. cbn [is_writers]. rewrite lookup_insert_is_Some. split.
        - intros [<-|[_ ?]]; [by rewrite Es|done].
        - intros Hx. destruct (decide (s = x)); [by left|by right]. }
      exists srv2, w2, blocks2, st2. do 2 (split; [done|]). split; [intros x; by rewrite Hdom, Hd|].
      intros x Hx Hor. apply Hst; [by apply Hd|]. rewrite elem_of_cons in Hor |- *. tauto.
  - destruct (IH stopped t srv w blocks I) as (srv2 & w2 & blocks2 & st2 & E2 & I2 & Hdom & Hst); try done.
    + intros x Hx. apply Hdis. by right.
    + intros x sw1 Hx. apply Hsz. by right.
    + exists srv2, w2, blocks2, st2. do 3 (split; [done|]). intros x Hx Hor. apply Hst; [done|].
      rewrite elem_of_cons in Hor. destruct Hor as [[->|?]|?]; [by rewrite Es in Hx; destruct Hx|by left|by right].
Qed.

(** A stop empties queues, tables and logs. *)
Lemma service_stops all gone t srv w blocks now :
  service_setting → service_ok [] all gone t srv w blocks → t <= now → is_i64 now →
  (∀ s sw, is_writers srv !! s = Some sw → rows_bytes (waiting sw) < 2 ^ 44) →
  ∃ srv' w' blocks' stopped, IngestionServer_Stop now srv w = Some (srv', w') ∧
    service_ok stopped all gone now srv' w' blocks' ∧ pending srv' = [] ∧
    ∀ s, is_u16 s → s < 65535 → wal_log s (view (db w')) = [].
Proof.
  intros Hset I Hle Hnow Hsz. set (shards := map_order (map fst (map_to_list (is_writers srv)))).
  assert (∀ s, is_Some (is_writers srv !! s) → s ∈ shards) as Hall.
  { intros s [sw Hs]. unfold shards. rewrite elem_of_map_order. apply elem_of_map_to_list in Hs.
    apply list_elem_of_In, in_map_iff. exists (s, sw). split; [done|]. by apply list_elem_of_In. }
  destruct (service_stop now shards [] all gone t srv w blocks Hset I)
    as (srv' & w' & blocks' & stopped & E & I' & Hdom & Hstop); try done.
  { unfold shards. rewrite map_order_perm. apply NoDup_fst_map_to_list. }
  { intros s _. apply not_elem_of_nil. }
  { intros s sw _. apply Hsz. }
  assert (∀ s sw, is_writers srv' !! s = Some sw → waiting sw = []) as Hempty.
  { intros s sw Hs. apply (sv_stopped _ _ _ _ _ _ _ I' s sw Hs).
    assert (is_Some (is_writers srv !! s)) as Hx by (apply Hdom; by eexists). auto. }
  exists srv', w', blocks', stopped. do 2 (split; [done|]). split.
  - unfold pending. assert (Forall (fun p => waiting p.2 = []) (map_to_list (is_writers srv'))) as HF.
    { apply Forall_forall. intros [s sw] Hs%elem_of_map_to_list. by apply (Hempty s). }
    induction HF as [|p l Hp _ IH]; [done|]. cbn [map concat]. by rewrite Hp, IH.
  - intros s Hu Hlt. destruct (is_writers srv' !! s) as [sw|] eqn:Es.
    + rewrite (wo_log _ _ _ _ _ (sv_writer _ _ _ _ _ _ _ I' s sw Es)).
      specialize (Hempty s sw Es). unfold waiting in Hempty. apply app_eq_nil in Hempty as [-> _]. done.
    + apply (sv_absent _ _ _ _ _ _ _ I' s Hu Hlt Es).
Qed.

(** ** Histories of the service *)
Record History := mkHistory {
  h_srv : IngestionServer;
  h_world : World;
  h_time : time;
  h_accepted : list Event;
}.

(** A batch that is accepted or refused for its event types, and a tick of one
    writer, whose table stays within what the size limit allows in an hour. *)
Inductive service_step : History → History → Prop :=
  | sp_batch env c now req srv w t acc srv' resp :
      t <= now → is_i64 now → in_range env req → Forall event_ok (batch_events env req) →
      handleBatch env c now srv req = Some (srv', resp) → wp_Error resp = None →
      service_step (mkHistory srv w t acc) (mkHistory srv' w now (acc ++ batch_events env req))
  | sp_refused env c now req srv w t acc srv' resp err :
      t <= now → is_i64 now → handleBatch env c now srv req = Some (srv', resp) →
      wp_Error resp = Some err → er_Code err = 1 →
      service_step (mkHistory srv w t acc) (mkHistory srv' w now acc)
  | sp_tick s sw now srv w t acc sw' w' :
      t <= now → is_i64 now → is_writers srv !! s = Some sw →
      rows_bytes (waiting sw) < 2 ^ 44 →
      hour_over now (sw_openedAt sw) (rows_bytes (waiting sw))
        || (rows_bytes (waiting sw) <? wc_MaxBlockBytes (with_limit cfg)) = true →
      flushAndMaybeSeal false now sw w = Some (sw', w') →
      service_step (mkHistory srv w t acc)
        (mkHistory (mkIngestionServer cfg (<[s := sw']> (is_writers srv))) w' now acc).

Definition history_ok (h : History) : Prop :=
  ∃ blocks, service_ok [] (h_accepted h) [] (h_time h) (h_srv h) (h_world h) blocks.

Lemma service_step_ok h h' :
  service_setting → history_ok h → service_step h h' → zlen (h_accepted h') <= K → history_ok h'.
Proof.
  intros Hset [blocks I] Hstep HK. destruct Hstep; cbn [h_accepted h_time h_srv h_world] in *.
  - exists blocks. edestruct service_batch as (kept & _ & Hk & I'); try done. by rewrite <- (Hk ltac:(done)).
  - exists blocks. unfold handleBatch in *. destruct (ProtoEventsToBlock env (wr_Events req)) as [bes keys].
    destruct (bad_event_type (wr_Events req)).
    + match goal with E : Some _ = Some _ |- _ => injection E as <- <- end. by eapply service_later.
    + destruct (write_shards _ _ _ _ _) as [[srv1 [[]|e]]|]; try done;
        match goal with E : Some _ = Some _ |- _ => injection E as <- <- end; cbn in *; by simplify_eq.
  - destruct (service_flush false [] acc [] t srv w blocks s sw now Hset I) as (sw1 & w1 & blocks1 & E & I' & _);
      try done; [apply not_elem_of_nil|]. exists blocks1. simplify_eq. done.
Qed.

Lemma accepted_grows h h' : rtc service_step h h' → zlen (h_accepted h) <= zlen (h_accepted h').
Proof.
  induction 1 as [h|h1 h2 h3 Hs _ IH]; [done|]. etransitivity; [|exact IH].
  destruct Hs as [env c now req| |]; cbn [h_accepted]; [|done|done]. rewrite zlen_app.
  pose proof (zlen_nonneg (batch_events env req)). lia.
Qed.

Lemma history_reachable h h' :
  service_setting → history_ok h → rtc service_step h h' → zlen (h_accepted h') <= K → history_ok h'.
Proof.
  intros Hset Hok Hs. induction Hs as [h|h1 h2 h3 H12 H23 IH]; [done|]. intros HK.
  apply IH; [|done]. eapply service_step_ok; [done|done|done|]. apply accepted_grows in H23. lia.
Qed.

(** The service starts on a database with nothing left over in the logs, and
    without blocks of the current hour. *)
Record service_start (w : World) : Prop := {
  ss_time : 0 <= t0 ∧ is_i64 t0;
  ss_wal : wal_ok (view (db w));
  ss_W : W (db w);
  ss_disk : sched (fs w) = [];
  ss_co : consistent tiers store blocks0 (view (db w)) (files (fs w));
  ss_names id t' mt : blocks0 !! id = Some (t', mt) → block_id_ok id;
  ss_index : index_sound store blocks0 (view (db w)) (files (fs w));
  ss_shards s : is_u16 s → s < 65535 →
    wal_log s (view (db w)) = [] ∧ seq_room s K (view (db w)) ∧ fresh s (t0 - t0 mod Hour) blocks0;
}.

Lemma start_serves w :
  0 <= K → service_start w → service_ok [] [] [] t0 (NewIngestionServer cfg) w blocks0.
Proof.
  intros HK [[Ht Hi] Hw HW Hd Hco Hn Hcl Hsh].
  split; cbn [NewIngestionServer is_writers is_writerCfg]; try done.
  - intros s Hu Hlt _. destruct (Hsh s Hu Hlt) as (B1 & B2 & B3). split; [done|]. split; [|done].
    eapply seq_room_mono; [exact B2|]. change (zlen (@nil Event)) with 0. lia.
  - exists []. by rewrite !app_nil_r.
Qed.

Lemma start_ok w :
  0 <= K → service_start w → history_ok (mkHistory (NewIngestionServer cfg) w t0 []).
Proof. intros HK Hs. exists blocks0. by apply start_serves. Qed.

Lemma waiting_small h s sw :
  history_ok h → is_writers (h_srv h) !! s = Some sw →
  rows_bytes (waiting sw) <= rows_bytes (h_accepted h).
Proof.
  intros [blocks I] Hs. destruct (sv_events _ _ _ _ _ _ _ I) as (new & _ & Hall).
  destruct (pending_split _ _ _ Hs) as (rest & Hp & _).
  rewrite <- (rows_bytes_perm _ _ Hall), rows_bytes_app, (rows_bytes_perm _ _ Hp), rows_bytes_app.
  pose proof (rows_bytes_nonneg new). pose proof (rows_bytes_nonneg rest). lia.
Qed.

(** The service loses nothing it accepted.  After any history of batches,
    for any shards, interleaved with ticks of the shards' writers in any
    order, on a store and a disk that work: the write-ahead logs, the queues
    and the sealed blocks account for every accepted event; and stopping
    succeeds and leaves queues, tables and logs empty and the blocks holding
    exactly what they held before and every accepted event, each as often as
    it was accepted. *)
Theorem service_loses_nothing w h now :
  0 <= K → service_setting → service_start w →
  rtc service_step (mkHistory (NewIngestionServer cfg) w t0 []) h → zlen (h_accepted h) <= K →
  h_time h <= now → is_i64 now →
  (∀ s sw, is_writers (h_srv h) !! s = Some sw → rows_bytes (waiting sw) < 2 ^ 44) →
  (∀ s sw, is_writers (h_srv h) !! s = Some sw →
     wal_log s (view (db (h_world h))) = map json_Marshal (Rows (sw_memtable sw))) ∧
  (∃ blocks new, consistent tiers store blocks (view (db (h_world h))) (files (fs (h_world h))) ∧
     stored blocks ≡ₚ stored blocks0 ++ new ∧ new ++ pending (h_srv h) ≡ₚ h_accepted h) ∧
  ∃ srv' w' blocks', IngestionServer_Stop now (h_srv h) (h_world h) = Some (srv', w') ∧
    consistent tiers store blocks' (view (db w')) (files (fs w')) ∧
    pending srv' = [] ∧ (∀ s, is_u16 s → s < 65535 → wal_log s (view (db w')) = []) ∧
    stored blocks' ≡ₚ stored blocks0 ++ h_accepted h.
Proof.
  intros HK Hset Hst Hr HKh Hle Hnow Hsz.
  destruct (history_reachable _ _ Hset (start_ok w HK Hst) Hr HKh) as [blocks I].
  split; [intros s sw Hs; apply (sv_writer _ _ _ _ _ _ _ I s sw Hs)|]. split.
  { destruct (sv_events _ _ _ _ _ _ _ I) as (new & Hs & Ha). rewrite app_nil_r in Hs. exists blocks, new. split; [apply I|done]. }
  destruct (service_stops (h_accepted h) [] (h_time h) (h_srv h) (h_world h) blocks now Hset I Hle Hnow Hsz)
    as (srv' & w' & blocks' & stopped & E & I' & Hp & Hlogs).
  exists srv', w', blocks'. split; [exact E|]. split; [apply I'|]. do 2 (split; [done|]).
  destruct (sv_events _ _ _ _ _ _ _ I') as (new & Hs & Ha). rewrite Hp, app_nil_r in Ha.
  rewrite app_nil_r in Hs. by rewrite Hs, Ha.
Qed.
End service.

(** ** One batch for two shards, then the stop *)
Lemma sample_setting : service_setting calm hot_tiers (local_tier hot_store) run_cfg.
Proof.
  split; [by vm_compute|]. intros s Hu Hlt. split.
  - done.
  - reflexivity.
  - apply LocalTierLaws.
  - reflexivity.
  - intros t store' id req Ht Hne _. unfold hot_tiers in Ht.
    by apply lookup_singleton_Some in Ht as [<- _].
  - exact calm_reads.
  - exact calm_writes.
  - intros b. cbn. unfold zlen. simpl. lia.
  - intros b. by eexists.
Qed.

Lemma sample_start :
  service_start calm hot_tiers (local_tier hot_store) (3 * Hour + 1) 10 ∅ empty_world.
Proof.
  split.
  - by vm_compute.
  - exact wal_ok_empty.
  - reflexivity.
  - reflexivity.
  - exact no_blocks.
  - intros id t' mt E. discriminate E.
  - intros et kh id _ [v Hv]. change (view (db empty_world)) with (∅ : gmap bytes bytes) in Hv.
    by rewrite lookup_empty in Hv.
  - intros s Hu Hlt. split; [|split].
    + reflexivity.
    + split; [by vm_compute|]. intros n _ E. discriminate E.
    + intros o _ _. apply lookup_empty.
Qed.

Definition morning_batch : WriteRequest :=
  mkWriteRequest [mkProtoEvent [7] 1 100 [1]; mkProtoEvent [8] 2 0 [2]] (b!"batch").

Lemma sample_event_ok e : e ∈ batch_events sample_env morning_batch → event_ok e.
Proof.
  change (batch_events sample_env morning_batch) with [mkEvent 7 100 [1]; mkEvent 8 55 [2]].
  rewrite !elem_of_cons, elem_of_nil. intros [->|[->|[]]];
    (split; [by vm_compute|split; [by vm_compute|split; [|by vm_compute]]]);
    repeat (apply Forall_cons; split; [by vm_compute|]); apply Forall_nil_2.
Qed.

Lemma later_i64 : is_i64 (3 * Hour + 2).
Proof. by vm_compute. Qed.

Lemma stop_i64 : is_i64 (4 * Hour).
Proof. by vm_compute. Qed.

Lemma morning_range : in_range sample_env morning_batch.
Proof.
  unfold in_range. change (route _ _) with [(263, mkEvent 7 100 [1]); (520, mkEvent 8 55 [2])].
  repeat (apply Forall_cons; split; [by vm_compute|]). apply Forall_nil_2.
Qed.

Lemma morning_count : zlen ([] ++ batch_events sample_env morning_batch) <= 10.
Proof. by vm_compute. Qed.

Lemma morning_bytes : rows_bytes ([] ++ batch_events sample_env morning_batch) < 2 ^ 44.
Proof. by vm_compute. Qed.

Definition morning_server : IngestionServer :=
  match handleBatch sample_env false (3 * Hour + 2) (NewIngestionServer run_cfg) morning_batch with
  | Some (srv, _) => srv
  | None => NewIngestionServer run_cfg
  end.

Lemma morning_handled :
  ∃ resp, handleBatch sample_env false (3 * Hour + 2) (NewIngestionServer run_cfg) morning_batch
          = Some (morning_server, resp) ∧ wp_Error resp = None.
Proof.
  unfold morning_server. destruct (handleBatch _ _ _ _ _) as [[srv resp]|] eqn:E; [|discriminate E].
  exists resp. split; [done|]. by injection E as _ <-.
Qed.

Lemma service_loses_nothing_witness :
  ∃ h srv' w' blocks',
    rtc (service_step run_cfg) (mkHistory (NewIngestionServer run_cfg) empty_world (3 * Hour + 1) []) h ∧
    IngestionServer_Stop (4 * Hour) (h_srv h) (h_world h) = Some (srv', w') ∧
    stored blocks' ≡ₚ [mkEvent 7 100 [1]; mkEvent 8 55 [2]].
Proof.
  destruct morning_handled as (resp & E & He).
  set (h := mkHistory morning_server empty_world (3 * Hour + 2) ([] ++ batch_events sample_env morning_batch)).
  assert (rtc (service_step run_cfg) (mkHistory (NewIngestionServer run_cfg) empty_world (3 * Hour + 1) []) h) as Hr.
  { apply rtc_once. eapply sp_batch; [lia|exact later_i64|exact morning_range| |exact E|exact He].
    apply Forall_forall. exact sample_event_ok. }
  destruct (service_loses_nothing calm hot_tiers (local_tier hot_store) run_cfg (3 * Hour + 1) 10 ∅
              empty_world h (4 * Hour)) as (_ & _ & srv' & w' & blocks' & Es & _ & _ & _ & Hst).
  - lia.
  - exact sample_setting.
  - exact sample_start.
  - exact Hr.
  - exact morning_count.
  - unfold h. cbn [h_time]. unfold Hour, Minute, Second. lia.
  - exact stop_i64.
  - intros s sw Hs. eapply Z.le_lt_trans; [eapply waiting_small; [|exact Hs]|exact morning_bytes].
    eapply history_reachable; [exact sample_setting|apply start_ok; [|exact sample_start]; lia|exact Hr|exact morning_count].
  - exists h, srv', w', blocks'. split; [exact Hr|]. split; [exact Es|exact Hst].
Defined.

(** ** Batches after the stop *)

(** A batch before a stop and one after it, and what is seen of the first event
    of the second: the count acknowledged, the shard's queue, table and log,
    and its block. *)
Record late_view := mkLateView {
  lv_accepted : Z;
  lv_queue : list Event;
  lv_table : list Event;
  lv_log : list bytes;
  lv_block : result (list Event);
}.

Definition late_batch_of (second : WriteRequest) (w : World) : option late_view :=
  match handleBatch sample_env false (3 * Hour + 2) (NewIngestionServer run_cfg) morning_batch with
  | None => None
  | Some (srv, _) =>
      match IngestionServer_Stop (3 * Hour + 3) srv w with
      | None => None
      | Some (srv, w) =>
          match handleBatch sample_env false (3 * Hour + 4) srv second with
          | None => None
          | Some (srv, resp) =>
              match is_writers srv !! 263 with
              | None => None
              | Some sw =>
                  Some (mkLateView (wp_Accepted resp) (ring_content (sw_ring sw)) (Rows (sw_memtable sw))
                          (wal_log 263 (view (db w))) (found (mkEvent 7 100 [1]) w))
              end
          end
      end
  end.

