(* ===== verification/WriterMap.v ===== *)
(** * Writers under concurrent batches: [getOrCreateWriter] of [internal/grpc/ingestion_server.go]

    Every stream's goroutine looks writers up under a read lock and creates a
    missing one under the write lock, after looking again.  The goroutines
    inside the function are a list of positions; the lock is a
    [sync.RWMutex], many readers or one writer.  A schedule is any sequence of
    their steps. *)
From S2P Require Import Prelude Keys.

(** Where a goroutine is in the call for shard [s]; [w] identifies a writer by
    the number of its [NewShardWriter] call. *)
Inductive call_pc :=
  | CEnter (s : ShardID)
  | CReading (s : ShardID)
  | CLooked (s : ShardID) (found : option nat)
  | CMissed (s : ShardID)
  | CLocked (s : ShardID)
  | CAbsent (s : ShardID)
  | CCreated (s : ShardID) (w : nat)
  | CUnlocking (s : ShardID) (w : nat)
  | CReturned (s : ShardID) (w : nat).

(** [wm_created] lists the shards of the [NewShardWriter] calls so far. *)
Record WriterMap := mkWM {
  wm_readers : nat;
  wm_writing : bool;
  wm_writers : gmap ShardID nat;
  wm_created : list ShardID;
  wm_calls : list call_pc;
}.

(** All goroutines are about to call. *)
Definition wm_start (shards : list ShardID) : WriterMap := mkWM 0 false ∅ [] (map CEnter shards).

(** One goroutine's step: lock state, map and created writers before and after. *)
Inductive call_step : call_pc * nat * bool * gmap ShardID nat * list ShardID →
                      call_pc * nat * bool * gmap ShardID nat * list ShardID → Prop :=
  | cs_rlock s rd m cr : call_step (CEnter s, rd, false, m, cr) (CReading s, S rd, false, m, cr)
  | cs_lookup s rd wr m cr : call_step (CReading s, rd, wr, m, cr) (CLooked s (m !! s), rd, wr, m, cr)
  | cs_hit s w rd wr m cr :
      call_step (CLooked s (Some w), S rd, wr, m, cr) (CReturned s w, rd, wr, m, cr)
  | cs_miss s rd wr m cr : call_step (CLooked s None, S rd, wr, m, cr) (CMissed s, rd, wr, m, cr)
  | cs_lock s m cr : call_step (CMissed s, 0%nat, false, m, cr) (CLocked s, 0%nat, true, m, cr)
  | cs_recheck_hit s w rd wr m cr : m !! s = Some w →
      call_step (CLocked s, rd, wr, m, cr) (CUnlocking s w, rd, wr, m, cr)
  | cs_recheck_miss s rd wr m cr : m !! s = None →
      call_step (CLocked s, rd, wr, m, cr) (CAbsent s, rd, wr, m, cr)
  | cs_create s rd wr m cr :
      call_step (CAbsent s, rd, wr, m, cr) (CCreated s (length cr), rd, wr, m, cr ++ [s])
  | cs_store s w rd wr m cr :
      call_step (CCreated s w, rd, wr, m, cr) (CUnlocking s w, rd, wr, <[s := w]> m, cr)
  | cs_unlock s w rd m cr :
      call_step (CUnlocking s w, rd, true, m, cr) (CReturned s w, rd, false, m, cr).

Inductive wm_step : WriterMap → WriterMap → Prop :=
  | wm_call i pc rd wr m cr cs pc' rd' wr' m' cr' :
      cs !! i = Some pc → call_step (pc, rd, wr, m, cr) (pc', rd', wr', m', cr') →
      wm_step (mkWM rd wr m cr cs) (mkWM rd' wr' m' cr' (<[i := pc']> cs)).

Ltac wm_cbn := cbn [wm_readers wm_writing wm_writers wm_created wm_calls] in *.

(** ** The invariant *)
Definition reads (pc : call_pc) : bool := match pc with CReading _ | CLooked _ _ => true | _ => false end.
Definition writes (pc : call_pc) : bool :=
  match pc with CLocked _ | CAbsent _ | CCreated _ _ | CUnlocking _ _ => true | _ => false end.

(** What a goroutine relies on. *)
Definition call_ok (m : gmap ShardID nat) (cr : list ShardID) (pc : call_pc) : Prop :=
  match pc with
  | CLooked s (Some w) | CUnlocking s w | CReturned s w => m !! s = Some w
  | CAbsent s => m !! s = None
  | CCreated s w => m !! s = None ∧ cr !! w = Some s
  | _ => True
  end.

Record wm_inv (x : WriterMap) : Prop := {
  wi_readers : wm_readers x = count reads (wm_calls x);
  wi_writing : Nat.b2n (wm_writing x) = count writes (wm_calls x);
  wi_map s w : wm_writers x !! s = Some w → wm_created x !! w = Some s;
  wi_created s w : wm_created x !! w = Some s →
    wm_writers x !! s = Some w ∨ ∃ i, wm_calls x !! i = Some (CCreated s w);
  wi_calls i pc : wm_calls x !! i = Some pc → call_ok (wm_writers x) (wm_created x) pc;
}.

Lemma wm_inv_start shards : wm_inv (wm_start shards).
Proof.
  assert (∀ P, (∀ s, P (CEnter s) = false) → count P (map CEnter shards) = 0%nat) as Hc.
  { intros P HP. unfold count. induction shards as [|s l IH]; [done|]. cbn [map List.filter]. by rewrite HP. }
  split; cbn [wm_start wm_readers wm_writing wm_writers wm_created wm_calls]; try done.
  - by rewrite Hc.
  - by rewrite Hc.
  - intros i pc (s & -> & _)%list_elem_of_lookup_2%list_elem_of_fmap. done.
Qed.

(** The write lock has one holder. *)
Lemma wm_one_writer x i j pc pc' :
  wm_inv x → wm_calls x !! i = Some pc → wm_calls x !! j = Some pc' →
  writes pc = true → writes pc' = true → i = j.
Proof.
  intros Hx. apply count_one. rewrite <- (wi_writing _ Hx). destruct (wm_writing x); cbn; lia.
Qed.

(** A step that stores no writer and creates none keeps the invariant if the
    lock's counters follow and the goroutine's new position is justified. *)
Lemma wm_inv_move rd wr m cr cs i pc pc' rd' wr' :
  wm_inv (mkWM rd wr m cr cs) → cs !! i = Some pc →
  (∀ s w, pc ≠ CCreated s w) → call_ok m cr pc' →
  (rd' + Nat.b2n (reads pc) = rd + Nat.b2n (reads pc'))%nat →
  (Nat.b2n wr' + Nat.b2n (writes pc) = Nat.b2n wr + Nat.b2n (writes pc'))%nat →
  wm_inv (mkWM rd' wr' m cr (<[i := pc']> cs)).
Proof.
  intros [Hr Hw Hm Hc Hok] Hi Hpc Hnew Erd Ewr; wm_cbn.
  split; wm_cbn.
  - pose proof (count_insert reads cs i pc pc' Hi). lia.
  - pose proof (count_insert writes cs i pc pc' Hi). lia.
  - done.
  - intros s w [?|[j Hj]]%Hc; [by left|]. right. exists j. rewrite list_lookup_insert_ne; [done|].
    intros ->. apply (Hpc s w). congruence.
  - intros j q Hj. apply list_lookup_insert_Some in Hj as [(_ & <- & _)|(_ & Hj)]; [done|]. by eapply Hok.
Qed.

Lemma wm_inv_create rd wr m cr cs i s :
  wm_inv (mkWM rd wr m cr cs) → cs !! i = Some (CAbsent s) →
  wm_inv (mkWM rd wr m (cr ++ [s]) (<[i := CCreated s (length cr)]> cs)).
Proof.
  intros Hx Hi.
  destruct Hx as [Hr Hw Hm Hc Hok]; wm_cbn.
  pose proof (lookup_lt_Some _ _ _ Hi) as Hlt.
  split; wm_cbn.
  - pose proof (count_insert reads cs i _ (CCreated s (length cr)) Hi). cbn in *. lia.
  - pose proof (count_insert writes cs i _ (CCreated s (length cr)) Hi). cbn in *. lia.
  - intros s' w Hs. by apply lookup_app_l_Some, Hm.
  - intros s' w Hs. apply lookup_app_Some in Hs as [Hs|[Hlw Hs]].
    + destruct (Hc _ _ Hs) as [?|[j Hj]]; [by left|]. right. exists j. rewrite list_lookup_insert_ne; [done|].
      intros ->. congruence.
    + right. exists i. apply list_lookup_singleton_Some in Hs as [Hw0 ->].
      rewrite list_lookup_insert_eq; [|done]. do 2 f_equal. lia.
  - intros j q Hj. apply list_lookup_insert_Some in Hj as [(_ & <- & _)|(Hne & Hj)].
    + split; [exact (Hok _ _ Hi)|]. rewrite lookup_app_r by lia. by rewrite Nat.sub_diag.
    + specialize (Hok _ _ Hj). destruct q as [| |? [?|]| | | | | |]; try done; cbn in *.
      destruct Hok. split; [done|]. by apply lookup_app_l_Some.
Qed.

Lemma wm_inv_store rd wr m cr cs i s w :
  wm_inv (mkWM rd wr m cr cs) → cs !! i = Some (CCreated s w) →
  wm_inv (mkWM rd wr (<[s := w]> m) cr (<[i := CUnlocking s w]> cs)).
Proof.
  intros Hx Hi. pose proof (λ j q, wm_one_writer _ i j _ q Hx Hi) as Hone.
  destruct Hx as [Hr Hw Hm Hc Hok]; wm_cbn.
  destruct (Hok _ _ Hi) as [Hnone Hcr].
  split; wm_cbn.
  - pose proof (count_insert reads cs i _ (CUnlocking s w) Hi). cbn in *. lia.
  - pose proof (count_insert writes cs i _ (CUnlocking s w) Hi). cbn in *. lia.
  - intros s' w' [[<- <-]|[_ Hs]]%lookup_insert_Some; [done|]. by apply Hm.
  - intros s' w' Hs. destruct (Hc _ _ Hs) as [Hs'|[j Hj]].
    + left. rewrite lookup_insert_ne; [done|]. congruence.
    + left. assert (i = j) as <- by by apply (Hone j _ Hj). simplify_eq. by rewrite lookup_insert_eq.
  - intros j q Hj. apply list_lookup_insert_Some in Hj as [(_ & <- & _)|(Hne & Hj)]; [by apply lookup_insert_eq|].
    assert (writes q = false) as Hq by (destruct (writes q) eqn:E; [by destruct Hne; apply (Hone j q)|done]).
    specialize (Hok _ _ Hj).
    destruct q as [| |? [?|]| | | | | |]; try done; cbn in *; (rewrite lookup_insert_ne; [done|congruence]).
Qed.

Lemma wm_inv_step x y : wm_inv x → wm_step x y → wm_inv y.
Proof.
  intros Hx Hs. destruct Hs as [i pc rd wr m cr cs pc' rd' wr' m' cr' Hi Hs].
  pose proof (wi_calls _ Hx _ _ Hi) as Hok.
  inversion Hs; subst;
    first [ by apply wm_inv_create | by apply wm_inv_store
          | apply (wm_inv_move _ _ _ _ _ _ _ _ _ _ Hx Hi); [done|try done|cbn; lia|cbn; lia] ].
  cbn. by destruct (m' !! s) eqn:E.
Qed.

Lemma wm_inv_reachable shards x : rtc wm_step (wm_start shards) x → wm_inv x.
Proof.
  intros H. pose proof (wm_inv_start shards) as Hi.
  induction H as [x|x y z Hxy _ IH]; [done|]. apply IH. by eapply wm_inv_step.
Qed.

(** ** Progress: the function cannot deadlock and every call returns. *)
Definition returned (pc : call_pc) : bool := match pc with CReturned _ _ => true | _ => false end.

(** Steps a goroutine has left at most. *)
Definition rank (pc : call_pc) : nat :=
  match pc with
  | CEnter _ => 8 | CReading _ => 7 | CLooked _ _ => 6 | CMissed _ => 5 | CLocked _ => 4
  | CAbsent _ => 3 | CCreated _ _ => 2 | CUnlocking _ _ => 1 | CReturned _ _ => 0
  end.

Definition ranks (cs : list call_pc) : nat := foldr (λ pc n, rank pc + n)%nat 0%nat cs.

Lemma ranks_insert cs i pc pc' :
  cs !! i = Some pc → (ranks (<[i := pc']> cs) + rank pc = ranks cs + rank pc')%nat.
Proof.
  unfold ranks. revert i. induction cs as [|q cs IH]; intros [|i] Hi; try done.
  - injection Hi as ->. change (<[0%nat := pc']> (pc :: cs)) with (pc' :: cs). cbn [foldr]. lia.
  - specialize (IH i Hi). change (<[S i := pc']> (q :: cs)) with (q :: <[i := pc']> cs). cbn [foldr]. lia.
Qed.

Lemma wm_step_ranks x y : wm_step x y → (ranks (wm_calls y) < ranks (wm_calls x))%nat.
Proof.
  intros [i pc rd wr m cr cs pc' rd' wr' m' cr' Hi Hs]. pose proof (ranks_insert cs i pc pc' Hi) as E.
  cbn [wm_calls]. inversion Hs; subst; cbn in E; lia.
Qed.

Lemma wm_nsteps_bounded n x y : nsteps wm_step n x y → (n + ranks (wm_calls y) <= ranks (wm_calls x))%nat.
Proof. induction 1 as [|n x y z Hs _ IH]; [lia|]. apply wm_step_ranks in Hs. lia. Qed.

Lemma ranks_start shards : ranks (map CEnter shards) = (8 * length shards)%nat.
Proof. induction shards as [|s l IH]; cbn [map ranks foldr length]; [done|]. unfold ranks in IH. rewrite IH. cbn. lia. Qed.

(** A goroutine at position [i] that holds the lock can go on. *)
Lemma holder_steps x i pc :
  wm_inv x → wm_calls x !! i = Some pc → reads pc || writes pc = true → ∃ y, wm_step x y.
Proof.
  intros Hx Hi Hh. destruct x as [rd wr m cr cs]. cbn [wm_calls] in Hi.
  pose proof (wi_readers _ Hx) as Hr. pose proof (wi_writing _ Hx) as Hw. wm_cbn.
  destruct pc as [| |s [w|]| |s|s|s w|s w|]; try done.
  - eexists. eapply wm_call; [exact Hi|constructor].
  - pose proof (count_in reads cs i _ Hi eq_refl). destruct rd as [|rd]; [lia|].
    eexists. eapply wm_call; [exact Hi|constructor].
  - pose proof (count_in reads cs i _ Hi eq_refl). destruct rd as [|rd]; [lia|].
    eexists. eapply wm_call; [exact Hi|constructor].
  - destruct (m !! s) eqn:E; eexists; (eapply wm_call; [exact Hi|by constructor]).
  - eexists. eapply wm_call; [exact Hi|constructor].
  - eexists. eapply wm_call; [exact Hi|constructor].
  - pose proof (count_in writes cs i _ Hi eq_refl). destruct wr; [|cbn in Hw; lia].
    eexists. eapply wm_call; [exact Hi|constructor].
Qed.

Lemma wm_progress x i pc :
  wm_inv x → wm_calls x !! i = Some pc → returned pc = false → ∃ y, wm_step x y.
Proof.
  intros Hx Hi Hret.
  destruct (decide (0 < count reads (wm_calls x))%nat) as [(j & q & Hj & Hq)%count_pos|Hr].
  { eapply holder_steps; [done|exact Hj|]. by rewrite Hq. }
  destruct (decide (0 < count writes (wm_calls x))%nat) as [(j & q & Hj & Hq)%count_pos|Hw].
  { eapply holder_steps; [done|exact Hj|]. by rewrite Hq, orb_true_r. }
  destruct x as [rd wr m cr cs]. cbn [wm_calls] in *.
  pose proof (wi_readers _ Hx) as Er. pose proof (wi_writing _ Hx) as Ew. wm_cbn.
  assert (rd = 0%nat) as -> by lia. assert (wr = false) as -> by (destruct wr; [cbn in Ew; lia|done]).
  pose proof (count_in reads cs i pc Hi) as Nr. pose proof (count_in writes cs i pc Hi) as Nw.
  destruct pc; try done; try (by specialize (Nr eq_refl); lia); try (by specialize (Nw eq_refl); lia);
    eexists; (eapply wm_call; [exact Hi|constructor]).
Qed.

(** The writers are never created twice. *)
Lemma wm_created_nodup x : wm_inv x → NoDup (wm_created x).
Proof.
  intros Hx. apply NoDup_alt. intros w w' s Hw Hw'.
  destruct (wi_created _ Hx _ _ Hw) as [Em|[i Ei]], (wi_created _ Hx _ _ Hw') as [Em'|[j Ej]].
  - congruence.
  - destruct (wi_calls _ Hx _ _ Ej). congruence.
  - destruct (wi_calls _ Hx _ _ Ei). congruence.
  - pose proof (wm_one_writer _ _ _ _ _ Hx Ei Ej eq_refl eq_refl). congruence.
Qed.

(** C18: However the calls of any number of streams interleave, each shard gets
    at most one writer, all calls for a shard return that writer and it is the
    one in the map.  No schedule blocks: while a call has not returned some
    goroutine can take a step, and together they take at most eight steps a
    call. *)
Theorem getOrCreateWriter_unique shards n x :
  nsteps wm_step n (wm_start shards) x →
  (n <= 8 * length shards)%nat ∧
  NoDup (wm_created x) ∧
  (∀ i s w, wm_calls x !! i = Some (CReturned s w) →
    wm_writers x !! s = Some w ∧ wm_created x !! w = Some s) ∧
  (∀ i pc, wm_calls x !! i = Some pc → returned pc = false → ∃ y, wm_step x y).
Proof.
  intros Hn. assert (wm_inv x) as Hx by (eapply wm_inv_reachable, rtc_nsteps; eauto).
  apply wm_nsteps_bounded in Hn. cbn [wm_start wm_calls] in Hn. rewrite ranks_start in Hn.
  split; [lia|]. split; [by apply wm_created_nodup|]. split.
  - intros i s w Hi. pose proof (wi_calls _ Hx _ _ Hi) as Hm. cbn in Hm. split; [done|]. by apply (wi_map _ Hx).
  - intros i pc. by apply wm_progress.
Qed.

(** Two calls for one shard both miss; the second one waits for the lock and
    finds the first one's writer. *)
Lemma getOrCreateWriter_unique_witness :
  let x := mkWM 0 false {[ 7 := 0%nat ]} [7] [CReturned 7 0; CReturned 7 0] in
  nsteps wm_step 14 (wm_start [7; 7]) x ∧ NoDup (wm_created x).
Proof.
  intros x.
  assert (nsteps wm_step 14 (wm_start [7; 7]) x) as H.
  { eapply nsteps_l; [exact (wm_call 0 _ _ _ _ _ [CEnter 7; CEnter 7] _ _ _ _ _ eq_refl (cs_rlock 7 0 ∅ []))|].
    eapply nsteps_l; [exact (wm_call 1 _ _ _ _ _ [CReading 7; CEnter 7] _ _ _ _ _ eq_refl (cs_rlock 7 1 ∅ []))|].
    eapply nsteps_l; [exact (wm_call 0 _ _ _ _ _ [CReading 7; CReading 7] _ _ _ _ _ eq_refl (cs_lookup 7 2 false ∅ []))|].
    eapply nsteps_l; [exact (wm_call 1 _ _ _ _ _ [CLooked 7 None; CReading 7] _ _ _ _ _ eq_refl (cs_lookup 7 2 false ∅ []))|].
    eapply nsteps_l; [exact (wm_call 0 _ _ _ _ _ [CLooked 7 None; CLooked 7 None] _ _ _ _ _ eq_refl (cs_miss 7 1 false ∅ []))|].
    eapply nsteps_l; [exact (wm_call 1 _ _ _ _ _ [CMissed 7; CLooked 7 None] _ _ _ _ _ eq_refl (cs_miss 7 0 false ∅ []))|].
    eapply nsteps_l; [exact (wm_call 0 _ _ _ _ _ [CMissed 7; CMissed 7] _ _ _ _ _ eq_refl (cs_lock 7 ∅ []))|].
    eapply nsteps_l; [exact (wm_call 0 _ _ _ _ _ [CLocked 7; CMissed 7] _ _ _ _ _ eq_refl (cs_recheck_miss 7 0 true ∅ [] eq_refl))|].
    eapply nsteps_l; [exact (wm_call 0 _ _ _ _ _ [CAbsent 7; CMissed 7] _ _ _ _ _ eq_refl (cs_create 7 0 true ∅ []))|].
    eapply nsteps_l; [exact (wm_call 0 _ _ _ _ _ [CCreated 7 0; CMissed 7] _ _ _ _ _ eq_refl (cs_store 7 0 0 true ∅ [7]))|].
    eapply nsteps_l; [exact (wm_call 0 _ _ _ _ _ [CUnlocking 7 0; CMissed 7] _ _ _ _ _ eq_refl (cs_unlock 7 0 0 _ [7]))|].
    eapply nsteps_l; [exact (wm_call 1 _ _ _ _ _ [CReturned 7 0; CMissed 7] _ _ _ _ _ eq_refl (cs_lock 7 _ [7]))|].
    eapply nsteps_l; [exact (wm_call 1 _ _ _ _ _ [CReturned 7 0; CLocked 7] _ _ _ _ _ eq_refl (cs_recheck_hit 7 0 0 true {[ 7 := 0%nat ]} [7] eq_refl))|].
    eapply nsteps_l; [exact (wm_call 1 _ _ _ _ _ [CReturned 7 0; CUnlocking 7 0] _ _ _ _ _ eq_refl (cs_unlock 7 0 0 _ [7]))|].
    constructor. }
  split; [exact H|]. apply (getOrCreateWriter_unique [7; 7] 14 x H).
Defined.
