(* ===== verification/QueryServer.v ===== *)
(** * The query service: [internal/grpc/query_server.go]

    The server is written against the [query.Reader] interface: its engine is
    any stateful function from requests to events or an error.  [sends i] is
    the outcome of the [i]-th [stream.Send]. *)
From S2P Require Import Prelude GoTime Keys Event Index Query Ingest.
#[local] Open Scope Z_scope.

Definition queryBatchSize : nat := 256.

Record ProtoQueryRequest := mkProtoQuery {
  pq_PartitionKey : bytes;
  pq_EventType : Z;
  pq_FromNs : Z;
  pq_ToNs : Z;
}.

Record QueryResponse := mkQueryResponse {
  qp_Events : list ProtoEvent;
  qp_IsLast : bool;
  qp_Total : Z;
  qp_Error : option ProtoError;
}.

Definition terminalError (total : Z) (msg : Message) : QueryResponse :=
  mkQueryResponse [] true total (Some (mkProtoError 1 msg)).

(** The request handed to the engine: event type 0 stands for all types, and
    [uint8(v)] keeps the low byte of the others. *)
Definition engine_request (req : ProtoQueryRequest) : QueryRequest :=
  mkQuery (pq_PartitionKey req)
    (if negb (pq_EventType req =? 0) then Some (u8 (pq_EventType req)) else None)
    (pq_FromNs req) (pq_ToNs req).

(** [query.Reader], over the state its implementation works on. *)
Record Reader (S : Type) := mkReader { reader_Query : QueryRequest → ST S (list Event) }.
Arguments mkReader {S} _.
Arguments reader_Query {S} _ _.

Record QueryServer (S : Type) := mkQueryServer { qv_engine : Reader S }.
Arguments mkQueryServer {S} _.
Arguments qv_engine {S} _.

Definition NewQueryServer {S} (engine : Reader S) : QueryServer S := mkQueryServer engine.

Section server.
Context {S : Type} (srv : QueryServer S) (sends : nat → result unit).

(** One [stream.Send]: the message is handed over, whatever comes of it. *)
Definition send (sent : list QueryResponse) (m : QueryResponse) : list QueryResponse * result unit :=
  (sent ++ [m], sends (length sent)).

(** The batching loop; [None] is out of fuel. *)
Fixpoint send_batches (fuel : nat) (protoEvents : list ProtoEvent) (start : nat)
    (sent : list QueryResponse) : option (list QueryResponse * result unit) :=
  match fuel with
  | O => None
  | Datatypes.S fuel =>
      if (start <? length protoEvents)%nat then
        let stop := Nat.min (start + queryBatchSize) (length protoEvents) in
        let batch := take (stop - start) (drop start protoEvents) in
        let isLast := (stop =? length protoEvents)%nat in
        let total := if isLast then u64 (zlen protoEvents) else 0 in
        match send sent (mkQueryResponse batch isLast total None) with
        | (sent, Err e) => Some (sent, Err e)
        | (sent, Ok _) => send_batches fuel protoEvents (start + queryBatchSize) sent
        end
      else Some (sent, Ok tt)
  end.

Definition QueryServer_Query (req : ProtoQueryRequest) (s : S)
  : option (S * (list QueryResponse * result unit)) :=
  if (length (pq_PartitionKey req) =? 0)%nat then
    Some (s, send [] (terminalError 0 (MsgText (b!"partition_key must not be empty"))))
  else if negb (pq_FromNs req <? pq_ToNs req) then
    Some (s, send [] (terminalError 0 (MsgText (b!"from_ns must be before to_ns"))))
  else
    match reader_Query (qv_engine srv) (engine_request req) s with
    | (s, Err e) => Some (s, send [] (terminalError 0 (MsgOf e)))
    | (s, Ok events) =>
        let protoEvents := BlockEventsToProto events (pq_PartitionKey req) in
        match send_batches (Datatypes.S (length protoEvents)) protoEvents 0 [] with
        | None => None
        | Some (sent, Err e) => Some (s, (sent, Err e))
        | Some (sent, Ok _) =>
            if (length protoEvents =? 0)%nat
            then Some (s, send sent (mkQueryResponse [] true 0 None))
            else Some (s, (sent, Ok tt))
        end
    end.
End server.

(** ** The messages of an answer *)

(** A message that is not the last: a full batch. *)
Definition full_batch (m : QueryResponse) : Prop :=
  length (qp_Events m) = queryBatchSize ∧ qp_IsLast m = false ∧ qp_Total m = 0 ∧ qp_Error m = None.

(** Full batches, then one terminal message with the rest and the count. *)
Definition answer (events : list ProtoEvent) (ms : list QueryResponse) : Prop :=
  ∃ front last, ms = front ++ [last] ∧ Forall full_batch front ∧
    concat (map qp_Events ms) = events ∧ (length (qp_Events last) <= queryBatchSize)%nat ∧
    qp_IsLast last = true ∧ qp_Total last = u64 (zlen events) ∧ qp_Error last = None.

(** The same, batch by batch, with the count of the whole answer. *)
Inductive batches (total : Z) : list ProtoEvent → list QueryResponse → Prop :=
  | batches_last l :
      (length l <= queryBatchSize)%nat → batches total l [mkQueryResponse l true total None]
  | batches_more b l ms :
      length b = queryBatchSize → batches total l ms →
      batches total (b ++ l) (mkQueryResponse b false 0 None :: ms).

Lemma batches_answer total l ms :
  batches total l ms →
  ∃ front last, ms = front ++ [last] ∧ Forall full_batch front ∧
    concat (map qp_Events ms) = l ∧ (length (qp_Events last) <= queryBatchSize)%nat ∧
    qp_IsLast last = true ∧ qp_Total last = total ∧ qp_Error last = None.
Proof.
  intros Hb. induction Hb as [l Hl|b l ms Hlen _ (front & last & -> & Hf & Hc & Hlast)].
  - eexists [], _. split; [done|]. split; [constructor|]. cbn. by rewrite app_nil_r.
  - exists (mkQueryResponse b false 0 None :: front), last. split; [done|].
    split; [by constructor|]. split; [|done]. cbn. by rewrite <- Hc.
Qed.

(** [sent] is the answer, or what a failing [Send] left of it. *)
Definition delivered (sends : nat → result unit) (ms sent : list QueryResponse) (r : result unit)
  : Prop :=
  (sent = ms ∧ (r = Ok tt ∨ ∃ i e, sends i = Err e ∧ r = Err e)) ∨
  (sent `prefix_of` ms ∧ ∃ i e, sends i = Err e ∧ r = Err e).

Section proofs.
Context {S : Type} (engine : Reader S).

Lemma send_delivered sends m : delivered sends [m] (send sends [] m).1 (send sends [] m).2.
Proof. left. split; [done|]. cbn. destruct (sends 0%nat) as [[]|e] eqn:E; eauto. Qed.

(** The loop ends, and sends the events from [start] on. *)
Lemma send_batches_spec sends fuel l start sent :
  (length l < fuel + start)%nat → (start < length l)%nat →
  ∃ ms sent' r, send_batches sends fuel l start sent = Some (sent', r) ∧
    batches (u64 (zlen l)) (drop start l) ms ∧ delivered sends (sent ++ ms) sent' r.
Proof.
  revert start sent. induction fuel as [|fuel IH]; intros start sent Hfuel Hlt; [lia|].
  cbn [send_batches]. rewrite (proj2 (Nat.ltb_lt _ _) Hlt). unfold send.
  destruct (Nat.le_gt_cases (length l) (start + queryBatchSize)) as [Hle|Hgt].
  - rewrite Nat.min_r, Nat.eqb_refl by done. rewrite take_ge by (rewrite length_drop; lia).
    eexists [mkQueryResponse (drop start l) true (u64 (zlen l)) None], _, (sends (length sent)).
    split; [|split; [apply batches_last; rewrite length_drop; lia|]].
    + destruct (sends _) as [[]|e]; [|reflexivity]. destruct fuel; [unfold queryBatchSize in *; lia|].
      cbn [send_batches]. by rewrite (proj2 (Nat.ltb_ge _ _) Hle).
    + left. split; [done|]. destruct (sends (length sent)) as [[]|e] eqn:E; eauto.
  - rewrite Nat.min_l, (proj2 (Nat.eqb_neq (start + queryBatchSize) _)) by lia.
    replace (start + queryBatchSize - start)%nat with queryBatchSize by lia.
    set (m := mkQueryResponse (take queryBatchSize (drop start l)) false 0 None).
    destruct (IH (start + queryBatchSize)%nat (sent ++ [m])) as (ms & sent' & r & E & Hb & Hd);
      [unfold queryBatchSize; lia|lia|].
    assert (batches (u64 (zlen l)) (drop start l) (m :: ms)) as Hb'.
    { rewrite <- (take_drop queryBatchSize (drop start l)), drop_drop.
      apply batches_more; [|done]. rewrite length_take, length_drop. lia. }
    destruct (sends (length sent)) as [u|e] eqn:ES.
    + exists (m :: ms), sent', r. split; [done|]. split; [done|]. by rewrite <- app_assoc in Hd.
    + exists (m :: ms), (sent ++ [m]), (Err e). split; [done|]. split; [done|]. right.
      split; [|eauto]. exists ms. by rewrite <- app_assoc.
Qed.

Lemma engine_request_spec req :
  engine_request req
  = mkQuery (pq_PartitionKey req)
      (if decide (pq_EventType req = 0) then None else Some (pq_EventType req mod 256))
      (pq_FromNs req) (pq_ToNs req).
Proof.
  unfold engine_request. destruct (Z.eqb_spec (pq_EventType req) 0); case_decide; done.
Qed.

Lemma QueryServer_spec sends req s :
  ∃ s' sent r ms, QueryServer_Query (NewQueryServer engine) sends req s = Some (s', (sent, r)) ∧
    delivered sends ms sent r ∧
    if (length (pq_PartitionKey req) =? 0)%nat then
      s' = s ∧ ms = [terminalError 0 (MsgText (b!"partition_key must not be empty"))]
    else if negb (pq_FromNs req <? pq_ToNs req) then
      s' = s ∧ ms = [terminalError 0 (MsgText (b!"from_ns must be before to_ns"))]
    else
      let q := mkQuery (pq_PartitionKey req)
                 (if decide (pq_EventType req = 0) then None else Some (pq_EventType req mod 256))
                 (pq_FromNs req) (pq_ToNs req) in
      s' = (reader_Query engine q s).1 ∧
      match (reader_Query engine q s).2 with
      | Err e => ms = [mkQueryResponse [] true 0 (Some (mkProtoError 1 (MsgOf e)))]
      | Ok events => answer (BlockEventsToProto events (pq_PartitionKey req)) ms
      end.
Proof.
  unfold QueryServer_Query. rewrite engine_request_spec. cbv zeta. set (q := mkQuery _ _ _ _).
  destruct (_ =? 0)%nat; [by eexists _, _, _, _; split; [done|]; split; [apply send_delivered|]|].
  destruct (negb _); [by eexists _, _, _, _; split; [done|]; split; [apply send_delivered|]|].
  unfold NewQueryServer. cbn [qv_engine]. destruct (reader_Query engine q s) as [s' [events|e]]; cbn [fst snd];
    [|by eexists _, _, _, _; split; [done|]; split; [apply send_delivered|]].
  set (l := BlockEventsToProto events _). destruct (length l =? 0)%nat eqn:El.
  - apply Nat.eqb_eq, length_zero_iff_nil in El. rewrite El. cbn [length send_batches Nat.ltb Nat.leb].
    eexists _, _, _, _. split; [done|]. split; [apply send_delivered|]. split; [done|].
    eexists [], _. split; [done|]. split; [constructor|]. cbn. split; [done|]. split; [lia|done].
  - apply Nat.eqb_neq in El.
    destruct (send_batches_spec sends (Datatypes.S (length l)) l 0 []) as (ms & sent & r & E & Hb & Hd);
      [lia|lia|]. rewrite E. rewrite drop_0 in Hb.
    exists s', sent, r, ms. split; [by destruct r as [[]|]|]. split; [done|]. split; [done|].
    by destruct (batches_answer _ _ _ Hb) as (front & last & Ha); exists front, last.
Qed.

(** C31: Every query is answered by a well-formed stream.  [Query] always
    returns; an empty key or an empty interval is refused, and an error of the
    engine reported, by one terminal message; otherwise the messages carry
    exactly the engine's events in order, in full batches of 256 and a last
    batch, and the last message and only it is marked as last, with the number
    of events.  Messages are missing at the end only after a failed [Send],
    whose error is returned. *)
Theorem QueryServer_answers sends req s :
  ∃ s' sent r ms, QueryServer_Query (NewQueryServer engine) sends req s = Some (s', (sent, r)) ∧
    delivered sends ms sent r ∧
    if (length (pq_PartitionKey req) =? 0)%nat then
      s' = s ∧ ms = [terminalError 0 (MsgText (b!"partition_key must not be empty"))]
    else if negb (pq_FromNs req <? pq_ToNs req) then
      s' = s ∧ ms = [terminalError 0 (MsgText (b!"from_ns must be before to_ns"))]
    else
      let q := mkQuery (pq_PartitionKey req)
                 (if decide (pq_EventType req = 0) then None else Some (pq_EventType req mod 256))
                 (pq_FromNs req) (pq_ToNs req) in
      s' = (reader_Query engine q s).1 ∧
      match (reader_Query engine q s).2 with
      | Err e => ms = [mkQueryResponse [] true 0 (Some (mkProtoError 1 (MsgOf e)))]
      | Ok events => answer (BlockEventsToProto events (pq_PartitionKey req)) ms
      end.
Proof. apply QueryServer_spec. Qed.
End proofs.
