(* ===== verification/Config.v ===== *)
(** * Configuration: [internal/config/config.go]

    [Load] sets defaults, names environment variables, reads an optional YAML
    file and unmarshals.  viper and mapstructure are third-party code: their
    part is the class [ViperLib], with the documented precedence of sources
    (environment, file, default) and the decoding of a default of a field's own
    type as its laws. *)
From Stdlib Require Import QArith_base.
From S2P Require Import Prelude GoTime GoFmt.
#[local] Open Scope Z_scope.

Record DataConfig := mkDataConfig { PebbleDir : bytes; TmpDir : bytes }.
Record TierDirConfig := mkTierDirConfig { Root : bytes }.
Record TiersConfig := mkTiersConfig { Hot : TierDirConfig; Warm : TierDirConfig; Cold : TierDirConfig }.
Record IngestionConfig := mkIngestionConfig {
  BatchInterval : duration;
  RingBufSize : Z;
  MaxBlockBytes : Z;
}.
Record BlockConfig := mkBlockConfig { BloomFPR : Q; IdxChunkSize : Z }.
Record QueryConfig := mkQueryConfig { MaxParallel : Z; BloomCacheBytes : Z }.
Record TTLConfig := mkTTLConfig {
  RetentionPeriod : duration;
  ReaperInterval : duration;
  ReaperMaxDeletesPerSec : Z;
  JanitorInterval : duration;
  ShutdownTimeout : duration;
}.
Record GRPCConfig := mkGRPCConfig { ListenAddr : bytes }.
Record LogFileConfig := mkLogFileConfig {
  Path : bytes;
  MaxSizeMB : Z;
  MaxBackups : Z;
  MaxAgeDays : Z;
  Compress : bool;
}.
Record LogConfig := mkLogConfig { Level : bytes; Format : bytes; File : LogFileConfig }.

Record Config := mkConfig {
  Data : DataConfig;
  Tiers : TiersConfig;
  Ingestion : IngestionConfig;
  Block : BlockConfig;
  Query : QueryConfig;
  TTL : TTLConfig;
  GRPC : GRPCConfig;
  Log : LogConfig;
}.

(** ** [strings.NewReplacer], [strings.ToUpper] *)

(** The rest of [s] after the prefix [p]. *)
Fixpoint strip (p s : bytes) : option bytes :=
  match p, s with
  | [], s => Some s
  | a :: p, b :: s => if a =? b then strip p s else None
  | _ :: _, [] => None
  end.

(** The first pair, in argument order, whose old string starts [s]. *)
Fixpoint first_match (pairs : list (bytes * bytes)) (s : bytes) : option (bytes * bytes) :=
  match pairs with
  | [] => None
  | (old, new) :: r =>
      match strip old s with
      | Some rest => Some (new, rest)
      | None => first_match r s
      end
  end.

(** From left to right, without rescanning; old strings are not empty, so as
    many rounds as bytes are enough. *)
Fixpoint replace_from (fuel : nat) (pairs : list (bytes * bytes)) (s : bytes) : bytes :=
  match fuel, s with
  | O, _ | _, [] => s
  | S fuel, c :: r =>
      match first_match pairs s with
      | Some (new, rest) => new ++ replace_from fuel pairs rest
      | None => c :: replace_from fuel pairs r
      end
  end.

Definition Replace (pairs : list (bytes * bytes)) (s : bytes) : bytes := replace_from (length s) pairs s.

(** [strings.ToUpper] of ASCII text. *)
Definition upper (c : Z) : Z := if (97 <=? c) && (c <=? 122) then c - 32 else c.
Definition ToUpper (s : bytes) : bytes := map upper s.

(** ** viper *)
Inductive value :=
  | VString (s : bytes)
  | VInt (n : Z)
  | VDuration (d : duration)
  | VFloat (q : Q)
  | VBool (b : bool).

(** What a viper instance was told; [F] is a parsed file. *)
Record Viper (F : Type) := mkViper {
  vp_defaults : list (bytes * value);
  vp_prefix : bytes;
  vp_replacer : list (bytes * bytes);
  vp_auto : bool;
  vp_config : option F;
}.
Arguments mkViper {F}. Arguments vp_defaults {F}. Arguments vp_prefix {F}.
Arguments vp_replacer {F}. Arguments vp_auto {F}. Arguments vp_config {F}.

(** The variable [AutomaticEnv] looks at for a key: prefixed, in upper case,
    rewritten by the replacer. *)
Definition env_name {F} (v : Viper F) (key : bytes) : bytes :=
  Replace (vp_replacer v) (ToUpper (vp_prefix v ++ b!"_" ++ key)).

(** Its value; an empty variable counts as unset. *)
Definition env_value {F} (v : Viper F) (env : bytes → option bytes) (key : bytes) : option bytes :=
  if vp_auto v then
    match env (env_name v key) with Some (c :: s) => Some (c :: s) | _ => None end
  else None.

Definition default_of {F} (v : Viper F) (key : bytes) : option value :=
  (list_find (fun p => p.1 = key) (vp_defaults v)) ≫= fun p => Some p.2.2.

Class ViperLib := {
  file_config : Type;
  read_config : bytes → result file_config;
  raw : Type;
  in_file : file_config → bytes → option raw;
  raw_default : value → raw;
  raw_env : bytes → raw;
  vget : Viper file_config → (bytes → option bytes) → bytes → option raw;
  to_string : raw → result bytes;
  to_int : raw → result Z;
  to_duration : raw → result duration;
  to_float : raw → result Q;
  to_bool : raw → result bool;
  vget_precedence v env key :
    vget v env key
    = match env_value v env key with
      | Some s => Some (raw_env s)
      | None =>
          match vp_config v ≫= fun f => in_file f key with
          | Some r => Some r
          | None => raw_default <$> default_of v key
          end
      end;
  default_string s : to_string (raw_default (VString s)) = Ok s;
  default_int n : to_int (raw_default (VInt n)) = Ok n;
  default_duration d : to_duration (raw_default (VDuration d)) = Ok d;
  default_float q : to_float (raw_default (VFloat q)) = Ok q;
  default_bool b : to_bool (raw_default (VBool b)) = Ok b;
}.

(** ** [Load] *)
Definition defaults : list (bytes * value) := [
  (b!"data.pebble_dir", VString (b!"/data/pebble"));
  (b!"data.tmp_dir", VString (b!"/data/tmp"));
  (b!"tiers.hot.root", VString (b!"/data/tiers/hot"));
  (b!"tiers.warm.root", VString (b!"/data/tiers/warm"));
  (b!"tiers.cold.root", VString (b!"/data/tiers/cold"));
  (b!"ingestion.batch_interval", VDuration (2 * 1000000));
  (b!"ingestion.ring_buf_size", VInt 16384);
  (b!"ingestion.max_block_bytes", VInt (Z.shiftl 256 20));
  (b!"block.bloom_fpr", VFloat (1 # 100));
  (b!"block.idx_chunk_size", VInt 100000);
  (b!"query.max_parallel", VInt 8);
  (b!"query.bloom_cache_bytes", VInt (64 * 1024 * 1024));
  (b!"ttl.retention_period", VDuration (5 * 365 * 24 * Hour));
  (b!"ttl.reaper_interval", VDuration (10 * Minute));
  (b!"ttl.reaper_max_deletes_per_sec", VInt 100);
  (b!"ttl.janitor_interval", VDuration Hour);
  (b!"ttl.shutdown_timeout", VDuration (30 * Second));
  (b!"grpc.listen_addr", VString (b!":7070"));
  (b!"log.level", VString (b!"info"));
  (b!"log.format", VString (b!"json"));
  (b!"log.file.path", VString []);
  (b!"log.file.max_size_mb", VInt 100);
  (b!"log.file.max_backups", VInt 5);
  (b!"log.file.max_age_days", VInt 30);
  (b!"log.file.compress", VBool true)
].

Definition env_replacer : list (bytes * bytes) := [(b!".", b!"__"); (b!"__", b!".")].

(** The instance [Load] configures. *)
Definition load_viper {F} (config : option F) : Viper F :=
  mkViper defaults (b!"BBDB") env_replacer true config.

Section load.
Context `{ViperLib}.

(** A field: decoded from its key, or zero when the key is unknown. *)
Definition field {A} (dec : raw → result A) (zero : A) (v : Viper file_config)
    (env : bytes → option bytes) (key : bytes) : result A :=
  match vget v env key with Some r => dec r | None => Ok zero end.

Definition str_field := field to_string [].
Definition int_field := field to_int 0.
Definition dur_field := field to_duration 0.
Definition float_field := field to_float (0 # 1).
Definition bool_field := field to_bool false.

(** The keys are the [mapstructure] tags along the path to the field. *)
Definition Unmarshal (v : Viper file_config) (env : bytes → option bytes) : result Config :=
  let? pebble_dir := str_field v env (b!"data.pebble_dir") in
  let? tmp_dir := str_field v env (b!"data.tmp_dir") in
  let? hot := str_field v env (b!"tiers.hot.root") in
  let? warm := str_field v env (b!"tiers.warm.root") in
  let? cold := str_field v env (b!"tiers.cold.root") in
  let? batch_interval := dur_field v env (b!"ingestion.batch_interval") in
  let? ring_buf_size := int_field v env (b!"ingestion.ring_buf_size") in
  let? max_block_bytes := int_field v env (b!"ingestion.max_block_bytes") in
  let? bloom_fpr := float_field v env (b!"block.bloom_fpr") in
  let? idx_chunk_size := int_field v env (b!"block.idx_chunk_size") in
  let? max_parallel := int_field v env (b!"query.max_parallel") in
  let? bloom_cache_bytes := int_field v env (b!"query.bloom_cache_bytes") in
  let? retention_period := dur_field v env (b!"ttl.retention_period") in
  let? reaper_interval := dur_field v env (b!"ttl.reaper_interval") in
  let? reaper_max := int_field v env (b!"ttl.reaper_max_deletes_per_sec") in
  let? janitor_interval := dur_field v env (b!"ttl.janitor_interval") in
  let? shutdown_timeout := dur_field v env (b!"ttl.shutdown_timeout") in
  let? listen_addr := str_field v env (b!"grpc.listen_addr") in
  let? level := str_field v env (b!"log.level") in
  let? format := str_field v env (b!"log.format") in
  let? path := str_field v env (b!"log.file.path") in
  let? max_size_mb := int_field v env (b!"log.file.max_size_mb") in
  let? max_backups := int_field v env (b!"log.file.max_backups") in
  let? max_age_days := int_field v env (b!"log.file.max_age_days") in
  let? compress := bool_field v env (b!"log.file.compress") in
  Ok (mkConfig
        (mkDataConfig pebble_dir tmp_dir)
        (mkTiersConfig (mkTierDirConfig hot) (mkTierDirConfig warm) (mkTierDirConfig cold))
        (mkIngestionConfig batch_interval ring_buf_size max_block_bytes)
        (mkBlockConfig bloom_fpr idx_chunk_size)
        (mkQueryConfig max_parallel bloom_cache_bytes)
        (mkTTLConfig retention_period reaper_interval reaper_max janitor_interval shutdown_timeout)
        (mkGRPCConfig listen_addr)
        (mkLogConfig level format (mkLogFileConfig path max_size_mb max_backups max_age_days compress))).

Definition Load (env : bytes → option bytes) (cfgFile : bytes) : result Config :=
  match cfgFile with
  | [] => Unmarshal (load_viper None) env
  | _ =>
      let? f := read_config cfgFile in
      Unmarshal (load_viper (Some f)) env
  end.
End load.

(** ** Where a field's value comes from *)
Section sources.
Context `{ViperLib}.

(** Decoding at the type of the default [d]. *)
Definition decode_as (d : value) (r : raw) : result value :=
  match d with
  | VString _ => rmap VString (to_string r)
  | VInt _ => rmap VInt (to_int r)
  | VDuration _ => rmap VDuration (to_duration r)
  | VFloat _ => rmap VFloat (to_float r)
  | VBool _ => rmap VBool (to_bool r)
  end.

(** The environment, then the file, then the default. *)
Definition source (v : Viper file_config) (env : bytes → option bytes) (key : bytes) (d : value)
  : result value :=
  match env_value v env key with
  | Some s => decode_as d (raw_env s)
  | None =>
      match vp_config v ≫= fun f => in_file f key with
      | Some r => decode_as d r
      | None => Ok d
      end
  end.

Lemma rmap_ok {A B} (f : A → B) r b : rmap f r = Ok b ↔ ∃ a, r = Ok a ∧ f a = b.
Proof.
  destruct r as [a|e]; simpl; [|by split; [|intros (a & ? & _)]].
  split; [intros [= <-]; eauto|by intros (a' & [= <-] & <-)].
Qed.

Lemma field_source {A} (dec : raw → result A) (zero : A) (con : A → value) v env key d :
  default_of v key = Some (con d) → (∀ x y, con x = con y → x = y) →
  (∀ r, decode_as (con d) r = rmap con (dec r)) → dec (raw_default (con d)) = Ok d →
  ∀ x, field dec zero v env key = Ok x ↔ source v env key (con d) = Ok (con x).
Proof.
  intros Hd Hinj Has Hdec x. unfold field, source. rewrite vget_precedence, Hd.
  assert (∀ r, dec r = Ok x ↔ decode_as (con d) r = Ok (con x)) as Hr.
  { intros r. rewrite Has, rmap_ok. split; [eauto|]. by intros (a & -> & ->%Hinj). }
  destruct (env_value v env key); [apply Hr|]. destruct (_ ≫= _) as [r|]; [apply Hr|]. cbn.
  rewrite Hdec. split; intros E; [by injection E as ->|]. injection E as E. by apply Hinj in E as ->.
Qed.

(** The fields of a configuration under their keys. *)
Definition fields (c : Config) : list (bytes * value) := [
  (b!"data.pebble_dir", VString (PebbleDir (Data c)));
  (b!"data.tmp_dir", VString (TmpDir (Data c)));
  (b!"tiers.hot.root", VString (Root (Hot (Tiers c))));
  (b!"tiers.warm.root", VString (Root (Warm (Tiers c))));
  (b!"tiers.cold.root", VString (Root (Cold (Tiers c))));
  (b!"ingestion.batch_interval", VDuration (BatchInterval (Ingestion c)));
  (b!"ingestion.ring_buf_size", VInt (RingBufSize (Ingestion c)));
  (b!"ingestion.max_block_bytes", VInt (MaxBlockBytes (Ingestion c)));
  (b!"block.bloom_fpr", VFloat (BloomFPR (Block c)));
  (b!"block.idx_chunk_size", VInt (IdxChunkSize (Block c)));
  (b!"query.max_parallel", VInt (MaxParallel (Query c)));
  (b!"query.bloom_cache_bytes", VInt (BloomCacheBytes (Query c)));
  (b!"ttl.retention_period", VDuration (RetentionPeriod (TTL c)));
  (b!"ttl.reaper_interval", VDuration (ReaperInterval (TTL c)));
  (b!"ttl.reaper_max_deletes_per_sec", VInt (ReaperMaxDeletesPerSec (TTL c)));
  (b!"ttl.janitor_interval", VDuration (JanitorInterval (TTL c)));
  (b!"ttl.shutdown_timeout", VDuration (ShutdownTimeout (TTL c)));
  (b!"grpc.listen_addr", VString (ListenAddr (GRPC c)));
  (b!"log.level", VString (Level (Log c)));
  (b!"log.format", VString (Format (Log c)));
  (b!"log.file.path", VString (Path (File (Log c))));
  (b!"log.file.max_size_mb", VInt (MaxSizeMB (File (Log c))));
  (b!"log.file.max_backups", VInt (MaxBackups (File (Log c))));
  (b!"log.file.max_age_days", VInt (MaxAgeDays (File (Log c))));
  (b!"log.file.compress", VBool (Compress (File (Log c))))
].

(** A default and a field belong together and the field has its value from
    the right source. *)
Definition sourced (v : Viper file_config) (env : bytes → option bytes) (dflt fld : bytes * value)
  : Prop := dflt.1 = fld.1 ∧ source v env dflt.1 dflt.2 = Ok fld.2.

Lemma str_source v env key d :
  default_of v key = Some (VString d) →
  ∀ x, str_field v env key = Ok x ↔ source v env key (VString d) = Ok (VString x).
Proof. intros Hd. apply field_source; [done|congruence|done|apply default_string]. Qed.

Lemma int_source v env key d :
  default_of v key = Some (VInt d) →
  ∀ x, int_field v env key = Ok x ↔ source v env key (VInt d) = Ok (VInt x).
Proof. intros Hd. apply field_source; [done|congruence|done|apply default_int]. Qed.

Lemma dur_source v env key d :
  default_of v key = Some (VDuration d) →
  ∀ x, dur_field v env key = Ok x ↔ source v env key (VDuration d) = Ok (VDuration x).
Proof. intros Hd. apply field_source; [done|congruence|done|apply default_duration]. Qed.

Lemma float_source v env key d :
  default_of v key = Some (VFloat d) →
  ∀ x, float_field v env key = Ok x ↔ source v env key (VFloat d) = Ok (VFloat x).
Proof. intros Hd. apply field_source; [done|congruence|done|apply default_float]. Qed.

Lemma bool_source v env key d :
  default_of v key = Some (VBool d) →
  ∀ x, bool_field v env key = Ok x ↔ source v env key (VBool d) = Ok (VBool x).
Proof. intros Hd. apply field_source; [done|congruence|done|apply default_bool]. Qed.

(** Moves between a field and its source, at any of the five types. *)
Ltac by_source :=
  first [ eapply str_source | eapply int_source | eapply dur_source
        | eapply float_source | eapply bool_source ]; [reflexivity|eassumption].

Lemma Unmarshal_sources conf env cfg :
  Unmarshal (load_viper conf) env = Ok cfg ↔
  Forall2 (sourced (load_viper conf) env) defaults (fields cfg).
Proof.
  split.
  - unfold Unmarshal. intros E. repeat (apply rbind_ok in E as (? & ? & E)). injection E as <-.
    repeat (apply Forall2_cons; split; [split; [reflexivity|by_source]|]). by apply Forall2_nil.
  - intros F. unfold defaults, fields in F.
    repeat (apply Forall2_cons in F as [[_ ?] F]). cbn [fst snd] in *. unfold Unmarshal.
    repeat (eapply rbind_intro; [by_source|]). by destruct cfg as [[] [[] [] []] [] [] [] [] [] [? ? []]].
Qed.

(** The file [Load] reads, if any. *)
Definition config_file (cfgFile : bytes) : result (option file_config) :=
  match cfgFile with [] => Ok None | _ => rmap Some (read_config cfgFile) end.

Lemma Load_Unmarshal env cfgFile :
  Load env cfgFile = let? conf := config_file cfgFile in Unmarshal (load_viper conf) env.
Proof. unfold Load, config_file. destruct cfgFile; [done|]. by destruct (read_config _). Qed.

(** The documented name of a variable: [BBDB_<SECTION>__<KEY>]. *)
Fixpoint join_sections (l : list bytes) : bytes :=
  match l with [] => [] | [a] => a | a :: r => a ++ b!"__" ++ join_sections r end.
Definition documented_name (key : bytes) : bytes :=
  b!"BBDB_" ++ join_sections (map ToUpper (Split 46 key)).

(** C21: Loading a configuration succeeds exactly when the file, if one is
    given, can be read and every value decodes; then every field, under the
    key its tags give it, has the value of its environment variable if that
    is set and not empty, else of the file, else the default, and every key
    with a default is a field.  The variables have the documented names, no
    two fields share one. *)
Theorem Load_sources env cfgFile cfg :
  (Load env cfgFile = Ok cfg ↔
   ∃ conf, config_file cfgFile = Ok conf ∧
           Forall2 (sourced (load_viper conf) env) defaults (fields cfg)) ∧
  (∀ conf key, key ∈ defaults.*1 →
     env_name (load_viper (F := file_config) conf) key = documented_name key) ∧
  NoDup (map documented_name defaults.*1).
Proof.
  split; [|split].
  - rewrite Load_Unmarshal. split.
    + intros (conf & E1 & E2%Unmarshal_sources)%rbind_ok. eauto.
    + intros (conf & -> & F). by apply Unmarshal_sources.
  - intros conf key Hk.
    assert (map (env_name (load_viper (F := file_config) None)) defaults.*1 = map documented_name defaults.*1) as E
      by (vm_compute; reflexivity).
    apply list_elem_of_lookup in Hk as [i Hi].
    assert (map (env_name (load_viper (F := file_config) None)) defaults.*1 !! i = Some (env_name (load_viper (F := file_config) None) key)) as E1
      by (by rewrite list_lookup_fmap, Hi).
    rewrite E, list_lookup_fmap, Hi in E1. apply (inj Some).
    change (env_name (load_viper conf) key) with (env_name (load_viper (F := file_config) None) key).
    by rewrite <- E1.
  - apply (bool_decide_unpack _). vm_compute. done.
Qed.

(** Without a file and without variables. *)
Definition default_config : Config :=
  mkConfig (mkDataConfig (b!"/data/pebble") (b!"/data/tmp"))
    (mkTiersConfig (mkTierDirConfig (b!"/data/tiers/hot")) (mkTierDirConfig (b!"/data/tiers/warm"))
       (mkTierDirConfig (b!"/data/tiers/cold")))
    (mkIngestionConfig 2000000 16384 268435456) (mkBlockConfig (1 # 100) 100000)
    (mkQueryConfig 8 67108864)
    (mkTTLConfig (43800 * Hour) (600 * Second) 100 (3600 * Second) (30 * Second))
    (mkGRPCConfig (b!":7070"))
    (mkLogConfig (b!"info") (b!"json") (mkLogFileConfig [] 100 5 30 true)).

Lemma Load_defaults : Load (fun _ => None) [] = Ok default_config.
Proof.
  rewrite Load_Unmarshal. apply Unmarshal_sources.
  repeat (apply Forall2_cons; split; [split; [reflexivity|vm_compute; reflexivity]|]). by apply Forall2_nil.
Qed.
End sources.

(** ** A small viper: decimal numbers in variables, no files *)
#[export] Instance ToyViper : ViperLib.
Proof.
  refine {| file_config := Empty_set;
            read_config _ := Err ENotExist;
            raw := value + bytes;
            in_file _ _ := None;
            raw_default := inl;
            raw_env := inr;
            vget v env key :=
              match env_value v env key with Some s => Some (inr s) | None => inl <$> default_of v key end;
            to_string r := match r with inl (VString s) => Ok s | inr s => Ok s | _ => Err (EMsg "string") end;
            to_int r := match r with
                        | inl (VInt n) => Ok n
                        | inr s => match Atoi s with (n, true) => Ok n | _ => Err (EMsg "int") end
                        | _ => Err (EMsg "int")
                        end;
            to_duration r := match r with inl (VDuration d) => Ok d | _ => Err (EMsg "duration") end;
            to_float r := match r with inl (VFloat q) => Ok q | _ => Err (EMsg "float") end;
            to_bool r := match r with inl (VBool b) => Ok b | _ => Err (EMsg "bool") end |}; try done.
  intros v env key. destruct (env_value v env key); [done|]. by destruct (vp_config v) as [[]|].
Defined.

(** One variable set: the size of the ring buffer. *)
Definition one_variable (name : bytes) : option bytes :=
  if decide (name = b!"BBDB_INGESTION__RING_BUF_SIZE") then Some (b!"64") else None.

Definition one_changed : Config :=
  mkConfig (Data default_config) (Tiers default_config) (mkIngestionConfig 2000000 64 268435456)
    (Block default_config) (Query default_config) (TTL default_config) (GRPC default_config)
    (Log default_config).

Lemma Load_sources_witness : Load one_variable [] = Ok one_changed.
Proof.
  apply (Load_sources one_variable [] one_changed). exists None. split; [reflexivity|].
  repeat (apply Forall2_cons; split; [split; [reflexivity|vm_compute; reflexivity]|]). by apply Forall2_nil.
Defined.
