(* ===== verification/Logger.v ===== *)
(** * The logger: [internal/logger/logger.go]

    zap, zapcore and lumberjack are third-party code: the level parser and the
    two stock encoder configurations are parameters; a logger is the list of
    its cores.  The global logger is the state [Init] replaces. *)
From S2P Require Import Prelude Config.
#[local] Open Scope Z_scope.

Inductive TimeEncoder := StockTime | ISO8601TimeEncoder.

(** The fields of [zapcore.EncoderConfig] the program sets. *)
Record EncoderConfig := mkEncoderConfig {
  TimeKey : bytes;
  MessageKey : bytes;
  LevelKey : bytes;
  EncodeTime : TimeEncoder;
}.

Inductive Encoder := ConsoleEncoder (c : EncoderConfig) | JSONEncoder (c : EncoderConfig).

(** [lumberjack.Logger] *)
Record Rotation := mkRotation {
  rot_Filename : bytes;
  rot_MaxSize : Z;
  rot_MaxBackups : Z;
  rot_MaxAge : Z;
  rot_Compress : bool;
}.

Inductive Sink := Stdout | RotatingFile (r : Rotation).
Record Core := mkCore { core_enc : Encoder; core_sink : Sink; core_level : Z }.

Class ZapLib := {
  UnmarshalText : bytes → result Z;
  DevelopmentEncoderConfig : EncoderConfig;
  ProductionEncoderConfig : EncoderConfig;
  (** Flushing what the cores have buffered. *)
  flush_cores : list Core → result unit;
}.

(** [zap.L()]: the tee of its cores; none before [Init]. *)
Abbreviation Globals := (list Core).

Section logger.
Context `{ZapLib}.

Definition parseLevel (s : bytes) : result Z :=
  match UnmarshalText s with
  | Ok l => Ok l
  | Err e => Err (EWrap "unknown log level" e)
  end.

Definition ecs_config : EncoderConfig :=
  mkEncoderConfig (b!"@timestamp") (b!"message") (b!"log.level") ISO8601TimeEncoder.

Definition buildEncoder (format : bytes) : result Encoder :=
  if decide (format = b!"text") then Ok (ConsoleEncoder DevelopmentEncoderConfig)
  else if decide (format = b!"json") then Ok (JSONEncoder ProductionEncoderConfig)
  else if decide (format = b!"json-ecs") then Ok (JSONEncoder ecs_config)
  else Err (EMsg "unknown log format: must be text, json, or json-ecs").

Definition log_cores (cfg : LogConfig) (enc : Encoder) (level : Z) : list Core :=
  let cores := [mkCore enc Stdout level] in
  match Path (File cfg) with
  | [] => cores
  | path =>
      let lj := mkRotation path (MaxSizeMB (File cfg)) (MaxBackups (File cfg)) (MaxAgeDays (File cfg))
                  (Compress (File cfg)) in
      cores ++ [mkCore enc (RotatingFile lj) level]
  end.

Definition Init (cfg : LogConfig) : ST Globals unit := fun globals =>
  match parseLevel (Level cfg) with
  | Err e => (globals, Err e)
  | Ok level =>
      match buildEncoder (Format cfg) with
      | Err e => (globals, Err e)
      | Ok enc => (log_cores cfg enc level, Ok tt)
      end
  end.

(** [zap.L().Sync()] *)
Definition Sync : ST Globals unit := fun globals => (globals, flush_cores globals).

(** The three accepted formats. *)
Definition format_ok (format : bytes) : Prop := format ∈ [b!"text"; b!"json"; b!"json-ecs"].

Lemma buildEncoder_ok format : (∃ enc, buildEncoder format = Ok enc) ↔ format_ok format.
Proof.
  unfold buildEncoder, format_ok. rewrite !elem_of_cons, elem_of_nil.
  destruct (decide (format = b!"text")); [split; eauto|].
  destruct (decide (format = b!"json")); [split; eauto|].
  destruct (decide (format = b!"json-ecs")); [split; eauto|].
  split; [by intros [enc ?]|]. by intros [?|[?|[?|?]]].
Qed.

(** [Init] replaces the global logger exactly when the level and the format are
    known; the new one writes to the standard output and, when a path is
    configured, to a rotating file, both with one encoder and level.
    Otherwise it returns an error and the old logger stays. *)
Theorem Init_spec cfg globals :
  (∃ level enc, UnmarshalText (Level cfg) = Ok level ∧ buildEncoder (Format cfg) = Ok enc ∧
     format_ok (Format cfg) ∧ Init cfg globals = (log_cores cfg enc level, Ok tt) ∧
     Forall (fun c => core_enc c = enc ∧ core_level c = level) (log_cores cfg enc level) ∧
     (∃ c, c ∈ log_cores cfg enc level ∧ core_sink c = Stdout) ∧
     (length (log_cores cfg enc level) = 1%nat ↔ Path (File cfg) = [])) ∨
  (∃ e, Init cfg globals = (globals, Err e) ∧
     ((∃ e', UnmarshalText (Level cfg) = Err e') ∨ ¬ format_ok (Format cfg))).
Proof.
  unfold Init, parseLevel. destruct (UnmarshalText (Level cfg)) as [level|e] eqn:El.
  2: { right. eexists. split; [done|]. left. eauto. }
  destruct (buildEncoder (Format cfg)) as [enc|e] eqn:Ee.
  2: { right. eexists. split; [done|]. right. intros [enc Henc]%buildEncoder_ok. congruence. }
  left. exists level, enc. do 2 (split; [done|]). split; [apply buildEncoder_ok; eauto|]. split; [done|].
  unfold log_cores. destruct (Path (File cfg)) as [|c p]; cbn [app].
  - split; [by repeat constructor|]. split; [|done]. eexists. split; [left|done].
  - split; [by repeat constructor|]. split; [|done]. eexists. split; [left|done].
Qed.
End logger.
