(* ===== verification/Interceptor.v ===== *)
(** * The interceptors: [internal/grpc/interceptor.go], [internal/grpc/request_id.go]

    Every RPC goes through an interceptor that gives its context a request
    identifier, calls the handler and writes one log line.  The random number
    of the identifier and the two clock readings are arguments; the handler
    works on a state of its own; the log is the list of lines written. *)
From S2P Require Import Prelude GoTime GoFmt Keys Event.
#[local] Open Scope Z_scope.

(** ** Contexts *)
Inductive ctxKey := requestIDKey | otherKey (n : nat).
#[export] Instance ctxKey_eq_dec : EqDecision ctxKey.
Proof. solve_decision. Defined.

(** A context value is of some dynamic type. *)
Inductive any := AnyString (s : bytes) | AnyOther.

Abbreviation Context := (list (ctxKey * any)).

Definition WithValue (ctx : Context) (k : ctxKey) (v : any) : Context := (k, v) :: ctx.

Fixpoint Value (ctx : Context) (k : ctxKey) : option any :=
  match ctx with
  | [] => None
  | (k', v) :: r => if decide (k = k') then Some v else Value r k
  end.

(** [v, _ := ctx.Value(requestIDKey).(string)] *)
Definition RequestIDFromContext (ctx : Context) : bytes :=
  match Value ctx requestIDKey with Some (AnyString s) => s | _ => [] end.

(** [fmt.Sprintf] with [%08x] of [rand.Uint32()]. *)
Definition newRequestID (rnd : Z) : bytes := sprintf_0x 8 rnd.

(** ** Log lines *)
Inductive LogLevel := DebugLevel | InfoLevel | WarnLevel | ErrorLevel.

Record LogLine := mkLine {
  ln_level : LogLevel;
  ln_msg : string;
  ln_request_id : bytes;
  ln_method : bytes;
  ln_duration : duration;
  ln_error : option error;
}.

Definition rpc_line (kind : string) (reqID method : bytes) (d : duration) (err : option error) : LogLine :=
  match err with
  | Some e => mkLine ErrorLevel (kind ++ " RPC failed") reqID method d (Some e)
  | None => mkLine DebugLevel (kind ++ " RPC") reqID method d None
  end.

Definition err_of {A} (r : result A) : option error := match r with Ok _ => None | Err e => Some e end.

Section interceptors.
Context {S Req Resp Stream : Type}.

Definition UnaryAuthInterceptor (rnd : Z) (start stop : time) (method : bytes)
    (handler : Context → Req → ST S Resp) (ctx : Context) (req : Req) : ST (S * list LogLine) Resp :=
  fun '(s, log) =>
    let reqID := newRequestID rnd in
    let ctx := WithValue ctx requestIDKey (AnyString reqID) in
    let '(s', r) := handler ctx req s in
    ((s', log ++ [rpc_line "unary" reqID method (stop - start) (err_of r)]), r).

(** A stream and its context; the wrapper replaces the context only. *)
Record ServerStream := mkStream { ss_stream : Stream; ss_Context : Context }.

Definition wrappedStream (ss : ServerStream) (ctx : Context) : ServerStream := mkStream (ss_stream ss) ctx.

Definition StreamAuthInterceptor (rnd : Z) (start stop : time) (method : bytes)
    (handler : ServerStream → ST S unit) (ss : ServerStream) : ST (S * list LogLine) unit :=
  fun '(s, log) =>
    let reqID := newRequestID rnd in
    let ctx := WithValue (ss_Context ss) requestIDKey (AnyString reqID) in
    let '(s', r) := handler (wrappedStream ss ctx) s in
    ((s', log ++ [rpc_line "stream" reqID method (stop - start) (err_of r)]), r).

(** A line is an error line exactly when the call failed. *)
Lemma rpc_line_level kind reqID method d err :
  ln_level (rpc_line kind reqID method d err) = ErrorLevel ↔ is_Some err.
Proof. destruct err as [e|]; cbn; split; [by eexists|done|done|by intros [? ?]]. Qed.

Lemma with_request_id ctx reqID :
  RequestIDFromContext (WithValue ctx requestIDKey (AnyString reqID)) = reqID ∧
  ∀ k, k ≠ requestIDKey → Value (WithValue ctx requestIDKey (AnyString reqID)) k = Value ctx k.
Proof. split; [done|]. intros k Hk. cbn. by rewrite decide_False. Qed.

(** The interceptors are transparent: the handler runs once, on a context that
    differs in the request identifier only, its state change and its result
    are the call's, and one line is logged, at error level exactly when the
    call failed, under the identifier the handler sees. *)
Theorem interceptors_transparent rnd start stop method
    (h : Context → Req → ST S Resp) (hs : ServerStream → ST S unit) ctx req ss s log :
  (∃ ctx' line, RequestIDFromContext ctx' = newRequestID rnd ∧
     (∀ k, k ≠ requestIDKey → Value ctx' k = Value ctx k) ∧
     UnaryAuthInterceptor rnd start stop method h ctx req (s, log)
     = (((h ctx' req s).1, log ++ [line]), (h ctx' req s).2) ∧
     ln_request_id line = RequestIDFromContext ctx' ∧
     (ln_level line = ErrorLevel ↔ ∃ e, (h ctx' req s).2 = Err e)) ∧
  (∃ ctx' line, RequestIDFromContext ctx' = newRequestID rnd ∧
     (∀ k, k ≠ requestIDKey → Value ctx' k = Value (ss_Context ss) k) ∧
     StreamAuthInterceptor rnd start stop method hs ss (s, log)
     = (((hs (wrappedStream ss ctx') s).1, log ++ [line]), (hs (wrappedStream ss ctx') s).2) ∧
     ln_request_id line = RequestIDFromContext ctx' ∧
     (ln_level line = ErrorLevel ↔ ∃ e, (hs (wrappedStream ss ctx') s).2 = Err e)).
Proof.
  assert (∀ A kind reqID d (r : result A),
    ln_level (rpc_line kind reqID method d (err_of r)) = ErrorLevel ↔ ∃ e, r = Err e) as Hl.
  { intros A kind reqID d r. rewrite rpc_line_level.
    destruct r as [a|e]; cbn; split; [by intros [? ?]|by intros [? ?]|eauto|by eexists]. }
  assert (∀ A kind reqID d (r : result A), ln_request_id (rpc_line kind reqID method d (err_of r)) = reqID) as Hi
    by by intros A kind reqID d [].
  split.
  - destruct (with_request_id ctx (newRequestID rnd)) as [H1 H2]. unfold UnaryAuthInterceptor.
    set (ctx' := WithValue ctx requestIDKey _) in *. destruct (h ctx' req s) as [s' r] eqn:E.
    exists ctx'. eexists. split; [done|]. split; [done|]. rewrite E.
    split; [reflexivity|]. split; [by rewrite Hi|apply Hl].
  - destruct (with_request_id (ss_Context ss) (newRequestID rnd)) as [H1 H2]. unfold StreamAuthInterceptor.
    set (ctx' := WithValue (ss_Context ss) requestIDKey _) in *.
    destruct (hs (wrappedStream ss ctx') s) as [s' r] eqn:E.
    exists ctx'. eexists. split; [done|]. split; [done|]. rewrite E.
    split; [reflexivity|]. split; [by rewrite Hi|apply Hl].
Qed.
End interceptors.

(** Calls with different random numbers have different identifiers, of
    hexadecimal digits only. *)
Lemma newRequestID_unique a b :
  is_u32 a → is_u32 b → Forall hexchar (newRequestID a) ∧ (newRequestID a = newRequestID b → a = b).
Proof.
  intros Ha Hb. unfold is_u32 in *. split; [apply sprintf_0_hexchars; lia|]. apply sprintf_0x_inj; lia.
Qed.
