(* ===== verification/Server.v ===== *)
(** * Putting the server together: [New] of [internal/server/server.go], [NewServer] of
    [internal/grpc/server.go], [Open] and [Close] of [internal/meta/db.go]

    [New] makes directories, opens the database and the three tiers and hands
    them to the engine, the reaper, the janitor and the gRPC services.
    [pebble.Open] is third-party code, a parameter. *)
From Stdlib Require Import QArith_base.
From S2P Require Import Prelude GoTime GoFmt GoOs Pebble PebbleRef Keys Wal Event Memtable Bloom Format Tier World.
From S2P Require Import Sealer RingBuf BlockReader Index BloomCache Query Ttl Writer WriterRun Ingest QueryPar Config.
#[local] Open Scope Z_scope.

Class PebbleDriver `{PebbleOps} := { pebble_Open : bytes → ST FS pdb }.

(** The process: its disk and the database it has open. *)
Record Process `{PebbleOps} := mkProcess { pr_fs : FS; pr_db : option pdb }.

Record GrpcServer `{BloomLib} := mkGrpcServer {
  gs_listenAddr : bytes;
  gs_ingestion : IngestionServer;
  gs_engine : Engine;
}.

(** [grpc.NewServer] and the registrations keep the two services. *)
Definition NewServer `{BloomLib} (listenAddr : bytes) (writerCfg : WriterConfig) (engine : Engine)
  : GrpcServer :=
  let ing := NewIngestionServer writerCfg in
  mkGrpcServer _ listenAddr ing engine.

Record Server `{PebbleOps} `{BloomLib} := mkServer {
  sv_engine : Engine;
  sv_reaper : ReaperConfig;
  sv_janitor : JanitorConfig;
  sv_tiers : gmap Tier TierStore;
  sv_writerCfg : WriterConfig;
  sv_grpcServer : GrpcServer;
  sv_shutdownTimeout : duration;
  sv_onShutdown : option (Process → Process);
}.

Section new.
Context `{PebbleDriver} `{BloomLib}.

Definition p_fs {A} (m : ST FS A) : ST Process A := fun p =>
  let '(f, r) := m (pr_fs p) in (mkProcess _ f (pr_db p), r).

Definition Open (dir : bytes) : ST Process unit := fun p =>
  match pebble_Open dir (pr_fs p) with
  | (f, Ok d) => (mkProcess _ f (Some d), Ok tt)
  | (f, Err e) => (mkProcess _ f (pr_db p), Err e)
  end.

(** What [Close] returns is ignored wherever it is called. *)
Definition Close (p : Process) : Process := mkProcess _ (pr_fs p) None.

(** [if err != nil { db.Close(); return nil, err }] *)
Definition or_close {A} (m : ST Process A) : ST Process A := st_onerr m Close.

Fixpoint mkdirs (dirs : list bytes) : ST Process unit :=
  match dirs with
  | [] => st_ret tt
  | dir :: r => p_fs (MkdirAll dir) ;;; mkdirs r
  end.

Definition tier_map (hot warm cold : LocalStore) : gmap Tier TierStore :=
  <[TierHot := local_tier hot]> (<[TierWarm := local_tier warm]> {[TierCold := local_tier cold]}).

Definition writer_config (cfg : Config) (hot : LocalStore) : WriterConfig := {|
  wc_BatchInterval := BatchInterval (Ingestion cfg);
  wc_RingBufSize := RingBufSize (Ingestion cfg);
  wc_Store := Some (local_tier hot);
  wc_TmpDir := TmpDir (Data cfg);
  wc_Retention := RetentionPeriod (TTL cfg);
  wc_MaxBlockBytes := MaxBlockBytes (Ingestion cfg);
  wc_BloomFPR := BloomFPR (Block cfg);
  wc_IdxChunkSize := IdxChunkSize (Block cfg);
|}.

Definition shutdown_timeout (cfg : Config) : duration :=
  if ShutdownTimeout (TTL cfg) <=? 0 then 30 * Second else ShutdownTimeout (TTL cfg).

(** The components, once the stores are open. *)
Definition assemble (cfg : Config) (hot warm cold : LocalStore) : Server :=
  let tiers := tier_map hot warm cold in
  let bloomCache := NewBloomCache (local_tier hot) (BloomCacheBytes (Config.Query cfg)) in
  let engine := NewEngine bloomCache tiers (mkEngineConfig (MaxParallel (Config.Query cfg))) in
  let writerCfg := writer_config cfg hot in {|
    sv_engine := engine;
    sv_reaper := NewReaper (mkReaperConfig (ReaperInterval (TTL cfg)) (ReaperMaxDeletesPerSec (TTL cfg)) tiers);
    sv_janitor := NewJanitor (mkJanitorConfig (JanitorInterval (TTL cfg)) tiers);
    sv_tiers := tiers;
    sv_writerCfg := writerCfg;
    sv_grpcServer := NewServer (ListenAddr (GRPC cfg)) writerCfg engine;
    sv_shutdownTimeout := shutdown_timeout cfg;
    sv_onShutdown := None;
  |}.

Definition New (cfg : Config) : ST Process Server :=
  mkdirs [PebbleDir (Data cfg); TmpDir (Data cfg)] ;;;
  Open (PebbleDir (Data cfg)) ;;;
  let! hotStore := or_close (p_fs (NewLocalStore (Root (Hot (Tiers cfg))) TierHot)) in
  let! warmStore := or_close (p_fs (NewLocalStore (Root (Warm (Tiers cfg))) TierWarm)) in
  let! coldStore := or_close (p_fs (NewLocalStore (Root (Cold (Tiers cfg))) TierCold)) in
  st_ret (assemble cfg hotStore warmStore coldStore).

(** The accessors; the hook is the one field that changes after [New]. *)
Definition Server_WriterConfig (s : Server) : WriterConfig := sv_writerCfg s.
Definition QueryEngine (s : Server) : Engine := sv_engine s.

Definition OnShutdown (fn : Process → Process) (s : Server) : Server :=
  mkServer _ _ (sv_engine s) (sv_reaper s) (sv_janitor s) (sv_tiers s) (sv_writerCfg s) (sv_grpcServer s)
    (sv_shutdownTimeout s) (Some fn).

(** [Shutdown]: the hook if there is one, then the database is closed. *)
Definition Shutdown (s : Server) (p : Process) : Process :=
  Close (match sv_onShutdown s with Some fn => fn p | None => p end).

Lemma p_fs_db {A} (m : ST FS A) p p' r : p_fs m p = (p', r) → pr_db p' = pr_db p.
Proof. unfold p_fs. destruct (m (pr_fs p)). by intros [= <- _]. Qed.

Lemma mkdirs_db dirs p p' r : mkdirs dirs p = (p', r) → pr_db p' = pr_db p.
Proof.
  revert p. induction dirs as [|d dirs IH]; intros p; cbn [mkdirs]; [by intros [= <- _]|].
  unfold st_bind. destruct (p_fs (MkdirAll d) p) as [p1 [[]|e]] eqn:E; apply p_fs_db in E.
  - intros E'%IH. congruence.
  - by intros [= <- _].
Qed.

(** A tier's store, or an error with the database closed. *)
Lemma open_tier root t p p' r :
  or_close (p_fs (NewLocalStore root t)) p = (p', r) →
  (r = Ok (mkLocal root t) ∧ pr_db p' = pr_db p) ∨ (∃ e, r = Err e) ∧ pr_db p' = None.
Proof.
  unfold or_close, st_onerr. destruct (p_fs (NewLocalStore root t) p) as [p1 [st|e]] eqn:E.
  - intros [= <- <-]. left. split; [|by eapply p_fs_db]. unfold p_fs, NewLocalStore, st_bind in E.
    destruct (MkdirAll _ (pr_fs p)) as [f [[]|e]]; [|done]. by injection E as _ <-.
  - intros [= <- <-]. right. split; [by eexists|done].
Qed.

Lemma New_spec cfg p p' r :
  pr_db p = None → New cfg p = (p', r) →
  match r with
  | Ok srv => is_Some (pr_db p') ∧
      srv = assemble cfg (mkLocal (Root (Hot (Tiers cfg))) TierHot)
              (mkLocal (Root (Warm (Tiers cfg))) TierWarm) (mkLocal (Root (Cold (Tiers cfg))) TierCold)
  | Err _ => pr_db p' = None
  end.
Proof.
  intros Hp. unfold New, st_bind.
  destruct (mkdirs _ p) as [p1 [[]|e]] eqn:E1; apply mkdirs_db in E1; rewrite Hp in E1; [|by intros [= <- <-]].
  unfold Open. destruct (pebble_Open _ (pr_fs p1)) as [f [d|e]]; [|by intros [= <- <-]].
  set (p2 := mkProcess _ f (Some d)).
  destruct (or_close _ p2) as [p3 r3] eqn:E3. apply open_tier in E3 as [[-> D3]|[[e ->] D3]]; [|by intros [= <- <-]].
  destruct (or_close _ p3) as [p4 r4] eqn:E4. apply open_tier in E4 as [[-> D4]|[[e ->] D4]]; [|by intros [= <- <-]].
  destruct (or_close _ p4) as [p5 r5] eqn:E5. apply open_tier in E5 as [[-> D5]|[[e ->] D5]]; [|by intros [= <- <-]].
  intros [= <- <-]. split; [|done]. rewrite D5, D4, D3. by eexists.
Qed.
End new.

(** ** The tiers do not overlap *)
Lemma app_sep_inj {A} (c : A) l1 l2 r1 r2 :
  c ∉ l1 → c ∉ l2 → l1 ++ c :: r1 = l2 ++ c :: r2 → l1 = l2 ∧ r1 = r2.
Proof.
  revert l2. induction l1 as [|x l1 IH]; intros [|y l2] H1 H2 E; cbn in E.
  - by injection E as ->.
  - injection E as <- _. by destruct H2; left.
  - injection E as -> _. by destruct H1; left.
  - injection E as -> E. apply not_elem_of_cons in H1 as [_ H1], H2 as [_ H2].
    by destruct (IH l2 H1 H2 E) as [-> ->].
Qed.

Lemma last_component_inj (a b x y : bytes) :
  slash ∉ x → slash ∉ y → a ++ slash :: x = b ++ slash :: y → a = b ∧ x = y.
Proof.
  intros Hx Hy E. apply (f_equal (@rev Z)) in E. rewrite !rev_app_distr in E. cbn [rev] in E.
  rewrite <- !app_assoc in E. cbn [app] in E.
  apply app_sep_inj in E as [E1 E2]; [|by rewrite list_elem_of_In, <- in_rev, <- list_elem_of_In..].
  apply (f_equal (@rev Z)) in E1, E2. by rewrite !rev_involutive in *.
Qed.

(** The directory of a store's blocks. *)
Definition blocks_dir (st : LocalStore) : bytes := Join [ls_root st; b!"blocks"].

(** A file of a block, below the directory. *)
Lemma local_file_dir st shard t ext :
  is_u16 shard → is_i64 t → slash ∉ ext → (2 < length ext)%nat →
  Join [ls_root st; b!"blocks"; sprintf_0x 4 (u16 shard); hour_string t ++ ext]
  = (blocks_dir st ++ slash :: sprintf_0x 4 (u16 shard)) ++ slash :: hour_string t ++ ext.
Proof.
  intros Hs Ht Hext Hlen. unfold blocks_dir. destruct (Join_plain (ls_root st)) as [pre Hpre].
  assert (plain (b!"blocks")) as Hb
    by (repeat split; try done; apply (no_slash_lit "blocks"); vm_compute; reflexivity).
  assert (Forall plain [b!"blocks"; sprintf_0x 4 (u16 shard); hour_string t ++ ext]) as Hall.
  { repeat (apply Forall_cons; split); [done|by apply shard_string_plain| |apply Forall_nil_2].
    by apply file_plain; [apply hour_string_no_slash| |]. }
  rewrite (Hpre [b!"blocks"; sprintf_0x 4 (u16 shard); hour_string t ++ ext]) by done.
  rewrite (Hpre [b!"blocks"]) by (done || by apply Forall_singleton).
  cbn [join_slash]. by rewrite <- !app_assoc.
Qed.

(** Equal paths are in one directory and of one block. *)
Lemma local_file_inj st st' s s' t t' ext :
  is_u16 s → is_u16 s' → is_i64 t → is_i64 t' → slash ∉ ext → (2 < length ext)%nat →
  Join [ls_root st; b!"blocks"; sprintf_0x 4 (u16 s); hour_string t ++ ext]
  = Join [ls_root st'; b!"blocks"; sprintf_0x 4 (u16 s'); hour_string t' ++ ext] →
  blocks_dir st = blocks_dir st' ∧ BlockIDForShard s t = BlockIDForShard s' t'.
Proof.
  intros Hs Hs' Ht Ht' Hext Hlen E. rewrite !local_file_dir in E by done.
  assert (∀ u, is_i64 u → slash ∉ hour_string u ++ ext) as Hh.
  { intros u Hu. rewrite not_elem_of_app. split; [by apply hour_string_no_slash|done]. }
  apply last_component_inj in E as [E1 E2]; [|by apply Hh..].
  apply last_component_inj in E1 as [E1 E3]; [|by apply shard_string_plain..].
  apply app_inv_tail in E2. split; [done|]. unfold BlockIDForShard, BlockIDFromShardAndHour. by rewrite E2, E3.
Qed.

Lemma block_path_name st st' id id' :
  block_id_ok id → block_id_ok id' → LocalBlockPath st id = LocalBlockPath st' id' →
  blocks_dir st = blocks_dir st' ∧ id = id'.
Proof.
  intros (s & t & Hs & Ht & ->) (s' & t' & Hs' & Ht' & ->). unfold LocalBlockPath. rewrite !splitBlockID_ok by done.
  apply local_file_inj; try done; [by apply no_slash_lit|vm_compute; lia].
Qed.

Lemma bloom_path_name st st' id id' :
  block_id_ok id → block_id_ok id' → LocalBloomPath st id = LocalBloomPath st' id' →
  blocks_dir st = blocks_dir st' ∧ id = id'.
Proof.
  intros (s & t & Hs & Ht & ->) (s' & t' & Hs' & Ht' & ->). unfold LocalBloomPath. rewrite !splitBlockID_ok by done.
  apply local_file_inj; try done; [by apply no_slash_lit|vm_compute; lia].
Qed.

Lemma block_paths_apart st st' id id' :
  block_id_ok id → block_id_ok id' → blocks_dir st ≠ blocks_dir st' →
  LocalBlockPath st id ≠ LocalBlockPath st' id'.
Proof. intros Hid Hid' Hne [? _]%block_path_name; done. Qed.

(** Two blocks never share a file, whatever local tiers they are in. *)
Lemma local_tier_files (tiers : gmap Tier TierStore) id id' q :
  (∀ t st, tiers !! t = Some st → ∃ ls, st = local_tier ls) →
  block_id_ok id → block_id_ok id' → id ≠ id' → tier_file tiers id q → ¬ tier_file tiers id' q.
Proof.
  intros Hloc Hid Hid' Hne (t & st & Ht & Hq) (t' & st' & Ht' & Hq').
  destruct (Hloc _ _ Ht) as [ls ->], (Hloc _ _ Ht') as [ls' ->].
  destruct Hq as [Hq|Hq], Hq' as [Hq'|Hq']; rewrite Hq in Hq'; cbn in Hq'.
  - by apply block_path_name in Hq' as [_ ?].
  - by apply LocalBlock_ne_LocalBloom in Hq'.
  - symmetry in Hq'. by apply LocalBlock_ne_LocalBloom in Hq'.
  - by apply bloom_path_name in Hq' as [_ ?].
Qed.

(** A store's block files are apart from what a seal into another store writes. *)
Lemma tiers_apart st hot req id :
  sealreq_ok req → block_id_ok id → sr_Store req = local_tier hot →
  blocks_dir st ≠ blocks_dir hot → LocalBlockPath st id ∉ seal_paths req.
Proof.
  intros Hreq Hid Hst Hne. pose proof (seal_id_ok req Hreq) as Hid'.
  destruct (tmp_path_shape req Hreq) as [p Hp]. unfold seal_paths. rewrite Hst, Hp, !not_elem_of_cons.
  split; [|split; [|split; [|apply not_elem_of_nil]]].
  - by apply (tmp_path_ne (ts := local_tier st) id p Hid).
  - by apply LocalBlock_ne_LocalBloom.
  - by apply block_paths_apart.
Qed.

(** ** A server's parts fit together *)
Section composition.
Context `{PebbleDriver} `{!Pebble} `{SliceSort} `{MapOrder} `{BloomLib} `{Zstd} `{XXHash}.

(** The three tiers keep their blocks in different directories. *)
Definition roots_apart (cfg : Config) : Prop :=
  NoDup (map (fun root => Join [root; b!"blocks"])
           [Root (Hot (Tiers cfg)); Root (Warm (Tiers cfg)); Root (Cold (Tiers cfg))]).

Lemma tier_map_lookup hot warm cold t store :
  tier_map hot warm cold !! t = Some store →
  (t = TierHot ∧ store = local_tier hot) ∨ (t = TierWarm ∧ store = local_tier warm) ∨
  (t = TierCold ∧ store = local_tier cold).
Proof.
  unfold tier_map. intros [[<- <-]|[_ E]]%lookup_insert_Some; [by left|].
  apply lookup_insert_Some in E as [[<- <-]|[_ E]]; [by right; left|].
  apply lookup_singleton_Some in E as [<- <-]. by right; right.
Qed.

(** The writers of every shard run in the setting in which nothing is lost. *)
Lemma assembled_setting cfg W s :
  roots_apart cfg → reads_work W → writes_work W → zstd_bound → (∀ b, ∃ data, Serialize b = Ok data) →
  is_u16 s → s < 65535 →
  let hot := mkLocal (Root (Hot (Tiers cfg))) TierHot in
  let srv := assemble cfg hot (mkLocal (Root (Warm (Tiers cfg))) TierWarm) (mkLocal (Root (Cold (Tiers cfg))) TierCold) in
  setting W (sv_tiers srv) (local_tier hot) s (with_limit (sv_writerCfg srv)).
Proof.
  intros Hap HR HW Hz Hb Hs Hlt hot srv. unfold roots_apart in Hap. cbn [map] in Hap.
  apply NoDup_cons in Hap as [Hap _]. rewrite !not_elem_of_cons in Hap. destruct Hap as (Hw & Hc & _).
  split; try done.
  - unfold with_limit. by destruct (_ <=? 0).
  - apply LocalTierLaws.
  - intros t store' id req Ht Hne Hid Hreq Hst _ _.
    apply tier_map_lookup in Ht as [[-> _]|[[_ ->]|[_ ->]]]; [done| |].
    + eapply tiers_apart; [done|done|exact Hst|]. by apply not_eq_sym.
    + eapply tiers_apart; [done|done|exact Hst|]. by apply not_eq_sym.
Qed.

End composition.

(** The default configuration keeps the tiers apart. *)
Lemma default_roots_apart : roots_apart default_config.
Proof. unfold roots_apart. apply (bool_decide_unpack _). vm_compute. done. Qed.

(** A driver that opens an empty reference store. *)
#[export] Instance RefDriver : PebbleDriver := { pebble_Open dir := fun f => (f, Ok empty_db) }.

Definition booting : Process := mkProcess RefOps (mkFS ∅ []) None.

