(* ===== verification/System.v ===== *)
(** * The running system and the event store it implements

    One process at work: the ingestion service with the writers of its shards,
    the query engine with its cache of filters, the reaper and the janitor,
    over one store and one disk.  Their operations interleave in any order; a
    batch, a tick of a writer, a query and one entry of the reaper or of the
    janitor are each one step.

    What a client may rely on is stated by a small abstract store of events:
    batches are taken, taken events wait under their shard and then move
    together into a sealed block, a block disappears when its hour of expiry
    has come, and a query is answered from the sealed blocks.  The system is
    shown to be a refinement of it.

    Outside the steps: stores and disks that fail, a writer whose table
    reaches the size limit within an hour, shard 0xffff, and several streams
    that feed one shard at the same time. *)
From S2P Require Import Prelude GoTime GoFmt GoOs Pebble PebbleRef Keys Wal BlockMetaDB IdxDB Expiry Event Memtable.
From S2P Require Import Bloom Format Tier World Sealer RingBuf BlockReader Heap Merger Index BloomCache Query QueryExact.
From S2P Require Import Ttl Reap Writer WriterRun Ingest IngestRun.
#[local] Open Scope Z_scope.

(** ** Labels and runs *)

(** What is seen from outside: a batch that was acknowledged, one that was
    answered with an error, a query with its outcome, and the expiry of a
    block. *)
Inductive Label :=
  | Stored (batch : list (ShardID * Event))
  | Failed (batch : list (ShardID * Event))
  | Answered (req : QueryRequest) (r : result (list Event))
  | Expired (id : BlockID)
  | Silent.

Definition visible (l : Label) : list Label := match l with Silent => [] | _ => [l] end.

(** Runs with the sequence of their visible labels. *)
Inductive runs_to {S} (step : S → Label → S → Prop) : S → list Label → S → Prop :=
  | rt_refl s : runs_to step s [] s
  | rt_step s l s1 tr s2 : step s l s1 → runs_to step s1 tr s2 → runs_to step s (visible l ++ tr) s2.

Lemma runs_to_app {S} (step : S → Label → S → Prop) s1 s2 s3 tr1 tr2 :
  runs_to step s1 tr1 s2 → runs_to step s2 tr2 s3 → runs_to step s1 (tr1 ++ tr2) s3.
Proof.
  induction 1 as [|s l s1' tr s2' Hs _ IH]; [done|]. intros Hr. rewrite <- app_assoc.
  by eapply rt_step; [|apply IH].
Qed.

Lemma runs_to_one {S} (step : S → Label → S → Prop) s l s' : step s l s' → runs_to step s (visible l) s'.
Proof. intros Hs. rewrite <- (app_nil_r (visible l)). eapply rt_step; [exact Hs|apply rt_refl]. Qed.

(** The events of all batches, and of those that were acknowledged. *)
Fixpoint submitted (tr : list Label) : list (ShardID * Event) :=
  match tr with
  | [] => []
  | Stored es :: r | Failed es :: r => es ++ submitted r
  | _ :: r => submitted r
  end.

Fixpoint acknowledged (tr : list Label) : list (ShardID * Event) :=
  match tr with
  | [] => []
  | Stored es :: r => es ++ acknowledged r
  | _ :: r => acknowledged r
  end.

(** The blocks that expired. *)
Fixpoint expiries (tr : list Label) : list BlockID :=
  match tr with
  | [] => []
  | Expired id :: r => id :: expiries r
  | _ :: r => expiries r
  end.

Lemma submitted_app tr tr' : submitted (tr ++ tr') = submitted tr ++ submitted tr'.
Proof. induction tr as [|[] tr IH]; cbn; rewrite ?IH, ?app_assoc; done. Qed.

Lemma acknowledged_app tr tr' : acknowledged (tr ++ tr') = acknowledged tr ++ acknowledged tr'.
Proof. induction tr as [|[] tr IH]; cbn; rewrite ?IH, ?app_assoc; done. Qed.

Lemma expiries_app tr tr' : expiries (tr ++ tr') = expiries tr ++ expiries tr'.
Proof. induction tr as [|[] tr IH]; cbn; rewrite ?IH; done. Qed.

(** What a step may have taken into the queues: a batch when it is acknowledged,
    some of it when it fails. *)
Definition took (l : Label) (kept : list Event) : Prop :=
  match l with
  | Stored es => kept = map snd es
  | Failed es => kept ⊆+ map snd es
  | _ => kept = []
  end.

(** ** The abstract store *)
Record Sealed := mkSealed {
  se_tier : Tier;
  se_table : Memtable;
  se_type : Z;
  se_expiry : Z;
}.

Record EventStore := mkStore {
  ev_sealed : gmap BlockID Sealed;
  ev_waiting : ShardID → list Event;
  ev_now : time;
}.

Definition base (b : Sealed) : Tier * Memtable := (se_tier b, se_table b).

Definition type_of (sealed : gmap BlockID Sealed) (id : BlockID) : Z :=
  match sealed !! id with Some b => se_type b | None => 0 end.

Definition valid_query (req : QueryRequest) : Prop := qr_PartitionKey req ≠ [] ∧ qr_From req < qr_To req.

(** The block of a shard's table that was opened at [o]. *)
Definition block_of `{SliceSort} (retention : duration) (s : ShardID) (o : time) (mt : Memtable) : Sealed :=
  mkSealed TierHot (Sort mt) (shard_event_type s) (u64 (o / Hour + retention_hours retention)).

Section store.
Context `{Pebble} `{BloomLib} `{Zstd} `{XXHash} `{MapOrder} `{SliceSort}.

(** The rows a query asks for. *)
Definition store_rows (sealed : gmap BlockID Sealed) (req : QueryRequest) : list Event :=
  query_rows (type_of sealed) (base <$> sealed) req.

Inductive store_step (retention : duration) : EventStore → Label → EventStore → Prop :=
  | es_stored batch st waiting' now :
      ev_now st <= now → (∀ s, waiting' s ≡ₚ ev_waiting st s ++ shard_events s batch) →
      store_step retention st (Stored batch) (mkStore (ev_sealed st) waiting' now)
  | es_failed batch st waiting' now :
      ev_now st <= now → (∀ s, ∃ n, waiting' s ≡ₚ ev_waiting st s ++ take n (shard_events s batch)) →
      store_step retention st (Failed batch) (mkStore (ev_sealed st) waiting' now)
  | es_seal s o mt st now :
      ev_now st <= now → o mod Hour = 0 → o <= now → ev_sealed st !! BlockIDForShard s o = None →
      Rows mt ≡ₚ ev_waiting st s →
      store_step retention st Silent
        (mkStore (<[BlockIDForShard s o := block_of retention s o mt]> (ev_sealed st))
           (fun s' => if decide (s' = s) then [] else ev_waiting st s') now)
  | es_expire id b st :
      ev_sealed st !! id = Some b → se_expiry b * Hour <= ev_now st →
      store_step retention st (Expired id) (mkStore (delete id (ev_sealed st)) (ev_waiting st) (ev_now st))
  | es_answer req evs st :
      valid_query req → StronglySorted ev_le evs → evs ≡ₚ store_rows (ev_sealed st) req →
      store_step retention st (Answered req (Ok evs)) st
  | es_reject req e st :
      ¬ valid_query req → store_step retention st (Answered req (Err e)) st
  | es_wait st now :
      ev_now st <= now → store_step retention st Silent (mkStore (ev_sealed st) (ev_waiting st) now).
End store.

(** ** The system *)
Section system.
Context `{Pebble} `{SliceSort} `{MapOrder} `{BloomLib} `{Zstd} `{XXHash}.
Context (W : pdb → Prop) (tiers : gmap Tier TierStore) (store : TierStore) (cfg : WriterConfig).

(** [y_reap] and [y_sweep] are the entries the reaper and the janitor have
    found due and not yet handled in their cycles. *)
Record Sys := mkSys {
  y_srv : IngestionServer;
  y_world : World;
  y_cache : BloomCache;
  y_time : time;
  y_reap : list ExpiredEntry;
  y_sweep : list ExpiredEntry;
}.

Definition routed_batch (env : Env) (req : WriteRequest) : list (ShardID * Event) :=
  route (wr_Events req) (ProtoEventsToBlock env (wr_Events req)).

(** A batch as it is seen from outside. *)
Definition batch_label (env : Env) (req : WriteRequest) (resp : WriteResponse) : Label :=
  match wp_Error resp with None => Stored (routed_batch env req) | Some _ => Failed (routed_batch env req) end.

(** What is left of a cycle after a scan or an entry: nothing after an error. *)
Definition remaining {A} (r : result A) (rest : A → list ExpiredEntry) : list ExpiredEntry :=
  match r with Ok a => rest a | Err _ => [] end.

Inductive sys_step : Sys → Label → Sys → Prop :=
  | sy_batch env c now req srv w ca t rl sl srv' resp :
      t <= now → is_i64 now → in_range env req → Forall event_ok (batch_events env req) →
      handleBatch env c now srv req = Some (srv', resp) →
      sys_step (mkSys srv w ca t rl sl)
        (batch_label env req resp)
        (mkSys srv' w ca now rl sl)
  | sy_tick s sw now srv w ca t rl sl sw' w' :
      t <= now → is_i64 now → is_writers srv !! s = Some sw →
      rows_bytes (waiting sw) < 2 ^ 44 →
      hour_over now (sw_openedAt sw) (rows_bytes (waiting sw))
        || (rows_bytes (waiting sw) <? wc_MaxBlockBytes (with_limit cfg)) = true →
      flushAndMaybeSeal false now sw w = Some (sw', w') →
      sys_step (mkSys srv w ca t rl sl) Silent
        (mkSys (mkIngestionServer cfg (<[s := sw']> (is_writers srv))) w' ca now rl sl)
  | sy_query req srv w ca t rl sl q r :
      Query tiers req (mkQState (db w) ca (fs w)) = (q, r) →
      sys_step (mkSys srv w ca t rl sl) (Answered req r)
        (mkSys srv (mkWorld _ (qs_db q) (qs_fs q)) (qs_cache q) t rl sl)
  | sy_reap_scan now srv w ca t sl w' r :
      t <= now → is_i64 now → on_db (ScanExpiredEntries (now_hour now)) w = (w', r) →
      sys_step (mkSys srv w ca t [] sl) Silent (mkSys srv w' ca now (remaining r id) sl)
  | sy_reap_entry e srv w ca t rl sl w' r :
      reap_one tiers e w = (w', r) →
      sys_step (mkSys srv w ca t (e :: rl) sl)
        (match r with Ok true => Expired (ee_ID e) | _ => Silent end)
        (mkSys srv w' ca t (remaining r (fun _ => rl)) sl)
  | sy_reap_stop srv w ca t rl sl :
      sys_step (mkSys srv w ca t rl sl) Silent (mkSys srv w ca t [] sl)
  | sy_sweep_scan now srv w ca t rl w' r :
      t <= now → is_i64 now → on_db (ScanExpiredEntries (now_hour now)) w = (w', r) →
      sys_step (mkSys srv w ca t rl []) Silent (mkSys srv w' ca now rl (remaining r id))
  | sy_sweep_entry e srv w ca t rl sl w' r :
      sweep_one tiers e w = (w', r) →
      sys_step (mkSys srv w ca t rl (e :: sl)) Silent (mkSys srv w' ca t rl (remaining r (fun _ => sl)))
  | sy_sweep_stop srv w ca t rl sl :
      sys_step (mkSys srv w ca t rl sl) Silent (mkSys srv w ca t rl []).
End system.
