(* ===== verification/SystemRefines.v ===== *)
(** * The system refines the event store

    The relation between a state of the system and one of the abstract store,
    and that every step of the system is matched: what the store, the logs, the
    disk, the cache and the running cycles hold is tied to the sealed blocks
    and the waiting events of the abstract store. *)
From S2P Require Import Prelude GoTime GoFmt GoOs Pebble PebbleRef Keys Wal BlockMetaDB IdxDB Expiry Event Memtable.
From S2P Require Import Bloom Format Tier World Sealer RingBuf BlockReader Heap Merger Index BloomCache Query QueryExact.
From S2P Require Import Ttl Reap Writer WriterRun Ingest IngestRun System.
#[local] Open Scope Z_scope.

(** ** What a batch leaves alone *)
Definition table_at (srv : IngestionServer) (s : ShardID) : list Event :=
  match is_writers srv !! s with Some sw => Rows (sw_memtable sw) | None => [] end.

Definition waiting_at (srv : IngestionServer) (s : ShardID) : list Event :=
  match is_writers srv !! s with Some sw => waiting sw | None => [] end.

Lemma waiting_at_split srv s : waiting_at srv s = table_at srv s ++ queued srv s.
Proof. unfold waiting_at, table_at, queued, waiting. by destruct (is_writers srv !! s). Qed.

(** When the next block of the shard was or will at the earliest be opened;
    [t0] is the start of the service. *)
Definition next_open (t0 : time) (srv : IngestionServer) (s : ShardID) : time :=
  match is_writers srv !! s with Some sw => sw_openedAt sw | None => t0 - t0 mod Hour end.

Lemma sw_Write_keeps c sw es sw' r :
  sw_Write c sw es = Some (sw', r) → sw_memtable sw' = sw_memtable sw ∧ sw_openedAt sw' = sw_openedAt sw.
Proof.
  revert sw. induction es as [|e es IH]; intros sw; cbn [sw_Write]; [by intros [= <- _]|].
  destruct (Push c (sw_ring sw) e) as [[ring []]|]; [by intros E%IH|by intros [= <- _]|done].
Qed.

Section batch.
Context `{XXHash} `{MapOrder}.

Lemma getOrCreateWriter_keeps t0 now srv s srv' sw :
  t0 - t0 mod Hour <= now - now mod Hour → getOrCreateWriter now srv s = Some (srv', sw) →
  is_writers srv' !! s = Some sw ∧
  ∀ x, table_at srv' x = table_at srv x ∧ next_open t0 srv x <= next_open t0 srv' x.
Proof.
  intros Ht. unfold getOrCreateWriter. destruct (is_writers srv !! s) as [sw0|] eqn:Es; [by intros [= <- <-]|].
  unfold NewShardWriter. destruct (NewRingBuf _) as [ring|]; [|done]. intros [= <- <-]. cbn [is_writers].
  rewrite lookup_insert_eq. split; [done|]. intros x. unfold table_at, next_open. cbn [is_writers].
  destruct (decide (s = x)) as [<-|Hne]; [|by rewrite lookup_insert_ne].
  rewrite lookup_insert_eq, Es. cbn [sw_memtable sw_openedAt]. unfold hourBoundary. by rewrite Truncate_Hour.
Qed.

Lemma write_shards_keeps t0 c now routed shards srv srv' r :
  t0 - t0 mod Hour <= now - now mod Hour → write_shards c now routed shards srv = Some (srv', r) →
  ∀ x, table_at srv' x = table_at srv x ∧ next_open t0 srv x <= next_open t0 srv' x.
Proof.
  intros Ht. revert srv. induction shards as [|s shards IH]; intros srv; cbn [write_shards]; [by intros [= <- _]|].
  destruct (getOrCreateWriter now srv s) as [[srv1 sw]|] eqn:EG; [|done].
  destruct (sw_Write c sw (shard_events s routed)) as [[sw' r1]|] eqn:EW; [|done].
  destruct (getOrCreateWriter_keeps _ _ _ _ _ _ Ht EG) as [Hs Hk]. apply sw_Write_keeps in EW as [Hm Ho].
  set (srv2 := mkIngestionServer _ _).
  assert (∀ x, table_at srv2 x = table_at srv x ∧ next_open t0 srv x <= next_open t0 srv2 x) as H2.
  { intros x. destruct (Hk x) as [<- Hle]. revert Hle. unfold table_at, next_open, srv2. cbn [is_writers].
    destruct (decide (s = x)) as [<-|Hne]; [|by rewrite !lookup_insert_ne]. by rewrite lookup_insert_eq, Hs, Hm, Ho. }
  destruct r1 as [[]|e]; [|by intros [= <- _]]. intros E x. destruct (IH _ E x) as [-> ?], (H2 x). split; [done|lia].
Qed.

(** A batch moves events into queues, all of them or, shard by shard, a prefix. *)
Lemma handleBatch_waiting t0 env c now srv req srv' resp :
  server_ok srv → t0 - t0 mod Hour <= now - now mod Hour → handleBatch env c now srv req = Some (srv', resp) →
  ∀ s, next_open t0 srv s <= next_open t0 srv' s ∧
    ∃ n, waiting_at srv' s = waiting_at srv s ++ take n (shard_events s (routed_batch env req)) ∧
         (wp_Error resp = None →
          take n (shard_events s (routed_batch env req)) = shard_events s (routed_batch env req)).
Proof.
  intros Hok Ht. unfold handleBatch, routed_batch.
  destruct (ProtoEventsToBlock env (wr_Events req)) as [bes keys].
  destruct (bad_event_type (wr_Events req)) as [et|].
  { intros [= <- <-] s. split; [done|]. exists 0%nat. by rewrite app_nil_r. }
  destruct (write_shards _ _ _ _ _) as [[srv1 r]|] eqn:EW; [|done]. intros E s.
  assert (srv1 = srv' ∧ (wp_Error resp = None → r = Ok tt)) as [-> Hr] by (destruct r as [[]|e]; by injection E as <- <-).
  destruct (write_shards_keeps _ _ _ _ _ _ _ _ Ht EW s) as [Hm Ho]. split; [done|].
  apply write_shards_all in EW as [_ Hq]; [|done]. destruct (Hq s) as (n & Hn & Hall).
  exists n. rewrite !waiting_at_split, Hm, Hn, app_assoc. auto.
Qed.
End batch.

(** ** The relation *)
Section refines.
Context `{Pebble} `{SliceSort} `{MapOrder} `{BloomLib} `{Zstd} `{XXHash}.
Context (W : pdb → Prop) (tiers : gmap Tier TierStore) (store : TierStore) (cfg : WriterConfig).
Context (t0 : time) (K : Z) (sealed0 : gmap BlockID Sealed).
Context (Hset : service_setting W tiers store cfg) (Htk : tiers_ok W tiers store).

Abbreviation Held := (gmap BlockID Sealed).
Abbreviation serves := (service_ok W tiers store cfg t0 K (base <$> sealed0)).

(** No block will be sealed under this name any more. *)
Definition past (srv : IngestionServer) (id : BlockID) : Prop :=
  ∀ s o, is_u16 s → s < 65535 → is_i64 o → next_open t0 srv s <= o → id ≠ BlockIDForShard s o.

(** The entries of the index and of the expiry queue agree with the blocks, and
    those of deleted blocks are of the past. *)
Record entries_ok (srv : IngestionServer) (sealed : Held) (m : gmap bytes bytes) : Prop := {
  eo_typed : index_typed (type_of sealed) (base <$> sealed) m;
  eo_queued id b : sealed !! id = Some b → is_u64 (se_expiry b) ∧ expires (se_expiry b) id m;
  eo_hour h id b : is_u64 h → expires h id m → sealed !! id = Some b → h = se_expiry b;
  eo_index_past et kh id : is_u64 kh → indexed et kh id m → past srv id;
  eo_expiry_past h id : is_u64 h → expires h id m → past srv id;
}.

(** The cache holds filters of the past, and of the blocks those on disk. *)
Record cache_ok (srv : IngestionServer) (sealed : Held) (ca : BloomCache) (f : gmap bytes bytes) : Prop := {
  ca_store : bc_store ca = store;
  ca_inv : cache_inv ca;
  ca_warm : warm (base <$> sealed) ca f;
  ca_past x : x ∈ cached_ids ca → past srv x;
}.

(** An entry of a running cycle: it was due. *)
Record entry_ok (srv : IngestionServer) (sealed : Held) (now : time) (e : ExpiredEntry) : Prop := {
  en_hour : is_u64 (ee_Hour e) ∧ ee_Hour e * Hour <= now;
  en_past : past srv (ee_ID e);
  en_block b : sealed !! ee_ID e = Some b → se_expiry b = ee_Hour e;
}.

(** The rows of blocks that are gone. *)
Definition expired_rows (ex : list Sealed) : list Event := concat (map (fun b => Rows (se_table b)) ex).

(** [all] was taken into the queues so far, and the blocks [ex] were deleted. *)
Record implements (all : list Event) (ex : list Sealed) (y : Sys) (st : EventStore) : Prop := {
  im_service : serves [] all (expired_rows ex) (y_time y) (y_srv y) (y_world y) (base <$> ev_sealed st);
  im_due : Forall (fun b => se_expiry b * Hour <= y_time y) ex;
  im_now : ev_now st = y_time y;
  im_waiting s : waiting_at (y_srv y) s ≡ₚ ev_waiting st s;
  im_entries : entries_ok (y_srv y) (ev_sealed st) (view (db (y_world y)));
  im_cache : cache_ok (y_srv y) (ev_sealed st) (y_cache y) (files (fs (y_world y)));
  im_reap e : e ∈ y_reap y → entry_ok (y_srv y) (ev_sealed st) (y_time y) e;
  im_sweep e : e ∈ y_sweep y → entry_ok (y_srv y) (ev_sealed st) (y_time y) e;
}.

(** *** Names of the past stay so *)
Lemma past_mono srv srv' id :
  (∀ s, next_open t0 srv s <= next_open t0 srv' s) → past srv id → past srv' id.
Proof. intros Hm Hp s o Hs Hlt Ho Hle. apply Hp; try done. specialize (Hm s). lia. Qed.

Lemma entries_mono srv srv' sealed m :
  (∀ s, next_open t0 srv s <= next_open t0 srv' s) → entries_ok srv sealed m → entries_ok srv' sealed m.
Proof.
  intros Hm []. split; try done.
  - intros et kh id Hk Hi. eapply past_mono; eauto.
  - intros h id Hh Hi. eapply past_mono; eauto.
Qed.

Lemma cache_mono srv srv' sealed ca f :
  (∀ s, next_open t0 srv s <= next_open t0 srv' s) → cache_ok srv sealed ca f → cache_ok srv' sealed ca f.
Proof. intros Hm []. split; try done. intros x Hx. eapply past_mono; eauto. Qed.

Lemma entry_mono srv srv' sealed t t' e :
  (∀ s, next_open t0 srv s <= next_open t0 srv' s) → t <= t' → entry_ok srv sealed t e → entry_ok srv' sealed t' e.
Proof. intros Hm Ht [[? ?] ? ?]. split; [split; [done|lia]|by eapply past_mono|done]. Qed.

Lemma floor_mono t t' : t <= t' → t - t mod Hour <= t' - t' mod Hour.
Proof. intros Ht. rewrite !floor_div. apply Z.mul_le_mono_nonneg_l; [done|]. by apply Z.div_le_mono. Qed.

Lemma serves_server_ok all gone t srv w blocks : serves [] all gone t srv w blocks → server_ok srv.
Proof.
  intros []. split; [rewrite sv_cfg; apply Hset|]. intros s sw Hs.
  by destruct (sv_writer s sw Hs) as [[? _] _ ? _ _ _ _ _].
Qed.

Lemma serves_stable all gone t srv w blocks : serves [] all gone t srv w blocks → stable W tiers store blocks w.
Proof. intros []. by split. Qed.

(** The service on a store and a disk without some of the blocks, the logs as
    they were. *)
Lemma serves_world all gone gone' t srv w w' blocks blocks' :
  serves [] all gone t srv w blocks → stable W tiers store blocks' w' →
  (∀ s q, view (db w') !! WALKey s q = view (db w) !! WALKey s q) →
  (∀ s, view (db w') !! WALSeqKey s = view (db w) !! WALSeqKey s) →
  (∀ id b, blocks' !! id = Some b → blocks !! id = Some b) →
  stored blocks' ++ gone' ≡ₚ stored blocks ++ gone → serves [] all gone' t srv w' blocks'.
Proof.
  intros [] [] Hlog Hseq Hsub Hgone.
  assert (∀ s, is_u16 s → wal_log s (view (db w')) = wal_log s (view (db w))) as Hl.
  { intros s Hs. apply wal_log_ext; [done|apply sv_wal|apply sb_wal|]. intros q _. apply Hlog. }
  assert (∀ s o, fresh s o blocks → fresh s o blocks') as Hfr.
  { intros s o Hf x Hx Hle. destruct (blocks' !! _) as [b|] eqn:E; [|done]. apply Hsub in E. by rewrite Hf in E. }
  split; try done.
  - intros s sw Hs. destruct (sv_writer s sw Hs) as [[B1 [B2 B3]] B4 B5 B6 B7 B8 B9 B10]. split; try done.
    + by rewrite Hl.
    + by apply (seq_room_ext s _ (view (db w))).
  - intros s sw Hs Hn. apply Hfr. by apply sv_fresh.
  - intros s Hu Hlt Hn. destruct (sv_absent s Hu Hlt Hn) as (B1 & B2 & B3). rewrite Hl by done.
    split; [done|]. split; [by apply (seq_room_ext s _ (view (db w)))|by apply Hfr].
  - destruct sv_events as (new & Hst & Hall). exists new. by rewrite Hgone.
Qed.

(** *** Time passes *)
Lemma implements_later all ex y st t' :
  implements all ex y st → y_time y <= t' → is_i64 t' →
  implements all ex (mkSys (y_srv y) (y_world y) (y_cache y) t' (y_reap y) (y_sweep y))
    (mkStore (ev_sealed st) (ev_waiting st) t').
Proof.
  intros [] Ht Hi. split; cbn [y_srv y_world y_cache y_time y_reap y_sweep ev_sealed ev_waiting ev_now]; try done.
  - by eapply service_later.
  - eapply Forall_impl; [exact im_due0|]. cbv beta. lia.
  - intros e He. eapply entry_mono; [| |by apply im_reap0]; done.
  - intros e He. eapply entry_mono; [| |by apply im_sweep0]; done.
Qed.

(** *** A batch *)
Lemma step_batch all ex env c now req srv w ca t rl sl srv' resp st :
  implements all ex (mkSys srv w ca t rl sl) st → t <= now → is_i64 now → in_range env req →
  Forall event_ok (batch_events env req) → handleBatch env c now srv req = Some (srv', resp) →
  zlen all + zlen (routed_batch env req) <= K →
  ∃ kept st', store_step (wc_Retention cfg) st (batch_label env req resp) st' ∧
    implements (all ++ kept) ex (mkSys srv' w ca now rl sl) st' ∧ took (batch_label env req resp) kept.
Proof.
  intros Im Ht Hnow Hr Hev E HK. pose proof (implements_later _ _ _ _ now Im Ht Hnow) as [I' Hdue' _ _ _ _ Hre' Hsw'].
  destruct Im as [I Hdue Hn Hwt Hen Hca Hre Hsw].
  cbn [y_srv y_world y_cache y_time y_reap y_sweep ev_sealed ev_waiting ev_now] in *.
  assert (batch_events env req = map snd (routed_batch env req)) as Hbe by (symmetry; apply route_events).
  assert (zlen (batch_events env req) = zlen (routed_batch env req)) as Hlen by (rewrite Hbe; unfold zlen; by rewrite length_map).
  destruct (service_batch W tiers store cfg t0 K (base <$> sealed0) env c now req all (expired_rows ex) t srv w
              (base <$> ev_sealed st) srv' resp) as (kept & Hsub & Hall & I2); try done; [rewrite zlen_app; lia|].
  assert (t0 - t0 mod Hour <= now - now mod Hour) as Hfl.
  { apply floor_mono. destruct (sv_time _ _ _ _ _ _ _ _ _ _ _ _ _ _ I). lia. }
  pose proof (handleBatch_waiting t0 env c now srv req srv' resp (serves_server_ok _ _ _ _ _ _ I) Hfl E) as Hw.
  assert (∀ s, next_open t0 srv s <= next_open t0 srv' s) as Hopen by (intros s; apply Hw).
  exists kept, (mkStore (ev_sealed st) (waiting_at srv') now). split; [|split].
  - unfold batch_label. destruct (wp_Error resp).
    + apply es_failed; [by rewrite Hn|]. intros s. destruct (Hw s) as (_ & k & Hk & _). exists k. by rewrite Hk, Hwt.
    + apply es_stored; [by rewrite Hn|]. intros s. destruct (Hw s) as (_ & k & Hk & Hk').
      by rewrite Hk, Hk', Hwt.
  - split; cbn [y_srv y_world y_cache y_time y_reap y_sweep ev_sealed ev_waiting ev_now]; try done.
    + by apply (entries_mono srv).
    + by apply (cache_mono srv).
    + intros e He. apply (entry_mono srv _ _ now); [done|done|by apply Hre'].
    + intros e He. apply (entry_mono srv _ _ now); [done|done|by apply Hsw'].
  - unfold batch_label, took. destruct (wp_Error resp); rewrite <- Hbe; [done|by apply Hall].
Qed.

(** *** A query *)
Lemma Query_invalid req s : ¬ valid_query req → ∃ e, Query tiers req s = (s, Err e).
Proof.
  intros Hv. unfold Query. destruct (Nat.eqb_spec (length (qr_PartitionKey req)) 0) as [|Hk]; [by eexists|].
  destruct (Z.ltb_spec (qr_From req) (qr_To req)); cbn [negb]; [|by eexists]. destruct Hv. split; [|done].
  intros E. by rewrite E in Hk.
Qed.

Lemma step_query all ex req srv w ca t rl sl q r st :
  implements all ex (mkSys srv w ca t rl sl) st →
  Query tiers req (mkQState (db w) ca (fs w)) = (q, r) →
  store_step (wc_Retention cfg) st (Answered req r) st ∧
  implements all ex (mkSys srv (mkWorld _ (qs_db q) (qs_fs q)) (qs_cache q) t rl sl) st.
Proof.
  intros Im E. destruct (decide (valid_query req)) as [Hv|Hv].
  2: { destruct (Query_invalid req (mkQState (db w) ca (fs w)) Hv) as [e E']. rewrite E in E'. injection E' as -> ->.
       split; [by apply es_reject|]. cbn. by destruct w. }
  destruct Im as [I ? ? ? Hen [Hst Hinv Hwarm Hpast]]. cbn [y_srv y_world y_cache y_time y_reap y_sweep] in *.
  pose proof (serves_stable _ _ _ _ _ _ I) as St. destruct Hv as [Hkey Hft].
  assert (is_u64 (KeyHashFor (qr_PartitionKey req))) as Hkh by apply Sum64_range.
  destruct (Query_succeeds W tiers store (base <$> ev_sealed st) req (mkQState (db w) ca (fs w)))
    as (q' & evs & E' & (_ & HW & Hsch)); try done; try apply St; try apply Htk.
  { apply index_sound_strays; [done|apply St]. }
  rewrite E in E'. injection E' as -> ->. cbn [qs_db qs_fs qs_cache] in *.
  destruct (Query_counted (type_of (ev_sealed st)) tiers store (base <$> ev_sealed st) req (mkQState (db w) ca (fs w)) q' evs)
    as (Hs & Hp & Hq); try done; [apply St|apply Hen|].
  split; [by apply es_answer|]. destruct Hq as [Hview Hfiles Hst' Hinv' Hwarm'].
  assert (cached (past srv) q') as [_ Hc'].
  { apply (Query_cached _ tiers store (base <$> ev_sealed st) req (mkQState (db w) ca (fs w)) q' (Ok evs)); try done; [apply St|].
    intros et id Hi. by eapply (eo_index_past _ _ _ Hen). }
  split; cbn [y_srv y_world y_cache y_time y_reap y_sweep db fs]; try done.
  - eapply serves_world; [exact I|..]; cbn [db fs]; try (intros; by rewrite Hview); try done.
    destruct St. split; cbn [db fs]; rewrite ?Hview, ?Hfiles; done.
  - by rewrite Hview.
  - split; [done|done|by rewrite Hfiles|done].
Qed.

(** *** A tick of a writer *)
Lemma log_only_entries srv sealed s m m' :
  (∀ k, ¬ log_key s k → m' !! k = m !! k) → entries_ok srv sealed m → entries_ok srv sealed m'.
Proof.
  intros Hk []. assert (∀ h id, expires h id m' ↔ expires h id m) as He.
  { intros h id. unfold expires. by rewrite Hk by apply ExpiryKey_not_log. }
  assert (∀ et kh id, indexed et kh id m' ↔ indexed et kh id m) as Hi.
  { intros et kh id. unfold indexed. by rewrite Hk by apply IdxKey_not_log. }
  split.
  - intros et kh id Hu. rewrite Hi. by apply eo_typed0.
  - intros id b. rewrite He. by apply eo_queued0.
  - intros h id b. rewrite He. apply eo_hour0.
  - intros et kh id. rewrite Hi. apply eo_index_past0.
  - intros h id. rewrite He. apply eo_expiry_past0.
Qed.

Lemma open_not_past srv s sw :
  is_writers srv !! s = Some sw → is_u16 s → s < 65535 → is_i64 (sw_openedAt sw) →
  ¬ past srv (BlockIDForShard s (sw_openedAt sw)).
Proof. intros Hs Hu Hlt Hi Hp. apply (Hp s (sw_openedAt sw)); try done. unfold next_open. by rewrite Hs. Qed.

Lemma expires_sealed_db req m h id :
  sealreq_ok req → is_u64 h →
  expires h id (sealed_db req m) ↔ (h = expiry_hour req ∧ id = seal_id req) ∨ expires h id m.
Proof.
  intros Hok Hh. unfold sealed_db. set (m1 := put_idx _ _ _ m).
  assert (is_u64 (expiry_hour req)) as Hu by (unfold expiry_hour; apply u64_range).
  assert (expires h id m1 ↔ expires h id m) as Hm1.
  { unfold expires, m1. rewrite put_idx_other; [done|]. intros x E. by apply (IdxKey_ne_ExpiryKey (sr_EventType req) x (seal_id req) h id). }
  destruct (decide (h = expiry_hour req ∧ id = seal_id req)) as [[-> ->]|Hne].
  - split; [by left|]. intros _. apply sealed_view_expires.
  - rewrite <- Hm1. unfold expires at 1. rewrite sealed_view_other.
    + unfold expires. tauto.
    + auto with bbdb.
    + intros E. by apply (BlockKey_ne_ExpiryKey (seal_id req) h id).
    + intros E%ExpiryKey_inj; [tauto|done|done].
Qed.

Lemma sealed_entries srv srv' sealed m req b :
  (∀ x, next_open t0 srv x <= next_open t0 srv' x) →
  ¬ past srv (seal_id req) → past srv' (seal_id req) → sealreq_ok req →
  se_type b = sr_EventType req → se_expiry b = expiry_hour req →
  entries_ok srv sealed m → entries_ok srv' (<[seal_id req := b]> sealed) (sealed_db req m).
Proof.
  intros Hopen Hnp Hp Hok Hty Hex []. assert (∀ id b', <[seal_id req := b]> sealed !! id = Some b' → past srv id →
    sealed !! id = Some b') as Hold.
  { intros id b' [[<- _]|[_ ?]]%lookup_insert_Some Hpast; [by destruct Hnp|done]. }
  split.
  - intros et kh id Hk. rewrite sealed_db_indexed by done. intros [(-> & _ & ->)|Hi].
    + intros _. unfold type_of. by rewrite lookup_insert_eq.
    + pose proof (eo_index_past0 et kh id Hk Hi) as Hpast. rewrite lookup_fmap. intros [b0 Hb].
      apply fmap_Some in Hb as (b' & Hb & _). pose proof (Hold id b' Hb Hpast) as Hb'.
      rewrite (eo_typed0 et kh id Hk Hi); [|rewrite lookup_fmap, Hb'; by eexists]. unfold type_of. by rewrite Hb, Hb'.
  - intros id b' [[<- <-]|[Hne Hb]]%lookup_insert_Some.
    + rewrite Hex. split; [apply u64_range|]. apply expires_sealed_db; [done|apply u64_range|by left].
    + destruct (eo_queued0 id b' Hb) as [Hu He]. split; [done|]. apply expires_sealed_db; [done|done|by right].
  - intros h id b' Hh. rewrite expires_sealed_db by done. intros [[-> ->]|He].
    + rewrite lookup_insert_eq. by intros [= <-].
    + intros Hb. eapply eo_hour0; [done|done|]. apply Hold; [done|by eapply eo_expiry_past0].
  - intros et kh id Hk. rewrite sealed_db_indexed by done. intros [(_ & _ & ->)|Hi]; [done|].
    eapply past_mono; [done|by eapply eo_index_past0].
  - intros h id Hh. rewrite expires_sealed_db by done. intros [[_ ->]|He]; [done|].
    eapply past_mono; [done|by eapply eo_expiry_past0].
Qed.

Lemma sealed_cache srv srv' sealed req b ca f f' :
  (∀ x, next_open t0 srv x <= next_open t0 srv' x) → ¬ past srv (seal_id req) →
  sr_Store req = store → TierLaws store → sealreq_ok req →
  (∀ id x, sealed !! id = Some x → block_id_ok id) → (∀ q, q ∉ seal_paths req → f' !! q = f !! q) →
  cache_ok srv sealed ca f → cache_ok srv' (<[seal_id req := b]> sealed) ca f'.
Proof.
  intros Hopen Hnp Hst Hlaws Hok Hnames Hf []. split; [done|done| |].
  - intros e He. rewrite lookup_fmap. intros [b0 Hb]. apply fmap_Some in Hb as (b' & Hb & _).
    assert (past srv (be_id e)) as Hpast by (apply ca_past0; unfold cached_ids; apply list_elem_of_In, in_map, list_elem_of_In, He).
    apply lookup_insert_Some in Hb as [[E _]|[Hne Hb]]; [by rewrite E in Hnp|].
    rewrite ca_store0, Hf; [rewrite <- ca_store0; apply ca_warm0; [done|]; rewrite lookup_fmap, Hb; by eexists|].
    rewrite <- Hst in Hlaws |- *. by apply (seal_paths_other req (be_id e) Hlaws Hok (Hnames _ _ Hb) (not_eq_sym Hne)).
  - intros x Hx. eapply past_mono; [done|by apply ca_past0].
Qed.

Lemma sealed_entry srv srv' sealed id b t t' e :
  (∀ x, next_open t0 srv x <= next_open t0 srv' x) → ¬ past srv id → t <= t' →
  entry_ok srv sealed t e → entry_ok srv' (<[id := b]> sealed) t' e.
Proof.
  intros Hopen Hnp Ht He. pose proof (en_past _ _ _ _ He) as Hp.
  apply (entry_mono srv srv' sealed t t') in He as []; try done.
  split; try done. intros b' [[E _]|[_ ?]]%lookup_insert_Some; [by rewrite E in Hnp|by apply en_block0].
Qed.

(** The queue and the table of the writer that flushed. *)
Lemma waiting_at_insert srv s sw' x :
  waiting_at (mkIngestionServer cfg (<[s := sw']> (is_writers srv))) x
  = if decide (x = s) then waiting sw' else waiting_at srv x.
Proof.
  unfold waiting_at. cbn [is_writers]. case_decide as Hx; [by rewrite Hx, lookup_insert_eq|by rewrite lookup_insert_ne].
Qed.

Lemma next_open_insert srv s sw sw' :
  is_writers srv !! s = Some sw → sw_openedAt sw <= sw_openedAt sw' →
  ∀ x, next_open t0 srv x <= next_open t0 (mkIngestionServer cfg (<[s := sw']> (is_writers srv))) x.
Proof.
  intros Hs Hle x. unfold next_open. cbn [is_writers].
  destruct (decide (s = x)) as [<-|Hne]; [by rewrite lookup_insert_eq, Hs|by rewrite lookup_insert_ne].
Qed.

Lemma expiry_hour_block s ring mt o now :
  0 <= o → is_i64 o →
  expiry_hour (seal_request (mkWriter s (with_limit cfg) ring mt o) store now)
  = u64 (o / Hour + retention_hours (wc_Retention cfg)).
Proof.
  intros Ho Hi. unfold expiry_hour, seal_request. cbn [sr_OpenedAt sr_Retention sw_openedAt sw_cfg].
  unfold UnixNano. rewrite i64_id by done. fold (now_hour o). rewrite now_hour_div by done.
  unfold with_limit. by destruct (wc_MaxBlockBytes cfg <=? 0).
Qed.

(** A flush that does not seal changes nothing the store shows. *)
Lemma tick_kept all ex s sw now srv w ca t rl sl sw' w' st :
  implements all ex (mkSys srv w ca t rl sl) st → t <= now → is_i64 now → is_writers srv !! s = Some sw →
  let srv' := mkIngestionServer cfg (<[s := sw']> (is_writers srv)) in
  serves [] all (expired_rows ex) now srv' w' (base <$> ev_sealed st) →
  sw_openedAt sw' = sw_openedAt sw → waiting sw' = waiting sw → files (fs w') = files (fs w) →
  (∀ k, ¬ log_key s k → view (db w') !! k = view (db w) !! k) →
  implements all ex (mkSys srv' w' ca now rl sl) (mkStore (ev_sealed st) (ev_waiting st) now).
Proof.
  intros Im Ht Hnow Hs srv' I1 Ho Hheld Hfs Hview.
  pose proof (implements_later _ _ _ _ now Im Ht Hnow) as [_ Hdue _ Hwt Hen Hca Hre Hsw].
  cbn [y_srv y_world y_cache y_time y_reap y_sweep ev_sealed ev_waiting ev_now] in *.
  assert (∀ x, next_open t0 srv x <= next_open t0 srv' x) as Hopen by (apply (next_open_insert srv s sw); [done|lia]).
  split; cbn [y_srv y_world y_cache y_time y_reap y_sweep ev_sealed ev_waiting ev_now]; try done.
  - intros x. unfold srv'. rewrite waiting_at_insert. case_decide as Hx; [|done].
    rewrite <- Hwt, Hx. unfold waiting_at. by rewrite Hs, Hheld.
  - apply (entries_mono srv); [done|]. by eapply log_only_entries.
  - rewrite Hfs. by apply (cache_mono srv).
  - intros e He. by apply (entry_mono srv _ _ now); [| |apply Hre].
  - intros e He. by apply (entry_mono srv _ _ now); [| |apply Hsw].
Qed.

(** The name of a block sealed by a tick becomes one of the past. *)
Lemma sealed_past (all gone : list Event) (now : time) (srv : IngestionServer) (w : World) (s : ShardID) (o : time) (sw' : ShardWriter)
    (blocks : gmap BlockID (Tier * Memtable)) (b : Tier * Memtable) :
  let srv' := mkIngestionServer cfg (<[s := sw']> (is_writers srv)) in
  serves [] all gone now srv' w (<[BlockIDForShard s o := b]> blocks) → is_u16 s →
  past srv' (BlockIDForShard s o).
Proof.
  intros srv' I Hu s1 o1 Hu1 Hlt1 Ho1 Hle Heq. destruct (decide (s1 = s)) as [->|Hne].
  - assert (fresh s (sw_openedAt sw') (<[BlockIDForShard s o := b]> blocks)) as Hf.
    { apply (sv_fresh _ _ _ _ _ _ _ _ _ _ _ _ _ _ I); [apply lookup_insert_eq|apply not_elem_of_nil]. }
    unfold next_open, srv' in Hle. cbn [is_writers] in Hle. rewrite lookup_insert_eq in Hle.
    specialize (Hf o1 Ho1 Hle). by rewrite <- Heq, lookup_insert_eq in Hf.
  - apply Hne. symmetry. by eapply BlockIDForShard_shard.
Qed.

(** A flush that seals: the shard's events move into a block. *)
Lemma tick_sealed all ex s sw now srv w ca t rl sl sw' w' ring mt m1 st :
  let srv' := mkIngestionServer cfg (<[s := sw']> (is_writers srv)) in
  let o := sw_openedAt sw in
  let req := seal_request (mkWriter s (with_limit cfg) ring mt o) store now in
  implements all ex (mkSys srv w ca t rl sl) st → t <= now → is_i64 now → is_writers srv !! s = Some sw →
  is_u16 s → s < 65535 → 0 <= o → is_i64 o → o <= now - now mod Hour →
  sealreq_ok req → seal_id req = BlockIDForShard s o → waiting sw' = [] → sw_openedAt sw' = now - now mod Hour →
  serves [] all (expired_rows ex) now srv' w' (<[seal_id req := (TierHot, Sort mt)]> (base <$> ev_sealed st)) →
  (∀ k, ¬ log_key s k → m1 !! k = view (db w) !! k) → view (db w') = sealed_db req m1 →
  (∀ q, q ∉ seal_paths req → files (fs w') !! q = files (fs w) !! q) →
  implements all ex (mkSys srv' w' ca now rl sl)
    (mkStore (<[BlockIDForShard s o := block_of (wc_Retention cfg) s o mt]> (ev_sealed st))
       (fun s' => if decide (s' = s) then [] else ev_waiting st s') now).
Proof.
  intros srv' o req Im Ht Hnow Hs Hu Hlt Ho0 Hoi Hfl Hreq Hid Hheld Ho I1 Hm1 Hview Hfs.
  assert (∀ x y, ev_sealed st !! x = Some y → block_id_ok x) as Hnames.
  { intros x b Hx. apply (sv_names _ _ _ _ _ _ _ _ _ _ _ _ _ _ (im_service _ _ _ _ Im) x (se_tier b) (se_table b)).
    by rewrite lookup_fmap, Hx. }
  pose proof (implements_later _ _ _ _ now Im Ht Hnow) as [_ Hdue _ Hwt Hen Hca Hre Hsw].
  cbn [y_srv y_world y_cache y_time y_reap y_sweep ev_sealed ev_waiting ev_now] in *.
  assert (∀ x, next_open t0 srv x <= next_open t0 srv' x) as Hopen by (apply (next_open_insert srv s sw); [done|unfold o in *; lia]).
  assert (¬ past srv (seal_id req)) as Hnp by (rewrite Hid; by apply open_not_past).
  assert (past srv' (seal_id req)) as Hp by (rewrite Hid in I1 |- *; by eapply sealed_past).
  split; cbn [y_srv y_world y_cache y_time y_reap y_sweep ev_sealed ev_waiting ev_now]; rewrite <- ?Hid; try done.
  - by rewrite fmap_insert.
  - intros x. unfold srv'. rewrite waiting_at_insert. case_decide as Hx; [by rewrite Hheld|done].
  - rewrite Hview. apply (sealed_entries srv); try done; [|by apply log_only_entries with s (view (db w))].
    unfold req. cbn [se_expiry block_of]. by rewrite expiry_hour_block.
  - apply (sealed_cache srv) with (files (fs w)); try done. by apply (tk_laws _ _ _ Htk TierHot), Htk.
  - intros e He. by apply (sealed_entry srv _ _ _ _ now); [| | |apply Hre].
  - intros e He. by apply (sealed_entry srv _ _ _ _ now); [| | |apply Hsw].
Qed.

Lemma step_tick all ex s sw now srv w ca t rl sl sw' w' st :
  implements all ex (mkSys srv w ca t rl sl) st → t <= now → is_i64 now → is_writers srv !! s = Some sw →
  rows_bytes (waiting sw) < 2 ^ 44 →
  hour_over now (sw_openedAt sw) (rows_bytes (waiting sw))
    || (rows_bytes (waiting sw) <? wc_MaxBlockBytes (with_limit cfg)) = true →
  flushAndMaybeSeal false now sw w = Some (sw', w') →
  ∃ st', store_step (wc_Retention cfg) st Silent st' ∧
    implements all ex (mkSys (mkIngestionServer cfg (<[s := sw']> (is_writers srv))) w' ca now rl sl) st'.
Proof.
  intros Im Ht Hnow Hs Hb Hlim E. pose proof Im as [I _ Hn Hwt _ _ _ _].
  cbn [y_srv y_world y_cache y_time y_reap y_sweep] in *.
  destruct (service_flush W tiers store cfg t0 K (base <$> sealed0) false [] all (expired_rows ex) t srv w
              (base <$> ev_sealed st) s sw now)
    as (sw1 & w1 & blocks1 & E1 & I1 & Heff); try done; [apply not_elem_of_nil|].
  rewrite E in E1. injection E1 as <- <-.
  assert (writer_ok cfg t0 K s sw (view (db w)) t (zlen all)) as [(Hsh & Hu & Hlt) _ _ _ _ _ _ [Hom [Hlo Hot]]] by by apply I.
  assert (0 <= t0) as Ht0 by apply I. destruct (floor_range t0 Ht0) as [Hf0 _].
  assert (is_i64 (sw_openedAt sw)) as Hoi by (unfold is_i64 in *; lia).
  pose proof (floor_mono (sw_openedAt sw) now ltac:(lia)) as Hfm. rewrite Hom, Z.sub_0_r in Hfm.
  destruct Heff as [(-> & Ho & Hheld & Hfs & Hview)|(ring & mt & m1 & Hreq & Hid & Hrows & Hheld & -> & Ho & Hm1 & Hview & Hfs)].
  - exists (mkStore (ev_sealed st) (ev_waiting st) now). split; [apply es_wait; by rewrite Hn|]. by eapply tick_kept.
  - eexists. split; [|eapply tick_sealed; eauto; lia].
    apply es_seal; [by rewrite Hn|done|lia| |].
    + assert (fresh s (sw_openedAt sw) (base <$> ev_sealed st)) as Hf.
      { apply (sv_fresh _ _ _ _ _ _ _ _ _ _ _ _ _ _ I); [done|apply not_elem_of_nil]. }
      specialize (Hf _ Hoi ltac:(lia)). rewrite lookup_fmap in Hf. by apply fmap_None in Hf.
    + rewrite Hrows, <- Hwt. unfold waiting_at. by rewrite Hs.
Qed.

(** *** Entries of the reaper and of the janitor *)
Lemma stored_delete (blocks : gmap BlockID (Tier * Memtable)) id :
  stored (delete id blocks) ++ (match blocks !! id with Some (_, mt) => Rows mt | None => [] end) ≡ₚ stored blocks.
Proof.
  destruct (blocks !! id) as [[t mt]|] eqn:Hb; [|by rewrite delete_id, app_nil_r].
  rewrite <- (insert_delete_id blocks id (t, mt) Hb) at 2. by rewrite stored_insert by apply lookup_delete_eq.
Qed.

Lemma unsealed_entries srv sealed m h id :
  is_u64 h → entries_ok srv sealed m → entries_ok srv (delete id sealed) (unsealed_view h id m).
Proof.
  intros Hh []. assert (∀ h' id', expires h' id' (unsealed_view h id m) → expires h' id' m) as He.
  { intros h' id' [v Hv]. exists v. unfold unsealed_view in Hv. apply lookup_delete_Some in Hv as [_ Hv].
    by apply lookup_delete_Some in Hv as [_ ?]. }
  split.
  - intros et kh i Hk. rewrite unsealed_indexed, lookup_fmap. intros Hi [b0 Hb]. apply fmap_Some in Hb as (b & Hb & _).
    pose proof Hb as [_ Hb']%lookup_delete_Some. rewrite (eo_typed0 et kh i Hk Hi); [|rewrite lookup_fmap, Hb'; by eexists].
    unfold type_of. by rewrite Hb, Hb'.
  - intros i b [Hne Hb]%lookup_delete_Some. destruct (eo_queued0 i b Hb) as [Hu [v Hv]]. split; [done|].
    exists v. rewrite unsealed_other; [done|auto with bbdb|]. intros [_ E]%ExpiryKey_inj; [by destruct Hne|done|done].
  - intros h' i b Hh' Hx%He [_ Hb]%lookup_delete_Some. by eapply eo_hour0.
  - intros et kh i Hk. rewrite unsealed_indexed. by apply eo_index_past0.
  - intros h' i Hh' Hx%He. by eapply eo_expiry_past0.
Qed.

Lemma entry_delete srv sealed t id e : entry_ok srv sealed t e → entry_ok srv (delete id sealed) t e.
Proof. intros []. split; try done. intros b [_ Hb]%lookup_delete_Some. by apply en_block0. Qed.

Lemma unsealed_logs h id m :
  (∀ s q, unsealed_view h id m !! WALKey s q = m !! WALKey s q) ∧
  (∀ s, unsealed_view h id m !! WALSeqKey s = m !! WALSeqKey s).
Proof. split; intros; apply unsealed_other; auto with bbdb. Qed.

(** A scan finds entries that are due. *)
Lemma scan_entries all ex y st now w' r :
  implements all ex y st → y_time y <= now → is_i64 now → on_db (ScanExpiredEntries (now_hour now)) (y_world y) = (w', r) →
  implements all ex (mkSys (y_srv y) w' (y_cache y) now (y_reap y) (y_sweep y)) (mkStore (ev_sealed st) (ev_waiting st) now) ∧
  ∃ l, r = Ok l ∧ ∀ e, e ∈ l → entry_ok (y_srv y) (ev_sealed st) now e.
Proof.
  intros Im Ht Hi E. destruct (implements_later all ex y st now Im Ht Hi) as [I ? ? ? Hen Hca Hre Hsw].
  cbn [y_srv y_world y_cache y_time y_reap y_sweep ev_sealed ev_waiting ev_now] in *.
  assert (0 <= now) as Hn0 by (destruct (sv_time _ _ _ _ _ _ _ _ _ _ _ _ _ _ I); lia).
  pose proof (serves_stable _ _ _ _ _ _ I) as St.
  destruct (scan_works W tiers store Htk now _ _ Hn0 Hi St) as (w1 & l & E1 & St1 & Hv & Hf & Hl).
  rewrite E in E1. injection E1 as -> ->. split.
  - split; cbn [y_srv y_world y_cache y_time y_reap y_sweep ev_sealed ev_waiting ev_now]; rewrite ?Hv, ?Hf; try done.
    by eapply serves_world; [exact I|exact St1|intros; by rewrite Hv..| |].
  - exists l. split; [done|]. intros e (Hu & Hd & Hx)%Hl. split; [done|by eapply (eo_expiry_past _ _ _ Hen)|].
    intros b Hb. symmetry. by eapply (eo_hour _ _ _ Hen).
Qed.

(** The blocks of the abstract store an entry removes. *)
Definition removed (sealed : Held) (e : ExpiredEntry) : list Sealed :=
  match sealed !! ee_ID e with Some b => [b] | None => [] end.

Lemma reap_entry_kept all ex e srv w ca t rl sl w' st :
  implements all ex (mkSys srv w ca t (e :: rl) sl) st →
  stable W tiers store (base <$> delete (ee_ID e) (ev_sealed st)) w' →
  view (db w') = unsealed_view (ee_Hour e) (ee_ID e) (view (db w)) →
  (∀ i b q, (base <$> delete (ee_ID e) (ev_sealed st)) !! i = Some b → tier_file tiers i q →
     files (fs w') !! q = files (fs w) !! q) →
  implements all (removed (ev_sealed st) e ++ ex) (mkSys srv w' ca t rl sl)
    (mkStore (delete (ee_ID e) (ev_sealed st)) (ev_waiting st) t).
Proof.
  intros [I Hdue Hnow Hwt Hen Hca Hre Hsw] St1 Hv Hframe. cbn [y_srv y_world y_cache y_time y_reap y_sweep] in *.
  destruct (Hre e ltac:(left)) as [[Hu He] Hpast Hblock].
  destruct (unsealed_logs (ee_Hour e) (ee_ID e) (view (db w))) as [Hl1 Hl2].
  split; cbn [y_srv y_world y_cache y_time y_reap y_sweep ev_sealed ev_waiting ev_now]; try done.
  - eapply serves_world; [exact I|exact St1|intros; rewrite Hv; auto..| |].
    + intros id b. rewrite fmap_delete. apply delete_lookup_Some.
    + rewrite <- (stored_delete (base <$> ev_sealed st) (ee_ID e)), fmap_delete, lookup_fmap, <- app_assoc.
      apply Permutation_app_head. unfold removed, expired_rows.
      destruct (ev_sealed st !! ee_ID e) as [b|]; [|done]. cbn. by rewrite ?app_nil_r.
  - apply Forall_app. split; [|done]. unfold removed. destruct (ev_sealed st !! ee_ID e) as [b|]; [|apply Forall_nil_2].
    apply Forall_cons. split; [by rewrite (Hblock b eq_refl)|apply Forall_nil_2].
  - rewrite Hv. by apply unsealed_entries.
  - destruct Hca as [Hst Hinv Hwarm Hcp]. split; try done. intros x Hx [b Hb].
    rewrite Hst, (Hframe (be_id x) b); [|done|exists TierHot, store; split; [apply Htk|auto]].
    rewrite <- Hst. apply Hwarm; [done|]. rewrite fmap_delete in Hb. apply delete_lookup_Some in Hb. by eexists.
  - intros x Hx. apply entry_delete, Hre. by right.
  - intros x Hx. by apply entry_delete, Hsw.
Qed.

Lemma step_reap_entry all ex e srv w ca t rl sl w' r st :
  implements all ex (mkSys srv w ca t (e :: rl) sl) st → reap_one tiers e w = (w', r) →
  let l := match r with Ok true => Expired (ee_ID e) | _ => Silent end in
  ∃ st', store_step (wc_Retention cfg) st l st' ∧
    implements all (removed (ev_sealed st) e ++ ex) (mkSys srv w' ca t (remaining r (fun _ => rl)) sl) st' ∧
    length (removed (ev_sealed st) e) = length (expiries (visible l)).
Proof.
  intros Im E. pose proof Im as [I _ Hnow _ _ _ Hre _]. cbn [y_srv y_world y_cache y_time y_reap y_sweep] in *.
  destruct (Hre e ltac:(left)) as [[Hu He] Hpast Hblock].
  destruct (reap_one_works W tiers store Htk _ w e (serves_stable _ _ _ _ _ _ I)) as (w1 & E1 & St1 & Hv & Hframe).
  rewrite E in E1. injection E1 as -> ->. rewrite <- fmap_delete in St1, Hframe. cbn [remaining].
  cbv zeta. eexists. split; [|split; [by eapply reap_entry_kept|]]; unfold removed; rewrite <- ?Hnow, lookup_fmap;
    destruct (ev_sealed st !! ee_ID e) as [b|] eqn:Hb; cbn [fmap option_fmap option_map];
    first [rewrite bool_decide_true by by eexists|rewrite bool_decide_false by by intros []].
  - apply (es_expire _ _ b); [done|]. by rewrite (Hblock b eq_refl), Hnow.
  - rewrite delete_id by done. by apply es_wait.
  - done.
  - done.
Qed.

Lemma step_sweep_entry all ex e srv w ca t rl sl w' r st :
  implements all ex (mkSys srv w ca t rl (e :: sl)) st → sweep_one tiers e w = (w', r) →
  implements all ex (mkSys srv w' ca t rl (remaining r (fun _ => sl))) st.
Proof.
  intros [I Hdue Hnow Hwt Hen Hca Hre Hsw] E.
  cbn [y_srv y_world y_cache y_time y_reap y_sweep] in *. destruct (Hsw e ltac:(left)) as [[Hu _] _ _].
  pose proof (serves_stable _ _ _ _ _ _ I) as St.
  destruct (sweep_one_works W tiers store Htk _ w e St) as (w1 & E1 & St1 & Hf & Hv).
  rewrite E in E1. injection E1 as -> ->. cbn [remaining].
  destruct (unsealed_logs (ee_Hour e) (ee_ID e) (view (db w))) as [Hl1 Hl2].
  split; cbn [y_srv y_world y_cache y_time y_reap y_sweep]; try done.
  - by eapply serves_world; [exact I|exact St1|destruct Hv as [->|[_ ->]]; auto..| |].
  - destruct Hv as [->|[Hb ->]]; [done|]. rewrite lookup_fmap in Hb. apply fmap_None in Hb.
    rewrite <- (delete_id (ev_sealed st) (ee_ID e)) by done. by apply unsealed_entries.
  - by rewrite Hf.
  - intros x Hx. apply Hsw. by right.
Qed.
End refines.
