(* ===== verification/SystemRuns.v ===== *)
(** * Runs of the system

    What the refinement means for whole runs: the trace of any run is a trace
    of the event store, everything that was acknowledged is accounted for, the
    reaper's and the janitor's cycles are runs of the steps, a full cycle leaves
    exactly the blocks that are not due, queries are always answered, and a stop
    leaves nothing outside the blocks. *)
From S2P Require Import Prelude GoTime GoFmt GoOs Pebble PebbleRef Keys Wal BlockMetaDB IdxDB Expiry Event Memtable.
From S2P Require Import Bloom Format Tier World Sealer RingBuf BlockReader Heap Merger Index BloomCache Query QueryExact.
From S2P Require Import Ttl Reap Writer WriterRun Ingest IngestRun Server System SystemRefines.
#[local] Open Scope Z_scope.

Section runs.
Context `{Pebble} `{SliceSort} `{MapOrder} `{BloomLib} `{Zstd} `{XXHash}.
Context (W : pdb → Prop) (tiers : gmap Tier TierStore) (store : TierStore) (cfg : WriterConfig).
Context (t0 : time) (K : Z) (sealed0 : gmap BlockID Sealed).
Context (Hset : service_setting W tiers store cfg) (Htk : tiers_ok W tiers store).

Abbreviation represents := (implements W tiers store cfg t0 K sealed0).
Abbreviation sys_runs := (runs_to (sys_step tiers cfg)).
Abbreviation store_runs := (runs_to (store_step (wc_Retention cfg))).

Lemma sys_step_refines all ex y l y' st :
  represents all ex y st → sys_step tiers cfg y l y' → zlen all + zlen (submitted (visible l)) <= K →
  ∃ st' kept out, store_step (wc_Retention cfg) st l st' ∧ represents (all ++ kept) (out ++ ex) y' st' ∧
    took l kept ∧ length out = length (expiries (visible l)).
Proof.
  intros Im Hstep HK.
  assert (∀ st', store_step (wc_Retention cfg) st Silent st' → represents all ex y' st' → l = Silent →
            ∃ st' kept out, store_step (wc_Retention cfg) st l st' ∧ represents (all ++ kept) (out ++ ex) y' st' ∧
              took l kept ∧ length out = length (expiries (visible l))) as Hquiet.
  { intros st' Hs Him ->. exists st', [], []. by rewrite app_nil_r. }
  destruct Hstep.
  - edestruct step_batch as (kept & st' & Hs & Him & Hk); try done.
    { unfold batch_label in HK. destruct (wp_Error resp); cbn [visible submitted] in HK; rewrite app_nil_r in HK; exact HK. }
    exists st', kept, []. do 3 (split; [done|]). unfold batch_label. by destruct (wp_Error resp).
  - edestruct step_tick as (st' & Hs & Him); try done. by eapply Hquiet.
  - edestruct step_query as [Hs Him]; try done. exists st, [], []. by rewrite app_nil_r.
  - edestruct (scan_entries W tiers store cfg t0 K sealed0 Htk all ex (mkSys srv w ca t [] sl)) as [Him (es & Hr & Hl)]; try done.
    subst r. eapply Hquiet; [apply es_wait; by rewrite (im_now _ _ _ _ _ _ _ _ _ _ _ Im)| |done].
    by destruct Him.
  - edestruct step_reap_entry as (st' & Hs & Him & Hout); try done. cbv zeta in *.
    exists st', [], (removed (ev_sealed st) e). rewrite app_nil_r. do 2 (split; [done|]). split; [|done]. by destruct r as [[]|].
  - eapply Hquiet; [by apply es_wait| |done]. destruct Im as [I Hdue Hnow]. rewrite Hnow. split; try done.
    by intros e ?%not_elem_of_nil.
  - edestruct (scan_entries W tiers store cfg t0 K sealed0 Htk all ex (mkSys srv w ca t rl [])) as [Him (es & Hr & Hl)]; try done.
    subst r. eapply Hquiet; [apply es_wait; by rewrite (im_now _ _ _ _ _ _ _ _ _ _ _ Im)| |done].
    by destruct Him.
  - apply (Hquiet st); [|by eapply step_sweep_entry|done]. destruct st as [se wt now]. by apply (es_wait _ (mkStore se wt now)).
  - eapply Hquiet; [by apply es_wait| |done]. destruct Im as [I Hdue Hnow]. rewrite Hnow. split; try done.
    by intros e ?%not_elem_of_nil.
Qed.

(** The tallies of a run. *)
Lemma took_bounds l kept :
  took l kept → map snd (acknowledged (visible l)) ⊆+ kept ∧ kept ⊆+ map snd (submitted (visible l)).
Proof. destruct l; cbn; rewrite ?app_nil_r; intros Hk; subst; split; done || apply submseteq_nil_l. Qed.

Lemma sys_runs_refine y tr y' all ex st :
  sys_runs y tr y' → represents all ex y st → zlen all + zlen (submitted tr) <= K →
  ∃ st' kept out, store_runs st tr st' ∧ represents (all ++ kept) (out ++ ex) y' st' ∧
    map snd (acknowledged tr) ⊆+ kept ∧ kept ⊆+ map snd (submitted tr) ∧ length out = length (expiries tr).
Proof.
  intros Hr. revert all ex st. induction Hr as [y|y l y1 tr y2 Hs _ IH]; intros all ex st Im HK.
  { exists st, [], []. rewrite app_nil_r. split; [apply rt_refl|done]. }
  rewrite submitted_app, acknowledged_app, expiries_app, !map_app in *. rewrite zlen_app in HK.
  pose proof (zlen_nonneg (submitted tr)).
  destruct (sys_step_refines all ex y l y1 st Im Hs) as (st1 & k1 & o1 & Hs1 & Im1 & Hk1 & Ho1); [lia|].
  apply took_bounds in Hk1 as [Ha1 Hb1].
  assert (zlen k1 <= zlen (submitted (visible l))) as Hz.
  { apply submseteq_length in Hb1. rewrite length_map in Hb1. unfold zlen. lia. }
  destruct (IH _ _ _ Im1) as (st2 & k2 & o2 & Hs2 & Im2 & Ha2 & Hb2 & Ho2); [rewrite zlen_app; lia|].
  exists st2, (k1 ++ k2), (o2 ++ o1). split; [by eapply rt_step|]. rewrite app_assoc, <- app_assoc. split; [by rewrite <- app_assoc in *|].
  split; [by apply submseteq_app|]. split; [by apply submseteq_app|]. rewrite !length_app. lia.
Qed.

(** ** The start *)
Record system_start (w : World) : Prop := {
  ys_service : service_start W tiers store t0 K (base <$> sealed0) w;
  ys_entries : entries_ok t0 (NewIngestionServer cfg) sealed0 (view (db w));
}.

Definition start_sys (w : World) (mem : Z) : Sys :=
  mkSys (NewIngestionServer cfg) w (NewBloomCache store mem) t0 [] [].

Definition start_store : EventStore := mkStore sealed0 (fun _ => []) t0.

Lemma start_represents w mem : 0 <= K → system_start w → represents [] [] (start_sys w mem) start_store.
Proof.
  intros HK [Hs He]. split; cbn [y_srv y_world y_cache y_time y_reap y_sweep start_sys ev_sealed ev_waiting ev_now start_store];
    try done; try by intros e ?%not_elem_of_nil.
  - by apply start_serves.
  - destruct (NewBloomCache_inv store mem (files (fs w))) as [Hi Hc].
    split; [done|done|by apply coherent_on_weaken|]. by intros x ?%not_elem_of_nil.
Qed.

(** ** Theorems *)

(** What a reachable state represents. *)
Lemma reachable_represents w mem tr y :
  0 <= K → system_start w → sys_runs (start_sys w mem) tr y → zlen (submitted tr) <= K →
  ∃ all ex st, represents all ex y st ∧ store_runs start_store tr st.
Proof.
  intros HK Hs Hr Htr. destruct (sys_runs_refine _ _ _ [] [] start_store Hr (start_represents w mem HK Hs))
    as (st & kept & out & Hruns & Him & _); [done|]. by exists ([] ++ kept), (out ++ []), st.
Qed.



(** A query with a key and a non-empty interval succeeds in every reachable
    state, with the rows the event store holds for it. *)
Lemma queries_answered w mem tr y req :
  0 <= K → system_start w → sys_runs (start_sys w mem) tr y → zlen (submitted tr) <= K → valid_query req →
  ∃ st q evs, store_runs start_store tr st ∧
    Query tiers req (mkQState (db (y_world y)) (y_cache y) (fs (y_world y))) = (q, Ok evs) ∧
    StronglySorted ev_le evs ∧ evs ≡ₚ store_rows (ev_sealed st) req.
Proof.
  intros HK Hs Hr Htr Hv. destruct (reachable_represents w mem tr y HK Hs Hr Htr) as (all & ex & st & Im & Hruns).
  destruct (Query tiers req (mkQState (db (y_world y)) (y_cache y) (fs (y_world y)))) as [q r] eqn:E.
  exists st, q. destruct y as [srv w1 ca t rl sl]. cbn [y_world y_cache] in *.
  destruct (step_query W tiers store cfg t0 K sealed0 Htk all ex req srv w1 ca t rl sl q r st Im E) as [Hstep _].
  inversion Hstep; subst; [|done]. by exists evs.
Qed.

(** ** Cycles of the reaper and of the janitor *)
Lemma reap_runs ctx l srv w ca t sl w' r :
  reap tiers ctx l w = (w', r) → ∃ tr, sys_runs (mkSys srv w ca t l sl) tr (mkSys srv w' ca t [] sl).
Proof.
  assert (∀ l' w1, ∃ tr, sys_runs (mkSys srv w1 ca t l' sl) tr (mkSys srv w1 ca t [] sl)) as Hstop
    by (intros; eexists; eapply runs_to_one, sy_reap_stop).
  revert ctx w. induction l as [|e l IH]; intros ctx w; cbn [reap].
  { intros [= <- _]. eexists. apply rt_refl. }
  destruct (ctx_next ctx) as [[] ctx1]; [by intros [= <- _]|]. unfold st_bind.
  destruct (reap_one tiers e w) as [w1 r1] eqn:E1. pose proof (sy_reap_entry tiers cfg e srv w ca t l sl w1 r1 E1) as Hs.
  assert (∀ r2, (∃ tr, sys_runs (mkSys srv w1 ca t (remaining r1 (fun _ => l)) sl) tr r2) →
            ∃ tr, sys_runs (mkSys srv w ca t (e :: l) sl) tr r2) as Hgo.
  { intros r2 [tr Hr]. eexists. eapply rt_step; [exact Hs|exact Hr]. }
  destruct r1 as [b|err]; cbn [remaining] in *; [|intros [= <- _]; apply Hgo; eexists; apply rt_refl].
  intros E. apply Hgo. destruct b; [|by eapply IH].
  destruct (ctx_next ctx1) as [[] ctx2]; [injection E as <- _; apply Hstop|by eapply IH].
Qed.

Lemma sweep_runs ctx l srv w ca t rl w' r :
  sweep tiers ctx l w = (w', r) → ∃ tr, sys_runs (mkSys srv w ca t rl l) tr (mkSys srv w' ca t rl []).
Proof.
  revert ctx w. induction l as [|e l IH]; intros ctx w; cbn [sweep].
  { intros [= <- _]. eexists. apply rt_refl. }
  destruct (ctx_next ctx) as [[] ctx1]; [intros [= <- _]; eexists; eapply runs_to_one, sy_sweep_stop|]. unfold st_bind.
  destruct (sweep_one tiers e w) as [w1 r1] eqn:E1. pose proof (sy_sweep_entry tiers cfg e srv w ca t rl l w1 r1 E1) as Hs.
  destruct r1 as [[]|err]; cbn [remaining] in Hs; [|intros [= <- _]; eexists; by eapply runs_to_one].
  intros [tr Hr]%IH. eexists. eapply rt_step; [exact Hs|exact Hr].
Qed.


(** The blocks that stay at a time. *)
Definition undue (now : time) (sealed : gmap BlockID Sealed) : gmap BlockID Sealed :=
  filter (fun p => now < se_expiry p.2 * Hour) sealed.

Lemma reaped_undue srv sealed m now es :
  entries_ok t0 srv sealed m →
  (∀ e, e ∈ es → is_u64 (ee_Hour e) ∧ ee_Hour e * Hour <= now ∧ expires (ee_Hour e) (ee_ID e) m) →
  (∀ h id, is_u64 h → h * Hour <= now → expires h id m → mkExpired id h ∈ es) →
  reap_blocks es (base <$> sealed) = base <$> undue now sealed.
Proof.
  intros Hen Hes Hall. apply map_eq. intros id. rewrite reap_blocks_lookup, !lookup_fmap. unfold undue.
  rewrite map_lookup_filter. destruct (sealed !! id) as [b|] eqn:Hb; cbn [fmap option_fmap option_map mbind option_bind];
    [|by case_decide].
  destruct (eo_queued _ _ _ _ Hen id b Hb) as [Hu Hx]. case_decide as Hin.
  - apply list_elem_of_In, in_map_iff in Hin as (e & <- & He%list_elem_of_In). destruct (Hes e He) as (Hu' & Hle & Hx').
    rewrite (eo_hour _ _ _ _ Hen _ _ _ Hu' Hx' Hb) in Hle. rewrite option_guard_False; [done|]. cbn [snd]. lia.
  - rewrite option_guard_True; [done|]. cbn [snd]. apply Z.nle_gt. intros Hle. apply Hin.
    apply list_elem_of_In, in_map_iff. exists (mkExpired id (se_expiry b)). split; [done|].
    apply list_elem_of_In. by apply Hall.
Qed.

(** C6: Expired data goes, and nothing else: in every reachable state a cycle of
    the reaper that is not canceled succeeds and leaves exactly the blocks that
    are not due at its time, with their metadata, files and index. *)
Theorem reaper_cycle_exact w mem tr y rcfg now :
  0 <= K → system_start w → sys_runs (start_sys w mem) tr y → zlen (submitted tr) <= K →
  rc_Tiers rcfg = tiers → y_time y <= now → is_i64 now →
  ∃ st w', store_runs start_store tr st ∧ Reaper_RunOnce rcfg [] now (y_world y) = (w', Ok tt) ∧
    consistent tiers store (base <$> undue now (ev_sealed st)) (view (db w')) (files (fs w')).
Proof.
  intros HK Hs Hr Htr Hrc Ht Hi. destruct (reachable_represents w mem tr y HK Hs Hr Htr) as (all & ex & st & Im & Hruns).
  destruct (implements_later _ _ _ _ _ _ _ _ _ _ _ now Im Ht Hi) as [I _ _ _ Hen _ _ _].
  cbn [y_srv y_world y_cache y_time ev_sealed] in *.
  assert (0 <= now) as Hn0 by (destruct (sv_time _ _ _ _ _ _ _ _ _ _ _ _ _ _ I); lia).
  destruct (Reaper_RunOnce_works W tiers store Htk rcfg [] now (base <$> ev_sealed st) (y_world y) Hrc Hn0 Hi)
    as (w' & es & E & St & _ & Hes & Hall); [by eapply serves_stable|].
  exists st, w'. do 2 (split; [done|]). rewrite <- (reaped_undue (y_srv y) _ _ now es Hen Hes); [apply St|].
  apply Hall, Forall_nil_2.
Qed.

(** ** The stop *)

End runs.

(** ** A morning: a batch for two shards, a tick that seals one of them, and a
    query *)
Lemma sample_tiers_ok : tiers_ok calm hot_tiers (local_tier hot_store).
Proof.
  assert (∀ t st, hot_tiers !! t = Some st → ∃ ls, st = local_tier ls) as Hloc.
  { intros t st. unfold hot_tiers. rewrite lookup_singleton_Some. intros [_ <-]. by eexists. }
  split; [exact calm_reads|exact calm_writes| |reflexivity|].
  - intros t st [ls ->]%Hloc. apply LocalTierLaws.
  - intros id id' q. by apply local_tier_files.
Qed.

(** A new database has no entries. *)
Lemma no_entries t0 srv : entries_ok t0 srv ∅ ∅.
Proof.
  split.
  - intros et kh id _ [v Hv]. by rewrite lookup_empty in Hv.
  - intros id b Hb. by rewrite lookup_empty in Hb.
  - intros h id b _ _ Hb. by rewrite lookup_empty in Hb.
  - intros et kh id _ [v Hv]. by rewrite lookup_empty in Hv.
  - intros h id _ [v Hv]. by rewrite lookup_empty in Hv.
Qed.

Lemma sample_system_start :
  system_start calm hot_tiers (local_tier hot_store) run_cfg (3 * Hour + 1) 10 ∅ empty_world.
Proof. split; [rewrite fmap_empty; exact sample_start|apply no_entries]. Qed.

Definition morning_writer : ShardWriter :=
  default (mkWriter 0 run_cfg (mkRing [] 0 0 0) NewMemtable 0) (is_writers morning_server !! 263).

Lemma morning_has_writer : is_writers morning_server !! 263 = Some morning_writer.
Proof. vm_compute. reflexivity. Qed.

Lemma morning_tick : is_Some (flushAndMaybeSeal false (4 * Hour + 1) morning_writer empty_world).
Proof.
  assert (match flushAndMaybeSeal false (4 * Hour + 1) morning_writer empty_world with
          | Some _ => true | None => false end = true) as E by (vm_compute; reflexivity).
  destruct (flushAndMaybeSeal _ _ _ _) as [p|]; [by exists p|discriminate E].
Qed.

Definition noon_query : QueryRequest := mkQuery [7] None (3 * Hour) (5 * Hour).

Definition morning_trace (r : result (list Event)) : list Label :=
  [Stored (routed_batch sample_env morning_batch); Answered noon_query r].

Lemma morning_submitted r : zlen (submitted (morning_trace r)) <= 10.
Proof. by vm_compute. Qed.

Lemma tick_i64 : is_i64 (4 * Hour + 1).
Proof. by vm_compute. Qed.

Lemma morning_runs :
  ∃ y r, runs_to (sys_step hot_tiers run_cfg)
           (start_sys (local_tier hot_store) run_cfg (3 * Hour + 1) empty_world 0) (morning_trace r) y ∧
         y_time y = 4 * Hour + 1.
Proof.
  destruct morning_handled as (resp & E & He). destruct morning_tick as [[sw' w'] Et].
  set (srv2 := mkIngestionServer run_cfg (<[263 := sw']> (is_writers morning_server))).
  set (ca := NewBloomCache (local_tier hot_store) 0).
  destruct (Query hot_tiers noon_query (mkQState (db w') ca (fs w'))) as [q r] eqn:Eq.
  exists (mkSys srv2 (mkWorld _ (qs_db q) (qs_fs q)) (qs_cache q) (4 * Hour + 1) [] []), r. split; [|reflexivity].
  eapply (rt_step _ _ (Stored (routed_batch sample_env morning_batch)) _ (Answered noon_query r :: [])).
  { replace (Stored (routed_batch sample_env morning_batch)) with (batch_label sample_env morning_batch resp)
      by (unfold batch_label; by rewrite He).
    eapply sy_batch; [|exact later_i64|exact morning_range|apply Forall_forall; exact sample_event_ok|exact E]. by vm_compute. }
  eapply (rt_step _ _ Silent _ (Answered noon_query r :: [])).
  { eapply (sy_tick hot_tiers run_cfg 263 morning_writer (4 * Hour + 1));
      [by vm_compute|exact tick_i64|exact morning_has_writer|by vm_compute|by vm_compute|exact Et]. }
  eapply (runs_to_one _ _ (Answered noon_query r)). apply sy_query. exact Eq.
Qed.

Abbreviation sample_runs := (runs_to (sys_step hot_tiers run_cfg)
  (start_sys (local_tier hot_store) run_cfg (3 * Hour + 1) empty_world 0)).
Abbreviation sample_store_runs := (runs_to (store_step (wc_Retention run_cfg)) (start_store (3 * Hour + 1) ∅)).



Definition sample_reaper : ReaperConfig := mkReaperConfig Hour 1 hot_tiers.
Definition sample_janitor : JanitorConfig := mkJanitorConfig Hour hot_tiers.


(** More than five years later, which is the default retention. *)
Definition much_later : time := 50000 * Hour.

Lemma much_later_i64 : is_i64 much_later.
Proof. by vm_compute. Qed.

Lemma reaper_cycle_exact_witness :
  ∃ y r st w', sample_runs (morning_trace r) y ∧ sample_store_runs (morning_trace r) st ∧
    Reaper_RunOnce sample_reaper [] much_later (y_world y) = (w', Ok tt).
Proof.
  destruct morning_runs as (y & r & Hr & Ht).
  destruct (reaper_cycle_exact calm hot_tiers (local_tier hot_store) run_cfg (3 * Hour + 1) 10 ∅
              sample_setting sample_tiers_ok empty_world 0 (morning_trace r) y sample_reaper much_later)
    as (st & w' & Hs & E & _).
  - lia.
  - exact sample_system_start.
  - exact Hr.
  - apply morning_submitted.
  - reflexivity.
  - rewrite Ht. by vm_compute.
  - exact much_later_i64.
  - exists y, r, st, w'. split; [exact Hr|]. split; [exact Hs|exact E].
Defined.

(** The state after the batch alone. *)
Lemma morning_small s sw : is_writers morning_server !! s = Some sw → rows_bytes (waiting sw) < 2 ^ 44.
Proof.
  assert (forallb (fun p => rows_bytes (waiting p.2) <? 2 ^ 44) (map_to_list (is_writers morning_server)) = true) as Hall
    by (vm_compute; reflexivity).
  intros Hs%elem_of_map_to_list. rewrite forallb_forall in Hall.
  specialize (Hall (s, sw)). apply Z.ltb_lt, Hall. by apply list_elem_of_In.
Qed.

