(* ===== verification/Recovery.v ===== *)
(** * What a crash leaves: [internal/meta/recovery.go], [WALScan] and the log entries

    The program keeps a write-ahead log and has the functions to find what is
    left in it after a crash; it does not replay it.  Here the replay they are
    made for, the shards of [FindOrphanedWALShards] scanned with [WALScan] and
    decoded, is shown to find exactly what the tables held, in every state the
    running system can be in: a crash loses what waits in the queues and
    nothing else. *)
From S2P Require Import Prelude GoTime GoFmt GoOs Pebble PebbleRef Keys Wal BlockMetaDB IdxDB Expiry Event Memtable.
From S2P Require Import Bloom Format Tier World Sealer RingBuf BlockReader Heap Merger Index BloomCache Query QueryExact.
From S2P Require Import Ttl Reap Writer Json WriterRun Ingest IngestRun Server System SystemRefines SystemRuns.
#[local] Open Scope Z_scope.

Section replay.
Context `{PebbleOps} `{MapOrder}.

Fixpoint replay (shards : list ShardID) (acc : list Event) : ST pdb (list Event) :=
  match shards with
  | [] => st_ret acc
  | s :: r => let! entries := WALScan s in replay r (acc ++ recover entries)
  end.

Definition replay_all : ST pdb (list Event) :=
  let! shards := FindOrphanedWALShards in replay shards [].
End replay.

Section works.
Context `{Pebble} `{MapOrder} (W : pdb → Prop) (HR : reads_work W).

Lemma WALScan_works s d :
  W d → ∃ d', WALScan s d = (d', Ok (wal_log s (view d))) ∧ W d' ∧ view d' = view d.
Proof.
  intros Hw. destruct (WALScan s d) as [d' r] eqn:E.
  assert (W d' ∧ ∃ l, r = Ok l) as [Hw' [l ->]].
  { destruct (proj2 HR (WALKeyStart s) (WALKeyEnd s) d Hw) as (d1 & es & E1 & Hw1).
    unfold WALScan, st_bind, st_ret in E. rewrite E1 in E. injection E as <- <-. eauto. }
  exists d'. apply WALScan_ok in E as [-> Hv]. done.
Qed.

Lemma keep_nonempty_works shards acc d :
  W d → ∃ d', keep_nonempty shards acc d = (d', Ok (acc ++ filter (fun s => wal_log s (view d) ≠ []) shards)) ∧
    W d' ∧ view d' = view d.
Proof.
  revert acc d. induction shards as [|s r IH]; intros acc d Hw; cbn [keep_nonempty].
  { exists d. by rewrite app_nil_r. }
  destruct (WALScan_works s d Hw) as (d1 & E1 & Hw1 & Hv1). rewrite E1, filter_cons.
  destruct (wal_log s (view d)) as [|x xs] eqn:El.
  - destruct (IH acc d1 Hw1) as (d' & E & Hw' & Hv'). exists d'. rewrite E, Hv1. rewrite decide_False by tauto.
    split; [done|]. split; [done|congruence].
  - destruct (IH (acc ++ [s]) d1 Hw1) as (d' & E & Hw' & Hv'). exists d'. rewrite E, Hv1. rewrite decide_True by done.
    rewrite <- app_assoc. split; [done|]. split; [done|congruence].
Qed.

(** The shards found are those with something in their log. *)
Lemma orphans_work d :
  W d → db_ok (view d) →
  ∃ d' l, FindOrphanedWALShards d = (d', Ok l) ∧ W d' ∧ view d' = view d ∧ NoDup l ∧
    ∀ s, s ∈ l ↔ is_u16 s ∧ wal_log s (view d) ≠ [].
Proof.
  intros Hw Hdb. unfold FindOrphanedWALShards, st_bind.
  destruct (proj2 HR prefixWAL (bump_last prefixWAL) d Hw) as (d1 & es & E1 & Hw1). rewrite E1.
  pose proof (piter_view _ _ _ _ _ E1) as Hv1. apply piter_ok in E1 as ->.
  set (shards := map_order _).
  destruct (keep_nonempty_works shards [] d1 Hw1) as (d' & E & Hw' & Hv'). rewrite E, Hv1.
  eexists d', _. split; [done|]. split; [done|]. split; [congruence|].
  assert (∀ s, s ∈ shards ↔ s ∈ omap wal_key_shard (scan prefixWAL (bump_last prefixWAL) (view d))) as Hin.
  { intros s. unfold shards. by rewrite elem_of_map_order, elem_of_remove_dups. }
  split; [apply NoDup_filter; unfold shards; rewrite map_order_perm; apply NoDup_remove_dups|].
  intros s. cbn [app]. rewrite list_elem_of_filter, Hin. split.
  - intros [Hne Hs]. split; [by eapply wal_shards_u16|done].
  - intros [Hs Hne]. split; [done|]. apply elem_of_wal_shards; [done|done|].
    destruct (wal_log s (view d)) as [|v l] eqn:El; [done|].
    assert (v ∈ wal_log s (view d)) as Hv by (rewrite El; left).
    apply elem_of_wal_log in Hv as (q & Hq & Hl); [eauto|done| |done].
    unfold is_u16 in Hs. destruct (decide (s = 65535)) as [->|]; [by rewrite wal_log_65535 in El|lia].
Qed.

Lemma replay_works shards acc d :
  W d → ∃ d', replay shards acc d = (d', Ok (acc ++ concat (map (fun s => recover (wal_log s (view d))) shards))) ∧
    W d' ∧ view d' = view d.
Proof.
  revert acc d. induction shards as [|s r IH]; intros acc d Hw; cbn [replay map concat].
  { exists d. by rewrite app_nil_r. }
  destruct (WALScan_works s d Hw) as (d1 & E1 & Hw1 & Hv1). unfold st_bind. rewrite E1.
  destruct (IH (acc ++ recover (wal_log s (view d))) d1 Hw1) as (d' & E & Hw' & Hv'). exists d'.
  rewrite E, Hv1, <- app_assoc. split; [done|]. split; [done|congruence].
Qed.
End works.

(** ** Tables and queues *)
Definition shards_of (srv : IngestionServer) : list ShardID := map fst (map_to_list (is_writers srv)).
Definition tables (srv : IngestionServer) : list Event := concat (map (table_at srv) (shards_of srv)).
Definition queues (srv : IngestionServer) : list Event := concat (map (queued srv) (shards_of srv)).

Lemma pending_parts srv : pending srv ≡ₚ tables srv ++ queues srv.
Proof.
  assert (pending srv = concat (map (waiting_at srv) (shards_of srv))) as ->.
  { unfold pending, shards_of. rewrite map_map. apply concat_ext. intros [s sw] Hs%elem_of_map_to_list.
    unfold waiting_at. cbn [fst snd]. by rewrite Hs. }
  unfold tables, queues. induction (shards_of srv) as [|s l IH]; [done|]. cbn [map concat].
  rewrite waiting_at_split, IH, <- !app_assoc. apply Permutation_app_head.
  rewrite !app_assoc. apply Permutation_app_tail, Permutation_app_comm.
Qed.

Section crash.
Context `{Pebble} `{SliceSort} `{MapOrder} `{BloomLib} `{Zstd} `{XXHash}.
Context (W : pdb → Prop) (tiers : gmap Tier TierStore) (store : TierStore) (cfg : WriterConfig).
Context (t0 : time) (K : Z) (sealed0 : gmap BlockID Sealed).
Context (Hset : service_setting W tiers store cfg) (Htk : tiers_ok W tiers store).

Abbreviation serves := (service_ok W tiers store cfg t0 K (base <$> sealed0)).

(** A shard's log, decoded, is its table. *)
Lemma log_is_table all gone t srv w blocks s :
  serves [] all gone t srv w blocks → is_u16 s → recover (wal_log s (view (db w))) = table_at srv s.
Proof.
  intros I Hs. unfold table_at. destruct (is_writers srv !! s) as [sw|] eqn:Es.
  - assert (writer_ok cfg t0 K s sw (view (db w)) t (zlen all)) as Hw by by apply I.
    rewrite (wo_log _ _ _ _ _ _ _ _ Hw). apply recover_Marshal.
    destruct (sv_events _ _ _ _ _ _ _ _ _ _ _ _ _ _ I) as (new & _ & Hall).
    destruct (pending_split srv s sw Es) as (rest & Hp & _).
    pose proof (sv_ev _ _ _ _ _ _ _ _ _ _ _ _ _ _ I) as Hev. rewrite <- Hall, Hp in Hev.
    apply Forall_app in Hev as [_ Hev]. apply Forall_app in Hev as [Hev _]. by apply Forall_app in Hev as [Hev _].
  - destruct (decide (s = 65535)) as [->|Hne]; [by rewrite wal_log_65535|].
    destruct (sv_absent _ _ _ _ _ _ _ _ _ _ _ _ _ _ I s) as [-> _]; [done|unfold is_u16 in Hs; lia|done|done].
Qed.

(** The replay finds the tables. *)
Lemma replay_finds_tables all gone t srv w blocks :
  serves [] all gone t srv w blocks →
  ∃ d es, replay_all (db w) = (d, Ok es) ∧ view d = view (db w) ∧ es ≡ₚ tables srv.
Proof.
  intros I. destruct (orphans_work W (tk_reads _ _ _ Htk) (db w)) as (d1 & l & E1 & Hw1 & Hv1 & Hnd & Hl);
    [apply I|apply (sv_wal _ _ _ _ _ _ _ _ _ _ _ _ _ _ I)|].
  destruct (replay_works W (tk_reads _ _ _ Htk) l [] d1 Hw1) as (d2 & E2 & _ & Hv2).
  unfold replay_all, st_bind. rewrite E1, E2, Hv1. eexists _, _. split; [done|]. split; [congruence|]. cbn [app].
  assert (∀ s, s ∈ shards_of srv → is_u16 s) as Hu.
  { intros s ([s' sw] & -> & Hs)%list_elem_of_fmap. apply elem_of_map_to_list in Hs.
    assert (writer_ok cfg t0 K s' sw (view (db w)) t (zlen all)) as Hw by by apply I. by apply Hw. }
  unfold tables. rewrite <- (concat_ext (fun s => recover (wal_log s (view (db w)))) (table_at srv) (shards_of srv))
    by (intros s Hs; eapply log_is_table; [exact I|by apply Hu]).
  apply concat_sub; [done|apply NoDup_fst_map_to_list| |].
  - intros s [Hs Hne]%Hl. destruct (is_writers srv !! s) as [sw|] eqn:Es.
    + unfold shards_of. apply list_elem_of_In, in_map_iff. exists (s, sw). split; [done|].
      by apply list_elem_of_In, elem_of_map_to_list.
    + destruct Hne. destruct (decide (s = 65535)) as [->|Hs']; [by rewrite wal_log_65535|].
      apply (sv_absent _ _ _ _ _ _ _ _ _ _ _ _ _ _ I s); [done|unfold is_u16 in Hs; lia|done].
  - intros s Hs Hni. destruct (decide (wal_log s (view (db w)) = [])) as [->|Hne]; [done|].
    destruct Hni. apply Hl. split; [by apply Hu|done].
Qed.

End crash.

