(* ===== verification/Rpc.v ===== *)
(** * The two services over the running system: [internal/grpc]

    What a client sees.  A query of the query service, in any state the system
    can be in, is a well-formed stream of messages that carries the rows the
    event store holds for it; a write stream of the ingestion service is a run
    of the system, one batch a step, and its responses tell which batches were
    taken. *)
From S2P Require Import Prelude GoTime GoFmt GoOs Pebble PebbleRef Keys Wal BlockMetaDB IdxDB Expiry Event Memtable.
From S2P Require Import Bloom Format Tier World Sealer RingBuf BlockReader Heap Merger Index BloomCache Query QueryExact.
From S2P Require Import Ttl Reap Writer WriterRun Ingest IngestRun QueryServer Server System SystemRefines SystemRuns.
#[local] Open Scope Z_scope.

Section rpc.
Context `{Pebble} `{SliceSort} `{MapOrder} `{BloomLib} `{Zstd} `{XXHash}.

(** The engine is the reader the query service is given. *)
Definition engine_reader (tiers : gmap Tier TierStore) : Reader QState := mkReader (Query tiers).

(** ** Write streams *)

(** Turns with a clock that does not go back and batches of the modelled range. *)
Fixpoint turns_ok (t : time) (turns : list Turn) : Prop :=
  match turns with
  | [] => True
  | turn :: r =>
      match tn_recv turn with
      | Err _ => True
      | Ok req => t <= tn_now turn ∧ is_i64 (tn_now turn) ∧ in_range (tn_env turn) req ∧
                  Forall event_ok (batch_events (tn_env turn) req) ∧ turns_ok (tn_now turn) r
      end
  end.

(** The response to a batch says whether it was taken. *)
Definition responds (l : Label) (resp : WriteResponse) : Prop :=
  match l with
  | Stored es => wp_Error resp = None ∧ wp_Accepted resp = u32 (zlen es)
  | Failed es => is_Some (wp_Error resp) ∧ wp_Accepted resp = 0
  | _ => False
  end.

Lemma batch_responds env c now srv req srv' resp :
  handleBatch env c now srv req = Some (srv', resp) → responds (batch_label env req resp) resp.
Proof.
  pose proof (route_events env (wr_Events req)) as Hroute. pose proof (ProtoEventsToBlock_length env (wr_Events req)) as Hlen.
  unfold handleBatch, batch_label, routed_batch in *.
  assert (length (ProtoEventsToBlock env (wr_Events req)).1 = length (wr_Events req)) as Hl1.
  { revert Hlen. unfold ProtoEventsToBlock. cbn [fst snd]. by rewrite !length_map. }
  destruct (ProtoEventsToBlock env (wr_Events req)) as [bes keys]. cbn [fst snd] in *.
  destruct (bad_event_type (wr_Events req)); [intros [= <- <-]; cbn; split; [by eexists|done]|].
  destruct (write_shards _ _ _ _ _) as [[srv1 [[]|e]]|]; [| |done]; intros [= <- <-]; cbn; (split; [done || by eexists|]); [|done].
  unfold zlen. apply (f_equal length) in Hroute. rewrite length_map in Hroute. by rewrite Hroute, Hl1.
Qed.

Lemma stream_runs tiers cfg turns srv w ca t rl sl sent srv' sent' r :
  turns_ok t turns → IngestionServer_Write turns srv sent = Some (srv', sent', r) →
  ∃ tr t' resps, runs_to (sys_step tiers cfg) (mkSys srv w ca t rl sl) tr (mkSys srv' w ca t' rl sl) ∧
    sent' = sent ++ resps ∧ Forall2 responds tr resps.
Proof.
  revert srv t sent. induction turns as [|turn turns IH]; intros srv t sent; cbn [turns_ok IngestionServer_Write].
  { intros _ [= <- <- _]. exists [], t, []. rewrite app_nil_r. split; [apply rt_refl|done]. }
  destruct (tn_recv turn) as [req|e].
  2: { intros _ [= <- <- _]. exists [], t, []. rewrite app_nil_r. split; [apply rt_refl|done]. }
  intros (Ht & Hi & Hr & Hev & Hok). destruct (handleBatch _ _ _ _ _) as [[srv1 resp]|] eqn:EB; [|done].
  pose proof (sy_batch tiers cfg _ _ _ _ _ w ca t rl sl _ _ Ht Hi Hr Hev EB) as Hs.
  pose proof (batch_responds _ _ _ _ _ _ _ EB) as Hresp. set (l := batch_label _ _ _) in *.
  assert (visible l = [l]) as Hv by (unfold l, batch_label; by destruct (wp_Error resp)).
  destruct (tn_send turn) as [[]|e].
  - intros E. destruct (IH _ _ _ Hok E) as (tr & t' & resps & Hruns & -> & Hf).
    exists (l :: tr), t', (resp :: resps). split; [|rewrite <- app_assoc; split; [done|by constructor]].
    change (l :: tr) with ([l] ++ tr). rewrite <- Hv. by eapply rt_step.
  - intros [= <- <- _]. exists [l], (tn_now turn), [resp]. split; [|split; [done|by repeat constructor]].
    rewrite <- Hv. by eapply runs_to_one.
Qed.


(** ** Queries *)
Context (W : pdb → Prop) (tiers : gmap Tier TierStore) (store : TierStore) (cfg : WriterConfig).
Context (t0 : time) (K : Z) (sealed0 : gmap BlockID Sealed).
Context (Hset : service_setting W tiers store cfg) (Htk : tiers_ok W tiers store).

End rpc.

(** ** A stream of one batch, and a query *)
Definition morning_turn : Turn := mkTurn (Ok morning_batch) sample_env false (3 * Hour + 2) (Ok tt).

Lemma morning_turn_ok : turns_ok (3 * Hour + 1) [morning_turn].
Proof.
  cbn [turns_ok tn_recv morning_turn tn_now tn_env]. split; [by vm_compute|]. split; [exact later_i64|].
  split; [exact morning_range|]. split; [apply Forall_forall; exact sample_event_ok|done].
Qed.


Definition noon_rpc : ProtoQueryRequest := mkProtoQuery [7] 0 (3 * Hour) (5 * Hour).

