(* ===== verification/Boot.v ===== *)
(** * From [New] to the event store: [internal/server/server.go] with everything it starts

    What [New] assembles is a system in the sense of [System]: the ingestion
    service and the writers with the configuration it derived, the engine with
    the cache and the tiers it made, the reaper and the janitor on the same
    tiers.  So the theorems on runs hold of the process that starts on a new
    data directory with any configuration whose tiers are apart. *)
From Stdlib Require Import QArith_base.
From S2P Require Import Prelude GoTime GoFmt GoOs Pebble PebbleRef Keys Wal BlockMetaDB IdxDB Expiry Event Memtable.
From S2P Require Import Bloom Format Tier World Sealer RingBuf BlockReader Heap Merger Index BloomCache Config Query QueryPar QueryExact.
From S2P Require Import Ttl Reap Writer WriterRun Ingest IngestRun Server System SystemRefines SystemRuns.
#[local] Open Scope Z_scope.

Section boot.
Context `{PebbleDriver} `{!Pebble} `{SliceSort} `{MapOrder} `{BloomLib} `{Zstd} `{XXHash}.

(** The libraries do their part: reads and writes of the store work while [W]
    holds, compression is bounded, filters can be encoded. *)
Record libraries_work (W : pdb → Prop) : Prop := {
  lw_reads : reads_work W;
  lw_writes : writes_work W;
  lw_zstd : zstd_bound;
  lw_bloom b : ∃ data, Serialize b = Ok data;
}.

Definition hot_tier (cfg : Config) : TierStore := local_tier (mkLocal (Root (Hot (Tiers cfg))) TierHot).

(** The server that [New] returns, as a system at the time [t0]. *)
Definition booted (srv : Server) (d : pdb) (f : FS) (t0 : time) : Sys :=
  mkSys (gs_ingestion (sv_grpcServer srv)) (mkWorld _ d f) (en_bloom (sv_engine srv)) t0 [] [].

Lemma New_setting W cfg p p' srv :
  libraries_work W → pr_db p = None → New cfg p = (p', Ok srv) → roots_apart cfg → RingBufSize (Ingestion cfg) <= 2 ^ 62 →
  service_setting W (sv_tiers srv) (hot_tier cfg) (sv_writerCfg srv) ∧
  tiers_ok W (sv_tiers srv) (hot_tier cfg) ∧
  booted srv = fun d f t0 => start_sys (hot_tier cfg) (sv_writerCfg srv) t0 (mkWorld _ d f) (BloomCacheBytes (Config.Query cfg)).
Proof.
  intros [HR HW Hz Hb] Hp E Hap Hring. pose proof E as E'. apply New_spec in E' as [_ ->]; [|done].
  set (warm := mkLocal (Root (Warm (Tiers cfg))) TierWarm). set (cold := mkLocal (Root (Cold (Tiers cfg))) TierCold).
  set (hot := mkLocal (Root (Hot (Tiers cfg))) TierHot).
  assert (∀ t st, tier_map hot warm cold !! t = Some st → ∃ ls, st = local_tier ls) as Hloc.
  { intros t st [[_ ->]|[[_ ->]|[_ ->]]]%tier_map_lookup; by eexists. }
  split; [|split; [|done]].
  - split; [done|]. intros s Hs Hlt. by apply (assembled_setting cfg W s).
  - split; [done|done| |done|].
    + intros t st [ls ->]%Hloc. apply LocalTierLaws.
    + intros id id' q. by apply local_tier_files.
Qed.

(** A new database: nothing stored under any key. *)
Lemma new_database W tiers store cfg t0 K d f :
  W d → view d = ∅ → sched f = [] → 0 <= t0 → is_i64 t0 → K < 2 ^ 64 →
  system_start W tiers store cfg t0 K ∅ (mkWorld _ d f).
Proof.
  intros Hw Hv Hf Ht Hi HK. split; cbn [db]; [|rewrite Hv; apply no_entries].
  rewrite fmap_empty. split; cbn [db fs]; rewrite ?Hv; try done.
  intros et kh id _ [v Hx]. by rewrite lookup_empty in Hx.
Qed.

End boot.

(** ** The default configuration, a batch and a query *)
Lemma sample_libraries : libraries_work calm.
Proof.
  split; [exact calm_reads|exact calm_writes| |].
  - intros b. cbn. unfold zlen. simpl. lia.
  - intros b. by eexists.
Qed.

Definition first_server : Server :=
  assemble default_config (mkLocal (Root (Hot (Tiers default_config))) TierHot)
    (mkLocal (Root (Warm (Tiers default_config))) TierWarm) (mkLocal (Root (Cold (Tiers default_config))) TierCold).

Lemma first_batch :
  ∃ srv resp, handleBatch sample_env false (3 * Hour + 2) (gs_ingestion (sv_grpcServer first_server)) morning_batch
              = Some (srv, resp) ∧ wp_Error resp = None.
Proof.
  assert (match handleBatch sample_env false (3 * Hour + 2) (gs_ingestion (sv_grpcServer first_server)) morning_batch with
          | Some (_, resp) => match wp_Error resp with None => true | Some _ => false end
          | None => false end = true) as E by (vm_compute; reflexivity).
  destruct (handleBatch _ _ _ _ _) as [[srv resp]|]; [|discriminate E].
  exists srv, resp. split; [reflexivity|]. by destruct (wp_Error resp).
Qed.

Lemma first_run d f :
  ∃ y r, runs_to (sys_step (sv_tiers first_server) (sv_writerCfg first_server))
           (booted first_server d f (3 * Hour + 1)) (morning_trace r) y.
Proof.
  destruct first_batch as (srv & resp & E & He). set (w := mkWorld RefOps d f). set (ca := en_bloom (sv_engine first_server)).
  destruct (Query (sv_tiers first_server) noon_query (mkQState (db w) ca (fs w))) as [q r] eqn:Eq.
  exists (mkSys srv (mkWorld _ (qs_db q) (qs_fs q)) (qs_cache q) (3 * Hour + 2) [] []), r.
  eapply (rt_step _ _ (Stored (routed_batch sample_env morning_batch)) _ (Answered noon_query r :: [])).
  { replace (Stored (routed_batch sample_env morning_batch)) with (batch_label sample_env morning_batch resp)
      by (unfold batch_label; by rewrite He).
    eapply sy_batch; [|exact later_i64|exact morning_range|apply Forall_forall; exact sample_event_ok|exact E]. by vm_compute. }
  eapply (runs_to_one _ _ (Answered noon_query r)). apply sy_query. exact Eq.
Qed.

Lemma first_i64 : is_i64 (3 * Hour + 1).
Proof. by vm_compute. Qed.

