(* ===== verification/Lifecycle.v ===== *)
(** * Running and stopping the server: [Run], [Shutdown] of [internal/server/server.go], [Run] of
    [internal/grpc/server.go], [Run] of [internal/ttl/reaper.go] and [internal/ttl/janitor.go]

    [Run] starts three goroutines and waits for the context; then it waits for
    them, at most for the shutdown timeout, and closes the database.  The
    goroutines, the open streams and the timer move independently: the state
    is the position of each, a schedule is any sequence of steps.  Cycles of
    the reaper and the janitor and batches on a stream are one step each: what
    they do is the subject of their own theorems. *)
From S2P Require Import Prelude.

(** [Reaper.Run] and [Janitor.Run]: within [RunOnce], in the [select], returned. *)
Inductive loop_pc := LCycle | LSelect | LReturned.

(** [grpc.Server.Run]: at [net.Listen], in the [select], in [ingestion.Stop],
    in [GracefulStop], returned. *)
Inductive grpc_pc := GListen | GServe | GStopping | GDraining | GReturned.

(** [Server.Run]: at [<-ctx.Done()], in the [select], in [Shutdown] before and
    after the hook, returned. *)
Inductive run_pc := MServing | MWaiting | MHook | MClose | MReturned.

(** [lf_sealed]: the writers were stopped; [lf_late]: batches accepted after
    that; [lf_misuse]: a component used the closed database. *)
Record Life := mkLife {
  lf_ctx : bool;
  lf_janitor : loop_pc;
  lf_reaper : loop_pc;
  lf_grpc : grpc_pc;
  lf_streams : nat;
  lf_main : run_pc;
  lf_timeout : bool;
  lf_hooked : bool;
  lf_open : bool;
  lf_sealed : bool;
  lf_late : nat;
  lf_misuse : bool;
}.

Definition life_start : Life :=
  mkLife false LCycle LCycle GListen 0 MServing false false true false 0 false.

(** One step of a background loop; a cycle uses the database. *)
Inductive loop_step (ctx : bool) : loop_pc → loop_pc → bool → Prop :=
  | ls_cycle : loop_step ctx LCycle LSelect true
  | ls_tick : loop_step ctx LSelect LCycle false
  | ls_done : ctx = true → loop_step ctx LSelect LReturned false.

(** The gRPC goroutine; stopping the writers uses the database.  [GracefulStop]
    returns when no stream is open. *)
Inductive grpc_step (ctx : bool) (streams : nat) : grpc_pc → grpc_pc → bool → Prop :=
  | gs_listen : grpc_step ctx streams GListen GServe false
  | gs_listen_error : grpc_step ctx streams GListen GReturned false
  | gs_serve_error : grpc_step ctx streams GServe GReturned false
  | gs_done : ctx = true → grpc_step ctx streams GServe GStopping false
  | gs_stopped : grpc_step ctx streams GStopping GDraining true
  | gs_drained : streams = 0%nat → grpc_step ctx streams GDraining GReturned false.

(** The server accepts new streams until [GracefulStop]. *)
Definition accepting (g : grpc_pc) : bool := match g with GServe | GStopping => true | _ => false end.

(** Moving one part. *)
Definition set_ctx (s : Life) : Life :=
  mkLife true (lf_janitor s) (lf_reaper s) (lf_grpc s) (lf_streams s) (lf_main s) (lf_timeout s)
    (lf_hooked s) (lf_open s) (lf_sealed s) (lf_late s) (lf_misuse s).
Definition set_loops (j r : loop_pc) (s : Life) : Life :=
  mkLife (lf_ctx s) j r (lf_grpc s) (lf_streams s) (lf_main s) (lf_timeout s)
    (lf_hooked s) (lf_open s) (lf_sealed s) (lf_late s) (lf_misuse s).
Definition set_grpc (g : grpc_pc) (sealed : bool) (s : Life) : Life :=
  mkLife (lf_ctx s) (lf_janitor s) (lf_reaper s) g (lf_streams s) (lf_main s) (lf_timeout s)
    (lf_hooked s) (lf_open s) sealed (lf_late s) (lf_misuse s).
Definition set_streams (streams late : nat) (s : Life) : Life :=
  mkLife (lf_ctx s) (lf_janitor s) (lf_reaper s) (lf_grpc s) streams (lf_main s) (lf_timeout s)
    (lf_hooked s) (lf_open s) (lf_sealed s) late (lf_misuse s).
Definition set_main (m : run_pc) (timeout hooked open : bool) (s : Life) : Life :=
  mkLife (lf_ctx s) (lf_janitor s) (lf_reaper s) (lf_grpc s) (lf_streams s) m timeout
    hooked open (lf_sealed s) (lf_late s) (lf_misuse s).
(** A use of the database. *)
Definition use_db (uses : bool) (s : Life) : Life :=
  mkLife (lf_ctx s) (lf_janitor s) (lf_reaper s) (lf_grpc s) (lf_streams s) (lf_main s) (lf_timeout s)
    (lf_hooked s) (lf_open s) (lf_sealed s) (lf_late s) (lf_misuse s || (uses && negb (lf_open s))).

Inductive life_step (s : Life) : Life → Prop :=
  | l_signal : life_step s (set_ctx s)
  | l_janitor pc uses : loop_step (lf_ctx s) (lf_janitor s) pc uses →
      life_step s (use_db uses (set_loops pc (lf_reaper s) s))
  | l_reaper pc uses : loop_step (lf_ctx s) (lf_reaper s) pc uses →
      life_step s (use_db uses (set_loops (lf_janitor s) pc s))
  | l_grpc pc uses : grpc_step (lf_ctx s) (lf_streams s) (lf_grpc s) pc uses →
      life_step s (use_db uses (set_grpc pc (lf_sealed s || uses) s))
  | l_connect : accepting (lf_grpc s) = true →
      life_step s (set_streams (S (lf_streams s)) (lf_late s) s)
  | l_disconnect n : lf_streams s = S n → life_step s (set_streams n (lf_late s) s)
  | l_batch n : lf_streams s = S n →
      life_step s (set_streams (S n) (if lf_sealed s then S (lf_late s) else lf_late s) s)
  | l_cancelled : lf_main s = MServing → lf_ctx s = true →
      life_step s (set_main MWaiting (lf_timeout s) (lf_hooked s) (lf_open s) s)
  | l_all_done : lf_main s = MWaiting → lf_janitor s = LReturned → lf_reaper s = LReturned →
      lf_grpc s = GReturned →
      life_step s (set_main MHook (lf_timeout s) (lf_hooked s) (lf_open s) s)
  | l_timeout : lf_main s = MWaiting → life_step s (set_main MHook true (lf_hooked s) (lf_open s) s)
  | l_hook : lf_main s = MHook → life_step s (set_main MClose (lf_timeout s) true (lf_open s) s)
  | l_close : lf_main s = MClose → life_step s (set_main MReturned (lf_timeout s) (lf_hooked s) false s).

Definition reachable (s : Life) : Prop := rtc life_step life_start s.

(** ** What holds of every schedule *)
Definition returned (s : Life) : Prop :=
  lf_janitor s = LReturned ∧ lf_reaper s = LReturned ∧ lf_grpc s = GReturned.

(** The main goroutine's own part of the state. *)
Definition main_inv (s : Life) : Prop :=
  let ended := lf_ctx s = true ∧ (lf_timeout s = true ∨ returned s) in
  match lf_main s with
  | MServing => (lf_timeout s, lf_hooked s, lf_open s, lf_misuse s) = (false, false, true, false)
  | MWaiting => lf_ctx s = true ∧
      (lf_timeout s, lf_hooked s, lf_open s, lf_misuse s) = (false, false, true, false)
  | MHook => ended ∧ (lf_hooked s, lf_open s, lf_misuse s) = (false, true, false)
  | MClose => ended ∧ (lf_hooked s, lf_open s, lf_misuse s) = (true, true, false)
  | MReturned => ended ∧ (lf_hooked s, lf_open s) = (true, false) ∧ (lf_misuse s = true → lf_timeout s = true)
  end.

Record life_inv (s : Life) : Prop := {
  li_main : main_inv s;
  li_janitor : lf_janitor s = LReturned → lf_ctx s = true;
  li_reaper : lf_reaper s = LReturned → lf_ctx s = true;
  li_late : (0 < lf_late s)%nat → lf_sealed s = true;
  li_draining : lf_grpc s = GDraining → lf_sealed s = true;
}.

Lemma life_inv_start : life_inv life_start.
Proof. split; cbn; try done. lia. Qed.

(** A step of a goroutine that has not returned. *)
Lemma main_inv_use (s s' : Life) uses :
  main_inv s → ¬ returned s →
  (lf_ctx s', lf_main s', lf_timeout s', lf_hooked s', lf_open s')
  = (lf_ctx s, lf_main s, lf_timeout s, lf_hooked s, lf_open s) →
  lf_misuse s' = lf_misuse s || (uses && negb (lf_open s)) → main_inv s'.
Proof.
  unfold main_inv. intros Hi Hn [= -> -> -> -> ->] ->.
  destruct (lf_main s).
  - injection Hi as -> -> -> ->. by rewrite andb_false_r.
  - destruct Hi as [Hc Hi]. injection Hi as -> -> -> ->. split; [done|]. by rewrite andb_false_r.
  - destruct Hi as [[Hc [Ht|Hr]] Hi]; [|done]. injection Hi as -> -> ->.
    split; [by split; [|left]|]. by rewrite andb_false_r.
  - destruct Hi as [[Hc [Ht|Hr]] Hi]; [|done]. injection Hi as -> -> ->.
    split; [by split; [|left]|]. by rewrite andb_false_r.
  - destruct Hi as [[Hc [Ht|Hr]] [Hi _]]; [|done]. split; [by split; [|left]|]. by split.
Qed.

Lemma life_inv_step s s' : life_inv s → life_step s s' → life_inv s'.
Proof.
  intros [Hm Hj Hr Hl Hd] Hstep.
  destruct Hstep as [|pc uses L|pc uses L|pc uses L|Ha|n Hn|n Hn|Em Hc|Em Ej Er Eg|Em|Em|Em].
  - split; try done. unfold main_inv, returned in *. cbn in *. destruct (lf_main s); tauto.
  - assert (¬ returned s) by (intros (E & _ & _); rewrite E in L; inversion L).
    split; [by eapply main_inv_use|cbn..]; try done. by inversion L; subst.
  - assert (¬ returned s) by (intros (_ & E & _); rewrite E in L; inversion L).
    split; [by eapply main_inv_use|cbn..]; try done. by inversion L; subst.
  - assert (¬ returned s) by (intros (_ & _ & E); rewrite E in L; inversion L).
    split; [by eapply main_inv_use|cbn..]; try done.
    + intros Hlt. by rewrite Hl.
    + intros ->. inversion L; subst. apply orb_true_r.
  - by split.
  - by split.
  - split; try done. cbn. destruct (lf_sealed s); [done|]. intros Hlt. by apply Hl.
  - split; try done. unfold main_inv in *. rewrite Em in Hm. by cbn.
  - split; try done. unfold main_inv, returned in *. rewrite Em in Hm. cbn in *.
    destruct Hm as [Hc Hm]. injection Hm as -> -> -> ->. tauto.
  - split; try done. unfold main_inv, returned in *. rewrite Em in Hm. cbn in *.
    destruct Hm as [Hc Hm]. injection Hm as _ -> -> ->. tauto.
  - split; try done. unfold main_inv, returned in *. rewrite Em in Hm. cbn in *.
    destruct Hm as [Hc Hm]. injection Hm as _ -> ->. tauto.
  - split; try done. unfold main_inv, returned in *. rewrite Em in Hm. cbn in *.
    destruct Hm as [Hc Hm]. injection Hm as -> _ ->. by split.
Qed.

Lemma life_inv_reachable s : reachable s → life_inv s.
Proof.
  unfold reachable. intros Hs. pose proof life_inv_start as Hi.
  induction Hs as [s|s t u Hst _ IH]; [done|]. apply IH. by eapply life_inv_step.
Qed.

(** [Run] can always go on to its end once the context is canceled. *)
Lemma life_returns s : life_inv s → lf_ctx s = true → ∃ s', rtc life_step s s' ∧ lf_main s' = MReturned.
Proof.
  intros _ Hc.
  assert (∀ s, lf_main s = MClose → ∃ s', rtc life_step s s' ∧ lf_main s' = MReturned) as H1.
  { intros s1 E. eexists. split; [apply rtc_once; by apply l_close|done]. }
  assert (∀ s, lf_main s = MHook → ∃ s', rtc life_step s s' ∧ lf_main s' = MReturned) as H2.
  { intros s1 E. destruct (H1 (set_main MClose (lf_timeout s1) true (lf_open s1) s1) eq_refl) as (s' & Hs & E').
    exists s'. split; [|done]. eapply rtc_l; [by apply l_hook|done]. }
  assert (∀ s, lf_main s = MWaiting → ∃ s', rtc life_step s s' ∧ lf_main s' = MReturned) as H3.
  { intros s1 E. destruct (H2 (set_main MHook true (lf_hooked s1) (lf_open s1) s1) eq_refl) as (s' & Hs & E').
    exists s'. split; [|done]. eapply rtc_l; [by apply l_timeout|done]. }
  destruct (lf_main s) eqn:E; eauto; [|by exists s; split; [apply rtc_refl|]].
  destruct (H3 (set_main MWaiting (lf_timeout s) (lf_hooked s) (lf_open s) s) eq_refl) as (s' & Hs & E').
  exists s'. split; [|done]. eapply rtc_l; [by apply l_cancelled|done].
Qed.


(** ** Schedules *)

(** Takes one step with the given rule. *)
Ltac take rule := eapply rtc_l; [eapply rule; (reflexivity || constructor; reflexivity)|cbn].

(** Both loops end after the signal. *)
Lemma loops_end j r g st m to hk op se la mi :
  j = LSelect → r = LSelect →
  rtc life_step (mkLife true j r g st m to hk op se la mi)
    (mkLife true LReturned LReturned g st m to hk op se la mi).
Proof.
  intros -> ->. eapply rtc_l; [apply l_janitor, ls_done; reflexivity|]. unfold use_db, set_loops. cbn.
  rewrite orb_false_r. eapply rtc_l; [apply l_reaper, ls_done; reflexivity|]. unfold use_db, set_loops. cbn.
  rewrite orb_false_r. apply rtc_refl.
Qed.

(** The end of a shutdown in time. *)
Definition life_end (sealed : bool) (streams late : nat) : Life :=
  mkLife true LReturned LReturned GReturned streams MReturned false true false sealed late false.

(** From the moment everything has returned. *)
Lemma closes se st la :
  rtc life_step (mkLife true LReturned LReturned GReturned st MServing false false true se la false)
    (life_end se st la).
Proof.
  take l_cancelled. eapply rtc_l; [apply l_all_done; reflexivity|cbn].
  take l_hook. take l_close. apply rtc_refl.
Qed.

(** The first cycles are over, the server listens. *)
Definition life_up : Life := mkLife false LSelect LSelect GServe 0 MServing false false true false 0 false.

Lemma up_reachable : reachable life_up.
Proof.
  unfold reachable, life_start. eapply rtc_l; [apply l_janitor, ls_cycle|cbn].
  eapply rtc_l; [apply l_reaper, ls_cycle|cbn]. eapply rtc_l; [apply l_grpc, gs_listen|cbn]. apply rtc_refl.
Qed.

Lemma up_then s : rtc life_step life_up s → reachable s.
Proof. intros Hs. unfold reachable. transitivity life_up; [exact up_reachable|exact Hs]. Qed.

Lemma end_reachable : reachable (life_end true 0 0).
Proof.
  apply up_then. unfold life_up. eapply rtc_l; [apply l_signal|cbn].
  etrans; [by apply loops_end|]. eapply rtc_l; [apply l_grpc, gs_done; reflexivity|cbn].
  eapply rtc_l; [apply l_grpc, gs_stopped|cbn]. eapply rtc_l; [apply l_grpc, gs_drained; reflexivity|cbn].
  apply closes.
Qed.


(** C38: What a shutdown and a start can still do wrong.  Writers are stopped
    before streams are drained, so a batch can be accepted after the final
    seal even in a shutdown that meets the timeout; when it does not, the
    database is closed under components that still use it; when serving
    fails, the writers are never sealed; and when the port cannot be opened,
    [Run] serves on without a gRPC server. *)
Theorem shutdown_hazards :
  (∃ s, reachable s ∧ lf_main s = MReturned ∧ lf_timeout s = false ∧ lf_late s = 1%nat) ∧
  (∃ s, reachable s ∧ lf_misuse s = true ∧ lf_grpc s = GDraining) ∧
  (∃ s, reachable s ∧ lf_main s = MReturned ∧ lf_timeout s = false ∧ lf_sealed s = false) ∧
  (∃ s, reachable s ∧ lf_main s = MServing ∧ lf_ctx s = false ∧ lf_grpc s = GReturned).
Proof.
  split; [|split; [|split]].
  - exists (life_end true 0 1). split; [|done].
    apply up_then. unfold life_up. eapply rtc_l; [apply l_connect; reflexivity|cbn].
    eapply rtc_l; [apply l_signal|cbn]. etrans; [by apply loops_end|].
    eapply rtc_l; [apply l_grpc, gs_done; reflexivity|cbn]. eapply rtc_l; [apply l_grpc, gs_stopped|cbn].
    eapply rtc_l; [eapply l_batch; reflexivity|cbn]. eapply rtc_l; [eapply l_disconnect; reflexivity|cbn].
    eapply rtc_l; [apply l_grpc, gs_drained; reflexivity|cbn]. apply closes.
  - exists (mkLife true LSelect LSelect GDraining 0 MReturned true true false true 0 true). split; [|done].
    apply up_then. unfold life_up. eapply rtc_l; [apply l_signal|cbn].
    eapply rtc_l; [apply l_grpc, gs_done; reflexivity|cbn]. take l_cancelled. take l_timeout. take l_hook.
    take l_close. eapply rtc_l; [apply l_grpc, gs_stopped|cbn]. apply rtc_refl.
  - exists (life_end false 0 0). split; [|done].
    apply up_then. unfold life_up. eapply rtc_l; [apply l_grpc, gs_serve_error|cbn].
    eapply rtc_l; [apply l_signal|cbn]. etrans; [by apply loops_end|]. apply closes.
  - exists (mkLife false LCycle LCycle GReturned 0 MServing false false true false 0 false). split; [|done].
    unfold reachable, life_start. eapply rtc_l; [apply l_grpc, gs_listen_error|cbn]. apply rtc_refl.
Qed.
