(* ===== verification/Main.v ===== *)
(** * The command line: [cmd/bbdb/main.go]

    [start] loads the configuration, installs the logger, builds the server and
    runs it until a signal; [version] prints.  Parsing of the command line is
    cobra's.  What the components do while the server runs is an argument here
    and the subject of [Lifecycle]. *)
From Stdlib Require Import QArith_base.
From S2P Require Import Prelude GoTime GoFmt GoOs Pebble PebbleRef Bloom Format Tier World Query Config Logger Server.
#[local] Open Scope Z_scope.

Definition version : bytes := b!"dev".

(** What [newVersionCmd] prints. *)
Definition version_output : bytes := b!"bbdb " ++ version ++ [10].

Section start.
Context `{PebbleDriver} `{BloomLib} `{ViperLib} `{ZapLib}.

(** The process with its global logger. *)
Record Host := mkHost { ho_globals : list Core; ho_proc : Process }.

Definition h_globals {A} (m : ST (list Core) A) : ST Host A := fun h =>
  let '(g, r) := m (ho_globals h) in (mkHost g (ho_proc h), r).
Definition h_proc {A} (m : ST Process A) : ST Host A := fun h =>
  let '(p, r) := m (ho_proc h) in (mkHost (ho_globals h) p, r).

(** [srv.Run]: whatever the components did to disk and database until the
    signal ([serving]), then [Shutdown]; always nil. *)
Definition Run (serving : Server → Process → Process) (srv : Server) : ST Process unit := fun p =>
  (Shutdown srv (serving srv p), Ok tt).

(** [defer logger.Sync()]: whatever it returns is dropped. *)
Definition defer_Sync {A} (m : ST Host A) : ST Host A := fun h =>
  let '(h, r) := m h in (st_exec (h_globals Sync) h, r).

(** [RunE] of [newStartCmd]. *)
Definition start (serving : Server → Process → Process) (env : bytes → option bytes) (cfgFile : bytes)
  : ST Host unit :=
  let! cfg := st_wrap "load config" (of_result (Load env cfgFile)) in
  st_wrap "init logger" (h_globals (Init (Log cfg))) ;;;
  defer_Sync
    (let! srv := st_wrap "init server" (h_proc (New cfg)) in
     h_proc (Run serving srv)).

(** ** The commands

    A command either has subcommands or does something: print, or run on the
    host.  [cfgFile] is the value of the flag when the command runs. *)
Inductive Action := Prints (out : bytes) | Runs (m : ST Host unit).

Record Flag := mkFlag { fl_name : bytes; fl_short : bytes; fl_default : bytes }.

Record Command := mkCommand {
  cm_Use : bytes;
  cm_Short : bytes;
  cm_Run : Action;
}.

Record RootCommand := mkRoot {
  rt_Use : bytes;
  rt_Short : bytes;
  rt_PersistentFlags : list Flag;
  rt_Commands : list Command;
}.

Definition newStartCmd (serving : Server → Process → Process) (env : bytes → option bytes) (cfgFile : bytes)
  : Command := mkCommand (b!"start") (b!"Start the BBDB server") (Runs (start serving env cfgFile)).

Definition newVersionCmd : Command := mkCommand (b!"version") (b!"Print the version") (Prints version_output).

(** The bytes 226, 128, 148 are the dash. *)
Definition newRootCmd (serving : Server → Process → Process) (env : bytes → option bytes) (cfgFile : bytes)
  : RootCommand := {|
  rt_Use := b!"bbdb";
  rt_Short := b!"BigBrotherDB " ++ [226; 128; 148] ++ b!" append-only telecom event storage engine";
  rt_PersistentFlags := [mkFlag (b!"config") (b!"c") []];
  rt_Commands := [newStartCmd serving env cfgFile; newVersionCmd];
|}.

(** [main]: the exit code. *)
Definition main (r : result unit) : Z := match r with Ok _ => 0 | Err _ => 1 end.

(** [start] fails exactly at the stage that fails, with that stage named, and
    leaves no database open, however it ends: a wrong configuration leaves
    the process as it was, a wrong log setting leaves the logger as it was. *)
Theorem start_stages serving env cfgFile h h' r :
  pr_db (ho_proc h) = None → start serving env cfgFile h = (h', r) →
  pr_db (ho_proc h') = None ∧
  match Load env cfgFile with
  | Err e => r = Err (EWrap "load config" e) ∧ h' = h
  | Ok cfg =>
      match Init (Log cfg) (ho_globals h) with
      | (g, Err e) => r = Err (EWrap "init logger" e) ∧ h' = h
      | (g, Ok _) =>
          ho_globals h' = g ∧
          match New cfg (ho_proc h) with
          | (p, Err e) => r = Err (EWrap "init server" e)
          | (p, Ok _) => r = Ok tt ∧ main r = 0
          end
      end
  end.
Proof.
  intros Hp. unfold start, defer_Sync, st_exec, st_bind, st_wrap, of_result, h_globals, h_proc, Run, Sync.
  destruct (Load env cfgFile) as [cfg|e]; [|by intros [= <- <-]].
  destruct (Init (Log cfg) (ho_globals h)) as [g [[]|e]] eqn:EI; cbn [ho_globals ho_proc].
  - destruct (New cfg (ho_proc h)) as [p [srv|e]] eqn:EN; pose proof (New_spec _ _ _ _ Hp EN) as HN.
    + by intros [= <- <-].
    + by intros [= <- <-].
  - intros [= <- <-]. split; [done|]. split; [done|].
    unfold Init in EI. destruct (parseLevel _); [|by injection EI as <- _; destruct h].
    destruct (buildEncoder _); [done|]. by injection EI as <- _; destruct h.
Qed.
End start.
